(* ===== verification/_CoqProject ===== *)
-Q . S2P
Prelude.v
Core.v
Crc.v
Page.v
Superblock.v
DurableFile.v
Crashable.v
Wal.v
WalCodec.v
WalScan.v
WalLog.v
WalOpen.v
WalSafety.v
Format.v
FormatCodec.v
Cache.v
Reference.v
StoreState.v
Store.v
Tree.v
Heap.v
Own.v
Split.v
TreeOps.v
Point.v
Checker.v
Engine.v
ReadOps.v
CheckerSpec.v
Restamp.v
Finish.v
Txn.v
Group.v
Serve.v
Disk.v
Create.v
Recover.v
Durable.v
Crash.v
Flush.v
Checkpoint.v
System.v
Utf8.v
Service.v
Protocol.v
Wire.v
ProtocolSpec.v
Server.v
Budget.v
Admission.v
Examples.v
WireExamples.v
