(* ===== verification/Prelude.v ===== *)
(** * dodb: a verification development of the transactional document database

    dodb (src/dodb/crates) is a sharded document database: every shard is a
    B+tree in one data file, protected by a write-ahead log of page images.
    This library models the storage engine of a shard and proves it correct
    against the repository's own in-memory reference model, and models the wire
    protocol and the server's treatment of a request stream.

    ** The program's parts

    - dodb-core: document keys and their order-preserving encoding, revisions,
      transactions, errors.
    - dodb-storage: pages, superblocks, the write-ahead log, the B+tree with
      its page layouts, the page cache, the overlay in which a transaction is
      prepared, publication, flushing, checkpoints, recovery, and a structural
      checker.
    - dodb-testkit: a simulated crashing file, crash points, and the reference
      database that the tests compare the engine with.

    - dodb-service, dodb-protocol, dodb-server: requests and responses, their
      binary frames, and the server that answers a frame over a service.

    A request is executed in an overlay over the committed pages; the overlay's
    changed pages and a new superblock become one batch of the log; when the
    log is synced, the batch is published to the pages in memory.  The data
    file is written later, by a flush or a checkpoint; opening a database
    replays the log onto it.

    ** Conventions

    The embedding is shallow.  A function that may fail returns [Result E A]
    (Prelude.v), which keeps [Err], a Rust panic ([Panic]) and the exhaustion
    of fuel ([NoFuel]) apart; stateful code is in the state monad [ST S E A],
    which returns the state also when it fails.  [u64] and the other integer
    types are [Z] with the checked, wrapping or saturating operation of the
    source written out.  Byte strings are lists of [byte].  A [BTreeMap] is a
    [gmap] iterated in key order.  Elapsed times are arguments.

    Loops that are not structural take fuel.  Every use of a fuelled loop gives
    it an amount that is shown to be enough: the length of the buffer for short
    reads and writes (each round moves a byte), the number of pages below the
    high-water mark for walks of the tree, of the leaf chain and of the free
    list (each round enters a new page), and the longest overflow chain for
    values.  The theorems below conclude that the operations return, so a
    model that ran out of fuel would falsify them.

    The CRC-32C function ([Crc32c], Crc.v) and the file ([DurableFile],
    DurableFile.v) are classes.  The laws of the file are those its trait
    documents: short reads and writes, and writes that are volatile until a
    sync succeeds; [reliable] states say that no operation is going to fail.
    Crashable.v and Crc.v give the instances that the witnesses use.

    ** Files

    - Prelude.v: results, state monad, machine integers, byte slices, tactics
      and hint databases.
    - Core.v: src/dodb/crates/dodb-core/src.  Theorems: the key encoding is a
      bijection onto the keys that decode and preserves the order; request
      validation accepts exactly the unambiguous requests.
    - Crc.v, Page.v, Superblock.v: checksums, pages and superblocks
      (dodb-storage/src/page.rs, superblock.rs).  Theorems: round trips,
      selection of the superblock.
    - DurableFile.v, Crashable.v: durable_file.rs, fault.rs and the loops that
      complete short transfers; dodb-testkit's simulated file satisfies the
      laws.
    - Wal.v, WalCodec.v, WalScan.v, WalLog.v, WalOpen.v, WalSafety.v: wal.rs.
      Theorems: a group of commits is atomic and durable under any fault and a
      crash at any byte, opening recovers exactly the committed batches,
      resetting the log never makes it unreadable.
    - Format.v, FormatCodec.v: btree/format.rs.  Theorems: page contents
      round-trip, the size predicates are exact, reading never panics.
    - Cache.v: btree/cache.rs.  Theorem: capacity and eviction invariant.
    - Reference.v: the reference database (dodb-testkit/src/reference.rs).
      Theorems: optimistic transactions are serializable, requests atomic.
    - StoreState.v, Store.v: the state of a store and of an overlay, and the
      operations of the overlay (btree/mod.rs).
    - Checker.v: btree/checker.rs.  Engine.v: publication, groups of
      transactions, reads, flushing, checkpoints, creation and recovery
      (btree/mod.rs).
    - Tree.v, Heap.v, Own.v, Split.v, TreeOps.v, Point.v: the correctness of
      the overlay's tree operations.  An abstract [tree] lists the pages it
      occupies ([tree_pages]); [owns] says that every page id below the
      high-water mark has one owner; [db_at] is the representation invariant;
      [wp] is a weakest-precondition calculus for overlay operations on heaps
      of pages.
    - ReadOps.v: lookups, queries and scans under a response budget.
    - CheckerSpec.v: the checker accepts every tree of [db_at].
    - Restamp.v, Finish.v, Txn.v: finishing a transaction (restamping the
      provisional revision, page images, superblock) and its refinement of the
      reference database's [transact].
    - Group.v: [apply_transaction_group].  Serve.v: reads.  Create.v: opening
      two empty files.  [serving] is the invariant of a store in service that
      represents a reference database.
    - Disk.v, Recover.v, Durable.v, Crash.v: the files of a store.
      [recoverable] says what replaying the log makes of the data file;
      [on_disk] ties a store's pages to its files and log; [sound] is
      [serving] with files from which the store can be opened again.  Opening
      succeeds on such files, cut at any byte that a crash can leave.
    - Flush.v, Checkpoint.v: flushing, the invariant check and checkpoints,
      with a logic ([safe]) for programs that any fault injector may stop: at
      every stop the files are those of the same database.
    - System.v: the steps of a database, crashes included, and its theorems:
      every run refines the reference database; groups, checkpoints and
      restarts survive crashes; check_invariants accepts every store that was
      opened from its files or has committed - and rejects one that was just
      created, which is an error of the program.
    - Service.v, Utf8.v, Protocol.v: the requests and responses, Rust strings, and
      the codec of dodb-protocol/src/lib.rs.  Wire.v, ProtocolSpec.v: laws of
      pairs of writers and readers ([codec]) and their composition.  Theorems:
      a frame is accepted exactly when it is the encoding of the message that
      is read from it; decoding any bytes returns.
    - Server.v: serve_stream of dodb-server/src/lib.rs over any service.
      Theorems: a request is executed once and answered with the outcome of the
      service - and a case in which the server misreports an outcome, which is
      an error of the program.
    - Budget.v: a response within its budget fits its frame.  Admission.v: the
      transactions that the protocol admits satisfy what the correctness of
      transactions asks of them.
    - Examples.v, WireExamples.v: a concrete database and concrete messages on
      which the theorems apply.

    ** Not modelled

    The operating system's file ([ProductionFile]), threads and channels (the
    commit coordinator and the table of open shards), the QUIC transport with
    its connection limits, telemetry, the client's connection pool and the
    command line tools of dodb: their behaviour is that of libraries outside
    the repository.  The other projects of the repository (fn0, forte, obsy,
    doc-db, object-storage and the deployment code) are services around
    third-party runtimes and network interfaces, and are not part of this
    library. *)

From stdpp Require Export base list gmap sets strings sorting.
From coqutil Require Export Byte.
From coqutil Require Export Word.LittleEndianList.
From Stdlib Require Export ZArith Lia.

Global Open Scope Z_scope.
#[export] Set Warnings "-clear-no-such-hyp".

Global Arguments Z.compare : simpl never.
Global Arguments byte.unsigned : simpl never.

(** ** Results

    A Rust computation either returns [Ok], returns an error value [Err],
    panics (an out-of-range index, a failed [expect]) or, in the fuelled model
    of a loop, runs out of fuel.  [Panic] and [NoFuel] are kept apart from
    [Err] so that the absence of each can be stated. *)

Inductive Result (E A : Type) : Type :=
  | Ok (a : A)
  | Err (e : E)
  | Panic
  | NoFuel.
Arguments Ok {E A} a.
Arguments Err {E A} e.
Arguments Panic {E A}.
Arguments NoFuel {E A}.

Definition rbind {E A B} (m : Result E A) (k : A → Result E B) : Result E B :=
  match m with
  | Ok a => k a
  | Err e => Err e
  | Panic => Panic
  | NoFuel => NoFuel
  end.

Definition map_err {E E' A} (f : E → E') (m : Result E A) : Result E' A :=
  match m with
  | Ok a => Ok a
  | Err e => Err (f e)
  | Panic => Panic
  | NoFuel => NoFuel
  end.

Definition ok_or {E A} (o : option A) (e : E) : Result E A :=
  match o with Some a => Ok a | None => Err e end.

Definition is_ok {E A} (m : Result E A) : bool :=
  match m with Ok _ => true | _ => false end.

Definition unwrap_or {E A} (m : Result E A) (d : A) : A :=
  match m with Ok a => a | _ => d end.

(** An error return, as opposed to a panic or an exhausted loop. *)
Definition is_err {E A} (m : Result E A) : bool :=
  match m with Err _ => true | _ => false end.

(** The computation returns to its caller, with a value or an error. *)
Definition returns {E A} (m : Result E A) : Prop :=
  match m with Ok _ | Err _ => True | Panic | NoFuel => False end.

Declare Scope dodb_scope.
Delimit Scope dodb_scope with dodb.
Global Open Scope dodb_scope.

Notation "'let?' x := m 'in' k" := (rbind m (fun x => k))
  (at level 10, x name, m at level 100, k at level 200,
   format "'[v' 'let?'  x  :=  m  'in' '/' k ']'") : dodb_scope.
Notation "'let?' ' p := m 'in' k" := (rbind m (fun x => match x with p => k end))
  (at level 10, p pattern, m at level 100, k at level 200,
   format "'[v' 'let?'  ' p  :=  m  'in' '/' k ']'") : dodb_scope.
(** [guard? b else e in k]: an early return of [e] when [b] is false. *)
Notation "'guard?' b 'else' e 'in' k" := (if b then k else Err e)
  (at level 10, b at level 100, e at level 100, k at level 200,
   format "'[v' 'guard?'  b  'else'  e  'in' '/' k ']'") : dodb_scope.

Fixpoint mapR {E A B} (f : A → Result E B) (l : list A) : Result E (list B) :=
  match l with
  | [] => Ok []
  | x :: l => let? y := f x in let? ys := mapR f l in Ok (y :: ys)
  end.

Fixpoint foldR {E A B} (f : B → A → Result E B) (b : B) (l : list A) : Result E B :=
  match l with
  | [] => Ok b
  | x :: l => let? b' := f b x in foldR f b' l
  end.

(** ** Stateful computations

    [&mut self] methods: the state after the call is kept on every outcome, so
    that what an early return leaves behind is part of the model. *)

Definition ST (S E A : Type) : Type := S → Result E A * S.

Definition ret {S E A} (a : A) : ST S E A := fun s => (Ok a, s).
Definition throw {S E A} (e : E) : ST S E A := fun s => (Err e, s).
Definition bind {S E A B} (m : ST S E A) (k : A → ST S E B) : ST S E B :=
  fun s =>
    match m s with
    | (Ok a, s') => k a s'
    | (Err e, s') => (Err e, s')
    | (Panic, s') => (Panic, s')
    | (NoFuel, s') => (NoFuel, s')
    end.
Definition lift {S E A} (m : Result E A) : ST S E A := fun s => (m, s).
Definition get {S E} : ST S E S := fun s => (Ok s, s).
Definition gets {S E A} (f : S → A) : ST S E A := fun s => (Ok (f s), s).
Definition modify {S E} (f : S → S) : ST S E unit := fun s => (Ok tt, f s).
(** Runs [m] on the part of the state selected by [g] and updated by [u]. *)
Definition zoom {S T E A} (g : S → T) (u : T → S → S) (m : ST T E A) : ST S E A :=
  fun s => let '(r, t) := m (g s) in (r, u t s).
(** The outcome of [m] as a value: [match m { Ok .. Err .. }] in the source. *)
Definition mapping_err {S E E' A} (f : E → E') (m : ST S E A) : ST S E' A :=
  fun s => let '(r, s') := m s in (map_err f r, s').
Definition attempt {S E A} (m : ST S E A) : ST S E (A + E) :=
  fun s =>
    match m s with
    | (Ok a, s') => (Ok (inl a), s')
    | (Err e, s') => (Ok (inr e), s')
    | (Panic, s') => (Panic, s')
    | (NoFuel, s') => (NoFuel, s')
    end.

Notation "'let*' x := m 'in' k" := (bind m (fun x => k))
  (at level 10, x name, m at level 100, k at level 200,
   format "'[v' 'let*'  x  :=  m  'in' '/' k ']'") : dodb_scope.
Notation "'let*' ' p := m 'in' k" := (bind m (fun x => match x with p => k end))
  (at level 10, p pattern, m at level 100, k at level 200,
   format "'[v' 'let*'  ' p  :=  m  'in' '/' k ']'") : dodb_scope.
Notation "'do*' m 'in' k" := (bind m (fun _ => k))
  (at level 10, m at level 100, k at level 200,
   format "'[v' 'do*'  m  'in' '/' k ']'") : dodb_scope.
Notation "'guard*' b 'else' e 'in' k" := (if b then k else throw e)
  (at level 10, b at level 100, e at level 100, k at level 200,
   format "'[v' 'guard*'  b  'else'  e  'in' '/' k ']'") : dodb_scope.

Fixpoint forM {S E A} (l : list A) (f : A → ST S E unit) : ST S E unit :=
  match l with
  | [] => ret tt
  | x :: l => do* f x in forM l f
  end.

Fixpoint mapM {S E A B} (f : A → ST S E B) (l : list A) : ST S E (list B) :=
  match l with
  | [] => ret []
  | x :: l => let* y := f x in let* ys := mapM f l in ret (y :: ys)
  end.

Fixpoint foldM {S E A B} (f : B → A → ST S E B) (b : B) (l : list A) : ST S E B :=
  match l with
  | [] => ret b
  | x :: l => let* b' := f b x in foldM f b' l
  end.

(** ** Machine integers

    [u8] is [byte]; [u16], [u32], [u64] and [usize] (64 bits wide) are integers
    of type [Z], with their range as a side condition. *)

Definition U16_MAX : Z := 65535.
Definition U32_MAX : Z := 4294967295.
Definition U64_MAX : Z := 18446744073709551615.
Definition USIZE_MAX : Z := U64_MAX.

Definition is_u16 (z : Z) : Prop := 0 ≤ z ≤ U16_MAX.
Definition is_u32 (z : Z) : Prop := 0 ≤ z ≤ U32_MAX.
Definition is_u64 (z : Z) : Prop := 0 ≤ z ≤ U64_MAX.

Definition checked_add (a b : Z) : option Z :=
  if a + b <=? U64_MAX then Some (a + b) else None.
Definition checked_mul (a b : Z) : option Z :=
  if a * b <=? U64_MAX then Some (a * b) else None.
Definition checked_sub (a b : Z) : option Z :=
  if b <=? a then Some (a - b) else None.
Definition saturating_add (a b : Z) : Z := Z.min (a + b) U64_MAX.
Definition saturating_sub (a b : Z) : Z := Z.max (a - b) 0.
(** [a + b] on [usize], which panics on overflow under overflow checks. *)
Definition plain_add {E} (a b : Z) : Result E Z :=
  if a + b <=? U64_MAX then Ok (a + b) else Panic.
Definition plain_mul {E} (a b : Z) : Result E Z :=
  if a * b <=? U64_MAX then Ok (a * b) else Panic.
Definition wrapping_add (a b : Z) : Z := (a + b) mod (U64_MAX + 1).
(** Conversions that fail outside the target's range. *)
Definition u32_try_from (z : Z) : option Z := if z <=? U32_MAX then Some z else None.
Definition u64_try_from (z : Z) : option Z := if z <=? U64_MAX then Some z else None.
Definition usize_try_from (z : Z) : option Z := if z <=? USIZE_MAX then Some z else None.
(** [as u16] and [as u32] truncate. *)
Definition as_u16 (z : Z) : Z := z mod 65536.
Definition as_u32 (z : Z) : Z := z mod 4294967296.

Definition u16_to_le_bytes (z : Z) : list byte := le_split 2 z.
Definition u32_to_le_bytes (z : Z) : list byte := le_split 4 z.
Definition u64_to_le_bytes (z : Z) : list byte := le_split 8 z.
Definition from_le_bytes (bs : list byte) : Z := le_combine bs.

(** ** Byte strings and slices *)

Global Instance byte_eq_decision : EqDecision byte := Byte.byte_eq_dec.
Global Instance byte_countable : Countable byte :=
  inj_countable Byte.to_N Byte.of_N Byte.of_to_N.

Definition len {A} (l : list A) : Z := Z.of_nat (length l).

(** The elements at positions [a .. b). *)
Definition sub {A} (l : list A) (a b : Z) : list A :=
  take (Z.to_nat (b - a)) (drop (Z.to_nat a) l).

(** [&l[a..b]]. *)
Definition slice {E A} (l : list A) (a b : Z) : Result E (list A) :=
  if (0 <=? a) && (a <=? b) && (b <=? len l) then Ok (sub l a b) else Panic.

(** [l[i]]. *)
Definition index {E A} (l : list A) (i : Z) : Result E A :=
  if 0 <=? i then match l !! Z.to_nat i with Some x => Ok x | None => Panic end
  else Panic.

(** [l] with the elements from position [a] on replaced by [s], cut off at the
    end of [l] so that the length never changes. *)
Definition splice {A} (l : list A) (a : Z) (s : list A) : list A :=
  take (Z.to_nat a) l ++ take (length l - Z.to_nat a) s ++ drop (Z.to_nat (a + len s)) l.

(** [l[a..b].copy_from_slice(s)]. *)
Definition copy_from_slice {E A} (l : list A) (a b : Z) (s : list A) : Result E (list A) :=
  if (0 <=? a) && (a <=? b) && (b <=? len l) && (b - a =? len s)
  then Ok (splice l a s) else Panic.

(** [l[i] = x]. *)
Definition set_index {E A} (l : list A) (i : Z) (x : A) : Result E (list A) :=
  copy_from_slice l i (i + 1) [x].

Definition zeros (n : Z) : list byte := replicate (Z.to_nat n) Byte.x00.

(** [bytes.iter().any(|byte| byte != 0)]. *)
Definition any_nonzero (bs : list byte) : bool :=
  existsb (fun b => negb (bool_decide (b = Byte.x00))) bs.

(** [bs1 == bs2]. *)
Definition bytes_eqb (bs1 bs2 : list byte) : bool := bool_decide (bs1 = bs2).

(** The bytes of a string literal, [b"..."] in the source. *)
Definition bstr (s : string) : list byte := String.list_byte_of_string s.

(** [Ord for Vec<u8>]: lexicographic, a proper prefix being smaller. *)
Fixpoint bytes_compare (a b : list byte) : comparison :=
  match a, b with
  | [], [] => Eq
  | [], _ :: _ => Lt
  | _ :: _, [] => Gt
  | x :: a, y :: b =>
      match Z.compare (byte.unsigned x) (byte.unsigned y) with
      | Eq => bytes_compare a b
      | c => c
      end
  end.

Definition bytes_lt (a b : list byte) : bool :=
  match bytes_compare a b with Lt => true | _ => false end.
Definition bytes_le (a b : list byte) : bool :=
  match bytes_compare a b with Gt => false | _ => true end.

(** [Ordering::then]: the second comparison decides when the first is equal. *)
Definition then_cmp (c d : comparison) : comparison :=
  match c with Eq => d | _ => c end.

(** [windows(2)] tested pairwise. *)
Fixpoint windows2 {A} (p : A → A → bool) (l : list A) : bool :=
  match l with
  | x :: ((y :: _) as l') => p x y && windows2 p l'
  | _ => true
  end.

(** ** Tactics *)

(** Reads off what a successful [rbind] chain went through. *)
Lemma rbind_Ok {E A B} (m : Result E A) (k : A → Result E B) b :
  rbind m k = Ok b ↔ ∃ a, m = Ok a ∧ k a = Ok b.
Proof.
  split; [destruct m; simpl; try done; by eauto|].
  intros (a & -> & H). done.
Qed.

Lemma is_ok_unwrap {E A} (m : Result E A) d : is_ok m = true → m = Ok (unwrap_or m d).
Proof. by destruct m. Qed.

Lemma rbind_assoc {E A B C} (m : Result E A) (f : A → Result E B) (g : B → Result E C) :
  rbind (rbind m f) g = rbind m (λ a, rbind (f a) g).
Proof. by destruct m. Qed.

Lemma foldR_app {E A B} (f : B → A → Result E B) b l1 l2 :
  foldR f b (l1 ++ l2) = rbind (foldR f b l1) (λ b', foldR f b' l2).
Proof.
  revert b. induction l1 as [|x l1 IH]; intros b; simpl; [done|].
  destruct (f b x); simpl; [apply IH|done..].
Qed.

Lemma foldR_units {E A} (g : A → Result E unit) l :
  Forall (λ x, g x = Ok tt) l → foldR (λ _ x, g x) tt l = Ok tt.
Proof. induction 1 as [|x l Hx _ IH]; [done|]. simpl. by rewrite Hx. Qed.

Lemma bind_eq {S E A B} (m : ST S E A) (k : A → ST S E B) s :
  bind m k s = match m s with
               | (Ok a, s') => k a s'
               | (Err e, s') => (Err e, s')
               | (Panic, s') => (Panic, s')
               | (NoFuel, s') => (NoFuel, s')
               end.
Proof. done. Qed.

Lemma bind_Ok {S E A B} (m : ST S E A) (k : A → ST S E B) s b s' :
  bind m k s = (Ok b, s') ↔ ∃ a s1, m s = (Ok a, s1) ∧ k a s1 = (Ok b, s').
Proof.
  unfold bind. split; [destruct (m s) as [[] ?]; try done; by eauto|].
  intros (a & s1 & -> & H). done.
Qed.

(** Turns boolean tests on integers in the context into propositions. *)
Ltac bool_props :=
  repeat match goal with
  | H : _ && _ = true |- _ => apply andb_prop in H as [? ?]
  | H : _ || _ = false |- _ => apply orb_false_elim in H as [? ?]
  | H : negb _ = true |- _ => apply negb_true_iff in H
  | H : negb _ = false |- _ => apply negb_false_iff in H
  | H : bytes_eqb _ _ = _ |- _ => unfold bytes_eqb in H
  | H : bool_decide _ = true |- _ => apply bool_decide_eq_true in H
  | H : bool_decide _ = false |- _ => apply bool_decide_eq_false in H
  | H : (_ <=? _) = true |- _ => apply Z.leb_le in H
  | H : (_ <=? _) = false |- _ => apply Z.leb_gt in H
  | H : (_ <? _) = true |- _ => apply Z.ltb_lt in H
  | H : (_ <? _) = false |- _ => apply Z.ltb_ge in H
  | H : (_ =? _) = true |- _ => apply Z.eqb_eq in H
  | H : (_ =? _) = false |- _ => apply Z.eqb_neq in H
  end.

(** What a slice or index that did not panic read. *)
Ltac slices_inv_with lem_slice lem_index :=
  repeat match goal with
  | E : slice _ _ _ = Ok _ |- _ => apply lem_slice in E as (_ & _ & ?)
  | E : index _ _ = Ok _ |- _ => apply lem_index in E as (_ & ?)
  end; subst.

(** One step of a successful monadic computation in hypothesis [H]. *)
Ltac ok_step H :=
  lazymatch type of H with
  | rbind _ _ = Ok _ =>
      let a := fresh "a" in let E := fresh "E" in
      apply rbind_Ok in H as (a & E & H)
  | bind _ _ _ = (Ok _, _) =>
      let a := fresh "a" in let s := fresh "s" in let E := fresh "E" in
      apply bind_Ok in H as (a & s & E & H)
  | (if ?b then _ else _) = Ok _ =>
      let E := fresh "E" in destruct b eqn:E; [|discriminate H]
  | (if ?b then _ else _) _ = (Ok _, _) =>
      let E := fresh "E" in destruct b eqn:E; [|discriminate H]
  end.
Ltac ok_steps H := repeat (ok_step H).

(** Constants that arithmetic sees through. *)
Create HintDb consts.
#[export] Hint Unfold U16_MAX U32_MAX U64_MAX USIZE_MAX is_u16 is_u32 is_u64 : consts.
Ltac Zify.zify_pre_hook ::= autounfold with consts in *.

(** ** Lengths, slices and updates *)

Global Arguments len {A} l : simpl never.
Global Arguments sub {A} l a b : simpl never.
Global Arguments splice {A} l a s : simpl never.
Global Arguments zeros n : simpl never.
Global Arguments u16_to_le_bytes z : simpl never.
Global Arguments u32_to_le_bytes z : simpl never.
Global Arguments u64_to_le_bytes z : simpl never.
Global Arguments from_le_bytes bs : simpl never.
Global Arguments copy_from_slice {E A} l a b s : simpl never.

Create Rewrite HintDb len.
Create HintDb dodb discriminated.

Section slices.
Context {A : Type}.
Implicit Types (l s : list A) (a b c d n : Z).

Lemma len_nonneg l : 0 ≤ len l.
Proof. unfold len; lia. Qed.
Lemma len_nil : len (@nil A) = 0.
Proof. done. Qed.
Lemma len_cons x l : len (x :: l) = 1 + len l.
Proof. unfold len; simpl; lia. Qed.
Lemma len_app l s : len (l ++ s) = len l + len s.
Proof. unfold len; rewrite length_app; lia. Qed.
Lemma len_0_nil l : len l = 0 → l = [].
Proof. destruct l; [done|]. rewrite len_cons. pose proof (len_nonneg l). lia. Qed.
Lemma to_nat_len l : Z.to_nat (len l) = length l.
Proof. unfold len; lia. Qed.
Lemma len_take n l : 0 ≤ n ≤ len l → len (take (Z.to_nat n) l) = n.
Proof. unfold len; rewrite length_take; lia. Qed.
Lemma len_drop n l : 0 ≤ n ≤ len l → len (drop (Z.to_nat n) l) = len l - n.
Proof. unfold len; rewrite length_drop; lia. Qed.
Lemma len_replicate n (x : A) : 0 ≤ n → len (replicate (Z.to_nat n) x) = n.
Proof. unfold len; rewrite length_replicate; lia. Qed.

Lemma len_sub l a b : 0 ≤ a ≤ b → b ≤ len l → len (sub l a b) = b - a.
Proof. unfold sub, len; rewrite length_take, length_drop; lia. Qed.

Lemma lookup_sub l a b i :
  0 ≤ a ≤ b → 
  sub l a b !! i = if decide (Z.of_nat i < b - a) then l !! (Z.to_nat a + i)%nat else None.
Proof.
  intros. unfold sub. case_decide.
  - rewrite lookup_take_lt by lia. by rewrite lookup_drop.
  - apply lookup_take_ge. lia.
Qed.

Lemma sub_all l : sub l 0 (len l) = l.
Proof. unfold sub. rewrite Z.sub_0_r, to_nat_len. simpl. by apply take_ge. Qed.

Lemma sub_all' l n : n = len l → sub l 0 n = l.
Proof. intros ->. apply sub_all. Qed.

Lemma sub_empty l a : sub l a a = [].
Proof. unfold sub. by rewrite Z.sub_diag. Qed.

Lemma sub_app_l l s a b : 0 ≤ a ≤ b → b ≤ len l → sub (l ++ s) a b = sub l a b.
Proof.
  intros Ha Hb. unfold sub, len in *.
  rewrite drop_app_le by lia. rewrite take_app_le; [done|]. rewrite length_drop. lia.
Qed.

Lemma sub_app_r l s a b :
  len l ≤ a ≤ b → sub (l ++ s) a b = sub s (a - len l) (b - len l).
Proof.
  intros Ha. unfold sub, len in *.
  rewrite drop_app_ge by lia. f_equal; [lia|]. f_equal. lia.
Qed.

Lemma sub_app_exact l s t n m :
  n = len l → m = len l + len s → sub (l ++ s ++ t) n m = s.
Proof.
  intros -> ->. pose proof (len_nonneg s). pose proof (len_nonneg l).
  rewrite sub_app_r by lia.
  replace (len l - len l) with 0 by lia. replace (len l + len s - len l) with (len s) by lia.
  rewrite sub_app_l by lia. apply sub_all.
Qed.

Lemma sub_sub l a b c d :
  0 ≤ a → 0 ≤ c ≤ d → d ≤ b - a → sub (sub l a b) c d = sub l (a + c) (a + d).
Proof.
  intros. apply list_eq. intros i. rewrite !lookup_sub by lia.
  case_decide; case_decide; try lia; [|done].
  case_decide; [|lia]. f_equal. lia.
Qed.

Lemma sub_split l a b c : 0 ≤ a ≤ b → b ≤ c → sub l a c = sub l a b ++ sub l b c.
Proof.
  intros. unfold sub.
  replace (Z.to_nat (c - a)) with (Z.to_nat (b - a) + Z.to_nat (c - b))%nat by lia.
  rewrite <- take_take_drop, drop_drop. do 3 f_equal. lia.
Qed.

Lemma splice_len l a s : 0 ≤ a → len (splice l a s) = len l.
Proof.
  intros. unfold splice, len. rewrite !length_app, !length_take, length_drop. lia.
Qed.

Lemma lookup_splice l a s i :
  0 ≤ a → a + len s ≤ len l →
  splice l a s !! i =
    if decide (a ≤ Z.of_nat i < a + len s) then s !! (i - Z.to_nat a)%nat else l !! i.
Proof.
  intros Ha Hs. unfold splice, len in *. rewrite (take_ge s) by lia.
  destruct (decide (Z.of_nat i < a)) as [H1|H1].
  - rewrite lookup_app_l by (rewrite length_take; lia).
    rewrite lookup_take_lt by lia. by rewrite decide_False by lia.
  - rewrite lookup_app_r by (rewrite length_take; lia).
    rewrite length_take. destruct (decide (Z.of_nat i < a + Z.of_nat (length s))) as [H2|H2].
    + rewrite lookup_app_l by lia. rewrite decide_True by lia. f_equal. lia.
    + rewrite lookup_app_r by lia. rewrite lookup_drop, decide_False by lia. f_equal. lia.
Qed.

(** Reading back what was written, and what was not. *)
Lemma sub_splice_same l a s b : 0 ≤ a → a + len s ≤ len l → b = a + len s → sub (splice l a s) a b = s.
Proof.
  intros Ha Hs ->. pose proof (len_nonneg s). apply list_eq. intros i.
  rewrite lookup_sub, lookup_splice by lia. unfold len in *.
  repeat case_decide; try lia.
  - f_equal. lia.
  - by rewrite lookup_ge_None_2 by lia.
Qed.

Lemma sub_splice_ne l a s b c :
  0 ≤ a → a + len s ≤ len l → 0 ≤ b ≤ c → c ≤ a ∨ a + len s ≤ b →
  sub (splice l a s) b c = sub l b c.
Proof.
  intros. apply list_eq. intros i. rewrite !lookup_sub by lia.
  case_decide; [|done]. rewrite lookup_splice by lia. by rewrite decide_False by lia.
Qed.

Lemma splice_splice_same l a s t :
  0 ≤ a → a + len s ≤ len l → len s = len t → splice (splice l a s) a t = splice l a t.
Proof.
  intros Ha Hs Hst. apply list_eq. intros i.
  rewrite !lookup_splice by (rewrite ?splice_len; lia).
  case_decide; [done|]. by rewrite decide_False by lia.
Qed.

Lemma splice_id l a s : 0 ≤ a → a + len s ≤ len l → sub l a (a + len s) = s → splice l a s = l.
Proof.
  intros Ha Hs Hsub. pose proof (len_nonneg s). apply list_eq. intros i.
  rewrite lookup_splice by lia. case_decide; [|done].
  rewrite <- Hsub, lookup_sub by lia. rewrite decide_True by lia. f_equal. lia.
Qed.

(** A position holds [x] exactly when the one-element slice there is [[x]]. *)
Lemma sub_single l a x : 0 ≤ a → sub l a (a + 1) = [x] ↔ l !! Z.to_nat a = Some x.
Proof.
  intros Ha. split.
  - intros H. pose proof (lookup_sub l a (a+1) 0 ltac:(lia)) as L. rewrite H in L.
    rewrite decide_True in L by lia. simpl in L. rewrite Nat.add_0_r in L. done.
  - intros H. apply list_eq. intros i. rewrite lookup_sub by lia. case_decide.
    + assert (i = 0%nat) as -> by lia. by rewrite Nat.add_0_r.
    + destruct i; [lia|done].
Qed.

Lemma slice_Ok {E} l a b : 0 ≤ a ≤ b → b ≤ len l → slice (E:=E) l a b = Ok (sub l a b).
Proof. intros. unfold slice. by rewrite !(proj2 (Z.leb_le _ _)) by lia. Qed.

Lemma slice_inv {E} l a b s :
  slice (E:=E) l a b = Ok s → 0 ≤ a ≤ b ∧ b ≤ len l ∧ s = sub l a b.
Proof. unfold slice. intros H. ok_steps H. bool_props. naive_solver. Qed.

Lemma index_Ok {E} l i : 0 ≤ i < len l → ∃ x, index (E:=E) l i = Ok x ∧ l !! Z.to_nat i = Some x.
Proof.
  intros H. unfold index. rewrite (proj2 (Z.leb_le _ _)) by lia.
  destruct (lookup_lt_is_Some_2 l (Z.to_nat i)) as [x Hx]; [unfold len in H; lia|].
  rewrite Hx. eauto.
Qed.

Lemma index_inv {E} l i x :
  index (E:=E) l i = Ok x → 0 ≤ i ∧ sub l i (i + 1) = [x].
Proof.
  unfold index. intros H. ok_steps H. bool_props. split; [done|].
  apply sub_single; [done|]. destruct (l !! Z.to_nat i); congruence.
Qed.

Lemma copy_Ok {E} l a b s :
  0 ≤ a → b ≤ len l → b = a + len s → copy_from_slice (E:=E) l a b s = Ok (splice l a s).
Proof.
  intros. pose proof (len_nonneg s). unfold copy_from_slice.
  rewrite !(proj2 (Z.leb_le _ _)), (proj2 (Z.eqb_eq _ _)) by lia. done.
Qed.

Lemma index_sub {E} l a x : 0 ≤ a → sub l a (a + 1) = [x] → index (E:=E) l a = Ok x.
Proof.
  intros Ha H. unfold index. rewrite (proj2 (Z.leb_le _ _)) by lia.
  apply sub_single in H; [|done]. by rewrite H.
Qed.

End slices.

Ltac slices_inv := slices_inv_with (@slice_inv) (@index_inv).

(** ** Little-endian fields *)

Lemma len_le_split n z : len (le_split n z) = Z.of_nat n.
Proof. unfold len. by rewrite length_le_split. Qed.

Lemma len_u16 z : len (u16_to_le_bytes z) = 2.
Proof. apply len_le_split. Qed.
Lemma len_u32 z : len (u32_to_le_bytes z) = 4.
Proof. apply len_le_split. Qed.
Lemma len_u64 z : len (u64_to_le_bytes z) = 8.
Proof. apply len_le_split. Qed.
Lemma len_zeros n : 0 ≤ n → len (zeros n) = n.
Proof. apply len_replicate. Qed.

Lemma from_u16 z : is_u16 z → from_le_bytes (u16_to_le_bytes z) = z.
Proof.
  unfold is_u16, U16_MAX, from_le_bytes, u16_to_le_bytes. intros.
  rewrite le_combine_split. apply Z.mod_small. lia.
Qed.
Lemma from_u32 z : is_u32 z → from_le_bytes (u32_to_le_bytes z) = z.
Proof.
  unfold is_u32, U32_MAX, from_le_bytes, u32_to_le_bytes. intros.
  rewrite le_combine_split. apply Z.mod_small. lia.
Qed.
Lemma from_u64 z : is_u64 z → from_le_bytes (u64_to_le_bytes z) = z.
Proof.
  unfold is_u64, U64_MAX, from_le_bytes, u64_to_le_bytes. intros.
  rewrite le_combine_split. apply Z.mod_small. lia.
Qed.

Lemma to_le_from_le bs n : length bs = n → le_split n (from_le_bytes bs) = bs.
Proof. intros <-. apply split_le_combine. Qed.

Lemma from_le_bound bs : 0 ≤ from_le_bytes bs < 2 ^ (8 * len bs).
Proof. apply le_combine_bound. Qed.

Lemma from_le_u16 bs : len bs = 2 → is_u16 (from_le_bytes bs).
Proof. intros H. pose proof (from_le_bound bs) as B. rewrite H in B. unfold is_u16, U16_MAX. lia. Qed.
Lemma from_le_u32 bs : len bs = 4 → is_u32 (from_le_bytes bs).
Proof. intros H. pose proof (from_le_bound bs) as B. rewrite H in B. unfold is_u32, U32_MAX. lia. Qed.
Lemma from_le_u64 bs : len bs = 8 → is_u64 (from_le_bytes bs).
Proof. intros H. pose proof (from_le_bound bs) as B. rewrite H in B. unfold is_u64, U64_MAX. lia. Qed.

Lemma u16_from_le bs : len bs = 2 → u16_to_le_bytes (from_le_bytes bs) = bs.
Proof. intros H. apply to_le_from_le. unfold len in H. lia. Qed.
Lemma u32_from_le bs : len bs = 4 → u32_to_le_bytes (from_le_bytes bs) = bs.
Proof. intros H. apply to_le_from_le. unfold len in H. lia. Qed.
Lemma u64_from_le bs : len bs = 8 → u64_to_le_bytes (from_le_bytes bs) = bs.
Proof. intros H. apply to_le_from_le. unfold len in H. lia. Qed.

#[export] Hint Rewrite @len_nil @len_cons @len_app len_u16 len_u32 len_u64 : len.
#[export] Hint Rewrite @len_take @len_drop @len_sub @splice_len len_zeros using lia : len.

(** Computes lengths, then arithmetic. *)
Ltac len_simpl := autorewrite with len in *.
Ltac len_tac := autorewrite with len in *; lia.

(** Resolves a slice of an updated buffer: the slice written last, or one that
    the update does not touch. *)
Ltac read_back :=
  repeat first
    [ rewrite sub_splice_same by (autorewrite with len; lia)
    | rewrite sub_splice_ne by (autorewrite with len; lia) ].

Lemma zeros_lookup n i b : zeros n !! i = Some b → b = Byte.x00.
Proof. intros H. apply lookup_replicate in H. tauto. Qed.

Lemma sub_zeros n a b : 0 ≤ a ≤ b → b ≤ n → sub (zeros n) a b = zeros (b - a).
Proof.
  intros. apply list_eq. intros i. rewrite lookup_sub by lia. unfold zeros.
  case_decide.
  - rewrite !lookup_replicate_2 by lia. done.
  - symmetry. apply lookup_replicate_None. lia.
Qed.

Lemma any_nonzero_false bs : any_nonzero bs = false ↔ bs = zeros (len bs).
Proof.
  unfold zeros, any_nonzero. rewrite to_nat_len. induction bs as [|b bs IH]; [done|].
  simpl. rewrite orb_false_iff, negb_false_iff, bool_decide_eq_true, IH. split.
  - intros [-> H]. by rewrite <- H.
  - intros [= -> H]. done.
Qed.

Lemma any_nonzero_zeros n : any_nonzero (zeros n) = false.
Proof.
  apply any_nonzero_false. unfold zeros. f_equal. rewrite to_nat_len, length_replicate. done.
Qed.

Lemma bytes_eqb_refl bs : bytes_eqb bs bs = true.
Proof. by apply bool_decide_eq_true. Qed.
Lemma bytes_eqb_eq bs cs : bytes_eqb bs cs = true ↔ bs = cs.
Proof. apply bool_decide_eq_true. Qed.

(** ** The order on byte strings *)

Lemma bytes_compare_eq a b : bytes_compare a b = Eq ↔ a = b.
Proof.
  revert b; induction a as [|x a IH]; intros [|y b]; try done. simpl.
  destruct (Z.compare_spec (byte.unsigned x) (byte.unsigned y)) as [H|H|H].
  - apply byte.unsigned_inj in H as ->. rewrite IH. naive_solver.
  - split; [done|]. intros [= -> _]. lia.
  - split; [done|]. intros [= -> _]. lia.
Qed.

Lemma bytes_compare_refl a : bytes_compare a a = Eq.
Proof. by apply bytes_compare_eq. Qed.

Lemma bytes_compare_antisym a b : bytes_compare b a = CompOpp (bytes_compare a b).
Proof.
  revert b; induction a as [|x a IH]; intros [|y b]; try done. simpl.
  rewrite (Z.compare_antisym (byte.unsigned x)).
  destruct (byte.unsigned x ?= byte.unsigned y); simpl; auto.
Qed.

Lemma bytes_lt_trans a b c : bytes_lt a b = true → bytes_lt b c = true → bytes_lt a c = true.
Proof.
  unfold bytes_lt. revert b c; induction a as [|x a IH]; intros [|y b] [|z c]; try done. simpl.
  destruct (Z.compare_spec (byte.unsigned x) (byte.unsigned y)) as [H1|H1|H1];
  destruct (Z.compare_spec (byte.unsigned y) (byte.unsigned z)) as [H2|H2|H2]; try done;
  destruct (Z.compare_spec (byte.unsigned x) (byte.unsigned z)) as [H3|H3|H3]; try lia; eauto.
Qed.

Lemma bytes_lt_irrefl a : bytes_lt a a = false.
Proof. unfold bytes_lt. by rewrite bytes_compare_refl. Qed.

Lemma bytes_le_negb a b : bytes_le a b = negb (bytes_lt b a).
Proof.
  unfold bytes_le, bytes_lt. rewrite (bytes_compare_antisym a b).
  by destruct (bytes_compare a b).
Qed.

Lemma bytes_lt_ne a b : bytes_lt a b = true → a ≠ b.
Proof. intros H ->. by rewrite bytes_lt_irrefl in H. Qed.

Lemma bytes_le_lteq a b : bytes_le a b = true ↔ bytes_lt a b = true ∨ a = b.
Proof.
  unfold bytes_le, bytes_lt. rewrite <- bytes_compare_eq.
  destruct (bytes_compare a b); naive_solver.
Qed.

Lemma bytes_le_lt_trans a b c : bytes_le a b = true → bytes_lt b c = true → bytes_lt a c = true.
Proof. rewrite bytes_le_lteq. intros [H| ->]; eauto using bytes_lt_trans. Qed.
Lemma bytes_lt_le_trans a b c : bytes_lt a b = true → bytes_le b c = true → bytes_lt a c = true.
Proof. rewrite bytes_le_lteq. intros H [H'| <-]; eauto using bytes_lt_trans. Qed.
Lemma bytes_le_refl a : bytes_le a a = true.
Proof. unfold bytes_le. by rewrite bytes_compare_refl. Qed.

Lemma bytes_lt_trichotomy a b : bytes_lt a b = true ∨ a = b ∨ bytes_lt b a = true.
Proof.
  unfold bytes_lt. rewrite (bytes_compare_antisym a b), <- bytes_compare_eq.
  destruct (bytes_compare a b); naive_solver.
Qed.

#[export] Hint Resolve bytes_lt_trans bytes_le_lt_trans bytes_lt_le_trans bytes_le_refl : dodb.

(** Two buffers agree on [a .. c) when they agree on its parts. *)
Lemma sub_ext_split {A} (l1 l2 : list A) a b c :
  0 ≤ a ≤ b → b ≤ c → sub l1 a b = sub l2 a b → sub l1 b c = sub l2 b c → sub l1 a c = sub l2 a c.
Proof. intros ?? H1 H2. rewrite !(sub_split _ a b c) by lia. by rewrite H1, H2. Qed.

Lemma sub_ext {A} (l1 l2 : list A) n :
  len l1 = n → len l2 = n → sub l1 0 n = sub l2 0 n → l1 = l2.
Proof. intros <- H. rewrite <- H at 2. by rewrite !sub_all. Qed.

(** Overwriting the only range where two buffers differ makes them equal. *)
Lemma splice_ext {A} (l1 l2 s : list A) a b n :
  len l1 = n → len l2 = n → 0 ≤ a → b = a + len s → b ≤ n →
  sub l1 0 a = sub l2 0 a → sub l1 b n = sub l2 b n → splice l1 a s = splice l2 a s.
Proof.
  intros H1 H2 Ha -> Hn Hl Hr. pose proof (len_nonneg s).
  apply (sub_ext _ _ n); [by rewrite splice_len by lia..|].
  apply (sub_ext_split _ _ _ a); [lia..| |].
  - by rewrite !sub_splice_ne by lia.
  - apply (sub_ext_split _ _ _ (a + len s)); [lia..| |].
    + by rewrite !sub_splice_same by lia.
    + by rewrite !sub_splice_ne by lia.
Qed.

(** ** Ordered maps

    A [BTreeMap] is a finite map whose iteration is in ascending key order. *)

Section ordered.
Context {K A : Type} `{Countable K} (R : relation K) `{!RelDecision R}.

Definition iter_le (x y : K * A) : Prop := R x.1 y.1.
#[global] Instance iter_le_dec : RelDecision iter_le.
Proof. intros x y. unfold iter_le. apply _. Defined.

(** [map.iter()]. *)
Definition ordered_iter (m : gmap K A) : list (K * A) := merge_sort iter_le (map_to_list m).

Lemma ordered_iter_permutation m : ordered_iter m ≡ₚ map_to_list m.
Proof. apply merge_sort_Permutation. Qed.

Lemma elem_of_ordered_iter m k a : (k, a) ∈ ordered_iter m ↔ m !! k = Some a.
Proof. by rewrite ordered_iter_permutation, elem_of_map_to_list. Qed.

Lemma ordered_iter_NoDup m : NoDup (ordered_iter m).*1.
Proof. rewrite ordered_iter_permutation. apply NoDup_fst_map_to_list. Qed.

Lemma ordered_iter_empty : ordered_iter ∅ = [].
Proof. unfold ordered_iter. by rewrite map_to_list_empty. Qed.

Lemma length_ordered_iter m : length (ordered_iter m) = size m.
Proof. by rewrite ordered_iter_permutation, length_map_to_list. Qed.

Lemma ordered_iter_sorted `{!Transitive R, !Total R} m : StronglySorted iter_le (ordered_iter m).
Proof.
  unfold iter_le. apply StronglySorted_merge_sort.
  - intros x y z. simpl. by etrans.
  - intros x y. apply (total R).
Qed.

End ordered.
Global Arguments ordered_iter {K A _ _} R {_} m.

(** Iteration over a [BTreeMap] and a [BTreeSet] keyed by integers. *)
Definition btree_iter {A} (m : gmap Z A) : list (Z * A) := ordered_iter Z.le m.
Definition btree_elems (s : gset Z) : list Z := merge_sort Z.le (elements s).

Lemma elem_of_btree_elems s k : k ∈ btree_elems s ↔ k ∈ s.
Proof. unfold btree_elems. by rewrite merge_sort_Permutation, elem_of_elements. Qed.
Lemma btree_elems_NoDup s : NoDup (btree_elems s).
Proof. unfold btree_elems. rewrite merge_sort_Permutation. apply NoDup_elements. Qed.
Lemma length_btree_elems s : length (btree_elems s) = size s.
Proof. unfold btree_elems. by rewrite merge_sort_Permutation. Qed.
