(* ===== verification/Core.v ===== *)
(** * Core: the semantic contracts of [dodb-core]

    Identifiers, revisions, the order-preserving key codec, transaction
    requests and the shared error type (src/dodb/crates/dodb-core/src).  The
    theorems show that the key codec is a canonical, order-preserving bijection
    between document keys and their encodings, that decoding rejects every other
    byte string without panicking, and that [TransactionRequest::validate]
    accepts exactly the unambiguous requests. *)

From S2P Require Import Prelude.

(** ** Identifiers (identifiers.rs)

    Every [integer_id!] newtype wraps a [u64]. *)

Abbreviation TenantId := Z.
Abbreviation ShardId := Z.
Abbreviation ShardEpoch := Z.
Abbreviation PageId := Z.
Abbreviation Lsn := Z.
Abbreviation TxnId := Z.
Abbreviation Revision := Z.

(** ** Keys (key.rs) *)

Definition PrimaryKey := list byte.
Definition SortKey := list byte.

Record DocumentKey := mkKey { pk : PrimaryKey; sk : SortKey }.

Global Instance DocumentKey_eq_dec : EqDecision DocumentKey.
Proof. solve_decision. Defined.
Global Instance DocumentKey_countable : Countable DocumentKey :=
  inj_countable' (λ k, (pk k, sk k)) (λ '(p, s), mkKey p s) (λ k, match k with mkKey _ _ => eq_refl end).

Inductive KeyCodecError : Type :=
  | TruncatedEscape (offset : Z)
  | InvalidEscape (offset : Z) (b : byte)
  | MissingComponent (offset : Z)
  | TrailingBytes (offset : Z).

(** The escaped bytes of one component: [00] becomes [00 FF]. *)
Fixpoint escape (bytes : list byte) : list byte :=
  match bytes with
  | [] => []
  | b :: bytes => (if bool_decide (b = Byte.x00) then [Byte.x00; Byte.xff] else [b]) ++ escape bytes
  end.

Definition encode_component (bytes output : list byte) : list byte :=
  output ++ escape bytes ++ [Byte.x00; Byte.x00].

Definition DocumentKey_encode (k : DocumentKey) : list byte :=
  let encoded := encode_component (pk k) [] in
  encode_component (sk k) encoded.

Definition encoded_component_len (bytes : list byte) : Z :=
  len bytes + len (filter (λ b, b = Byte.x00) bytes) + 2.

Definition DocumentKey_encoded_len (k : DocumentKey) : Z :=
  encoded_component_len (pk k) + encoded_component_len (sk k).

(** The [while] loop of [decode_component] at [offset], on the bytes that
    remain there; [bytes] is the output so far, most recent byte first. *)
Fixpoint decode_loop (rest : list byte) (offset : Z) (bytes : list byte)
    : Result KeyCodecError (list byte * Z) :=
  match rest with
  | [] => Err (TruncatedEscape offset)
  | b :: rest1 =>
      if negb (bool_decide (b = Byte.x00)) then decode_loop rest1 (offset + 1) (b :: bytes)
      else
        match rest1 with
        | [] => Err (TruncatedEscape offset)
        | escape :: rest2 =>
            if bool_decide (escape = Byte.x00) then Ok (rev bytes, offset + 2)
            else if bool_decide (escape = Byte.xff)
            then decode_loop rest2 (offset + 2) (Byte.x00 :: bytes)
            else Err (InvalidEscape offset escape)
        end
  end.

Definition decode_component (encoded : list byte) (start : Z)
    : Result KeyCodecError (list byte * Z) :=
  guard? negb (len encoded <=? start) else MissingComponent start in
  decode_loop (drop (Z.to_nat start) encoded) start [].

Definition DocumentKey_decode (encoded : list byte) : Result KeyCodecError DocumentKey :=
  let? '(p, next) := decode_component encoded 0 in
  let? '(s, end_) := decode_component encoded next in
  guard? end_ =? len encoded else TrailingBytes end_ in
  Ok (mkKey p s).

(** The derived [Ord]: by [pk], then by [sk]. *)
Definition key_compare (a b : DocumentKey) : comparison :=
  then_cmp (bytes_compare (pk a) (pk b)) (bytes_compare (sk a) (sk b)).

Definition key_le (a b : DocumentKey) : Prop := key_compare a b ≠ Gt.
Global Instance key_le_dec : RelDecision key_le.
Proof. intros a b. unfold key_le. solve_decision. Defined.

(** ** Revisions (revision.rs) *)

Inductive RevisionState : Type :=
  | Present (value : list byte) (revision : Revision)
  | Missing (revision : Revision).

Inductive ObservedState : Type :=
  | ObsPresent (revision : Revision)
  | ObsMissing (revision : Revision).

Global Instance RevisionState_eq_dec : EqDecision RevisionState.
Proof. solve_decision. Defined.
Global Instance ObservedState_eq_dec : EqDecision ObservedState.
Proof. solve_decision. Defined.

Definition RevisionState_revision (s : RevisionState) : Revision :=
  match s with Present _ r | Missing r => r end.
Definition RevisionState_value (s : RevisionState) : option (list byte) :=
  match s with Present v _ => Some v | Missing _ => None end.
Definition RevisionState_is_missing (s : RevisionState) : bool :=
  match s with Present _ _ => false | Missing _ => true end.
Definition RevisionState_observed (s : RevisionState) : ObservedState :=
  match s with Present _ r => ObsPresent r | Missing r => ObsMissing r end.

Definition ObservedState_revision (s : ObservedState) : Revision :=
  match s with ObsPresent r | ObsMissing r => r end.
Definition ObservedState_is_missing (s : ObservedState) : bool :=
  match s with ObsPresent _ => false | ObsMissing _ => true end.

(** [impl From<Lsn> for Revision]. *)
Definition revision_from_lsn (l : Lsn) : Revision := l.

(** ** Transactions (transaction.rs) *)

Inductive WriteIntent : Type :=
  | WPut (value : list byte)
  | WDelete.

Inductive TransactionCondition : Type :=
  | RevisionEquals (key : DocumentKey) (expected_revision : Revision)
  | Exists_ (key : DocumentKey)
  | NotExists (key : DocumentKey).

Inductive ConditionExpectation : Type :=
  | ExpRevisionEquals (r : Revision)
  | ExpExists
  | ExpNotExists.

Definition TransactionCondition_key (c : TransactionCondition) : DocumentKey :=
  match c with RevisionEquals k _ | Exists_ k | NotExists k => k end.

Definition TransactionCondition_expectation (c : TransactionCondition) : ConditionExpectation :=
  match c with
  | RevisionEquals _ r => ExpRevisionEquals r
  | Exists_ _ => ExpExists
  | NotExists _ => ExpNotExists
  end.

Inductive TransactionMutation : Type :=
  | Put (key : DocumentKey) (value : list byte)
  | Delete (key : DocumentKey).

Definition TransactionMutation_key (m : TransactionMutation) : DocumentKey :=
  match m with Put k _ | Delete k => k end.

Record TransactionRequest := mkRequest {
  conditions : list TransactionCondition;
  mutations : list TransactionMutation
}.

Record TransactionResult := mkTransactionResult { commit_lsn : option Lsn }.

Record TransactionConflict := mkConflict {
  conflict_key : DocumentKey;
  expected : ConditionExpectation;
  actual : ObservedState
}.

(** ** Errors (error.rs)

    Each variant carries its message.  A message built by [format!] is
    represented by its template: the interpolated values are not rendered. *)

Inductive IoErrorKind : Type :=
  | UnexpectedEof
  | WriteZero
  | OtherIo (name : string).

Inductive Error : Type :=
  | InvalidInput (message : string)
  | InvalidRequest (message : string)
  | Overloaded (message : string)
  | ResponseTooLarge (message : string)
  | Conflict (c : TransactionConflict)
  | Corruption (message : string)
  | Io (kind : IoErrorKind) (message : string)
  | UnsupportedFormat (message : string)
  | DurabilityFailure (message : string)
  | RecoveryFailure (message : string)
  | CheckpointFailure (message : string)
  | InternalInvariantViolation (message : string).

(** Whether a condition holds of an observed state: the [match] in
    [Overlay::prepare_transaction] and in [ReferenceDb::transact_at]. *)
Definition satisfied (condition : TransactionCondition) (actual : ObservedState) : bool :=
  match condition with
  | RevisionEquals _ expected_revision => ObservedState_revision actual =? expected_revision
  | Exists_ _ => negb (ObservedState_is_missing actual)
  | NotExists _ => ObservedState_is_missing actual
  end.

(** ** Request validation *)

(** The [BTreeSet::insert] loop: false at the first key already inserted. *)
Fixpoint insert_all_fresh (keys : list DocumentKey) (seen : gset DocumentKey) : bool :=
  match keys with
  | [] => true
  | k :: keys => if bool_decide (k ∈ seen) then false else insert_all_fresh keys ({[k]} ∪ seen)
  end.

Definition is_empty {A} (l : list A) : bool := match l with [] => true | _ => false end.

Definition TransactionRequest_validate (r : TransactionRequest) : Result Error unit :=
  guard? negb (is_empty (conditions r) && is_empty (mutations r)) else
    InvalidRequest "a transaction must contain at least one condition or mutation" in
  guard? insert_all_fresh (TransactionMutation_key <$> mutations r) ∅ else
    InvalidRequest "a transaction contains multiple mutations for one key" in
  guard? insert_all_fresh (TransactionCondition_key <$> conditions r) ∅ else
    InvalidRequest "a transaction contains multiple conditions for one key" in
  Ok tt.

(** ** Read and write sets *)

Abbreviation ReadSet := (gmap DocumentKey Revision).
Abbreviation WriteSet := (gmap DocumentKey WriteIntent).

(** [entry(key).or_insert(revision)]: the first observation wins. *)
Definition ReadSet_record (rs : ReadSet) (k : DocumentKey) (r : Revision) : ReadSet :=
  match rs !! k with Some _ => rs | None => <[k := r]> rs end.

Definition WriteSet_put (ws : WriteSet) (k : DocumentKey) (v : list byte) : WriteSet :=
  <[k := WPut v]> ws.
Definition WriteSet_delete (ws : WriteSet) (k : DocumentKey) : WriteSet :=
  <[k := WDelete]> ws.

(** ** The key codec: lemmas *)

Lemma decode_loop_escape bytes rest offset acc :
  decode_loop (escape bytes ++ Byte.x00 :: Byte.x00 :: rest) offset acc =
  Ok (rev acc ++ bytes, offset + len (escape bytes) + 2).
Proof.
  revert offset acc; induction bytes as [|b bytes IH]; intros offset acc; simpl.
  - rewrite app_nil_r, len_nil. do 2 f_equal. lia.
  - case_bool_decide as Hb; simpl.
    + subst b. rewrite IH. simpl. rewrite <- app_assoc. simpl. rewrite !len_cons. do 2 f_equal. lia.
    + rewrite bool_decide_false by done. simpl. rewrite IH. simpl.
      rewrite <- app_assoc, !len_cons. simpl. do 2 f_equal. lia.
Qed.

Lemma decode_loop_inv rest offset acc bytes stop :
  decode_loop rest offset acc = Ok (bytes, stop) →
  ∃ b tail, bytes = rev acc ++ b ∧ rest = escape b ++ Byte.x00 :: Byte.x00 :: tail ∧
    stop = offset + len (escape b) + 2.
Proof.
  remember (length rest) as n eqn:Hn. revert rest Hn offset acc.
  induction (lt_wf n) as [n _ IH]; intros rest -> offset acc H.
  destruct rest as [|x rest]; [done|]. simpl in H. case_bool_decide as Hx; simpl in H.
  - destruct rest as [|y rest]; [done|]. case_bool_decide as Hy; simpl in H.
    + simplify_eq. exists [], rest. rewrite app_nil_r. simpl. rewrite len_nil. repeat split; first [done | lia].
    + case_bool_decide as Hy'; [|done]. simplify_eq.
      apply (IH (length rest)) in H as (b & tail & -> & -> & ->); [|simpl; lia|done].
      exists (Byte.x00 :: b), tail. simpl. rewrite <- app_assoc. simpl. rewrite !len_cons.
      repeat split; first [done | lia].
  - apply (IH (length rest)) in H as (b & tail & -> & -> & ->); [|simpl; lia|done].
    exists (x :: b), tail. simpl. rewrite bool_decide_false by done. simpl.
    rewrite <- app_assoc, len_cons. repeat split; first [done | lia].
Qed.

Lemma decode_loop_returns rest offset acc : returns (decode_loop rest offset acc).
Proof.
  remember (length rest) as n eqn:Hn. revert rest Hn offset acc.
  induction (lt_wf n) as [n _ IH]; intros rest -> offset acc.
  destruct rest as [|x rest]; [done|]. simpl. case_bool_decide; simpl.
  - destruct rest as [|y rest]; [done|]. repeat case_bool_decide; simpl; [done| |done].
    apply (IH (length rest)); [simpl; lia|done].
  - apply (IH (length rest)); [simpl; lia|done].
Qed.

Lemma len_escape bytes : len (escape bytes) = len bytes + len (filter (λ b, b = Byte.x00) bytes).
Proof.
  induction bytes as [|b bytes IH]; [done|]. simpl. rewrite len_app, IH, filter_cons.
  case_bool_decide; case_decide; try done; rewrite !len_cons, ?len_nil; lia.
Qed.

Lemma zero_compare_byte c : c ≠ Byte.x00 → (byte.unsigned Byte.x00 ?= byte.unsigned c) = Lt.
Proof.
  intros Hc. change (byte.unsigned Byte.x00) with 0. apply Z.compare_lt_iff.
  pose proof (byte.unsigned_range c). destruct (decide (byte.unsigned c = 0)) as [E|]; [|lia].
  destruct Hc. by apply byte.unsigned_inj.
Qed.

Lemma byte_compare_zero c : c ≠ Byte.x00 → (byte.unsigned c ?= byte.unsigned Byte.x00) = Gt.
Proof. intros Hc. rewrite Z.compare_antisym. by rewrite zero_compare_byte. Qed.

(** Two encoded components compare like the components; what follows decides
    only when they are equal. *)
Lemma escape_compare a b x y :
  bytes_compare (escape a ++ Byte.x00 :: Byte.x00 :: x) (escape b ++ Byte.x00 :: Byte.x00 :: y) =
  then_cmp (bytes_compare a b) (bytes_compare x y).
Proof.
  revert b; induction a as [|c a IH]; intros [|d b]; simpl; [done|..].
  - case_bool_decide as Hd; simpl; [done|]. by rewrite zero_compare_byte.
  - case_bool_decide as Hc; simpl; [done|]. by rewrite byte_compare_zero.
  - case_bool_decide as Hc; case_bool_decide as Hd; subst; simpl.
    + apply IH.
    + by rewrite zero_compare_byte.
    + by rewrite byte_compare_zero.
    + rewrite IH. by destruct (byte.unsigned c ?= byte.unsigned d).
Qed.

Lemma encode_eq k :
  DocumentKey_encode k =
  escape (pk k) ++ Byte.x00 :: Byte.x00 :: escape (sk k) ++ [Byte.x00; Byte.x00].
Proof. unfold DocumentKey_encode, encode_component. simpl. by rewrite <- !app_assoc. Qed.

Lemma decode_component_escape a rest prefix :
  decode_component (prefix ++ escape a ++ Byte.x00 :: Byte.x00 :: rest) (len prefix) =
  Ok (a, len prefix + len (escape a) + 2).
Proof.
  unfold decode_component.
  rewrite (proj2 (Z.leb_gt _ _)); [simpl|].
  - rewrite to_nat_len, drop_app_length. apply decode_loop_escape.
  - rewrite !len_app, !len_cons. pose proof (len_nonneg rest). pose proof (len_nonneg (escape a)). lia.
Qed.

Lemma decode_component_inv encoded start bytes stop :
  0 ≤ start → decode_component encoded start = Ok (bytes, stop) →
  ∃ tail, drop (Z.to_nat start) encoded = escape bytes ++ Byte.x00 :: Byte.x00 :: tail ∧
    stop = start + len (escape bytes) + 2 ∧ start < len encoded.
Proof.
  intros Hs H. unfold decode_component in H. ok_steps H. bool_props.
  apply decode_loop_inv in H as (b & tail & -> & -> & ->). simpl. eauto.
Qed.

Lemma key_compare_eq a b : key_compare a b = Eq ↔ a = b.
Proof.
  unfold key_compare, then_cmp. destruct a as [p s], b as [p' s']; simpl.
  destruct (bytes_compare p p') eqn:E.
  - apply bytes_compare_eq in E as ->. rewrite bytes_compare_eq. naive_solver.
  - split; [done|]. intros [= -> ->]. by rewrite bytes_compare_refl in E.
  - split; [done|]. intros [= -> ->]. by rewrite bytes_compare_refl in E.
Qed.

Lemma decode_encode_key k : DocumentKey_decode (DocumentKey_encode k) = Ok k.
Proof.
  unfold DocumentKey_decode. rewrite encode_eq.
  pose proof (decode_component_escape (pk k) (escape (sk k) ++ [Byte.x00; Byte.x00]) []) as H1.
  rewrite len_nil in H1. simpl in H1. rewrite H1. simpl.
  replace (0 + len (escape (pk k)) + 2) with (len (escape (pk k) ++ [Byte.x00; Byte.x00]))
    by (rewrite len_app; done).
  pose proof (decode_component_escape (sk k) [] (escape (pk k) ++ [Byte.x00; Byte.x00])) as H2.
  rewrite <- app_assoc in H2. simpl in H2. rewrite H2. simpl.
  rewrite (proj2 (Z.eqb_eq _ _)); [by destruct k|].
  rewrite !len_app, !len_cons, !len_app, !len_cons, !len_nil. lia.
Qed.

Lemma decode_canonical bytes k :
  DocumentKey_decode bytes = Ok k → DocumentKey_encode k = bytes.
Proof.
  unfold DocumentKey_decode. intros H. ok_step H. destruct a as [p next].
  ok_step H. destruct a as [s stop]. ok_steps H. apply Z.eqb_eq in E1. injection H as <-.
  apply decode_component_inv in E as (t1 & H1 & -> & _); [|lia].
  apply decode_component_inv in E0 as (t2 & H2 & -> & Hlt);
    [|pose proof (len_nonneg (escape p)); lia].
  change (Z.to_nat 0) with 0%nat in H1. rewrite drop_0 in H1. subst bytes.
  assert (Hdrop : drop (Z.to_nat (0 + len (escape p) + 2)) (escape p ++ Byte.x00 :: Byte.x00 :: t1) = t1).
  { replace (Z.to_nat (0 + len (escape p) + 2)) with (length (escape p) + 2)%nat
      by (unfold len; lia).
    by rewrite drop_app_add. }
  rewrite Hdrop in H2. subst t1. rewrite encode_eq. simpl.
  autorewrite with len in E1. assert (len t2 = 0) as Ht by lia.
  apply len_0_nil in Ht as ->. done.
Qed.

(** C12. The key codec is a bijection between document keys, of arbitrary binary
    components, and the byte strings that decode: a byte string decodes to a
    key exactly when it is the key's encoding. *)
Theorem key_codec_bijection bytes k :
  DocumentKey_decode bytes = Ok k ↔ DocumentKey_encode k = bytes.
Proof. split; [apply decode_canonical|intros <-; apply decode_encode_key]. Qed.

Lemma encode_compare a b :
  bytes_compare (DocumentKey_encode a) (DocumentKey_encode b) = key_compare a b.
Proof.
  rewrite !encode_eq, escape_compare, escape_compare. unfold key_compare.
  rewrite bytes_compare_refl. by destruct (bytes_compare (sk a) (sk b)).
Qed.

(** C13. The encoding preserves order: the encoding of one key is bytewise
    below another's exactly when its primary key is smaller, or the primary
    keys are equal and its sort key is smaller. *)
Theorem key_encode_order a b :
  bytes_lt (DocumentKey_encode a) (DocumentKey_encode b) = true ↔
    bytes_lt (pk a) (pk b) = true ∨ (pk a = pk b ∧ bytes_lt (sk a) (sk b) = true).
Proof.
  unfold bytes_lt. rewrite encode_compare. unfold key_compare, then_cmp.
  rewrite <- bytes_compare_eq. destruct (bytes_compare (pk a) (pk b)); naive_solver.
Qed.

Theorem key_decode_returns bytes : returns (DocumentKey_decode bytes).
Proof.
  unfold DocumentKey_decode, decode_component.
  destruct (len bytes <=? 0); [done|]. simpl.
  pose proof (decode_loop_returns (drop (Z.to_nat 0) bytes) 0 []) as R1.
  destruct (decode_loop _ 0 []) as [[p next]|e| |] eqn:E1; try done. simpl.
  destruct (len bytes <=? next); [done|]. simpl.
  pose proof (decode_loop_returns (drop (Z.to_nat next) bytes) next []) as R2.
  destruct (decode_loop _ next []) as [[s stop]|e| |] eqn:E2; try done. simpl.
  by destruct (stop =? len bytes).
Qed.

Theorem key_encoded_len k : DocumentKey_encoded_len k = len (DocumentKey_encode k).
Proof.
  rewrite encode_eq. unfold DocumentKey_encoded_len, encoded_component_len.
  autorewrite with len. rewrite !len_escape. lia.
Qed.

(** Keys of one primary key are contiguous: an encoded key that lies between
    two keys of [p] belongs to [p]. *)
Theorem key_partition_contiguous p s1 s2 k :
  bytes_le (DocumentKey_encode (mkKey p s1)) (DocumentKey_encode k) = true →
  bytes_le (DocumentKey_encode k) (DocumentKey_encode (mkKey p s2)) = true →
  pk k = p.
Proof.
  unfold bytes_le. rewrite !encode_compare. unfold key_compare, then_cmp. simpl.
  rewrite (bytes_compare_antisym p (pk k)).
  destruct (bytes_compare p (pk k)) eqn:E; simpl; try done.
  intros _ _. by apply bytes_compare_eq in E.
Qed.

(** ** Request validation and the transaction sets *)

Lemma insert_all_fresh_spec keys seen :
  insert_all_fresh keys seen = true ↔ NoDup keys ∧ ∀ k, k ∈ keys → k ∉ seen.
Proof.
  revert seen; induction keys as [|k keys IH]; intros seen; simpl.
  - split; [|done]. intros _. split; [constructor|]. intros k Hk. by apply elem_of_nil in Hk.
  - case_bool_decide as Hk.
    + split; [done|]. intros [_ H]. destruct (H k); [apply elem_of_cons; auto|done].
    + rewrite IH, NoDup_cons. split.
      * intros [Hd Hf]. split; [split|].
        -- intros Hin. destruct (Hf k Hin). set_solver.
        -- done.
        -- intros k' [->|Hk']%elem_of_cons; [done|]. specialize (Hf k' Hk'). set_solver.
      * intros [[Hn Hd] Hf]. split; [done|]. intros k' Hk'.
        assert (k' ≠ k) by (intros ->; done).
        assert (k' ∉ seen) by (apply Hf; apply elem_of_cons; auto). set_solver.
Qed.

(** A request that is not empty and names every mutated key once and every
    conditioned key once. *)
Definition unambiguous (r : TransactionRequest) : Prop :=
  (conditions r ≠ [] ∨ mutations r ≠ []) ∧
  NoDup (TransactionMutation_key <$> mutations r) ∧ NoDup (TransactionCondition_key <$> conditions r).

Lemma validate_Ok r : TransactionRequest_validate r = Ok tt ↔ unambiguous r.
Proof.
  unfold TransactionRequest_validate, unambiguous.
  pose proof (insert_all_fresh_spec (TransactionMutation_key <$> mutations r) ∅) as Hm.
  pose proof (insert_all_fresh_spec (TransactionCondition_key <$> conditions r) ∅) as Hc.
  destruct (insert_all_fresh (TransactionMutation_key <$> mutations r) ∅),
    (insert_all_fresh (TransactionCondition_key <$> conditions r) ∅),
    (conditions r) as [|c cs], (mutations r) as [|m ms]; simpl in *; set_solver.
Qed.

Lemma validate_error r :
  TransactionRequest_validate r = Ok tt ∨ ∃ m, TransactionRequest_validate r = Err (InvalidRequest m).
Proof. unfold TransactionRequest_validate. repeat case_match; eauto. Qed.

(** C14. Validation accepts a request exactly when it is not empty and names
    every mutated key once and every conditioned key once; any other request is
    refused as an invalid request. *)
Theorem validate_spec r :
  match TransactionRequest_validate r with
  | Ok _ => unambiguous r
  | Err e => (∃ m, e = InvalidRequest m) ∧ ¬ unambiguous r
  | _ => False
  end.
Proof.
  pose proof (validate_Ok r) as H. destruct (validate_error r) as [E|[m E]]; rewrite E in *; [by apply H|].
  split; [eauto|]. by intros ?%H.
Qed.

Lemma read_set_first_wins (rs : ReadSet) k r r' :
  ReadSet_record (ReadSet_record rs k r) k r' = ReadSet_record rs k r.
Proof.
  unfold ReadSet_record at 1.
  assert (is_Some (ReadSet_record rs k r !! k)) as [x ->]; [|done].
  unfold ReadSet_record. destruct (rs !! k) eqn:E; [rewrite E; eauto|].
  rewrite lookup_insert_eq. eauto.
Qed.
