(* ===== verification/Crc.v ===== *)
(** * Crc: the checksum function as a parameter

    CRC-32C is computed by the [crc32c] crate, which is not part of the
    repository.  The codecs are modelled over any function from byte strings to
    [u32] values; [castagnoli] is the standard CRC-32C, the instance at which
    examples evaluate. *)

From S2P Require Import Prelude.

(** What the code relies on: a [u32] for every input. *)
Class Crc32c := {
  crc32c : list byte → Z;
  crc32c_u32 : ∀ bytes, is_u32 (crc32c bytes)
}.

Definition castagnoli_bit (c : Z) : Z :=
  if Z.odd c then Z.lxor (Z.shiftr c 1) 2197175160 else Z.shiftr c 1.

Definition castagnoli_byte (c : Z) (b : byte) : Z :=
  Nat.iter 8 castagnoli_bit (Z.lxor c (byte.unsigned b)).

Definition castagnoli (bytes : list byte) : Z :=
  Z.land (Z.lxor (foldl castagnoli_byte U32_MAX bytes) U32_MAX) (Z.ones 32).

Lemma castagnoli_u32 bytes : is_u32 (castagnoli bytes).
Proof.
  unfold castagnoli. rewrite Z.land_ones by lia.
  pose proof (Z.mod_pos_bound (Z.lxor (foldl castagnoli_byte U32_MAX bytes) U32_MAX) (2 ^ 32)). lia.
Qed.

Definition castagnoli_crc : Crc32c :=
  {| crc32c := castagnoli; crc32c_u32 := castagnoli_u32 |}.

(** The check value of CRC-32C. *)
Example castagnoli_check : castagnoli (bstr "123456789") = 3808858755.
Proof. vm_compute. reflexivity. Qed.
