(* ===== verification/Page.v ===== *)
(** * Page: the fixed-size page codec

    src/dodb/crates/dodb-storage/src/page.rs.  A page is 4096 bytes: a 32-byte
    header, whose checksum covers the whole page with the checksum field
    zeroed, and a 4064-byte body.  The theorems show that encoding and decoding
    are inverse in both directions and that decoding arbitrary bytes never
    panics. *)

From S2P Require Import Prelude Core Crc.

Definition PAGE_SIZE : Z := 4096.
Definition PAGE_HEADER_SIZE : Z := 32.
Definition PAGE_FORMAT_VERSION : Z := 1.
Definition PAGE_MAGIC : list byte := bstr "DBPG".
Definition CHECKSUM_OFFSET : Z := 28.

#[export] Hint Unfold PAGE_SIZE PAGE_HEADER_SIZE PAGE_FORMAT_VERSION CHECKSUM_OFFSET : consts.

Inductive PageType : Type := Internal_ | Leaf_ | Overflow_ | Free_ | Test_.

Global Instance PageType_eq_dec : EqDecision PageType.
Proof. solve_decision. Defined.

(** [page_type as u8]. *)
Definition PageType_as_u8 (t : PageType) : byte :=
  match t with
  | Internal_ => Byte.x01
  | Leaf_ => Byte.x02
  | Overflow_ => Byte.x03
  | Free_ => Byte.x04
  | Test_ => Byte.xff
  end.

Definition PageType_decode (b : byte) : Result Error PageType :=
  match b with
  | Byte.x01 => Ok Internal_
  | Byte.x02 => Ok Leaf_
  | Byte.x03 => Ok Overflow_
  | Byte.x04 => Ok Free_
  | Byte.xff => Ok Test_
  | _ => Err (UnsupportedFormat "unknown page type {other}")
  end.

Record PageHeader := mkPageHeader {
  format_version : Z;
  page_type : PageType;
  page_id : PageId;
  page_lsn : Lsn;
  flags : Z;
  checksum : Z
}.

Definition PageHeader_new (t : PageType) (id : PageId) (lsn : Lsn) : PageHeader :=
  {| format_version := PAGE_FORMAT_VERSION; page_type := t; page_id := id; page_lsn := lsn;
     flags := 0; checksum := 0 |}.

Record DecodedPage := mkDecodedPage { header : PageHeader; body : list byte }.

Section codec.
Context `{Crc32c}.

Definition page_checksum (page : list byte) : Z :=
  crc32c (splice page CHECKSUM_OFFSET (zeros 4)).

Definition encode_page (h : PageHeader) (body : list byte) : Result Error (list byte) :=
  guard? format_version h =? PAGE_FORMAT_VERSION else
    UnsupportedFormat "cannot encode page version {}" in
  guard? len body <=? PAGE_SIZE - PAGE_HEADER_SIZE else
    InvalidInput "page body is {} bytes, maximum is {}" in
  let page := zeros PAGE_SIZE in
  let? page := copy_from_slice page 0 4 PAGE_MAGIC in
  let? page := copy_from_slice page 4 6 (u16_to_le_bytes (format_version h)) in
  let? page := set_index page 6 (PageType_as_u8 (page_type h)) in
  let? page := copy_from_slice page 8 16 (u64_to_le_bytes (page_id h)) in
  let? page := copy_from_slice page 16 24 (u64_to_le_bytes (page_lsn h)) in
  let? page := copy_from_slice page 24 28 (u32_to_le_bytes (flags h)) in
  let? page := copy_from_slice page PAGE_HEADER_SIZE (PAGE_HEADER_SIZE + len body) body in
  let checksum := page_checksum page in
  copy_from_slice page CHECKSUM_OFFSET (CHECKSUM_OFFSET + 4) (u32_to_le_bytes checksum).

Definition decode_page_at (bytes : list byte) (expected_page_id : option PageId)
    : Result Error DecodedPage :=
  guard? len bytes =? PAGE_SIZE else Corruption "page has {} bytes, expected {PAGE_SIZE}" in
  let? magic := slice bytes 0 4 in
  guard? bytes_eqb magic PAGE_MAGIC else Corruption "page magic mismatch" in
  let? version := slice bytes 4 6 in
  let format_version := from_le_bytes version in
  guard? format_version =? PAGE_FORMAT_VERSION else
    UnsupportedFormat "page version {format_version}, supported {PAGE_FORMAT_VERSION}" in
  let? reserved := index bytes 7 in
  guard? bool_decide (reserved = Byte.x00) else Corruption "page reserved byte is non-zero" in
  let? type_byte := index bytes 6 in
  let? page_type := PageType_decode type_byte in
  let? id_bytes := slice bytes 8 16 in
  let page_id := from_le_bytes id_bytes in
  guard? match expected_page_id with Some expected => page_id =? expected | None => true end else
    Corruption "page id mismatch: encoded {}, expected {}" in
  let? lsn_bytes := slice bytes 16 24 in
  let page_lsn := from_le_bytes lsn_bytes in
  let? flag_bytes := slice bytes 24 28 in
  let flags := from_le_bytes flag_bytes in
  let? checksum_bytes := slice bytes CHECKSUM_OFFSET (CHECKSUM_OFFSET + 4) in
  let stored_checksum := from_le_bytes checksum_bytes in
  let calculated_checksum := page_checksum bytes in
  guard? stored_checksum =? calculated_checksum else
    Corruption "page checksum mismatch: stored {stored_checksum:#010x}, calculated {calculated_checksum:#010x}" in
  let? body := slice bytes PAGE_HEADER_SIZE (len bytes) in
  Ok {| header := {| format_version := format_version; page_type := page_type;
                     page_id := page_id; page_lsn := page_lsn; flags := flags;
                     checksum := stored_checksum |};
        body := body |}.

Definition decode_page (bytes : list byte) : Result Error DecodedPage :=
  decode_page_at bytes None.

(** ** Lemmas *)

(** A header whose fields fit their widths, at the supported version. *)
Definition wf_header (h : PageHeader) : Prop :=
  format_version h = PAGE_FORMAT_VERSION ∧ is_u64 (page_id h) ∧ is_u64 (page_lsn h) ∧ is_u32 (flags h).

Lemma PageType_decode_as_u8 t : PageType_decode (PageType_as_u8 t) = Ok t.
Proof. by destruct t. Qed.

Lemma PageType_as_u8_decode b t : PageType_decode b = Ok t → PageType_as_u8 t = b.
Proof. destruct b; intros [= <-]; done. Qed.

Lemma PageType_decode_returns b : returns (PageType_decode b).
Proof. by destruct b. Qed.

Lemma len_magic : len PAGE_MAGIC = 4.
Proof. done. Qed.

(** The image [encode_page] builds, before the checksum is filled in. *)
Definition page_unsealed (h : PageHeader) (body : list byte) : list byte :=
  splice (splice (splice (splice (splice (splice (splice (zeros PAGE_SIZE)
    0 PAGE_MAGIC)
    4 (u16_to_le_bytes (format_version h)))
    6 [PageType_as_u8 (page_type h)])
    8 (u64_to_le_bytes (page_id h)))
    16 (u64_to_le_bytes (page_lsn h)))
    24 (u32_to_le_bytes (flags h)))
    PAGE_HEADER_SIZE body.

Definition page_image (h : PageHeader) (body : list byte) : list byte :=
  splice (page_unsealed h body) CHECKSUM_OFFSET
    (u32_to_le_bytes (page_checksum (page_unsealed h body))).

Lemma encode_page_Ok h body :
  format_version h = PAGE_FORMAT_VERSION → len body ≤ PAGE_SIZE - PAGE_HEADER_SIZE →
  encode_page h body = Ok (page_image h body).
Proof.
  intros Hv Hb. unfold encode_page, set_index. rewrite Hv at 1. rewrite Z.eqb_refl.
  rewrite (proj2 (Z.leb_le _ _)) by done.
  pose proof (len_nonneg body). pose proof len_magic.
  unfold page_image, page_unsealed.
  repeat (rewrite copy_Ok by len_tac; cbn [rbind]). reflexivity.
Qed.

Lemma len_page_unsealed h body : len (page_unsealed h body) = PAGE_SIZE.
Proof. unfold page_unsealed. len_tac. Qed.

Lemma len_page_image h body : len (page_image h body) = PAGE_SIZE.
Proof. unfold page_image. rewrite splice_len by lia. apply len_page_unsealed. Qed.

(** The stored checksum is not part of what it covers. *)
Lemma page_checksum_splice page s :
  len page = PAGE_SIZE → len s = 4 → page_checksum (splice page CHECKSUM_OFFSET s) = page_checksum page.
Proof.
  intros Hp Hs. unfold page_checksum. f_equal. apply splice_splice_same; [lia|lia|].
  rewrite len_zeros by lia. done.
Qed.

(** The fields of an encoded page, at their offsets. *)
Lemma page_image_fields h body (img := page_image h body) :
  len body ≤ PAGE_SIZE - PAGE_HEADER_SIZE →
  sub img 0 4 = PAGE_MAGIC ∧
  sub img 4 6 = u16_to_le_bytes (format_version h) ∧
  sub img 6 7 = [PageType_as_u8 (page_type h)] ∧
  sub img 7 8 = [Byte.x00] ∧
  sub img 8 16 = u64_to_le_bytes (page_id h) ∧
  sub img 16 24 = u64_to_le_bytes (page_lsn h) ∧
  sub img 24 28 = u32_to_le_bytes (flags h) ∧
  sub img 28 32 = u32_to_le_bytes (page_checksum img) ∧
  sub img 32 (32 + len body) = body ∧
  sub img (32 + len body) 4096 = zeros (4096 - (32 + len body)).
Proof.
  intros Hb. pose proof (len_nonneg body). pose proof len_magic.
  assert (Hc : page_checksum img = page_checksum (page_unsealed h body)).
  { apply page_checksum_splice; [apply len_page_unsealed|len_tac]. }
  rewrite Hc. subst img. unfold page_image. generalize (page_checksum (page_unsealed h body)).
  intros crc. unfold page_unsealed, PAGE_SIZE, PAGE_HEADER_SIZE, CHECKSUM_OFFSET in *.
  repeat split; read_back; rewrite ?sub_zeros by lia; done.
Qed.

Lemma decode_page_at_fields bytes exp d :
  decode_page_at bytes exp = Ok d →
  len bytes = PAGE_SIZE ∧
  sub bytes 0 4 = PAGE_MAGIC ∧
  sub bytes 4 6 = u16_to_le_bytes (format_version (header d)) ∧
  sub bytes 6 7 = [PageType_as_u8 (page_type (header d))] ∧
  sub bytes 7 8 = [Byte.x00] ∧
  sub bytes 8 16 = u64_to_le_bytes (page_id (header d)) ∧
  sub bytes 16 24 = u64_to_le_bytes (page_lsn (header d)) ∧
  sub bytes 24 28 = u32_to_le_bytes (flags (header d)) ∧
  sub bytes 28 32 = u32_to_le_bytes (page_checksum bytes) ∧
  sub bytes 32 4096 = body d ∧
  wf_header (header d) ∧ checksum (header d) = page_checksum bytes ∧
  match exp with Some id => page_id (header d) = id | None => True end.
Proof.
  intros D. unfold decode_page_at, CHECKSUM_OFFSET, PAGE_HEADER_SIZE in D. ok_steps D.
  injection D as <-. bool_props.
  match goal with E : PageType_decode _ = _ |- _ => apply PageType_as_u8_decode in E as <- end.
  slices_inv. unfold wf_header; simpl in *.
  rewrite u16_from_le, !u64_from_le, !u32_from_le by len_tac.
  rewrite <- E13, u32_from_le by len_tac. rewrite E.
  repeat split; try done; try (apply from_le_u64; len_tac); try (apply from_le_u32; len_tac).
  destruct exp; [by apply Z.eqb_eq|done].
Qed.

Lemma decode_page_image h body :
  wf_header h → len body ≤ PAGE_SIZE - PAGE_HEADER_SIZE →
  decode_page_at (page_image h body) (Some (page_id h)) =
    Ok {| header := {| format_version := format_version h; page_type := page_type h;
                       page_id := page_id h; page_lsn := page_lsn h; flags := flags h;
                       checksum := page_checksum (page_image h body) |};
          body := body ++ zeros (PAGE_SIZE - PAGE_HEADER_SIZE - len body) |}.
Proof.
  intros (Hv & Hid & Hlsn & Hf) Hb.
  pose proof (len_page_image h body) as HL. pose proof (len_nonneg body).
  pose proof (page_image_fields h body Hb) as (F1&F2&F3&F4&F5&F6&F7&F8&F9&F10).
  remember (page_image h body) as img eqn:Himg. clear Himg.
  unfold decode_page_at, CHECKSUM_OFFSET, PAGE_HEADER_SIZE. rewrite HL, Z.eqb_refl.
  rewrite !slice_Ok by lia. simpl. rewrite F1, bytes_eqb_refl, F2, Hv, from_u16 by done. simpl.
  rewrite (index_sub _ 7 Byte.x00), (index_sub _ 6 (PageType_as_u8 (page_type h))) by done. simpl.
  rewrite PageType_decode_as_u8. simpl. rewrite F5, from_u64, Z.eqb_refl by done. simpl.
  change (28 + 4) with 32. rewrite F8, from_u32, Z.eqb_refl by apply crc32c_u32.
  rewrite F6, F7, from_u64, from_u32 by done. simpl.
  do 2 f_equal. unfold PAGE_SIZE in *. rewrite (sub_split _ 32 (32 + len body)) by lia.
  rewrite F9, F10. do 2 f_equal. lia.
Qed.

(** C15. Decoding an encoded page at its own page id gives back the header, with
    the calculated checksum, and the body padded with zeros. *)
Theorem page_decode_encode h body :
  wf_header h → len body ≤ PAGE_SIZE - PAGE_HEADER_SIZE →
  ∃ image, encode_page h body = Ok image ∧ len image = PAGE_SIZE ∧
    decode_page_at image (Some (page_id h)) =
      Ok {| header := {| format_version := format_version h; page_type := page_type h;
                         page_id := page_id h; page_lsn := page_lsn h; flags := flags h;
                         checksum := page_checksum image |};
            body := body ++ zeros (PAGE_SIZE - PAGE_HEADER_SIZE - len body) |}.
Proof.
  intros Hh Hb. exists (page_image h body). split_and!.
  - apply encode_page_Ok; [apply Hh|done].
  - apply len_page_image.
  - by apply decode_page_image.
Qed.

(** C16. The page format is canonical: bytes that decode are exactly what
    encoding the decoded header and body produces. *)
Theorem page_encode_decode bytes exp d :
  decode_page_at bytes exp = Ok d → encode_page (header d) (body d) = Ok bytes.
Proof.
  intros D. apply decode_page_at_fields in D
    as (HL&G1&G2&G3&G4&G5&G6&G7&G8&G9&(Hv&_)&_).
  assert (Hb : len (body d) = 4064) by (rewrite <- G9; len_tac).
  rewrite encode_page_Ok by (done || lia). f_equal.
  pose proof (page_image_fields (header d) (body d) ltac:(lia)) as (F1&F2&F3&F4&F5&F6&F7&F8&F9&F10).
  rewrite Hb in F9. change (32 + 4064) with 4096 in F9.
  pose proof (len_page_image (header d) (body d)) as HL'.
  remember (page_image (header d) (body d)) as img eqn:Himg. clear Himg.
  assert (L : sub img 0 28 = sub bytes 0 28).
  { apply (sub_ext_split _ _ _ 4); [lia..|congruence|].
    apply (sub_ext_split _ _ _ 6); [lia..|congruence|].
    apply (sub_ext_split _ _ _ 7); [lia..|congruence|].
    apply (sub_ext_split _ _ _ 8); [lia..|congruence|].
    apply (sub_ext_split _ _ _ 16); [lia..|congruence|].
    apply (sub_ext_split _ _ _ 24); [lia..|congruence|congruence]. }
  assert (Hc : page_checksum img = page_checksum bytes).
  { unfold page_checksum. f_equal. apply (splice_ext _ _ _ _ 32 PAGE_SIZE); try done.
    unfold PAGE_SIZE. congruence. }
  apply (sub_ext _ _ 4096); [lia..|].
  apply (sub_ext_split _ _ _ 28); [lia..|done|].
  apply (sub_ext_split _ _ _ 32); [lia..|congruence|congruence].
Qed.

(** Decoding never panics, whatever the bytes: it returns a page or an error. *)
Lemma page_decode_returns bytes exp : returns (decode_page_at bytes exp).
Proof.
  unfold decode_page_at, CHECKSUM_OFFSET, PAGE_HEADER_SIZE.
  destruct (len bytes =? PAGE_SIZE) eqn:HL; [|done]. bool_props.
  rewrite !slice_Ok by lia. simpl.
  destruct (bytes_eqb _ _); [|done]. destruct (_ =? PAGE_FORMAT_VERSION); [|done].
  destruct (index_Ok (E:=Error) bytes 7) as (x & -> & _); [lia|]. simpl.
  destruct (bool_decide _); [|done].
  destruct (index_Ok (E:=Error) bytes 6) as (t & -> & _); [lia|]. simpl.
  pose proof (PageType_decode_returns t). destruct (PageType_decode t); try done. simpl.
  destruct (match exp with Some _ => _ | None => _ end); [|done].
  by destruct (_ =? page_checksum bytes).
Qed.

End codec.

Lemma page_decode_encode_witness :
  let _ := castagnoli_crc in
  let h := PageHeader_new Leaf_ 7 11 in
  ∃ image, encode_page h (bstr "body") = Ok image ∧ len image = PAGE_SIZE ∧
    decode_page_at image (Some 7) =
      Ok {| header := {| format_version := 1; page_type := Leaf_; page_id := 7; page_lsn := 11;
                         flags := 0; checksum := page_checksum image |};
            body := bstr "body" ++ zeros (PAGE_SIZE - PAGE_HEADER_SIZE - len (bstr "body")) |}.
Proof.
  apply (page_decode_encode (H := castagnoli_crc) (PageHeader_new Leaf_ 7 11) (bstr "body")).
  - unfold wf_header; simpl. lia.
  - vm_compute. discriminate.
Defined.

Lemma page_encode_decode_witness :
  let _ := castagnoli_crc in
  let image := unwrap_or (encode_page (PageHeader_new Free_ 3 1) []) [] in
  let d := unwrap_or (decode_page_at image None) (mkDecodedPage (PageHeader_new Test_ 0 0) []) in
  encode_page (header d) (body d) = Ok image.
Proof.
  intros ? ? ?. apply (page_encode_decode (H := castagnoli_crc) _ None).
  apply is_ok_unwrap. vm_compute. reflexivity.
Defined.
