(* ===== verification/Superblock.v ===== *)
(** * Superblock: the double superblock

    src/dodb/crates/dodb-storage/src/superblock.rs.  Pages 0 and 1 hold two
    copies of the file's metadata; the valid copy with the highest generation
    is authoritative.  The theorems show the codec round trip, and that
    [choose_superblock] is exactly "the valid copy of highest generation,
    unless a copy has an unsupported format". *)

From S2P Require Import Prelude Core Crc Page.

Definition SUPERBLOCK_FORMAT_VERSION : Z := 1.
Definition SUPERBLOCK_MAGIC : list byte := bstr "DSBK".
Definition ROOT_OFFSET : Z := 58.
Definition FREE_LIST_OFFSET : Z := 66.
Definition HIGH_WATER_OFFSET : Z := 74.
Definition CHECKPOINT_OFFSET : Z := 82.
Definition SB_CHECKSUM_OFFSET : Z := 90.
Definition NULL_PAGE_ID : Z := U64_MAX.

#[export] Hint Unfold SUPERBLOCK_FORMAT_VERSION ROOT_OFFSET FREE_LIST_OFFSET HIGH_WATER_OFFSET
  CHECKPOINT_OFFSET SB_CHECKSUM_OFFSET NULL_PAGE_ID : consts.

Record Superblock := mkSuperblock {
  sb_format_version : Z;
  generation : Z;
  database_uuid : list byte;
  tenant_id : TenantId;
  shard_id : ShardId;
  shard_epoch : ShardEpoch;
  page_size : Z;
  root_page_id : option PageId;
  free_list_head : option PageId;
  high_water_page_id : option PageId;
  checkpoint_lsn : Lsn;
  sb_checksum : Z
}.

Global Instance Superblock_eq_dec : EqDecision Superblock.
Proof. solve_decision. Defined.

Definition Superblock_new (generation : Z) (uuid : list byte) (tenant : TenantId)
    (shard : ShardId) (epoch : ShardEpoch) : Superblock :=
  {| sb_format_version := SUPERBLOCK_FORMAT_VERSION; generation := generation;
     database_uuid := uuid; tenant_id := tenant; shard_id := shard; shard_epoch := epoch;
     page_size := PAGE_SIZE; root_page_id := None; free_list_head := None;
     high_water_page_id := None; checkpoint_lsn := 0; sb_checksum := 0 |}.

Inductive SuperblockSlot : Type := SlotA | SlotB.

Global Instance SuperblockSlot_eq_dec : EqDecision SuperblockSlot.
Proof. solve_decision. Defined.

Record SelectedSuperblock := mkSelected { slot : SuperblockSlot; superblock : Superblock }.

Definition encode_page_id (page_id : option PageId) : Z :=
  match page_id with Some id => id | None => NULL_PAGE_ID end.

Definition decode_page_id (value : Z) : option PageId :=
  if negb (value =? NULL_PAGE_ID) then Some value else None.

Section codec.
Context `{Crc32c}.

Definition superblock_checksum (page : list byte) : Z :=
  crc32c (splice page SB_CHECKSUM_OFFSET (zeros 4)).

Definition encode_superblock (sb : Superblock) : Result Error (list byte) :=
  guard? sb_format_version sb =? SUPERBLOCK_FORMAT_VERSION else
    UnsupportedFormat "cannot encode superblock version {}" in
  guard? page_size sb =? PAGE_SIZE else
    InvalidInput "superblock page size is {}, expected {PAGE_SIZE}" in
  let page := zeros PAGE_SIZE in
  let? page := copy_from_slice page 0 4 SUPERBLOCK_MAGIC in
  let? page := copy_from_slice page 4 6 (u16_to_le_bytes (sb_format_version sb)) in
  let? page := copy_from_slice page 6 14 (u64_to_le_bytes (generation sb)) in
  let? page := copy_from_slice page 14 30 (database_uuid sb) in
  let? page := copy_from_slice page 30 38 (u64_to_le_bytes (tenant_id sb)) in
  let? page := copy_from_slice page 38 46 (u64_to_le_bytes (shard_id sb)) in
  let? page := copy_from_slice page 46 54 (u64_to_le_bytes (shard_epoch sb)) in
  let? page := copy_from_slice page 54 58 (u32_to_le_bytes (page_size sb)) in
  let? page := copy_from_slice page ROOT_OFFSET (ROOT_OFFSET + 8)
                 (u64_to_le_bytes (encode_page_id (root_page_id sb))) in
  let? page := copy_from_slice page FREE_LIST_OFFSET (FREE_LIST_OFFSET + 8)
                 (u64_to_le_bytes (encode_page_id (free_list_head sb))) in
  let? page := copy_from_slice page HIGH_WATER_OFFSET (HIGH_WATER_OFFSET + 8)
                 (u64_to_le_bytes (encode_page_id (high_water_page_id sb))) in
  let? page := copy_from_slice page CHECKPOINT_OFFSET (CHECKPOINT_OFFSET + 8)
                 (u64_to_le_bytes (checkpoint_lsn sb)) in
  let checksum := superblock_checksum page in
  copy_from_slice page SB_CHECKSUM_OFFSET (SB_CHECKSUM_OFFSET + 4) (u32_to_le_bytes checksum).

Definition decode_superblock (bytes : list byte) : Result Error Superblock :=
  guard? len bytes =? PAGE_SIZE else Corruption "superblock has {} bytes, expected {PAGE_SIZE}" in
  let? magic := slice bytes 0 4 in
  guard? bytes_eqb magic SUPERBLOCK_MAGIC else Corruption "superblock magic mismatch" in
  let? version := slice bytes 4 6 in
  let format_version := from_le_bytes version in
  guard? format_version =? SUPERBLOCK_FORMAT_VERSION else
    UnsupportedFormat "superblock version {format_version}, supported {SUPERBLOCK_FORMAT_VERSION}" in
  let? stored := slice bytes SB_CHECKSUM_OFFSET (SB_CHECKSUM_OFFSET + 4) in
  let stored_checksum := from_le_bytes stored in
  guard? stored_checksum =? superblock_checksum bytes else
    Corruption "superblock checksum mismatch: stored {stored_checksum:#010x}, calculated {calculated_checksum:#010x}" in
  let? size_bytes := slice bytes 54 58 in
  let page_size := from_le_bytes size_bytes in
  guard? page_size =? PAGE_SIZE else
    UnsupportedFormat "superblock page size {page_size}, supported {PAGE_SIZE}" in
  let? generation := slice bytes 6 14 in
  let? uuid := slice bytes 14 30 in
  let? tenant := slice bytes 30 38 in
  let? shard := slice bytes 38 46 in
  let? epoch := slice bytes 46 54 in
  let? root := slice bytes ROOT_OFFSET (ROOT_OFFSET + 8) in
  let? free := slice bytes FREE_LIST_OFFSET (FREE_LIST_OFFSET + 8) in
  let? high := slice bytes HIGH_WATER_OFFSET (HIGH_WATER_OFFSET + 8) in
  let? checkpoint := slice bytes CHECKPOINT_OFFSET (CHECKPOINT_OFFSET + 8) in
  Ok {| sb_format_version := format_version; generation := from_le_bytes generation;
        database_uuid := uuid; tenant_id := from_le_bytes tenant;
        shard_id := from_le_bytes shard; shard_epoch := from_le_bytes epoch;
        page_size := page_size; root_page_id := decode_page_id (from_le_bytes root);
        free_list_head := decode_page_id (from_le_bytes free);
        high_water_page_id := decode_page_id (from_le_bytes high);
        checkpoint_lsn := from_le_bytes checkpoint; sb_checksum := stored_checksum |}.

Definition choose_superblock (slot_a slot_b : list byte) : Result Error SelectedSuperblock :=
  let a := decode_superblock slot_a in
  let b := decode_superblock slot_b in
  match a with
  | Err (UnsupportedFormat message) => Err (UnsupportedFormat message)
  | _ =>
    match b with
    | Err (UnsupportedFormat message) => Err (UnsupportedFormat message)
    | _ =>
      match a, b with
      | Ok superblock, Err _ => Ok {| slot := SlotA; superblock := superblock |}
      | Err _, Ok superblock => Ok {| slot := SlotB; superblock := superblock |}
      | Ok a, Ok b =>
          if generation b <=? generation a then Ok {| slot := SlotA; superblock := a |}
          else Ok {| slot := SlotB; superblock := b |}
      | Err _, Err _ => Err (Corruption "both superblock copies are invalid")
      | Panic, _ | _, Panic => Panic
      | NoFuel, _ | _, NoFuel => NoFuel
      end
    end
  end.

(** ** Lemmas *)

(** A page reference that the format can represent: not the null pattern. *)
Definition wf_page_ref (p : option PageId) : Prop :=
  match p with Some id => 0 ≤ id < U64_MAX | None => True end.

Definition wf_superblock (sb : Superblock) : Prop :=
  sb_format_version sb = SUPERBLOCK_FORMAT_VERSION ∧ is_u64 (generation sb) ∧
  len (database_uuid sb) = 16 ∧ is_u64 (tenant_id sb) ∧ is_u64 (shard_id sb) ∧
  is_u64 (shard_epoch sb) ∧ page_size sb = PAGE_SIZE ∧ wf_page_ref (root_page_id sb) ∧
  wf_page_ref (free_list_head sb) ∧ wf_page_ref (high_water_page_id sb) ∧
  is_u64 (checkpoint_lsn sb).

Lemma decode_encode_page_id p : wf_page_ref p → decode_page_id (encode_page_id p) = p.
Proof.
  destruct p as [id|]; [|done]. unfold wf_page_ref, decode_page_id, encode_page_id. intros Hp.
  rewrite (proj2 (Z.eqb_neq _ _)) by lia. done.
Qed.

Lemma encode_page_id_u64 p : wf_page_ref p → is_u64 (encode_page_id p).
Proof. destruct p; unfold wf_page_ref, encode_page_id; lia. Qed.

Lemma wf_decode_page_id z : is_u64 z → wf_page_ref (decode_page_id z).
Proof.
  intros Hz. unfold decode_page_id. destruct (z =? NULL_PAGE_ID) eqn:E; simpl; [done|].
  bool_props. lia.
Qed.

(** The image [encode_superblock] builds, before the checksum. *)
Definition superblock_unsealed (sb : Superblock) : list byte :=
  splice (splice (splice (splice (splice (splice (splice (splice (splice (splice (splice (splice
    (zeros PAGE_SIZE)
    0 SUPERBLOCK_MAGIC)
    4 (u16_to_le_bytes (sb_format_version sb)))
    6 (u64_to_le_bytes (generation sb)))
    14 (database_uuid sb))
    30 (u64_to_le_bytes (tenant_id sb)))
    38 (u64_to_le_bytes (shard_id sb)))
    46 (u64_to_le_bytes (shard_epoch sb)))
    54 (u32_to_le_bytes (page_size sb)))
    ROOT_OFFSET (u64_to_le_bytes (encode_page_id (root_page_id sb))))
    FREE_LIST_OFFSET (u64_to_le_bytes (encode_page_id (free_list_head sb))))
    HIGH_WATER_OFFSET (u64_to_le_bytes (encode_page_id (high_water_page_id sb))))
    CHECKPOINT_OFFSET (u64_to_le_bytes (checkpoint_lsn sb)).

Definition superblock_image (sb : Superblock) : list byte :=
  splice (superblock_unsealed sb) SB_CHECKSUM_OFFSET
    (u32_to_le_bytes (superblock_checksum (superblock_unsealed sb))).

Lemma len_sb_magic : len SUPERBLOCK_MAGIC = 4.
Proof. done. Qed.

Lemma encode_superblock_Ok sb :
  sb_format_version sb = SUPERBLOCK_FORMAT_VERSION → page_size sb = PAGE_SIZE →
  len (database_uuid sb) = 16 → encode_superblock sb = Ok (superblock_image sb).
Proof.
  intros Hv Hp Hu. unfold encode_superblock. rewrite Hv at 1. rewrite Hp at 1. rewrite !Z.eqb_refl.
  pose proof len_sb_magic. unfold superblock_image, superblock_unsealed.
  repeat (rewrite copy_Ok by len_tac; cbn [rbind]). reflexivity.
Qed.

Lemma len_superblock_unsealed sb : len (superblock_unsealed sb) = PAGE_SIZE.
Proof. unfold superblock_unsealed. len_tac. Qed.

Lemma len_superblock_image sb : len (superblock_image sb) = PAGE_SIZE.
Proof. unfold superblock_image. rewrite splice_len by lia. apply len_superblock_unsealed. Qed.

(** The superblock that a reader of the encoding sees. *)
Definition sealed_copy (sb : Superblock) : Superblock :=
  {| sb_format_version := sb_format_version sb; generation := generation sb;
     database_uuid := database_uuid sb; tenant_id := tenant_id sb;
     shard_id := shard_id sb; shard_epoch := shard_epoch sb;
     page_size := page_size sb; root_page_id := root_page_id sb;
     free_list_head := free_list_head sb; high_water_page_id := high_water_page_id sb;
     checkpoint_lsn := checkpoint_lsn sb; sb_checksum := superblock_checksum (superblock_image sb) |}.

Lemma decode_superblock_image sb : wf_superblock sb → decode_superblock (superblock_image sb) = Ok (sealed_copy sb).
Proof.
  intros (Hv&Hg&Hu&Ht&Hs&He&Hp&Hr&Hf&Hh&Hc).
  pose proof len_sb_magic.
  assert (Hcrc : superblock_checksum (superblock_image sb) = superblock_checksum (superblock_unsealed sb)).
  { unfold superblock_checksum. f_equal.
    apply splice_splice_same; rewrite ?len_superblock_unsealed, ?len_zeros; len_tac. }
  unfold decode_superblock. rewrite len_superblock_image, Z.eqb_refl.
  rewrite !slice_Ok by (rewrite ?len_superblock_image; lia). cbn [rbind].
  unfold sealed_copy. rewrite Hcrc. unfold superblock_image.
  generalize (crc32c_u32 (splice (superblock_unsealed sb) SB_CHECKSUM_OFFSET (zeros 4))).
  fold (superblock_checksum (superblock_unsealed sb)).
  generalize (superblock_checksum (superblock_unsealed sb)). intros crc Hcrc32.
  unfold superblock_unsealed, ROOT_OFFSET, FREE_LIST_OFFSET, HIGH_WATER_OFFSET,
    CHECKPOINT_OFFSET, SB_CHECKSUM_OFFSET in *. cbn [Z.add Pos.add Pos.succ].
  read_back. rewrite bytes_eqb_refl, from_u16, Hv, Z.eqb_refl by (rewrite Hv; lia).
  rewrite !from_u32, Hp, !Z.eqb_refl by (done || lia).
  rewrite !from_u64 by (done || by apply encode_page_id_u64).
  by rewrite !decode_encode_page_id.
Qed.

(** C17. Decoding an encoded superblock gives it back, with the calculated
    checksum in its checksum field. *)
Theorem superblock_decode_encode sb :
  wf_superblock sb →
  ∃ image, encode_superblock sb = Ok image ∧ len image = PAGE_SIZE ∧
    decode_superblock image =
      Ok {| sb_format_version := sb_format_version sb; generation := generation sb;
            database_uuid := database_uuid sb; tenant_id := tenant_id sb;
            shard_id := shard_id sb; shard_epoch := shard_epoch sb;
            page_size := page_size sb; root_page_id := root_page_id sb;
            free_list_head := free_list_head sb;
            high_water_page_id := high_water_page_id sb;
            checkpoint_lsn := checkpoint_lsn sb;
            sb_checksum := superblock_checksum image |}.
Proof.
  intros Hwf. exists (superblock_image sb). split.
  { destruct Hwf as (?&?&?&?&?&?&?&_). by apply encode_superblock_Ok. }
  split; [apply len_superblock_image|]. by apply decode_superblock_image.
Qed.

Lemma superblock_decode_returns bytes : returns (decode_superblock bytes).
Proof.
  unfold decode_superblock. destruct (len bytes =? PAGE_SIZE) eqn:HL; [|done]. bool_props.
  rewrite !slice_Ok by lia. simpl.
  destruct (bytes_eqb _ _); [|done]. destruct (_ =? SUPERBLOCK_FORMAT_VERSION); [|done].
  destruct (_ =? superblock_checksum bytes); [|done].
  by destruct (_ =? PAGE_SIZE).
Qed.

(** The copy in a slot, when it is valid. *)
Definition valid_copy (bytes : list byte) : option Superblock :=
  match decode_superblock bytes with Ok sb => Some sb | _ => None end.

Definition unsupported (bytes : list byte) : Prop :=
  ∃ m, decode_superblock bytes = Err (UnsupportedFormat m).

(** C18. What opening selects: neither copy has an unsupported format, the
    selected copy is a valid one, and its generation is the highest of the
    valid copies, slot A winning a tie. *)
Theorem choose_superblock_spec slot_a slot_b sel :
  choose_superblock slot_a slot_b = Ok sel ↔
    ¬ unsupported slot_a ∧ ¬ unsupported slot_b ∧
    match slot sel with
    | SlotA => valid_copy slot_a = Some (superblock sel) ∧
        (∀ sb, valid_copy slot_b = Some sb → generation sb ≤ generation (superblock sel))
    | SlotB => valid_copy slot_b = Some (superblock sel) ∧
        (∀ sb, valid_copy slot_a = Some sb → generation sb < generation (superblock sel))
    end.
Proof.
  unfold choose_superblock, valid_copy, unsupported.
  pose proof (superblock_decode_returns slot_a) as Ra. pose proof (superblock_decode_returns slot_b) as Rb.
  destruct (decode_superblock slot_a) as [a|ea| |], (decode_superblock slot_b) as [b|eb| |]; try done.
  - destruct (generation b <=? generation a) eqn:E; bool_props.
    + split; [intros [= <-]; simpl; naive_solver|]. destruct sel as [[] sb]; simpl; [naive_solver|].
      intros (_ & _ & [= ->] & Hlt). specialize (Hlt _ eq_refl). lia.
    + split; [intros [= <-]; simpl; naive_solver|]. destruct sel as [[] sb]; simpl; [|naive_solver].
      intros (_ & _ & [= ->] & Hle). specialize (Hle _ eq_refl). lia.
  - destruct eb; (split; [intros [=]; subst; simpl; naive_solver|destruct sel as [[] sb]; simpl; naive_solver]).
  - destruct ea; (split; [intros [=]; subst; simpl; naive_solver|destruct sel as [[] sb]; simpl; naive_solver]).
  - destruct ea, eb; (split; [intros [=]; subst; simpl; naive_solver|destruct sel as [[] sb]; simpl; naive_solver]).
Qed.

End codec.

(** The metadata of a new database after one checkpoint. *)
Definition example_superblock : Superblock :=
  {| sb_format_version := 1; generation := 2; database_uuid := zeros 16; tenant_id := 3;
     shard_id := 4; shard_epoch := 5; page_size := 4096; root_page_id := Some 8;
     free_list_head := None; high_water_page_id := Some 10; checkpoint_lsn := 11;
     sb_checksum := 0 |}.

Lemma superblock_decode_encode_witness :
  let _ := castagnoli_crc in
  ∃ image, encode_superblock example_superblock = Ok image ∧ len image = PAGE_SIZE ∧
    decode_superblock image =
      Ok {| sb_format_version := 1; generation := 2; database_uuid := zeros 16; tenant_id := 3;
            shard_id := 4; shard_epoch := 5; page_size := 4096; root_page_id := Some 8;
            free_list_head := None; high_water_page_id := Some 10; checkpoint_lsn := 11;
            sb_checksum := superblock_checksum image |}.
Proof.
  apply (superblock_decode_encode (H := castagnoli_crc) example_superblock).
  unfold wf_superblock, wf_page_ref; simpl. repeat split; try lia; done.
Defined.
