(* ===== verification/DurableFile.v ===== *)
(** * DurableFile: the positional file contract

    src/dodb/crates/dodb-storage/src/durable_file.rs (the trait),
    src/dodb/crates/dodb-storage/src/fault.rs (the fault hook) and the loops
    that complete short reads and writes (in wal.rs and btree/mod.rs).

    [DurableFile] is the trait as a class of operations; [DurableFileLaws]
    states what the trait's documentation promises: reads and writes may be
    short, writes are volatile until a sync succeeds.  The storage engine's
    theorems are proved against these laws; Crashable.v discharges them for the
    simulated file.  [ProductionFile] is the operating system's file and has no
    model. *)

From S2P Require Import Prelude Core.

(** [read_at offset n] returns the bytes placed in a buffer of [n] bytes; the
    count the source returns is their number. *)
Class DurableFile (F : Type) := {
  read_at : Z → Z → ST F Error (list byte);
  write_at : Z → list byte → ST F Error Z;
  file_len : F → Result Error Z;
  set_len : Z → ST F Error unit;
  sync_data : ST F Error unit;
  sync_all : ST F Error unit
}.

Definition file_is_empty {F} `{DurableFile F} (f : F) : Result Error bool :=
  let? n := file_len f in Ok (n =? 0).

(** [trait FaultInjector]. *)
Class FaultInjector (I : Type) := {
  injector_hit : string → ST I Error unit
}.

(** [Vec::resize(n, 0)]. *)
Definition resize_bytes (n : Z) (l : list byte) : list byte :=
  take (Z.to_nat n) l ++ zeros (n - len l).

(** The bytes of a file after writing [bs] at [offset]: the file grows, with
    zeros, when the range ends behind its end. *)
Definition write_bytes (l : list byte) (offset : Z) (bs : list byte) : list byte :=
  splice (if len l <? offset + len bs then resize_bytes (offset + len bs) l else l) offset bs.

Class DurableFileLaws (F : Type) `{DurableFile F} := {
  (** what reads see, and what survives a crash *)
  contents : F → list byte;
  durable : F → list byte;
  (** no operation is going to fail or to make no progress *)
  reliable : F → Prop;
  file_len_law f :
    match file_len f with Ok n => n = len (contents f) | Err _ => True | _ => False end;
  read_at_law f offset n :
    is_u64 offset → 0 ≤ n →
    let '(r, f') := read_at offset n f in
    contents f' = contents f ∧ durable f' = durable f ∧
    match r with
    | Ok bs => len bs ≤ n ∧ bs = sub (contents f) offset (offset + len bs)
    | Err _ => True
    | _ => False
    end;
  write_at_law f offset bs :
    is_u64 offset →
    let '(r, f') := write_at offset bs f in
    durable f' = durable f ∧
    match r with
    | Ok c => 0 ≤ c ≤ len bs ∧ contents f' = write_bytes (contents f) offset (take (Z.to_nat c) bs)
    | Err _ => ∃ c, 0 ≤ c ≤ len bs ∧
        (contents f' = contents f ∨ contents f' = write_bytes (contents f) offset (take (Z.to_nat c) bs))
    | _ => False
    end;
  set_len_law f n :
    is_u64 n →
    let '(r, f') := set_len n f in
    durable f' = durable f ∧
    match r with
    | Ok _ => contents f' = resize_bytes n (contents f)
    | Err _ => contents f' = contents f ∨ contents f' = resize_bytes n (contents f)
    | _ => False
    end;
  sync_data_law f :
    let '(r, f') := sync_data f in
    contents f' = contents f ∧
    match r with Ok _ => durable f' = contents f | Err _ => True | _ => False end;
  sync_all_law f :
    let '(r, f') := sync_all f in
    contents f' = contents f ∧
    match r with Ok _ => durable f' = contents f | Err _ => True | _ => False end;
  reliable_len f : reliable f → is_ok (file_len f) = true;
  reliable_read f offset n :
    reliable f → is_u64 offset → 0 < n → offset < len (contents f) →
    reliable (read_at offset n f).2 ∧ ∃ bs, (read_at offset n f).1 = Ok bs ∧ bs ≠ [];
  reliable_write f offset bs :
    reliable f → 0 ≤ offset → offset + len bs ≤ U64_MAX → bs ≠ [] →
    reliable (write_at offset bs f).2 ∧ ∃ c, (write_at offset bs f).1 = Ok c ∧ c ≠ 0;
  reliable_set_len f n :
    reliable f → is_u64 n → reliable (set_len n f).2 ∧ (set_len n f).1 = Ok tt;
  reliable_sync f : reliable f → reliable (sync_data f).2 ∧ (sync_data f).1 = Ok tt;
  reliable_sync_all f : reliable f → reliable (sync_all f).2 ∧ (sync_all f).1 = Ok tt
}.

Section loops.
Context {F : Type} `{DurableFile F}.

(** The [while position < length] loop of [read_exact_at]; [add] computes the
    offset of the next read and [eof] is the error for a read of no bytes. *)
Fixpoint read_loop (add : Z → Z → Result Error Z) (eof : Error) (fuel : nat)
    (offset length position : Z) (bytes : list byte) : ST F Error (list byte) :=
  if position <? length then
    match fuel with
    | O => lift NoFuel
    | S fuel =>
        let* at_ := lift (add offset position) in
        let* chunk := read_at at_ (length - position) in
        guard* negb (len chunk =? 0) else eof in
        let* bytes := lift (copy_from_slice bytes position (position + len chunk) chunk) in
        read_loop add eof fuel offset length (position + len chunk) bytes
    end
  else ret bytes.

Fixpoint write_loop (add : Z → Z → Result Error Z) (zero : Error) (fuel : nat)
    (offset position : Z) (bytes : list byte) : ST F Error unit :=
  if position <? len bytes then
    match fuel with
    | O => lift NoFuel
    | S fuel =>
        let* at_ := lift (add offset position) in
        let* rest := lift (slice bytes position (len bytes)) in
        let* count := write_at at_ rest in
        guard* negb (count =? 0) else zero in
        write_loop add zero fuel offset (position + count) bytes
    end
  else ret tt.

(** Every round moves at least one byte, so the length is fuel enough. *)
Definition read_exact (add : Z → Z → Result Error Z) (eof : Error) (offset length : Z)
    : ST F Error (list byte) :=
  read_loop add eof (Z.to_nat length) offset length 0 (zeros length).

Definition write_all (add : Z → Z → Result Error Z) (zero : Error) (offset : Z) (bytes : list byte)
    : ST F Error unit :=
  write_loop add zero (length bytes) offset 0 bytes.

(** wal.rs: [read_exact_at] and [write_all_at]. *)
Definition wal_read_exact_at : Z → Z → ST F Error (list byte) :=
  read_exact (λ a b, ok_or (checked_add a b) (Corruption "WAL read offset overflows"))
    (Io UnexpectedEof "unexpected end of WAL").

Definition wal_write_all_at : Z → list byte → ST F Error unit :=
  write_all (λ a b, ok_or (checked_add a b) (InvalidInput "WAL write offset overflows"))
    (Io WriteZero "WAL returned a zero-byte write").

(** btree/mod.rs: [read_exact_at] and [write_all_at]. *)
Definition read_exact_at : Z → Z → ST F Error (list byte) :=
  read_exact plain_add (Corruption "unexpected end of database file").

Definition write_all_at : Z → list byte → ST F Error unit :=
  write_all plain_add (Io WriteZero "database file returned a zero-byte write").

End loops.

(** ** Lemmas on file images *)

Lemma len_resize n l : 0 ≤ n → len (resize_bytes n l) = n.
Proof.
  intros Hn. unfold resize_bytes, zeros. rewrite len_app. unfold len.
  rewrite length_take, length_replicate. lia.
Qed.

Lemma resize_id l : resize_bytes (len l) l = l.
Proof.
  unfold resize_bytes. rewrite Z.sub_diag. rewrite to_nat_len, take_ge by done. apply app_nil_r.
Qed.

Lemma resize_grow n l : len l ≤ n → resize_bytes n l = l ++ zeros (n - len l).
Proof. intros. unfold resize_bytes. rewrite take_ge; [done|]. unfold len in *; lia. Qed.

Lemma resize_shrink n l : n ≤ len l → resize_bytes n l = take (Z.to_nat n) l.
Proof.
  intros. unfold resize_bytes, zeros. replace (Z.to_nat (n - len l)) with 0%nat by lia.
  apply app_nil_r.
Qed.

Lemma len_write_bytes l offset bs :
  0 ≤ offset → len (write_bytes l offset bs) = Z.max (len l) (offset + len bs).
Proof.
  intros. pose proof (len_nonneg bs). unfold write_bytes. rewrite splice_len by done.
  destruct (_ <? _) eqn:E; bool_props; rewrite ?len_resize by lia; lia.
Qed.

Lemma write_bytes_inside l offset bs :
  offset + len bs ≤ len l → write_bytes l offset bs = splice l offset bs.
Proof. intros. unfold write_bytes. by rewrite (proj2 (Z.ltb_ge _ _)) by lia. Qed.

Lemma splice_nil {A} (l : list A) a : 0 ≤ a ≤ len l → splice l a [] = l.
Proof.
  intros. apply splice_id; [lia|rewrite len_nil; lia|]. rewrite len_nil, Z.add_0_r. apply sub_empty.
Qed.

Lemma write_bytes_eq l offset bs :
  0 ≤ offset ≤ len l →
  write_bytes l offset bs = take (Z.to_nat offset) l ++ bs ++ drop (Z.to_nat (offset + len bs)) l.
Proof.
  intros Ho. pose proof (len_nonneg bs). unfold write_bytes. destruct (_ <? _) eqn:E; bool_props.
  - rewrite resize_grow by lia. unfold splice.
    rewrite take_app_le by (unfold len in *; lia). f_equal.
    assert (length (l ++ zeros (offset + len bs - len l)) = Z.to_nat (offset + len bs)) as ->.
    { rewrite length_app. unfold zeros. rewrite length_replicate. unfold len in *. lia. }
    rewrite take_ge by (unfold len; lia). f_equal.
    rewrite !drop_ge; [done|unfold len in *; lia|].
    rewrite length_app. unfold zeros. rewrite length_replicate. unfold len in *. lia.
  - unfold splice. f_equal. f_equal. apply take_ge. unfold len in *. lia.
Qed.

Lemma write_bytes_nil l offset : 0 ≤ offset ≤ len l → write_bytes l offset [] = l.
Proof.
  intros. rewrite write_bytes_eq, len_nil, Z.add_0_r by lia. apply take_drop.
Qed.

(** Writing at the end of the file appends. *)
Lemma write_bytes_append l bs : write_bytes l (len l) bs = l ++ bs.
Proof.
  pose proof (len_nonneg l). rewrite write_bytes_eq by lia. rewrite to_nat_len, take_ge by done.
  rewrite drop_ge by (unfold len; lia). by rewrite app_nil_r.
Qed.

(** Two writes back to back are one write. *)
Lemma write_bytes_app l offset b1 b2 :
  0 ≤ offset ≤ len l →
  write_bytes (write_bytes l offset b1) (offset + len b1) b2 = write_bytes l offset (b1 ++ b2).
Proof.
  intros Ho. pose proof (len_nonneg b1).
  rewrite (write_bytes_eq (write_bytes _ _ _)) by (rewrite len_write_bytes; lia).
  rewrite !write_bytes_eq, len_app by lia.
  set (p := take (Z.to_nat offset) l).
  assert (Hp : length p = Z.to_nat offset) by (subst p; rewrite length_take; unfold len in *; lia).
  rewrite (app_assoc p b1). replace (Z.to_nat (offset + len b1)) with (length (p ++ b1))
    by (rewrite length_app; unfold len in *; lia).
  rewrite take_app_length, <- !app_assoc. do 3 f_equal.
  replace (Z.to_nat (offset + len b1 + len b2)) with (length (p ++ b1) + length b2)%nat
    by (rewrite length_app; unfold len in *; lia).
  rewrite (app_assoc p b1), drop_app_add, drop_drop. f_equal. rewrite length_app. unfold len in *. lia.
Qed.

(** ** The read and write loops *)

Section laws.
Context {F : Type} `{DFL : DurableFileLaws F}.

(** How an offset is advanced: exactly, as long as it stays in range. *)
Definition adds (add : Z → Z → Result Error Z) : Prop :=
  (∀ a b, a + b ≤ U64_MAX → add a b = Ok (a + b)) ∧
  (∀ a b c, add a b = Ok c → c = a + b ∧ c ≤ U64_MAX) ∧ (∀ a b, add a b ≠ NoFuel).

Lemma adds_checked e : adds (λ a b, ok_or (checked_add a b) e).
Proof.
  unfold adds, checked_add. split_and!; intros; destruct (_ <=? _) eqn:E; bool_props; simpl in *;
    try done; try lia; simplify_eq; lia.
Qed.

Lemma adds_plain : adds plain_add.
Proof.
  unfold adds, plain_add. split_and!; intros; destruct (_ <=? _) eqn:E; bool_props;
    try done; try lia; simplify_eq; lia.
Qed.

(** What a read leaves: the file as it was and, on success, the bytes asked for. *)
Definition read_post (f : F) (offset length : Z) (out : Result Error (list byte) * F) : Prop :=
  contents out.2 = contents f ∧ durable out.2 = durable f ∧ out.1 ≠ NoFuel ∧
  (offset + length ≤ U64_MAX → out.1 ≠ Panic) ∧
  (∀ bs, out.1 = Ok bs → bs = sub (contents f) offset (offset + length) ∧ len bs = length) ∧
  (reliable f → offset + length ≤ len (contents f) → offset + length ≤ U64_MAX →
     is_ok out.1 = true ∧ reliable out.2).

Lemma read_loop_spec add eof fuel offset length position bytes f :
  adds add → 0 ≤ offset → 0 ≤ position ≤ length → len bytes = length →
  length - position ≤ Z.of_nat fuel →
  sub bytes 0 position = sub (contents f) offset (offset + position) →
  read_post f offset length (read_loop add eof fuel offset length position bytes f).
Proof.
  intros (A1 & A2 & A3) Ho. revert position bytes f.
  induction fuel as [|fuel IH]; intros position bytes f Hp Hb Hf Hsub; simpl;
    destruct (position <? length) eqn:Elt; bool_props.
  - lia.
  - unfold read_post, ret; simpl. assert (position = length) as -> by lia.
    split_and!; try done. intros bs [= <-]. by rewrite <- Hsub, sub_all'.
  - unfold bind, lift. destruct (add offset position) as [at_| | |] eqn:Ea; simpl.
    2: { unfold read_post; simpl. split_and!; try done. intros. by rewrite A1 in Ea by lia. }
    2: { unfold read_post; simpl. split_and!; try done; intros; by rewrite A1 in Ea by lia. }
    2: { by apply A3 in Ea. }
    apply A2 in Ea as [-> Hat].
    pose proof (read_at_law f (offset + position) (length - position) ltac:(lia) ltac:(lia)) as R.
    assert (L : reliable f → offset + position < len (contents f) → _)
      by (intros Hr; apply (reliable_read f (offset + position) (length - position) Hr); lia).
    destruct (read_at _ _ f) as [[chunk|e| |] f1] eqn:Er; simpl in *; destruct R as (Rc & Rd & R); try done.
    2: { unfold read_post; simpl. split_and!; try done. intros Hr Hl _.
         destruct (L Hr) as (_ & bs & ? & _); [lia|done]. }
    destruct R as [Rl Rb]. destruct (len chunk =? 0) eqn:E0; simpl.
    { unfold read_post, throw; simpl. split_and!; try done. intros Hr Hl _.
      destruct (L Hr) as (_ & bs & [= <-] & Hne); [lia|]. bool_props. by apply len_0_nil in E0. }
    bool_props. pose proof (len_nonneg chunk). rewrite copy_Ok by lia.
    unfold read_post. rewrite <- Rc, <- Rd.
    destruct (IH (position + len chunk) (splice bytes position chunk) f1) as (C & D & N & P & O & R).
    + lia.
    + rewrite splice_len; lia.
    + lia.
    + rewrite (sub_split _ 0 position) by lia. rewrite sub_splice_ne, sub_splice_same by lia.
      rewrite Hsub, Rc, Rb at 1. rewrite Z.add_assoc. symmetry. apply sub_split; lia.
    + split_and!; try done. rewrite Rc. intros Hr Hl Hu. apply R; [|by rewrite Rc|done].
      apply L; [done|lia].
  - unfold read_post, ret; simpl. assert (position = length) as -> by lia.
    split_and!; try done. intros bs [= <-]. by rewrite <- Hsub, sub_all'.
Qed.

Lemma read_exact_spec add eof offset length f :
  adds add → 0 ≤ offset → 0 ≤ length → read_post f offset length (read_exact add eof offset length f).
Proof.
  intros. unfold read_exact. apply read_loop_spec; try done; try lia.
  - rewrite len_zeros; lia.
  - by rewrite Z.add_0_r, !sub_empty.
Qed.

(** What a write leaves: a prefix of the bytes written, all of them on success. *)
Definition write_post (f : F) (offset : Z) (bytes : list byte) (out : Result Error unit * F) : Prop :=
  durable out.2 = durable f ∧ out.1 ≠ NoFuel ∧
  (offset + len bytes ≤ U64_MAX → out.1 ≠ Panic) ∧
  (∃ k, (k ≤ length bytes)%nat ∧ contents out.2 = write_bytes (contents f) offset (take k bytes) ∧
     (is_ok out.1 = true → k = length bytes)) ∧
  (reliable f → offset + len bytes ≤ U64_MAX → is_ok out.1 = true ∧ reliable out.2).

Lemma take_sub_app {A} (bytes : list A) p c :
  0 ≤ p → 0 ≤ c → p + c ≤ len bytes →
  take (Z.to_nat p) bytes ++ take (Z.to_nat c) (sub bytes p (len bytes)) = take (Z.to_nat (p + c)) bytes.
Proof.
  intros. unfold sub. rewrite take_take, Nat.min_l by lia.
  replace (Z.to_nat (p + c)) with (Z.to_nat p + Z.to_nat c)%nat by lia. by rewrite take_take_drop.
Qed.

Lemma write_loop_spec add zero fuel offset position bytes f0 f :
  adds add → 0 ≤ offset ≤ len (contents f0) → 0 ≤ position ≤ len bytes →
  len bytes - position ≤ Z.of_nat fuel →
  contents f = write_bytes (contents f0) offset (take (Z.to_nat position) bytes) →
  durable f = durable f0 → (reliable f0 → offset + len bytes ≤ U64_MAX → reliable f) →
  write_post f0 offset bytes (write_loop add zero fuel offset position bytes f).
Proof.
  intros (A1 & A2 & A3) Ho. revert position f.
  assert (Hstop : ∀ position f f1, 0 ≤ position ≤ len bytes →
    contents f = write_bytes (contents f0) offset (take (Z.to_nat position) bytes) →
    contents f1 = contents f →
    ∃ k, (k ≤ length bytes)%nat ∧ contents f1 = write_bytes (contents f0) offset (take k bytes) ∧
     (false = true → k = length bytes)).
  { intros position f f1 Hp Hc Hc1. exists (Z.to_nat position).
    split_and!; [unfold len in *; lia|by rewrite Hc1|done]. }
  induction fuel as [|fuel IH]; intros position f Hp Hf Hc Hd Hrel; simpl;
    destruct (position <? len bytes) eqn:Elt; bool_props; try lia.
  1, 3: unfold write_post, ret; simpl; split_and!; try done; [|naive_solver];
    exists (Z.to_nat position); split_and!; [unfold len in *; lia|done|unfold len in *; lia].
  unfold bind, lift. destruct (add offset position) as [at_| | |] eqn:Ea; simpl.
  2, 3: unfold write_post; simpl; split_and!; try done; try (by apply (Hstop position f)); intros;
    by rewrite A1 in Ea by lia.
  2: by apply A3 in Ea.
  apply A2 in Ea as [-> Hat]. rewrite slice_Ok by lia. simpl.
  assert (Hlc : len (contents f) = Z.max (len (contents f0)) (offset + position)).
  { rewrite Hc, len_write_bytes, len_take by lia. done. }
  assert (Hne : sub bytes position (len bytes) ≠ []).
  { intros E. assert (X : len (sub bytes position (len bytes)) = 0) by by rewrite E.
    rewrite len_sub in X; lia. }
  assert (Hsl : len (sub bytes position (len bytes)) = len bytes - position) by (apply len_sub; lia).
  pose proof (write_at_law f (offset + position) (sub bytes position (len bytes)) ltac:(lia)) as W.
  assert (L : reliable f → offset + len bytes ≤ U64_MAX → _)
    by (intros Hr ?; apply (reliable_write f (offset + position) (sub bytes position (len bytes)) Hr); done || lia).
  rewrite Hsl in W.
  assert (Happ : ∀ c, 0 ≤ c ≤ len bytes - position →
    write_bytes (contents f) (offset + position) (take (Z.to_nat c) (sub bytes position (len bytes))) =
    write_bytes (contents f0) offset (take (Z.to_nat (position + c)) bytes)).
  { intros c Hcc. rewrite Hc, <- take_sub_app by lia. rewrite <- write_bytes_app by lia.
    f_equal. rewrite len_take; lia. }
  destruct (write_at _ _ f) as [[c|e| |] f1] eqn:Ew; simpl in *; destruct W as (Wd & W); try done.
  - destruct W as [Wl Wc]. rewrite Happ in Wc by done.
    destruct (c =? 0) eqn:E0; simpl; bool_props.
    + unfold write_post, throw; simpl. split_and!; try done; [congruence| |].
      * exists (Z.to_nat (position + c)). split_and!; [unfold len in *; lia|done|done].
      * intros Hr Hu. destruct L as (_ & ? & [= <-] & ?); [naive_solver|lia|done].
    + apply IH; [lia|lia|done|congruence|].
      intros Hr Hu. apply L; [naive_solver|lia].
  - unfold write_post; simpl. split_and!; try done; [congruence| |].
    + destruct W as (c & Hcc & [W|W]); [by apply (Hstop position f)|].
      exists (Z.to_nat (position + c)). split_and!; [unfold len in *; lia| |done].
      by rewrite W, Happ.
    + intros Hr Hu. destruct L as (_ & ? & ? & ?); [naive_solver|lia|done].
Qed.

Lemma write_all_spec add zero offset bytes f :
  adds add → 0 ≤ offset ≤ len (contents f) → write_post f offset bytes (write_all add zero offset bytes f).
Proof.
  intros. unfold write_all. pose proof (len_nonneg bytes).
  apply write_loop_spec; try done; try (unfold len; lia).
  by rewrite write_bytes_nil.
Qed.

(** A computation that only reads: it leaves the file as it was and returns [a],
    or an error of the file. *)
Definition reads {A} (f : F) (out : Result Error A * F) (a : A) : Prop :=
  contents out.2 = contents f ∧ durable out.2 = durable f ∧
  (out.1 = Ok a ∨ ∃ e, out.1 = Err e ∧ ¬ reliable f) ∧ (reliable f → reliable out.2).

Lemma reads_ret {A} f (a : A) : reads f (ret a f) a.
Proof. unfold reads, ret; simpl. auto. Qed.

Lemma reads_lift {A} f m (a : A) : m = Ok a → reads f (lift m f) a.
Proof. intros ->. unfold reads, lift; simpl. auto. Qed.

Lemma reads_bind {A B} f (m : ST F Error A) (k : A → ST F Error B) a b :
  reads f (m f) a →
  (∀ f', contents f' = contents f → durable f' = durable f → reads f' (k a f') b) →
  reads f (bind m k f) b.
Proof.
  intros (Hc & Hd & Hr & Hrel) Hk. unfold bind. destruct (m f) as [r f']; simpl in *.
  destruct Hr as [->|(e & -> & Hnr)].
  - destruct (Hk f' Hc Hd) as (Hc' & Hd' & Hr' & Hrel'). unfold reads.
    rewrite Hc', Hd', Hc, Hd. split_and!; auto.
    destruct Hr' as [?|(e & ? & ?)]; [auto|]. right. exists e. auto.
  - unfold reads; simpl. split_and!; eauto.
Qed.

Lemma reads_len f : reads f (file_len f, f) (len (contents f)).
Proof.
  pose proof (file_len_law f) as L. pose proof (reliable_len f) as R. unfold reads; simpl.
  split_and!; auto. destruct (file_len f) as [n|e| |]; try done; [left; congruence|].
  right. exists e. split; [done|]. intros Hr. by apply R in Hr.
Qed.

Lemma reads_exact add eof offset n f :
  adds add → 0 ≤ offset → 0 ≤ n → offset + n ≤ len (contents f) → offset + n ≤ U64_MAX →
  reads f (read_exact add eof offset n f) (sub (contents f) offset (offset + n)).
Proof.
  intros Ha Ho Hn Hl Hu.
  destruct (read_exact_spec add eof offset n f Ha Ho Hn) as (Hc & Hd & Hf & Hp & Hok & Hrel).
  destruct (read_exact add eof offset n f) as [r f']; simpl in *. unfold reads; simpl.
  split_and!; [done|done| |naive_solver].
  destruct r as [bs|e| |]; [left; f_equal; naive_solver| |naive_solver|done].
  right. exists e. split; [done|]. intros Hr. by destruct (Hrel Hr).
Qed.

End laws.

#[export] Hint Resolve adds_checked adds_plain : dodb.
