(* ===== verification/Crashable.v ===== *)
(** * Crashable: the simulated file and the crash-point injector

    src/dodb/crates/dodb-testkit/src/crashable_file.rs and crash.rs: an
    in-memory file with separate volatile and durable bytes and a schedule of
    faults, and the injector of named crash points.  The theorems show that the
    simulated file satisfies the file contract under every fault plan, and what
    a crash leaves. *)

From S2P Require Import Prelude Core DurableFile.

Inductive FileOperation : Type := ReadAt | WriteAt | SetLen | SyncData | SyncAll.

Global Instance FileOperation_eq_dec : EqDecision FileOperation.
Proof. solve_decision. Defined.
Global Instance FileOperation_countable : Countable FileOperation.
Proof.
  refine (inj_countable
    (λ o, match o with ReadAt => 0 | WriteAt => 1 | SetLen => 2 | SyncData => 3 | SyncAll => 4 end)
    (λ z, match z with 0 => Some ReadAt | 1 => Some WriteAt | 2 => Some SetLen | 3 => Some SyncData
                     | _ => Some SyncAll end) _).
  by intros [].
Defined.

Inductive FaultAction : Type :=
  | ShortWrite (max_bytes : N)
  | ShortRead (max_bytes : N)
  | IoFault (kind : IoErrorKind) (message : string)
  | SyncPersistAllThenIo (kind : IoErrorKind) (message : string)
  | SyncPersistPrefixThenIo (length : N) (kind : IoErrorKind) (message : string).

Record FaultPlan := mkFaultPlan {
  faults : gmap Z (FileOperation * FaultAction);
  next_matching : gmap FileOperation (Z * FaultAction);
  matching_hits : gmap FileOperation Z;
  next_operation : Z
}.

Definition FaultPlan_default : FaultPlan := mkFaultPlan ∅ ∅ ∅ 0.

Definition FaultPlan_insert (p : FaultPlan) (operation_index : Z) (operation : FileOperation)
    (action : FaultAction) : FaultPlan :=
  mkFaultPlan (<[operation_index := (operation, action)]> (faults p)) (next_matching p)
    (matching_hits p) (next_operation p).

Definition FaultPlan_on_nth (p : FaultPlan) (operation : FileOperation) (nth : Z)
    (action : FaultAction) : FaultPlan :=
  mkFaultPlan (faults p) (<[operation := (Z.max nth 1, action)]> (next_matching p))
    (matching_hits p) (next_operation p).

Definition FaultPlan_on_next (p : FaultPlan) (operation : FileOperation) (action : FaultAction)
    : FaultPlan := FaultPlan_on_nth p operation 1 action.

Definition next_fault (p : FaultPlan) (operation : FileOperation) : option FaultAction * FaultPlan :=
  let index := next_operation p in
  let next := saturating_add index 1 in
  match faults p !! index with
  | Some (expected_operation, action) =>
      if decide (expected_operation = operation)
      then (Some action, mkFaultPlan (delete index (faults p)) (next_matching p) (matching_hits p) next)
      else (None, mkFaultPlan (<[index := (expected_operation, action)]> (delete index (faults p)))
                    (next_matching p) (matching_hits p) next)
  | None =>
      let hits := saturating_add (default 0 (matching_hits p !! operation)) 1 in
      let matching_hits' := <[operation := hits]> (matching_hits p) in
      match next_matching p !! operation with
      | Some (nth, action) =>
          if nth =? hits
          then (Some action, mkFaultPlan (faults p) (delete operation (next_matching p)) matching_hits' next)
          else (None, mkFaultPlan (faults p) (next_matching p) matching_hits' next)
      | None => (None, mkFaultPlan (faults p) (next_matching p) matching_hits' next)
      end
  end.

Record CrashableFile := mkCrashable {
  volatile_bytes : list byte;
  durable_bytes : list byte;
  fault_plan : FaultPlan
}.

Definition CrashableFile_from_durable (bytes : list byte) : CrashableFile :=
  mkCrashable bytes bytes FaultPlan_default.

Definition CrashableFile_new : CrashableFile := CrashableFile_from_durable [].

Definition set_fault_plan (f : CrashableFile) (p : FaultPlan) : CrashableFile :=
  mkCrashable (volatile_bytes f) (durable_bytes f) p.

Definition set_volatile (bs : list byte) (f : CrashableFile) : CrashableFile :=
  mkCrashable bs (durable_bytes f) (fault_plan f).
Definition set_durable (bs : list byte) (f : CrashableFile) : CrashableFile :=
  mkCrashable (volatile_bytes f) bs (fault_plan f).

(** [*byte ^= 1]. *)
Definition flip_low_bit (b : byte) : byte := byte.of_Z (Z.lxor (byte.unsigned b) 1).

Definition corrupt_durable_byte (offset : Z) : ST CrashableFile Error unit := fun f =>
  match durable_bytes f !! Z.to_nat offset with
  | None => (Err (InvalidInput "corruption offset is outside the durable file"), f)
  | Some b =>
      let b' := flip_low_bit b in
      let d := <[Z.to_nat offset := b']> (durable_bytes f) in
      let v := match volatile_bytes f !! Z.to_nat offset with
               | Some _ => <[Z.to_nat offset := b']> (volatile_bytes f)
               | None => volatile_bytes f
               end in
      (Ok tt, mkCrashable v d (fault_plan f))
  end.

(** Process loss: unsynced volatile state is discarded. *)
Definition crash (f : CrashableFile) : CrashableFile := set_volatile (durable_bytes f) f.

Definition crash_with_persisted_prefix (length : Z) (f : CrashableFile) : CrashableFile :=
  let persisted_length := Z.min length (len (volatile_bytes f)) in
  let d := take (Z.to_nat persisted_length) (volatile_bytes f) in
  mkCrashable d d (fault_plan f).

Definition fault (operation : FileOperation) : ST CrashableFile Error (option FaultAction) := fun f =>
  let '(a, p) := next_fault (fault_plan f) operation in (Ok a, set_fault_plan f p).

(** [action.map(Self::io_error).transpose()?.flatten()]. *)
Definition io_error (action : option FaultAction) : Result Error (option FaultAction) :=
  match action with
  | Some (IoFault kind message) => Err (Io kind message)
  | Some (SyncPersistAllThenIo _ _) | Some (SyncPersistPrefixThenIo _ _ _) =>
      Err (InvalidInput "sync persistence fault used for a non-sync operation")
  | other => Ok other
  end.

Definition checked_range (offset length : Z) : Result Error (Z * Z) :=
  let? start := ok_or (usize_try_from offset) (InvalidInput "file offset does not fit platform usize") in
  let? stop := ok_or (checked_add start length) (InvalidInput "file range overflows platform usize") in
  Ok (start, stop).

Definition CrashableFile_read_at (offset n : Z) : ST CrashableFile Error (list byte) :=
  let* action := fault ReadAt in
  let* action := lift (io_error action) in
  let* start := lift (ok_or (usize_try_from offset) (InvalidInput "file offset does not fit platform usize")) in
  let* volatile := gets volatile_bytes in
  if (len volatile <=? start) || (n =? 0) then ret []
  else
    let available := Z.min (len volatile - start) n in
    let count := match action with
                 | Some (ShortRead max_bytes) => Z.min available (Z.of_N max_bytes)
                 | _ => available
                 end in
    lift (slice volatile start (start + count)).

Definition CrashableFile_write_at (offset : Z) (bytes : list byte) : ST CrashableFile Error Z :=
  let* action := fault WriteAt in
  let* action := lift (io_error action) in
  let count := match action with
               | Some (ShortWrite max_bytes) => Z.min (len bytes) (Z.of_N max_bytes)
               | _ => len bytes
               end in
  let* '(start, stop) := lift (checked_range offset count) in
  do* modify (λ f, if len (volatile_bytes f) <? stop
                   then set_volatile (resize_bytes stop (volatile_bytes f)) f else f) in
  let* volatile := gets volatile_bytes in
  let* taken := lift (slice bytes 0 count) in
  let* written := lift (copy_from_slice volatile start stop taken) in
  do* modify (set_volatile written) in
  ret count.

Definition CrashableFile_len (f : CrashableFile) : Result Error Z :=
  ok_or (u64_try_from (len (volatile_bytes f)))
    (InternalInvariantViolation "volatile file length does not fit u64").

Definition CrashableFile_set_len (length : Z) : ST CrashableFile Error unit :=
  let* action := fault SetLen in
  match action with
  | Some (IoFault kind message) => throw (Io kind message)
  | Some (SyncPersistAllThenIo _ _) | Some (SyncPersistPrefixThenIo _ _ _) =>
      throw (InvalidInput "sync persistence fault used for set_len")
  | _ =>
      let* length := lift (ok_or (usize_try_from length) (InvalidInput "file length does not fit platform usize")) in
      modify (λ f, set_volatile (resize_bytes length (volatile_bytes f)) f)
  end.

(** [sync_data] and [sync_all] have the same body up to the operation. *)
Definition sync_with (operation : FileOperation) : ST CrashableFile Error unit :=
  let* action := fault operation in
  let* f := get in
  match action with
  | Some (IoFault kind message) => throw (Io kind message)
  | Some (SyncPersistAllThenIo kind message) =>
      do* modify (set_durable (volatile_bytes f)) in throw (Io kind message)
  | Some (SyncPersistPrefixThenIo length kind message) =>
      if len (volatile_bytes f) <? Z.of_N length
      then throw (InvalidInput "sync persistence prefix {length} exceeds volatile file length {}")
      else do* modify (set_durable (take (N.to_nat length) (volatile_bytes f))) in throw (Io kind message)
  | _ => modify (set_durable (volatile_bytes f))
  end.

Definition CrashableFile_sync_data : ST CrashableFile Error unit := sync_with SyncData.
Definition CrashableFile_sync_all : ST CrashableFile Error unit := sync_with SyncAll.

Global Instance CrashableFile_DurableFile : DurableFile CrashableFile := {|
  read_at := CrashableFile_read_at;
  write_at := CrashableFile_write_at;
  file_len := CrashableFile_len;
  set_len := CrashableFile_set_len;
  sync_data := CrashableFile_sync_data;
  sync_all := CrashableFile_sync_all
|}.

(** ** The crash-point injector (crash.rs) *)

Record CrashTarget := mkCrashTarget { target_point : string; nth_hit : Z }.

Record CrashInjector := mkCrashInjector {
  target : option CrashTarget;
  hits : gmap string Z;
  fired : bool
}.

Record CrashInjected := mkCrashInjected { crash_point : string; crash_hit : Z }.

Definition CrashInjector_disabled : CrashInjector := mkCrashInjector None ∅ false.

Definition CrashInjector_at (point : string) (nth : Z) : CrashInjector :=
  mkCrashInjector (Some (mkCrashTarget point (Z.max nth 1))) ∅ false.

Definition CrashInjector_hit (point : string) : ST CrashInjector CrashInjected unit :=
  let* inj := get in
  let* count := lift (plain_add (default 0 (hits inj !! point)) 1) in
  let inj := mkCrashInjector (target inj) (<[point := count]> (hits inj)) (fired inj) in
  do* modify (λ _, inj) in
  if negb (fired inj) &&
     match target inj with
     | Some t => bool_decide (target_point t = point) && (nth_hit t =? count)
     | None => false
     end
  then
    do* modify (λ inj, mkCrashInjector (target inj) (hits inj) true) in
    throw (mkCrashInjected point count)
  else ret tt.

Definition CrashInjector_hit_count (inj : CrashInjector) (point : string) : Z :=
  default 0 (hits inj !! point).

Global Instance CrashInjector_FaultInjector : FaultInjector CrashInjector := {|
  injector_hit := λ point,
    mapping_err (λ _, RecoveryFailure "simulated crash at {} hit {}") (CrashInjector_hit point)
|}.

(** ** The file contract *)

Definition no_faults (f : CrashableFile) : Prop :=
  faults (fault_plan f) = ∅ ∧ next_matching (fault_plan f) = ∅ ∧ len (volatile_bytes f) ≤ U64_MAX.

(** A fault only ever changes the plan. *)
Lemma fault_spec op f :
  ∃ a p, fault op f = (Ok a, set_fault_plan f p) ∧
    (no_faults f → a = None ∧ no_faults (set_fault_plan f p)).
Proof.
  unfold fault. destruct (next_fault (fault_plan f) op) as [a p] eqn:E. exists a, p. split; [done|].
  intros (H1 & H2 & H3). unfold next_fault in E. rewrite H1, lookup_empty, H2, lookup_empty in E.
  injection E as <- <-. done.
Qed.

Lemma io_error_cases a :
  (∃ e, io_error a = Err e ∧ a ≠ None) ∨ io_error a = Ok a.
Proof. destruct a as [[]|]; simpl; eauto; left; eauto. Qed.

Lemma crashable_read f offset n :
  is_u64 offset → 0 ≤ n →
  let '(r, f') := CrashableFile_read_at offset n f in
  volatile_bytes f' = volatile_bytes f ∧ durable_bytes f' = durable_bytes f ∧
  match r with
  | Ok bs => len bs ≤ n ∧ bs = sub (volatile_bytes f) offset (offset + len bs)
  | Err _ => True
  | _ => False
  end ∧
  (no_faults f → 0 < n → offset < len (volatile_bytes f) →
     no_faults f' ∧ ∃ bs, r = Ok bs ∧ bs ≠ []).
Proof.
  intros Ho Hn. unfold CrashableFile_read_at, bind.
  destruct (fault_spec ReadAt f) as (a & p & -> & Hnf). cbv beta iota.
  destruct (io_error_cases a) as [(e & He & Ha)|He]; unfold lift; rewrite He.
  { split_and!; try done. naive_solver. }
  unfold usize_try_from. rewrite (proj2 (Z.leb_le _ _)) by lia. simpl.
  destruct (len (volatile_bytes f) <=? offset) eqn:E1; simpl; bool_props.
  { split_and!; try done; [by rewrite len_nil, Z.add_0_r, sub_empty|lia]. }
  destruct (n =? 0) eqn:E2; simpl; bool_props.
  { split_and!; try done; [by rewrite len_nil, Z.add_0_r, sub_empty|lia]. }
  assert (H0 : no_faults f → a = None) by naive_solver.
  set (count := match a with Some (ShortRead m) => _ | _ => _ end).
  assert (0 ≤ count ≤ Z.min (len (volatile_bytes f) - offset) n).
  { subst count. destruct a as [[]|]; lia. }
  rewrite slice_Ok by lia.
  assert (Hl : len (sub (volatile_bytes f) offset (offset + count)) = count)
    by (rewrite len_sub; lia).
  split_and!; try done; rewrite ?Hl; try done; try lia.
  intros Hno Hpos Hlt. split; [apply (Hnf Hno)|]. eexists. split; [done|]. intros E.
  rewrite E, len_nil in Hl. subst count. rewrite (H0 Hno) in Hl. lia.
Qed.

Lemma crashable_write f offset bs :
  is_u64 offset →
  let '(r, f') := CrashableFile_write_at offset bs f in
  durable_bytes f' = durable_bytes f ∧
  match r with
  | Ok c => 0 ≤ c ≤ len bs ∧ volatile_bytes f' = write_bytes (volatile_bytes f) offset (take (Z.to_nat c) bs)
  | Err _ => volatile_bytes f' = volatile_bytes f
  | _ => False
  end ∧
  (no_faults f → offset + len bs ≤ U64_MAX → bs ≠ [] →
     no_faults f' ∧ ∃ c, r = Ok c ∧ c ≠ 0).
Proof.
  intros Ho. pose proof (len_nonneg bs). unfold CrashableFile_write_at, bind.
  destruct (fault_spec WriteAt f) as (a & p & -> & Hnf). cbv beta iota.
  destruct (io_error_cases a) as [(e & He & Ha)|He]; unfold lift; rewrite He.
  { split_and!; try done. naive_solver. }
  assert (H0 : no_faults f → a = None) by naive_solver.
  set (count := match a with Some (ShortWrite m) => _ | _ => _ end).
  assert (Hc : 0 ≤ count ≤ len bs) by (subst count; destruct a as [[]|]; lia).
  unfold checked_range, usize_try_from. rewrite (proj2 (Z.leb_le _ _)) by lia. simpl.
  unfold checked_add. destruct (offset + count <=? U64_MAX) eqn:E1; simpl; bool_props.
  2: { split_and!; try done. intros Hno Hle _. subst count. rewrite (H0 Hno) in E1. lia. }
  rewrite slice_Ok by lia. unfold sub. simpl. rewrite Z.sub_0_r. change (Z.to_nat 0) with 0%nat. rewrite drop_0.
  set (f1 := if len (volatile_bytes f) <? offset + count then _ else _).
  assert (Hv1 : volatile_bytes f1 = if len (volatile_bytes f) <? offset + count
     then resize_bytes (offset + count) (volatile_bytes f) else volatile_bytes f).
  { subst f1. by destruct (_ <? _). }
  assert (Hd1 : durable_bytes f1 = durable_bytes f) by (subst f1; by destruct (_ <? _)).
  assert (Hl1 : len (volatile_bytes f1) = Z.max (len (volatile_bytes f)) (offset + count)).
  { rewrite Hv1. destruct (_ <? _) eqn:E; bool_props; rewrite ?len_resize by lia; lia. }
  rewrite copy_Ok by (rewrite ?len_take; lia). simpl.
  split_and!; try done; try lia.
  - rewrite Hv1. unfold write_bytes. by rewrite len_take by lia.
  - intros Hno Hle Hne. destruct (Hnf Hno) as [-> (P1 & P2 & P3)].
    split; [|exists count; split; [done|]; subst count; intros E; by apply len_0_nil in E].
    assert (Hp1 : fault_plan f1 = p) by (subst f1; by destruct (_ <? _)).
    unfold no_faults; simpl. rewrite Hp1, splice_len by lia. rewrite Hl1. split_and!; try done.
    simpl in *. lia.
Qed.

Lemma crashable_sync op f :
  let '(r, f') := sync_with op f in
  volatile_bytes f' = volatile_bytes f ∧
  match r with Ok _ => durable_bytes f' = volatile_bytes f | Err _ => True | _ => False end ∧
  (no_faults f → no_faults f' ∧ r = Ok tt).
Proof.
  unfold sync_with, bind. destruct (fault_spec op f) as (a & p & -> & Hnf). simpl.
  assert (Hno : no_faults f → a = None) by naive_solver.
  destruct a as [[]|]; simpl; try (split_and!; try done; intros Hf; by apply Hno in Hf).
  - destruct (_ <? _); simpl; split_and!; try done; intros Hf; by apply Hno in Hf.
  - split_and!; try done. intros Hf. by destruct (Hnf Hf).
Qed.

Lemma crashable_set_len f n :
  is_u64 n →
  let '(r, f') := CrashableFile_set_len n f in
  durable_bytes f' = durable_bytes f ∧
  match r with
  | Ok _ => volatile_bytes f' = resize_bytes n (volatile_bytes f)
  | Err _ => volatile_bytes f' = volatile_bytes f
  | _ => False
  end ∧ (no_faults f → no_faults f' ∧ r = Ok tt).
Proof.
  intros Hn. unfold CrashableFile_set_len, bind. destruct (fault_spec SetLen f) as (a & p & -> & Hnf).
  unfold usize_try_from. rewrite (proj2 (Z.leb_le _ _)) by lia.
  assert (Hok : no_faults f → no_faults (set_volatile (resize_bytes n (volatile_bytes f)) (set_fault_plan f p))).
  { intros Hno. destruct (Hnf Hno) as [_ (P1 & P2 & P3)]. unfold no_faults; simpl.
    rewrite len_resize by lia. split_and!; try done. lia. }
  destruct a as [[]|]; simpl; split_and!; try done; naive_solver.
Qed.

Global Program Instance CrashableFile_laws : DurableFileLaws CrashableFile := {|
  contents := volatile_bytes;
  durable := durable_bytes;
  reliable := no_faults
|}.
Next Obligation.
  intros f. simpl. unfold CrashableFile_len, u64_try_from. by destruct (_ <=? _).
Qed.
Next Obligation.
  intros f offset n Ho Hn. pose proof (crashable_read f offset n Ho Hn) as R. simpl.
  destruct (CrashableFile_read_at offset n f). naive_solver.
Qed.
Next Obligation.
  intros f offset bs Ho. pose proof (crashable_write f offset bs Ho) as W. simpl.
  destruct (CrashableFile_write_at offset bs f) as [r f'], W as (Wd & W & _). split; [done|].
  destruct r; try done. exists 0. split; [|auto]. pose proof (len_nonneg bs). lia.
Qed.
Next Obligation.
  intros f n Hn. pose proof (crashable_set_len f n Hn) as W. simpl.
  destruct (CrashableFile_set_len n f) as [[] ?]; naive_solver.
Qed.
Next Obligation.
  intros f. pose proof (crashable_sync SyncData f) as W. simpl. unfold CrashableFile_sync_data.
  destruct (sync_with SyncData f) as [[] ?]; naive_solver.
Qed.
Next Obligation.
  intros f. pose proof (crashable_sync SyncAll f) as W. simpl. unfold CrashableFile_sync_all.
  destruct (sync_with SyncAll f) as [[] ?]; naive_solver.
Qed.
Next Obligation.
  intros f (H1 & H2 & H3). simpl. unfold CrashableFile_len, u64_try_from.
  by rewrite (proj2 (Z.leb_le _ _)) by lia.
Qed.
Next Obligation.
  intros f offset n Hr Ho Hn Hlt. pose proof (crashable_read f offset n Ho ltac:(lia)) as R. simpl in *.
  destruct (CrashableFile_read_at offset n f). by apply R.
Qed.
Next Obligation.
  intros f offset bs Hr Ho Hle Hne. pose proof (len_nonneg bs).
  pose proof (crashable_write f offset bs ltac:(lia)) as W. simpl.
  destruct (CrashableFile_write_at offset bs f). by apply W.
Qed.
Next Obligation.
  intros f n Hr Hn. pose proof (crashable_set_len f n Hn) as W. simpl.
  destruct (CrashableFile_set_len n f). by apply W.
Qed.
Next Obligation.
  intros f Hr. pose proof (crashable_sync SyncData f) as W. simpl. unfold CrashableFile_sync_data.
  destruct (sync_with SyncData f). by apply W.
Qed.
Next Obligation.
  intros f Hr. pose proof (crashable_sync SyncAll f) as W. simpl. unfold CrashableFile_sync_all.
  destruct (sync_with SyncAll f). by apply W.
Qed.

(** ** What a crash leaves *)

(** Offsets and lengths that fit [u64]. *)
Definition u64 : Type := dsig is_u64.

Inductive FileCall : Type :=
  | CallRead (offset : u64) (n : Z)
  | CallWrite (offset : u64) (bytes : list byte)
  | CallSetLen (length : u64).

(** The calls between two syncs, whatever each of them returns. *)
Definition run_call (f : CrashableFile) (c : FileCall) : CrashableFile :=
  match c with
  | CallRead offset n => (read_at (`offset) (Z.max n 0) f).2
  | CallWrite offset bytes => (write_at (`offset) bytes f).2
  | CallSetLen length => (set_len (`length) f).2
  end.

Lemma run_call_durable f c : durable_bytes (run_call f c) = durable_bytes f.
Proof.
  destruct c as [[o Ho] n|[o Ho] bs|[n Hn]]; simpl; apply bool_decide_unpack in Ho || apply bool_decide_unpack in Hn.
  - pose proof (crashable_read f o (Z.max n 0) Ho ltac:(lia)) as R.
    destruct (CrashableFile_read_at _ _ f). tauto.
  - pose proof (crashable_write f o bs Ho) as R. destruct (CrashableFile_write_at _ _ f). tauto.
  - pose proof (crashable_set_len f n Hn) as R. destruct (CrashableFile_set_len _ f). tauto.
Qed.



(** The outcomes of visiting the crash points in order, errors included. *)
Fixpoint visit (points : list string) (inj : CrashInjector) : list bool :=
  match points with
  | [] => []
  | p :: points => let '(r, inj') := injector_hit p inj in is_ok r :: visit points inj'
  end.

Definition count_point (p : string) (points : list string) : Z := len (filter (eq p) points).

Lemma count_point_app p l1 l2 : count_point p (l1 ++ l2) = count_point p l1 + count_point p l2.
Proof. unfold count_point. by rewrite filter_app, len_app. Qed.

Lemma count_point_single p q : count_point p [q] = if decide (p = q) then 1 else 0.
Proof. unfold count_point. rewrite filter_cons, filter_nil. by case_decide. Qed.

Lemma visit_spec point nth seen points inj :
  1 ≤ nth → len (seen ++ points) ≤ U64_MAX →
  target inj = Some (mkCrashTarget point nth) →
  (∀ p, default 0 (hits inj !! p) = count_point p seen) →
  fired inj = bool_decide (nth ≤ count_point point seen) →
  ∀ k p, points !! k = Some p →
    visit points inj !! k =
      Some (negb (bool_decide (p = point ∧ count_point point (seen ++ take k points) + 1 = nth))).
Proof.
  intros Hn. revert seen inj. induction points as [|q points IH]; intros seen inj Hlen Ht Hh Hf k p Hk; [done|].
  assert (Hcount : ∀ p l, 0 ≤ count_point p l ≤ len l).
  { intros p' l. unfold count_point, len. pose proof (length_filter (eq p') l). lia. }
  assert (Hadd : plain_add (E:=CrashInjected) (default 0 (hits inj !! q)) 1 = Ok (count_point q seen + 1)).
  { rewrite Hh. unfold plain_add. rewrite (proj2 (Z.leb_le _ _)); [done|]. specialize (Hcount q seen).
    rewrite len_app, len_cons in Hlen. pose proof (len_nonneg points). lia. }
  assert (Hmap : ∀ p', default 0 (<[q := count_point q seen + 1]> (hits inj) !! p') = count_point p' (seen ++ [q])).
  { intros p'. rewrite count_point_app, count_point_single.
    destruct (decide (p' = q)) as [->|D].
    - by rewrite lookup_insert_eq.
    - rewrite lookup_insert_ne by congruence. rewrite Hh. lia. }
  simpl. unfold mapping_err, CrashInjector_hit, bind, lift, get, modify. cbn [fst snd]. rewrite Hadd.
  cbn [fired target hits]. rewrite Ht, Hf. cbn [target_point nth_hit].
  rewrite cons_middle, app_assoc in Hlen.
  destruct (negb _ && _) eqn:E; bool_props.
  - subst q nth. destruct k as [|k]; simpl in *.
    + injection Hk as ->. rewrite app_nil_r. rewrite bool_decide_eq_true_2; [done|]. split; [done|lia].
    + erewrite (IH (seen ++ [point])); [by rewrite <- app_assoc|done|done| | |done].
      * intros p'. simpl. apply Hmap.
      * simpl. symmetry. apply bool_decide_eq_true_2. rewrite count_point_app, count_point_single.
        rewrite decide_True by done. lia.
  - unfold ret; cbn [map_err is_ok]. destruct k as [|k]; simpl in *.
    + injection Hk as ->. rewrite app_nil_r. rewrite bool_decide_eq_false_2; [done|]. intros [-> Hc].
      rewrite (bool_decide_eq_true_2 (point = point)), <- Hc, Z.eqb_refl in E by done.
      rewrite bool_decide_eq_false_2 in E by lia. done.
    + erewrite (IH (seen ++ [q])); [by rewrite <- app_assoc|done|done| | |done].
      * intros p'. simpl. apply Hmap.
      * simpl. apply bool_decide_ext. rewrite count_point_app, count_point_single.
        destruct (decide (point = q)) as [<-|D]; [|lia]. rewrite (bool_decide_eq_true_2 (point = point)) in E by done.
        apply andb_false_iff in E as [E|E]; bool_props; lia.
Qed.

(** C24. The injector of a named crash point fires at the visit it is asked
    for, the [nth] one of its point (the first when [nth] is 0), and at no
    other visit. *)
Theorem crash_injector_fires_once point nth points k p :
  len points ≤ U64_MAX → points !! k = Some p →
  visit points (CrashInjector_at point nth) !! k =
    Some (negb (bool_decide (p = point ∧ count_point point (take k points) + 1 = Z.max nth 1))).
Proof.
  intros Hl Hk. apply (visit_spec point (Z.max nth 1) [] points); try done; [lia|].
  simpl. symmetry. apply bool_decide_eq_false_2. change (count_point point []) with 0. lia.
Qed.

Lemma crash_injector_fires_once_witness :
  visit ["a"; "b"; "a"; "a"]%string (CrashInjector_at "a" 2) !! 2%nat = Some false.
Proof.
  apply (crash_injector_fires_once "a" 2 ["a"; "b"; "a"; "a"]%string 2 "a"); [vm_compute; discriminate|reflexivity].
Defined.
