(* ===== verification/Wal.v ===== *)
(** * Wal: the redo-only write-ahead log

    src/dodb/crates/dodb-storage/src/wal.rs, the definitions; WalCodec.v,
    WalScan.v and WalLog.v hold the theorems.

    The log is a file of frames: an initialisation record, then for every
    commit its page images followed by a commit record.  [WalLog] operations run
    in the state monad over the log and the optional fault injector; the nanoseconds
    measured by [Instant] are arguments. *)

From S2P Require Import Prelude Core Crc Page Superblock DurableFile.

Definition WAL_FORMAT_VERSION : Z := 2.
Definition WAL_MAGIC : list byte := bstr "DWAL".
Definition WAL_HEADER_SIZE : Z := 48.
Definition WAL_TRAILER_SIZE : Z := 4.
Definition WAL_MIN_FRAME_SIZE : Z := WAL_HEADER_SIZE + WAL_TRAILER_SIZE.
Definition WAL_MAX_PAYLOAD_SIZE : Z := 64 * 1024 * 1024.
Definition HEADER_CHECKSUM_OFFSET : Z := 40.
Definition PAYLOAD_CHECKSUM_OFFSET : Z := 44.
Definition LEGACY_WAL_FORMAT_VERSION : Z := 1.
Definition LEGACY_INIT_PAYLOAD_SIZE : Z := 44.
Definition INIT_PAYLOAD_SIZE : Z := 52.
Definition INIT_FRAME_SIZE : Z := WAL_HEADER_SIZE + INIT_PAYLOAD_SIZE + WAL_TRAILER_SIZE.
Definition PAGE_IMAGE_PAYLOAD_SIZE : Z := 8 + PAGE_SIZE.
Definition COMMIT_PAYLOAD_SIZE : Z := 16.
Definition SUPERBLOCK_A_PAGE : PageId := 0.
Definition SUPERBLOCK_B_PAGE : PageId := 1.

#[export] Hint Unfold WAL_FORMAT_VERSION WAL_HEADER_SIZE WAL_TRAILER_SIZE WAL_MIN_FRAME_SIZE
  WAL_MAX_PAYLOAD_SIZE HEADER_CHECKSUM_OFFSET PAYLOAD_CHECKSUM_OFFSET LEGACY_WAL_FORMAT_VERSION
  LEGACY_INIT_PAYLOAD_SIZE INIT_PAYLOAD_SIZE INIT_FRAME_SIZE PAGE_IMAGE_PAYLOAD_SIZE
  COMMIT_PAYLOAD_SIZE SUPERBLOCK_A_PAGE SUPERBLOCK_B_PAGE : consts.

Inductive WalRecordType : Type := RInit | RPageImage | RCommit.

Global Instance WalRecordType_eq_dec : EqDecision WalRecordType.
Proof. solve_decision. Defined.

(** [record_type as u8]. *)
Definition WalRecordType_as_u8 (t : WalRecordType) : byte :=
  match t with RInit => Byte.x01 | RPageImage => Byte.x02 | RCommit => Byte.x03 end.

Definition WalRecordType_decode (value : byte) : Result Error WalRecordType :=
  match value with
  | Byte.x01 => Ok RInit
  | Byte.x02 => Ok RPageImage
  | Byte.x03 => Ok RCommit
  | _ => Err (UnsupportedFormat "unknown WAL record type {other}")
  end.

Record WalIdentity := mkIdentity {
  id_uuid : list byte;
  id_tenant : TenantId;
  id_shard : ShardId;
  id_epoch : ShardEpoch
}.

Global Instance WalIdentity_eq_dec : EqDecision WalIdentity.
Proof. solve_decision. Defined.

Record WalPageImage := mkImage { img_page_id : PageId; img_bytes : list byte }.

Record WalCommit := mkCommit {
  c_batch_id : Z;
  c_commit_lsn : Lsn;
  c_pages : list WalPageImage
}.

Record CommittedWalBatch := mkBatch {
  b_batch_id : Z;
  b_commit_lsn : Lsn;
  b_pages : list WalPageImage
}.

Record WalScanReport := mkScanReport {
  records_scanned : Z;
  committed_batches : Z;
  replayable_pages : Z;
  torn_tail_bytes : Z
}.

Definition WalScanReport_default : WalScanReport := mkScanReport 0 0 0 0.

Record WalAppendReport := mkAppendReport {
  rep_first_record_lsn : Lsn;
  rep_commit_lsn : Lsn;
  rep_page_count : Z;
  rep_bytes_written : Z
}.

Record WalMetrics := mkWalMetrics {
  wal_bytes : Z;
  wal_syncs : Z;
  m_committed_batches : Z;
  m_page_images : Z;
  m_append_nanos : Z;
  m_sync_nanos : Z
}.

Record Frame := mkFrame {
  f_format_version : Z;
  f_record_type : WalRecordType;
  f_record_lsn : Lsn;
  f_batch_id : Z;
  f_record_index : Z;
  f_payload : list byte
}.

Record PendingBatch := mkPending {
  p_batch_id : Z;
  p_first_record_lsn : Lsn;
  p_pages : list WalPageImage;
  p_digest_input : list byte
}.

(** ** Frame codec *)

Section codec.
Context `{Crc32c}.

Definition header_checksum (header : list byte) : Z :=
  crc32c (splice header HEADER_CHECKSUM_OFFSET (zeros 4)).

Definition encode_frame (format_version : Z) (record_type : WalRecordType) (record_lsn : Lsn)
    (batch_id record_index : Z) (payload : list byte) : Result Error (list byte) :=
  guard? len payload <=? WAL_MAX_PAYLOAD_SIZE else InvalidInput "WAL payload exceeds maximum size" in
  let? frame_length :=
    ok_or (length ← checked_add WAL_HEADER_SIZE (len payload); checked_add length WAL_TRAILER_SIZE)
      (InvalidInput "WAL frame length overflows") in
  let header := zeros WAL_HEADER_SIZE in
  let? header := copy_from_slice header 0 4 WAL_MAGIC in
  let? header := copy_from_slice header 4 6 (u16_to_le_bytes format_version) in
  let? header := set_index header 6 (WalRecordType_as_u8 record_type) in
  let? frame_length_u32 :=
    ok_or (u32_try_from frame_length) (InvalidInput "WAL frame length does not fit u32") in
  let? header := copy_from_slice header 8 12 (u32_to_le_bytes frame_length_u32) in
  let? payload_length_u32 :=
    ok_or (u32_try_from (len payload)) (InvalidInput "WAL payload length does not fit u32") in
  let? header := copy_from_slice header 12 16 (u32_to_le_bytes payload_length_u32) in
  let? header := copy_from_slice header 16 24 (u64_to_le_bytes record_lsn) in
  let? header := copy_from_slice header 24 32 (u64_to_le_bytes batch_id) in
  let? header := copy_from_slice header 32 36 (u32_to_le_bytes record_index) in
  let payload_checksum := crc32c payload in
  let? header := copy_from_slice header PAYLOAD_CHECKSUM_OFFSET (PAYLOAD_CHECKSUM_OFFSET + 4)
                   (u32_to_le_bytes payload_checksum) in
  let checksum := header_checksum header in
  let? header := copy_from_slice header HEADER_CHECKSUM_OFFSET (HEADER_CHECKSUM_OFFSET + 4)
                   (u32_to_le_bytes checksum) in
  Ok (header ++ payload ++ u32_to_le_bytes frame_length_u32).

(** The decoded header fields. *)
Record WalHeader := mkWalHeader {
  h_version : Z;
  h_record_type : WalRecordType;
  h_frame_length : Z;
  h_payload_length : Z;
  h_record_lsn : Z;
  h_batch_id : Z;
  h_record_index : Z
}.

Definition decode_header (bytes : list byte) : Result Error WalHeader :=
  guard? len bytes =? WAL_HEADER_SIZE else Corruption "WAL header has an invalid length" in
  let? magic := slice bytes 0 4 in
  guard? bytes_eqb magic WAL_MAGIC else Corruption "WAL magic mismatch" in
  let? version_bytes := slice bytes 4 6 in
  let version := from_le_bytes version_bytes in
  guard? negb (negb (version =? WAL_FORMAT_VERSION) && negb (version =? LEGACY_WAL_FORMAT_VERSION)) else
    UnsupportedFormat "WAL version {version}, supported {WAL_FORMAT_VERSION}" in
  let? reserved := index bytes 7 in
  let? reserved4 := slice bytes 36 40 in
  guard? negb (negb (bool_decide (reserved = Byte.x00)) || any_nonzero reserved4) else
    Corruption "WAL reserved header bytes are non-zero" in
  let? checksum_bytes := slice bytes HEADER_CHECKSUM_OFFSET 44 in
  let expected_checksum := from_le_bytes checksum_bytes in
  guard? expected_checksum =? header_checksum bytes else Corruption "WAL header checksum mismatch" in
  let? type_byte := index bytes 6 in
  let? record_type := WalRecordType_decode type_byte in
  let? frame_length := slice bytes 8 12 in
  let? payload_length := slice bytes 12 16 in
  let? record_lsn := slice bytes 16 24 in
  let? batch_id := slice bytes 24 32 in
  let? record_index := slice bytes 32 36 in
  Ok {| h_version := version; h_record_type := record_type;
        h_frame_length := from_le_bytes frame_length; h_payload_length := from_le_bytes payload_length;
        h_record_lsn := from_le_bytes record_lsn; h_batch_id := from_le_bytes batch_id;
        h_record_index := from_le_bytes record_index |}.

Definition verify_payload_checksum (header payload : list byte) : Result Error unit :=
  let? expected_bytes := slice header PAYLOAD_CHECKSUM_OFFSET 48 in
  guard? from_le_bytes expected_bytes =? crc32c payload else
    Corruption "WAL payload checksum mismatch at offset {offset}: expected {expected:#010x}, calculated {actual:#010x}" in
  Ok tt.

Definition is_superblock_page (page_id : PageId) : bool :=
  (page_id =? SUPERBLOCK_A_PAGE) || (page_id =? SUPERBLOCK_B_PAGE).

Definition validate_page_image (page : WalPageImage) : Result Error unit :=
  if is_superblock_page (img_page_id page)
  then let? _x := decode_superblock (img_bytes page) in Ok tt
  else let? _x := decode_page_at (img_bytes page) (Some (img_page_id page)) in Ok tt.

Definition encode_page_image (page : WalPageImage) : Result Error (list byte) :=
  let payload := u64_to_le_bytes (img_page_id page) ++ img_bytes page in
  let? _x := validate_page_image page in
  Ok payload.

Definition decode_page_image (payload : list byte) : Result Error WalPageImage :=
  guard? len payload =? PAGE_IMAGE_PAYLOAD_SIZE else
    Corruption "WAL page-image payload has {} bytes, expected {PAGE_IMAGE_PAYLOAD_SIZE}" in
  let? id_bytes := slice payload 0 8 in
  let? image := slice payload 8 (len payload) in
  Ok (mkImage (from_le_bytes id_bytes) image).

Definition validate_page_image_lsn (page : WalPageImage) (commit_lsn : Lsn) : Result Error unit :=
  if is_superblock_page (img_page_id page) then Ok tt
  else
    let? lsn_bytes := slice (img_bytes page) 16 24 in
    guard? from_le_bytes lsn_bytes =? commit_lsn else
      Corruption "WAL page {} has page LSN {}, commit LSN {}" in
    Ok tt.

Definition decode_commit_payload (payload : list byte) : Result Error (Lsn * Z * Z) :=
  guard? len payload =? COMMIT_PAYLOAD_SIZE else
    Corruption "WAL commit payload has {} bytes, expected {COMMIT_PAYLOAD_SIZE}" in
  let? count_bytes := slice payload 8 12 in
  let? lsn_bytes := slice payload 0 8 in
  let? page_count :=
    ok_or (usize_try_from (from_le_bytes count_bytes)) (Corruption "WAL page count overflows") in
  let? digest := slice payload 12 16 in
  Ok (from_le_bytes lsn_bytes, page_count, from_le_bytes digest).

Definition identity_payload (identity : WalIdentity) (start_after_lsn : Lsn) : Result Error (list byte) :=
  let payload := zeros INIT_PAYLOAD_SIZE in
  let? payload := copy_from_slice payload 0 16 (id_uuid identity) in
  let? payload := copy_from_slice payload 16 24 (u64_to_le_bytes (id_tenant identity)) in
  let? payload := copy_from_slice payload 24 32 (u64_to_le_bytes (id_shard identity)) in
  let? payload := copy_from_slice payload 32 40 (u64_to_le_bytes (id_epoch identity)) in
  let? payload := copy_from_slice payload 40 44 (u32_to_le_bytes PAGE_SIZE) in
  copy_from_slice payload 44 52 (u64_to_le_bytes start_after_lsn).

Definition verify_identity (version : Z) (payload : list byte) (expected : WalIdentity)
    : Result Error Lsn :=
  let expected_length :=
    if version =? LEGACY_WAL_FORMAT_VERSION then LEGACY_INIT_PAYLOAD_SIZE else INIT_PAYLOAD_SIZE in
  guard? len payload =? expected_length else
    Corruption "WAL initialization payload has invalid length" in
  let? uuid := slice payload 0 16 in
  let? tenant := slice payload 16 24 in
  let? shard := slice payload 24 32 in
  let? epoch := slice payload 32 40 in
  let actual := mkIdentity uuid (from_le_bytes tenant) (from_le_bytes shard) (from_le_bytes epoch) in
  let? page_size := slice payload 40 44 in
  guard? from_le_bytes page_size =? PAGE_SIZE else UnsupportedFormat "WAL page size is unsupported" in
  guard? bool_decide (actual = expected) else
    Corruption "WAL identity does not match the requested database shard" in
  if version =? LEGACY_WAL_FORMAT_VERSION then Ok 0
  else let? start := slice payload 44 52 in Ok (from_le_bytes start).

(** [elapsed_nanos], on the nanoseconds [Instant::elapsed] measured. *)
Definition elapsed_nanos (nanos : Z) : Result Error Z :=
  ok_or (u64_try_from nanos) (InternalInvariantViolation "WAL timing does not fit u64").

End codec.

(** ** Scanning *)

Section scan.
Context `{Crc32c} {F : Type} `{DurableFile F}.

(** The frame at [offset], or [None] when the loop breaks there. *)
Definition scan_frame (offset length : Z) (previous_lsn : option Z) (frames : list Frame)
    : ST F Error (option (Frame * Z)) :=
  let remaining := length - offset in
  if remaining <? WAL_HEADER_SIZE then ret None
  else
    let* header_bytes := wal_read_exact_at offset WAL_HEADER_SIZE in
    let* h := lift (decode_header header_bytes) in
    guard* match frames with
           | first :: _ => f_format_version first =? h_version h
           | [] => true
           end else Corruption "WAL frames use inconsistent format versions" in
    guard* negb ((h_frame_length h <? WAL_MIN_FRAME_SIZE)
                 || negb (h_frame_length h =? WAL_HEADER_SIZE + h_payload_length h + WAL_TRAILER_SIZE)
                 || (WAL_MAX_PAYLOAD_SIZE <? h_payload_length h)) else
      Corruption "invalid WAL frame length {frame_length} at offset {offset}" in
    if remaining <? h_frame_length h then ret None
    else
      let* payload_offset := lift (ok_or (checked_add offset WAL_HEADER_SIZE)
                                     (Corruption "WAL payload offset overflows")) in
      let* payload := wal_read_exact_at payload_offset (h_payload_length h) in
      let* trailer_offset := lift (ok_or (checked_add offset (WAL_HEADER_SIZE + h_payload_length h))
                                     (Corruption "WAL trailer offset overflows")) in
      let* trailer := wal_read_exact_at trailer_offset WAL_TRAILER_SIZE in
      guard* from_le_bytes trailer =? as_u32 (h_frame_length h) else
        Corruption "WAL trailing length mismatch at offset {offset}" in
      guard* match previous_lsn with Some previous => negb (h_record_lsn h <=? previous) | None => true end else
        Corruption "WAL LSN {} is not strictly greater than the previous LSN" in
      do* lift (verify_payload_checksum header_bytes payload) in
      ret (Some (mkFrame (h_version h) (h_record_type h) (h_record_lsn h) (h_batch_id h)
                   (h_record_index h) payload, h_frame_length h)).

(** The [while offset < length] loop: the complete frames, the LSN of the last
    one and the offset behind it. *)
Fixpoint scan_frames (fuel : nat) (offset length : Z) (previous_lsn : option Z) (frames : list Frame)
    : ST F Error (Z * option Z * list Frame) :=
  if offset <? length then
    match fuel with
    | O => lift NoFuel
    | S fuel =>
        let* next := scan_frame offset length previous_lsn frames in
        match next with
        | None => ret (offset, previous_lsn, frames)
        | Some (frame, frame_length) =>
            scan_frames fuel (offset + frame_length) length (Some (f_record_lsn frame))
              (frames ++ [frame])
        end
    end
  else ret (offset, previous_lsn, frames).

(** The state of the commit reconstruction over the frames. *)
Record Replay := mkReplay {
  r_committed : list CommittedWalBatch;
  r_pending : option PendingBatch;
  r_highest_batch_id_seen : Z;
  r_max_batch_id : Z
}.

Definition Replay_start : Replay := mkReplay [] None 0 0.

Definition replay_page_image (frame : Frame) (r : Replay) : Result Error Replay :=
  let? page := decode_page_image (f_payload frame) in
  let? _x := validate_page_image page in
  let pending := match r_pending r with
                 | Some pending => if p_batch_id pending =? f_batch_id frame then Some pending else None
                 | None => None
                 end in
  let? '(current, highest) :=
    match pending with
    | None =>
        guard? negb (f_batch_id frame <=? r_highest_batch_id_seen r) else
          Corruption "WAL batch IDs are not strictly increasing" in
        Ok (mkPending (f_batch_id frame) (f_record_lsn frame) [] [], f_batch_id frame)
    | Some pending => Ok (pending, r_highest_batch_id_seen r)
    end in
  guard? f_record_index frame =? as_u32 (len (p_pages current)) else
    Corruption "WAL page-image record index is not contiguous" in
  Ok (mkReplay (r_committed r)
        (Some (mkPending (p_batch_id current) (p_first_record_lsn current) (p_pages current ++ [page])
                 (p_digest_input current ++ f_payload frame)))
        highest (r_max_batch_id r)).

Definition replay_commit (frame : Frame) (r : Replay) : Result Error Replay :=
  let? current := ok_or (r_pending r) (Corruption "WAL commit has no matching page-image records") in
  guard? negb (negb (p_batch_id current =? f_batch_id frame)
               || negb (f_record_index frame =? as_u32 (len (p_pages current)))) else
    Corruption "WAL commit does not match its page-image sequence" in
  let? '(first_lsn, page_count, digest) := decode_commit_payload (f_payload frame) in
  guard? negb (negb (first_lsn =? p_first_record_lsn current)
               || negb (page_count =? len (p_pages current))
               || negb (crc32c (p_digest_input current) =? digest)) else
    Corruption "WAL commit metadata does not match page images" in
  let? _x := foldR (λ _ page, validate_page_image_lsn page (f_record_lsn frame)) tt (p_pages current) in
  Ok (mkReplay (r_committed r ++ [mkBatch (f_batch_id frame) (f_record_lsn frame) (p_pages current)])
        None (r_highest_batch_id_seen r) (r_max_batch_id r)).

Definition replay_frame (history_start_lsn : Lsn) (r : Replay) (frame : Frame) : Result Error Replay :=
  guard? negb (f_record_lsn frame <=? history_start_lsn) else
    Corruption "WAL record LSN is not after the initialization history boundary" in
  let r := mkReplay (r_committed r) (r_pending r) (r_highest_batch_id_seen r)
             (Z.max (r_max_batch_id r) (f_batch_id frame)) in
  match f_record_type frame with
  | RInit => Err (Corruption "WAL contains a second initialization record")
  | RPageImage => replay_page_image frame r
  | RCommit => replay_commit frame r
  end.

Record WalScanResult := mkScanResult {
  s_next_lsn : Lsn;
  s_next_batch_id : Z;
  s_format_version : Z;
  s_history_start_lsn : Lsn;
  s_committed : list CommittedWalBatch;
  s_report : WalScanReport;
  s_valid_length : Z
}.

Definition total_pages (batches : list CommittedWalBatch) : Z :=
  foldr (λ b n, len (b_pages b) + n) 0 batches.

(** The part of [scan_wal] after the loop. *)
Definition finish_scan (identity : WalIdentity) (valid_length : Z) (previous_lsn : option Z)
    (frames : list Frame) : Result Error WalScanResult :=
  let? first := ok_or (head frames) (Corruption "WAL has no complete initialization record") in
  guard? negb (negb (bool_decide (f_record_type first = RInit)) || negb (f_record_lsn first =? 0)
               || negb (f_batch_id first =? 0) || negb (f_record_index first =? 0)) else
    Corruption "WAL does not begin with the required initialization record" in
  let? history_start_lsn := verify_identity (f_format_version first) (f_payload first) identity in
  let? r := foldR (replay_frame history_start_lsn) Replay_start (tail frames) in
  let report := mkScanReport (len frames) (len (r_committed r)) (total_pages (r_committed r)) 0 in
  let? next_lsn := ok_or (checked_add (default 0 previous_lsn) 1)
                     (InternalInvariantViolation "WAL LSN exhausted") in
  let? next_batch_id := ok_or (checked_add (r_max_batch_id r) 1)
                          (InternalInvariantViolation "WAL batch ID exhausted") in
  Ok (mkScanResult next_lsn (Z.max next_batch_id 1) (f_format_version first) history_start_lsn
        (r_committed r) report valid_length).

(** Every complete frame takes at least [WAL_MIN_FRAME_SIZE] bytes. *)
Definition scan_wal (identity : WalIdentity) : ST F Error WalScanResult :=
  let* length := (λ f, (file_len f, f)) in
  let* '(offset, previous_lsn, frames) :=
    scan_frames (S (Z.to_nat (length / WAL_MIN_FRAME_SIZE))) 0 length None [] in
  lift (finish_scan identity offset previous_lsn frames).

Definition is_torn_initialization_prefix (identity : WalIdentity) (start_after_lsn : Lsn) (length : Z)
    : ST F Error bool :=
  let* length := lift (ok_or (usize_try_from length)
                         (RecoveryFailure "WAL torn INIT length does not fit usize")) in
  let* payload := lift (identity_payload identity start_after_lsn) in
  let* expected := lift (encode_frame WAL_FORMAT_VERSION RInit 0 0 0 payload) in
  if len expected <=? length then ret false
  else
    let* prefix := wal_read_exact_at 0 length in
    let* expected_prefix := lift (slice expected 0 length) in
    ret (bytes_eqb prefix expected_prefix).

End scan.

(** ** The log *)

Record WalLog (F : Type) := mkWal {
  w_file : F;
  w_identity : WalIdentity;
  w_format_version : Z;
  w_next_lsn : Lsn;
  w_next_batch_id : Z;
  w_history_start_lsn : Lsn;
  w_committed : list CommittedWalBatch;
  w_scan_report : WalScanReport;
  w_sync_count : Z;
  w_page_images : Z;
  w_append_nanos : Z;
  w_sync_nanos : Z
}.
Arguments mkWal {F}.
Arguments w_file {F}. Arguments w_identity {F}. Arguments w_format_version {F}.
Arguments w_next_lsn {F}. Arguments w_next_batch_id {F}. Arguments w_history_start_lsn {F}.
Arguments w_committed {F}. Arguments w_scan_report {F}. Arguments w_sync_count {F}.
Arguments w_page_images {F}. Arguments w_append_nanos {F}. Arguments w_sync_nanos {F}.

Section log.
Context `{Crc32c} {F I : Type} `{DurableFile F} `{FaultInjector I}.

(** [&mut self] of a [WalLog] method, with the optional injector. *)
Abbreviation WalM := (ST (WalLog F * option I) Error).

(** [if let Some(injector) = injector { injector.hit(point)? }]. *)
Definition hit {S} (point : string) : ST (S * option I) Error unit := fun '(s, injector) =>
  match injector with
  | None => (Ok tt, (s, None))
  | Some i => let '(r, i') := injector_hit point i in (r, (s, Some i'))
  end.

Definition set_w_file (f : F) (w : WalLog F) : WalLog F :=
  mkWal f (w_identity w) (w_format_version w) (w_next_lsn w) (w_next_batch_id w)
    (w_history_start_lsn w) (w_committed w) (w_scan_report w) (w_sync_count w) (w_page_images w)
    (w_append_nanos w) (w_sync_nanos w).
Definition set_w_next_lsn (l : Lsn) (w : WalLog F) : WalLog F :=
  mkWal (w_file w) (w_identity w) (w_format_version w) l (w_next_batch_id w)
    (w_history_start_lsn w) (w_committed w) (w_scan_report w) (w_sync_count w) (w_page_images w)
    (w_append_nanos w) (w_sync_nanos w).
Definition set_w_sync_count (n : Z) (w : WalLog F) : WalLog F :=
  mkWal (w_file w) (w_identity w) (w_format_version w) (w_next_lsn w) (w_next_batch_id w)
    (w_history_start_lsn w) (w_committed w) (w_scan_report w) n (w_page_images w)
    (w_append_nanos w) (w_sync_nanos w).
Definition set_w_report (r : WalScanReport) (w : WalLog F) : WalLog F :=
  mkWal (w_file w) (w_identity w) (w_format_version w) (w_next_lsn w) (w_next_batch_id w)
    (w_history_start_lsn w) (w_committed w) r (w_sync_count w) (w_page_images w)
    (w_append_nanos w) (w_sync_nanos w).
Definition set_w_page_images (n : Z) (w : WalLog F) : WalLog F :=
  mkWal (w_file w) (w_identity w) (w_format_version w) (w_next_lsn w) (w_next_batch_id w)
    (w_history_start_lsn w) (w_committed w) (w_scan_report w) (w_sync_count w) n
    (w_append_nanos w) (w_sync_nanos w).
Definition set_w_append_nanos (n : Z) (w : WalLog F) : WalLog F :=
  mkWal (w_file w) (w_identity w) (w_format_version w) (w_next_lsn w) (w_next_batch_id w)
    (w_history_start_lsn w) (w_committed w) (w_scan_report w) (w_sync_count w) (w_page_images w)
    n (w_sync_nanos w).
Definition set_w_sync_nanos (n : Z) (w : WalLog F) : WalLog F :=
  mkWal (w_file w) (w_identity w) (w_format_version w) (w_next_lsn w) (w_next_batch_id w)
    (w_history_start_lsn w) (w_committed w) (w_scan_report w) (w_sync_count w) (w_page_images w)
    (w_append_nanos w) n.
(** The assignments that publish an appended group. *)
Definition set_w_committed (batches : list CommittedWalBatch) (next_lsn : Lsn) (next_batch_id : Z)
    (w : WalLog F) : WalLog F :=
  mkWal (w_file w) (w_identity w) (w_format_version w) next_lsn next_batch_id
    (w_history_start_lsn w) batches (w_scan_report w) (w_sync_count w) (w_page_images w)
    (w_append_nanos w) (w_sync_nanos w).

Definition on_file {A} (m : ST F Error A) : WalM A :=
  zoom (λ s, w_file s.1) (λ f s, (set_w_file f s.1, s.2)) m.
Definition modify_wal (u : WalLog F → WalLog F) : WalM unit := modify (λ s, (u s.1, s.2)).
Definition wal_get {A} (g : WalLog F → A) : WalM A := gets (λ s, g s.1).

Definition append_frame (record_type : WalRecordType) (record_lsn : Lsn) (batch_id record_index : Z)
    (payload : list byte) : WalM Z :=
  let* format_version := wal_get w_format_version in
  let* frame := lift (encode_frame format_version record_type record_lsn batch_id record_index payload) in
  let frame_length := len frame in
  let* payload_end := lift (plain_add WAL_HEADER_SIZE (len payload)) in
  let* offset := on_file (λ f, (file_len f, f)) in
  do* hit "during_wal_header_write" in
  let* part := lift (slice frame 0 WAL_HEADER_SIZE) in
  do* on_file (wal_write_all_at offset part) in
  do* hit "during_wal_payload_write" in
  let* payload_offset := lift (ok_or (checked_add offset WAL_HEADER_SIZE) (InvalidInput "WAL offset overflows")) in
  let* part := lift (slice frame WAL_HEADER_SIZE payload_end) in
  do* on_file (wal_write_all_at payload_offset part) in
  do* hit "during_wal_trailer_write" in
  let* trailer_offset := lift (ok_or (checked_add offset payload_end) (InvalidInput "WAL offset overflows")) in
  let* part := lift (slice frame payload_end (len frame)) in
  do* on_file (wal_write_all_at trailer_offset part) in
  ret frame_length.

(** The body of the [for (index, page)] loop; the state is the digest input and
    the bytes written so far. *)
Definition append_page_image (commit : WalCommit) (first_record_lsn : Lsn)
    (acc : list byte * Z) (indexed : nat * WalPageImage) : WalM (list byte * Z) :=
  let '(digest_input, bytes_written) := acc in
  let '(index, page) := indexed in
  do* lift (validate_page_image_lsn page (c_commit_lsn commit)) in
  let* payload := lift (encode_page_image page) in
  let digest_input := digest_input ++ payload in
  let* record_lsn := lift (ok_or (checked_add first_record_lsn (Z.of_nat index))
                             (InternalInvariantViolation "WAL LSN exhausted")) in
  let* record_index := lift (ok_or (u32_try_from (Z.of_nat index))
                               (InvalidInput "WAL record index overflows u32")) in
  let* written := append_frame RPageImage record_lsn (c_batch_id commit) record_index payload in
  let* bytes_written := lift (ok_or (checked_add bytes_written written)
                                (InternalInvariantViolation "WAL byte count overflow")) in
  ret (digest_input, bytes_written).

Definition append_group_commit (commit : WalCommit) (first_record_lsn : Lsn) (expected_batch_id : Z)
    : WalM WalAppendReport :=
  let pages := c_pages commit in
  guard* negb (is_empty pages) else InvalidInput "a WAL commit must contain at least one page image" in
  guard* c_batch_id commit =? expected_batch_id else
    InternalInvariantViolation "WAL batch id {}, expected {}" in
  let* page_count := lift (ok_or (u64_try_from (len pages)) (InvalidInput "WAL page count does not fit u64")) in
  let* expected_commit := lift (ok_or (checked_add first_record_lsn page_count)
                                  (InternalInvariantViolation "WAL LSN exhausted")) in
  guard* c_commit_lsn commit =? expected_commit else
    InternalInvariantViolation "WAL commit LSN {}, expected {}" in
  let* _capacity := lift (ok_or (checked_mul (len pages) PAGE_IMAGE_PAYLOAD_SIZE)
                            (InvalidInput "WAL digest input is too large")) in
  let* '(digest_input, bytes_written) :=
    foldM (append_page_image commit first_record_lsn) ([], 0) (imap pair pages) in
  do* hit "after_page_images_written" in
  let digest := crc32c digest_input in
  let commit_payload := zeros COMMIT_PAYLOAD_SIZE in
  let* commit_payload := lift (copy_from_slice commit_payload 0 8 (u64_to_le_bytes first_record_lsn)) in
  let* count := lift (ok_or (u32_try_from (len pages)) (InvalidInput "WAL page count does not fit u32")) in
  let* commit_payload := lift (copy_from_slice commit_payload 8 12 (u32_to_le_bytes count)) in
  let* commit_payload := lift (copy_from_slice commit_payload 12 16 (u32_to_le_bytes digest)) in
  do* hit "before_commit_record" in
  let* record_index := lift (ok_or (u32_try_from (len pages)) (InvalidInput "WAL record index overflows u32")) in
  let* written := append_frame RCommit (c_commit_lsn commit) (c_batch_id commit) record_index commit_payload in
  let* bytes_written := lift (ok_or (checked_add bytes_written written)
                                (InternalInvariantViolation "WAL byte count overflow")) in
  do* hit "after_commit_record_write" in
  ret (mkAppendReport first_record_lsn (c_commit_lsn commit) (len pages) bytes_written).

(** One round of the [for commit in commits] loop of [append_group]. *)
Record GroupProgress := mkProgress {
  g_next_lsn : Lsn;
  g_next_batch_id : Z;
  g_reports : list WalAppendReport;
  g_committed : list CommittedWalBatch
}.

Definition append_group_step (g : GroupProgress) (commit : WalCommit) : WalM GroupProgress :=
  let* report := append_group_commit commit (g_next_lsn g) (g_next_batch_id g) in
  let* next_lsn := lift (ok_or (checked_add (rep_commit_lsn report) 1)
                           (InternalInvariantViolation "WAL LSN exhausted")) in
  let* next_batch_id := lift (ok_or (checked_add (g_next_batch_id g) 1)
                                (InternalInvariantViolation "WAL batch id exhausted")) in
  ret (mkProgress next_lsn next_batch_id (g_reports g ++ [report])
         (g_committed g ++ [mkBatch (c_batch_id commit) (c_commit_lsn commit) (c_pages commit)])).

(** The bookkeeping of [append_group] after the sync. *)
Definition publish_group (commits : list WalCommit) (g : GroupProgress) : WalM (list WalAppendReport) :=
  let* w := wal_get id in
  do* modify_wal (set_w_committed (w_committed w ++ g_committed g) (g_next_lsn g) (g_next_batch_id g)) in
  let* record_count := lift (foldR (λ count commit,
      let? records := plain_add (len (c_pages commit)) 1 in
      ok_or (checked_add count records) (InternalInvariantViolation "WAL record count overflow"))
    0 commits) in
  let report := w_scan_report w in
  let* scanned := lift (ok_or (checked_add (records_scanned report) record_count)
                          (InternalInvariantViolation "WAL record count overflow")) in
  do* modify_wal (set_w_report (mkScanReport scanned (committed_batches report)
                                  (replayable_pages report) (torn_tail_bytes report))) in
  let* batches := lift (plain_add (committed_batches report) (len commits)) in
  let* pages := lift (foldR (λ n commit, plain_add n (len (c_pages commit))) 0 commits) in
  let* replayable := lift (plain_add (replayable_pages report) pages) in
  do* modify_wal (set_w_report (mkScanReport scanned batches replayable (torn_tail_bytes report))) in
  let* page_images := lift (ok_or (checked_add (w_page_images w) pages)
                              (InternalInvariantViolation "WAL page-image count overflow")) in
  do* modify_wal (set_w_page_images page_images) in
  ret (g_reports g).

(** [append_group] up to the sync: every record of the group is written. *)
Definition write_group (append_elapsed : Z) (commits : list WalCommit) : WalM GroupProgress :=
  do* hit "before_wal_append" in
  let* w := wal_get id in
  let* g := foldM append_group_step (mkProgress (w_next_lsn w) (w_next_batch_id w) [] []) commits in
  let* elapsed := lift (elapsed_nanos append_elapsed) in
  let* append_nanos := lift (ok_or (checked_add (w_append_nanos w) elapsed)
                               (InternalInvariantViolation "WAL append timing overflow")) in
  do* modify_wal (set_w_append_nanos append_nanos) in
  do* hit "after_group_records_written" in
  do* hit "before_wal_sync" in
  do* hit "during_wal_sync" in
  ret g.

(** The sync of [append_group] and its accounting. *)
Definition sync_group (sync_elapsed : Z) : WalM unit :=
  do* on_file (mapping_err (λ _, DurabilityFailure "WAL group sync failed at commit LSN {}: {error}") sync_data) in
  let* w := wal_get id in
  let* elapsed := lift (elapsed_nanos sync_elapsed) in
  let* sync_nanos := lift (ok_or (checked_add (w_sync_nanos w) elapsed)
                             (InternalInvariantViolation "WAL sync timing overflow")) in
  do* modify_wal (set_w_sync_nanos sync_nanos) in
  let* sync_count := lift (ok_or (checked_add (w_sync_count w) 1)
                             (InternalInvariantViolation "WAL sync count overflow")) in
  do* modify_wal (set_w_sync_count sync_count) in
  hit "after_wal_sync".

(** [append_elapsed] and [sync_elapsed] are the nanoseconds the two [Instant]s
    measured. *)
Definition append_group (append_elapsed sync_elapsed : Z) (commits : list WalCommit)
    : WalM (list WalAppendReport) :=
  guard* negb (is_empty commits) else InvalidInput "a WAL group must contain a commit" in
  let* g := write_group append_elapsed commits in
  do* sync_group sync_elapsed in
  publish_group commits g.

Definition append_commit (append_elapsed sync_elapsed : Z) (batch_id : Z) (commit_lsn : Lsn)
    (pages : list WalPageImage) : WalM WalAppendReport :=
  let* reports := append_group append_elapsed sync_elapsed [mkCommit batch_id commit_lsn pages] in
  lift (index reports 0).

Definition resume_after (checkpoint_lsn : Lsn) : WalM unit :=
  let* next_lsn := lift (ok_or (checked_add checkpoint_lsn 1) (InternalInvariantViolation "WAL LSN exhausted")) in
  modify_wal (λ w, if w_next_lsn w <? next_lsn then set_w_next_lsn next_lsn w else w).

(** The assignments of [reset] between the truncation and the new
    initialisation record. *)
Definition forget_history (checkpoint_lsn : Lsn) : WalM unit :=
  do* modify_wal (λ w, mkWal (w_file w) (w_identity w) WAL_FORMAT_VERSION (w_next_lsn w)
        (w_next_batch_id w) checkpoint_lsn (w_committed w) (w_scan_report w) (w_sync_count w)
        (w_page_images w) (w_append_nanos w) (w_sync_nanos w)) in
  let* next_lsn := lift (ok_or (checked_add checkpoint_lsn 1) (InternalInvariantViolation "WAL LSN exhausted")) in
  modify_wal (λ w, mkWal (w_file w) (w_identity w) (w_format_version w) next_lsn 1
        (w_history_start_lsn w) [] (mkScanReport 1 0 0 0) (w_sync_count w) 0
        (w_append_nanos w) (w_sync_nanos w)).

Definition reset (checkpoint_lsn : Lsn) : WalM unit :=
  let* history_start_lsn := wal_get w_history_start_lsn in
  guard* negb (checkpoint_lsn <? history_start_lsn) else
    CheckpointFailure "WAL reset would move its history start backwards" in
  do* hit "before_wal_reset" in
  do* hit "during_wal_truncate" in
  do* on_file (mapping_err (λ _, CheckpointFailure "WAL reset truncation failed: {error}") (set_len 0)) in
  do* hit "after_wal_truncate" in
  do* hit "before_wal_reset_truncate_sync" in
  do* hit "during_wal_reset_truncate_sync" in
  do* on_file (mapping_err (λ _, CheckpointFailure "WAL reset truncation sync failed: {error}") sync_data) in
  do* hit "after_wal_reset_truncate_sync" in
  do* forget_history checkpoint_lsn in
  do* hit "before_wal_reinitialization" in
  let* identity := wal_get w_identity in
  let* payload := lift (identity_payload identity checkpoint_lsn) in
  do* hit "during_wal_reinitialization" in
  let* _written := append_frame RInit 0 0 0 payload in
  do* hit "after_wal_reset_write" in
  do* hit "before_wal_reset_sync" in
  do* hit "during_wal_reset_sync" in
  do* on_file (mapping_err (λ _, CheckpointFailure "WAL reset sync failed: {error}") sync_data) in
  let* sync_count := wal_get w_sync_count in
  let* sync_count := lift (ok_or (checked_add sync_count 1) (InternalInvariantViolation "WAL sync count overflow")) in
  do* modify_wal (set_w_sync_count sync_count) in
  hit "after_wal_reset_sync".

Definition metrics (w : WalLog F) : Result Error WalMetrics :=
  let? wal_bytes := file_len (w_file w) in
  Ok (mkWalMetrics wal_bytes (w_sync_count w) (len (w_committed w)) (w_page_images w)
        (w_append_nanos w) (w_sync_nanos w)).

(** ** Opening

    [open] consumes the file; the state keeps it, so that what a failed open
    leaves on disk is part of the model. *)

Definition initialize_empty (identity : WalIdentity) (start_after_lsn : Lsn)
    : ST (F * option I) Error (WalLog F) := fun '(file, injector) =>
  match checked_add start_after_lsn 1 with
  | None => (Err (InternalInvariantViolation "WAL LSN exhausted"), (file, injector))
  | Some next_lsn =>
      let wal := mkWal file identity WAL_FORMAT_VERSION next_lsn 1 start_after_lsn []
                   WalScanReport_default 0 0 0 0 in
      let '(r, (wal, _)) :=
        (let* payload := lift (identity_payload identity start_after_lsn) in
         let* _written := append_frame RInit 0 0 0 payload in
         do* on_file (mapping_err (λ _, DurabilityFailure "initial WAL sync failed: {error}") sync_data) in
         do* modify_wal (set_w_sync_count 1) in
         do* modify_wal (set_w_report (mkScanReport 1 0 0 0)) in
         wal_get id) (wal, None) in
      (r, (w_file wal, injector))
  end.

Definition open_file {A} (m : ST F Error A) : ST (F * option I) Error A :=
  zoom fst (λ f s, (f, s.2)) m.

Definition open_with_fault_injector_and_start_lsn (identity : WalIdentity) (start_after_lsn : Lsn)
    : ST (F * option I) Error (WalLog F) :=
  let* length := open_file (λ f, (file_len f, f)) in
  if length =? 0 then initialize_empty identity start_after_lsn
  else
    let* torn_init :=
      (if match usize_try_from length with Some length => length <? INIT_FRAME_SIZE | None => false end
       then open_file (is_torn_initialization_prefix identity start_after_lsn length)
       else ret false) in
    if (torn_init : bool) then
      do* open_file (mapping_err (λ _, RecoveryFailure "WAL torn INIT reset failed: {error}") (set_len 0)) in
      do* open_file (mapping_err (λ _, DurabilityFailure "WAL torn INIT reset sync failed: {error}") sync_data) in
      initialize_empty identity start_after_lsn
    else
      let* s := open_file (scan_wal identity) in
      do* (if s_valid_length s <? length then
             do* hit "before_wal_tail_truncate" in
             do* open_file (set_len (s_valid_length s)) in
             do* open_file (mapping_err (λ _, DurabilityFailure "WAL torn-tail truncation sync failed: {error}") sync_data) in
             hit "after_wal_tail_truncate"
           else ret tt) in
      let* torn := lift (ok_or (usize_try_from (length - s_valid_length s))
                           (InternalInvariantViolation "WAL tail length does not fit usize")) in
      let report := mkScanReport (records_scanned (s_report s)) (committed_batches (s_report s))
                      (replayable_pages (s_report s)) torn in
      let* file := gets fst in
      ret (mkWal file identity (s_format_version s) (s_next_lsn s) (s_next_batch_id s)
             (s_history_start_lsn s) (s_committed s) report 0 (replayable_pages report) 0 0).

(** [open] and [open_with_fault_injector] start after LSN zero; [open] has no
    injector. *)
Definition open_with_fault_injector (identity : WalIdentity) : ST (F * option I) Error (WalLog F) :=
  open_with_fault_injector_and_start_lsn identity 0.

End log.
