(* ===== verification/WalCodec.v ===== *)
(** * WalCodec: what the frames of the log encode

    The images of the log's frames and payloads (wal.rs: [encode_frame],
    [decode_header], [encode_page_image], [identity_payload], ...) and that
    every decoder inverts its encoder. *)

From S2P Require Import Prelude Core Crc Page Superblock DurableFile Wal.

Section images.
Context `{Crc32c}.

Definition header_unsealed (fr : Frame) : list byte :=
  splice (splice (splice (splice (splice (splice (splice (splice (splice (zeros WAL_HEADER_SIZE)
    0 WAL_MAGIC)
    4 (u16_to_le_bytes (f_format_version fr)))
    6 [WalRecordType_as_u8 (f_record_type fr)])
    8 (u32_to_le_bytes (len (f_payload fr) + 52)))
    12 (u32_to_le_bytes (len (f_payload fr))))
    16 (u64_to_le_bytes (f_record_lsn fr)))
    24 (u64_to_le_bytes (f_batch_id fr)))
    32 (u32_to_le_bytes (f_record_index fr)))
    PAYLOAD_CHECKSUM_OFFSET (u32_to_le_bytes (crc32c (f_payload fr))).

Definition header_image (fr : Frame) : list byte :=
  splice (header_unsealed fr) HEADER_CHECKSUM_OFFSET
    (u32_to_le_bytes (header_checksum (header_unsealed fr))).

(** The bytes of a frame in the log. *)
Definition frame_image (fr : Frame) : list byte :=
  header_image fr ++ f_payload fr ++ u32_to_le_bytes (len (f_payload fr) + 52).

Definition frame_length (fr : Frame) : Z := len (f_payload fr) + 52.

(** A frame whose fields fit their widths, of a supported version. *)
Definition wf_frame (fr : Frame) : Prop :=
  (f_format_version fr = WAL_FORMAT_VERSION ∨ f_format_version fr = LEGACY_WAL_FORMAT_VERSION) ∧
  is_u64 (f_record_lsn fr) ∧ is_u64 (f_batch_id fr) ∧ is_u32 (f_record_index fr) ∧
  len (f_payload fr) ≤ WAL_MAX_PAYLOAD_SIZE.

Lemma len_wal_magic : len WAL_MAGIC = 4.
Proof. done. Qed.

Lemma WalRecordType_decode_as_u8 t : WalRecordType_decode (WalRecordType_as_u8 t) = Ok t.
Proof. by destruct t. Qed.

Lemma encode_frame_Ok v t lsn batch idx payload :
  len payload ≤ WAL_MAX_PAYLOAD_SIZE →
  encode_frame v t lsn batch idx payload = Ok (frame_image (mkFrame v t lsn batch idx payload)).
Proof.
  intros Hp. pose proof (len_nonneg payload). pose proof len_wal_magic.
  unfold encode_frame, set_index. rewrite (proj2 (Z.leb_le _ _)) by done.
  unfold checked_add. rewrite (proj2 (Z.leb_le (_ + len payload) _)) by lia.
  cbn [mbind option_bind]. rewrite (proj2 (Z.leb_le _ _)) by lia. cbn [ok_or rbind].
  unfold u32_try_from. rewrite !(proj2 (Z.leb_le _ _)) by lia. cbn [ok_or].
  unfold frame_image, header_image, header_unsealed; cbn [f_format_version f_record_type
    f_record_lsn f_batch_id f_record_index f_payload].
  replace (len payload + 52) with (WAL_HEADER_SIZE + len payload + WAL_TRAILER_SIZE) by lia.
  repeat (rewrite copy_Ok by len_tac; cbn [rbind]). reflexivity.
Qed.

(** A payload that is too large is refused, and is all that is. *)
Lemma encode_frame_inv v t lsn batch idx payload frame :
  encode_frame v t lsn batch idx payload = Ok frame →
  len payload ≤ WAL_MAX_PAYLOAD_SIZE ∧ frame = frame_image (mkFrame v t lsn batch idx payload).
Proof.
  intros E. assert (Hp : len payload ≤ WAL_MAX_PAYLOAD_SIZE).
  { unfold encode_frame in E. destruct (_ <=? _) eqn:L; [by apply Z.leb_le|done]. }
  rewrite encode_frame_Ok in E by done. by injection E.
Qed.

Lemma len_header_unsealed fr : len (header_unsealed fr) = WAL_HEADER_SIZE.
Proof. unfold header_unsealed. len_tac. Qed.

Lemma len_header_image fr : len (header_image fr) = WAL_HEADER_SIZE.
Proof. unfold header_image. rewrite splice_len by lia. apply len_header_unsealed. Qed.

Lemma len_frame_image fr : len (frame_image fr) = frame_length fr.
Proof. unfold frame_image, frame_length. rewrite !len_app, len_header_image, len_u32. lia. Qed.

Lemma header_checksum_splice h s :
  len h = WAL_HEADER_SIZE → len s = 4 → header_checksum (splice h HEADER_CHECKSUM_OFFSET s) = header_checksum h.
Proof.
  intros Hh Hs. unfold header_checksum. f_equal. apply splice_splice_same; [lia|lia|].
  rewrite len_zeros by lia. done.
Qed.

(** The fields of an encoded header, at their offsets. *)
Lemma header_image_fields fr (img := header_image fr) :
  sub img 0 4 = WAL_MAGIC ∧
  sub img 4 6 = u16_to_le_bytes (f_format_version fr) ∧
  sub img 6 7 = [WalRecordType_as_u8 (f_record_type fr)] ∧
  sub img 7 8 = [Byte.x00] ∧
  sub img 8 12 = u32_to_le_bytes (frame_length fr) ∧
  sub img 12 16 = u32_to_le_bytes (len (f_payload fr)) ∧
  sub img 16 24 = u64_to_le_bytes (f_record_lsn fr) ∧
  sub img 24 32 = u64_to_le_bytes (f_batch_id fr) ∧
  sub img 32 36 = u32_to_le_bytes (f_record_index fr) ∧
  sub img 36 40 = zeros 4 ∧
  sub img 40 44 = u32_to_le_bytes (header_checksum img) ∧
  sub img 44 48 = u32_to_le_bytes (crc32c (f_payload fr)).
Proof.
  pose proof len_wal_magic. unfold frame_length.
  assert (Hc : header_checksum img = header_checksum (header_unsealed fr)).
  { apply header_checksum_splice; [apply len_header_unsealed|len_tac]. }
  rewrite Hc. subst img. unfold header_image. generalize (header_checksum (header_unsealed fr)).
  intros crc.
  unfold header_unsealed, WAL_HEADER_SIZE, HEADER_CHECKSUM_OFFSET, PAYLOAD_CHECKSUM_OFFSET in *.
  repeat split; read_back; rewrite ?sub_zeros by lia; done.
Qed.

Definition frame_header (fr : Frame) : WalHeader :=
  {| h_version := f_format_version fr; h_record_type := f_record_type fr;
     h_frame_length := frame_length fr; h_payload_length := len (f_payload fr);
     h_record_lsn := f_record_lsn fr; h_batch_id := f_batch_id fr;
     h_record_index := f_record_index fr |}.

Lemma decode_header_image fr : wf_frame fr → decode_header (header_image fr) = Ok (frame_header fr).
Proof.
  intros (Hv & Hl & Hb & Hi & Hp). pose proof (len_header_image fr) as HL.
  pose proof (header_image_fields fr) as (F1&F2&F3&F4&F5&F6&F7&F8&F9&F10&F11&F12).
  pose proof (len_nonneg (f_payload fr)). unfold frame_header.
  remember (header_image fr) as img eqn:Himg. clear Himg. unfold frame_length in *.
  unfold decode_header, HEADER_CHECKSUM_OFFSET. rewrite HL, Z.eqb_refl.
  rewrite !slice_Ok by lia. cbn [rbind]. rewrite F1, bytes_eqb_refl, F2, from_u16 by lia.
  rewrite (index_sub _ 7 Byte.x00), (index_sub _ 6 (WalRecordType_as_u8 (f_record_type fr))) by done.
  cbn [rbind]. rewrite F10, any_nonzero_zeros, F11, from_u32, Z.eqb_refl by apply crc32c_u32.
  rewrite WalRecordType_decode_as_u8. cbn [rbind].
  rewrite F5, F6, F7, F8, F9, !from_u64, !from_u32 by lia.
  destruct Hv as [-> | ->]; done.
Qed.

Lemma verify_header_image fr :
  verify_payload_checksum (header_image fr) (f_payload fr) = Ok tt.
Proof.
  pose proof (len_header_image fr) as HL. unfold verify_payload_checksum, PAYLOAD_CHECKSUM_OFFSET.
  rewrite slice_Ok by lia. cbn [rbind].
  pose proof (header_image_fields fr) as (_&_&_&_&_&_&_&_&_&_&_&F12). rewrite F12.
  rewrite from_u32, Z.eqb_refl by apply crc32c_u32. done.
Qed.

(** ** Payloads *)

Definition page_payload (page : WalPageImage) : list byte :=
  u64_to_le_bytes (img_page_id page) ++ img_bytes page.

(** A page image that passes validation, at a [u64] page id. *)
Definition wf_image (page : WalPageImage) : Prop :=
  is_u64 (img_page_id page) ∧ validate_page_image page = Ok tt.

Lemma validate_image_len page : validate_page_image page = Ok tt → len (img_bytes page) = PAGE_SIZE.
Proof.
  unfold validate_page_image. destruct (is_superblock_page _).
  - intros E. ok_steps E. unfold decode_superblock in E0.
    destruct (len (img_bytes page) =? PAGE_SIZE) eqn:L; [by apply Z.eqb_eq|done].
  - intros E. ok_steps E. unfold decode_page_at in E0.
    destruct (len (img_bytes page) =? PAGE_SIZE) eqn:L; [by apply Z.eqb_eq|done].
Qed.

Lemma encode_page_image_Ok page : wf_image page → encode_page_image page = Ok (page_payload page).
Proof. intros [_ Hv]. unfold encode_page_image. by rewrite Hv. Qed.

Lemma len_page_payload page : wf_image page → len (page_payload page) = PAGE_IMAGE_PAYLOAD_SIZE.
Proof.
  intros [_ Hv]. apply validate_image_len in Hv. unfold page_payload. rewrite len_app, len_u64. lia.
Qed.

Lemma decode_page_payload page : wf_image page → decode_page_image (page_payload page) = Ok page.
Proof.
  intros Hw. pose proof (len_page_payload page Hw) as HL. destruct Hw as [Hid Hv].
  apply validate_image_len in Hv. unfold decode_page_image. rewrite HL, Z.eqb_refl.
  rewrite !slice_Ok by lia. cbn [rbind]. unfold page_payload.
  rewrite sub_app_l, sub_all' by len_tac.
  rewrite sub_app_r by len_tac. rewrite len_u64.
  rewrite sub_all' by lia. rewrite from_u64 by done. by destruct page.
Qed.

Definition commit_payload (first_lsn page_count digest : Z) : list byte :=
  splice (splice (splice (zeros COMMIT_PAYLOAD_SIZE)
    0 (u64_to_le_bytes first_lsn)) 8 (u32_to_le_bytes page_count)) 12 (u32_to_le_bytes digest).

Lemma len_commit_payload a b c : len (commit_payload a b c) = COMMIT_PAYLOAD_SIZE.
Proof. unfold commit_payload. len_tac. Qed.

Lemma decode_commit_image first count digest :
  is_u64 first → is_u32 count → is_u32 digest →
  decode_commit_payload (commit_payload first count digest) = Ok (first, count, digest).
Proof.
  intros Hf Hc Hd. unfold decode_commit_payload. rewrite len_commit_payload, Z.eqb_refl.
  rewrite !slice_Ok by (rewrite ?len_commit_payload; lia). cbn [rbind].
  unfold commit_payload, COMMIT_PAYLOAD_SIZE. read_back.
  rewrite from_u64, !from_u32 by done. unfold usize_try_from.
  rewrite (proj2 (Z.leb_le _ _)) by lia. done.
Qed.

Definition wf_identity (id : WalIdentity) : Prop :=
  len (id_uuid id) = 16 ∧ is_u64 (id_tenant id) ∧ is_u64 (id_shard id) ∧ is_u64 (id_epoch id).

Definition identity_image (id : WalIdentity) (start : Lsn) : list byte :=
  splice (splice (splice (splice (splice (splice (zeros INIT_PAYLOAD_SIZE)
    0 (id_uuid id)) 16 (u64_to_le_bytes (id_tenant id))) 24 (u64_to_le_bytes (id_shard id)))
    32 (u64_to_le_bytes (id_epoch id))) 40 (u32_to_le_bytes PAGE_SIZE)) 44 (u64_to_le_bytes start).

Lemma len_identity_image id start : len (identity_image id start) = INIT_PAYLOAD_SIZE.
Proof. unfold identity_image. len_tac. Qed.

Lemma identity_payload_Ok id start :
  wf_identity id → identity_payload id start = Ok (identity_image id start).
Proof.
  intros (Hu & _). unfold identity_payload, identity_image.
  repeat (rewrite copy_Ok by len_tac; cbn [rbind]). reflexivity.
Qed.

(** The payload of the initialisation record: version 1 had no history start. *)
Definition init_payload (version : Z) (id : WalIdentity) (start : Lsn) : list byte :=
  if version =? LEGACY_WAL_FORMAT_VERSION
  then sub (identity_image id start) 0 LEGACY_INIT_PAYLOAD_SIZE else identity_image id start.

Lemma len_init_payload v id start : len (init_payload v id start) ≤ INIT_PAYLOAD_SIZE.
Proof.
  unfold init_payload. pose proof (len_identity_image id start).
  destruct (_ =? _); [rewrite len_sub|]; lia.
Qed.

Lemma verify_init_payload v id start :
  wf_identity id → is_u64 start → (v = LEGACY_WAL_FORMAT_VERSION → start = 0) →
  verify_identity v (init_payload v id start) id = Ok start.
Proof.
  intros (Hu & Ht & Hs & He) Hst Hv. pose proof (len_identity_image id start) as HL.
  assert (Hbase : ∀ a b, 0 ≤ a ≤ b → b ≤ 44 → sub (init_payload v id start) a b = sub (identity_image id start) a b).
  { intros a b Hab Hb. unfold init_payload. destruct (_ =? _); [|done]. rewrite sub_sub by lia. done. }
  assert (HL' : len (init_payload v id start) =
     if v =? LEGACY_WAL_FORMAT_VERSION then LEGACY_INIT_PAYLOAD_SIZE else INIT_PAYLOAD_SIZE).
  { unfold init_payload. destruct (_ =? _); [rewrite len_sub|]; lia. }
  unfold verify_identity. rewrite HL', Z.eqb_refl.
  rewrite !(slice_Ok _ _ 40), !(slice_Ok _ _ 16), !(slice_Ok _ _ 24), !(slice_Ok _ _ 32), !(slice_Ok _ _ 44)
    by (rewrite ?HL'; destruct (_ =? _); lia).
  cbn [rbind]. rewrite !Hbase by lia.
  assert (Hid : sub (identity_image id start) 0 16 = id_uuid id ∧
    sub (identity_image id start) 16 24 = u64_to_le_bytes (id_tenant id) ∧
    sub (identity_image id start) 24 32 = u64_to_le_bytes (id_shard id) ∧
    sub (identity_image id start) 32 40 = u64_to_le_bytes (id_epoch id) ∧
    sub (identity_image id start) 40 44 = u32_to_le_bytes PAGE_SIZE ∧
    sub (identity_image id start) 44 52 = u64_to_le_bytes start).
  { unfold identity_image, INIT_PAYLOAD_SIZE. repeat split; read_back; done. }
  destruct Hid as (-> & -> & -> & -> & -> & Hs52).
  rewrite !from_u64, from_u32, Z.eqb_refl by (done || lia). 
  rewrite bool_decide_eq_true_2 by (by destruct id). unfold init_payload.
  destruct (v =? LEGACY_WAL_FORMAT_VERSION) eqn:E; bool_props; [by rewrite Hv|].
  rewrite slice_Ok by lia. cbn [rbind]. rewrite Hs52, from_u64 by done. done.
Qed.

End images.
