(* ===== verification/WalScan.v ===== *)
(** * WalScan: what a scan of the log reads

    The reconstruction in wal.rs ([scan_wal]) against an abstract history of
    the log.  A history is a sequence of segments, one per batch: its page
    images, and whether its commit record follows.  The theorems show that
    scanning the bytes of a history, with any torn frame behind it, returns
    exactly the committed segments. *)

From S2P Require Import Prelude Core Crc Page Superblock DurableFile Wal WalCodec.

Section frames.
Context `{Crc32c} {F : Type} `{DFL : DurableFileLaws F}.

(** The bytes of a sequence of frames. *)
Definition images (frames : list Frame) : list byte := concat (frame_image <$> frames).

Lemma images_app fs gs : images (fs ++ gs) = images fs ++ images gs.
Proof. unfold images. by rewrite fmap_app, concat_app. Qed.

Lemma images_cons fr fs : images (fr :: fs) = frame_image fr ++ images fs.
Proof. done. Qed.

Lemma frame_length_min fr : WAL_MIN_FRAME_SIZE ≤ frame_length fr.
Proof. unfold frame_length. pose proof (len_nonneg (f_payload fr)). lia. Qed.

Lemma len_images_min frames : WAL_MIN_FRAME_SIZE * len frames ≤ len (images frames).
Proof.
  induction frames as [|fr frames IH]; [done|].
  rewrite images_cons, len_app, len_cons, len_frame_image. pose proof (frame_length_min fr). lia.
Qed.

(** The parts of a frame inside a buffer that starts with [pre]. *)
Lemma frame_parts pre fr post (buf := pre ++ frame_image fr ++ post) (o := len pre) :
  sub buf o (o + 48) = header_image fr ∧
  sub buf (o + 48) (o + 48 + len (f_payload fr)) = f_payload fr ∧
  sub buf (o + (48 + len (f_payload fr))) (o + (48 + len (f_payload fr)) + 4) = u32_to_le_bytes (frame_length fr).
Proof.
  pose proof (len_header_image fr) as HL. pose proof (len_nonneg (f_payload fr)).
  subst buf o. unfold frame_image. rewrite <- !app_assoc. split_and!.
  - apply sub_app_exact; lia.
  - rewrite (app_assoc pre). apply sub_app_exact; rewrite ?len_app; lia.
  - rewrite (app_assoc pre), (app_assoc (pre ++ _)).
    apply sub_app_exact; rewrite ?len_app, ?len_u32; lia.
Qed.

Definition same_version (frames : list Frame) (fr : Frame) : Prop :=
  ∀ first, head frames = Some first → f_format_version first = f_format_version fr.

Lemma same_version_eqb frames fr :
  same_version frames fr →
  match frames with first :: _ => f_format_version first =? f_format_version fr | [] => true end = true.
Proof. destruct frames; [done|]. intros Hs. apply Z.eqb_eq. by apply Hs. Qed.

Lemma scan_frame_complete f pre fr post prev frames :
  contents f = pre ++ frame_image fr ++ post → len (contents f) ≤ U64_MAX →
  wf_frame fr → same_version frames fr →
  match prev with Some p => p < f_record_lsn fr | None => True end →
  reads f (scan_frame (len pre) (len (contents f)) prev frames f) (Some (fr, frame_length fr)).
Proof.
  intros Hc Hu Hwf Hsame Hprev. pose proof Hwf as (_ & _ & _ & _ & Hmax).
  pose proof (frame_parts pre fr post) as (P1 & P2 & P3). rewrite <- Hc in P1, P2, P3.
  pose proof (len_nonneg pre). pose proof (len_nonneg post). pose proof (len_nonneg (f_payload fr)).
  assert (HL : len (contents f) = len pre + frame_length fr + len post).
  { rewrite Hc, !len_app, len_frame_image. lia. }
  unfold frame_length in HL. unfold scan_frame, WAL_HEADER_SIZE, WAL_TRAILER_SIZE.
  rewrite (proj2 (Z.ltb_ge _ _)) by lia.
  eapply reads_bind; [unfold wal_read_exact_at; apply reads_exact; eauto with dodb; lia|].
  rewrite P1. intros f1 C1 _. eapply reads_bind; [apply reads_lift, decode_header_image, Hwf|].
  intros f2 C2 _. unfold frame_header; cbn -[Z.ltb Z.eqb Z.sub reads].
  rewrite same_version_eqb by done.
  rewrite (proj2 (Z.ltb_ge (frame_length fr) _)) by (pose proof (frame_length_min fr); lia).
  rewrite (proj2 (Z.eqb_eq _ _)) by (unfold frame_length; lia).
  rewrite (proj2 (Z.ltb_ge WAL_MAX_PAYLOAD_SIZE _)) by lia. cbn -[Z.ltb Z.eqb Z.sub reads].
  rewrite (proj2 (Z.ltb_ge _ _)) by (unfold frame_length; lia).
  unfold checked_add. rewrite (proj2 (Z.leb_le _ _)) by lia.
  eapply reads_bind; [by apply reads_lift|]. intros f3 C3 _.
  assert (E3 : contents f3 = contents f) by congruence.
  eapply reads_bind; [unfold wal_read_exact_at; apply reads_exact; eauto with dodb; rewrite ?E3; lia|].
  rewrite E3, P2. intros f4 C4 _. rewrite (proj2 (Z.leb_le _ _)) by lia.
  eapply reads_bind; [by apply reads_lift|]. intros f5 C5 _.
  assert (E5 : contents f5 = contents f) by congruence.
  eapply reads_bind; [unfold wal_read_exact_at; apply reads_exact; eauto with dodb; rewrite ?E5; lia|].
  rewrite E5, P3. intros f6 _ _. rewrite from_u32 by (unfold frame_length; lia).
  unfold as_u32. rewrite Z.mod_small by (unfold frame_length; lia). rewrite Z.eqb_refl.
  assert (Hp : match prev with Some p => negb (f_record_lsn fr <=? p) | None => true end = true).
  { destruct prev; [|done]. by rewrite (proj2 (Z.leb_gt _ _)). }
  rewrite Hp. eapply reads_bind; [apply reads_lift, verify_header_image|]. intros f7 _ _.
  destruct fr. apply reads_ret.
Qed.

(** A torn frame ends the scan. *)
Lemma scan_frame_torn f pre fr k prev frames :
  contents f = pre ++ take k (frame_image fr) → (k < length (frame_image fr))%nat →
  len (contents f) ≤ U64_MAX → wf_frame fr → same_version frames fr →
  reads f (scan_frame (len pre) (len (contents f)) prev frames f) None.
Proof.
  intros Hc Hk Hu Hwf Hsame. pose proof Hwf as (_ & _ & _ & _ & Hmax).
  pose proof (len_nonneg pre). pose proof (len_nonneg (f_payload fr)).
  pose proof (len_frame_image fr) as Hfl. unfold frame_length in Hfl.
  assert (HL : len (contents f) = len pre + Z.of_nat k).
  { rewrite Hc, len_app. unfold len at 2. rewrite length_take. unfold len in *. lia. }
  unfold scan_frame, WAL_HEADER_SIZE.
  destruct (_ <? 48) eqn:E; [apply reads_ret|]. bool_props.
  eapply reads_bind; [unfold wal_read_exact_at; apply reads_exact; eauto with dodb; lia|].
  assert (sub (contents f) (len pre) (len pre + 48) = header_image fr) as ->.
  { rewrite Hc, sub_app_r by lia. rewrite Z.sub_diag, Z.add_simpl_l.
    unfold sub. change (Z.to_nat 0) with 0%nat. rewrite drop_0, take_take, Nat.min_l by lia.
    unfold frame_image. pose proof (len_header_image fr) as HH. unfold len in HH.
    rewrite take_app_le, take_ge by lia. done. }
  intros f1 C1 _. eapply reads_bind; [apply reads_lift, decode_header_image, Hwf|].
  intros f2 C2 _. unfold frame_header; cbn -[Z.ltb Z.eqb Z.sub reads].
  rewrite same_version_eqb by done.
  rewrite (proj2 (Z.ltb_ge (frame_length fr) _)) by (pose proof (frame_length_min fr); lia).
  rewrite (proj2 (Z.eqb_eq _ _)) by (unfold frame_length; lia).
  rewrite (proj2 (Z.ltb_ge WAL_MAX_PAYLOAD_SIZE _)) by lia. cbn -[Z.ltb Z.eqb Z.sub reads].
  rewrite (proj2 (Z.ltb_lt _ _)) by (unfold frame_length, len in *; lia). apply reads_ret.
Qed.

(** The LSNs of the frames behind [prev] increase strictly. *)
Fixpoint lsns_increase (prev : option Z) (frames : list Frame) : Prop :=
  match frames with
  | [] => True
  | fr :: frames =>
      match prev with Some p => p < f_record_lsn fr | None => True end ∧
      lsns_increase (Some (f_record_lsn fr)) frames
  end.

Fixpoint last_lsn (prev : option Z) (frames : list Frame) : option Z :=
  match frames with
  | [] => prev
  | fr :: frames => last_lsn (Some (f_record_lsn fr)) frames
  end.

(** What a crash in the middle of a frame of version [v] leaves of it. *)
Definition torn_frame (v : Z) (bytes : list byte) : Prop :=
  bytes = [] ∨ ∃ fr k, wf_frame fr ∧ f_format_version fr = v ∧
    (k < length (frame_image fr))%nat ∧ bytes = take k (frame_image fr).

Lemma scan_frames_spec fuel f v todo done prev torn :
  contents f = images (done ++ todo) ++ torn → len (contents f) ≤ U64_MAX →
  Forall (λ fr, wf_frame fr ∧ f_format_version fr = v) (done ++ todo) → torn_frame v torn →
  lsns_increase prev todo → (length todo < fuel)%nat →
  reads f (scan_frames fuel (len (images done)) (len (contents f)) prev done f)
    (len (images (done ++ todo)), last_lsn prev todo, done ++ todo).
Proof.
  revert f done prev todo. induction fuel as [|fuel IH]; intros f done prev todo Hc Hu Hwf Ht Hl Hf; [lia|].
  assert (Hv : ∀ fr, f_format_version fr = v → same_version done fr).
  { intros fr Hfr first Hfirst. destruct done; [done|]. injection Hfirst as ->.
    rewrite Hfr. by apply Forall_inv in Hwf as [_ ?]. }
  simpl. destruct todo as [|fr todo].
  - rewrite app_nil_r in *. simpl. destruct (_ <? _) eqn:E; [|apply reads_ret].
    destruct Ht as [->|(fr & k & Hfr & Hver & Hk & ->)].
    + rewrite app_nil_r in Hc. rewrite Hc in E. bool_props. lia.
    + eapply reads_bind; [apply (scan_frame_torn f (images done) fr k); auto|].
      intros f' _ _. apply reads_ret.
  - destruct Hl as [Hlp Hl]. pose proof (frame_length_min fr). rewrite images_app, images_cons, <- !app_assoc in Hc.
    apply Forall_app in Hwf as [Hwd Hwt]. pose proof (Forall_inv Hwt) as [Hfr Hver].
    assert (HL : len (contents f) = len (images done) + frame_length fr + len (images todo ++ torn)).
    { rewrite Hc, !len_app, len_frame_image. lia. }
    pose proof (len_nonneg (images todo ++ torn)). rewrite (proj2 (Z.ltb_lt _ _)) by lia.
    eapply reads_bind; [apply (scan_frame_complete f (images done) fr (images todo ++ torn)); auto|].
    intros f' C' _. cbn -[reads scan_frames].
    replace (len (images done) + frame_length fr) with (len (images (done ++ [fr])))
      by (rewrite images_app, images_cons, !len_app, len_frame_image; change (len (images [])) with 0; lia).
    rewrite <- C'. specialize (IH f' (done ++ [fr]) (Some (f_record_lsn fr)) todo).
    rewrite <- !app_assoc in IH. apply IH; [|congruence|by apply Forall_app|easy|easy|simpl in Hf; lia].
    rewrite C', Hc. change ([fr] ++ todo) with (fr :: todo). by rewrite images_app, images_cons, <- !app_assoc.
Qed.

End frames.

(** ** Histories *)

Section history.
Context `{Crc32c}.

(** One batch in the log: its page images and, when [sg_done], its commit. *)
Record Segment := mkSegment {
  sg_batch : Z;
  sg_first : Lsn;
  sg_pages : list WalPageImage;
  sg_done : bool
}.

(** The LSN of the commit record, which follows those of the page images. *)
Definition sg_commit_lsn (s : Segment) : Lsn := sg_first s + len (sg_pages s).
(** The LSN of the last record. *)
Definition sg_last (s : Segment) : Lsn :=
  if sg_done s then sg_commit_lsn s else sg_commit_lsn s - 1.

Definition digest_input (pages : list WalPageImage) : list byte := concat (page_payload <$> pages).

Definition page_frame (v batch : Z) (first : Lsn) (i : nat) (page : WalPageImage) : Frame :=
  mkFrame v RPageImage (first + Z.of_nat i) batch (Z.of_nat i) (page_payload page).

Definition commit_frame (v : Z) (s : Segment) : Frame :=
  mkFrame v RCommit (sg_commit_lsn s) (sg_batch s) (len (sg_pages s))
    (commit_payload (sg_first s) (len (sg_pages s)) (crc32c (digest_input (sg_pages s)))).

Definition page_frames (v : Z) (s : Segment) : list Frame :=
  imap (page_frame v (sg_batch s) (sg_first s)) (sg_pages s).

Definition sg_frames (v : Z) (s : Segment) : list Frame :=
  page_frames v s ++ (if sg_done s then [commit_frame v s] else []).

Definition init_frame (v : Z) (id : WalIdentity) (start : Lsn) : Frame :=
  mkFrame v RInit 0 0 0 (init_payload v id start).

Definition segments_frames (v : Z) (segs : list Segment) : list Frame := concat (sg_frames v <$> segs).

Definition history_frames (v : Z) (id : WalIdentity) (start : Lsn) (segs : list Segment) : list Frame :=
  init_frame v id start :: segments_frames v segs.

(** The commits a history records, in order. *)
Definition sg_batch_of (s : Segment) : CommittedWalBatch :=
  mkBatch (sg_batch s) (sg_commit_lsn s) (sg_pages s).
Definition history_committed (segs : list Segment) : list CommittedWalBatch :=
  sg_batch_of <$> filter (λ s, sg_done s = true) segs.

Definition wf_segment (s : Segment) : Prop :=
  sg_pages s ≠ [] ∧ Forall wf_image (sg_pages s) ∧ is_u64 (sg_batch s) ∧ 0 ≤ sg_first s ∧
  sg_commit_lsn s ≤ U64_MAX ∧ len (sg_pages s) ≤ U32_MAX ∧
  (sg_done s = true →
     Forall (λ page, validate_page_image_lsn page (sg_commit_lsn s) = Ok tt) (sg_pages s)).

(** Batches behind batch [batch] and LSN [lsn], both strictly increasing. *)
Fixpoint chain (lsn batch : Z) (segs : list Segment) : Prop :=
  match segs with
  | [] => True
  | s :: segs => lsn < sg_first s ∧ batch < sg_batch s ∧ wf_segment s ∧ chain (sg_last s) (sg_batch s) segs
  end.

Fixpoint chain_lsn (lsn : Z) (segs : list Segment) : Z :=
  match segs with [] => lsn | s :: segs => chain_lsn (sg_last s) segs end.
Fixpoint chain_batch (batch : Z) (segs : list Segment) : Z :=
  match segs with [] => batch | s :: segs => chain_batch (sg_batch s) segs end.

Lemma chain_app lsn batch l1 l2 :
  chain lsn batch (l1 ++ l2) ↔ chain lsn batch l1 ∧ chain (chain_lsn lsn l1) (chain_batch batch l1) l2.
Proof. revert lsn batch. induction l1 as [|s l1 IH]; intros; simpl; [tauto|]. rewrite IH. tauto. Qed.

Lemma chain_lsn_app lsn l1 l2 : chain_lsn lsn (l1 ++ l2) = chain_lsn (chain_lsn lsn l1) l2.
Proof. revert lsn. induction l1; simpl; auto. Qed.
Lemma chain_batch_app batch l1 l2 : chain_batch batch (l1 ++ l2) = chain_batch (chain_batch batch l1) l2.
Proof. revert batch. induction l1; simpl; auto. Qed.

Lemma sg_pages_pos s : wf_segment s → 1 ≤ len (sg_pages s).
Proof.
  intros (Hne & _). destruct (sg_pages s) as [|p ps]; [done|]. rewrite len_cons. pose proof (len_nonneg ps). lia.
Qed.

Lemma sg_last_bounds s : wf_segment s → sg_first s ≤ sg_last s ≤ sg_commit_lsn s.
Proof.
  intros Hs. pose proof (sg_pages_pos s Hs). unfold sg_last, sg_commit_lsn. destruct (sg_done s); lia.
Qed.

Lemma chain_lsn_mono lsn batch segs : chain lsn batch segs → lsn ≤ chain_lsn lsn segs.
Proof.
  revert lsn batch. induction segs as [|s segs IH]; intros lsn batch; simpl; [lia|].
  intros (H1 & _ & Hs & Hc). apply IH in Hc. pose proof (sg_last_bounds s Hs). lia.
Qed.

Lemma chain_batch_mono lsn batch segs : chain lsn batch segs → batch ≤ chain_batch batch segs.
Proof.
  revert lsn batch. induction segs as [|s segs IH]; intros lsn batch; simpl; [lia|].
  intros (_ & H1 & _ & Hc). apply IH in Hc. lia.
Qed.

Lemma len_page_frames v s : len (page_frames v s) = len (sg_pages s).
Proof. unfold page_frames, len. by rewrite length_imap. Qed.

Lemma wf_page_frame v s i page :
  (v = WAL_FORMAT_VERSION ∨ v = LEGACY_WAL_FORMAT_VERSION) → wf_segment s →
  sg_pages s !! i = Some page → wf_frame (page_frame v (sg_batch s) (sg_first s) i page).
Proof.
  intros Hv (_ & Hp & Hb & H0 & Hl & Hn & _) Hi. unfold wf_frame; simpl.
  pose proof (lookup_lt_Some _ _ _ Hi). rewrite Forall_forall in Hp.
  assert (Hw : wf_image page) by (apply Hp; by eapply list_elem_of_lookup_2).
  rewrite len_page_payload by done. unfold sg_commit_lsn in Hl. unfold len in *.
  split_and!; (done || lia).
Qed.

Lemma wf_commit_frame v s :
  (v = WAL_FORMAT_VERSION ∨ v = LEGACY_WAL_FORMAT_VERSION) → wf_segment s → wf_frame (commit_frame v s).
Proof.
  intros Hv Hs. pose proof (sg_pages_pos s Hs). destruct Hs as (_ & Hp & Hb & Hz & Hl & Hn & _).
  unfold wf_frame; simpl. rewrite len_commit_payload. unfold sg_commit_lsn in *. split_and!; (done || lia).
Qed.

Lemma sg_frames_wf v s :
  (v = WAL_FORMAT_VERSION ∨ v = LEGACY_WAL_FORMAT_VERSION) → wf_segment s →
  Forall (λ fr, wf_frame fr ∧ f_format_version fr = v) (sg_frames v s).
Proof.
  intros Hv Hs. unfold sg_frames. apply Forall_app. split.
  - apply Forall_lookup. intros i fr Hi. unfold page_frames in Hi. rewrite list_lookup_imap in Hi.
    destruct (sg_pages s !! i) as [page|] eqn:E; [|done]. injection Hi as <-.
    split; [by apply wf_page_frame|done].
  - destruct (sg_done s); [|constructor]. apply Forall_singleton. split; [by apply wf_commit_frame|done].
Qed.

Lemma lsns_increase_app prev l1 l2 :
  lsns_increase prev (l1 ++ l2) ↔ lsns_increase prev l1 ∧ lsns_increase (last_lsn prev l1) l2.
Proof. revert prev. induction l1 as [|fr l1 IH]; intros; simpl; [tauto|]. rewrite IH. tauto. Qed.

Lemma last_lsn_app prev l1 l2 : last_lsn prev (l1 ++ l2) = last_lsn (last_lsn prev l1) l2.
Proof. revert prev. induction l1; simpl; auto. Qed.

Lemma page_frames_lsns v batch first pages i prev :
  match prev with Some p => p < first + Z.of_nat i | None => True end →
  lsns_increase prev (imap (λ j, page_frame v batch first (i + j)) pages) ∧
  last_lsn prev (imap (λ j, page_frame v batch first (i + j)) pages) =
    match pages with [] => prev | _ => Some (first + Z.of_nat i + len pages - 1) end.
Proof.
  revert i prev. induction pages as [|page pages IH]; intros i prev Hp; [done|].
  simpl. rewrite (imap_ext _ (λ j, page_frame v batch first (S i + j))) by (intros; simpl; f_equal; lia).
  destruct (IH (S i) (Some (first + Z.of_nat (i + 0)))) as [I1 I2]; [lia|].
  split; [split; [|done]|].
  - destruct prev; [|done]. simpl. lia.
  - etrans; [exact I2|]. rewrite len_cons. destruct pages; [rewrite len_nil|]; f_equal; lia.
Qed.

Lemma sg_frames_lsns v s prev :
  wf_segment s → match prev with Some p => p < sg_first s | None => True end →
  lsns_increase prev (sg_frames v s) ∧ last_lsn prev (sg_frames v s) = Some (sg_last s).
Proof.
  intros Hs Hp. pose proof (sg_pages_pos s Hs) as Hpos.
  destruct (page_frames_lsns v (sg_batch s) (sg_first s) (sg_pages s) 0 prev) as [I1 I2].
  { by rewrite Z.add_0_r. }
  unfold sg_frames. rewrite lsns_increase_app, last_lsn_app.
  change (imap _ (sg_pages s)) with (page_frames v s) in I1, I2. rewrite I2.
  destruct (sg_pages s) as [|p0 ps] eqn:E; [by rewrite len_nil in Hpos|]. rewrite <- E in *.
  unfold sg_last, sg_commit_lsn. destruct (sg_done s); simpl; split; try done.
  - split; [done|]. unfold sg_commit_lsn. split; [lia|done].
  - f_equal. lia.
Qed.

Lemma segments_frames_wf v lsn batch segs :
  (v = WAL_FORMAT_VERSION ∨ v = LEGACY_WAL_FORMAT_VERSION) → chain lsn batch segs →
  Forall (λ fr, wf_frame fr ∧ f_format_version fr = v) (segments_frames v segs).
Proof.
  intros Hv. revert lsn batch. induction segs as [|s segs IH]; intros lsn batch; [constructor|].
  intros (_ & _ & Hs & Hc). unfold segments_frames. simpl. apply Forall_app. split; [by apply sg_frames_wf|by eapply IH].
Qed.

Lemma segments_frames_lsns v lsn batch segs :
  chain lsn batch segs →
  lsns_increase (Some lsn) (segments_frames v segs) ∧
  last_lsn (Some lsn) (segments_frames v segs) = Some (chain_lsn lsn segs).
Proof.
  revert lsn batch. induction segs as [|s segs IH]; intros lsn batch; [done|].
  intros (Hl & Hb & Hs & Hc). unfold segments_frames. simpl. rewrite lsns_increase_app, last_lsn_app.
  destruct (sg_frames_lsns v s (Some lsn) Hs Hl) as [I1 ->]. apply IH in Hc as [I2 I3]. tauto.
Qed.

Lemma segments_frames_app v l1 l2 :
  segments_frames v (l1 ++ l2) = segments_frames v l1 ++ segments_frames v l2.
Proof. unfold segments_frames. by rewrite fmap_app, concat_app. Qed.

Lemma segments_frames_cons v s segs :
  segments_frames v (s :: segs) = sg_frames v s ++ segments_frames v segs.
Proof. done. Qed.

(** ** Reconstructing the commits *)

Lemma digest_input_cons page pages : digest_input (page :: pages) = page_payload page ++ digest_input pages.
Proof. done. Qed.

Lemma digest_input_snoc pages page : digest_input (pages ++ [page]) = digest_input pages ++ page_payload page.
Proof. unfold digest_input. rewrite fmap_app, concat_app. simpl. by rewrite app_nil_r. Qed.

Definition pending_of (b : Z) (first : Lsn) (pages : list WalPageImage) : PendingBatch :=
  mkPending b first pages (digest_input pages).

(** A further page image of the pending batch. *)
Lemma replay_next_page start v b first pages page c m :
  wf_image page → start < first + len pages → len pages ≤ U32_MAX → b ≤ m →
  replay_frame start (mkReplay c (Some (pending_of b first pages)) b m)
    (page_frame v b first (length pages) page) =
  Ok (mkReplay c (Some (pending_of b first (pages ++ [page]))) b m).
Proof.
  intros Hw Hs Hn Hm. pose proof (len_nonneg pages). unfold replay_frame; simpl. unfold len in *.
  rewrite (proj2 (Z.leb_gt _ _)) by lia. simpl.
  unfold replay_page_image; simpl. rewrite decode_page_payload by done. simpl.
  destruct Hw as [_ ->]. simpl. rewrite Z.eqb_refl. simpl.
  unfold as_u32, len. rewrite Z.mod_small by lia. rewrite Z.eqb_refl. unfold pending_of.
  rewrite digest_input_snoc. by rewrite Z.max_l by lia.
Qed.

Lemma replay_pages start v b first rest pages c m :
  Forall wf_image rest → start < first + len pages → len pages + len rest ≤ U32_MAX → b ≤ m →
  foldR (replay_frame start) (mkReplay c (Some (pending_of b first pages)) b m)
    (imap (λ j, page_frame v b first (length pages + j)) rest) =
  Ok (mkReplay c (Some (pending_of b first (pages ++ rest))) b m).
Proof.
  revert pages. induction rest as [|page rest IH]; intros pages Hw Hs Hn Hm; simpl.
  - by rewrite app_nil_r.
  - rewrite len_cons in Hn. pose proof (len_nonneg rest). inversion_clear Hw.
    rewrite Nat.add_0_r, replay_next_page by (done || lia). simpl.
    rewrite (imap_ext _ (λ j, page_frame v b first (length (pages ++ [page]) + j)))
      by (intros; simpl; f_equal; rewrite length_app; simpl; lia).
    rewrite IH by (rewrite ?len_app, ?len_cons, ?len_nil; done || lia).
    by rewrite <- app_assoc.
Qed.

Definition pending_below (b : Z) (pending : option PendingBatch) : Prop :=
  match pending with Some p => p_batch_id p < b | None => True end.

(** The first page image of a batch opens it, whatever was pending. *)
Lemma replay_first_page start v b first page c pending h m :
  wf_image page → start < first → h < b → pending_below b pending →
  replay_frame start (mkReplay c pending h m) (page_frame v b first 0 page) =
  Ok (mkReplay c (Some (pending_of b first [page])) b (Z.max m b)).
Proof.
  intros Hw Hs Hh Hp. unfold replay_frame; simpl. rewrite Z.add_0_r.
  rewrite (proj2 (Z.leb_gt _ _)) by lia. simpl.
  unfold replay_page_image; simpl. rewrite decode_page_payload by done. simpl.
  destruct Hw as [_ ->]. simpl.
  assert ((match pending with Some p => if p_batch_id p =? b then Some p else None | None => None end) = None) as ->.
  { destruct pending as [p|]; [|done]. simpl in Hp. by rewrite (proj2 (Z.eqb_neq _ _)) by lia. }
  rewrite (proj2 (Z.leb_gt b h)) by lia. simpl.
  unfold pending_of, digest_input. cbn [fmap list_fmap concat]. by rewrite app_nil_r, Z.add_0_r.
Qed.

Lemma replay_commit_frame start v s c m :
  wf_segment s → sg_done s = true → start < sg_first s → sg_batch s ≤ m →
  replay_frame start (mkReplay c (Some (pending_of (sg_batch s) (sg_first s) (sg_pages s))) (sg_batch s) m)
    (commit_frame v s) =
  Ok (mkReplay (c ++ [sg_batch_of s]) None (sg_batch s) m).
Proof.
  intros Hs Hd Hst Hm. pose proof (sg_pages_pos s Hs). destruct Hs as (_ & _ & Hb & Hz & Hl & Hn & Hlsn).
  unfold replay_frame; simpl.
  rewrite (proj2 (Z.leb_gt _ _)) by (unfold sg_commit_lsn; lia). simpl. unfold replay_commit; simpl.
  unfold as_u32. rewrite Z.mod_small by lia. rewrite !Z.eqb_refl. simpl.
  rewrite decode_commit_image by (unfold sg_commit_lsn in Hl; lia || apply crc32c_u32). simpl.
  rewrite !Z.eqb_refl. simpl.
  assert (foldR (λ _ page, validate_page_image_lsn page (sg_commit_lsn s)) tt (sg_pages s) = Ok tt) as ->.
  { apply foldR_units. by apply Hlsn. }
  simpl. by rewrite Z.max_l by lia.
Qed.

(** What is pending behind a segment. *)
Definition sg_pending (s : Segment) : option PendingBatch :=
  if sg_done s then None else Some (pending_of (sg_batch s) (sg_first s) (sg_pages s)).

Lemma replay_segment start v s c pending h m :
  wf_segment s → start < sg_first s → h < sg_batch s → pending_below (sg_batch s) pending →
  foldR (replay_frame start) (mkReplay c pending h m) (sg_frames v s) =
  Ok (mkReplay (c ++ history_committed [s]) (sg_pending s) (sg_batch s) (Z.max m (sg_batch s))).
Proof.
  intros Hs Hst Hh Hp. pose proof Hs as (Hne & Hw & Hb & Hz & Hl & Hn & Hlsn).
  unfold sg_frames, page_frames. rewrite foldR_app.
  destruct (sg_pages s) as [|p0 ps] eqn:E; [done|]. simpl.
  inversion_clear Hw as [|? ? Hw0 Hws].
  rewrite replay_first_page by done. simpl.
  rewrite (imap_ext _ (λ j, page_frame v (sg_batch s) (sg_first s) (length [p0] + j))) by done.
  rewrite len_cons in Hn.
  rewrite replay_pages by (done || rewrite ?len_cons, ?len_nil; lia). simpl. rewrite <- E.
  unfold history_committed, sg_pending. rewrite filter_cons, filter_nil.
  destruct (sg_done s) eqn:D; [rewrite decide_True by done|rewrite decide_False by done]; simpl.
  - rewrite replay_commit_frame by (done || lia). done.
  - by rewrite app_nil_r.
Qed.

Lemma history_committed_app l1 l2 :
  history_committed (l1 ++ l2) = history_committed l1 ++ history_committed l2.
Proof. unfold history_committed. by rewrite filter_app, fmap_app. Qed.

Definition last_pending (pending : option PendingBatch) (segs : list Segment) : option PendingBatch :=
  match last segs with Some s => sg_pending s | None => pending end.

Lemma replay_segments start v segs lsn h c pending :
  chain lsn h segs → start ≤ lsn → pending_below (h + 1) pending →
  ∃ pending', foldR (replay_frame start) (mkReplay c pending h h) (segments_frames v segs) =
  Ok (mkReplay (c ++ history_committed segs) pending' (chain_batch h segs) (chain_batch h segs)).
Proof.
  revert lsn h c pending. induction segs as [|s segs IH]; intros lsn h c pending Hc Hst Hp.
  - exists pending. simpl. by rewrite app_nil_r.
  - destruct Hc as (Hl & Hb & Hs & Hc). pose proof (sg_last_bounds s Hs).
    rewrite segments_frames_cons, foldR_app.
    rewrite replay_segment; [|done|lia|lia|destruct pending; simpl in *; lia].
    cbn [rbind]. rewrite Z.max_r by lia.
    destruct (IH (sg_last s) (sg_batch s) (c ++ history_committed [s]) (sg_pending s)) as (p' & ->).
    + done.
    + lia.
    + unfold sg_pending. destruct (sg_done s); simpl; lia.
    + exists p'. by rewrite <- app_assoc, <- (history_committed_app [s]).
Qed.

(** ** Scanning a history *)

Definition history_ok (v : Z) (id : WalIdentity) (start : Lsn) (segs : list Segment) : Prop :=
  (v = WAL_FORMAT_VERSION ∨ (v = LEGACY_WAL_FORMAT_VERSION ∧ start = 0)) ∧
  wf_identity id ∧ is_u64 start ∧ chain start 0 segs ∧
  chain_lsn start segs < U64_MAX ∧ chain_batch 0 segs < U64_MAX.

(** The LSN the last record of the log has: 0 when there is only the
    initialisation record. *)
Definition history_last (start : Lsn) (segs : list Segment) : Lsn :=
  match segs with [] => 0 | _ => chain_lsn start segs end.

Definition history_bytes (v : Z) (id : WalIdentity) (start : Lsn) (segs : list Segment) : list byte :=
  images (history_frames v id start segs).

Definition history_scan (v : Z) (id : WalIdentity) (start : Lsn) (segs : list Segment) : WalScanResult :=
  {| s_next_lsn := history_last start segs + 1;
     s_next_batch_id := chain_batch 0 segs + 1;
     s_format_version := v;
     s_history_start_lsn := start;
     s_committed := history_committed segs;
     s_report := mkScanReport (1 + len (segments_frames v segs)) (len (history_committed segs))
                   (total_pages (history_committed segs)) 0;
     s_valid_length := len (history_bytes v id start segs) |}.

Lemma wf_init_frame v id start :
  (v = WAL_FORMAT_VERSION ∨ v = LEGACY_WAL_FORMAT_VERSION) → wf_frame (init_frame v id start).
Proof.
  intros Hv. unfold wf_frame; simpl. pose proof (len_init_payload v id start). split_and!; (done || lia).
Qed.

Lemma finish_scan_history v id start segs :
  history_ok v id start segs →
  finish_scan id (len (history_bytes v id start segs)) (Some (history_last start segs))
    (history_frames v id start segs) = Ok (history_scan v id start segs).
Proof.
  intros (Hv & Hid & Hst & Hc & Hl & Hb). unfold finish_scan; simpl.
  rewrite verify_init_payload by (done || lia || naive_solver). simpl.
  destruct (replay_segments start v segs start 0 [] None Hc ltac:(lia) I) as (p' & Hr).
  unfold Replay_start. rewrite Hr. simpl. pose proof (chain_batch_mono _ _ _ Hc).
  pose proof (chain_lsn_mono _ _ _ Hc).
  unfold checked_add, history_last. destruct segs as [|s segs].
  - simpl. unfold history_scan. reflexivity.
  - rewrite !(proj2 (Z.leb_le _ _)) by lia. cbn [ok_or rbind]. rewrite Z.max_l by lia.
    unfold history_scan, history_frames. by rewrite len_cons.
Qed.

End history.

Section scan_theorem.
Context `{Crc32c} {F : Type} `{DFL : DurableFileLaws F}.

Lemma scan_history v id start segs torn f :
  history_ok v id start segs → torn_frame v torn →
  contents f = history_bytes v id start segs ++ torn → len (contents f) ≤ U64_MAX →
  reads f (scan_wal id f) (history_scan v id start segs).
Proof.
  intros Hok Ht Hc Hu. pose proof Hok as (Hv & Hid & Hst & Hch & Hl & Hb).
  assert (Hv' : v = WAL_FORMAT_VERSION ∨ v = LEGACY_WAL_FORMAT_VERSION) by tauto.
  set (frs := history_frames v id start segs) in *.
  assert (Hincr : lsns_increase None frs ∧ last_lsn None frs = Some (history_last start segs)).
  { destruct segs as [|s segs]; [done|]. destruct Hch as (H1 & H2 & H3 & H4).
    assert (Hch0 : chain 0 0 (s :: segs)) by (split_and!; (done || lia)).
    destruct (segments_frames_lsns v _ _ _ Hch0) as [I1 I2]. split; [by split|]. exact I2. }
  destruct Hincr as [Hi Hlast].
  unfold scan_wal. eapply reads_bind; [apply reads_len|]. intros f1 C1 _.
  assert (Hlen : len (contents f) = len (images frs) + len torn).
  { rewrite Hc, len_app. done. }
  eapply reads_bind.
  { rewrite <- C1. apply (scan_frames_spec _ f1 v frs [] None torn); simpl; try done.
    - by rewrite C1.
    - by rewrite C1.
    - constructor; [split; [by apply wf_init_frame|done]|]. by eapply segments_frames_wf.
    - pose proof (len_images_min frs). pose proof (len_nonneg torn). rewrite C1, Hlen.
      assert (Hn : Z.of_nat (length frs) ≤ (len (images frs) + len torn) / WAL_MIN_FRAME_SIZE).
      { apply Z.div_le_lower_bound; [lia|]. fold (len frs). lia. }
      change (S (length (segments_frames v segs))) with (length frs). lia. }
  intros f2 _ _. cbn [app]. rewrite Hlast. apply reads_lift.
  exact (finish_scan_history v id start segs Hok).
Qed.

End scan_theorem.
