(* ===== verification/WalLog.v ===== *)
(** * WalLog: atomic, durable group commit

    The operations of the write-ahead log (wal.rs: [append_group], [reset],
    [WalLog::open...]) against its history.  Whatever interrupts an append, at
    any byte, the log holds the old history followed by a prefix of the new
    records; opening such a log gives back every old commit and a prefix of the
    new ones, all of them when the append had returned. *)

From S2P Require Import Prelude Core Crc Page Superblock DurableFile Wal WalCodec WalScan.

Section append.
Context `{Crc32c} {F I : Type} `{DFL : DurableFileLaws F} `{FaultInjector I}.

Abbreviation state := (WalLog F * option I)%type.

Definition wfile (s : state) : F := w_file s.1.

(** The fields of the log that only [publish_group] and [reset] assign. *)
Definition keeps_index (s s' : state) : Prop :=
  w_identity s'.1 = w_identity s.1 ∧ w_format_version s'.1 = w_format_version s.1 ∧
  w_next_lsn s'.1 = w_next_lsn s.1 ∧ w_next_batch_id s'.1 = w_next_batch_id s.1 ∧
  w_history_start_lsn s'.1 = w_history_start_lsn s.1 ∧ w_committed s'.1 = w_committed s.1 ∧
  w_scan_report s'.1 = w_scan_report s.1 ∧ w_page_images s'.1 = w_page_images s.1.

(** Those, and the accounting of syncs. *)
Definition keeps (s s' : state) : Prop :=
  keeps_index s s' ∧ w_sync_nanos s'.1 = w_sync_nanos s.1 ∧ w_sync_count s'.1 = w_sync_count s.1.

(** A step that appends [bytes] to the file and returns [a]; interrupted, it
    has appended a prefix.  Without faults it does return. *)
Definition appends {A} (s : state) (out : Result Error A * state) (bytes : list byte) (a : A) : Prop :=
  keeps s out.2 ∧ durable (wfile out.2) = durable (wfile s) ∧
  (∃ k, contents (wfile out.2) = contents (wfile s) ++ take k bytes ∧
        (∀ x, out.1 = Ok x → x = a ∧ (length bytes ≤ k)%nat)) ∧
  (reliable (wfile s) → reliable (wfile out.2)) ∧
  (reliable (wfile s) → s.2 = None → out.1 = Ok a ∧ reliable (wfile out.2) ∧ out.2.2 = None).

Lemma keeps_refl s : keeps s s.
Proof. unfold keeps, keeps_index. tauto. Qed.
Lemma keeps_trans s1 s2 s3 : keeps s1 s2 → keeps s2 s3 → keeps s1 s3.
Proof. unfold keeps, keeps_index. intuition congruence. Qed.

Lemma keeps_set_file s f i : keeps s (set_w_file f s.1, i).
Proof. unfold keeps, keeps_index. simpl. tauto. Qed.

Lemma appends_bind {A B} s (m : ST state Error A) (k : A → ST state Error B) b1 b2 a b :
  appends s (m s) b1 a →
  (∀ s', keeps s s' → contents (wfile s') = contents (wfile s) ++ b1 → appends s' (k a s') b2 b) →
  appends s (bind m k s) (b1 ++ b2) b.
Proof.
  intros (K1 & D1 & (n & C1 & O1) & R1 & L1) Hk. unfold bind. destruct (m s) as [r s1]; simpl in *.
  assert (Hfail : ∀ r' : Result Error B, is_ok r = false → is_ok r' = false → appends s (r', s1) (b1 ++ b2) b).
  { intros r' Hr Hr'. unfold appends; simpl. split_and!; [done|done| |done|].
    - exists (n `min` length b1)%nat. split.
      + rewrite take_app_le, C1 by lia. f_equal. symmetry.
        destruct (decide (n ≤ length b1)%nat); [by rewrite Nat.min_l|].
        rewrite Nat.min_r, !take_ge by lia. done.
      + intros x ->. done.
    - intros R N. destruct (L1 R N) as (-> & _). done. }
  destruct r as [x|e| |]; try (by apply Hfail).
  destruct (O1 x eq_refl) as [-> Hn]. rewrite take_ge in C1 by done.
  destruct (Hk s1 K1 C1) as (K2 & D2 & (n2 & C2 & O2) & R2 & L2). unfold appends. split_and!.
  - by eapply keeps_trans.
  - congruence.
  - exists (length b1 + n2)%nat. split.
    + rewrite C2, C1, <- app_assoc, take_app_add. done.
    + intros x Hx. destruct (O2 x Hx). rewrite length_app. split; [done|lia].
  - auto.
  - intros R N. apply L2; by apply L1.
Qed.

(** A step that writes nothing. *)
Lemma appends_bind_0 {A B} s (m : ST state Error A) (k : A → ST state Error B) b2 a b :
  appends s (m s) [] a →
  (∀ s', keeps s s' → contents (wfile s') = contents (wfile s) → appends s' (k a s') b2 b) →
  appends s (bind m k s) b2 b.
Proof.
  intros Hm Hk. apply (appends_bind s m k [] b2 a b Hm). intros s' K C. apply Hk; [done|].
  by rewrite app_nil_r in C.
Qed.

Lemma appends_ret {A} s (a : A) : appends s (ret a s) [] a.
Proof.
  unfold appends, ret; simpl. split_and!; [apply keeps_refl|done| |done|done].
  exists 0%nat. rewrite app_nil_r. split; [done|]. intros x [= ->]. split; [done|]. simpl. lia.
Qed.

Lemma appends_lift {A} s m (a : A) : m = Ok a → appends s (lift m s) [] a.
Proof. intros ->. apply appends_ret. Qed.

Lemma appends_get {A} s (g : WalLog F → A) : appends s (wal_get g s) [] (g s.1).
Proof. apply (appends_ret s (g s.1)). Qed.

Lemma appends_hit s point : appends s (hit point s) [] tt.
Proof.
  destruct s as [w [i|]]; simpl; [|apply (appends_ret (w, None) tt)].
  destruct (injector_hit point i) as [r i']. unfold appends; simpl.
  split_and!; [exact (keeps_refl (w, None))|done| |done|done].
  exists 0%nat. rewrite app_nil_r. split; [done|]. intros [] _. split; [done|]. simpl. lia.
Qed.

Lemma appends_modify s u :
  keeps s (u s.1, s.2) → w_file (u s.1) = w_file s.1 → appends s (modify_wal u s) [] tt.
Proof.
  intros K E. unfold appends, modify_wal, modify, wfile in *; simpl in *. rewrite E.
  split_and!; [done|done| |done|done].
  exists 0%nat. rewrite app_nil_r. split; [done|]. intros [] _. split; [done|]. simpl. lia.
Qed.

Lemma appends_len s : appends s (on_file (λ f, (file_len f, f)) s) [] (len (contents (wfile s))).
Proof.
  destruct (reads_len (wfile s)) as (_ & _ & Hr & _). unfold appends, on_file, zoom, wfile in *; simpl in *.
  split_and!; [apply keeps_set_file|done| |done|].
  - exists 0%nat. rewrite app_nil_r. split; [done|]. intros x Hx. split; [|simpl; lia].
    destruct Hr as [E|(e & E & _)]; congruence.
  - intros R N. destruct Hr as [E|(e & _ & E)]; [done|by apply E in R].
Qed.

Lemma appends_write s bs :
  len (contents (wfile s)) + len bs ≤ U64_MAX →
  appends s (on_file (wal_write_all_at (len (contents (wfile s))) bs) s) bs tt.
Proof.
  intros Hu. pose proof (len_nonneg (contents (wfile s))).
  assert (Hb : 0 ≤ len (contents (wfile s)) ≤ len (contents (wfile s))) by lia.
  pose proof (write_all_spec _ (Io WriteZero "WAL returned a zero-byte write") (len (contents (wfile s))) bs (wfile s)
    (adds_checked (InvalidInput "WAL write offset overflows")) Hb) as (Hd & Hnf & Hnp & (k & Hk & Hc & Hok) & Hrel).
  unfold on_file, zoom, wal_write_all_at. unfold wfile in *.
  destruct (write_all _ _ _ _ _) as [r f'] eqn:E; simpl in *.
  unfold appends, wfile; simpl. split_and!; [apply keeps_set_file|done| |by intros R; destruct (Hrel R Hu)|].
  - exists k. split; [by rewrite Hc, write_bytes_append|]. intros [] ->. split; [done|]. by rewrite Hok.
  - intros R N. destruct (Hrel R Hu) as [Hr ?]. destruct r as [[]| | |]; done.
Qed.

(** ** Frames and commits *)

Lemma append_frame_appends s v t lsn b i payload (fr := mkFrame v t lsn b i payload) :
  w_format_version s.1 = v → len payload ≤ WAL_MAX_PAYLOAD_SIZE →
  len (contents (wfile s)) + frame_length fr ≤ U64_MAX →
  appends s (append_frame t lsn b i payload s) (frame_image fr) (frame_length fr).
Proof.
  intros <- Hp Hu. pose proof (len_nonneg payload). pose proof (len_nonneg (contents (wfile s))).
  change (frame_image fr) with (header_image fr ++ payload ++ u32_to_le_bytes (len payload + 52)).
  unfold append_frame.
  eapply appends_bind_0; [apply appends_get|]. intros s1 K1 C1.
  eapply appends_bind_0; [by apply appends_lift, encode_frame_Ok|]. intros s2 K2 C2. fold fr.
  assert (Hfl : frame_length fr = len payload + 52) by done.
  eapply appends_bind_0.
  { apply appends_lift. unfold plain_add. rewrite (proj2 (Z.leb_le _ _)) by lia. done. }
  intros s3 K3 C3. eapply appends_bind_0; [apply appends_len|]. intros s4 K4 C4.
  eapply appends_bind_0; [apply appends_hit|]. intros s5 K5 C5.
  pose proof (frame_parts [] fr []) as (P1 & P2 & P3). cbn [app] in P1, P2, P3. rewrite app_nil_r, len_nil in P1, P2, P3.
  rewrite !Z.add_0_l in P1, P2, P3. change (f_payload fr) with payload in P2, P3. unfold WAL_HEADER_SIZE.
  assert (HL : len (frame_image fr) = len payload + 52) by apply len_frame_image.
  eapply appends_bind_0; [apply appends_lift; rewrite slice_Ok by lia; by rewrite P1|]. intros s6 K6 C6.
  assert (E6 : contents (wfile s6) = contents (wfile s)) by congruence.
  replace (contents (wfile s3)) with (contents (wfile s6)) by congruence.
  eapply appends_bind; [apply appends_write; rewrite len_header_image, E6; lia|].
  rewrite E6. intros s7 K7 C7.
  eapply appends_bind_0; [apply appends_hit|]. intros s8 K8 C8.
  eapply appends_bind_0.
  { apply appends_lift. unfold checked_add. by rewrite (proj2 (Z.leb_le _ _)) by lia. }
  intros s9 K9 C9. eapply appends_bind_0; [apply appends_lift; rewrite slice_Ok by lia; by rewrite P2|].
  intros s10 K10 C10.
  assert (E10 : contents (wfile s10) = contents (wfile s) ++ header_image fr) by congruence.
  replace (len (contents (wfile s)) + 48) with (len (contents (wfile s10)))
    by (rewrite E10, len_app, len_header_image; lia).
  eapply appends_bind; [apply appends_write; rewrite E10, len_app, len_header_image; unfold frame_length in *; simpl in *; lia|].
  rewrite E10. intros s11 K11 C11.
  eapply appends_bind_0; [apply appends_hit|]. intros s12 K12 C12.
  eapply appends_bind_0.
  { apply appends_lift. unfold checked_add. by rewrite (proj2 (Z.leb_le _ _)) by lia. }
  intros s13 K13 C13. eapply appends_bind_0.
  { apply (appends_lift _ _ (u32_to_le_bytes (len payload + 52))). rewrite slice_Ok by lia. f_equal.
    rewrite HL. replace (len payload + 52) with (48 + len payload + 4) at 1 by lia. exact P3. }
  intros s14 K14 C14.
  assert (E14 : contents (wfile s14) = (contents (wfile s) ++ header_image fr) ++ payload) by congruence.
  replace (len (contents (wfile s)) + (48 + len payload)) with (len (contents (wfile s14)))
    by (rewrite E14, !len_app, len_header_image; lia).
  rewrite <- (app_nil_r (u32_to_le_bytes (len payload + 52))).
  eapply appends_bind.
  { apply appends_write. rewrite E14, !len_app, len_header_image, len_u32. lia. }
  intros s15 K15 C15. rewrite HL. apply appends_ret.
Qed.

Lemma len_images_cons fr frs : len (images (fr :: frs)) = frame_length fr + len (images frs).
Proof. by rewrite images_cons, len_app, len_frame_image. Qed.

Lemma append_pages_appends commit first rest i dig written s :
  Forall (λ page, wf_image page ∧ validate_page_image_lsn page (c_commit_lsn commit) = Ok tt) rest →
  0 ≤ first → first + Z.of_nat i + len rest ≤ U64_MAX → Z.of_nat i + len rest ≤ U32_MAX →
  let frs := imap (λ j, page_frame (w_format_version s.1) (c_batch_id commit) first (i + j)) rest in
  len (contents (wfile s)) + len (images frs) ≤ U64_MAX →
  0 ≤ written → written + len (images frs) ≤ U64_MAX →
  appends s (foldM (append_page_image commit first) (dig, written) (imap (λ j page, ((i + j)%nat, page)) rest) s)
    (images frs) (dig ++ digest_input rest, written + len (images frs)).
Proof.
  revert i dig written s. induction rest as [|page rest IH]; intros i dig written s Hw Hf Hl Hi frs Hu Hw0 Hwu.
  - subst frs. cbn [imap foldM]. change (images []) with (@nil byte).
    change (digest_input []) with (@nil byte). rewrite app_nil_r, (@len_nil byte), Z.add_0_r. apply appends_ret.
  - inversion_clear Hw as [|? ? [Hwf Hlsn] Hws]. rewrite len_cons in Hl, Hi. pose proof (len_nonneg rest).
    subst frs. simpl in Hu, Hwu |- *. rewrite len_images_cons in Hu, Hwu |- *. rewrite images_cons, Nat.add_0_r in *.
    set (frs := imap (_ ∘ S) rest) in *.
    assert (Hfrs : frs = imap (λ j, page_frame (w_format_version s.1) (c_batch_id commit) first (S i + j)) rest).
    { subst frs. apply imap_ext. intros. simpl. f_equal. lia. }
    rewrite (imap_ext ((λ j page, ((i + j)%nat, page)) ∘ S) (λ j page, ((S i + j)%nat, page)))
      by (intros; simpl; f_equal; lia).
    pose proof (len_nonneg (images frs)).
    set (fr := page_frame _ _ _ i page) in *. pose proof (frame_length_min fr).
    eapply appends_bind.
    + unfold append_page_image. eapply appends_bind_0; [by apply appends_lift|]. intros s1 K1 C1.
      eapply appends_bind_0; [by apply appends_lift, encode_page_image_Ok|]. intros s2 K2 C2.
      eapply appends_bind_0.
      { apply appends_lift. unfold checked_add. by rewrite (proj2 (Z.leb_le _ _)) by lia. }
      intros s3 K3 C3. eapply appends_bind_0.
      { apply appends_lift. unfold u32_try_from. by rewrite (proj2 (Z.leb_le _ _)) by lia. }
      intros s4 K4 C4. rewrite <- (app_nil_r (frame_image fr)).
      assert (Hv : w_format_version s4.1 = w_format_version s.1) by (unfold keeps, keeps_index in *; intuition congruence).
      eapply appends_bind.
      { apply (append_frame_appends s4 _ _ _ _ _ _ Hv); [rewrite len_page_payload by done; lia|].
        change (mkFrame _ _ _ _ _ _) with fr.
        replace (contents (wfile s4)) with (contents (wfile s)) by congruence. lia. }
      intros s5 K5 C5. eapply appends_bind_0.
      { apply appends_lift. unfold checked_add. rewrite (proj2 (Z.leb_le _ _)); [done|].
        change (frame_length _) with (frame_length fr). lia. }
      intros s6 K6 C6. apply appends_ret.
    + intros s' K C. assert (Hv : w_format_version s'.1 = w_format_version s.1) by (unfold keeps, keeps_index in *; intuition congruence).
      specialize (IH (S i) (dig ++ page_payload page) (written + frame_length fr) s' Hws Hf ltac:(lia) ltac:(lia)).
      simpl in IH. rewrite Hv in IH. simpl in Hfrs. rewrite <- Hfrs in IH.
      rewrite C, len_app, len_frame_image in IH.
      rewrite digest_input_cons, app_assoc, Z.add_assoc.
      apply IH; lia.
Qed.

Definition commit_segment (first : Lsn) (commit : WalCommit) : Segment :=
  mkSegment (c_batch_id commit) first (c_pages commit) true.

(** The records of one commit: its page images, then its commit record. *)
Lemma append_commit_appends commit first s (sg := commit_segment first commit) :
  wf_segment sg → c_commit_lsn commit = first + len (c_pages commit) →
  len (contents (wfile s)) + len (images (sg_frames (w_format_version s.1) sg)) ≤ U64_MAX →
  appends s (append_group_commit commit first (c_batch_id commit) s)
    (images (sg_frames (w_format_version s.1) sg))
    (mkAppendReport first (c_commit_lsn commit) (len (c_pages commit))
       (len (images (sg_frames (w_format_version s.1) sg)))).
Proof.
  intros Hs Hlsn Hu. pose proof (sg_pages_pos sg Hs) as Hpos.
  destruct Hs as (Hne & Hw & Hb & Hz & Hl & Hn & Hv). specialize (Hv eq_refl).
  unfold sg_commit_lsn in *. subst sg. cbn [sg_pages commit_segment sg_first sg_batch] in *.
  set (sg := commit_segment first commit) in *. set (v := w_format_version s.1) in *.
  assert (Hemp : is_empty (c_pages commit) = false) by by destruct (c_pages commit).
  assert (Hfr : images (sg_frames v sg) = images (page_frames v sg) ++ frame_image (commit_frame v sg)).
  { unfold sg_frames. cbn [sg_done sg commit_segment]. rewrite images_app, images_cons. by rewrite app_nil_r. }
  rewrite Hfr in *. rewrite len_app, len_frame_image in *.
  pose proof (len_nonneg (contents (wfile s))).
  pose proof (len_nonneg (images (page_frames v sg))). pose proof (frame_length_min (commit_frame v sg)).
  unfold append_group_commit. rewrite Hemp, Z.eqb_refl. cbn [negb].
  eapply appends_bind_0.
  { apply appends_lift. unfold u64_try_from. by rewrite (proj2 (Z.leb_le _ _)) by lia. }
  intros s1 K1 C1. eapply appends_bind_0.
  { apply appends_lift. unfold checked_add. by rewrite (proj2 (Z.leb_le _ _)) by lia. }
  intros s2 K2 C2. rewrite Hlsn, Z.eqb_refl. eapply appends_bind_0.
  { apply appends_lift. unfold checked_mul. by rewrite (proj2 (Z.leb_le _ _)) by lia. }
  intros s3 K3 C3.
  assert (V3 : w_format_version s3.1 = v) by (subst v; unfold keeps, keeps_index in *; intuition congruence).
  assert (E3 : contents (wfile s3) = contents (wfile s)) by congruence.
  eapply appends_bind.
  { pose proof (append_pages_appends commit first (c_pages commit) 0 [] 0 s3) as A. cbv zeta in A.
    rewrite V3, E3, Hlsn in A. rewrite Z.add_0_r in A.
    apply A; try lia; [|change (imap _ _) with (page_frames v sg); lia..].
    apply Forall_and. split; [done|exact Hv]. }
  change (imap _ _) with (page_frames v sg).
  intros s4 K4 C4. rewrite <- (app_nil_r (frame_image _)).
  eapply appends_bind_0; [apply appends_hit|]. intros s5 K5 C5.
  eapply appends_bind_0; [apply appends_lift, copy_Ok; len_tac|]. intros s6 K6 C6.
  eapply appends_bind_0.
  { apply appends_lift. unfold u32_try_from. by rewrite (proj2 (Z.leb_le _ _)) by lia. }
  intros s7 K7 C7. eapply appends_bind_0; [apply appends_lift, copy_Ok; len_tac|]. intros s8 K8 C8.
  eapply appends_bind_0; [apply appends_lift, copy_Ok; len_tac|]. intros s9 K9 C9.
  eapply appends_bind_0; [apply appends_hit|]. intros s10 K10 C10.
  eapply appends_bind_0.
  { apply appends_lift. unfold u32_try_from. by rewrite (proj2 (Z.leb_le _ _)) by lia. }
  intros s11 K11 C11.
  assert (V11 : w_format_version s11.1 = v) by (subst v; unfold keeps, keeps_index in *; intuition congruence).
  assert (E11 : contents (wfile s11) = contents (wfile s) ++ images (page_frames v sg)) by congruence.
  change (splice (splice (splice _ _ _) _ _) _ _) with
    (commit_payload first (len (c_pages commit)) (crc32c (digest_input (c_pages commit)))).
  eapply appends_bind.
  { apply (append_frame_appends s11 _ _ _ _ _ _ V11); [rewrite len_commit_payload; lia|].
    change (mkFrame _ _ _ _ _ _) with (commit_frame v sg). rewrite E11, len_app. lia. }
  change (mkFrame _ _ _ _ _ _) with (commit_frame v sg).
  intros s12 K12 C12. eapply appends_bind_0.
  { apply appends_lift. unfold checked_add. by rewrite (proj2 (Z.leb_le _ _)) by lia. }
  intros s13 K13 C13. eapply appends_bind_0; [apply appends_hit|]. intros s14 K14 C14.
  apply appends_ret.
Qed.

(** ** Groups *)

Fixpoint group_segments (lsn : Lsn) (commits : list WalCommit) : list Segment :=
  match commits with
  | [] => []
  | c :: commits => commit_segment lsn c :: group_segments (c_commit_lsn c + 1) commits
  end.

(** Commits numbered consecutively from [lsn] and [batch], every one a valid
    page-image sequence stamped with its commit LSN. *)
Fixpoint wf_group (lsn batch : Z) (commits : list WalCommit) : Prop :=
  match commits with
  | [] => True
  | c :: commits =>
      c_batch_id c = batch ∧ c_commit_lsn c = lsn + len (c_pages c) ∧
      c_commit_lsn c < U64_MAX ∧ batch < U64_MAX ∧
      wf_segment (commit_segment lsn c) ∧ wf_group (c_commit_lsn c + 1) (batch + 1) commits
  end.

Fixpoint group_lsn (lsn : Lsn) (commits : list WalCommit) : Lsn :=
  match commits with [] => lsn | c :: commits => group_lsn (c_commit_lsn c + 1) commits end.

Fixpoint group_reports (v : Z) (lsn : Lsn) (commits : list WalCommit) : list WalAppendReport :=
  match commits with
  | [] => []
  | c :: commits =>
      mkAppendReport lsn (c_commit_lsn c) (len (c_pages c)) (len (images (sg_frames v (commit_segment lsn c))))
      :: group_reports v (c_commit_lsn c + 1) commits
  end.

Definition commit_batch (c : WalCommit) : CommittedWalBatch :=
  mkBatch (c_batch_id c) (c_commit_lsn c) (c_pages c).

Definition group_progress (v : Z) (g : GroupProgress) (commits : list WalCommit) : GroupProgress :=
  mkProgress (group_lsn (g_next_lsn g) commits) (g_next_batch_id g + len commits)
    (g_reports g ++ group_reports v (g_next_lsn g) commits)
    (g_committed g ++ (commit_batch <$> commits)).

Lemma append_steps_appends v commits g s :
  w_format_version s.1 = v → wf_group (g_next_lsn g) (g_next_batch_id g) commits →
  len (contents (wfile s)) + len (images (segments_frames v (group_segments (g_next_lsn g) commits))) ≤ U64_MAX →
  appends s (foldM append_group_step g commits s)
    (images (segments_frames v (group_segments (g_next_lsn g) commits))) (group_progress v g commits).
Proof.
  intros Hv. revert g s Hv. induction commits as [|c commits IH]; intros g s Hv Hwf Hu.
  - cbn [foldM group_segments]. unfold group_progress. cbn. rewrite !app_nil_r.
    change (len []) with 0. rewrite Z.add_0_r. destruct g. apply appends_ret.
  - destruct Hwf as (Hb & Hlsn & Hmax & Hbmax & Hseg & Hwf). cbn [foldM group_segments] in *.
    rewrite segments_frames_cons, images_app, len_app in *.
    pose proof (len_nonneg (images (segments_frames v (group_segments (c_commit_lsn c + 1) commits)))).
    eapply appends_bind.
    + unfold append_group_step. rewrite <- (app_nil_r (images (sg_frames v _))). rewrite <- Hb, <- Hv.
      eapply appends_bind; [apply append_commit_appends; [done|done|rewrite Hv; lia]|].
      intros s1 K1 C1. cbn [rep_commit_lsn]. eapply appends_bind_0.
      { apply appends_lift. unfold checked_add. by rewrite (proj2 (Z.leb_le _ _)) by lia. }
      intros s2 K2 C2. eapply appends_bind_0.
      { apply appends_lift. unfold checked_add. by rewrite (proj2 (Z.leb_le _ _)) by lia. }
      intros s3 K3 C3. apply appends_ret.
    + intros s1 K1 C1. rewrite Hv.
      match goal with |- appends _ (foldM _ ?g1 _ _) _ _ => specialize (IH g1 s1) end.
      cbn [g_next_lsn g_next_batch_id g_reports g_committed] in IH. rewrite Hb in IH.
      rewrite C1, len_app in IH.
      assert (group_progress v g (c :: commits) = group_progress v (mkProgress (c_commit_lsn c + 1)
        (g_next_batch_id g + 1)
        (g_reports g ++ [mkAppendReport (g_next_lsn g) (c_commit_lsn c) (len (c_pages c))
           (len (images (sg_frames v (commit_segment (g_next_lsn g) c))))])
        (g_committed g ++ [commit_batch c])) commits) as ->.
      { unfold group_progress. cbn. rewrite <- !app_assoc, len_cons. f_equal. lia. }
      unfold commit_batch. rewrite Hb. apply IH; [unfold keeps, keeps_index in *; intuition congruence|done|lia].
Qed.

Lemma appends_bind_hit {B} s point (k : unit → ST state Error B) b2 b :
  (∀ i, (s.2 = None → i = None) → appends (s.1, i) (k tt (s.1, i)) b2 b) →
  appends s (bind (hit point) k s) b2 b.
Proof.
  intros Hk. destruct s as [w [i|]]; [|by apply (Hk None)].
  unfold bind, hit. destruct (injector_hit point i) as [r i'].
  destruct r as [[]| | |].
  2-4: unfold appends; simpl; split_and!; [exact (keeps_refl (w, None))|done| |done|done];
    exists 0%nat; rewrite app_nil_r; done.
  destruct (Hk (Some i') ltac:(done)) as (K & D & C & R & _).
  unfold appends. split_and!; [exact K|exact D|exact C|exact R|done].
Qed.

(** The records of a group: its page images and commit records. *)
Definition group_records (commits : list WalCommit) : Z :=
  foldr (λ c n, len (c_pages c) + 1 + n) 0 commits.

(** The counters that publishing a group increases do not overflow. *)
Definition report_counters_ok (w : WalLog F) (commits : list WalCommit) : Prop :=
  let report := w_scan_report w in
  0 ≤ records_scanned report ∧ records_scanned report + group_records commits ≤ U64_MAX ∧
  0 ≤ committed_batches report ∧ committed_batches report + group_records commits ≤ U64_MAX ∧
  0 ≤ replayable_pages report ∧ replayable_pages report + group_records commits ≤ U64_MAX ∧
  0 ≤ w_page_images w ∧ w_page_images w + group_records commits ≤ U64_MAX.

(** The log's counters do not overflow during the append. *)
Definition counters_ok (w : WalLog F) (append_elapsed sync_elapsed : Z) (commits : list WalCommit) : Prop :=
  0 ≤ append_elapsed ∧ 0 ≤ w_append_nanos w ∧ w_append_nanos w + append_elapsed ≤ U64_MAX ∧
  0 ≤ sync_elapsed ∧ 0 ≤ w_sync_nanos w ∧ w_sync_nanos w + sync_elapsed ≤ U64_MAX ∧
  0 ≤ w_sync_count w < U64_MAX ∧ report_counters_ok w commits.

Lemma write_group_appends v ta ts commits s (w := s.1) (segs := group_segments (w_next_lsn w) commits) :
  w_format_version w = v → wf_group (w_next_lsn w) (w_next_batch_id w) commits →
  len (contents (wfile s)) + len (images (segments_frames v segs)) ≤ U64_MAX → counters_ok w ta ts commits →
  appends s (write_group ta commits s) (images (segments_frames v segs))
    (group_progress v (mkProgress (w_next_lsn w) (w_next_batch_id w) [] []) commits).
Proof.
  intros Hv Hwf Hu (Ht & Hn0 & Hn & _). unfold write_group.
  apply appends_bind_hit. intros i Hi.
  eapply appends_bind_0; [apply appends_get|]. intros s2 K2 C2. fold w.
  change (id (w, i).1) with w.
  assert (V2 : w_format_version s2.1 = v) by (subst w; unfold keeps, keeps_index in *; simpl in *; intuition congruence).
  rewrite <- (app_nil_r (images _)). eapply appends_bind.
  { apply append_steps_appends; [done|done|]. rewrite C2. exact Hu. }
  cbn [g_next_lsn]. intros s3 K3 C3. eapply appends_bind_0.
  { apply appends_lift. unfold elapsed_nanos, u64_try_from. by rewrite (proj2 (Z.leb_le _ _)) by lia. }
  intros s4 K4 C4. eapply appends_bind_0.
  { apply appends_lift. unfold checked_add. by rewrite (proj2 (Z.leb_le _ _)) by lia. }
  intros s5 K5 C5. eapply appends_bind_0; [by apply appends_modify|]. intros s6 K6 C6.
  eapply appends_bind_0; [apply appends_hit|]. intros s7 K7 C7.
  eapply appends_bind_0; [apply appends_hit|]. intros s8 K8 C8.
  eapply appends_bind_0; [apply appends_hit|]. intros s9 K9 C9. apply appends_ret.
Qed.

(** The sync makes everything written durable, and touches nothing else. *)
Lemma sync_group_spec ts s :
  let out := sync_group ts s in
  keeps_index s out.2 ∧ contents (wfile out.2) = contents (wfile s) ∧
  (is_ok out.1 = true → durable (wfile out.2) = contents (wfile s)) ∧
  (reliable (wfile s) → s.2 = None → 0 ≤ ts → 0 ≤ w_sync_nanos s.1 →
     w_sync_nanos s.1 + ts ≤ U64_MAX → w_sync_count s.1 < U64_MAX →
     out.1 = Ok tt ∧ reliable (wfile out.2) ∧ out.2.2 = None).
Proof.
  pose proof (sync_data_law (wfile s)) as L. pose proof (reliable_sync (wfile s)) as R.
  unfold sync_group, bind, on_file, zoom, mapping_err, wal_get, gets. unfold wfile in *.
  destruct (sync_data (w_file s.1)) as [r f1]; simpl in L, R |- *. destruct L as [Lc Ld].
  destruct r as [[]|e| |]; simpl; try done.
  2: { split_and!; [unfold keeps_index; simpl; tauto|done|done|]. intros Hr. by destruct (R Hr). }
  unfold lift, elapsed_nanos, u64_try_from. destruct (ts <=? U64_MAX) eqn:E1; simpl.
  2: { split_and!; [unfold keeps_index; simpl; tauto|done|done|]. bool_props. lia. }
  unfold checked_add. destruct (w_sync_nanos s.1 + ts <=? U64_MAX) eqn:E2; simpl.
  2: { split_and!; [unfold keeps_index; simpl; tauto|done|done|]. bool_props. lia. }
  destruct (w_sync_count s.1 + 1 <=? U64_MAX) eqn:E3; simpl.
  2: { split_and!; [unfold keeps_index; simpl; tauto|done|done|]. bool_props. lia. }
  unfold hit. destruct s as [w [i|]]; simpl in *.
  - destruct (injector_hit _ i) as [r i']; simpl. split_and!; [unfold keeps_index; simpl; tauto|done|done|done].
  - split_and!; [unfold keeps_index; simpl; tauto|done|done|]. intros Hr _ _ _ _ _. by destruct (R Hr).
Qed.

(** What publishing a group leaves: the file as it is, and the index extended. *)
Definition published (g : GroupProgress) (s s' : state) : Prop :=
  wfile s' = wfile s ∧ s'.2 = s.2 ∧ w_identity s'.1 = w_identity s.1 ∧
  w_format_version s'.1 = w_format_version s.1 ∧ w_history_start_lsn s'.1 = w_history_start_lsn s.1 ∧
  w_committed s'.1 = w_committed s.1 ++ g_committed g ∧
  w_next_lsn s'.1 = g_next_lsn g ∧ w_next_batch_id s'.1 = g_next_batch_id g.

Lemma publish_group_published commits g s : published g s (publish_group commits g s).2.
Proof.
  unfold publish_group, bind, wal_get, gets, modify_wal, modify, lift. simpl.
  destruct (foldR _ 0 commits) as [n| | |]; simpl; try (unfold published, wfile; simpl; tauto).
  destruct (ok_or (checked_add _ n) _); simpl; try (unfold published, wfile; simpl; tauto).
  destruct (plain_add _ (len commits)); simpl; try (unfold published, wfile; simpl; tauto).
  destruct (foldR _ 0 commits); simpl; try (unfold published, wfile; simpl; tauto).
  destruct (plain_add _ _); simpl; try (unfold published, wfile; simpl; tauto).
  destruct (ok_or _ _); simpl; unfold published, wfile; simpl; tauto.
Qed.

Lemma group_records_nonneg commits : len commits ≤ group_records commits.
Proof.
  induction commits as [|c commits IH]; [done|]. cbn [group_records foldr]. rewrite len_cons.
  fold (group_records commits). pose proof (len_nonneg (c_pages c)). lia.
Qed.

Lemma count_records commits n :
  0 ≤ n → n + group_records commits ≤ U64_MAX →
  foldR (E:=Error) (λ count commit,
      let? records := plain_add (len (c_pages commit)) 1 in
      ok_or (checked_add count records) (InternalInvariantViolation "WAL record count overflow"))
    n commits = Ok (n + group_records commits).
Proof.
  revert n. induction commits as [|c commits IH]; intros n Hn Hu; [cbn; f_equal; lia|].
  cbn [group_records foldr] in Hu. fold (group_records commits) in Hu.
  pose proof (len_nonneg (c_pages c)). pose proof (group_records_nonneg commits). pose proof (len_nonneg commits).
  cbn [foldR]. unfold plain_add. rewrite (proj2 (Z.leb_le (_ + 1) _)) by lia. cbn [rbind].
  unfold checked_add. rewrite (proj2 (Z.leb_le _ _)) by lia. cbn [rbind ok_or].
  etrans; [apply IH; lia|]. f_equal. cbn [group_records foldr]. fold (group_records commits). lia.
Qed.

Lemma count_pages commits n :
  0 ≤ n → n + group_records commits ≤ U64_MAX →
  ∃ m, foldR (E:=Error) (λ n commit, plain_add n (len (c_pages commit))) n commits = Ok m ∧
    n ≤ m ≤ n + group_records commits.
Proof.
  revert n. induction commits as [|c commits IH]; intros n Hn Hu; [exists n; cbn; split; [done|lia]|].
  cbn [group_records foldr] in Hu |- *. fold (group_records commits) in Hu |- *.
  pose proof (len_nonneg (c_pages c)). pose proof (group_records_nonneg commits). pose proof (len_nonneg commits).
  cbn [foldR]. unfold plain_add at 1. rewrite (proj2 (Z.leb_le _ _)) by lia. cbn [rbind].
  destruct (IH (n + len (c_pages c))) as (m & -> & Hm); [lia..|]. exists m. split; [done|lia].
Qed.

Lemma publish_group_Ok commits g (s : state) :
  report_counters_ok s.1 commits → (publish_group commits g s).1 = Ok (g_reports g).
Proof.
  intros (Hr0 & Hr & Hb0 & Hb & Hp0 & Hp & Hi0 & Hi).
  pose proof (group_records_nonneg commits). pose proof (len_nonneg commits).
  unfold publish_group, bind, wal_get, gets, modify_wal, modify, lift. cbn [fst snd id].
  rewrite count_records by lia. rewrite Z.add_0_l. unfold checked_add at 1.
  rewrite (proj2 (Z.leb_le _ _)) by lia. cbn [ok_or fst snd]. unfold plain_add at 1.
  rewrite (proj2 (Z.leb_le _ _)) by lia.
  destruct (count_pages commits 0) as (m & -> & Hm); [lia..|].
  unfold plain_add. rewrite (proj2 (Z.leb_le _ _)) by lia.
  unfold checked_add. rewrite (proj2 (Z.leb_le _ _)) by lia. done.
Qed.

End append.

(** ** Interrupted appends

    What a crash leaves of the records being appended is a prefix of their
    bytes; it reads as a prefix of the commits, at most one of them without its
    commit record, and at most one torn frame. *)

Section crash.
Context `{Crc32c}.

Lemma take_images frames k :
  ∃ m torn, take k (images frames) = images (take m frames) ++ torn ∧
    (torn = [] ∨ ∃ fr j, fr ∈ frames ∧ (j < length (frame_image fr))%nat ∧ torn = take j (frame_image fr)) ∧
    ((length (images frames) ≤ k)%nat → (length frames ≤ m)%nat ∧ torn = []).
Proof.
  revert k. induction frames as [|fr frames IH]; intros k.
  - exists 0%nat, []. change (images []) with (@nil byte). rewrite take_nil. split_and!; [done|by left|done].
  - rewrite images_cons. destruct (decide (length (frame_image fr) ≤ k)%nat) as [Hk|Hk].
    + destruct (IH (k - length (frame_image fr))%nat) as (m & torn & Ht & Hc & Hall).
      exists (S m), torn. cbn [take]. rewrite images_cons, <- app_assoc, <- Ht. split_and!.
      * rewrite take_app. by rewrite take_ge by lia.
      * destruct Hc as [?|(fr' & j & ? & ? & ?)]; [by left|]. right. exists fr', j. split_and!; try done.
        by apply list_elem_of_further.
      * rewrite length_app. intros. destruct Hall; [lia|]. simpl. split; [lia|done].
    + exists 0%nat, (take k (frame_image fr)). cbn [take]. split_and!.
      * by rewrite take_app_le by lia.
      * right. exists fr, k. split_and!; [apply list_elem_of_here|lia|done].
      * rewrite length_app. lia.
Qed.

(** A segment interrupted behind its [i]-th page image. *)
Definition partial_segment (s : Segment) (i : nat) : Segment :=
  mkSegment (sg_batch s) (sg_first s) (take i (sg_pages s)) false.

Lemma take_imap {A B} (f : nat → A → B) l i : take i (imap f l) = imap f (take i l).
Proof.
  revert f i. induction l as [|x l IH]; intros f [|i]; [done..|]. simpl. f_equal. apply IH.
Qed.

Lemma take_segments v segs m :
  Forall (λ s, sg_done s = true) segs →
  ∃ j part, take m (segments_frames v segs) = segments_frames v (take j segs ++ part) ∧
    (part = [] ∨ ∃ s i, segs !! j = Some s ∧ (1 ≤ i ≤ length (sg_pages s))%nat ∧ part = [partial_segment s i]) ∧
    ((length (segments_frames v segs) ≤ m)%nat → (length segs ≤ j)%nat ∧ part = []).
Proof.
  intros Hd. revert m. induction Hd as [|s segs Hs _ IH]; intros m.
  - exists 0%nat, []. change (segments_frames v []) with (@nil Frame). rewrite take_nil.
    split_and!; [done|by left|done].
  - rewrite segments_frames_cons. destruct (decide (length (sg_frames v s) ≤ m)%nat) as [Hm|Hm].
    + destruct (IH (m - length (sg_frames v s))%nat) as (j & part & Ht & Hc & Hall).
      exists (S j), part. cbn [take app]. rewrite segments_frames_cons, <- Ht. split_and!.
      * rewrite take_app. by rewrite take_ge by lia.
      * destruct Hc as [?|(s' & i & ? & ? & ?)]; [by left|]. right. by exists s', i.
      * rewrite length_app. intros. destruct Hall; [lia|]. simpl. split; [lia|done].
    + rewrite length_app. rewrite take_app_le by lia. unfold sg_frames in *. rewrite Hs in *.
      rewrite length_app in Hm. simpl in Hm.
      assert (length (page_frames v s) = length (sg_pages s)) by (unfold page_frames; apply length_imap).
      rewrite take_app_le by lia. destruct m as [|m].
      * exists 0%nat, []. split_and!; [done|by left|]. rewrite length_app. simpl. lia.
      * exists 0%nat, [partial_segment s (S m)]. split_and!.
        -- unfold segments_frames, sg_frames, page_frames at 2. simpl. rewrite !app_nil_r.
           unfold page_frames. apply take_imap.
        -- right. exists s, (S m). split_and!; [done|lia|lia|done].
        -- rewrite length_app. simpl. lia.
Qed.

Lemma wf_partial_segment s i :
  wf_segment s → (1 ≤ i ≤ length (sg_pages s))%nat → wf_segment (partial_segment s i).
Proof.
  intros (Hne & Hw & Hb & Hz & Hl & Hn & _) Hi. unfold wf_segment, sg_commit_lsn in *. simpl.
  assert (len (take i (sg_pages s)) ≤ len (sg_pages s)) by (unfold len; rewrite length_take; lia).
  split_and!; try done; try lia; [|by apply Forall_take].
  destruct (sg_pages s), i; simpl in *; lia || done.
Qed.

(** A prefix of a chain, and an interrupted segment behind it, is a chain. *)
Lemma chain_prefix lsn batch segs j part :
  chain lsn batch segs →
  (part = [] ∨ ∃ s i, segs !! j = Some s ∧ (1 ≤ i ≤ length (sg_pages s))%nat ∧ part = [partial_segment s i]) →
  chain lsn batch (take j segs ++ part) ∧ chain_lsn lsn (take j segs ++ part) ≤ chain_lsn lsn segs ∧
  chain_batch batch (take j segs ++ part) ≤ chain_batch batch segs ∧
  history_committed (take j segs ++ part) = history_committed (take j segs).
Proof.
  intros Hc Hp.
  assert (chain_lsn lsn segs = chain_lsn (chain_lsn lsn (take j segs)) (drop j segs)) as ->
    by by rewrite <- chain_lsn_app, take_drop.
  assert (chain_batch batch segs = chain_batch (chain_batch batch (take j segs)) (drop j segs)) as ->
    by by rewrite <- chain_batch_app, take_drop.
  rewrite <- (take_drop j segs) in Hc. apply chain_app in Hc as [Hc1 Hc2].
  rewrite chain_app, !chain_lsn_app, !chain_batch_app, history_committed_app.
  destruct Hp as [->|(s & i & Hs & Hi & ->)].
  - split_and!; [done|done|by eapply chain_lsn_mono|by eapply chain_batch_mono|]. apply app_nil_r.
  - rewrite (drop_S _ _ _ Hs) in *. destruct Hc2 as (H1 & H2 & H3 & H4).
    pose proof (wf_partial_segment s i H3 Hi) as Hw. simpl.
    assert (sg_last (partial_segment s i) ≤ sg_last s).
    { unfold sg_last, sg_commit_lsn; simpl. unfold len. rewrite length_take. destruct (sg_done s); lia. }
    apply chain_lsn_mono in H4 as ?. apply chain_batch_mono in H4 as ?.
    split_and!; try done; try lia. apply app_nil_r.
Qed.

(** The segments of a well-formed group continue any chain below them. *)
Lemma group_chain commits lsn batch l b :
  wf_group lsn batch commits → l < lsn → b < batch →
  chain l b (group_segments lsn commits) ∧
  (chain_lsn l (group_segments lsn commits) < U64_MAX ∨ commits = []) ∧
  (chain_batch b (group_segments lsn commits) < U64_MAX ∨ commits = []) ∧
  chain_lsn l (group_segments lsn commits) < group_lsn lsn commits ∧
  chain_batch b (group_segments lsn commits) = (if is_empty commits then b else batch + len commits - 1).
Proof.
  revert lsn batch l b. induction commits as [|c commits IH]; intros lsn batch l b.
  - simpl. intros _ Hl Hb. split_and!; [done|by right|by right|done|done].
  - intros (Hb & Hlsn & Hmax & Hbmax & Hseg & Hwf) Hl Hb'. cbn [group_segments].
    assert (Hlast : sg_last (commit_segment lsn c) = c_commit_lsn c) by done.
    destruct (IH _ _ (c_commit_lsn c) batch Hwf) as (C & L & B & G & BB); [lia|lia|].
    cbn [chain chain_lsn chain_batch]. rewrite Hlast. cbn [sg_first sg_batch commit_segment]. rewrite Hb.
    split_and!; try done.
    + left. destruct L as [L| ->]; [done|]. simpl. lia.
    + left. destruct B as [B| ->]; [done|]. simpl. lia.
    + rewrite BB, len_cons. cbn [is_empty]. destruct commits; simpl; [change (len []) with 0|]; lia.
Qed.

Lemma group_committed commits lsn batch :
  wf_group lsn batch commits → history_committed (group_segments lsn commits) = commit_batch <$> commits.
Proof.
  revert lsn batch. induction commits as [|c commits IH]; intros lsn batch; [done|].
  intros (Hb & Hlsn & _ & _ & _ & Hwf). cbn [group_segments].
  change (?s :: ?l) with ([s] ++ l) at 1. rewrite history_committed_app, (IH _ _ Hwf).
  unfold history_committed. rewrite filter_cons, filter_nil, decide_True by done.
  cbn. unfold commit_batch at 2, sg_batch_of, sg_commit_lsn. cbn. by rewrite Hlsn.
Qed.

Lemma take_group lsn commits j : take j (group_segments lsn commits) = group_segments lsn (take j commits).
Proof. revert lsn j. induction commits; intros lsn [|j]; simpl; try done. by f_equal. Qed.

Lemma wf_group_take lsn batch commits j : wf_group lsn batch commits → wf_group lsn batch (take j commits).
Proof. revert lsn batch j. induction commits; intros lsn batch [|j]; simpl; naive_solver. Qed.

Lemma length_group_segments lsn commits : length (group_segments lsn commits) = length commits.
Proof. revert lsn. induction commits; intros; simpl; auto. Qed.

Lemma group_segments_done lsn commits : Forall (λ s, sg_done s = true) (group_segments lsn commits).
Proof. revert lsn. induction commits; intros; simpl; constructor; done || auto. Qed.

(** Any prefix of a group's bytes is the bytes of a history that extends the
    old one by a prefix of the group's commits, with a torn frame behind. *)
Lemma interrupted_group v id start segs lsn batch commits k :
  history_ok v id start segs → wf_group lsn batch commits →
  chain_lsn start segs < lsn → chain_batch 0 segs < batch →
  let group := group_segments lsn commits in
  ∃ segs' torn n, history_ok v id start (segs ++ segs') ∧ torn_frame v torn ∧
    history_bytes v id start segs ++ take k (images (segments_frames v group)) =
      history_bytes v id start (segs ++ segs') ++ torn ∧
    history_committed (segs ++ segs') = history_committed segs ++ take n (commit_batch <$> commits) ∧
    ((length (images (segments_frames v group)) ≤ k)%nat → (length commits ≤ n)%nat).
Proof.
  intros (Hv & Hid & Hst & Hc & Hl & Hb) Hwf Hlsn Hbatch group.
  destruct (group_chain commits lsn batch _ _ Hwf Hlsn Hbatch) as (Gc & Gl & Gb & _ & _). fold group in Gc, Gl, Gb.
  destruct (take_images (segments_frames v group) k) as (m & torn & Ht & Hcase & Hall).
  destruct (take_segments v group m) as (j & part & Hj & Hpart & Hall2); [apply group_segments_done|].
  destruct (chain_prefix _ _ _ _ _ Gc Hpart) as (Pc & Pl & Pb & Pcom).
  exists (take j group ++ part), torn, j. split_and!.
  - unfold history_ok. rewrite chain_app, chain_lsn_app, chain_batch_app.
    pose proof (chain_lsn_mono _ _ _ Gc). pose proof (chain_batch_mono _ _ _ Gc).
    split_and!; try done.
    + destruct Gl as [?|Gl]; [lia|]. subst group. rewrite Gl in Pl |- *. simpl in *. lia.
    + destruct Gb as [?|Gb]; [lia|]. subst group. rewrite Gb in Pb |- *. simpl in *. lia.
  - destruct Hcase as [->|(fr & i & Hin & Hi & ->)]; [by left|]. right.
    assert (Hv' : v = WAL_FORMAT_VERSION ∨ v = LEGACY_WAL_FORMAT_VERSION) by tauto.
    pose proof (segments_frames_wf v _ _ _ Hv' Gc) as Hwfr. rewrite Forall_forall in Hwfr.
    exists fr, i. destruct (Hwfr fr Hin). done.
  - rewrite Ht, Hj. unfold history_bytes, history_frames. rewrite !images_cons, (segments_frames_app v segs), images_app.
    by rewrite <- !app_assoc.
  - rewrite history_committed_app, Pcom. f_equal. subst group. rewrite take_group.
    rewrite (group_committed _ lsn batch) by (by apply wf_group_take). by rewrite fmap_take.
  - intros Hk. destruct (Hall Hk) as [Hm _]. destruct (Hall2 Hm) as [Hjj _].
    subst group. by rewrite length_group_segments in Hjj.
Qed.

End crash.
