(* ===== verification/WalOpen.v ===== *)
(** * WalOpen: opening and recovering a log

    Opening a write-ahead log (wal.rs, WalLog::open_* and initialize_empty):
    what a reopened log contains after an intact history, a torn tail or a torn
    initialisation record, whatever faults the file reports meanwhile. *)
From S2P Require Import Prelude Core Crc Page Superblock DurableFile Wal WalCodec WalScan.
From S2P Require Import WalLog.

Local Open Scope Z_scope.


(** ** Opening a log *)

Section opening.
Context `{Crc32c} {F I : Type} `{DFL : DurableFileLaws F} `{FaultInjector I}.

(** A log whose file holds exactly the history [segs]. *)
Definition wal_at (w : WalLog F) (v : Z) (id : WalIdentity) (start : Lsn) (segs : list Segment) : Prop :=
  history_ok v id start segs ∧ w_identity w = id ∧ w_format_version w = v ∧
  w_history_start_lsn w = start ∧ contents (w_file w) = history_bytes v id start segs ∧
  w_committed w = history_committed segs ∧ w_next_batch_id w = chain_batch 0 segs + 1 ∧
  history_last start segs < w_next_lsn w.

(** ... and whose next LSN is behind the history it starts from, as
    [resume_after] ensures. *)
Definition wal_ready (w : WalLog F) (v : Z) (id : WalIdentity) (start : Lsn) (segs : list Segment) : Prop :=
  wal_at w v id start segs ∧ chain_lsn start segs < w_next_lsn w.

Lemma len_history_bytes_min v id start segs :
  len (init_payload v id start) + 52 ≤ len (history_bytes v id start segs).
Proof.
  unfold history_bytes, history_frames. rewrite images_cons, len_app, len_frame_image.
  pose proof (len_nonneg (images (segments_frames v segs))). unfold frame_length. simpl. lia.
Qed.

(** An intact log is never taken for a torn initialisation record. *)
Lemma intact_not_torn v id start hint segs torn f :
  history_ok v id start segs → contents f = history_bytes v id start segs ++ torn →
  len (contents f) ≤ U64_MAX → len (contents f) < INIT_FRAME_SIZE →
  reads f (is_torn_initialization_prefix id hint (len (contents f)) f) false.
Proof.
  intros (Hv & Hid & _) Hc Hu Hlt. pose proof (len_history_bytes_min v id start segs) as Hmin.
  pose proof (len_nonneg torn). pose proof (len_identity_image id start) as HI.
  assert (HL : len (contents f) = len (history_bytes v id start segs) + len torn) by (rewrite Hc, len_app; done).
  destruct Hv as [-> | [-> _]].
  { exfalso. unfold init_payload in Hmin. rewrite (proj2 (Z.eqb_neq _ _)) in Hmin by lia. lia. }
  unfold is_torn_initialization_prefix.
  eapply reads_bind.
  { apply reads_lift. unfold usize_try_from. by rewrite (proj2 (Z.leb_le _ _)) by lia. }
  intros f1 C1 _. eapply reads_bind; [by apply reads_lift, identity_payload_Ok|]. intros f2 C2 _.
  pose proof (len_identity_image id hint) as HI2.
  eapply reads_bind; [apply reads_lift, encode_frame_Ok; lia|]. intros f3 C3 _.
  set (fr := mkFrame _ _ _ _ _ _). assert (Hfl : len (frame_image fr) = 104) by (rewrite len_frame_image; unfold frame_length; simpl; lia).
  destruct (_ <=? _) eqn:E; [apply reads_ret|]. bool_props.
  assert (E3 : contents f3 = contents f) by congruence. pose proof (len_nonneg (contents f)).
  eapply reads_bind; [unfold wal_read_exact_at; apply reads_exact; eauto with dodb; rewrite ?E3; lia|].
  intros f4 C4 _. eapply reads_bind; [apply reads_lift, slice_Ok; lia|]. intros f5 C5 _.
  assert (bytes_eqb (sub (contents f3) 0 (0 + len (contents f))) (sub (frame_image fr) 0 (len (contents f))) = false) as ->;
    [|apply reads_ret].
  apply bool_decide_eq_false_2. intros Heq. apply (f_equal (λ l, sub l 4 6)) in Heq.
  assert (96 ≤ len (contents f)).
  { unfold init_payload in Hmin. rewrite Z.eqb_refl, len_sub in Hmin by lia. lia. }
  rewrite !sub_sub in Heq by lia. cbn [Z.add] in Heq. rewrite E3, Hc in Heq.
  unfold history_bytes, history_frames in Heq. rewrite images_cons in Heq.
  pose proof (header_image_fields (init_frame LEGACY_WAL_FORMAT_VERSION id start)) as (_ & F1 & _).
  pose proof (header_image_fields fr) as (_ & F2 & _).
  unfold frame_image in Heq. rewrite <- !app_assoc in Heq.
  rewrite !sub_app_l in Heq by (rewrite ?len_header_image; lia).
  change (0 + 4) with 4 in Heq. change (0 + 6) with 6 in Heq. rewrite F1, F2 in Heq.
  apply (f_equal from_le_bytes) in Heq. rewrite !from_u16 in Heq by (simpl; lia). simpl in Heq. lia.
Qed.

(** The log that a scan of the history [segs] opens. *)
Definition opened (v : Z) (id : WalIdentity) (start : Lsn) (segs : list Segment) (torn : Z) (f : F) : WalLog F :=
  let s := history_scan v id start segs in
  let report := mkScanReport (records_scanned (s_report s)) (committed_batches (s_report s))
                  (replayable_pages (s_report s)) torn in
  mkWal f id v (s_next_lsn s) (s_next_batch_id s) start (s_committed s) report 0 (replayable_pages report) 0 0.

Lemma opened_at v id start segs torn f :
  history_ok v id start segs → contents f = history_bytes v id start segs →
  wal_at (opened v id start segs torn f) v id start segs.
Proof. intros Hok Hc. unfold wal_at, opened; simpl. split_and!; try done. lia. Qed.

(** The check for a torn initialisation record, on an intact log. *)
Lemma torn_check v id start hint segs torn f (i : option I) :
  history_ok v id start segs → contents f = history_bytes v id start segs ++ torn →
  len (contents f) ≤ U64_MAX →
  let length := len (contents f) in
  let out := (if match usize_try_from length with Some length => length <? INIT_FRAME_SIZE | None => false end
       then open_file (is_torn_initialization_prefix id hint length)
       else ret false) (f, i) in
  ∃ f', out.2 = (f', i) ∧ (contents f' = contents f ∧ durable f' = durable f) ∧
    (out.1 = Ok false ∨ ∃ e, out.1 = Err e ∧ ¬ reliable f) ∧ (reliable f → reliable f').
Proof.
  intros Hok Hc Hu length out. subst out length. pose proof (len_nonneg (contents f)).
  unfold usize_try_from. rewrite (proj2 (Z.leb_le _ _)) by lia.
  destruct (_ <? INIT_FRAME_SIZE) eqn:E; bool_props; [|exists f; simpl; auto].
  destruct (intact_not_torn v id start hint segs torn f Hok Hc Hu E) as (Rc & Rd & Rr & Rl).
  unfold open_file, zoom; simpl. destruct (is_torn_initialization_prefix _ _ _ f) as [r f'].
  exists f'. simpl in *. auto.
Qed.

(** The truncation of the torn tail. *)
Definition truncate_tail (valid length : Z) : ST (F * option I) Error unit :=
  if valid <? length then
    do* hit "before_wal_tail_truncate" in
    do* open_file (set_len valid) in
    do* open_file (mapping_err (λ _, DurabilityFailure "WAL torn-tail truncation sync failed: {error}") sync_data) in
    hit "after_wal_tail_truncate"
  else ret tt.

Lemma truncate_tail_spec valid torn f i :
  len valid + len torn ≤ U64_MAX → contents f = valid ++ torn →
  let out := truncate_tail (len valid) (len (contents f)) (f, i) in
  (contents out.2.1 = contents f ∨ contents out.2.1 = valid) ∧
  (is_ok out.1 = true → contents out.2.1 = valid ∧ (durable f = contents f → durable out.2.1 = contents out.2.1)) ∧
  (reliable f → i = None → is_ok out.1 = true ∧ reliable out.2.1 ∧ out.2.2 = None).
Proof.
  intros Hu Hc. pose proof (len_nonneg valid). pose proof (len_nonneg torn). unfold truncate_tail.
  assert (HL : len (contents f) = len valid + len torn) by (rewrite Hc, len_app; done).
  assert (Hres : resize_bytes (len valid) (contents f) = valid).
  { rewrite resize_shrink, Hc, to_nat_len by lia. apply take_app_length. }
  destruct (_ <? _) eqn:E; bool_props.
  2: { simpl. assert (len torn = 0) as Ht by lia. apply len_0_nil in Ht as ->.
       rewrite app_nil_r in Hc. simpl. auto. }
  unfold bind, open_file, zoom, mapping_err. cbn [fst snd].
  assert (Hhit : ∃ r i', hit (S:=F) "before_wal_tail_truncate" (f, i) = (r, (f, i')) ∧ (i = None → r = Ok tt ∧ i' = None)).
  { destruct i as [j|]; simpl; [|by exists (Ok tt), None].
    destruct (injector_hit _ j) as [r j']. by exists r, (Some j'). }
  destruct Hhit as (r1 & i1 & -> & Hn1).
  destruct r1 as [[]| | |]; cbn [fst snd]; try (split_and!; [by left|done|naive_solver]).
  pose proof (set_len_law f (len valid) ltac:(lia)) as L1. pose proof (reliable_set_len f (len valid)) as R1.
  destruct (set_len (len valid) f) as [r2 f2]; cbn [fst snd] in *. rewrite Hres in L1.
  destruct r2 as [[]|e2| |]; cbn [fst snd]; try (by destruct L1).
  2: { split_and!; [tauto|done|]. intros Hr _. by destruct (R1 Hr ltac:(lia)). }
  pose proof (sync_data_law f2) as L2. pose proof (reliable_sync f2) as R2.
  destruct (sync_data f2) as [r3 f3]; cbn [fst snd] in *. destruct L1 as [_ L1], L2 as [L2c L2].
  rewrite L1 in L2, L2c.
  destruct r3 as [[]|e3| |]; cbn [fst snd map_err]; try done.
  2: { split_and!; [by right|done|]. intros Hr _. destruct (R1 Hr ltac:(lia)) as [Hr2 _]. by destruct (R2 Hr2). }
  destruct i1 as [j|]; simpl.
  - destruct (injector_hit _ j) as [r4 j4]; simpl. split_and!; [by right|intros _; split; [done|congruence]|]. intros _ Hi. by destruct (Hn1 Hi).
  - split_and!; [by right|intros _; split; [done|congruence]|]. intros Hr _. destruct (R1 Hr ltac:(lia)) as [Hr2 _]. by destruct (R2 Hr2).
Qed.

(** Opening the bytes of a history, whatever torn frame is behind it: the log is
    truncated to the history, which it reports.  An interrupted open leaves
    the file as it was, or truncated: it can be opened again. *)
Definition open_post v id start segs (torn : list byte) (f : F) (i : option I)
    (out : Result Error (WalLog F) * (F * option I)) : Prop :=
  (contents out.2.1 = contents f ∨ contents out.2.1 = history_bytes v id start segs) ∧
  (∀ w, out.1 = Ok w → w = opened v id start segs (len torn) out.2.1 ∧
     contents out.2.1 = history_bytes v id start segs ∧ (durable f = contents f → durable out.2.1 = contents out.2.1)) ∧
  (reliable f → i = None → is_ok out.1 = true ∧ reliable out.2.1 ∧ out.2.2 = None).

Lemma open_history v id start hint segs torn f (i : option I) :
  history_ok v id start segs → torn_frame v torn →
  contents f = history_bytes v id start segs ++ torn → len (contents f) ≤ U64_MAX →
  open_post v id start segs torn f i (open_with_fault_injector_and_start_lsn id hint (f, i)).
Proof.
  intros Hok Ht Hc Hu. pose proof (len_history_bytes_min v id start segs) as Hmin.
  pose proof (len_nonneg (init_payload v id start)). pose proof (len_nonneg torn).
  assert (HL : len (contents f) = len (history_bytes v id start segs) + len torn) by (rewrite Hc, len_app; done).
  unfold open_with_fault_injector_and_start_lsn. rewrite bind_eq. unfold open_file at 1, zoom at 1. cbn [fst snd].
  destruct (reads_len f) as (_ & _ & Hlen & _). cbn [fst snd] in Hlen.
  destruct Hlen as [->|(e & -> & Hnr)]; cbn [fst snd].
  2: { unfold open_post; cbn [fst snd]; split_and!; [by left|intros ? ?; discriminate|]. intros Hr. by apply Hnr in Hr. }
  rewrite (proj2 (Z.eqb_neq _ _)) by lia.
  destruct (torn_check v id start hint segs torn f i Hok Hc Hu) as (f1 & Ho & [C1 D1] & Hr1 & Hl1).
  rewrite bind_eq. match type of Ho with snd ?m = _ => destruct m as [r1 s1] end.
  cbn [fst snd] in *. subst s1.
  destruct Hr1 as [->|(e & -> & Hnr)]; cbn [fst snd].
  2: { unfold open_post; cbn [fst snd]; split_and!; [by left|intros ? ?; discriminate|]. intros Hr. by apply Hnr in Hr. }
  rewrite <- C1 in Hc, Hu. destruct (scan_history v id start segs torn f1 Hok Ht Hc Hu) as (C2 & D2 & Hr2 & Hl2).
  rewrite bind_eq. unfold open_file at 1, zoom at 1. cbn [fst snd].
  destruct (scan_wal id f1) as [r2 f2]. cbn [fst snd] in *.
  destruct Hr2 as [->|(e & -> & Hnr)]; cbn [fst snd].
  2: { unfold open_post; cbn [fst snd]; split_and!; [left; congruence|intros ? ?; discriminate|]. intros Hr. by apply Hl1, Hnr in Hr. }
  rewrite <- C2 in Hc, Hu. rewrite <- C1, <- C2 in HL |- *.
  assert (Hroom : len (history_bytes v id start segs) + len torn ≤ U64_MAX) by (rewrite <- HL; done).
  pose proof (truncate_tail_spec (history_bytes v id start segs) torn f2 i Hroom Hc) as (T1 & T2 & T3).
  rewrite bind_eq. change (if _ <? _ then _ else _) with
    (truncate_tail (len (history_bytes v id start segs)) (len (contents f2))).
  destruct (truncate_tail _ _ (f2, i)) as [r3 [f3 i3]]. cbn [fst snd] in *.
  destruct r3 as [[]| | |].
  2-4: unfold open_post; cbn [fst snd]; split_and!; [destruct T1; [left; congruence|by right]|intros ? ?; discriminate|]; intros Hr Hi; destruct (T3 (Hl2 (Hl1 Hr)) Hi); done.
  unfold bind, lift, usize_try_from. cbn [s_valid_length history_scan].
  replace (len (contents f2) - len (history_bytes v id start segs)) with (len torn) by lia.
  rewrite (proj2 (Z.leb_le _ _)) by lia. cbn [ok_or]. unfold gets, ret. cbn [fst snd].
  unfold open_post; cbn [fst snd]; split_and!; [destruct T1; [left; congruence|by right]| |].
  - intros w [= <-]. destruct (T2 eq_refl) as [T2c T2d]. split_and!; [done|done|]. intros Hd. apply T2d. congruence.
  - intros Hr Hi. destruct (T3 (Hl2 (Hl1 Hr)) Hi). done.
Qed.

(** ** A new log *)

Definition init_image (id : WalIdentity) (start : Lsn) : list byte :=
  frame_image (init_frame WAL_FORMAT_VERSION id start).

Lemma history_bytes_nil id start : history_bytes WAL_FORMAT_VERSION id start [] = init_image id start.
Proof. unfold history_bytes, history_frames. rewrite images_cons. apply app_nil_r. Qed.

Lemma len_init_image id start : len (init_image id start) = INIT_FRAME_SIZE.
Proof.
  unfold init_image. rewrite len_frame_image. unfold frame_length, init_frame, init_payload; simpl.
  rewrite len_identity_image. lia.
Qed.

Lemma history_ok_nil id start :
  wf_identity id → 0 ≤ start < U64_MAX → history_ok WAL_FORMAT_VERSION id start [].
Proof. intros. unfold history_ok; simpl. split_and!; try done; [by left|lia..]. Qed.

(** Initialising leaves a prefix of the initialisation record, all of it when it
    returns. *)
Definition init_post id start f (i : option I) (out : Result Error (WalLog F) * (F * option I)) : Prop :=
  (∃ k, contents out.2.1 = take k (init_image id start)) ∧
  (∀ w, out.1 = Ok w → wal_ready w WAL_FORMAT_VERSION id start [] ∧ w_file w = out.2.1 ∧
     durable out.2.1 = contents out.2.1) ∧
  (reliable f → is_ok out.1 = true ∧ reliable out.2.1) ∧ out.2.2 = i.

Lemma initialize_empty_spec id start f i :
  wf_identity id → 0 ≤ start < U64_MAX → contents f = [] →
  init_post id start f i (initialize_empty id start (f, i)).
Proof.
  intros Hid Hst Hc. unfold initialize_empty, checked_add. rewrite (proj2 (Z.leb_le _ _)) by lia.
  set (w0 := mkWal f id _ _ _ _ _ _ _ _ _ _).
  rewrite bind_eq. unfold lift at 1. rewrite identity_payload_Ok by done.
  pose proof (append_frame_appends (I:=I) (w0, None) WAL_FORMAT_VERSION RInit 0 0 0 (identity_image id start) eq_refl) as A.
  pose proof (len_init_image id start) as HL. unfold init_image in HL. rewrite len_frame_image in HL.
  destruct A as (K & D & (k & C & O) & _ & L).
  { rewrite len_identity_image. lia. }
  { change (wfile (w0, None)) with f. rewrite Hc, len_nil.
    change (mkFrame _ _ _ _ _ _) with (init_frame WAL_FORMAT_VERSION id start). rewrite HL. lia. }
  change (mkFrame _ _ _ _ _ _) with (init_frame WAL_FORMAT_VERSION id start) in *.
  fold (init_image id start) in *. rewrite bind_eq.
  destruct (append_frame _ _ _ _ _ (w0, None)) as [r [w1 i1]]. cbn [fst snd] in *.
  unfold wfile in *. cbn [fst snd] in *. change (w_file w0) with f in *. rewrite Hc in C. cbn [app] in C.
  destruct r as [x| | |].
  2-4: unfold init_post; cbn [fst snd]; split_and!; [by exists k|intros ? ?; discriminate| |done];
    intros Hr; destruct (L Hr eq_refl) as (? & _); done.
  destruct (O x eq_refl) as [-> Hk]. rewrite take_ge in C by done.
  rewrite bind_eq. unfold on_file, zoom, mapping_err. cbn [fst snd].
  pose proof (sync_data_law (w_file w1)) as S. pose proof (reliable_sync (w_file w1)) as R.
  destruct (sync_data (w_file w1)) as [r2 f2]. cbn [fst snd] in *. destruct S as [Sc Sd].
  assert (Hfull : contents f2 = take (length (init_image id start)) (init_image id start)).
  { rewrite Sc, C. by rewrite take_ge. }
  destruct r2 as [[]|e| |]; cbn [map_err]; try done.
  2: { unfold init_post; cbn [fst snd w_file set_w_file]. split_and!; [by eexists|intros ? ?; discriminate| |done].
       intros Hr. destruct (L Hr eq_refl) as (_ & Hr1 & _). by destruct (R Hr1). }
  unfold bind, modify_wal, modify, wal_get, gets. cbn -[init_post].
  unfold init_post; cbn [fst snd w_file set_w_file]. split_and!; [by eexists| | |done].
  - intros w [= <-]. split_and!; [|done|congruence].
    destruct K as ((K1 & K2 & K3 & K4 & K5 & K6 & _ & _) & _). cbn in K1, K2, K3, K4, K5, K6.
    assert (Hb : contents f2 = history_bytes WAL_FORMAT_VERSION id start []) by (rewrite history_bytes_nil; congruence).
    pose proof (history_ok_nil id start Hid Hst).
    unfold wal_ready, wal_at. split_and!; try done;
      cbn [w_identity w_format_version w_next_lsn w_next_batch_id w_history_start_lsn w_committed w_file
           set_w_file set_w_sync_count set_w_report chain_batch history_last chain_lsn];
      first [congruence | rewrite K3; lia | rewrite K4; lia].
  - intros Hr. destruct (L Hr eq_refl) as (_ & Hr1 & _). by destruct (R Hr1).
Qed.

(** A torn initialisation record is recognised. *)
Lemma torn_init_recognised id start f k :
  wf_identity id → contents f = take k (init_image id start) → len (contents f) < INIT_FRAME_SIZE →
  reads f (is_torn_initialization_prefix id start (len (contents f)) f) true.
Proof.
  intros Hid Hc Hlt. pose proof (len_nonneg (contents f)).
  pose proof (len_init_image id start) as HL. unfold is_torn_initialization_prefix.
  eapply reads_bind.
  { apply reads_lift. unfold usize_try_from. by rewrite (proj2 (Z.leb_le _ _)) by lia. }
  intros f1 C1 _. eapply reads_bind; [by apply reads_lift, identity_payload_Ok|]. intros f2 C2 _.
  pose proof (len_identity_image id start) as HI.
  eapply reads_bind; [apply reads_lift, encode_frame_Ok; lia|]. intros f3 C3 _.
  change (mkFrame _ _ _ _ _ _) with (init_frame WAL_FORMAT_VERSION id start).
  fold (init_image id start). rewrite (proj2 (Z.leb_gt _ _)) by lia.
  assert (E3 : contents f3 = contents f) by congruence.
  eapply reads_bind; [unfold wal_read_exact_at; apply reads_exact; eauto with dodb; rewrite ?E3; lia|].
  intros f4 C4 _. eapply reads_bind; [apply reads_lift, slice_Ok; lia|]. intros f5 C5 _.
  rewrite E3, Z.add_0_l, sub_all. unfold sub. change (Z.to_nat 0) with 0%nat.
  rewrite drop_0, Z.sub_0_r, to_nat_len.
  assert (Htk : take (length (contents f)) (init_image id start) = contents f).
  { rewrite Hc at 1. rewrite length_take.
    destruct (decide (k ≤ length (init_image id start))%nat); [by rewrite Nat.min_l|].
    rewrite Nat.min_r, Hc, !take_ge by lia. done. }
  rewrite Htk. rewrite bytes_eqb_refl. apply reads_ret.
Qed.

(** Emptying the file of a torn initialisation record. *)
Definition drop_torn_init : ST (F * option I) Error unit :=
  do* open_file (mapping_err (λ _, RecoveryFailure "WAL torn INIT reset failed: {error}") (set_len 0)) in
  open_file (mapping_err (λ _, DurabilityFailure "WAL torn INIT reset sync failed: {error}") sync_data).

Lemma drop_torn_init_spec f i :
  let out := drop_torn_init (f, i) in
  (contents out.2.1 = contents f ∨ contents out.2.1 = []) ∧ out.2.2 = i ∧
  (is_ok out.1 = true → contents out.2.1 = []) ∧ (reliable f → is_ok out.1 = true ∧ reliable out.2.1).
Proof.
  assert (Hres : resize_bytes 0 (contents f) = []).
  { rewrite resize_shrink; [done|]. apply len_nonneg. }
  unfold drop_torn_init, bind, open_file, zoom, mapping_err. cbn [fst snd].
  pose proof (set_len_law f 0 ltac:(lia)) as L1. pose proof (reliable_set_len f 0) as R1.
  destruct (set_len 0 f) as [r1 f1]; cbn [fst snd] in *. rewrite Hres in L1. destruct L1 as [_ L1].
  destruct r1 as [[]|e1| |]; cbn [fst snd map_err]; try done.
  2: { split_and!; try done. intros Hr. by destruct (R1 Hr ltac:(lia)). }
  pose proof (sync_data_law f1) as L2. pose proof (reliable_sync f1) as R2.
  destruct (sync_data f1) as [r2 f2]; cbn [fst snd] in *. destruct L2 as [L2c L2]. rewrite L1 in L2c.
  destruct r2 as [[]|e2| |]; cbn [fst snd map_err]; try done; split_and!; try done; try (by right);
    intros Hr; destruct (R1 Hr ltac:(lia)) as [Hr1 _]; by destruct (R2 Hr1).
Qed.

(** An empty file, or one that holds a torn initialisation record, opens as a
    new log. *)
Lemma open_fresh id start f i k :
  wf_identity id → 0 ≤ start < U64_MAX →
  contents f = take k (init_image id start) → len (contents f) < INIT_FRAME_SIZE →
  init_post id start f i (open_with_fault_injector_and_start_lsn id start (f, i)).
Proof.
  intros Hid Hst Hc Hlt. pose proof (len_nonneg (contents f)).
  assert (Hfail : ∀ (r : Result Error (WalLog F)) f', is_ok r = false → contents f' = contents f →
    (reliable f → False) → init_post id start f i (r, (f', i))).
  { intros r f' Hr Hf' Hnr. unfold init_post; cbn [fst snd]. split_and!; [exists k; congruence| |done|done].
    intros w ->. done. }
  unfold open_with_fault_injector_and_start_lsn. rewrite bind_eq. unfold open_file at 1, zoom at 1. cbn [fst snd].
  destruct (reads_len f) as (_ & _ & Hlen & _). cbn [fst snd] in Hlen.
  destruct Hlen as [->|(e & -> & Hnr)]; cbn [fst snd]; [|by apply Hfail].
  destruct (len (contents f) =? 0) eqn:E0; bool_props.
  { apply initialize_empty_spec; try done. by apply len_0_nil. }
  unfold usize_try_from. rewrite (proj2 (Z.leb_le _ _)) by lia. rewrite (proj2 (Z.ltb_lt _ _)) by lia.
  rewrite bind_eq. unfold open_file at 1, zoom at 1. cbn [fst snd].
  destruct (torn_init_recognised id start f k Hid Hc Hlt) as (C1 & _ & Hr1 & Hl1).
  destruct (is_torn_initialization_prefix _ _ _ f) as [r1 f1]. cbn [fst snd] in *.
  destruct Hr1 as [->|(e & -> & Hnr)]; cbn [fst snd]; [|by apply Hfail].
  pose proof (drop_torn_init_spec f1 i) as (D1 & D2 & D3 & D4).
  assert (Hassoc : ∀ kont : ST (F * option I) Error (WalLog F),
    (do* open_file (mapping_err (λ _, RecoveryFailure "WAL torn INIT reset failed: {error}") (set_len 0)) in
     do* open_file (mapping_err (λ _, DurabilityFailure "WAL torn INIT reset sync failed: {error}") sync_data) in
     kont) (f1, i) = bind drop_torn_init (λ _, kont) (f1, i)).
  { intros kont. unfold drop_torn_init, bind. destruct (open_file _ (f1, i)) as [[] ?]; done. }
  rewrite Hassoc, bind_eq. clear Hassoc.
  destruct (drop_torn_init (f1, i)) as [r2 [f2 i2]]. cbn [fst snd] in *. subst i2.
  destruct r2 as [[]| | |].
  - pose proof (initialize_empty_spec id start f2 i Hid Hst ltac:(by apply D3)) as (I1 & I2 & I3 & I4).
    unfold init_post. split_and!; try done. intros Hr. by apply I3, D4, Hl1.
  - unfold init_post; cbn [fst snd]. split_and!; [|intros ? ?; discriminate| |done].
    + destruct D1 as [->| ->]; [exists k; congruence|by exists 0%nat].
    + intros Hr. by destruct (D4 (Hl1 Hr)).
  - unfold init_post; cbn [fst snd]. split_and!; [|intros ? ?; discriminate| |done].
    + destruct D1 as [->| ->]; [exists k; congruence|by exists 0%nat].
    + intros Hr. by destruct (D4 (Hl1 Hr)).
  - unfold init_post; cbn [fst snd]. split_and!; [|intros ? ?; discriminate| |done].
    + destruct D1 as [->| ->]; [exists k; congruence|by exists 0%nat].
    + intros Hr. by destruct (D4 (Hl1 Hr)).
Qed.

End opening.
