(* ===== verification/WalSafety.v ===== *)
(** * WalSafety: the promises of the write-ahead log

    [append_group] is atomic and durable per commit, [open...] recovers exactly
    the committed batches, [reset] empties the log without ever losing the
    ability to open it (wal.rs).  All of it holds for any file that keeps the
    [DurableFileLaws], with faults injected at any operation and a crash at any
    byte of what was being written. *)

From S2P Require Import Prelude Core Crc Page Superblock DurableFile Crashable Wal WalCodec WalScan WalLog WalOpen.

Section safety.
Context `{Crc32c} {F I : Type} `{DFL : DurableFileLaws F} `{FaultInjector I}.

(** The bytes a group appends to the log. *)
Definition group_bytes (w : WalLog F) (commits : list WalCommit) : list byte :=
  images (segments_frames (w_format_version w) (group_segments (w_next_lsn w) commits)).

(** A group the log can take: its commits continue the log's LSNs and batch
    ids, the file has room for it, and the counters do not overflow. *)
Definition appendable (w : WalLog F) (append_elapsed sync_elapsed : Z) (commits : list WalCommit) : Prop :=
  commits ≠ [] ∧ wf_group (w_next_lsn w) (w_next_batch_id w) commits ∧
  len (contents (w_file w)) + len (group_bytes w commits) ≤ U64_MAX ∧
  counters_ok w append_elapsed sync_elapsed commits.

Lemma ready_extends v id start segs w w' commits :
  wal_ready w v id start segs → wf_group (w_next_lsn w) (w_next_batch_id w) commits → commits ≠ [] →
  contents (w_file w') = contents (w_file w) ++ group_bytes w commits →
  w_identity w' = w_identity w → w_format_version w' = w_format_version w →
  w_history_start_lsn w' = w_history_start_lsn w →
  w_committed w' = w_committed w ++ (commit_batch <$> commits) →
  w_next_lsn w' = group_lsn (w_next_lsn w) commits → w_next_batch_id w' = w_next_batch_id w + len commits →
  wal_ready w' v id start (segs ++ group_segments (w_next_lsn w) commits).
Proof.
  intros ((Hok & Hid & Hv & Hst & Hb & Hcom & Hbatch & Hlast) & Hlsn) Hwf Hne Hc Ei Ev Es Ec El Eb.
  assert (Hbb : chain_batch 0 segs < w_next_batch_id w) by lia.
  destruct (group_chain commits _ _ _ _ Hwf Hlsn Hbb) as (Gc & Gl & Gb & G & BB).
  assert (Hemp : is_empty commits = false) by by destruct commits.
  rewrite Hemp in BB. destruct Gl as [Gl|?]; [|done]. destruct Gb as [Gb|?]; [|done].
  assert (Hnn : segs ++ group_segments (w_next_lsn w) commits ≠ []).
  { intros [_ E]%app_nil. by destruct commits. }
  assert (Hhl : history_last start (segs ++ group_segments (w_next_lsn w) commits) =
    chain_lsn (chain_lsn start segs) (group_segments (w_next_lsn w) commits)).
  { unfold history_last. rewrite <- chain_lsn_app. by destruct (segs ++ _). }
  unfold wal_ready, wal_at. rewrite Hhl, chain_lsn_app, chain_batch_app, El. split_and!; try congruence.
  - destruct Hok as (? & ? & ? & ? & ? & ?). unfold history_ok.
    rewrite chain_app, chain_lsn_app, chain_batch_app. done.
  - rewrite Hc, Hb. unfold group_bytes, history_bytes, history_frames. rewrite Hv.
    rewrite !images_cons, segments_frames_app, images_app. by rewrite <- app_assoc.
  - rewrite Ec, Hcom, history_committed_app. f_equal. symmetry. by eapply group_committed.
  - rewrite Eb, BB. lia.
Qed.

(** What [append_group] does to an intact log: it appends a prefix of the
    group's bytes, all of them, synced, when it returns. *)
Lemma append_group_spec v id start segs ta ts commits (s : WalLog F * option I) :
  wal_ready s.1 v id start segs → appendable s.1 ta ts commits →
  let out := append_group ta ts commits s in
  (∃ k, contents (w_file out.2.1) = contents (w_file s.1) ++ take k (group_bytes s.1 commits)) ∧
  (∀ reports, out.1 = Ok reports →
     reports = group_reports v (w_next_lsn s.1) commits ∧
     contents (w_file out.2.1) = contents (w_file s.1) ++ group_bytes s.1 commits ∧
     durable (w_file out.2.1) = contents (w_file out.2.1) ∧
     wal_ready out.2.1 v id start (segs ++ group_segments (w_next_lsn s.1) commits) ∧
     w_next_lsn out.2.1 = group_lsn (w_next_lsn s.1) commits ∧
     w_next_batch_id out.2.1 = w_next_batch_id s.1 + len commits) ∧
  (reliable (w_file s.1) → s.2 = None → is_ok out.1 = true ∧ reliable (w_file out.2.1) ∧ out.2.2 = None).
Proof.
  intros Hready (Hne & Hwf & Hroom & Hcnt). unfold append_group.
  assert (Hv : w_format_version s.1 = v) by apply Hready.
  assert (Hemp : is_empty commits = false) by by destruct commits.
  rewrite Hemp. cbn [negb]. rewrite bind_eq.
  unfold group_bytes in *. rewrite Hv in *.
  destruct (write_group_appends v ta ts commits s Hv Hwf Hroom Hcnt) as (K & D & (k & C & O) & _ & L).
  destruct (write_group ta commits s) as [r s1]. unfold wfile in *. cbn [fst snd] in *.
  destruct r as [g|e| |]; cbn [fst snd].
  2-4: split_and!; [by exists k|intros ? ?; discriminate|]; intros Hr Hi; by destruct (L Hr Hi).
  destruct (O g eq_refl) as [-> Hk]. rewrite take_ge in C by done. rewrite bind_eq.
  pose proof (sync_group_spec ts s1) as (K2 & C2 & D2 & L2). unfold wfile in *.
  assert (Hfull : ∀ f', contents f' = contents (w_file s1.1) → ∃ k, contents f' = contents (w_file s.1) ++
    take k (images (segments_frames v (group_segments (w_next_lsn s.1) commits)))).
  { intros f' ->. exists (length (images (segments_frames v (group_segments (w_next_lsn s.1) commits)))).
    by rewrite firstn_all, C. }
  destruct K as (K & Ks1 & Ks2).
  assert (L2' : reliable (w_file s.1) → s.2 = None → (sync_group ts s1).1 = Ok () ∧
      reliable (w_file (sync_group ts s1).2.1) ∧ (sync_group ts s1).2.2 = None).
  { intros Hr Hi. destruct (L Hr Hi) as (_ & Hr1 & Hi1). destruct Hcnt as (?&?&?&?&?&?&?&_).
    destruct L2 as (? & ? & ?); try done; try congruence; lia. }
  destruct (sync_group ts s1) as [r2 s2]. cbn [fst snd] in *.
  destruct r2 as [[]|e| |]; cbn [fst snd].
  2-4: split_and!; [by apply Hfull|intros ? ?; discriminate|]; intros Hr Hi; by destruct (L2' Hr Hi).
  set (g := group_progress _ _ _).
  pose proof (publish_group_published commits g s2) as (P1 & P2 & P3 & P4 & P5 & P6 & P7 & P8).
  assert (Hcnt2 : report_counters_ok s2.1 commits → (publish_group commits g s2).1 = Ok (g_reports g))
    by apply publish_group_Ok.
  unfold wfile in *. destruct (publish_group commits g s2) as [r3 s3]. cbn [fst snd] in *.
  unfold keeps_index in K, K2. destruct K as (A1 & A2 & A3 & A4 & A5 & A6 & A7 & A8).
  destruct K2 as (B1 & B2 & B3 & B4 & B5 & B6 & B7 & B8).
  assert (Hr3 : r3 = Ok (g_reports g)).
  { apply Hcnt2. destruct Hcnt as (_ & _ & _ & _ & _ & _ & _ & Hcnt). unfold report_counters_ok in *.
    rewrite B7, B8, A7, A8. exact Hcnt. }
  assert (Hfin : contents (w_file s3.1) = contents (w_file s1.1)) by congruence.
  split_and!; [by apply Hfull| |].
  - intros reports E. subst r3. injection E as <-. split_and!; [done|congruence|rewrite P1, C2; by apply D2| |done|done].
    eapply ready_extends; try done; unfold group_bytes; try congruence. by rewrite P6, B6, A6.
  - intros Hr Hi. subst r3. split; [done|]. rewrite P1, P2. by apply L2'.
Qed.

(** ** Group commit *)

(** What the log is after a crash during or after [append_group]: reopened, it
    returns the old batches and a prefix of the new ones. *)
Lemma reopen_after_crash v id start segs lsn batch commits hint (f : F) k :
  history_ok v id start segs → wf_group lsn batch commits →
  chain_lsn start segs < lsn → chain_batch 0 segs < batch →
  contents f = history_bytes v id start segs ++ take k (images (segments_frames v (group_segments lsn commits))) →
  len (contents f) ≤ U64_MAX → reliable f →
  ∃ w f' segs' n, open_with_fault_injector_and_start_lsn (I:=I) id hint (f, None) = (Ok w, (f', None)) ∧
    wal_at w v id start segs' ∧ w_file w = f' ∧ reliable f' ∧
    w_committed w = history_committed segs ++ take n (commit_batch <$> commits) ∧
    ((length (images (segments_frames v (group_segments lsn commits))) ≤ k)%nat → (length commits ≤ n)%nat) ∧
    (durable f = contents f → durable f' = contents f') ∧ len (contents f') ≤ len (contents f).
Proof.
  intros Hok Hwf Hlsn Hb Hc Hu Hr.
  destruct (interrupted_group v id start segs lsn batch commits k Hok Hwf Hlsn Hb)
    as (segs' & torn & n & Hok' & Ht & Hbytes & Hcom & Hall).
  rewrite Hbytes in Hc.
  pose proof (open_history (I:=I) v id start hint _ torn f None Hok' Ht Hc Hu) as (_ & O2 & O3).
  destruct (O3 Hr eq_refl) as (Hi & Hrel & Hinj).
  destruct (open_with_fault_injector_and_start_lsn id hint (f, None)) as [r [f' i']]. cbn [fst snd] in *.
  destruct r as [w| | |]; cbn [is_ok] in Hi; try discriminate Hi. subst i'. destruct (O2 w eq_refl) as (-> & Hf' & Hd').
  exists (opened v id start (segs ++ segs') (len torn) f'), f', (segs ++ segs'), n.
  split_and!; [reflexivity|by apply opened_at|reflexivity|exact Hrel|exact Hcom|exact Hall|exact Hd'|].
  rewrite Hf', Hc, len_app. pose proof (len_nonneg torn). lia.
Qed.

Lemma resume_after_ready v id start segs checkpoint_lsn (s : WalLog F * option I) :
  wal_at s.1 v id start segs → start ≤ checkpoint_lsn < U64_MAX →
  ∃ w, resume_after checkpoint_lsn s = (Ok tt, (w, s.2)) ∧ wal_ready w v id start segs ∧
    w_committed w = w_committed s.1 ∧ w_file w = w_file s.1 ∧ checkpoint_lsn < w_next_lsn w ∧ w_next_lsn s.1 ≤ w_next_lsn w.
Proof.
  intros (Hok & Hid & Hv & Hst & Hb & Hcom & Hbatch & Hlast) Hc.
  assert (Hlsn : chain_lsn start segs = history_last start segs ∨ chain_lsn start segs = start).
  { destruct segs; [by right|by left]. }
  unfold resume_after, bind, lift, checked_add. rewrite (proj2 (Z.leb_le _ _)) by lia. cbn [ok_or].
  unfold modify_wal, modify. destruct s as [w i]. cbn [fst snd] in *.
  destruct (w_next_lsn w <? checkpoint_lsn + 1) eqn:E; bool_props; eexists; split; try done;
    unfold wal_ready, wal_at; simpl; split_and!; try done; lia.
Qed.

(** C19. A group of commits is atomic and durable.  Append a well-formed group to
    an intact log, with any fault from the file or the injector, then crash so
    that any prefix of what was being written survives behind the old log.
    Opening what is left always succeeds and returns every old batch and a
    prefix of the group's batches, whole batches only; when [append_group]
    had returned, everything it wrote was durable, and the whole group is
    returned. *)
Theorem append_group_crash_atomic v id start segs ta ts commits (s : WalLog F * option I) hint (f : F) :
  wal_ready s.1 v id start segs → appendable s.1 ta ts commits →
  let out := append_group ta ts commits s in
  contents (w_file s.1) `prefix_of` contents f → contents f `prefix_of` contents (w_file out.2.1) → reliable f →
  ∃ w f' segs' n, open_with_fault_injector_and_start_lsn (I:=I) id hint (f, None) = (Ok w, (f', None)) ∧
    wal_at w v id start segs' ∧ w_file w = f' ∧
    w_committed w = w_committed s.1 ++ take n (commit_batch <$> commits) ∧
    (is_ok out.1 = true → durable (w_file out.2.1) = contents (w_file out.2.1) ∧
       (contents f = durable (w_file out.2.1) → (length commits ≤ n)%nat)).
Proof.
  intros Hready Happ out [t Ht] [u Hu] Hr.
  destruct (append_group_spec v id start segs ta ts commits s Hready Happ) as ((k & Hk) & Hok & _).
  fold out in Hk, Hok. destruct Happ as (Hne & Hwf & Hroom & _).
  destruct Hready as ((Hh & Hid & Hv & Hst & Hb & Hcom & Hbatch & Hlast) & Hlsn).
  unfold group_bytes in *. rewrite Hv in *. set (g := images _) in *.
  assert (Htg : t = take (length t) g).
  { rewrite Hk, Ht, <- app_assoc in Hu. apply app_inv_head in Hu.
    assert (t `prefix_of` g) as [u' ->]; [|by rewrite take_app_length].
    etrans; [by exists u|]. apply prefix_take. }
  assert (Hlen : len (contents f) ≤ U64_MAX).
  { rewrite Ht, Htg, len_app. unfold len in *. rewrite length_take. lia. }
  rewrite Htg, Hb in Ht. assert (Hbb : chain_batch 0 segs < w_next_batch_id s.1) by lia.
  destruct (reopen_after_crash v id start segs _ _ commits hint f _ Hh Hwf Hlsn Hbb Ht Hlen Hr)
    as (w & f' & segs' & n & Ho & Hat & Hf' & _ & Hcw & Hn & _ & _).
  exists w, f', segs', n. rewrite Hcom. split_and!; try done. intros Hokr.
  destruct out.1 as [reports| | |] eqn:E; try done. destruct (Hok _ eq_refl) as (_ & Hc & Hd & _).
  split; [done|]. intros Hfd. apply Hn. rewrite Hd, Hc, Hb, Ht in Hfd. apply app_inv_head in Hfd.
  apply (f_equal length) in Hfd. rewrite length_take in Hfd. fold g. lia.
Qed.

(** C20. Without faults [append_group] returns: the log then holds the group,
    synced, with a report per commit, and is ready for the next group. *)
Theorem append_group_commits v id start segs ta ts commits (s : WalLog F * option I) :
  wal_ready s.1 v id start segs → appendable s.1 ta ts commits → reliable (w_file s.1) → s.2 = None →
  ∃ w i, append_group ta ts commits s = (Ok (group_reports v (w_next_lsn s.1) commits), (w, i)) ∧
    wal_ready w v id start (segs ++ group_segments (w_next_lsn s.1) commits) ∧
    w_committed w = w_committed s.1 ++ (commit_batch <$> commits) ∧
    durable (w_file w) = contents (w_file s.1) ++ group_bytes s.1 commits.
Proof.
  intros Hready Happ Hr Hi.
  destruct (append_group_spec v id start segs ta ts commits s Hready Happ) as (_ & Hok & Hlive).
  destruct (Hlive Hr Hi) as [Hokr _]. destruct (append_group ta ts commits s) as [r [w i]]. cbn [fst snd] in *.
  destruct r as [reports| | |]; try done. destruct (Hok _ eq_refl) as (-> & Hc & Hd & Hw & _).
  exists w, i. split_and!; [done|done| |congruence].
  destruct Hready as ((_ & _ & _ & _ & _ & -> & _) & _). destruct Hw as ((_ & _ & _ & _ & _ & -> & _) & _).
  rewrite history_committed_app. f_equal. eapply group_committed, Happ.
Qed.

(** C21. Opening a log that holds a history, whatever torn record a crash left
    behind it, and with any faults: a successful open returns exactly the
    committed batches and has cut the torn record off; an interrupted open
    leaves a file with the same history; without faults the open succeeds. *)
Theorem open_recovers v id start hint segs torn (f : F) (i : option I) :
  history_ok v id start segs → torn_frame v torn →
  contents f = history_bytes v id start segs ++ torn → len (contents f) ≤ U64_MAX →
  let out := open_with_fault_injector_and_start_lsn id hint (f, i) in
  (∀ w, out.1 = Ok w → wal_at w v id start segs ∧ w_file w = out.2.1 ∧
     w_scan_report w = mkScanReport (1 + len (segments_frames v segs)) (len (history_committed segs))
                         (total_pages (history_committed segs)) (len torn)) ∧
  (∃ torn', torn_frame v torn' ∧ contents out.2.1 = history_bytes v id start segs ++ torn') ∧
  (reliable f → i = None → is_ok out.1 = true).
Proof.
  intros Hok Ht Hc Hu. destruct (open_history v id start hint segs torn f i Hok Ht Hc Hu) as (O1 & O2 & O3).
  split_and!.
  - intros w Hw. destruct (O2 w Hw) as (-> & Hf & _). split_and!; [by apply opened_at|done|done].
  - destruct O1 as [->| ->]; [by exists torn|]. exists []. split; [by left|by rewrite app_nil_r].
  - intros Hr Hi. by destruct (O3 Hr Hi).
Qed.

(** ** Reset *)

(** No fault is going to happen. *)
Definition quiet (s : WalLog F * option I) : Prop := reliable (w_file s.1) ∧ s.2 = None.

Section reset.
Variables (id : WalIdentity) (checkpoint_lsn : Lsn) (s0 : WalLog F * option I).

(** The old log, or a prefix of the new initialisation record. *)
Definition reset_bytes (b : list byte) : Prop :=
  b = contents (w_file s0.1) ∨ ∃ k, b = take k (init_image id checkpoint_lsn).

(** Where a reset of [s0] has got to: the file is untouched, or holds a prefix
    of the new initialisation record. *)
Definition reset_inv (s : WalLog F * option I) : Prop :=
  reset_bytes (contents (w_file s.1)) ∧ (quiet s0 → quiet s) ∧
  (reliable (w_file s0.1) → reliable (w_file s.1) ∧
     (durable (w_file s.1) = durable (w_file s0.1) ∨ reset_bytes (durable (w_file s.1)))).

Definition reset_post (out : Result Error unit * (WalLog F * option I)) : Prop :=
  reset_inv out.2 ∧
  (is_ok out.1 = true → wal_ready out.2.1 WAL_FORMAT_VERSION id checkpoint_lsn [] ∧
     durable (w_file out.2.1) = contents (w_file out.2.1)) ∧
  (quiet s0 → is_ok out.1 = true).

Lemma reset_fail s r : reset_inv s → is_ok r = false → ¬ quiet s0 → reset_post (r, s).
Proof.
  intros Hs Hr Hf. unfold reset_post. cbn [fst snd]. rewrite Hr.
  split_and!; [done|discriminate|]. intros Hq. by destruct (Hf Hq).
Qed.

Lemma reset_hit name s k :
  reset_inv s → (∀ i, reset_inv (s.1, i) → reset_post (k tt (s.1, i))) → reset_post (bind (hit name) k s).
Proof.
  intros (Hc & Hq & Hd) Hk. rewrite bind_eq. destruct s as [w [j|]]; unfold hit; cbn [fst snd] in *; [|by apply Hk].
  assert (Hnq : ¬ quiet s0) by (intros [_ Hn]%Hq; discriminate).
  destruct (injector_hit name j) as [r j']. cbn [fst snd].
  assert (Hinv : reset_inv (w, Some j')) by (split_and!; [done|intros ?; by destruct Hnq|done]).
  destruct r as [[]| | |]; [by apply Hk|..]; by apply reset_fail.
Qed.

Lemma reset_sync s (g : Error → Error) k :
  reset_inv s →
  (∀ f, reset_inv (set_w_file f s.1, s.2) → contents f = contents (w_file s.1) → durable f = contents f →
     reset_post (k tt (set_w_file f s.1, s.2))) →
  reset_post (bind (on_file (mapping_err g sync_data)) k s).
Proof.
  intros (Hc & Hq & Hd) Hk. rewrite bind_eq. unfold on_file, zoom, mapping_err.
  pose proof (sync_data_law (w_file s.1)) as S. pose proof (reliable_sync (w_file s.1)) as R.
  destruct (sync_data (w_file s.1)) as [r f]. cbn [fst snd] in *. destruct S as [Sc Sd].
  assert (Hinv : reset_inv (set_w_file f s.1, s.2)).
  { unfold reset_inv, quiet in *. cbn [fst snd w_file set_w_file]. rewrite Sc. split_and!; [done| |].
    - intros [Hr Hn]%Hq. split; [by apply R|done].
    - intros [Hr _]%Hd. destruct (R Hr) as [? ->]. rewrite Sd. auto. }
  destruct r as [[]| | |]; cbn [map_err]; try done.
  - apply Hk; [done|done|congruence].
  - apply reset_fail; [done|done|]. intros [Hr _]%Hq. by destruct (R Hr).
Qed.

Lemma reset_truncate s (g : Error → Error) k :
  reset_inv s →
  (∀ f, reset_inv (set_w_file f s.1, s.2) → contents f = [] → reset_post (k tt (set_w_file f s.1, s.2))) →
  reset_post (bind (on_file (mapping_err g (set_len 0))) k s).
Proof.
  intros (Hc & Hq & Hd) Hk. rewrite bind_eq. unfold on_file, zoom, mapping_err. assert (H64 : is_u64 0) by lia.
  pose proof (set_len_law (w_file s.1) 0 H64) as S. pose proof (λ h, reliable_set_len (w_file s.1) 0 h H64) as R.
  destruct (set_len 0 (w_file s.1)) as [r f]. cbn [fst snd] in *. destruct S as [Sd S].
  rewrite resize_shrink in S by (pose proof (len_nonneg (contents (w_file s.1))); lia). cbn [take Z.to_nat] in S.
  assert (Hinv : contents f = contents (w_file s.1) ∨ contents f = [] → reset_inv (set_w_file f s.1, s.2)).
  { intros Hf. unfold reset_inv, quiet in *. cbn [fst snd w_file set_w_file]. split_and!.
    - destruct Hf as [->| ->]; [done|]. right. by exists 0%nat.
    - intros [Hr Hn]%Hq. split; [by apply R|done].
    - intros [Hr ?]%Hd. rewrite Sd. split; [by apply R|done]. }
  destruct r as [[]| | |]; cbn [map_err]; try done.
  - apply Hk; [by apply Hinv; right|done].
  - apply reset_fail; [by apply Hinv|done|]. intros [Hr _]%Hq. by destruct (R Hr).
Qed.

(** Appending the new initialisation record to the empty file. *)
Lemma reset_append s k :
  wf_identity id → reset_inv s → contents (w_file s.1) = [] → w_format_version s.1 = WAL_FORMAT_VERSION →
  (∀ x s', reset_inv s' → keeps s s' → contents (w_file s'.1) = init_image id checkpoint_lsn →
     reset_post (k x s')) →
  reset_post (bind (append_frame RInit 0 0 0 (identity_image id checkpoint_lsn)) k s).
Proof.
  intros Hid (_ & Hq & Hd) Hc Hv Hk. pose proof (len_init_image id checkpoint_lsn) as HL.
  pose proof (append_frame_appends s WAL_FORMAT_VERSION RInit 0 0 0 (identity_image id checkpoint_lsn) Hv) as A.
  change (mkFrame _ _ _ _ _ _) with (init_frame WAL_FORMAT_VERSION id checkpoint_lsn) in A.
  rewrite <- len_frame_image in A. fold (init_image id checkpoint_lsn) in A. rewrite HL in A.
  destruct A as (K & D & (n & C & O) & Lr & L).
  { rewrite len_identity_image. lia. }
  { unfold wfile. rewrite Hc, len_nil. lia. }
  rewrite bind_eq. unfold wfile in *. rewrite Hc in C. cbn [app] in C.
  destruct (append_frame _ _ _ _ _ s) as [r s1]. cbn [fst snd] in *.
  assert (Hinv : reset_inv s1).
  { split_and!; [right; by exists n| |].
    - intros [Hr Hn]%Hq. by destruct (L Hr Hn) as (_ & ? & ?).
    - intros [Hr ?]%Hd. rewrite D. auto. }
  destruct r as [x| | |].
  2-4: apply reset_fail; [done|done|]; intros [Hr Hn]%Hq; by destruct (L Hr Hn).
  apply Hk; [done|done|]. destruct (O x eq_refl) as [_ Hlen]. by rewrite C, take_ge.
Qed.

Lemma reset_done name s :
  reset_inv s → wal_ready s.1 WAL_FORMAT_VERSION id checkpoint_lsn [] →
  durable (w_file s.1) = contents (w_file s.1) → reset_post (hit name s).
Proof.
  intros Hs Hw Hd. replace (hit name s) with (bind (hit name) (λ _, ret tt) s).
  - apply reset_hit; [done|]. intros i Hi. unfold reset_post. by cbn.
  - unfold bind, ret. destruct (hit name s) as [[[]| | |] ?]; done.
Qed.

Lemma reset_spec v start segs :
  wal_at s0.1 v id start segs → start ≤ checkpoint_lsn < U64_MAX → 0 ≤ w_sync_count s0.1 < U64_MAX →
  reset_post (reset checkpoint_lsn s0).
Proof.
  intros (Hok & Hid & Hv & Hst & Hb & _) Hc Hsync.
  assert (Hwf : wf_identity id) by apply Hok. assert (0 ≤ start) by apply Hok.
  unfold reset. rewrite bind_eq. unfold wal_get at 1, gets at 1. rewrite Hst.
  rewrite (proj2 (Z.ltb_ge _ _)) by lia. cbn [negb].
  apply reset_hit; [split_and!; [by left|done|auto]|]. intros i1 I1. apply reset_hit; [done|]. intros i2 I2.
  apply reset_truncate; [done|]. intros f3 I3 C3.
  apply reset_hit; [done|]. intros i4 I4. apply reset_hit; [done|]. intros i5 I5.
  apply reset_hit; [done|]. intros i6 I6. apply reset_sync; [done|]. intros f7 I7 C7 D7.
  apply reset_hit; [done|]. intros i8 I8. cbn [fst snd w_file set_w_file] in *.
  rewrite bind_eq. unfold forget_history, bind at 1, modify_wal, modify, lift, checked_add, bind at 1.
  rewrite (proj2 (Z.leb_le _ _)) by lia. cbn [ok_or fst snd].
  apply reset_hit; [done|]. intros i9 I9. rewrite bind_eq. unfold wal_get at 1, gets at 1.
  cbn [fst snd w_identity set_w_file]. rewrite Hid.
  rewrite bind_eq, identity_payload_Ok by done. apply reset_hit; [done|]. intros i10 I10.
  apply reset_append; [done|done|cbn; congruence|done|]. intros x s11 I11 (K11 & _ & Kc) C11.
  apply reset_hit; [done|]. intros i12 I12. apply reset_hit; [done|]. intros i13 I13.
  apply reset_hit; [done|]. intros i14 I14. apply reset_sync; [done|]. intros f15 I15 C15 D15.
  cbn in Kc. rewrite bind_eq. unfold wal_get at 1, gets at 1. cbn [fst snd set_w_file w_sync_count]. rewrite Kc.
  rewrite bind_eq, (proj2 (Z.leb_le _ _)) by lia. cbn [ok_or]. rewrite bind_eq. cbn [fst snd].
  apply reset_done; [done| |done].
  destruct K11 as (K1 & K2 & K3 & K4 & K5 & K6 & _). cbn in K1, K2, K3, K4, K5, K6.
  unfold wal_ready, wal_at. cbn [fst set_w_sync_count set_w_file w_identity w_format_version w_next_lsn w_next_batch_id
    w_history_start_lsn w_committed w_file chain_batch history_last chain_lsn].
  cbn in C15. rewrite history_bytes_nil. 
  split_and!; try congruence; [apply history_ok_nil; [done|lia]|by rewrite K6|lia..].
Qed.

End reset.

(** Opening what a reset leaves. *)
Lemma open_after_reset v id start segs checkpoint_lsn (old f : F) :
  history_ok v id start segs → contents old = history_bytes v id start segs → len (contents old) ≤ U64_MAX →
  0 ≤ checkpoint_lsn < U64_MAX → reliable f →
  contents f = contents old ∨ contents f `prefix_of` init_image id checkpoint_lsn →
  ∃ w f', open_with_fault_injector_and_start_lsn (I:=I) id checkpoint_lsn (f, None) = (Ok w, (f', None)) ∧
    (wal_at w v id start segs ∨ wal_at w WAL_FORMAT_VERSION id checkpoint_lsn []) ∧
    w_file w = f' ∧ reliable f' ∧ (durable f = contents f → durable f' = contents f').
Proof.
  intros Hh Hb Hlen Hc Hr Hf. assert (Hid : wf_identity id) by apply Hh.
  pose proof (len_init_image id checkpoint_lsn) as HL.
  assert (Hopen : ∀ v' start' segs', history_ok v' id start' segs' → contents f = history_bytes v' id start' segs' →
    len (contents f) ≤ U64_MAX →
    ∃ w f', open_with_fault_injector_and_start_lsn (I:=I) id checkpoint_lsn (f, None) = (Ok w, (f', None)) ∧
      wal_at w v' id start' segs' ∧ w_file w = f' ∧ reliable f' ∧ (durable f = contents f → durable f' = contents f')).
  { intros v' start' segs' Hok Hcf Hl.
    assert (Hcf' : contents f = history_bytes v' id start' segs' ++ []) by by rewrite app_nil_r.
    destruct (open_history (I:=I) v' id start' checkpoint_lsn segs' [] f None Hok (or_introl eq_refl) Hcf' Hl) as (_ & O2 & O3).
    destruct (O3 Hr eq_refl) as (Hi & Hrel & Hinj).
    destruct (open_with_fault_injector_and_start_lsn _ _ _) as [[w| | |] [f' i']]; cbn [fst snd is_ok] in *; try discriminate Hi.
    subst i'. destruct (O2 w eq_refl) as (-> & Hf' & Hd'). eexists _, f'. split; [reflexivity|]. split; [by apply opened_at|done]. }
  destruct Hf as [Hf|Hf].
  { destruct (Hopen v start segs Hh) as (w & f' & Ho & Hw); [congruence|by rewrite Hf|]. exists w, f'. naive_solver. }
  destruct (decide (len (contents f) < INIT_FRAME_SIZE)) as [Hlt|Hge].
  - destruct (open_fresh (I:=I) id checkpoint_lsn f None (length (contents f)) Hid Hc) as (_ & O2 & O3 & O4).
    { destruct Hf as [t ->]. by rewrite take_app_length. } { done. }
    destruct (O3 Hr) as [Hi Hrel].
    destruct (open_with_fault_injector_and_start_lsn _ _ _) as [[w| | |] [f' i']]; cbn [fst snd is_ok] in *; try discriminate Hi.
    subst i'. destruct (O2 w eq_refl) as ([Hw _] & Hwf & Hd). exists w, f'. split_and!; try done. by right.
  - assert (Hfull : contents f = init_image id checkpoint_lsn).
    { apply prefix_length_eq; [done|]. unfold len in *. lia. }
    destruct (Hopen WAL_FORMAT_VERSION checkpoint_lsn []) as (w & f' & Ho & Hw).
    + by apply history_ok_nil.
    + by rewrite history_bytes_nil.
    + rewrite Hfull. lia.
    + exists w, f'. naive_solver.
Qed.

(** C22. Emptying the log behind a checkpoint never makes it unreadable.  Whatever
    interrupts [reset], the file holds the old log or a prefix of the new
    initialisation record, and from either, opening with the checkpoint's
    LSN succeeds, with the old log or with an empty one that starts at the
    checkpoint.  When [reset] returns, the new record is durable and the log
    ready; without faults it returns. *)
Theorem reset_crash_safe v id start segs checkpoint_lsn (s : WalLog F * option I) :
  wal_at s.1 v id start segs → start ≤ checkpoint_lsn < U64_MAX → 0 ≤ w_sync_count s.1 < U64_MAX →
  len (contents (w_file s.1)) ≤ U64_MAX →
  let out := reset checkpoint_lsn s in
  (contents (w_file out.2.1) = contents (w_file s.1) ∨
   contents (w_file out.2.1) `prefix_of` init_image id checkpoint_lsn) ∧
  (is_ok out.1 = true → wal_ready out.2.1 WAL_FORMAT_VERSION id checkpoint_lsn [] ∧
     durable (w_file out.2.1) = init_image id checkpoint_lsn) ∧
  (reliable (w_file s.1) → s.2 = None → is_ok out.1 = true) ∧
  ∀ f, reliable f →
    contents f = contents (w_file s.1) ∨ contents f `prefix_of` init_image id checkpoint_lsn →
    ∃ w f', open_with_fault_injector_and_start_lsn (I:=I) id checkpoint_lsn (f, None) = (Ok w, (f', None)) ∧
      (wal_at w v id start segs ∨ wal_at w WAL_FORMAT_VERSION id checkpoint_lsn []).
Proof.
  intros Hat Hc Hsync Hlen out.
  destruct (reset_spec id checkpoint_lsn s v start segs Hat Hc Hsync) as (Hinv & Hok & Hlive). fold out in Hinv, Hok, Hlive.
  destruct Hat as (Hh & _ & _ & _ & Hb & _). assert (Hid : wf_identity id) by apply Hh. assert (0 ≤ start) by apply Hh.
  split_and!.
  - destruct Hinv as [[->|[k ->]] _]; [by left|right]. apply prefix_take.
  - intros Hr. destruct (Hok Hr) as [Hw ->]. split; [done|].
    destruct Hw as ((_ & _ & _ & _ & -> & _) & _). apply history_bytes_nil.
  - intros Hr Hn. by apply Hlive.
  - intros f Hr Hf. destruct (open_after_reset v id start segs checkpoint_lsn (w_file s.1) f) as (w & f' & Ho & Hw & _); try done; [lia|]. by exists w, f'.
Qed.

End safety.

(** ** Examples *)

Definition example_identity : WalIdentity := mkIdentity (replicate 16 Byte.x11) 3 4 5.

(** A new log on a file without faults, and a group of one commit of one page. *)
Definition example_file (bytes : list byte) : CrashableFile := mkCrashable bytes bytes FaultPlan_default.

Lemma example_file_reliable bytes : (len bytes <=? U64_MAX) = true → reliable (example_file bytes).
Proof. intros Hl. apply Z.leb_le in Hl. by split_and!. Qed.

Definition example_wal : WalLog CrashableFile :=
  mkWal (example_file (init_image (H:=castagnoli_crc) example_identity 0)) example_identity WAL_FORMAT_VERSION
    1 1 0 [] (mkScanReport 1 0 0 0) 1 0 0 0.

Definition example_page : list byte :=
  match encode_page (H:=castagnoli_crc) (mkPageHeader PAGE_FORMAT_VERSION Leaf_ 2 2 0 0) [] with
  | Ok bytes => bytes
  | _ => []
  end.

Definition example_commits : list WalCommit := [mkCommit 1 2 [mkImage 2 example_page]].

(** What a crash may leave of the group: its first 100 bytes. *)
Definition example_crash : CrashableFile :=
  example_file (contents (w_file example_wal) ++ take 100 (group_bytes (H:=castagnoli_crc) example_wal example_commits)).

Lemma example_identity_wf : wf_identity example_identity.
Proof. unfold wf_identity. by split_and!. Qed.

Lemma example_wal_ready :
  wal_ready (H:=castagnoli_crc) example_wal WAL_FORMAT_VERSION example_identity 0 [].
Proof.
  unfold wal_ready, wal_at. rewrite history_bytes_nil. split_and!; try done.
  apply history_ok_nil; [apply example_identity_wf|lia].
Qed.

Lemma example_commits_wf : wf_group (H:=castagnoli_crc) 1 1 example_commits.
Proof.
  cbn [wf_group example_commits]. split_and!; try done.
  - unfold wf_segment, commit_segment. cbn. split_and!; try done.
    + constructor; [split; [done|vm_compute; reflexivity]|done].
    + intros _. constructor; [vm_compute; reflexivity|done].
Qed.

Lemma example_appendable : appendable (H:=castagnoli_crc) example_wal 0 0 example_commits.
Proof.
  split_and!; [done|apply example_commits_wf|vm_compute; discriminate|].
  unfold counters_ok, report_counters_ok. cbn. split_and!; lia || done.
Qed.

(** The log and no injector. *)
Definition example_state : WalLog CrashableFile * option CrashInjector := (example_wal, None).

Lemma append_group_crash_atomic_witness :
  let H := castagnoli_crc in
  let out := append_group 0 0 example_commits example_state in
  ∃ w f' segs' n,
    open_with_fault_injector_and_start_lsn (I:=CrashInjector) example_identity 0 (example_crash, None) =
      (Ok w, (f', None)) ∧
    wal_at w WAL_FORMAT_VERSION example_identity 0 segs' ∧ w_file w = f' ∧
    w_committed w = w_committed example_state.1 ++ take n (commit_batch <$> example_commits) ∧
    (is_ok out.1 = true → durable (w_file out.2.1) = contents (w_file out.2.1) ∧
       (contents example_crash = durable (w_file out.2.1) → (length example_commits ≤ n)%nat)).
Proof.
  refine (append_group_crash_atomic (H:=castagnoli_crc) WAL_FORMAT_VERSION example_identity 0 [] 0 0
            example_commits example_state 0 example_crash example_wal_ready example_appendable _ _ _).
  - by eexists.
  - apply (bool_decide_unpack _). vm_compute. exact I.
  - apply example_file_reliable. vm_compute. reflexivity.
Defined.

Lemma append_group_commits_witness :
  let H := castagnoli_crc in
  ∃ w i, append_group 0 0 example_commits example_state =
      (Ok (group_reports WAL_FORMAT_VERSION (w_next_lsn example_state.1) example_commits), (w, i)) ∧
    wal_ready w WAL_FORMAT_VERSION example_identity 0
      ([] ++ group_segments (w_next_lsn example_state.1) example_commits) ∧
    w_committed w = w_committed example_state.1 ++ (commit_batch <$> example_commits) ∧
    durable (w_file w) = contents (w_file example_state.1) ++ group_bytes example_state.1 example_commits.
Proof.
  refine (append_group_commits (H:=castagnoli_crc) WAL_FORMAT_VERSION example_identity 0 [] 0 0
            example_commits example_state example_wal_ready example_appendable _ eq_refl).
  apply example_file_reliable. vm_compute. reflexivity.
Defined.

(** A torn second record: the first 30 bytes of another initialisation record. *)
Definition example_torn : list byte := take 30 (init_image (H:=castagnoli_crc) example_identity 7).

Definition example_torn_file : CrashableFile :=
  example_file (history_bytes (H:=castagnoli_crc) WAL_FORMAT_VERSION example_identity 0 [] ++ example_torn).

Lemma open_recovers_witness :
  let H := castagnoli_crc in
  let out := open_with_fault_injector_and_start_lsn (I:=CrashInjector) example_identity 0 (example_torn_file, None) in
  (∀ w, out.1 = Ok w → wal_at w WAL_FORMAT_VERSION example_identity 0 [] ∧ w_file w = out.2.1 ∧
     w_scan_report w = mkScanReport (1 + len (segments_frames WAL_FORMAT_VERSION []))
       (len (history_committed [])) (total_pages (history_committed [])) (len example_torn)) ∧
  (∃ torn', torn_frame WAL_FORMAT_VERSION torn' ∧
     contents out.2.1 = history_bytes WAL_FORMAT_VERSION example_identity 0 [] ++ torn') ∧
  (reliable example_torn_file → (None : option CrashInjector) = None → is_ok out.1 = true).
Proof.
  refine (open_recovers (H:=castagnoli_crc) WAL_FORMAT_VERSION example_identity 0 0 [] example_torn
            example_torn_file None _ _ _ _).
  - apply history_ok_nil; [apply example_identity_wf|lia].
  - right. exists (init_frame WAL_FORMAT_VERSION example_identity 7), 30%nat. split_and!; [|done| |done].
    + apply wf_init_frame. by left.
    + vm_compute. lia.
  - done.
  - vm_compute. discriminate.
Defined.

Lemma reset_crash_safe_witness :
  let H := castagnoli_crc in
  let out := reset 9 example_state in
  (contents (w_file out.2.1) = contents (w_file example_state.1) ∨
   contents (w_file out.2.1) `prefix_of` init_image example_identity 9) ∧
  (is_ok out.1 = true → wal_ready out.2.1 WAL_FORMAT_VERSION example_identity 9 [] ∧
     durable (w_file out.2.1) = init_image example_identity 9) ∧
  (reliable (w_file example_state.1) → example_state.2 = None → is_ok out.1 = true) ∧
  ∀ f, reliable f →
    contents f = contents (w_file example_state.1) ∨ contents f `prefix_of` init_image example_identity 9 →
    ∃ w f', open_with_fault_injector_and_start_lsn (I:=CrashInjector) example_identity 9 (f, None) = (Ok w, (f', None)) ∧
      (wal_at w WAL_FORMAT_VERSION example_identity 0 [] ∨ wal_at w WAL_FORMAT_VERSION example_identity 9 []).
Proof.
  refine (reset_crash_safe (H:=castagnoli_crc) WAL_FORMAT_VERSION example_identity 0 [] 9 example_state
            (proj1 example_wal_ready) _ _ _).
  - lia.
  - cbn. lia.
  - vm_compute. discriminate.
Defined.
