(* ===== verification/Format.v ===== *)
(** * Format: the B+tree's page layouts

    src/dodb/crates/dodb-storage/src/btree/format.rs.  The bodies of leaf,
    internal, overflow and free pages: leaf and internal pages are slotted, a
    header and a slot array growing upwards, the records growing downwards from
    the end of the body.  The theorems show that every page that encodes
    decodes to itself, that decoding never panics, whatever the bytes, and
    which lists of entries fit a page.  [encode_page_id] and [decode_page_id]
    of format.rs are those of superblock.rs. *)

From S2P Require Import Prelude Core Crc Page Superblock.

Definition BODY_SIZE : Z := PAGE_SIZE - PAGE_HEADER_SIZE.
Definition LAYOUT_VERSION : Z := 1.
Definition INLINE_VALUE_LIMIT : Z := 512.
Definition MAX_VALUE_SIZE : Z := 64 * 1024 * 1024.
Definition OVERFLOW_DATA_OFFSET : Z := 32.
Definition OVERFLOW_DATA_SIZE : Z := BODY_SIZE - OVERFLOW_DATA_OFFSET.
(** [a.div_ceil(b)]. *)
Definition div_ceil (a b : Z) : Z := (a + b - 1) / b.
Definition MAX_OVERFLOW_PAGES : Z := div_ceil MAX_VALUE_SIZE OVERFLOW_DATA_SIZE.
Definition LEAF_MAGIC : list byte := bstr "LEAF".
Definition INTERNAL_MAGIC : list byte := bstr "INTN".
Definition OVERFLOW_MAGIC : list byte := bstr "OVFL".
Definition FREE_MAGIC : list byte := bstr "FREE".
Definition LEAF_HEADER_SIZE : Z := 32.
Definition INTERNAL_HEADER_SIZE : Z := 32.
Definition SLOT_SIZE : Z := 8.
Definition LEAF_RECORD_HEADER_SIZE : Z := 32.
Definition INTERNAL_RECORD_HEADER_SIZE : Z := 12.

#[export] Hint Unfold BODY_SIZE LAYOUT_VERSION INLINE_VALUE_LIMIT MAX_VALUE_SIZE OVERFLOW_DATA_OFFSET
  OVERFLOW_DATA_SIZE LEAF_HEADER_SIZE INTERNAL_HEADER_SIZE SLOT_SIZE LEAF_RECORD_HEADER_SIZE
  INTERNAL_RECORD_HEADER_SIZE : consts.

(** ** Page contents *)

Inductive ValueRef : Type :=
  | Inline (value : list byte)
  | Overflow (head : PageId) (length : Z).

Record LeafEntry := mkLeafEntry {
  le_key : list byte;
  le_revision : Revision;
  le_value : option ValueRef
}.

Record InternalEntry := mkInternalEntry { ie_key : list byte; right_child : PageId }.

Inductive PageData : Type :=
  | PLeaf (lsn : Lsn) (next_leaf : option PageId) (entries : list LeafEntry)
  | PInternal (lsn : Lsn) (leftmost_child : PageId) (entries : list InternalEntry)
  | POverflow (lsn : Lsn) (next : option PageId) (total_length : Z) (chunk : list byte)
  | PFree (lsn : Lsn) (next : option PageId).

Global Instance ValueRef_eq_dec : EqDecision ValueRef.
Proof. solve_decision. Defined.
Global Instance LeafEntry_eq_dec : EqDecision LeafEntry.
Proof. solve_decision. Defined.
Global Instance InternalEntry_eq_dec : EqDecision InternalEntry.
Proof. solve_decision. Defined.
Global Instance PageData_eq_dec : EqDecision PageData.
Proof. solve_decision. Defined.

Definition PageData_page_type (p : PageData) : PageType :=
  match p with
  | PLeaf _ _ _ => Leaf_
  | PInternal _ _ _ => Internal_
  | POverflow _ _ _ _ => Overflow_
  | PFree _ _ => Free_
  end.

Definition PageData_lsn (p : PageData) : Lsn :=
  match p with PLeaf lsn _ _ | PInternal lsn _ _ | POverflow lsn _ _ _ | PFree lsn _ => lsn end.

Definition restamp_entry (provisional : Revision) (committed : Lsn) (e : LeafEntry) : LeafEntry :=
  if le_revision e =? provisional
  then mkLeafEntry (le_key e) (revision_from_lsn committed) (le_value e) else e.

Definition PageData_restamp (provisional : Revision) (committed : Lsn) (p : PageData) : PageData :=
  match p with
  | PLeaf _ next entries => PLeaf committed next (restamp_entry provisional committed <$> entries)
  | PInternal _ leftmost entries => PInternal committed leftmost entries
  | POverflow _ next total chunk => POverflow committed next total chunk
  | PFree _ next => PFree committed next
  end.

(** ** Fixed-width fields *)

Definition read_array (n : Z) (bytes : list byte) (offset : Z) : Result Error (list byte) :=
  let? end_ := ok_or (checked_add offset n) (Corruption "fixed-field offset overflows") in
  guard? end_ <=? len bytes else Corruption "fixed field is truncated" in
  Ok (sub bytes offset end_).

Definition read_u16 (bytes : list byte) (offset : Z) : Result Error Z :=
  let? a := read_array 2 bytes offset in Ok (from_le_bytes a).

Definition read_u64 (bytes : list byte) (offset : Z) : Result Error Z :=
  let? a := read_array 8 bytes offset in Ok (from_le_bytes a).

Definition check_body_size (body : list byte) : Result Error unit :=
  guard? len body =? BODY_SIZE else Corruption "page body has {} bytes, expected {BODY_SIZE}" in
  Ok tt.

Definition check_version (bytes : list byte) : Result Error unit :=
  let? version := read_u16 bytes 0 in
  guard? version =? LAYOUT_VERSION else
    UnsupportedFormat "page layout version {version}, supported {LAYOUT_VERSION}" in
  Ok tt.

(** ** Order checks *)

Definition ensure_sorted_leaf (entries : list LeafEntry) : Result Error unit :=
  guard? windows2 (λ a b, negb (bytes_le (le_key b) (le_key a))) entries else
    Corruption "leaf keys are not strictly ordered" in
  Ok tt.

Definition ensure_sorted_internal (entries : list InternalEntry) : Result Error unit :=
  guard? windows2 (λ a b, negb (bytes_le (ie_key b) (ie_key a))) entries else
    Corruption "internal separators are not strictly ordered" in
  Ok tt.

(** The derived order on pairs, which [sort_unstable] sorts by. *)
Definition range_le (a b : Z * Z) : Prop := a.1 < b.1 ∨ (a.1 = b.1 ∧ a.2 ≤ b.2).
Global Instance range_le_dec : RelDecision range_le.
Proof. intros a b. unfold range_le. solve_decision. Defined.

Definition ensure_non_overlapping (ranges : list (Z * Z)) (message : string) : Result Error unit :=
  guard? windows2 (λ a b, negb (b.1 <? a.2)) (merge_sort range_le ranges) else Corruption message in
  Ok tt.

Definition validate_slot_region (count slot_end records_start header_size body_len : Z)
    : Result Error unit :=
  let? slots := ok_or (checked_mul count SLOT_SIZE) (Corruption "slot count overflows") in
  let? expected_slot_end := ok_or (checked_add header_size slots) (Corruption "slot count overflows") in
  guard? negb (negb (slot_end =? expected_slot_end) || (records_start <? slot_end)
               || (body_len <? records_start) || (body_len <? slot_end)) else
    Corruption "invalid slotted-page boundaries" in
  Ok tt.

(** ** Slotted pages

    What [encode_leaf] and [encode_internal] share: a record is put below the
    previous one, and its slot, (offset, length, key length), remembered. *)

Definition Slot : Type := Z * Z * Z.

Definition place_record (slot_bytes : Z) (full : Error) (acc : list byte * Z * list Slot)
    (record : list byte) (key_length : Z) : Result Error (list byte * Z * list Slot) :=
  let '(body, upper, slots) := acc in
  let? upper := ok_or (checked_sub upper (len record)) full in
  guard? negb (upper <? slot_bytes) else full in
  let? body := copy_from_slice body upper (upper + len record) record in
  Ok (body, upper, slots ++ [(upper, len record, key_length)]).

(** The [as u16] casts of one slot. *)
Definition write_slot (header_size : Z) (body : list byte) (indexed : nat * Slot)
    : Result Error (list byte) :=
  let '(index, (offset, length, key_length)) := indexed in
  let slot := header_size + Z.of_nat index * SLOT_SIZE in
  let? body := copy_from_slice body slot (slot + 2) (u16_to_le_bytes (as_u16 offset)) in
  let? body := copy_from_slice body (slot + 2) (slot + 4) (u16_to_le_bytes (as_u16 length)) in
  copy_from_slice body (slot + 4) (slot + 6) (u16_to_le_bytes (as_u16 key_length)).

(** [slots.reverse()], the start of the records, and the slot array. *)
Definition write_slots (header_size : Z) (acc : list byte * Z * list Slot) : Result Error (list byte) :=
  let '(body, upper, slots) := acc in
  let slots := rev slots in
  let? body := copy_from_slice body 10 12 (u16_to_le_bytes (as_u16 upper)) in
  foldR (write_slot header_size) body (imap pair slots).

(** The slot of [index] and the bytes of its record, checked against the bounds
    of the record area. *)
Definition read_slot (header_size record_header records_start : Z) (overflows outside : Error)
    (body : list byte) (index : Z) : Result Error (Z * Z * Z) :=
  let slot := header_size + index * SLOT_SIZE in
  let? offset := read_u16 body slot in
  let? length := read_u16 body (slot + 2) in
  let? key_length := read_u16 body (slot + 4) in
  let? end_ := ok_or (checked_add offset length) overflows in
  guard? negb ((offset <? records_start) || (len body <? end_) || (length <? record_header)) else outside in
  Ok (offset, end_, key_length).

(** ** Leaf pages *)

Definition value_fields (value : option ValueRef) : byte * Z * Z * list byte :=
  match value with
  | None => (Byte.x00, 0, NULL_PAGE_ID, [])
  | Some (Inline value) => (Byte.x01, len value, 0, value)
  | Some (Overflow head length) => (Byte.x02, length, head, [])
  end.

Definition encode_leaf_record (entry : LeafEntry) : Result Error (list byte) :=
  guard? negb (U16_MAX <? len (le_key entry)) else InvalidInput "encoded document key is too large" in
  let? _key := map_err (λ _, InvalidInput "document key is not canonical: {error}")
                 (DocumentKey_decode (le_key entry)) in
  let '(flags, value_length, aux, inline) := value_fields (le_value entry) in
  let? record_length :=
    ok_or (length ← checked_add LEAF_RECORD_HEADER_SIZE (len (le_key entry));
           checked_add length (len inline))
      (InvalidInput "leaf record size overflow") in
  let record := zeros record_length in
  let? record := copy_from_slice record 0 8 (u64_to_le_bytes (le_revision entry)) in
  let? record := copy_from_slice record 8 16 (u64_to_le_bytes value_length) in
  let? record := copy_from_slice record 16 24 (u64_to_le_bytes aux) in
  let? record := set_index record 24 flags in
  let? record := copy_from_slice record 26 28 (u16_to_le_bytes (as_u16 (len (le_key entry)))) in
  let key_end := LEAF_RECORD_HEADER_SIZE + len (le_key entry) in
  let? record := copy_from_slice record LEAF_RECORD_HEADER_SIZE key_end (le_key entry) in
  copy_from_slice record key_end (len record) inline.

Definition place_leaf_entry (slot_bytes : Z) (acc : list byte * Z * list Slot) (entry : LeafEntry)
    : Result Error (list byte * Z * list Slot) :=
  let? record := encode_leaf_record entry in
  place_record slot_bytes (InvalidInput "leaf records exceed page capacity") acc record (len (le_key entry)).

Definition encode_leaf (next_leaf : option PageId) (entries : list LeafEntry) : Result Error (list byte) :=
  let? slot_array := ok_or (checked_mul (len entries) SLOT_SIZE) (InvalidInput "leaf slot array size overflow") in
  let? slot_bytes := ok_or (checked_add LEAF_HEADER_SIZE slot_array)
                       (InvalidInput "leaf slot array size overflow") in
  guard? negb ((U16_MAX <? len entries) || (BODY_SIZE <? slot_bytes)) else
    InvalidInput "too many entries for one leaf page" in
  let? _sorted := ensure_sorted_leaf entries in
  let body := zeros BODY_SIZE in
  let? body := copy_from_slice body 0 4 LEAF_MAGIC in
  let? body := copy_from_slice body 4 6 (u16_to_le_bytes LAYOUT_VERSION) in
  let? body := copy_from_slice body 6 8 (u16_to_le_bytes (as_u16 (len entries))) in
  let? body := copy_from_slice body 8 10 (u16_to_le_bytes (as_u16 slot_bytes)) in
  let? body := copy_from_slice body 12 20 (u64_to_le_bytes (encode_page_id next_leaf)) in
  let? placed := foldR (place_leaf_entry slot_bytes) (body, BODY_SIZE, []) (rev entries) in
  write_slots LEAF_HEADER_SIZE placed.

Definition decode_leaf_record (bytes : list byte) (slot_key_length : Z) : Result Error LeafEntry :=
  let? revision := read_u64 bytes 0 in
  let? value_length := read_u64 bytes 8 in
  guard? negb (MAX_VALUE_SIZE <? value_length) else Corruption "leaf value exceeds supported maximum" in
  let? aux := read_u64 bytes 16 in
  let? flags := index bytes 24 in
  let? reserved := index bytes 25 in
  guard? bool_decide (reserved = Byte.x00) else Corruption "leaf record reserved bytes are non-zero" in
  let? reserved := slice bytes 28 32 in
  guard? negb (any_nonzero reserved) else Corruption "leaf record reserved bytes are non-zero" in
  let? key_length := read_u16 bytes 26 in
  guard? key_length =? slot_key_length else Corruption "leaf slot key length does not match record" in
  let? key_end := ok_or (checked_add LEAF_RECORD_HEADER_SIZE key_length) (Corruption "leaf key length overflows") in
  guard? negb (len bytes <? key_end) else Corruption "leaf key exceeds record" in
  let? key := slice bytes LEAF_RECORD_HEADER_SIZE key_end in
  let? _key := map_err (λ _, Corruption "leaf key is not canonical: {error}") (DocumentKey_decode key) in
  let? value :=
    match flags with
    | Byte.x00 =>
        guard? negb (negb (value_length =? 0) || negb (aux =? NULL_PAGE_ID) || negb (len bytes =? key_end)) else
          Corruption "invalid tombstone leaf record" in
        Ok None
    | Byte.x01 =>
        let? value_length := ok_or (usize_try_from value_length)
                               (Corruption "inline value length does not fit usize") in
        let? value_end := ok_or (checked_add key_end value_length) (Corruption "inline value length overflows") in
        guard? negb (negb (value_end =? len bytes) || negb (aux =? 0)) else
          Corruption "invalid inline leaf record" in
        let? value := slice bytes key_end value_end in
        Ok (Some (Inline value))
    | Byte.x02 =>
        guard? negb (negb (len bytes =? key_end) || (aux =? NULL_PAGE_ID) || (value_length =? 0)) else
          Corruption "invalid overflow leaf record" in
        Ok (Some (Overflow aux value_length))
    | _ => Err (Corruption "unknown leaf value state {other}")
    end in
  Ok (mkLeafEntry key revision value).

Definition decode_leaf_step (records_start : Z) (body : list byte) (acc : list LeafEntry * list (Z * Z))
    (index : Z) : Result Error (list LeafEntry * list (Z * Z)) :=
  let '(entries, ranges) := acc in
  let? '(offset, end_, key_length) :=
    read_slot LEAF_HEADER_SIZE LEAF_RECORD_HEADER_SIZE records_start
      (Corruption "leaf record range overflows") (Corruption "leaf record range is outside free space")
      body index in
  let? record := slice body offset end_ in
  let? entry := decode_leaf_record record key_length in
  Ok (entries ++ [entry], ranges ++ [(offset, end_)]).

(** [0..count]. *)
Definition range_to (count : Z) : list Z := Z.of_nat <$> seq 0 (Z.to_nat count).

Definition decode_leaf (lsn : Lsn) (body : list byte) : Result Error PageData :=
  let? _size := check_body_size body in
  let? magic := slice body 0 4 in
  guard? bytes_eqb magic LEAF_MAGIC else Corruption "leaf layout magic mismatch" in
  let? version := slice body 4 6 in
  let? _version := check_version version in
  let? count := read_u16 body 6 in
  let? slot_end := read_u16 body 8 in
  let? records_start := read_u16 body 10 in
  let? next := read_u64 body 12 in
  let next_leaf := decode_page_id next in
  let? reserved := slice body 20 32 in
  guard? negb (any_nonzero reserved) else Corruption "leaf reserved bytes are non-zero" in
  let? _region := validate_slot_region count slot_end records_start LEAF_HEADER_SIZE (len body) in
  let? '(entries, ranges) := foldR (decode_leaf_step records_start body) ([], []) (range_to count) in
  let? _ranges := ensure_non_overlapping ranges "overlapping {kind}" in
  let? _sorted := ensure_sorted_leaf entries in
  Ok (PLeaf lsn next_leaf entries).

(** ** Internal pages *)

Definition encode_internal_record (entry : InternalEntry) : Result Error (list byte) :=
  guard? negb ((U16_MAX <? len (ie_key entry)) || (right_child entry <? 2)) else
    InvalidInput "invalid internal entry" in
  let? _key := map_err (λ _, InvalidInput "internal separator is not canonical: {error}")
                 (DocumentKey_decode (ie_key entry)) in
  let? record_length := ok_or (checked_add INTERNAL_RECORD_HEADER_SIZE (len (ie_key entry)))
                          (InvalidInput "internal record size overflow") in
  let record := zeros record_length in
  let? record := copy_from_slice record 0 2 (u16_to_le_bytes (as_u16 (len (ie_key entry)))) in
  let? record := copy_from_slice record 4 12 (u64_to_le_bytes (right_child entry)) in
  copy_from_slice record INTERNAL_RECORD_HEADER_SIZE (len record) (ie_key entry).

Definition place_internal_entry (slot_bytes : Z) (acc : list byte * Z * list Slot) (entry : InternalEntry)
    : Result Error (list byte * Z * list Slot) :=
  let? record := encode_internal_record entry in
  place_record slot_bytes (InvalidInput "internal records exceed page capacity") acc record
    (len (ie_key entry)).

Definition encode_internal (leftmost_child : PageId) (entries : list InternalEntry)
    : Result Error (list byte) :=
  guard? negb (leftmost_child <? 2) else InvalidInput "internal leftmost child is invalid" in
  let? slot_array := ok_or (checked_mul (len entries) SLOT_SIZE)
                       (InvalidInput "internal slot array size overflow") in
  let? slot_bytes := ok_or (checked_add INTERNAL_HEADER_SIZE slot_array)
                       (InvalidInput "internal slot array size overflow") in
  guard? negb ((U16_MAX <? len entries) || (BODY_SIZE <? slot_bytes)) else
    InvalidInput "too many entries for one internal page" in
  let? _sorted := ensure_sorted_internal entries in
  let body := zeros BODY_SIZE in
  let? body := copy_from_slice body 0 4 INTERNAL_MAGIC in
  let? body := copy_from_slice body 4 6 (u16_to_le_bytes LAYOUT_VERSION) in
  let? body := copy_from_slice body 6 8 (u16_to_le_bytes (as_u16 (len entries))) in
  let? body := copy_from_slice body 8 10 (u16_to_le_bytes (as_u16 slot_bytes)) in
  let? body := copy_from_slice body 12 20 (u64_to_le_bytes leftmost_child) in
  let? placed := foldR (place_internal_entry slot_bytes) (body, BODY_SIZE, []) (rev entries) in
  write_slots INTERNAL_HEADER_SIZE placed.

Definition decode_internal_record (record : list byte) (key_length : Z) : Result Error InternalEntry :=
  let? record_key_length := read_u16 record 0 in
  let? reserved := slice record 2 4 in
  guard? negb (any_nonzero reserved) && (record_key_length =? key_length) else
    Corruption "internal record key length is invalid" in
  guard? len record =? INTERNAL_RECORD_HEADER_SIZE + key_length else
    Corruption "internal record length is invalid" in
  let? right_child := read_u64 record 4 in
  guard? negb (right_child <? 2) else Corruption "internal child page id is invalid" in
  let? key := slice record INTERNAL_RECORD_HEADER_SIZE (len record) in
  let? _key := map_err (λ _, Corruption "internal separator is not canonical: {error}")
                 (DocumentKey_decode key) in
  Ok (mkInternalEntry key right_child).

Definition decode_internal_step (records_start : Z) (body : list byte)
    (acc : list InternalEntry * list (Z * Z)) (index : Z)
    : Result Error (list InternalEntry * list (Z * Z)) :=
  let '(entries, ranges) := acc in
  let? '(offset, end_, key_length) :=
    read_slot INTERNAL_HEADER_SIZE INTERNAL_RECORD_HEADER_SIZE records_start
      (Corruption "internal record range overflows")
      (Corruption "internal record range is outside free space") body index in
  let? record := slice body offset end_ in
  let? entry := decode_internal_record record key_length in
  Ok (entries ++ [entry], ranges ++ [(offset, end_)]).

Definition decode_internal (lsn : Lsn) (body : list byte) : Result Error PageData :=
  let? _size := check_body_size body in
  let? magic := slice body 0 4 in
  guard? bytes_eqb magic INTERNAL_MAGIC else Corruption "internal layout magic mismatch" in
  let? version := slice body 4 6 in
  let? _version := check_version version in
  let? count := read_u16 body 6 in
  let? slot_end := read_u16 body 8 in
  let? records_start := read_u16 body 10 in
  let? leftmost_child := read_u64 body 12 in
  let? reserved := slice body 20 32 in
  guard? negb ((leftmost_child <? 2) || any_nonzero reserved) else Corruption "invalid internal header" in
  let? _region := validate_slot_region count slot_end records_start INTERNAL_HEADER_SIZE (len body) in
  let? '(entries, ranges) := foldR (decode_internal_step records_start body) ([], []) (range_to count) in
  let? _ranges := ensure_non_overlapping ranges "overlapping {kind}" in
  let? _sorted := ensure_sorted_internal entries in
  Ok (PInternal lsn leftmost_child entries).

(** ** Overflow and free pages *)

Definition encode_overflow (next : option PageId) (total_length : Z) (chunk : list byte)
    : Result Error (list byte) :=
  guard? negb ((total_length =? 0) || (MAX_VALUE_SIZE <? total_length)) else
    InvalidInput "overflow value length is outside limits" in
  guard? negb ((OVERFLOW_DATA_SIZE <? len chunk) || (U16_MAX <? len chunk) || is_empty chunk) else
    InvalidInput "overflow chunk length is invalid" in
  let body := zeros BODY_SIZE in
  let? body := copy_from_slice body 0 4 OVERFLOW_MAGIC in
  let? body := copy_from_slice body 4 6 (u16_to_le_bytes LAYOUT_VERSION) in
  let? body := copy_from_slice body 8 16 (u64_to_le_bytes (encode_page_id next)) in
  let? body := copy_from_slice body 16 24 (u64_to_le_bytes total_length) in
  let? body := copy_from_slice body 24 26 (u16_to_le_bytes (as_u16 (len chunk))) in
  copy_from_slice body OVERFLOW_DATA_OFFSET (OVERFLOW_DATA_OFFSET + len chunk) chunk.

Definition decode_overflow (lsn : Lsn) (body : list byte) : Result Error PageData :=
  let? _size := check_body_size body in
  let? magic := slice body 0 4 in
  guard? bytes_eqb magic OVERFLOW_MAGIC else Corruption "overflow layout magic mismatch" in
  let? version := slice body 4 6 in
  let? _version := check_version version in
  let? reserved := slice body 6 8 in
  let? reserved' := slice body 26 32 in
  guard? negb (any_nonzero reserved || any_nonzero reserved') else
    Corruption "overflow reserved bytes are non-zero" in
  let? next := read_u64 body 8 in
  let? total_length := read_u64 body 16 in
  let? chunk_length := read_u16 body 24 in
  guard? negb ((total_length =? 0) || (MAX_VALUE_SIZE <? total_length) || (chunk_length =? 0)) else
    Corruption "overflow length is invalid" in
  guard? negb (len body <? OVERFLOW_DATA_OFFSET + chunk_length) else
    Corruption "overflow chunk exceeds page" in
  let? chunk := slice body OVERFLOW_DATA_OFFSET (OVERFLOW_DATA_OFFSET + chunk_length) in
  Ok (POverflow lsn (decode_page_id next) total_length chunk).

Definition encode_free (next : option PageId) : Result Error (list byte) :=
  let body := zeros BODY_SIZE in
  let? body := copy_from_slice body 0 4 FREE_MAGIC in
  let? body := copy_from_slice body 4 6 (u16_to_le_bytes LAYOUT_VERSION) in
  copy_from_slice body 8 16 (u64_to_le_bytes (encode_page_id next)).

Definition decode_free (lsn : Lsn) (body : list byte) : Result Error PageData :=
  let? _size := check_body_size body in
  let? magic := slice body 0 4 in
  guard? bytes_eqb magic FREE_MAGIC else Corruption "free-page layout magic mismatch" in
  let? version := slice body 4 6 in
  let? _version := check_version version in
  let? reserved := slice body 6 8 in
  let? reserved' := slice body 16 (len body) in
  guard? negb (any_nonzero reserved || any_nonzero reserved') else
    Corruption "free-page reserved bytes are non-zero" in
  let? next := read_u64 body 8 in
  Ok (PFree lsn (decode_page_id next)).

(** ** Pages *)

Definition encode_body (p : PageData) : Result Error (list byte) :=
  match p with
  | PLeaf _ next_leaf entries => encode_leaf next_leaf entries
  | PInternal _ leftmost_child entries => encode_internal leftmost_child entries
  | POverflow _ next total_length chunk => encode_overflow next total_length chunk
  | PFree _ next => encode_free next
  end.

Definition leaf_fits (entries : list LeafEntry) : bool := is_ok (encode_leaf None entries).
Definition internal_fits (leftmost_child : PageId) (entries : list InternalEntry) : bool :=
  is_ok (encode_internal leftmost_child entries).

Definition PageData_decode (page : DecodedPage) : Result Error PageData :=
  guard? flags (header page) =? 0 else Corruption "page {} has unsupported flags {:#x}" in
  match page_type (header page) with
  | Leaf_ => decode_leaf (page_lsn (header page)) (body page)
  | Internal_ => decode_internal (page_lsn (header page)) (body page)
  | Overflow_ => decode_overflow (page_lsn (header page)) (body page)
  | Free_ => decode_free (page_lsn (header page)) (body page)
  | Test_ => Err (Corruption "test pages are not valid database pages")
  end.

Section pages.
Context `{Crc32c}.

Definition PageData_encode (p : PageData) (page_id : PageId) : Result Error (list byte) :=
  let? body := encode_body p in
  encode_page (PageHeader_new (PageData_page_type p) page_id (PageData_lsn p)) body.

End pages.
