(* ===== verification/FormatCodec.v ===== *)
(** * FormatCodec: the page layouts are faithful

    Round trips of the leaf, internal, overflow and free bodies of format.rs,
    which entries fit a page, and decoding without panics. *)

From S2P Require Import Prelude Core Crc Page Superblock Format.

Lemma windows2_cons {A} (p : A → A → bool) x y l :
  windows2 p (x :: y :: l) = p x y && windows2 p (y :: l).
Proof. done. Qed.

Lemma fmap_rev {A B} (f : A → B) l : f <$> rev l = rev (f <$> l).
Proof. induction l as [|x l IH]; [done|]. simpl. by rewrite fmap_app, IH. Qed.

Lemma len_fmap {A B} (f : A → B) l : len (f <$> l) = len l.
Proof. unfold len. by rewrite length_fmap. Qed.

(** ** Placing records *)

Section slotted.
Context (slot_bytes : Z) (full : Error).

(** Records with their key lengths, in slot order. *)
Abbreviation placed := (list (list byte * Z)).

Definition total_size (rs : placed) : Z := foldr (λ r n, len r.1 + n) 0 rs.

(** The slots of the records, the last one ending at [BODY_SIZE]. *)
Fixpoint slots_of (rs : placed) : list Slot :=
  match rs with
  | [] => []
  | r :: rs => (BODY_SIZE - total_size (r :: rs), len r.1, r.2) :: slots_of rs
  end.

Definition records_bytes (rs : placed) : list byte := concat rs.*1.

Lemma len_records_bytes rs : len (records_bytes rs) = total_size rs.
Proof.
  induction rs as [|[r k] rs IH]; [done|]. unfold records_bytes in *.
  rewrite fmap_cons. cbn [concat]. by rewrite len_app, IH.
Qed.

Lemma total_size_nonneg rs : 0 ≤ total_size rs.
Proof. rewrite <- len_records_bytes. apply len_nonneg. Qed.

Lemma splice_below {A} (l r s : list A) a :
  0 ≤ a - len r → a + len s ≤ len l → splice (splice l a s) (a - len r) r = splice l (a - len r) (r ++ s).
Proof.
  intros Ha Hs. pose proof (len_nonneg r). pose proof (len_nonneg s). apply list_eq. intros i.
  rewrite !lookup_splice by (rewrite ?len_app, ?splice_len; lia). rewrite len_app.
  destruct (decide (a - len r ≤ Z.of_nat i < a - len r + len r)) as [H1|H1].
  - rewrite decide_True by lia. rewrite lookup_app_l; [done|]. unfold len in *. lia.
  - destruct (decide (a ≤ Z.of_nat i < a + len s)) as [H2|H2].
    + rewrite decide_True by lia. rewrite lookup_app_r by (unfold len in *; lia). f_equal. unfold len in *. lia.
    + by rewrite decide_False by lia.
Qed.

Lemma place_records body rs :
  len body = BODY_SIZE → 0 ≤ slot_bytes ≤ BODY_SIZE →
  foldR (λ acc r, place_record slot_bytes full acc r.1 r.2) (body, BODY_SIZE, []) (rev rs) =
    if slot_bytes <=? BODY_SIZE - total_size rs
    then Ok (splice body (BODY_SIZE - total_size rs) (records_bytes rs), BODY_SIZE - total_size rs, rev (slots_of rs))
    else Err full.
Proof.
  intros Hb Hs. induction rs as [|[r k] rs IH].
  - cbn [total_size foldr rev foldR]. rewrite (proj2 (Z.leb_le _ _)) by lia. unfold records_bytes. cbn [fmap list_fmap concat rev slots_of].
    rewrite splice_id; [by rewrite Z.sub_0_r|lia| |].
    + change (len (@nil byte)) with 0. lia.
    + change (len (@nil byte)) with 0. by rewrite Z.add_0_r, sub_empty.
  - simpl rev. rewrite foldR_app, IH. pose proof (total_size_nonneg rs). pose proof (len_nonneg r).
    cbn [total_size foldr fst]. fold (total_size rs).
    destruct (slot_bytes <=? BODY_SIZE - total_size rs) eqn:E1; bool_props.
    2: { cbn [rbind]. rewrite (proj2 (Z.leb_gt _ _)) by lia. done. }
    cbn [rbind foldR]. unfold place_record, checked_sub. cbn [fst snd].
    destruct (len r <=? _) eqn:E2; bool_props; cbn [ok_or rbind].
    2: { by rewrite (proj2 (Z.leb_gt slot_bytes _)) by lia. }
    destruct (_ <? slot_bytes) eqn:E3; bool_props; cbn [negb].
    { by rewrite (proj2 (Z.leb_gt slot_bytes _)) by lia. }
    rewrite (proj2 (Z.leb_le slot_bytes _)) by lia.
    rewrite copy_Ok by (rewrite ?splice_len; lia). cbn [rbind].
    rewrite splice_below by (rewrite ?len_records_bytes; lia).
    cbn [slots_of rev]. unfold records_bytes. cbn [fmap list_fmap concat fst total_size foldr].
    fold (total_size rs).
    replace (BODY_SIZE - total_size rs - len r) with (BODY_SIZE - (len r + total_size rs)) by lia. done.
Qed.

End slotted.

(** ** The slot array *)

(** The fields of slot [i] hold [s]. *)
Definition slot_at (header_size : Z) (body : list byte) (i : nat) (s : Slot) : Prop :=
  let at_ := header_size + Z.of_nat i * SLOT_SIZE in
  sub body at_ (at_ + 2) = u16_to_le_bytes (as_u16 s.1.1) ∧
  sub body (at_ + 2) (at_ + 4) = u16_to_le_bytes (as_u16 s.1.2) ∧
  sub body (at_ + 4) (at_ + 6) = u16_to_le_bytes (as_u16 s.2).

Lemma write_slot_spec header_size body i s :
  0 ≤ header_size → header_size + (Z.of_nat i + 1) * SLOT_SIZE ≤ len body →
  ∃ body', write_slot header_size body (i, s) = Ok body' ∧ len body' = len body ∧ slot_at header_size body' i s ∧
    ∀ a b, 0 ≤ a ≤ b → b ≤ header_size + Z.of_nat i * SLOT_SIZE ∨ header_size + (Z.of_nat i + 1) * SLOT_SIZE ≤ a →
      sub body' a b = sub body a b.
Proof.
  intros Hh Hb. destruct s as [[offset length] key_length]. unfold write_slot.
  repeat (rewrite copy_Ok by len_tac; cbn [rbind]). eexists. split; [done|]. split; [by len_simpl|]. split.
  - unfold slot_at. cbn [fst snd]. split_and!; read_back; done.
  - intros a b Hab Hout. read_back. done.
Qed.

Lemma write_slots_spec header_size k slots body :
  0 ≤ header_size → header_size + (Z.of_nat k + len slots) * SLOT_SIZE ≤ len body →
  ∃ body', foldR (write_slot header_size) body (imap (λ i s, ((k + i)%nat, s)) slots) = Ok body' ∧
    len body' = len body ∧
    (∀ i s, slots !! i = Some s → slot_at header_size body' (k + i)%nat s) ∧
    ∀ a b, 0 ≤ a ≤ b →
      b ≤ header_size + Z.of_nat k * SLOT_SIZE ∨ header_size + (Z.of_nat k + len slots) * SLOT_SIZE ≤ a →
      sub body' a b = sub body a b.
Proof.
  revert k body. induction slots as [|s slots IH]; intros k body Hh Hb.
  - exists body. split_and!; done.
  - rewrite len_cons in *. pose proof (len_nonneg slots). cbn [imap foldR]. rewrite Nat.add_0_r.
    destruct (write_slot_spec header_size body k s Hh) as (b1 & E1 & L1 & S1 & O1); [lia|].
    rewrite E1. cbn [rbind].
    destruct (IH (S k) b1) as (b2 & E2 & L2 & S2 & O2); [done|lia|].
    erewrite imap_ext; [rewrite E2|intros i x _; unfold compose; f_equal; lia].
    exists b2. split_and!; [done|lia| |].
    + intros [|i] s' Hs'.
      * injection Hs' as <-. rewrite Nat.add_0_r. unfold slot_at in *. cbn [fst snd] in *.
        rewrite !O2 by lia. done.
      * replace (k + S i)%nat with (S k + i)%nat by lia. by apply S2.
    + intros a b Hab Hout. rewrite O2, O1 by lia. done.
Qed.

(** ** Record images *)

Definition encodable (key : list byte) : Prop := len key ≤ U16_MAX ∧ is_ok (DocumentKey_decode key) = true.

Definition inline_bytes (v : option ValueRef) : list byte := (value_fields v).2.

Definition leaf_record_size (e : LeafEntry) : Z :=
  LEAF_RECORD_HEADER_SIZE + len (le_key e) + len (inline_bytes (le_value e)).

Definition leaf_record_image (e : LeafEntry) : list byte :=
  let '(flags, value_length, aux, inline) := value_fields (le_value e) in
  splice (splice (splice (splice (splice (splice (splice (zeros (leaf_record_size e))
    0 (u64_to_le_bytes (le_revision e)))
    8 (u64_to_le_bytes value_length))
    16 (u64_to_le_bytes aux))
    24 [flags])
    26 (u16_to_le_bytes (as_u16 (len (le_key e)))))
    LEAF_RECORD_HEADER_SIZE (le_key e))
    (LEAF_RECORD_HEADER_SIZE + len (le_key e)) inline.

Lemma leaf_record_size_min e : LEAF_RECORD_HEADER_SIZE ≤ leaf_record_size e.
Proof.
  unfold leaf_record_size. pose proof (len_nonneg (le_key e)).
  pose proof (len_nonneg (inline_bytes (le_value e))). lia.
Qed.

Lemma len_leaf_record_image e : len (leaf_record_image e) = leaf_record_size e.
Proof.
  pose proof (leaf_record_size_min e). unfold leaf_record_image.
  pose proof (len_nonneg (le_key e)). destruct (value_fields _) as [[[flags vl] aux] inline]. len_tac.
Qed.

Lemma encode_leaf_record_Ok e :
  encodable (le_key e) → leaf_record_size e ≤ U64_MAX → encode_leaf_record e = Ok (leaf_record_image e).
Proof.
  intros [Hk Hd] Hs. unfold encode_leaf_record, leaf_record_image, leaf_record_size, inline_bytes in *.
  rewrite (proj2 (Z.ltb_ge _ _)) by lia. cbn [negb].
  destruct (DocumentKey_decode (le_key e)); try discriminate. cbn [map_err rbind].
  destruct (value_fields (le_value e)) as [[[flags vl] aux] inline]. cbn [snd] in *.
  pose proof (len_nonneg (le_key e)). pose proof (len_nonneg inline).
  unfold checked_add. rewrite (proj2 (Z.leb_le _ _)) by lia. cbn [mbind option_bind].
  rewrite (proj2 (Z.leb_le _ _)) by lia. cbn [ok_or rbind]. unfold set_index.
  repeat (rewrite copy_Ok by len_tac; cbn [rbind]). done.
Qed.

Lemma encode_leaf_record_inv e r :
  encode_leaf_record e = Ok r → encodable (le_key e) ∧ leaf_record_size e ≤ U64_MAX.
Proof.
  unfold encode_leaf_record, encodable, leaf_record_size, inline_bytes. intros E. ok_step E. ok_step E. bool_props.
  destruct (DocumentKey_decode (le_key e)); try discriminate.
  destruct (value_fields (le_value e)) as [[[flags vl] aux] inline]. ok_step E. cbn [snd].
  unfold checked_add in E2. destruct (_ <=? U64_MAX) eqn:E3; [|discriminate]. cbn in E2.
  destruct (_ <=? U64_MAX) eqn:E4 in E2; [|discriminate]. bool_props. done.
Qed.

(** Fixed-width reads inside the buffer. *)
Lemma read_u16_Ok bytes offset :
  0 ≤ offset → offset + 2 ≤ len bytes → len bytes ≤ U64_MAX →
  read_u16 bytes offset = Ok (from_le_bytes (sub bytes offset (offset + 2))).
Proof.
  intros. unfold read_u16, read_array, checked_add. rewrite !(proj2 (Z.leb_le _ _)) by lia. cbn [ok_or rbind].
  by rewrite (proj2 (Z.leb_le _ _)) by lia.
Qed.

Lemma read_u64_Ok bytes offset :
  0 ≤ offset → offset + 8 ≤ len bytes → len bytes ≤ U64_MAX →
  read_u64 bytes offset = Ok (from_le_bytes (sub bytes offset (offset + 8))).
Proof.
  intros. unfold read_u64, read_array, checked_add. rewrite !(proj2 (Z.leb_le _ _)) by lia. cbn [ok_or rbind].
  by rewrite (proj2 (Z.leb_le _ _)) by lia.
Qed.

(** A value reference that can be stored: an overflow chain has a head and a
    positive length within the limit. *)
Definition wf_value (v : option ValueRef) : Prop :=
  match v with
  | Some (Overflow head length) => 0 ≤ head < NULL_PAGE_ID ∧ 0 < length ≤ MAX_VALUE_SIZE
  | _ => True
  end.

Definition wf_leaf_entry (e : LeafEntry) : Prop :=
  is_u64 (le_revision e) ∧ wf_value (le_value e).

Lemma as_u16_small z : is_u16 z → as_u16 z = z.
Proof. intros. unfold as_u16. apply Z.mod_small. lia. Qed.

Lemma decode_leaf_record_image e :
  wf_leaf_entry e → encodable (le_key e) → leaf_record_size e ≤ MAX_VALUE_SIZE →
  decode_leaf_record (leaf_record_image e) (len (le_key e)) = Ok e.
Proof.
  intros [Hr Hv] [Hk Hd] Hs. pose proof (len_leaf_record_image e) as HL.
  pose proof (leaf_record_size_min e) as Hmin.
  destruct e as [key rev v]. cbn [le_key le_revision le_value] in *.
  unfold leaf_record_size, inline_bytes in Hs, Hmin, HL. cbn [le_key le_value] in Hs, Hmin, HL.
  unfold leaf_record_image in HL |- *. unfold leaf_record_size, inline_bytes in HL |- *. cbn [le_key le_value le_revision] in HL |- *.
  assert (Hvl : is_u64 (value_fields v).1.1.2 ∧ is_u64 (value_fields v).1.2 ∧ (value_fields v).1.1.2 ≤ MAX_VALUE_SIZE).
  { destruct v as [[value|head length]|]; simpl in *.
    - pose proof (len_nonneg value). pose proof (len_nonneg key). lia.
    - unfold NULL_PAGE_ID in Hv. lia.
    - unfold NULL_PAGE_ID. lia. }
  destruct (value_fields v) as [[[fl vl] aux] inline] eqn:Ev. cbn [fst snd] in *. destruct Hvl as (Hvl & Haux & Hvm).
  pose proof (len_nonneg key). pose proof (len_nonneg inline).
  set (img := splice _ _ inline) in *.
  assert (F : sub img 0 8 = u64_to_le_bytes rev ∧ sub img 8 16 = u64_to_le_bytes vl ∧
    sub img 16 24 = u64_to_le_bytes aux ∧ sub img 24 25 = [fl] ∧ sub img 25 26 = [Byte.x00] ∧
    sub img 26 28 = u16_to_le_bytes (as_u16 (len key)) ∧ sub img 28 32 = zeros 4 ∧
    sub img 32 (32 + len key) = key ∧ sub img (32 + len key) (32 + len key + len inline) = inline).
  { subst img. unfold LEAF_RECORD_HEADER_SIZE in *. split_and!; read_back; rewrite ?sub_zeros by lia; done. }
  clearbody img. destruct F as (F1 & F2 & F3 & F4 & F5 & F6 & F7 & F8 & F9).
  unfold decode_leaf_record. rewrite !read_u64_Ok, !read_u16_Ok by lia. cbn [rbind].
  change (0 + 8) with 8. change (8 + 8) with 16. change (16 + 8) with 24. change (26 + 2) with 28.
  rewrite F1, F2, F3, F6, as_u16_small, !from_u64, from_u16 by lia.
  rewrite (proj2 (Z.ltb_ge _ _)) by lia. cbn [negb].
  rewrite (index_sub _ 24 fl), (index_sub _ 25 Byte.x00) by done. cbn [rbind].
  rewrite bool_decide_eq_true_2 by done. rewrite slice_Ok by lia. cbn [rbind]. rewrite F7, any_nonzero_zeros. cbn [negb].
  rewrite Z.eqb_refl. unfold checked_add. rewrite (proj2 (Z.leb_le _ _)) by lia. cbn [ok_or rbind].
  rewrite (proj2 (Z.ltb_ge _ _)) by lia. cbn [negb]. rewrite slice_Ok by lia. cbn [rbind]. change LEAF_RECORD_HEADER_SIZE with 32.
  rewrite F8. destruct (DocumentKey_decode key); try discriminate. cbn [map_err rbind]. rewrite HL.
  destruct v as [[value|head length]|]; cbn in Ev; injection Ev as <- <- <- <-; cbn [rbind].
  - unfold usize_try_from. rewrite (proj2 (Z.leb_le _ _)) by lia. cbn [ok_or rbind].
    rewrite (proj2 (Z.leb_le _ _)) by lia. cbn [ok_or rbind]. rewrite !Z.eqb_refl. cbn [negb orb].
    rewrite slice_Ok by lia. cbn [rbind]. by rewrite F9.
  - cbn in Hv. rewrite len_nil, Z.add_0_r, Z.eqb_refl, !(proj2 (Z.eqb_neq _ _)) by lia. done.
  - change (len (@nil byte)) with 0. rewrite Z.add_0_r, (Z.eqb_refl (_ + _)). done.
Qed.

(** ** Slotted pages *)

Lemma length_slots_of rs : length (slots_of rs) = length rs.
Proof. induction rs; simpl; auto. Qed.

Lemma slots_of_lookup rs i r :
  rs !! i = Some r → slots_of rs !! i = Some (BODY_SIZE - total_size (drop i rs), len r.1, r.2).
Proof. revert i. induction rs as [|r' rs IH]; intros [|i] H; simplify_eq/=; [done|]. by apply IH. Qed.

Lemma total_size_drop rs i r :
  rs !! i = Some r → total_size (drop i rs) = len r.1 + total_size (drop (S i) rs).
Proof. intros H. by rewrite (drop_S _ _ _ H). Qed.

Lemma total_size_drop_le rs i : total_size (drop i rs) ≤ total_size rs.
Proof.
  revert i. induction rs as [|r rs IH]; intros [|i]; simpl; try lia. pose proof (len_nonneg r.1).
  specialize (IH i). lia.
Qed.

(** The record of slot [i] inside the record area. *)
Lemma sub_records_bytes rs i r (n := total_size rs) (k := total_size (drop i rs)) :
  rs !! i = Some r → sub (records_bytes rs) (n - k) (n - k + len r.1) = r.1.
Proof.
  intros H. subst n k. rewrite <- (take_drop_middle _ _ _ H) at 1 2. unfold records_bytes.
  assert (Hn : total_size rs - total_size (drop i rs) = len (concat (take i rs).*1)).
  { rewrite <- (take_drop i rs) at 1. rewrite <- !len_records_bytes. unfold records_bytes.
    rewrite fmap_app, concat_app, len_app. lia. }
  rewrite fmap_app, concat_app, fmap_cons. cbn [concat]. rewrite (take_drop_middle _ _ _ H), Hn. by apply sub_app_exact.
Qed.

(** What encoding a slotted page leaves in the body. *)
Record slotted (header_size : Z) (body0 body : list byte) (rs : list (list byte * Z)) : Prop := {
  slotted_len : len body = BODY_SIZE;
  slotted_start : sub body 10 12 = u16_to_le_bytes (BODY_SIZE - total_size rs);
  slotted_low a b : 0 ≤ a ≤ b → b ≤ 10 → sub body a b = sub body0 a b;
  slotted_high a b : 12 ≤ a ≤ b → b ≤ header_size → sub body a b = sub body0 a b;
  slotted_slots i s : slots_of rs !! i = Some s → slot_at header_size body i s;
  slotted_records : sub body (BODY_SIZE - total_size rs) BODY_SIZE = records_bytes rs
}.

Lemma write_slotted header_size body0 rs :
  len body0 = BODY_SIZE → 12 ≤ header_size → header_size + len rs * SLOT_SIZE ≤ BODY_SIZE - total_size rs →
  ∃ body, write_slots header_size
      (splice body0 (BODY_SIZE - total_size rs) (records_bytes rs), BODY_SIZE - total_size rs, rev (slots_of rs))
    = Ok body ∧ slotted header_size body0 body rs.
Proof.
  intros Hb Hh Hroom. pose proof (total_size_nonneg rs). pose proof (len_nonneg rs). pose proof (len_records_bytes rs).
  unfold write_slots. rewrite rev_involutive.
  rewrite copy_Ok by (rewrite ?splice_len, ?len_u16; lia). cbn [rbind].
  assert (Hls : len (slots_of rs) = len rs) by (unfold len; by rewrite length_slots_of).
  set (b1 := splice _ 10 _).
  assert (Hb1 : len b1 = BODY_SIZE) by (subst b1; rewrite !splice_len; lia).
  destruct (write_slots_spec header_size 0 (slots_of rs) b1) as (b2 & E & L & S & O); [lia|lia|].
  change (imap pair (slots_of rs)) with (imap (λ i s, ((0 + i)%nat, s)) (slots_of rs)). rewrite E.
  assert (Hu : as_u16 (BODY_SIZE - total_size rs) = BODY_SIZE - total_size rs) by (apply as_u16_small; lia).
  exists b2. split; [done|]. constructor; [lia|..].
  - rewrite O by lia. subst b1. rewrite sub_splice_same by (rewrite ?splice_len, ?len_u16; lia). by rewrite Hu.
  - intros a b ? ?. rewrite O by lia. subst b1. rewrite !sub_splice_ne by (rewrite ?splice_len, ?len_u16; lia). done.
  - intros a b ? ?. rewrite O by lia. subst b1. rewrite !sub_splice_ne by (rewrite ?splice_len, ?len_u16; lia). done.
  - intros i s Hs. apply S in Hs. exact Hs.
  - rewrite O by lia. subst b1. rewrite sub_splice_ne by (rewrite ?splice_len, ?len_u16; lia).
    apply sub_splice_same; lia.
Qed.

Definition slot_range (rs : list (list byte * Z)) (i : nat) (r : list byte * Z) : Z * Z :=
  let offset := BODY_SIZE - total_size (drop i rs) in (offset, offset + len r.1).

Lemma read_slot_Ok header_size record_header overflows outside body0 body rs i r :
  slotted header_size body0 body rs → 0 ≤ header_size →
  header_size + len rs * SLOT_SIZE ≤ BODY_SIZE - total_size rs →
  rs !! i = Some r → record_header ≤ len r.1 → is_u16 r.2 →
  let '(offset, end_) := slot_range rs i r in
  read_slot header_size record_header (BODY_SIZE - total_size rs) overflows outside body (Z.of_nat i) =
    Ok (offset, end_, r.2) ∧
  slice (E:=Error) body offset end_ = Ok r.1.
Proof.
  intros W Hh Hroom Hi Hrh Hk. unfold slot_range.
  pose proof (slotted_len _ _ _ _ W) as HL. pose proof (slotted_records _ _ _ _ W) as HR.
  destruct (slotted_slots _ _ _ _ W i _ (slots_of_lookup _ _ _ Hi)) as (S1 & S2 & S3). cbn [fst snd] in *.
  assert (Hlt : (i < length rs)%nat) by by eapply lookup_lt_Some.
  pose proof (total_size_drop rs i r Hi) as Hd. pose proof (total_size_drop_le rs i) as Hle.
  pose proof (total_size_nonneg (drop (S i) rs)). pose proof (len_nonneg r.1). pose proof (len_nonneg rs).
  assert (Hslot : header_size + Z.of_nat i * SLOT_SIZE + 8 ≤ BODY_SIZE) by (pose proof (total_size_nonneg rs); unfold len in *; lia).
  unfold read_slot. rewrite !read_u16_Ok by lia. cbn [rbind].
  replace (header_size + Z.of_nat i * SLOT_SIZE + 2 + 2) with (header_size + Z.of_nat i * SLOT_SIZE + 4) by lia.
  replace (header_size + Z.of_nat i * SLOT_SIZE + 4 + 2) with (header_size + Z.of_nat i * SLOT_SIZE + 6) by lia.
  rewrite S1, S2, S3, !as_u16_small, !from_u16 by lia.
  unfold checked_add. rewrite (proj2 (Z.leb_le _ _)) by lia. cbn [ok_or rbind].
  rewrite !(proj2 (Z.ltb_ge _ _)) by lia. cbn [orb negb]. split; [done|].
  rewrite slice_Ok by lia. f_equal.
  etrans; [|exact (sub_records_bytes rs i r Hi)]. rewrite <- HR, sub_sub by lia. f_equal; lia.
Qed.

(** The ranges in slot order are sorted and do not overlap. *)
Lemma slot_ranges_sorted rs (ranges := imap (slot_range rs) rs) :
  Forall (λ r, 0 < len r.1) rs →
  merge_sort range_le ranges = ranges ∧ windows2 (λ a b, negb (b.1 <? a.2)) ranges = true.
Proof.
  intros Hpos.
  assert (Hgen : ∀ k, let l := imap (λ i, slot_range rs (k + i)) (drop k rs) in
    StronglySorted range_le l ∧ windows2 (λ a b, negb (b.1 <? a.2)) l = true ∧
    Forall (λ a, BODY_SIZE - total_size (drop k rs) ≤ a.1) l).
  { intros k. remember (length (drop k rs)) as n eqn:Hn. revert k Hn.
    induction n as [|n IH]; intros k Hn.
    - symmetry in Hn. apply length_zero_iff_nil in Hn. rewrite Hn. simpl. split_and!; constructor.
    - destruct (rs !! k) as [r|] eqn:Hk; [|apply lookup_ge_None in Hk; rewrite length_drop in Hn; lia].
      rewrite (drop_S _ _ _ Hk) in *. cbn [imap]. rewrite Nat.add_0_r.
      destruct (IH (S k)) as (I1 & I2 & I3); [simpl in Hn; lia|].
      rewrite (imap_ext _ (λ i, slot_range rs (S k + i))) by (intros i x _; unfold compose; f_equal; lia).
      cbn [total_size foldr]. fold (total_size (drop (S k) rs)).
      set (l := imap _ (drop (S k) rs)) in *.
      assert (Hr : slot_range rs k r = (BODY_SIZE - (len r.1 + total_size (drop (S k) rs)),
         BODY_SIZE - total_size (drop (S k) rs))).
      { unfold slot_range. rewrite (drop_S _ _ _ Hk). cbn [total_size foldr]. fold (total_size (drop (S k) rs)).
        f_equal. lia. }
      assert (0 < len r.1) by (rewrite Forall_lookup in Hpos; by eapply Hpos).
      rewrite Hr. clearbody l. split_and!.
      + constructor; [done|]. eapply Forall_impl; [exact I3|]. intros [a b] Ha. left. simpl in *. lia.
      + destruct l as [|[a b] l]; [done|]. rewrite windows2_cons, I2, andb_true_r.
        inversion_clear I3. simpl in *. by rewrite (proj2 (Z.ltb_ge _ _)) by lia.
      + constructor; [simpl; lia|]. eapply Forall_impl; [exact I3|]. intros [a b] Ha. simpl in *. lia. }
  destruct (Hgen 0%nat) as (G1 & G2 & _). rewrite drop_0 in *. split; [|done].
  assert (Htr : Transitive range_le) by (intros [??] [??] [??]; unfold range_le; simpl; lia).
  assert (Hto : Total range_le) by (intros [??] [??]; unfold range_le; simpl; lia).
  assert (Has : AntiSymm eq range_le) by (intros [??] [??]; unfold range_le; simpl; intros; f_equal; lia).
  apply (StronglySorted_unique range_le); [by apply StronglySorted_merge_sort|done|]. apply merge_sort_Permutation.
Qed.

(** ** Sorted keys *)

Definition blt (a b : list byte) : Prop := bytes_lt a b = true.

Global Instance blt_trans : Transitive blt.
Proof. intros a b c. apply bytes_lt_trans. Qed.

Definition keys_sorted (keys : list (list byte)) : Prop := StronglySorted blt keys.

Lemma windows2_sorted {A} (f : A → list byte) l :
  windows2 (λ a b, negb (bytes_le (f b) (f a))) l = true ↔ keys_sorted (f <$> l).
Proof.
  unfold keys_sorted. assert (∀ a b, negb (bytes_le (f b) (f a)) = true ↔ blt (f a) (f b)) as Hlt.
  { intros a b. rewrite bytes_le_negb, negb_involutive. done. }
  split.
  - intros W. apply Sorted_StronglySorted; [apply _|]. induction l as [|x l IH]; [constructor|].
    destruct l as [|y l]; [repeat constructor|]. rewrite windows2_cons in W. apply andb_prop in W as [W1 W2].
    constructor; [by apply IH|]. constructor. by apply Hlt.
  - induction l as [|x l IH]; [done|]. intros S. apply StronglySorted_inv in S as [S1 S2].
    destruct l as [|y l]; [done|]. rewrite windows2_cons. apply andb_true_intro. split; [|by apply IH].
    apply Hlt. by inversion S2.
Qed.

Lemma foldR_fmap {E A A' B} (f : B → A → Result E B) (g : B → A' → Result E B) (h : A → A') b l :
  Forall (λ x, ∀ b, f b x = g b (h x)) l → foldR f b l = foldR g b (h <$> l).
Proof.
  intros Hl. revert b. induction Hl as [|x l Hx _ IH]; intros b; [done|]. simpl. rewrite Hx.
  destruct (g b (h x)); simpl; auto.
Qed.

Lemma foldR_Ok_Forall {E A B} (f : B → A → Result E B) b l b' :
  foldR f b l = Ok b' → Forall (λ x, ∃ b b', f b x = Ok b') l.
Proof.
  revert b. induction l as [|x l IH]; intros b H; [constructor|]. simpl in H. ok_step H.
  constructor; [eauto|by eapply IH].
Qed.

(** ** Leaf pages *)

Definition leaf_record (e : LeafEntry) : list byte * Z := (leaf_record_image e, len (le_key e)).
Definition leaf_size (entries : list LeafEntry) : Z :=
  LEAF_HEADER_SIZE + len entries * SLOT_SIZE + total_size (leaf_record <$> entries).

(** The lists of entries that fit a leaf page. *)
Definition leaf_ok (entries : list LeafEntry) : Prop :=
  keys_sorted (le_key <$> entries) ∧ Forall (λ e, encodable (le_key e)) entries ∧ leaf_size entries ≤ BODY_SIZE.

Lemma total_size_elem rs r : r ∈ rs → len r.1 ≤ total_size rs.
Proof.
  induction rs as [|r' rs IH]; [by intros ?%not_elem_of_nil|]. cbn [total_size foldr]. fold (total_size rs).
  pose proof (total_size_nonneg rs). pose proof (len_nonneg r'.1). intros [->|?%IH]%elem_of_cons; lia.
Qed.

Lemma leaf_record_fits entries e :
  leaf_ok entries → e ∈ entries → leaf_record_size e ≤ BODY_SIZE.
Proof.
  intros (_ & _ & Hs) He. unfold leaf_size in Hs. pose proof (len_nonneg entries).
  pose proof (total_size_elem (leaf_record <$> entries) (leaf_record e)) as Ht.
  rewrite <- len_leaf_record_image. cbn [leaf_record fst] in Ht.
  pose proof (Ht (list_elem_of_fmap_2 leaf_record _ _ He)). lia.
Qed.

(** The header of a slotted page before its records are placed. *)
Definition slotted_header (magic : list byte) (count slot_end next : Z) : list byte :=
  splice (splice (splice (splice (splice (zeros BODY_SIZE) 0 magic) 4 (u16_to_le_bytes LAYOUT_VERSION))
    6 (u16_to_le_bytes count)) 8 (u16_to_le_bytes slot_end)) 12 (u64_to_le_bytes next).

Lemma slotted_header_fields magic count slot_end next (body := slotted_header magic count slot_end next) :
  len magic = 4 → len body = BODY_SIZE ∧
  sub body 0 4 = magic ∧ sub body 4 6 = u16_to_le_bytes LAYOUT_VERSION ∧ sub body 6 8 = u16_to_le_bytes count ∧
  sub body 8 10 = u16_to_le_bytes slot_end ∧ sub body 12 20 = u64_to_le_bytes next ∧ sub body 20 32 = zeros 12.
Proof.
  intros Hm. subst body. unfold slotted_header. split; [by len_simpl|].
  split_and!; read_back; rewrite ?sub_zeros by lia; done.
Qed.

Lemma encode_leaf_Ok next entries :
  leaf_ok entries →
  ∃ body, encode_leaf next entries = Ok body ∧
    slotted LEAF_HEADER_SIZE
      (slotted_header LEAF_MAGIC (len entries) (LEAF_HEADER_SIZE + len entries * SLOT_SIZE) (encode_page_id next))
      body (leaf_record <$> entries).
Proof.
  intros Hok. pose proof (λ e, leaf_record_fits entries e Hok) as Hfit. destruct Hok as (Hs & He & Hsize).
  unfold leaf_size in Hsize. assert (len LEAF_MAGIC = 4) by done.
  pose proof (len_nonneg entries). pose proof (total_size_nonneg (leaf_record <$> entries)).
  unfold encode_leaf, checked_mul, checked_add. rewrite (proj2 (Z.leb_le _ _)) by lia. cbn [ok_or rbind].
  rewrite (proj2 (Z.leb_le _ _)) by lia. cbn [ok_or rbind]. rewrite !(proj2 (Z.ltb_ge _ _)) by lia. cbn [orb negb].
  unfold ensure_sorted_leaf. rewrite (proj2 (windows2_sorted le_key entries) Hs). cbn [rbind].
  repeat (rewrite copy_Ok by len_tac; cbn [rbind]). rewrite !as_u16_small by lia.
  fold (slotted_header LEAF_MAGIC (len entries) (LEAF_HEADER_SIZE + len entries * SLOT_SIZE) (encode_page_id next)).
  set (hdr := slotted_header _ _ _ _).
  assert (Hhdr : len hdr = BODY_SIZE) by by apply slotted_header_fields.
  rewrite (foldR_fmap _ (λ acc r, place_record (LEAF_HEADER_SIZE + len entries * SLOT_SIZE) (InvalidInput "leaf records exceed page capacity") acc r.1 r.2) leaf_record).
  2: { apply Forall_rev. apply Forall_forall. intros e Hin b. unfold place_leaf_entry.
       rewrite Forall_forall in He. rewrite encode_leaf_record_Ok; [done|by apply He|].
       specialize (Hfit e Hin). lia. }
  rewrite fmap_rev, place_records by lia. rewrite (proj2 (Z.leb_le _ _)) by lia. cbn [rbind].
  apply write_slotted; [done|lia|]. rewrite len_fmap. lia.
Qed.

Lemma encode_leaf_inv next entries body : encode_leaf next entries = Ok body → leaf_ok entries.
Proof.
  intros E. unfold encode_leaf in E. ok_step E. ok_step E. ok_step E. ok_step E. bool_props.
  unfold checked_mul in E0. destruct (_ <=? U64_MAX) in E0; [|discriminate]. injection E0 as <-.
  unfold checked_add in E1. destruct (_ <=? U64_MAX) in E1; [|discriminate]. injection E1 as <-.
  unfold ensure_sorted_leaf in E3. destruct (windows2 _ entries) eqn:Hw; [|discriminate]. apply windows2_sorted in Hw.
  pose proof (len_nonneg entries). assert (len LEAF_MAGIC = 4) by done.
  do 5 (rewrite copy_Ok in E by len_tac; cbn [rbind] in E).
  apply rbind_Ok in E as (placed & E1 & _). pose proof (foldR_Ok_Forall _ _ _ _ E1) as Hall.
  assert (He : Forall (λ e, encodable (le_key e) ∧ leaf_record_size e ≤ U64_MAX) entries).
  { apply Forall_rev in Hall. rewrite rev_involutive in Hall. eapply Forall_impl; [exact Hall|].
    intros e (b & b' & Hb). unfold place_leaf_entry in Hb. ok_step Hb. by eapply encode_leaf_record_inv. }
  rewrite (foldR_fmap _ (λ acc r, place_record (LEAF_HEADER_SIZE + len entries * SLOT_SIZE)
             (InvalidInput "leaf records exceed page capacity") acc r.1 r.2) leaf_record) in E1.
  2: { apply Forall_rev. eapply Forall_impl; [exact He|]. intros e [? ?] b. unfold place_leaf_entry.
       by rewrite encode_leaf_record_Ok. }
  rewrite fmap_rev, place_records in E1 by (rewrite ?len_zeros; len_tac).
  destruct (_ <=? _) eqn:E5 in E1; [|discriminate]. bool_props.
  split_and!; [done| |unfold leaf_size; lia]. eapply Forall_impl; [exact He|]. by intros e [??].
Qed.

Lemma leaf_fits_spec entries : leaf_fits entries = true ↔ leaf_ok entries.
Proof.
  unfold leaf_fits. split.
  - destruct (encode_leaf None entries) eqn:E; try discriminate. intros _. by eapply encode_leaf_inv.
  - intros Hok. by destruct (encode_leaf_Ok None entries Hok) as (body & -> & _).
Qed.

Lemma check_version_Ok : check_version (u16_to_le_bytes LAYOUT_VERSION) = Ok tt.
Proof. vm_compute. reflexivity. Qed.

Lemma range_to_seq {A} (l : list A) : range_to (len l) = Z.of_nat <$> seq 0 (length l).
Proof. unfold range_to. by rewrite to_nat_len. Qed.

(** Decoding the slots in order gives back the entries. *)
Lemma decode_steps {A} (step : list A * list (Z * Z) → Z → Result Error (list A * list (Z * Z)))
    (rec : A → list byte * Z) entries :
  (∀ i e acc, entries !! i = Some e →
     step acc (Z.of_nat i) = Ok (acc.1 ++ [e], acc.2 ++ [slot_range (rec <$> entries) i (rec e)])) →
  foldR step ([], []) (range_to (len entries)) = Ok (entries, imap (slot_range (rec <$> entries)) (rec <$> entries)).
Proof.
  intros Hstep. rewrite range_to_seq.
  assert (Hgen : ∀ done todo ranges, entries = done ++ todo →
    foldR step (done, ranges) (Z.of_nat <$> seq (length done) (length todo)) =
      Ok (entries, ranges ++ imap (λ i, slot_range (rec <$> entries) (length done + i)) (rec <$> todo))).
  { intros done todo. revert done. induction todo as [|e todo IH]; intros done ranges ->.
    - simpl. by rewrite !app_nil_r.
    - cbn [length seq fmap list_fmap foldR]. rewrite (Hstep (length done) e) by by apply list_lookup_middle.
      cbn [rbind fst snd]. specialize (IH (done ++ [e])). rewrite length_app in IH. simpl length in IH.
      replace (S (length done)) with (length done + 1)%nat by lia.
      rewrite IH by by rewrite <- app_assoc. rewrite <- !app_assoc. cbn [app imap]. rewrite Nat.add_0_r.
      do 4 f_equal. apply imap_ext. intros i x _. unfold compose. f_equal. lia. }
  exact (Hgen [] entries [] eq_refl).
Qed.

Definition wf_leaf (next : option PageId) (entries : list LeafEntry) : Prop :=
  wf_page_ref next ∧ Forall wf_leaf_entry entries.

Lemma decode_leaf_image lsn next entries body :
  leaf_ok entries → wf_leaf next entries → encode_leaf next entries = Ok body →
  decode_leaf lsn body = Ok (PLeaf lsn next entries) ∧ len body = BODY_SIZE.
Proof.
  intros Hok [Hnext Hwf] E. destruct (encode_leaf_Ok next entries Hok) as (body' & E' & W).
  rewrite E in E'. injection E' as <-. pose proof (λ e, leaf_record_fits entries e Hok) as Hfit.
  destruct Hok as (Hs & He & Hsize). unfold leaf_size in Hsize. pose proof (slotted_len _ _ _ _ W) as HL. split; [|done].
  pose proof (len_nonneg entries). pose proof (total_size_nonneg (leaf_record <$> entries)).
  destruct (slotted_header_fields LEAF_MAGIC (len entries) (LEAF_HEADER_SIZE + len entries * SLOT_SIZE)
    (encode_page_id next) eq_refl) as (_ & F1 & F2 & F3 & F4 & F5 & F6).
  pose proof (slotted_low _ _ _ _ W) as Wl. pose proof (slotted_high _ _ _ _ W) as Wh.
  rewrite <- Wl in F1, F2, F3, F4 by lia. rewrite <- Wh in F5, F6 by lia.
  unfold decode_leaf, check_body_size. rewrite HL, Z.eqb_refl. cbn [rbind].
  rewrite !slice_Ok by lia. cbn [rbind]. rewrite F1, bytes_eqb_refl, F2, check_version_Ok. cbn [rbind].
  rewrite !read_u16_Ok, read_u64_Ok by lia. cbn [rbind]. change (6 + 2) with 8. change (8 + 2) with 10.
  change (10 + 2) with 12. change (12 + 8) with 20. rewrite F3, F4, F5, F6, (slotted_start _ _ _ _ W).
  rewrite !from_u16, from_u64 by (first [by apply encode_page_id_u64 | lia]).
  rewrite any_nonzero_zeros, decode_encode_page_id by done. cbn [negb].
  unfold validate_slot_region, checked_mul, checked_add. rewrite (proj2 (Z.leb_le _ _)) by lia. cbn [ok_or rbind].
  rewrite (proj2 (Z.leb_le _ _)) by lia. cbn [ok_or rbind]. rewrite Z.eqb_refl, !(proj2 (Z.ltb_ge _ _)) by lia. cbn [negb orb rbind].
  rewrite (decode_steps _ leaf_record entries).
  2: { intros i e [es rs] Hi. unfold decode_leaf_step.
       assert (Hin : e ∈ entries) by by eapply list_elem_of_lookup_2.
       pose proof (leaf_record_size_min e) as Hmin. rewrite Forall_forall in He, Hwf.
       destruct (He e Hin) as [Hk Hd].
       pose proof (read_slot_Ok LEAF_HEADER_SIZE LEAF_RECORD_HEADER_SIZE (Corruption "leaf record range overflows")
         (Corruption "leaf record range is outside free space") _ _ _ i (leaf_record e) W) as R.
       rewrite len_fmap, list_lookup_fmap, Hi in R. cbn [leaf_record fst snd] in R.
       rewrite len_leaf_record_image in R. pose proof (len_nonneg (le_key e)).
       destruct (slot_range _ i _) as [offset end_]. destruct R as [-> Rs]; [lia|lia|done|lia|lia|].
       cbn [rbind]. rewrite Rs. cbn [rbind]. rewrite decode_leaf_record_image; [done|by apply Hwf|done|].
       specialize (Hfit e Hin). lia. }
  cbn [rbind]. unfold ensure_non_overlapping.
  destruct (slot_ranges_sorted (leaf_record <$> entries)) as [-> ->].
  { apply Forall_fmap. apply Forall_true. intros e. cbn. rewrite len_leaf_record_image.
    pose proof (leaf_record_size_min e). lia. }
  cbn [rbind]. unfold ensure_sorted_leaf. by rewrite (proj2 (windows2_sorted le_key entries) Hs).
Qed.

(** ** Internal pages *)

Definition internal_record_image (e : InternalEntry) : list byte :=
  splice (splice (splice (zeros (INTERNAL_RECORD_HEADER_SIZE + len (ie_key e)))
    0 (u16_to_le_bytes (as_u16 (len (ie_key e)))))
    4 (u64_to_le_bytes (right_child e)))
    INTERNAL_RECORD_HEADER_SIZE (ie_key e).

Definition internal_record (e : InternalEntry) : list byte * Z := (internal_record_image e, len (ie_key e)).

Definition internal_size (entries : list InternalEntry) : Z :=
  INTERNAL_HEADER_SIZE + len entries * SLOT_SIZE + total_size (internal_record <$> entries).

Definition child_ok (e : InternalEntry) : Prop := encodable (ie_key e) ∧ 2 ≤ right_child e.

(** The contents that fit an internal page. *)
Definition internal_ok (leftmost : PageId) (entries : list InternalEntry) : Prop :=
  2 ≤ leftmost ∧ keys_sorted (ie_key <$> entries) ∧ Forall child_ok entries ∧ internal_size entries ≤ BODY_SIZE.

Lemma len_internal_record_image e :
  len (internal_record_image e) = INTERNAL_RECORD_HEADER_SIZE + len (ie_key e).
Proof. pose proof (len_nonneg (ie_key e)). unfold internal_record_image. len_tac. Qed.

Lemma encode_internal_record_Ok e :
  child_ok e → encode_internal_record e = Ok (internal_record_image e).
Proof.
  intros [[Hk Hd] Hc]. unfold encode_internal_record, internal_record_image. pose proof (len_nonneg (ie_key e)).
  rewrite !(proj2 (Z.ltb_ge _ _)) by lia. cbn [negb orb].
  destruct (DocumentKey_decode (ie_key e)); try discriminate. cbn [map_err rbind].
  unfold checked_add. rewrite (proj2 (Z.leb_le _ _)) by lia. cbn [ok_or rbind].
  repeat (rewrite copy_Ok by len_tac; cbn [rbind]). done.
Qed.

Lemma encode_internal_record_inv e r : encode_internal_record e = Ok r → child_ok e.
Proof.
  unfold encode_internal_record, child_ok, encodable. intros E. ok_step E. bool_props.
  destruct (DocumentKey_decode (ie_key e)); try discriminate. done.
Qed.

Lemma decode_internal_record_image e :
  child_ok e → is_u64 (right_child e) →
  decode_internal_record (internal_record_image e) (len (ie_key e)) = Ok e.
Proof.
  intros [[Hk Hd] Hc] Hu. pose proof (len_internal_record_image e) as HL. destruct e as [key child].
  cbn [ie_key right_child] in *. pose proof (len_nonneg key). unfold internal_record_image in *.
  cbn [ie_key right_child] in *. set (img := splice _ _ key) in *.
  assert (F : sub img 0 2 = u16_to_le_bytes (as_u16 (len key)) ∧ sub img 2 4 = zeros 2 ∧
    sub img 4 12 = u64_to_le_bytes child ∧ sub img 12 (12 + len key) = key).
  { subst img. unfold INTERNAL_RECORD_HEADER_SIZE in *. split_and!; read_back; rewrite ?sub_zeros by lia; done. }
  clearbody img. destruct F as (F1 & F2 & F3 & F4). unfold decode_internal_record.
  rewrite read_u16_Ok, read_u64_Ok by lia. cbn [rbind]. change (0 + 2) with 2. change (4 + 8) with 12.
  rewrite slice_Ok by lia. cbn [rbind].
  rewrite F1, F2, F3, any_nonzero_zeros, as_u16_small, from_u16, Z.eqb_refl, from_u64 by lia. cbn [negb andb].
  rewrite HL, Z.eqb_refl, (proj2 (Z.ltb_ge _ _)) by lia. cbn [negb]. rewrite slice_Ok by lia. cbn [rbind].
  change INTERNAL_RECORD_HEADER_SIZE with 12. rewrite F4.
  destruct (DocumentKey_decode key); try discriminate. done.
Qed.

Lemma place_internal_fmap slot_bytes entries acc :
  Forall child_ok entries →
  foldR (place_internal_entry slot_bytes) acc (rev entries) =
  foldR (λ acc r, place_record slot_bytes (InvalidInput "internal records exceed page capacity") acc r.1 r.2)
    acc (rev (internal_record <$> entries)).
Proof.
  intros He. rewrite <- fmap_rev. apply foldR_fmap, Forall_rev. eapply Forall_impl; [exact He|].
  intros e Hc b. unfold place_internal_entry. by rewrite encode_internal_record_Ok.
Qed.

Lemma encode_internal_Ok leftmost entries :
  internal_ok leftmost entries →
  ∃ body, encode_internal leftmost entries = Ok body ∧
    slotted INTERNAL_HEADER_SIZE
      (slotted_header INTERNAL_MAGIC (len entries) (INTERNAL_HEADER_SIZE + len entries * SLOT_SIZE) leftmost)
      body (internal_record <$> entries).
Proof.
  intros (Hl & Hs & He & Hsize). unfold internal_size in Hsize. assert (len INTERNAL_MAGIC = 4) by done.
  pose proof (len_nonneg entries). pose proof (total_size_nonneg (internal_record <$> entries)).
  unfold encode_internal, checked_mul, checked_add. rewrite (proj2 (Z.ltb_ge _ _)) by lia. cbn [negb].
  rewrite (proj2 (Z.leb_le _ _)) by lia. cbn [ok_or rbind].
  rewrite (proj2 (Z.leb_le _ _)) by lia. cbn [ok_or rbind]. rewrite !(proj2 (Z.ltb_ge _ _)) by lia. cbn [orb negb].
  unfold ensure_sorted_internal. rewrite (proj2 (windows2_sorted ie_key entries) Hs). cbn [rbind].
  repeat (rewrite copy_Ok by len_tac; cbn [rbind]). rewrite !as_u16_small by lia.
  fold (slotted_header INTERNAL_MAGIC (len entries) (INTERNAL_HEADER_SIZE + len entries * SLOT_SIZE) leftmost).
  set (hdr := slotted_header _ _ _ _).
  assert (Hhdr : len hdr = BODY_SIZE) by by apply slotted_header_fields.
  rewrite place_internal_fmap, place_records by (done || lia). rewrite (proj2 (Z.leb_le _ _)) by lia. cbn [rbind].
  apply write_slotted; [done|lia|]. rewrite len_fmap. lia.
Qed.

Lemma encode_internal_inv leftmost entries body :
  encode_internal leftmost entries = Ok body → internal_ok leftmost entries.
Proof.
  intros E. unfold encode_internal in E. ok_step E. ok_step E. ok_step E. ok_step E. ok_step E. bool_props.
  unfold checked_mul in E1. destruct (_ <=? U64_MAX) in E1; [|discriminate]. injection E1 as <-.
  unfold checked_add in E2. destruct (_ <=? U64_MAX) in E2; [|discriminate]. injection E2 as <-.
  unfold ensure_sorted_internal in E4. destruct (windows2 _ entries) eqn:Hw; [|discriminate]. apply windows2_sorted in Hw.
  pose proof (len_nonneg entries). assert (len INTERNAL_MAGIC = 4) by done.
  do 5 (rewrite copy_Ok in E by len_tac; cbn [rbind] in E).
  apply rbind_Ok in E as (placed & E & _).
  assert (He : Forall child_ok entries).
  { apply foldR_Ok_Forall, Forall_rev in E. rewrite rev_involutive in E. eapply Forall_impl; [exact E|].
    intros e (b & b' & Hb). unfold place_internal_entry in Hb. ok_step Hb. by eapply encode_internal_record_inv. }
  rewrite place_internal_fmap, place_records in E by (done || len_tac).
  destruct (_ <=? _) eqn:E5 in E; [|discriminate]. bool_props.
  split_and!; [lia|done|done|unfold internal_size; lia].
Qed.

Lemma internal_fits_spec leftmost entries : internal_fits leftmost entries = true ↔ internal_ok leftmost entries.
Proof.
  unfold internal_fits. split.
  - destruct (encode_internal leftmost entries) eqn:E; try discriminate. intros _. by eapply encode_internal_inv.
  - intros Hok. by destruct (encode_internal_Ok leftmost entries Hok) as (body & -> & _).
Qed.

Definition wf_internal (leftmost : PageId) (entries : list InternalEntry) : Prop :=
  is_u64 leftmost ∧ Forall (λ e, is_u64 (right_child e)) entries.

Lemma decode_internal_image lsn leftmost entries body :
  wf_internal leftmost entries → encode_internal leftmost entries = Ok body →
  decode_internal lsn body = Ok (PInternal lsn leftmost entries) ∧ len body = BODY_SIZE.
Proof.
  intros [Hlm Hwf] E. pose proof (encode_internal_inv _ _ _ E) as Hok.
  destruct (encode_internal_Ok leftmost entries Hok) as (body' & E' & W).
  rewrite E in E'. injection E' as <-. destruct Hok as (Hl2 & Hs & He & Hsize).
  unfold internal_size in Hsize. pose proof (slotted_len _ _ _ _ W) as HL. split; [|done].
  pose proof (len_nonneg entries). pose proof (total_size_nonneg (internal_record <$> entries)).
  destruct (slotted_header_fields INTERNAL_MAGIC (len entries) (INTERNAL_HEADER_SIZE + len entries * SLOT_SIZE)
    leftmost eq_refl) as (_ & F1 & F2 & F3 & F4 & F5 & F6).
  pose proof (slotted_low _ _ _ _ W) as Wl. pose proof (slotted_high _ _ _ _ W) as Wh.
  rewrite <- Wl in F1, F2, F3, F4 by lia. rewrite <- Wh in F5, F6 by lia.
  unfold decode_internal, check_body_size. rewrite HL, Z.eqb_refl. cbn [rbind].
  rewrite !slice_Ok by lia. cbn [rbind]. rewrite F1, bytes_eqb_refl, F2, check_version_Ok. cbn [rbind].
  rewrite !read_u16_Ok, read_u64_Ok by lia. cbn [rbind]. change (6 + 2) with 8. change (8 + 2) with 10.
  change (10 + 2) with 12. change (12 + 8) with 20. rewrite F3, F4, F5, F6, (slotted_start _ _ _ _ W).
  rewrite !from_u16, from_u64 by lia. rewrite any_nonzero_zeros, (proj2 (Z.ltb_ge _ _)) by lia. cbn [negb orb].
  unfold validate_slot_region, checked_mul, checked_add. rewrite (proj2 (Z.leb_le _ _)) by lia. cbn [ok_or rbind].
  rewrite (proj2 (Z.leb_le _ _)) by lia. cbn [ok_or rbind]. rewrite Z.eqb_refl, !(proj2 (Z.ltb_ge _ _)) by lia. cbn [negb orb rbind].
  rewrite (decode_steps _ internal_record entries).
  2: { intros i e [es rs] Hi. unfold decode_internal_step.
       assert (Hin : e ∈ entries) by by eapply list_elem_of_lookup_2.
       rewrite Forall_forall in He, Hwf. destruct (He e Hin) as [[Hk Hd] Hc].
       pose proof (read_slot_Ok INTERNAL_HEADER_SIZE INTERNAL_RECORD_HEADER_SIZE
         (Corruption "internal record range overflows") (Corruption "internal record range is outside free space")
         _ _ _ i (internal_record e) W) as R.
       rewrite len_fmap, list_lookup_fmap, Hi in R. cbn [internal_record fst snd] in R.
       rewrite len_internal_record_image in R. pose proof (len_nonneg (ie_key e)).
       destruct (slot_range _ i _) as [offset end_]. destruct R as [-> Rs]; [lia|lia|done|lia|lia|].
       cbn [rbind]. rewrite Rs. cbn [rbind]. rewrite decode_internal_record_image; [done|by split|by apply Hwf]. }
  cbn [rbind]. unfold ensure_non_overlapping.
  destruct (slot_ranges_sorted (internal_record <$> entries)) as [-> ->].
  { apply Forall_fmap. apply Forall_true. intros e. cbn. rewrite len_internal_record_image.
    pose proof (len_nonneg (ie_key e)). lia. }
  cbn [rbind]. unfold ensure_sorted_internal. by rewrite (proj2 (windows2_sorted ie_key entries) Hs).
Qed.

(** ** Overflow and free pages *)

Definition overflow_ok (total_length : Z) (chunk : list byte) : Prop :=
  0 < total_length ≤ MAX_VALUE_SIZE ∧ 0 < len chunk ≤ OVERFLOW_DATA_SIZE.

Lemma encode_overflow_Ok next total_length chunk :
  overflow_ok total_length chunk → is_ok (encode_overflow next total_length chunk) = true.
Proof.
  intros [Ht Hc]. unfold encode_overflow. assert (len OVERFLOW_MAGIC = 4) by done.
  rewrite (proj2 (Z.eqb_neq _ _)), !(proj2 (Z.ltb_ge _ _)) by lia.
  assert (is_empty chunk = false) as ->.
  { destruct chunk; [|done]. change (len (@nil byte)) with 0 in Hc. lia. }
  cbn [orb negb].
  repeat (rewrite copy_Ok by len_tac; cbn [rbind]). done.
Qed.

Lemma decode_overflow_image lsn next total_length chunk body :
  wf_page_ref next → 0 ≤ total_length → encode_overflow next total_length chunk = Ok body →
  decode_overflow lsn body = Ok (POverflow lsn next total_length chunk) ∧ len body = BODY_SIZE.
Proof.
  intros Hn Ht0 E. unfold encode_overflow in E. ok_step E. ok_step E. bool_props.
  pose proof (encode_page_id_u64 next Hn). pose proof (len_nonneg chunk). assert (len OVERFLOW_MAGIC = 4) by done.
  assert (0 < len chunk) by (destruct chunk; [done|]; rewrite len_cons; pose proof (len_nonneg chunk); lia).
  repeat (rewrite copy_Ok in E by len_tac; cbn [rbind] in E). injection E as <-.
  set (img := splice _ OVERFLOW_DATA_OFFSET chunk).
  assert (F : len img = BODY_SIZE ∧ sub img 0 4 = OVERFLOW_MAGIC ∧ sub img 4 6 = u16_to_le_bytes LAYOUT_VERSION ∧
    sub img 6 8 = zeros 2 ∧ sub img 8 16 = u64_to_le_bytes (encode_page_id next) ∧
    sub img 16 24 = u64_to_le_bytes total_length ∧ sub img 24 26 = u16_to_le_bytes (as_u16 (len chunk)) ∧
    sub img 26 32 = zeros 6 ∧ sub img 32 (32 + len chunk) = chunk).
  { subst img. unfold OVERFLOW_DATA_OFFSET in *. split; [by len_simpl|].
    split_and!; read_back; rewrite ?sub_zeros by lia; done. }
  clearbody img. destruct F as (HL & F1 & F2 & F3 & F4 & F5 & F6 & F7 & F8). split; [|done].
  unfold decode_overflow, check_body_size. rewrite HL, Z.eqb_refl. cbn [rbind]. rewrite !slice_Ok by lia. cbn [rbind].
  rewrite F1, bytes_eqb_refl, F2, check_version_Ok, F3, F7, !any_nonzero_zeros. cbn [rbind orb negb].
  rewrite !read_u64_Ok, read_u16_Ok by lia. cbn [rbind]. change (8 + 8) with 16. change (16 + 8) with 24. change (24 + 2) with 26.
  rewrite F4, F5, F6, as_u16_small, !from_u64, from_u16 by lia.
  rewrite !(proj2 (Z.eqb_neq _ _)), !(proj2 (Z.ltb_ge _ _)) by lia. cbn [orb negb].
  rewrite slice_Ok by lia. cbn [rbind]. unfold OVERFLOW_DATA_OFFSET. rewrite F8. by rewrite decode_encode_page_id.
Qed.

Lemma decode_free_image lsn next body :
  wf_page_ref next → encode_free next = Ok body →
  decode_free lsn body = Ok (PFree lsn next) ∧ len body = BODY_SIZE.
Proof.
  intros Hn E. unfold encode_free in E. assert (len FREE_MAGIC = 4) by done.
  repeat (rewrite copy_Ok in E by len_tac; cbn [rbind] in E). injection E as <-.
  pose proof (encode_page_id_u64 next Hn). set (img := splice _ 8 _).
  assert (F : len img = BODY_SIZE ∧ sub img 0 4 = FREE_MAGIC ∧ sub img 4 6 = u16_to_le_bytes LAYOUT_VERSION ∧
    sub img 6 8 = zeros 2 ∧ sub img 8 16 = u64_to_le_bytes (encode_page_id next) ∧
    sub img 16 BODY_SIZE = zeros (BODY_SIZE - 16)).
  { subst img. split; [by len_simpl|]. split_and!; read_back; rewrite ?sub_zeros by lia; done. }
  clearbody img. destruct F as (HL & F1 & F2 & F3 & F4 & F5). split; [|done].
  unfold decode_free, check_body_size. rewrite HL, Z.eqb_refl. cbn [rbind]. rewrite !slice_Ok by lia. cbn [rbind].
  rewrite F1, bytes_eqb_refl, F2, check_version_Ok, F3, F5, !any_nonzero_zeros. cbn [rbind orb negb].
  rewrite !read_u64_Ok by lia. cbn [rbind]. change (8 + 8) with 16. rewrite F4, from_u64 by done. by rewrite decode_encode_page_id.
Qed.

(** ** Pages *)

(** The integer fields of a page are in range. *)
Definition wf_page (p : PageData) : Prop :=
  is_u64 (PageData_lsn p) ∧
  match p with
  | PLeaf _ next entries => wf_leaf next entries
  | PInternal _ leftmost entries => wf_internal leftmost entries
  | POverflow _ next total_length _ => wf_page_ref next ∧ 0 ≤ total_length
  | PFree _ next => wf_page_ref next
  end.

(** The contents fit a page. *)
Definition page_fits (p : PageData) : Prop :=
  match p with
  | PLeaf _ _ entries => leaf_ok entries
  | PInternal _ leftmost entries => internal_ok leftmost entries
  | POverflow _ _ total_length chunk => overflow_ok total_length chunk
  | PFree _ _ => True
  end.

Lemma encode_body_Ok p : page_fits p → is_ok (encode_body p) = true.
Proof.
  destruct p as [lsn next entries|lsn leftmost entries|lsn next total chunk|lsn next]; cbn [page_fits encode_body].
  - intros Hok. by destruct (encode_leaf_Ok next entries Hok) as (? & -> & _).
  - intros Hok. by destruct (encode_internal_Ok leftmost entries Hok) as (? & -> & _).
  - apply encode_overflow_Ok.
  - intros _. unfold encode_free. assert (len FREE_MAGIC = 4) by done.
    repeat (rewrite copy_Ok by len_tac; cbn [rbind]). done.
Qed.

Lemma decode_body_image p h bytes bs :
  wf_page p → encode_body p = Ok bytes → page_type h = PageData_page_type p → page_lsn h = PageData_lsn p →
  flags h = 0 → bs = bytes → PageData_decode (mkDecodedPage h bs) = Ok p ∧ len bytes = BODY_SIZE.
Proof.
  intros [Hlsn Hwf] E Ht Hl Hf ->. unfold PageData_decode. cbn [header body]. rewrite Hf, Ht, Hl. cbn [Z.eqb].
  destruct p as [lsn next entries|lsn leftmost entries|lsn next total chunk|lsn next];
    cbn [encode_body PageData_page_type PageData_lsn] in *.
  - apply decode_leaf_image; [by eapply encode_leaf_inv|done|done].
  - by apply decode_internal_image.
  - apply decode_overflow_image; tauto.
  - by apply decode_free_image.
Qed.

Section pages.
Context `{Crc32c}.

(** Encoding a page that fits, and reading it back. *)
Lemma page_data_image p id :
  wf_page p → page_fits p → is_u64 id →
  ∃ image d, PageData_encode p id = Ok image ∧ len image = PAGE_SIZE ∧
    decode_page_at image (Some id) = Ok d ∧ page_lsn (header d) = PageData_lsn p ∧ PageData_decode d = Ok p.
Proof.
  intros Hwf Hfit Hid. unfold PageData_encode.
  destruct (encode_body p) as [bytes| | |] eqn:E; try (by apply encode_body_Ok in Hfit; rewrite E in Hfit).
  cbn [rbind]. set (h := PageHeader_new _ _ _).
  assert (Hh : wf_header h) by (destruct Hwf; split_and!; done || lia).
  destruct (decode_body_image p h bytes bytes Hwf E) as [_ HL]; [done..|].
  rewrite encode_page_Ok by (done || lia).
  pose proof (decode_page_image h bytes Hh ltac:(lia)) as D.
  eexists _, _. split; [done|]. split; [apply len_page_image|]. split; [exact D|]. split; [done|].
  apply (decode_body_image p _ bytes); try done. rewrite HL. apply app_nil_r.
Qed.

Lemma PageData_encode_fits p id image : PageData_encode p id = Ok image → is_ok (encode_body p) = true.
Proof. unfold PageData_encode. intros E. apply rbind_Ok in E as (b & -> & _). done. Qed.


End pages.

(** C26. Which entries fit a leaf page: distinct keys in order, each the canonical
    encoding of a document key, in at most 4064 bytes. *)
Theorem leaf_fits_iff entries :
  leaf_fits entries = true ↔
    keys_sorted (le_key <$> entries) ∧
    Forall (λ e, len (le_key e) ≤ U16_MAX ∧ ∃ k, le_key e = DocumentKey_encode k) entries ∧
    32 + 8 * len entries + foldr (λ e n, 32 + len (le_key e) + len (inline_bytes (le_value e)) + n) 0 entries ≤ 4064.
Proof.
  rewrite leaf_fits_spec. unfold leaf_ok.
  assert (Hsize : leaf_size entries =
    32 + 8 * len entries + foldr (λ e n, 32 + len (le_key e) + len (inline_bytes (le_value e)) + n) 0 entries).
  { unfold leaf_size, LEAF_HEADER_SIZE, SLOT_SIZE. rewrite (Z.mul_comm (len entries)). f_equal.
    induction entries as [|e entries IH]; [done|]. rewrite fmap_cons. cbn [total_size foldr leaf_record fst].
    fold (total_size (leaf_record <$> entries)). rewrite IH, len_leaf_record_image. done. }
  assert (Hkeys : Forall (λ e, encodable (le_key e)) entries ↔
    Forall (λ e, len (le_key e) ≤ U16_MAX ∧ ∃ k, le_key e = DocumentKey_encode k) entries).
  2: { rewrite Hsize, Hkeys. done. }
  apply Forall_iff.
  intros e. unfold encodable. split; intros [Hl Hd]; (split; [done|]).
  - destruct (DocumentKey_decode (le_key e)) as [k| | |] eqn:E; try discriminate. exists k. symmetry. by apply decode_canonical.
  - destruct Hd as [k ->]. by rewrite decode_encode_key.
Qed.

(** ** Decoding never panics *)

Lemma returns_bind {E A B} (m : Result E A) (k : A → Result E B) :
  returns m → (∀ a, m = Ok a → returns (k a)) → returns (rbind m k).
Proof. destruct m; simpl; auto. Qed.

Lemma returns_guard {E A} (b : bool) (m : Result E A) e : (b = true → returns m) → returns (if b then m else Err e).
Proof. destruct b; [auto|]. done. Qed.

Lemma returns_ok_or {E A} (o : option A) (e : E) : returns (ok_or o e).
Proof. by destruct o. Qed.

Lemma returns_map_err {E E' A} (f : E → E') (m : Result E A) : returns m → returns (map_err f m).
Proof. by destruct m. Qed.

Lemma returns_read_u16 bytes offset : returns (read_u16 bytes offset).
Proof. unfold read_u16, read_array. destruct (checked_add _ _); [|done]. simpl. by destruct (_ <=? _). Qed.
Lemma returns_read_u64 bytes offset : returns (read_u64 bytes offset).
Proof. unfold read_u64, read_array. destruct (checked_add _ _); [|done]. simpl. by destruct (_ <=? _). Qed.

Lemma returns_slice {E A} (l : list A) a b : 0 ≤ a ≤ b → b ≤ len l → returns (slice (E:=E) l a b).
Proof. intros. by rewrite slice_Ok. Qed.

Lemma returns_index {E A} (l : list A) i : 0 ≤ i < len l → returns (index (E:=E) l i).
Proof. intros Hi. by destruct (index_Ok (E:=E) l i Hi) as (x & -> & _). Qed.

Lemma returns_foldR {E A B} (f : B → A → Result E B) b l :
  (∀ b x, returns (f b x)) → returns (foldR f b l).
Proof. intros Hf. revert b. induction l as [|x l IH]; intros b; [done|]. apply returns_bind; auto. Qed.

#[export] Hint Resolve returns_ok_or returns_map_err returns_read_u16 returns_read_u64 : dodb.

(** Walks a decoder down to the reads that could leave the buffer. *)
Ltac returns_steps :=
  repeat first
    [ progress eauto with dodb
    | apply returns_guard; intros ?; bool_props
    | apply returns_bind; [|intros ? ?] ].

Lemma read_u16_range bytes offset z : 0 ≤ offset → read_u16 bytes offset = Ok z → is_u16 z.
Proof.
  intros Ho. unfold read_u16, read_array, checked_add. intros E.
  destruct (_ <=? U64_MAX) eqn:E1; [|discriminate]. cbn [ok_or rbind] in E.
  destruct (_ <=? len bytes) eqn:E2; [|discriminate]. injection E as <-. bool_props. apply from_le_u16. len_tac.
Qed.

Lemma read_u64_range bytes offset z : 0 ≤ offset → read_u64 bytes offset = Ok z → is_u64 z.
Proof.
  intros Ho. unfold read_u64, read_array, checked_add. intros E.
  destruct (_ <=? U64_MAX) eqn:E1; [|discriminate]. cbn [ok_or rbind] in E.
  destruct (_ <=? len bytes) eqn:E2; [|discriminate]. injection E as <-. bool_props. apply from_le_u64. len_tac.
Qed.

Lemma checked_add_Ok a b z e : ok_or (checked_add a b) e = Ok (E:=Error) z → z = a + b.
Proof. unfold checked_add. by destruct (_ <=? _); intros [= <-]. Qed.

Lemma usize_try_from_Ok a z e : ok_or (usize_try_from a) e = Ok (E:=Error) z → z = a.
Proof. unfold usize_try_from. by destruct (_ <=? _); intros [= <-]. Qed.

(** What the reads so far say about the numbers read. *)
Ltac decode_facts :=
  repeat match goal with
  | H : read_u16 _ _ = Ok _ |- _ => apply read_u16_range in H; [|lia]
  | H : read_u64 _ _ = Ok _ |- _ => apply read_u64_range in H; [|lia]
  | H : ok_or (checked_add _ _) _ = Ok _ |- _ => apply checked_add_Ok in H
  | H : ok_or (usize_try_from _) _ = Ok _ |- _ => apply usize_try_from_Ok in H
  end.

Lemma decode_leaf_record_returns record key_length :
  LEAF_RECORD_HEADER_SIZE ≤ len record → returns (decode_leaf_record record key_length).
Proof.
  intros Hl. unfold decode_leaf_record. returns_steps; try done; try (apply returns_index; lia); decode_facts.
  - apply returns_slice; lia.
  - apply returns_slice; lia.
  - apply returns_map_err, key_decode_returns.
  - destruct a2; try done; returns_steps; try done. decode_facts. apply returns_slice; lia.
Qed.

Lemma read_slot_range header_size record_header records_start overflows outside body index offset end_ k :
  0 ≤ header_size + index * SLOT_SIZE →
  read_slot header_size record_header records_start overflows outside body index = Ok (offset, end_, k) →
  0 ≤ offset ∧ offset + record_header ≤ end_ ≤ len body ∧ is_u16 k.
Proof.
  intros Hs E. unfold read_slot in E. ok_step E. ok_step E. ok_step E. ok_step E. ok_step E. bool_props.
  injection E as <- <- <-. decode_facts. lia.
Qed.

Lemma read_slot_returns header_size record_header records_start overflows outside body index :
  returns (read_slot header_size record_header records_start overflows outside body index).
Proof. unfold read_slot. returns_steps. done. Qed.

Lemma range_to_nonneg count i : i ∈ range_to count → 0 ≤ i.
Proof. unfold range_to. intros (n & -> & _)%list_elem_of_fmap. lia. Qed.

Lemma decode_internal_record_returns record key_length :
  INTERNAL_RECORD_HEADER_SIZE ≤ len record → returns (decode_internal_record record key_length).
Proof.
  intros Hl. unfold decode_internal_record. returns_steps; try done.
  - apply returns_slice; lia.
  - apply returns_slice; lia.
  - apply returns_map_err, key_decode_returns.
Qed.

Lemma returns_foldR_elem {E A B} (f : B → A → Result E B) b l :
  (∀ b x, x ∈ l → returns (f b x)) → returns (foldR f b l).
Proof.
  revert b. induction l as [|x l IH]; intros b Hf; [done|]. apply returns_bind.
  - apply Hf, list_elem_of_here.
  - intros b' _. apply IH. intros b'' y Hy. by apply Hf, list_elem_of_further.
Qed.

Lemma ensure_non_overlapping_returns ranges message : returns (ensure_non_overlapping ranges message).
Proof. unfold ensure_non_overlapping. by destruct (windows2 _ _). Qed.
Lemma ensure_sorted_leaf_returns entries : returns (ensure_sorted_leaf entries).
Proof. unfold ensure_sorted_leaf. by destruct (windows2 _ _). Qed.
Lemma ensure_sorted_internal_returns entries : returns (ensure_sorted_internal entries).
Proof. unfold ensure_sorted_internal. by destruct (windows2 _ _). Qed.
Lemma check_version_returns bytes : returns (check_version bytes).
Proof. unfold check_version. returns_steps. done. Qed.
Lemma validate_slot_region_returns count slot_end records_start header_size body_len :
  returns (validate_slot_region count slot_end records_start header_size body_len).
Proof. unfold validate_slot_region. returns_steps. done. Qed.

#[export] Hint Resolve read_slot_returns ensure_non_overlapping_returns ensure_sorted_leaf_returns
  ensure_sorted_internal_returns check_version_returns validate_slot_region_returns : dodb.

Lemma decode_leaf_step_returns records_start body acc i :
  0 ≤ i → returns (decode_leaf_step records_start body acc i).
Proof.
  intros Hi. unfold decode_leaf_step. destruct acc as [es rs]. apply returns_bind; [apply read_slot_returns|].
  intros [[offset end_] k] E. apply read_slot_range in E as (H1 & H2 & H3); [|lia].
  rewrite slice_Ok by lia. cbn [rbind]. apply returns_bind; [|done].
  apply decode_leaf_record_returns. rewrite len_sub by lia. lia.
Qed.

Lemma decode_internal_step_returns records_start body acc i :
  0 ≤ i → returns (decode_internal_step records_start body acc i).
Proof.
  intros Hi. unfold decode_internal_step. destruct acc as [es rs]. apply returns_bind; [apply read_slot_returns|].
  intros [[offset end_] k] E. apply read_slot_range in E as (H1 & H2 & H3); [|lia].
  rewrite slice_Ok by lia. cbn [rbind]. apply returns_bind; [|done].
  apply decode_internal_record_returns. rewrite len_sub by lia. lia.
Qed.

Lemma decode_leaf_returns lsn body : returns (decode_leaf lsn body).
Proof.
  unfold decode_leaf, check_body_size. destruct (len body =? BODY_SIZE) eqn:HL; [|done]. bool_props. cbn [rbind].
  rewrite !slice_Ok by lia. cbn [rbind]. returns_steps.
  - apply returns_foldR_elem. intros acc i Hi%range_to_nonneg. by apply decode_leaf_step_returns.
  - case_match. returns_steps. done.
Qed.

Lemma decode_internal_returns lsn body : returns (decode_internal lsn body).
Proof.
  unfold decode_internal, check_body_size. destruct (len body =? BODY_SIZE) eqn:HL; [|done]. bool_props. cbn [rbind].
  rewrite !slice_Ok by lia. cbn [rbind]. returns_steps.
  - apply returns_foldR_elem. intros acc i Hi%range_to_nonneg. by apply decode_internal_step_returns.
  - case_match. returns_steps. done.
Qed.

Lemma decode_overflow_returns lsn body : returns (decode_overflow lsn body).
Proof.
  unfold decode_overflow, check_body_size. destruct (len body =? BODY_SIZE) eqn:HL; [|done]. bool_props. cbn [rbind].
  rewrite !slice_Ok by lia. cbn [rbind]. returns_steps; try done. decode_facts. apply returns_slice; lia.
Qed.

Lemma decode_free_returns lsn body : returns (decode_free lsn body).
Proof.
  unfold decode_free, check_body_size. destruct (len body =? BODY_SIZE) eqn:HL; [|done]. bool_props. cbn [rbind].
  rewrite !slice_Ok by lia. cbn [rbind]. returns_steps; done.
Qed.

(** C27. Reading a page never panics, whatever the bytes: a corrupted page is
    reported as an error, by the decoder of its header or of its contents. *)
Theorem page_data_decode_returns `{Crc32c} bytes expected :
  returns (let? d := decode_page_at bytes expected in PageData_decode d).
Proof.
  pose proof (page_decode_returns bytes expected) as Hd. destruct (decode_page_at bytes expected) as [d| | |]; try done.
  cbn [rbind]. unfold PageData_decode. apply returns_guard. intros _. destruct (page_type (header d)).
  - apply decode_internal_returns.
  - apply decode_leaf_returns.
  - apply decode_overflow_returns.
  - apply decode_free_returns.
  - done.
Qed.

(** ** Examples *)

Definition example_leaf : PageData :=
  PLeaf 9 (Some 7) [mkLeafEntry (DocumentKey_encode (mkKey (bstr "a") (bstr "1"))) 5 (Some (Inline (bstr "value")));
                    mkLeafEntry (DocumentKey_encode (mkKey (bstr "a") (bstr "2"))) 9 (Some (Overflow 12 9000));
                    mkLeafEntry (DocumentKey_encode (mkKey (bstr "b") [])) 9 None].

