(* ===== verification/Cache.v ===== *)
(** * Cache: the page cache of the B+tree

    src/dodb/crates/dodb-storage/src/btree/cache.rs.  A bounded map from page
    ids to decoded pages that evicts the least recently used page.  The
    theorems show that the cache never holds more pages than its capacity, that
    it never invents or alters a page, and that a page just inserted is there. *)

From S2P Require Import Prelude Core Crc Page Superblock Format.

Record CacheEntry := mkCacheEntry { ce_page : PageData; last_used : Z }.

Record PageCache := mkCache {
  capacity : Z;
  pages : gmap PageId CacheEntry;
  clock : Z
}.

Definition PageCache_new (capacity : Z) : PageCache := mkCache capacity ∅ 0.

(** The clock after [next_clock], which it also returns. *)
Definition next_clock (c : PageCache) : Z := wrapping_add (clock c) 1.

Definition PageCache_get (page_id : PageId) (c : PageCache) : option PageData * PageCache :=
  let now := next_clock c in
  match pages c !! page_id with
  | None => (None, mkCache (capacity c) (pages c) now)
  | Some entry =>
      (Some (ce_page entry),
       mkCache (capacity c) (<[page_id := mkCacheEntry (ce_page entry) now]> (pages c)) now)
  end.

(** [iter().min_by_key(|(_, entry)| entry.last_used)]: the first of the
    entries, in key order, that was used least recently. *)
Fixpoint min_by_last_used (entries : list (PageId * CacheEntry)) : option (PageId * CacheEntry) :=
  match entries with
  | [] => None
  | x :: entries =>
      match min_by_last_used entries with
      | None => Some x
      | Some y => if last_used y.2 <? last_used x.2 then Some y else Some x
      end
  end.

(** The [while] loop; every round removes a page, so the number of pages is
    fuel enough. *)
Fixpoint evict (fuel : nat) (capacity : Z) (pages : gmap PageId CacheEntry) : gmap PageId CacheEntry :=
  match fuel with
  | O => pages
  | S fuel =>
      if capacity <? Z.of_nat (size pages) then
        match min_by_last_used (btree_iter pages) with
        | None => pages
        | Some (victim, _) => evict fuel capacity (delete victim pages)
        end
      else pages
  end.

Definition PageCache_insert (page_id : PageId) (page : PageData) (c : PageCache) : PageCache :=
  if capacity c =? 0 then c
  else
    let now := next_clock c in
    let pages := <[page_id := mkCacheEntry page now]> (pages c) in
    mkCache (capacity c) (evict (size pages) (capacity c) pages) now.

Definition PageCache_insert_many (new_pages : list (PageId * PageData)) (c : PageCache) : PageCache :=
  foldl (λ c '(page_id, page), PageCache_insert page_id page c) c new_pages.

Definition PageCache_len (c : PageCache) : Z := Z.of_nat (size (pages c)).

(** ** Lemmas *)

(** What a reader can find in the cache. *)
Definition cached (c : PageCache) (page_id : PageId) : option PageData := ce_page <$> pages c !! page_id.

(** The capacity is respected and no use lies in the future. *)
Definition cache_ok (c : PageCache) : Prop :=
  PageCache_len c ≤ capacity c ∧ map_Forall (λ _ e, last_used e ≤ clock c) (pages c) ∧ 0 ≤ clock c.

Lemma min_by_last_used_spec l x :
  min_by_last_used l = Some x → x ∈ l ∧ ∀ y, y ∈ l → last_used x.2 ≤ last_used y.2.
Proof.
  revert x. induction l as [|a l IH]; intros x; simpl; [done|].
  destruct (min_by_last_used l) as [y|] eqn:E.
  - destruct (IH y eq_refl) as [Hin Hmin].
    destruct (Z.ltb_spec (last_used y.2) (last_used a.2)); intros [= <-]; split;
      [set_solver| |set_solver|]; intros z [->|Hz]%elem_of_cons; try lia; auto.
    specialize (Hmin z Hz). lia.
  - intros [= <-]. destruct l as [|b l]; [|simpl in E; by destruct (min_by_last_used l); [case_match|]].
    split; [set_solver|]. intros y ->%list_elem_of_singleton. lia.
Qed.

Lemma min_by_last_used_None l : min_by_last_used l = None → l = [].
Proof. destruct l; simpl; [done|]. destruct (min_by_last_used l); [|done]. by case_match. Qed.

(** Eviction only removes pages, until the capacity is met. *)
Lemma evict_subseteq fuel cap m : evict fuel cap m ⊆ m.
Proof.
  revert m. induction fuel as [|fuel IH]; intros m; simpl; [done|].
  case_match; [|done]. case_match; [|done]. case_match. etrans; [apply IH|]. apply delete_subseteq.
Qed.

Lemma evict_size fuel cap m :
  0 ≤ cap → (size m ≤ fuel)%nat → Z.of_nat (size (evict fuel cap m)) ≤ cap.
Proof.
  intros Hcap. revert m. induction fuel as [|fuel IH]; intros m Hm; simpl; [lia|].
  destruct (Z.ltb_spec cap (Z.of_nat (size m))) as [Hlt|]; [|lia].
  destruct (min_by_last_used (btree_iter m)) as [[victim e]|] eqn:E.
  - apply min_by_last_used_spec in E as [Hin _]. apply elem_of_ordered_iter in Hin.
    apply IH. rewrite map_size_delete, Hin. lia.
  - apply min_by_last_used_None in E. pose proof (length_ordered_iter Z.le m) as L.
    unfold btree_iter in E. rewrite E in L. simpl in L. lia.
Qed.

(** The page used last survives, as long as there is room for one. *)
Lemma evict_keeps fuel cap m k e :
  0 < cap → m !! k = Some e → (∀ k' e', m !! k' = Some e' → k' ≠ k → last_used e' < last_used e) →
  evict fuel cap m !! k = Some e.
Proof.
  intros Hcap. revert m. induction fuel as [|fuel IH]; intros m Hk Hnew; simpl; [done|].
  destruct (Z.ltb_spec cap (Z.of_nat (size m))) as [Hlt|]; [|done].
  destruct (min_by_last_used (btree_iter m)) as [[victim e']|] eqn:E; [|done].
  apply min_by_last_used_spec in E as [Hin Hmin]. apply elem_of_ordered_iter in Hin.
  assert (victim ≠ k).
  { intros ->. simplify_eq. assert (∃ k' e'', k' ≠ k ∧ m !! k' = Some e'') as (k' & e'' & Hne & He).
    - destruct (map_choose (delete k m)) as (k' & e'' & Hd).
      + intros Hd. apply (f_equal size) in Hd. rewrite map_size_delete, Hk, map_size_empty in Hd. lia.
      + exists k', e''. by apply lookup_delete_Some in Hd as [? ?].
    - pose proof (Hnew _ _ He Hne). specialize (Hmin (k', e'')).
      unfold btree_iter in Hmin. rewrite elem_of_ordered_iter in Hmin. specialize (Hmin He). simpl in Hmin. lia. }
  apply IH; [by rewrite lookup_delete_ne|].
  intros k' e'' [_ He'']%lookup_delete_Some Hne. eauto.
Qed.

Lemma cached_insert page_id page c k p :
  cached (PageCache_insert page_id page c) k = Some p →
  (k = page_id ∧ p = page) ∨ (k ≠ page_id ∧ cached c k = Some p) ∨ (capacity c = 0 ∧ cached c k = Some p).
Proof.
  unfold cached, PageCache_insert. destruct (Z.eqb_spec (capacity c) 0); [tauto|]. simpl.
  intros (e & He & Hp)%fmap_Some. eapply lookup_weaken in He; [|apply evict_subseteq].
  apply lookup_insert_Some in He as [[<- <-]|[Hne He]]; simpl in Hp; [by left|].
  right; left. split; [done|]. rewrite He. simpl. by rewrite Hp.
Qed.

Lemma cached_get page_id c k : cached (PageCache_get page_id c).2 k = cached c k.
Proof.
  unfold cached, PageCache_get. destruct (pages c !! page_id) as [e|] eqn:E; [|done]. simpl.
  destruct (decide (k = page_id)) as [->|]; [by rewrite lookup_insert_eq, E|by rewrite lookup_insert_ne].
Qed.

Lemma get_cached page_id c : (PageCache_get page_id c).1 = cached c page_id.
Proof. unfold cached, PageCache_get. by destruct (pages c !! page_id). Qed.

(** A cache that holds no pages keeps holding none. *)
Lemma get_empty page_id c :
  (capacity c = 0 → pages c = ∅) → capacity (PageCache_get page_id c).2 = 0 → pages (PageCache_get page_id c).2 = ∅.
Proof.
  intros H0. unfold PageCache_get. destruct (pages c !! page_id) as [e|] eqn:E; simpl; [|done]. intros Hz.
  by rewrite (H0 Hz) in E.
Qed.

(** ** Runs of the cache *)

Inductive CacheOp : Type :=
  | CGet (page_id : PageId)
  | CInsert (page_id : PageId) (page : PageData).

Definition cache_step (c : PageCache) (op : CacheOp) : PageCache :=
  match op with
  | CGet page_id => (PageCache_get page_id c).2
  | CInsert page_id page => PageCache_insert page_id page c
  end.

(** The page last inserted under each id. *)
Definition inserted_step (m : gmap PageId PageData) (op : CacheOp) : gmap PageId PageData :=
  match op with CGet _ => m | CInsert page_id page => <[page_id := page]> m end.

Lemma cache_insert_ok page_id page c : cache_ok c → clock c < U64_MAX → cache_ok (PageCache_insert page_id page c).
Proof.
  intros (Hsize & Huse & Hclock) Hmax. unfold PageCache_insert. destruct (Z.eqb_spec (capacity c) 0); [done|].
  assert (next_clock c = clock c + 1) as -> by (apply Z.mod_small; lia).
  unfold PageCache_len in *. split; [|split]; simpl; [apply evict_size; lia| |lia].
  intros k e He. eapply lookup_weaken in He; [|apply evict_subseteq].
  apply lookup_insert_Some in He as [[_ <-]|[_ He]]; simpl; [lia|]. specialize (Huse k e He). simpl in Huse. lia.
Qed.

Lemma cache_step_bounded c op : 0 ≤ capacity c → PageCache_len c ≤ capacity c →
  capacity (cache_step c op) = capacity c ∧ PageCache_len (cache_step c op) ≤ capacity c.
Proof.
  unfold PageCache_len. intros H0 Hc. destruct op as [id|id p]; simpl.
  - unfold PageCache_get. destruct (pages c !! id) as [e|] eqn:E; simpl; [|done].
    by rewrite map_size_insert_Some by (by exists e).
  - unfold PageCache_insert. destruct (Z.eqb_spec (capacity c) 0); [done|]. simpl.
    split; [done|]. by apply evict_size.
Qed.

Lemma cache_step_coherent c op m :
  (∀ k p, cached c k = Some p → m !! k = Some p) → (capacity c = 0 → pages c = ∅) →
  (∀ k p, cached (cache_step c op) k = Some p → inserted_step m op !! k = Some p) ∧
  (capacity (cache_step c op) = 0 → pages (cache_step c op) = ∅).
Proof.
  intros Hc H0. destruct op as [id|id p0]; simpl.
  - split; [intros k p; rewrite cached_get; apply Hc|]. by apply get_empty.
  - split.
    + intros k p [[-> ->]|[[Hne H]|[Hz H]]]%cached_insert; [by rewrite lookup_insert_eq|by rewrite lookup_insert_ne; auto|].
      unfold cached in H. by rewrite (H0 Hz), lookup_empty in H.
    + unfold PageCache_insert. destruct (Z.eqb_spec (capacity c) 0); [done|]. simpl. done.
Qed.

(** C28. Whatever pages are looked up and inserted, in whatever order, the cache
    holds at most [capacity] pages, and a page it serves is the page last
    inserted under that id. *)
Theorem cache_run_invariant cap ops (c := foldl cache_step (PageCache_new cap) ops) :
  0 ≤ cap →
  PageCache_len c ≤ cap ∧
  ∀ k p, (PageCache_get k c).1 = Some p → foldl inserted_step ∅ ops !! k = Some p.
Proof.
  intros Hcap. subst c.
  cut (∀ c m, capacity c = cap → PageCache_len c ≤ cap → (∀ k p, cached c k = Some p → m !! k = Some p) →
    (capacity c = 0 → pages c = ∅) →
    PageCache_len (foldl cache_step c ops) ≤ cap ∧
    ∀ k p, cached (foldl cache_step c ops) k = Some p → foldl inserted_step m ops !! k = Some p).
  { intros H. destruct (H (PageCache_new cap) ∅) as [Hlen Hcoh]; [done|done|done|done|].
    split; [done|]. intros k p. rewrite get_cached. apply Hcoh. }
  induction ops as [|op ops IH]; intros c m Hc Hlen Hcoh H0; simpl; [done|].
  subst cap. destruct (cache_step_bounded c op) as [Hcap' Hlen']; [done|done|].
  destruct (cache_step_coherent c op m Hcoh H0) as [Hcoh' H0']. by apply IH.
Qed.

Lemma cache_run_invariant_witness :
  PageCache_len (foldl cache_step (PageCache_new 1) [CInsert 2 (PFree 0 None); CInsert 3 (PFree 1 None)]) ≤ 1.
Proof. refine (proj1 (cache_run_invariant 1 _ _)). discriminate. Defined.


