(* ===== verification/Reference.v ===== *)
(** * Reference: the reference model of the transactional database

    src/dodb/crates/dodb-testkit/src/reference.rs.  [ReferenceDb] is the
    in-memory database that the storage engine is compared with: a map from
    document keys to revision states and a log sequence number.  The theorems
    show that a commit validates everything before it writes anything, that a
    revision identifies a state of a key for ever (so that validation by
    revisions is validation of what was read), and that optimistic transactions
    are serializable in commit order. *)

From S2P Require Import Prelude Core.

Record RefDocument := mkRefDocument { rd_key : DocumentKey; rd_value : list byte; rd_revision : Revision }.

Record ReferenceDb := mkDb {
  states : gmap DocumentKey RevisionState;
  db_next_lsn : Lsn;
  db_next_txn_id : TxnId
}.

Record ReferenceTransaction := mkTransaction {
  txn_id : TxnId;
  txn_conditions : list TransactionCondition;
  read_set : ReadSet;
  write_set : WriteSet
}.

Definition ReferenceDb_new : ReferenceDb := mkDb ∅ 1 1.

Definition ReferenceDb_get (db : ReferenceDb) (key : DocumentKey) : RevisionState :=
  default (Missing 0) (states db !! key).

(** ** Transactions under construction *)

Definition ReferenceTransaction_observe (db : ReferenceDb) (key : DocumentKey)
    (t : ReferenceTransaction) : ReferenceTransaction :=
  let state := ReferenceDb_get db key in
  mkTransaction (txn_id t) (txn_conditions t)
    (ReadSet_record (read_set t) key (RevisionState_revision state)) (write_set t).

(** The [expect] of the source is a panic when a written key was never
    observed. *)
Definition ReferenceTransaction_read (db : ReferenceDb) (key : DocumentKey)
    : ST ReferenceTransaction Error RevisionState :=
  let observed := ReferenceDb_get db key in
  do* modify (λ t, mkTransaction (txn_id t) (txn_conditions t)
                (ReadSet_record (read_set t) key (RevisionState_revision observed)) (write_set t)) in
  let* t := get in
  match write_set t !! key with
  | Some (WPut value) =>
      lift (match read_set t !! key with Some r => Ok (Present value r) | None => Panic end)
  | Some WDelete => lift (match read_set t !! key with Some r => Ok (Missing r) | None => Panic end)
  | None => ret observed
  end.

Definition ReferenceTransaction_put (db : ReferenceDb) (key : DocumentKey) (value : list byte)
    (t : ReferenceTransaction) : ReferenceTransaction :=
  let t := ReferenceTransaction_observe db key t in
  mkTransaction (txn_id t) (txn_conditions t) (read_set t) (WriteSet_put (write_set t) key value).

Definition ReferenceTransaction_delete (db : ReferenceDb) (key : DocumentKey)
    (t : ReferenceTransaction) : ReferenceTransaction :=
  let t := ReferenceTransaction_observe db key t in
  mkTransaction (txn_id t) (txn_conditions t) (read_set t) (WriteSet_delete (write_set t) key).

Definition push_condition (c : TransactionCondition) (t : ReferenceTransaction) : ReferenceTransaction :=
  mkTransaction (txn_id t) (txn_conditions t ++ [c]) (read_set t) (write_set t).
Definition ReferenceTransaction_revision_equals (key : DocumentKey) (expected_revision : Revision)
    : ReferenceTransaction → ReferenceTransaction := push_condition (RevisionEquals key expected_revision).
Definition ReferenceTransaction_exists (key : DocumentKey)
    : ReferenceTransaction → ReferenceTransaction := push_condition (Exists_ key).
Definition ReferenceTransaction_not_exists (key : DocumentKey)
    : ReferenceTransaction → ReferenceTransaction := push_condition (NotExists key).

(** ** The database *)

Definition ReferenceDb_begin : ST ReferenceDb Error ReferenceTransaction := fun db =>
  match checked_add (db_next_txn_id db) 1 with
  | None => (Panic, db)
  | Some next =>
      (Ok (mkTransaction (db_next_txn_id db) [] ∅ ∅), mkDb (states db) (db_next_lsn db) next)
  end.

Definition check_condition (db : ReferenceDb) (condition : TransactionCondition) : Result Error unit :=
  let actual := RevisionState_observed (ReferenceDb_get db (TransactionCondition_key condition)) in
  guard? satisfied condition actual else
    Conflict (mkConflict (TransactionCondition_key condition) (TransactionCondition_expectation condition) actual) in
  Ok tt.

Definition mutation_state (revision : Revision) (m : TransactionMutation) : RevisionState :=
  match m with Put _ value => Present value revision | Delete _ => Missing revision end.

Definition apply_mutations (revision : Revision) (l : list TransactionMutation)
    (states : gmap DocumentKey RevisionState) : gmap DocumentKey RevisionState :=
  foldl (λ s m, <[TransactionMutation_key m := mutation_state revision m]> s) states l.

Definition ReferenceDb_transact_at (request : TransactionRequest) (commit_lsn : Lsn)
    : ST ReferenceDb Error (option Lsn) :=
  do* lift (TransactionRequest_validate request) in
  let* db := get in
  do* lift (foldR (λ _ c, check_condition db c) tt (conditions request)) in
  if is_empty (mutations request) then ret None
  else
    guard* negb (commit_lsn =? 0) else InvalidRequest "a committed transaction LSN must be non-zero" in
    let revision := revision_from_lsn commit_lsn in
    do* modify (λ db, mkDb (apply_mutations revision (mutations request) (states db))
                        (db_next_lsn db) (db_next_txn_id db)) in
    let* next_lsn := lift (ok_or (checked_add commit_lsn 1)
                             (InternalInvariantViolation "synthetic LSN exhausted")) in
    do* modify (λ db, if db_next_lsn db <? next_lsn
                      then mkDb (states db) next_lsn (db_next_txn_id db) else db) in
    ret (Some commit_lsn).

Definition ReferenceDb_transact (request : TransactionRequest) : ST ReferenceDb Error (option Lsn) :=
  let* next_lsn := gets db_next_lsn in ReferenceDb_transact_at request next_lsn.

Definition mutation_of (entry : DocumentKey * WriteIntent) : TransactionMutation :=
  match entry.2 with WPut value => Put entry.1 value | WDelete => Delete entry.1 end.

(** The request of a transaction: what it read, its explicit conditions, and
    its writes, each in key order. *)
Definition request_of (t : ReferenceTransaction) : TransactionRequest :=
  mkRequest
    (((λ e, RevisionEquals e.1 e.2) <$> ordered_iter key_le (read_set t)) ++ txn_conditions t)
    (mutation_of <$> ordered_iter key_le (write_set t)).

Definition ReferenceDb_commit (t : ReferenceTransaction) : ST ReferenceDb Error (option Lsn) :=
  ReferenceDb_transact (request_of t).

Definition ReferenceDb_put (key : DocumentKey) (value : list byte) : ST ReferenceDb Error Lsn :=
  let* t := ReferenceDb_begin in
  let* db := get in
  let* lsn := ReferenceDb_commit (ReferenceTransaction_put db key value t) in
  lift (ok_or lsn (InternalInvariantViolation "a transaction containing a put produced no commit LSN")).

Definition ReferenceDb_delete (key : DocumentKey) : ST ReferenceDb Error Lsn :=
  let* t := ReferenceDb_begin in
  let* db := get in
  let* lsn := ReferenceDb_commit (ReferenceTransaction_delete db key t) in
  lift (ok_or lsn (InternalInvariantViolation "a transaction containing a delete produced no commit LSN")).

Definition ReferenceDb_transact_get (db : ReferenceDb) (keys : list DocumentKey) : list RevisionState :=
  ReferenceDb_get db <$> keys.

Definition present_document (entry : DocumentKey * RevisionState) : option RefDocument :=
  match entry.2 with
  | Present value revision => Some (mkRefDocument entry.1 value revision)
  | Missing _ => None
  end.

Definition ReferenceDb_query (db : ReferenceDb) (p : PrimaryKey) (exclusive_after_sk : option SortKey)
    (limit : Z) : list RefDocument :=
  take (Z.to_nat limit) (omap (λ entry : DocumentKey * RevisionState,
    if negb (bytes_eqb (pk entry.1) p)
       || match exclusive_after_sk with Some cursor => bytes_le (sk entry.1) cursor | None => false end
    then None else present_document entry) (ordered_iter key_le (states db))).

Definition ReferenceDb_scan (db : ReferenceDb) (exclusive_after_key : option DocumentKey) (limit : Z)
    : list RefDocument :=
  take (Z.to_nat limit) (omap (λ entry : DocumentKey * RevisionState,
    if match exclusive_after_key with Some cursor => bool_decide (key_le entry.1 cursor) | None => false end
    then None else present_document entry) (ordered_iter key_le (states db))).

Definition ReferenceDb_present_count (db : ReferenceDb) : Z :=
  len (filter (λ e : DocumentKey * RevisionState, RevisionState_is_missing e.2 = false)
         (map_to_list (states db))).

(** ** Reads and writes *)

Definition writes_of (revision : Revision) (l : list TransactionMutation) : gmap DocumentKey RevisionState :=
  list_to_map ((λ m, (TransactionMutation_key m, mutation_state revision m)) <$> l).

(** A valid request names each mutated key once, so the order of the writes
    does not matter. *)
Lemma apply_mutations_union revision l m :
  NoDup (TransactionMutation_key <$> l) → apply_mutations revision l m = writes_of revision l ∪ m.
Proof.
  unfold apply_mutations, writes_of. revert m.
  induction l as [|x l IH]; intros m Hnd; simpl; [by rewrite (left_id_L ∅ (∪))|].
  simpl in Hnd. apply NoDup_cons in Hnd as [Hx Hnd]. rewrite IH by done.
  rewrite <- insert_union_l, <- insert_union_r; [done|].
  apply not_elem_of_list_to_map_1. by rewrite <- list_fmap_compose.
Qed.

Lemma validate_nodup request :
  TransactionRequest_validate request = Ok tt → NoDup (TransactionMutation_key <$> mutations request).
Proof. intros H. by apply validate_Ok in H as (_ & H & _). Qed.

Definition holds (db : ReferenceDb) (c : TransactionCondition) : Prop :=
  satisfied c (RevisionState_observed (ReferenceDb_get db (TransactionCondition_key c))) = true.

Lemma check_condition_cases db c :
  (check_condition db c = Ok tt ∧ holds db c) ∨ (∃ x, check_condition db c = Err (Conflict x)) ∧ ¬ holds db c.
Proof. unfold check_condition, holds. destruct (satisfied _ _); [by left|right; eauto]. Qed.

Lemma check_conditions_cases db l :
  (foldR (λ _ c, check_condition db c) tt l = Ok tt ∧ Forall (holds db) l) ∨
  (∃ x, foldR (λ _ c, check_condition db c) tt l = Err (Conflict x)) ∧ ¬ Forall (holds db) l.
Proof.
  induction l as [|c l IH]; simpl; [left; by split|]. rewrite Forall_cons.
  destruct (check_condition_cases db c) as [[-> Hc]|[[x ->] Hc]]; simpl; [|right; naive_solver].
  destruct IH as [[-> ?]|[[x ->] ?]]; [left|right]; naive_solver.
Qed.

(** The database after a commit at [lsn]. *)
Definition committed (request : TransactionRequest) (lsn : Lsn) (db : ReferenceDb) : ReferenceDb :=
  mkDb (writes_of lsn (mutations request) ∪ states db) (Z.max (db_next_lsn db) (lsn + 1)) (db_next_txn_id db).

Definition accepts (db : ReferenceDb) (request : TransactionRequest) : Prop :=
  TransactionRequest_validate request = Ok tt ∧ Forall (holds db) (conditions request).

Lemma transact_at_Ok request lsn db :
  accepts db request → 0 < lsn < U64_MAX →
  ReferenceDb_transact_at request lsn db =
    if is_empty (mutations request) then (Ok None, db) else (Ok (Some lsn), committed request lsn db).
Proof.
  intros [Hv Hc] Hlsn. unfold ReferenceDb_transact_at, bind, lift, get. rewrite Hv.
  destruct (check_conditions_cases db (conditions request)) as [[-> _]|[_ ?]]; [|done].
  destruct (is_empty (mutations request)); [done|]. rewrite (proj2 (Z.eqb_neq lsn 0)) by lia. simpl.
  unfold checked_add. rewrite (proj2 (Z.leb_le (lsn + 1) _)) by lia. unfold modify, ret, committed, revision_from_lsn. simpl.
  rewrite apply_mutations_union by (by apply validate_nodup).
  destruct (Z.ltb_spec (db_next_lsn db) (lsn + 1)); do 2 f_equal; lia.
Qed.

Lemma transact_at_Err request lsn db :
  ¬ accepts db request → ∃ e, ReferenceDb_transact_at request lsn db = (Err e, db).
Proof.
  intros H. unfold ReferenceDb_transact_at, bind, lift, get.
  destruct (validate_error request) as [Hv|[m Hv]]; rewrite Hv; [|by eexists].
  destruct (check_conditions_cases db (conditions request)) as [[-> Hc]|[[x ->] _]]; [|by eexists].
  by destruct H.
Qed.

Lemma accepts_dec db request : accepts db request ∨ ¬ accepts db request.
Proof.
  unfold accepts. destruct (validate_error request) as [Hv|[m Hv]]; rewrite Hv; [|right; by intros []].
  destruct (check_conditions_cases db (conditions request)) as [[_ ?]|[_ ?]]; [left|right]; naive_solver.
Qed.

(** ** Histories *)

(** One call on the database: beginning a transaction or committing a request,
    accepted or not.  Commits and single writes are such requests. *)
Inductive ref_step (db : ReferenceDb) : ReferenceDb → Prop :=
  | step_begin r db' : ReferenceDb_begin db = (r, db') → ref_step db db'
  | step_transact request r db' : ReferenceDb_transact request db = (r, db') → ref_step db db'.

Abbreviation history := (rtc ref_step).

(** Every revision in use was issued before the next one. *)
Definition db_ok (db : ReferenceDb) : Prop :=
  1 ≤ db_next_lsn db ∧
  map_Forall (λ _ s, 0 < RevisionState_revision s < db_next_lsn db) (states db).

Lemma transact_at_lsn request lsn db : db_next_lsn db ≤ db_next_lsn (ReferenceDb_transact_at request lsn db).2.
Proof.
  unfold ReferenceDb_transact_at, bind, lift, get, modify, ret, throw, ok_or.
  repeat (case_match; simplify_eq/=); bool_props; lia.
Qed.

Lemma ref_step_lsn db db' : ref_step db db' → db_next_lsn db ≤ db_next_lsn db'.
Proof.
  intros [r db'' E|request r db'' E].
  - unfold ReferenceDb_begin in E. destruct (checked_add _ _); simplify_eq; simpl; lia.
  - pose proof (transact_at_lsn request (db_next_lsn db) db) as H.
    unfold ReferenceDb_transact, bind, gets in E. by rewrite E in H.
Qed.

(** What a step may do: nothing, or write some keys at the next revision. *)
Lemma ref_step_effect db db' :
  ref_step db db' → db_ok db → db_next_lsn db' < U64_MAX →
  states db' = states db ∨
  ∃ l, states db' = writes_of (db_next_lsn db) l ∪ states db ∧ db_next_lsn db' = db_next_lsn db + 1.
Proof.
  intros Hstep [Hlsn Hall] Hmax. pose proof (ref_step_lsn _ _ Hstep). destruct Hstep as [r db' E|request r db' E].
  - unfold ReferenceDb_begin in E. destruct (checked_add _ _); simplify_eq; by left.
  - unfold ReferenceDb_transact, bind, gets in E. destruct (accepts_dec db request) as [Ha|Ha].
    + rewrite transact_at_Ok in E by (done || lia).
      destruct (is_empty _); simplify_eq; [by left|]. right. eexists. split; [done|]. simpl. lia.
    + destruct (transact_at_Err request (db_next_lsn db) db Ha) as [e He]. rewrite He in E. simplify_eq. by left.
Qed.

Lemma writes_of_revision r l k s : writes_of r l !! k = Some s → RevisionState_revision s = r.
Proof.
  intros H%elem_of_list_to_map_2. apply list_elem_of_fmap in H as (m & [= -> ->] & _). by destruct m.
Qed.

Lemma get_revision_bound db k : db_ok db → 0 ≤ RevisionState_revision (ReferenceDb_get db k) < db_next_lsn db.
Proof.
  intros [H1 H]. unfold ReferenceDb_get. destruct (states db !! k) as [s|] eqn:E; simpl; [|lia].
  specialize (H k s E). simpl in H. lia.
Qed.

(** A step leaves a key alone or gives it a revision never seen before. *)
Lemma ref_step_key db db' :
  ref_step db db' → db_ok db → db_next_lsn db' < U64_MAX →
  db_ok db' ∧ db_next_lsn db ≤ db_next_lsn db' ∧ ∀ k,
    ReferenceDb_get db' k = ReferenceDb_get db k ∨
    db_next_lsn db ≤ RevisionState_revision (ReferenceDb_get db' k).
Proof.
  intros Hstep Hok Hmax. pose proof (ref_step_lsn _ _ Hstep) as Hle.
  pose proof (ref_step_effect db db' Hstep Hok Hmax) as Heff.
  split; [|split; [done|]].
  - destruct Hok as [H1 Hall]. split; [lia|]. intros k s Hs. destruct Heff as [E|(l & E & Hn)]; rewrite E in Hs.
    + specialize (Hall k s Hs). simpl in Hall. lia.
    + apply lookup_union_Some_raw in Hs as [Hs|[_ Hs]].
      * apply writes_of_revision in Hs. lia.
      * specialize (Hall k s Hs). simpl in Hall. lia.
  - intros k. unfold ReferenceDb_get. destruct Heff as [->|(l & -> & _)]; [by left|].
    rewrite lookup_union. destruct (writes_of _ l !! k) as [s|] eqn:Hw; simpl.
    + right. apply writes_of_revision in Hw as <-. by destruct (states db !! k).
    + left. by destruct (states db !! k).
Qed.

Lemma history_lsn db db' : history db db' → db_next_lsn db ≤ db_next_lsn db'.
Proof. induction 1 as [|x y z Hs _ IH]; [lia|]. apply ref_step_lsn in Hs. lia. Qed.

Lemma history_key db db' :
  history db db' → db_ok db → db_next_lsn db' < U64_MAX →
  db_ok db' ∧ ∀ k,
    ReferenceDb_get db' k = ReferenceDb_get db k ∨
    db_next_lsn db ≤ RevisionState_revision (ReferenceDb_get db' k).
Proof.
  induction 1 as [|x y z Hs Hh IH]; intros Hok Hmax; [by eauto|].
  pose proof (history_lsn _ _ Hh) as Hyz. destruct (ref_step_key x y Hs Hok) as (Hy & Hle & Hk); [lia|].
  destruct IH as [Hz IH]; [done..|]. split; [done|]. intros k.
  destruct (IH k) as [E|]; [|right; lia]. rewrite E. destruct (Hk k); auto.
Qed.

Lemma new_ok : db_ok ReferenceDb_new.
Proof. split; [done|]. apply map_Forall_empty. Qed.

(** The same revision of a key, at two points of a history, is the same state:
    nothing can be overwritten and put back unnoticed. *)
Lemma same_revision db0 db1 k :
  history ReferenceDb_new db0 → history db0 db1 → db_next_lsn db1 < U64_MAX →
  RevisionState_revision (ReferenceDb_get db0 k) = RevisionState_revision (ReferenceDb_get db1 k) →
  ReferenceDb_get db1 k = ReferenceDb_get db0 k.
Proof.
  intros H0 H1 Hmax Hr. pose proof (history_lsn _ _ H1).
  destruct (history_key _ _ H0 new_ok) as [Hok _]; [lia|].
  destruct (history_key _ _ H1 Hok Hmax) as [_ Hk]. destruct (Hk k) as [|Hk']; [done|].
  pose proof (get_revision_bound db0 k Hok). lia.
Qed.

(** ** Serializability *)

(** The state a committed write set gives a key. *)
Definition after_writes (db : ReferenceDb) (ws : WriteSet) (lsn : Lsn) (k : DocumentKey) : RevisionState :=
  match ws !! k with
  | Some (WPut value) => Present value lsn
  | Some WDelete => Missing lsn
  | None => ReferenceDb_get db k
  end.

Lemma writes_of_write_set lsn (ws : WriteSet) k :
  writes_of lsn (mutation_of <$> ordered_iter key_le ws) !! k =
  (λ w, match w with WPut value => Present value lsn | WDelete => Missing lsn end) <$> ws !! k.
Proof.
  unfold writes_of. rewrite <- list_fmap_compose.
  assert (∀ e : DocumentKey * WriteIntent, ((λ m, (TransactionMutation_key m, mutation_state lsn m)) ∘ mutation_of) e =
    prod_map id (λ w, match w with WPut value => Present value lsn | WDelete => Missing lsn end) e) as E
    by (by intros [? []]).
  rewrite (list_fmap_ext _ _ _ (λ _ e _, E e)), list_to_map_fmap, lookup_fmap. f_equal.
  rewrite (list_to_map_proper _ (map_to_list ws)), list_to_map_to_list; [done| |apply ordered_iter_permutation].
  apply ordered_iter_NoDup.
Qed.

(** A commit that succeeds found every key it had read at the revision it read. *)
Lemma commit_accepts t db r db' :
  db_next_lsn db < U64_MAX → 1 ≤ db_next_lsn db → ReferenceDb_commit t db = (Ok r, db') →
  accepts db (request_of t) ∧
  db' = if is_empty (mutations (request_of t)) then db else committed (request_of t) (db_next_lsn db) db.
Proof.
  intros Hmax H1 E. unfold ReferenceDb_commit, ReferenceDb_transact, bind, gets in E.
  destruct (accepts_dec db (request_of t)) as [Ha|Ha].
  - rewrite transact_at_Ok in E by (done || lia). split; [done|]. by destruct (is_empty _); simplify_eq.
  - destruct (transact_at_Err (request_of t) (db_next_lsn db) db Ha) as [e He]. by rewrite He in E.
Qed.

Lemma accepted_read t db k r :
  accepts db (request_of t) → read_set t !! k = Some r → RevisionState_revision (ReferenceDb_get db k) = r.
Proof.
  intros [_ Hall] Hr. simpl in Hall. apply Forall_app in Hall as [Hall _].
  rewrite Forall_fmap, Forall_forall in Hall. specialize (Hall (k, r)). simpl in Hall.
  assert (holds db (RevisionEquals k r)) as Hh by (by apply Hall, elem_of_ordered_iter).
  unfold holds in Hh. simpl in Hh. bool_props. by destruct (ReferenceDb_get db k).
Qed.

Lemma get_committed db t k :
  ReferenceDb_get (committed (request_of t) (db_next_lsn db) db) k =
  after_writes db (write_set t) (db_next_lsn db) k.
Proof.
  unfold after_writes, ReferenceDb_get, committed. simpl. rewrite lookup_union, writes_of_write_set.
  destruct (write_set t !! k) as [[]|]; simpl; by destruct (states db !! k).
Qed.

Lemma no_writes db t k :
  is_empty (mutations (request_of t)) = true → ReferenceDb_get db k = after_writes db (write_set t) (db_next_lsn db) k.
Proof.
  simpl. intros E. unfold after_writes. destruct (write_set t !! k) as [w|] eqn:Hw; [|done].
  apply (elem_of_ordered_iter key_le) in Hw. destruct (ordered_iter key_le (write_set t)); [|done].
  by apply elem_of_nil in Hw.
Qed.

(** C30. Optimistic transactions are serializable.  A transaction may read keys
    at any earlier points [db0] of the history; if its commit at [db1] succeeds,
    every key it read still has, at [db1], exactly the state it read, and the
    commit makes all its writes visible, at one new revision, and nothing else.
    So the transaction behaves as if it ran as a whole at its commit. *)
Theorem commit_serializable db0 db1 db2 t k r :
  history ReferenceDb_new db0 → history db0 db1 → db_next_lsn db1 < U64_MAX →
  read_set t !! k = Some (RevisionState_revision (ReferenceDb_get db0 k)) →
  ReferenceDb_commit t db1 = (Ok r, db2) →
  ReferenceDb_get db1 k = ReferenceDb_get db0 k ∧
  ∀ k', ReferenceDb_get db2 k' = after_writes db1 (write_set t) (db_next_lsn db1) k'.
Proof.
  intros H0 H1 Hmax Hr Hc. pose proof (history_lsn _ _ H0) as L0. pose proof (history_lsn _ _ H1) as L1.
  change (db_next_lsn ReferenceDb_new) with 1 in L0.
  destruct (commit_accepts t db1 r db2) as [Ha ->]; [lia|lia|done|]. split.
  - apply same_revision; [done..|]. symmetry. by eapply accepted_read.
  - intros k'. destruct (is_empty _) eqn:E; [by apply no_writes|apply get_committed].
Qed.

(** C31. A request either commits as a whole, when it is unambiguous and every
    condition holds, at the next revision; or fails and changes nothing. *)
Theorem transact_atomic request db :
  1 ≤ db_next_lsn db < U64_MAX →
  match ReferenceDb_transact request db with
  | (Ok r, db') =>
      accepts db request ∧
      r = (if is_empty (mutations request) then None else Some (db_next_lsn db)) ∧
      ∀ k, ReferenceDb_get db' k =
             default (ReferenceDb_get db k) (writes_of (db_next_lsn db) (mutations request) !! k)
  | (Err _, db') => ¬ accepts db request ∧ db' = db
  | _ => False
  end.
Proof.
  intros Hlsn. unfold ReferenceDb_transact, bind, gets. destruct (accepts_dec db request) as [Ha|Ha].
  - rewrite transact_at_Ok by (done || lia).
    destruct (mutations request) as [|m l] eqn:E; simpl.
    { split; [done|]. split; [done|]. intros k. unfold writes_of. simpl. by rewrite lookup_empty. }
    split; [done|]. split; [done|]. intros k. unfold ReferenceDb_get, committed. simpl.
    rewrite lookup_union, E. by destruct (writes_of _ _ !! k), (states db !! k).
  - destruct (transact_at_Err request (db_next_lsn db) db Ha) as [e ->]. done.
Qed.

(** C32. At the last log sequence number the reference model is not atomic: the
    request fails, and its writes are kept. *)
Theorem transact_at_exhausted request db :
  accepts db request → mutations request ≠ [] →
  ReferenceDb_transact_at request U64_MAX db =
    (Err (InternalInvariantViolation "synthetic LSN exhausted"),
     mkDb (writes_of U64_MAX (mutations request) ∪ states db) (db_next_lsn db) (db_next_txn_id db)).
Proof.
  intros [Hv Hc] Hm. unfold ReferenceDb_transact_at, bind, lift, get. rewrite Hv.
  destruct (check_conditions_cases db (conditions request)) as [[-> _]|[_ ?]]; [|done].
  assert (is_empty (mutations request) = false) as -> by (by destruct (mutations request)). simpl.
  by rewrite apply_mutations_union by (by apply validate_nodup).
Qed.

(** ** Examples *)

Definition example_key (n : byte) : DocumentKey := mkKey [n] [n].
Definition example_db : ReferenceDb := (ReferenceDb_put (example_key Byte.x01) [Byte.x2a] ReferenceDb_new).2.
(** Reads the first key and writes the second. *)
Definition example_transaction : ReferenceTransaction :=
  mkTransaction 2 [] {[example_key Byte.x01 := 1]} {[example_key Byte.x02 := WPut [Byte.x2b]]}.

(** Another client writes a third key in between. *)
Definition example_later : ReferenceDb := (ReferenceDb_put (example_key Byte.x03) [Byte.x2c] example_db).2.

Lemma put_history key value db :
  history db (ReferenceDb_put key value db).2.
Proof.
  unfold ReferenceDb_put. rewrite bind_eq.
  destruct (ReferenceDb_begin db) as [r db'] eqn:E.
  assert (ref_step db db') by (by eapply step_begin). destruct r as [t| | |]; try (by apply rtc_once).
  unfold get. rewrite !bind_eq. unfold ReferenceDb_commit.
  destruct (ReferenceDb_transact _ db') as [r' db''] eqn:E'.
  assert (ref_step db' db'') by (by eapply step_transact).
  assert (history db db'') by (eapply rtc_l; [done|by apply rtc_once]). by destruct r'.
Qed.

Lemma commit_serializable_witness :
  ReferenceDb_get example_later (example_key Byte.x01) = ReferenceDb_get example_db (example_key Byte.x01) ∧
  ∀ k, ReferenceDb_get (ReferenceDb_commit example_transaction example_later).2 k =
       after_writes example_later (write_set example_transaction) (db_next_lsn example_later) k.
Proof.
  refine (commit_serializable example_db example_later (ReferenceDb_commit example_transaction example_later).2
    example_transaction (example_key Byte.x01) (Some 3) (put_history _ _ _) (put_history _ _ _) _ _ _);
    vm_compute; reflexivity.
Defined.

Lemma transact_atomic_witness :
  match ReferenceDb_transact (mkRequest [Exists_ (example_key Byte.x01)] [Delete (example_key Byte.x01)]) ReferenceDb_new with
  | (Err _, db') => db' = ReferenceDb_new
  | _ => False
  end.
Proof.
  pose proof (transact_atomic (mkRequest [Exists_ (example_key Byte.x01)] [Delete (example_key Byte.x01)])
    ReferenceDb_new ltac:(split; [discriminate|reflexivity])) as H.
  vm_compute in H |- *. exact (proj2 H).
Defined.

Lemma transact_at_exhausted_witness :
  (ReferenceDb_transact_at (mkRequest [] [Put (example_key Byte.x01) []]) U64_MAX ReferenceDb_new).2 ≠ ReferenceDb_new.
Proof.
  rewrite (transact_at_exhausted (mkRequest [] [Put (example_key Byte.x01) []]) ReferenceDb_new).
  - vm_compute. discriminate.
  - split; [vm_compute; reflexivity|by apply Forall_nil].
  - discriminate.
Defined.
