(* ===== verification/StoreState.v ===== *)
(** * StoreState: the B+tree engine's data

    src/dodb/crates/dodb-storage/src/btree/mod.rs: the configuration, the
    request and response types, [ResponseBudget], and the states of
    [BTreeStore] and of [Overlay], the staging area in which one batch of
    requests reads and rewrites pages of the tree before anything is published.
    Each [set_] function assigns one field.  Store.v has [Overlay]'s operations,
    Engine.v [BTreeStore]'s. *)

From S2P Require Import Prelude Core Crc Page Superblock DurableFile Wal Format Cache.

Definition FIRST_DATA_PAGE : Z := 2.
Definition MAX_ENCODED_KEY_SIZE : Z := 3992.
Definition SUPERBLOCK_A_OFFSET : Z := 0.
Definition SUPERBLOCK_B_OFFSET : Z := PAGE_SIZE.

#[export] Hint Unfold FIRST_DATA_PAGE MAX_ENCODED_KEY_SIZE SUPERBLOCK_A_OFFSET SUPERBLOCK_B_OFFSET : consts.

(** The file type of a store that has no log. *)
Inductive NoWal : Type := mkNoWal.

Global Instance NoWal_file : DurableFile NoWal := {|
  read_at := fun _ _ => ret [];
  write_at := fun _ _ => throw (InternalInvariantViolation "NoWal cannot receive WAL writes");
  file_len := fun _ => Ok 0;
  set_len := fun _ => ret tt;
  sync_data := ret tt;
  sync_all := ret tt
|}.

(** ** Configuration, requests and responses *)

Record StorageLimits := mkLimits { inline_value_limit : Z; max_value_size : Z }.
Definition StorageLimits_default : StorageLimits := mkLimits INLINE_VALUE_LIMIT MAX_VALUE_SIZE.

Record DatabaseConfig := mkConfig {
  cfg_database_uuid : list byte;
  cfg_tenant_id : TenantId;
  cfg_shard_id : ShardId;
  cfg_shard_epoch : ShardEpoch;
  cache_capacity : Z;
  limits : StorageLimits
}.
Definition DatabaseConfig_default : DatabaseConfig := mkConfig (zeros 16) 0 0 0 128 StorageLimits_default.
Definition with_cache_capacity (capacity : Z) (c : DatabaseConfig) : DatabaseConfig :=
  mkConfig (cfg_database_uuid c) (cfg_tenant_id c) (cfg_shard_id c) (cfg_shard_epoch c) capacity (limits c).

Record Document := mkDocument { doc_key : DocumentKey; doc_value : list byte; doc_revision : Revision }.

Inductive BatchRequest : Type :=
  | BGet (key : DocumentKey)
  | BPut (key : DocumentKey) (value : list byte)
  | BDelete (key : DocumentKey)
  | BQuery (p : PrimaryKey) (exclusive_after_sk : option SortKey) (limit : Z)
  | BScan (exclusive_after_key : option DocumentKey) (limit : Z).

Inductive BatchResponse : Type :=
  | RGet (state : RevisionState)
  | RPut (revision : Revision)
  | RDelete (revision : Revision)
  | RQuery (rows : list Document)
  | RScan (rows : list Document).

Record PreparedBatch := mkPrepared {
  responses : list BatchResponse;
  changed_pages : gmap PageId (list byte);
  changed_decoded : gmap PageId PageData;
  pb_read_pages : gmap PageId PageData;
  new_superblock : Superblock;
  new_slot : SuperblockSlot;
  base_generation : Z;
  pb_next_revision : Revision;
  pb_root_page_id : PageId;
  pb_free_list_head : option PageId;
  pb_high_water_page_id : PageId;
  pb_commit_lsn : option Lsn;
  pb_batch_id : Z
}.

Record InvariantReport := mkReport {
  reachable_pages : Z;
  free_pages : Z;
  leaked_pages : list PageId;
  max_revision : Revision
}.

Record StorageMetrics := mkStorageMetrics {
  validation_nanos : Z;
  btree_preparation_nanos : Z;
  publication_nanos : Z
}.
Definition StorageMetrics_default : StorageMetrics := mkStorageMetrics 0 0 0.

(** ** The response budget *)

Definition RESPONSE_WIRE_OVERHEAD : Z := 17.
Definition RESPONSE_MEMORY_OVERHEAD : Z := 64 * 1024.
#[export] Hint Unfold RESPONSE_WIRE_OVERHEAD RESPONSE_MEMORY_OVERHEAD : consts.

Record ResponseBudget := mkBudget {
  maximum_wire : Z;
  maximum_memory : Z;
  used_wire : Z;
  used_memory : Z
}.

Definition ResponseBudget_new (maximum : Z) : Result Error ResponseBudget :=
  guard? negb (maximum <? RESPONSE_WIRE_OVERHEAD) else
    ResponseTooLarge "response envelope exceeds {maximum} bytes" in
  Ok (mkBudget maximum (saturating_add maximum RESPONSE_MEMORY_OVERHEAD) RESPONSE_WIRE_OVERHEAD 0).

Definition reserve (wire memory : Z) : ST ResponseBudget Error unit := fun b =>
  match checked_add (used_wire b) wire with
  | None => (Err (ResponseTooLarge "encoded response size overflows"), b)
  | Some next_wire =>
      match checked_add (used_memory b) memory with
      | None => (Err (ResponseTooLarge "response materialization size overflows"), b)
      | Some next_memory =>
          if (maximum_wire b <? next_wire) || (maximum_memory b <? next_memory)
          then (Err (ResponseTooLarge "response materialization exceeds {} bytes"), b)
          else (Ok tt, mkBudget (maximum_wire b) (maximum_memory b) next_wire next_memory)
      end
  end.

Definition reserve_state (value_len : Z) : ST ResponseBudget Error unit :=
  let* wire := lift (plain_add (1 + 4) value_len) in
  let* wire := lift (plain_add wire 8) in
  reserve wire (saturating_add value_len 32).

Definition reserve_document (key : DocumentKey) (value_len : Z) : ST ResponseBudget Error unit :=
  let size := saturating_add (saturating_add (len (pk key)) (len (sk key))) value_len in
  let materialized := saturating_add size 64 in
  let encoded := saturating_add size 20 in
  let wire := saturating_add size 20 in
  reserve wire (Z.max materialized encoded).

(** ** The store's state *)

(** [broken] keeps the error whose text the source keeps. *)
Record BTreeStore (F W I : Type) := mkStore {
  st_file : F;
  st_wal : option (WalLog W);
  st_superblock : Superblock;
  st_active_slot : SuperblockSlot;
  st_root : PageId;
  st_free_list_head : option PageId;
  st_high_water : PageId;
  st_next_revision : Revision;
  st_next_lsn : Lsn;
  st_next_batch_id : Z;
  st_cache : PageCache;
  st_config : DatabaseConfig;
  st_dirty_pages : gmap PageId (list byte);
  st_dirty_superblock : option (list byte);
  st_track_published : bool;
  st_published : gmap PageId PageData;
  st_metrics : StorageMetrics;
  st_broken : option Error;
  st_injector : option I
}.
Arguments mkStore {F W I}.
Arguments st_file {F W I}. Arguments st_wal {F W I}. Arguments st_superblock {F W I}.
Arguments st_active_slot {F W I}. Arguments st_root {F W I}.
Arguments st_free_list_head {F W I}. Arguments st_high_water {F W I}.
Arguments st_next_revision {F W I}. Arguments st_next_lsn {F W I}.
Arguments st_next_batch_id {F W I}. Arguments st_cache {F W I}. Arguments st_config {F W I}.
Arguments st_dirty_pages {F W I}. Arguments st_dirty_superblock {F W I}.
Arguments st_track_published {F W I}. Arguments st_published {F W I}.
Arguments st_metrics {F W I}. Arguments st_broken {F W I}. Arguments st_injector {F W I}.

Section store_fields.
Context {F W I : Type}.

Definition set_st_file (x : F) (s : BTreeStore F W I) : BTreeStore F W I :=
  mkStore x (st_wal s) (st_superblock s) (st_active_slot s) (st_root s) (st_free_list_head s)
    (st_high_water s) (st_next_revision s) (st_next_lsn s) (st_next_batch_id s) (st_cache s)
    (st_config s) (st_dirty_pages s) (st_dirty_superblock s) (st_track_published s) (st_published s)
    (st_metrics s) (st_broken s) (st_injector s).
Definition set_st_wal (x : option (WalLog W)) (s : BTreeStore F W I) : BTreeStore F W I :=
  mkStore (st_file s) x (st_superblock s) (st_active_slot s) (st_root s) (st_free_list_head s)
    (st_high_water s) (st_next_revision s) (st_next_lsn s) (st_next_batch_id s) (st_cache s)
    (st_config s) (st_dirty_pages s) (st_dirty_superblock s) (st_track_published s) (st_published s)
    (st_metrics s) (st_broken s) (st_injector s).
Definition set_st_superblock (x : Superblock) (s : BTreeStore F W I) : BTreeStore F W I :=
  mkStore (st_file s) (st_wal s) x (st_active_slot s) (st_root s) (st_free_list_head s)
    (st_high_water s) (st_next_revision s) (st_next_lsn s) (st_next_batch_id s) (st_cache s)
    (st_config s) (st_dirty_pages s) (st_dirty_superblock s) (st_track_published s) (st_published s)
    (st_metrics s) (st_broken s) (st_injector s).
Definition set_st_active_slot (x : SuperblockSlot) (s : BTreeStore F W I) : BTreeStore F W I :=
  mkStore (st_file s) (st_wal s) (st_superblock s) x (st_root s) (st_free_list_head s)
    (st_high_water s) (st_next_revision s) (st_next_lsn s) (st_next_batch_id s) (st_cache s)
    (st_config s) (st_dirty_pages s) (st_dirty_superblock s) (st_track_published s) (st_published s)
    (st_metrics s) (st_broken s) (st_injector s).
Definition set_st_root (x : PageId) (s : BTreeStore F W I) : BTreeStore F W I :=
  mkStore (st_file s) (st_wal s) (st_superblock s) (st_active_slot s) x (st_free_list_head s)
    (st_high_water s) (st_next_revision s) (st_next_lsn s) (st_next_batch_id s) (st_cache s)
    (st_config s) (st_dirty_pages s) (st_dirty_superblock s) (st_track_published s) (st_published s)
    (st_metrics s) (st_broken s) (st_injector s).
Definition set_st_free_list_head (x : option PageId) (s : BTreeStore F W I) : BTreeStore F W I :=
  mkStore (st_file s) (st_wal s) (st_superblock s) (st_active_slot s) (st_root s) x
    (st_high_water s) (st_next_revision s) (st_next_lsn s) (st_next_batch_id s) (st_cache s)
    (st_config s) (st_dirty_pages s) (st_dirty_superblock s) (st_track_published s) (st_published s)
    (st_metrics s) (st_broken s) (st_injector s).
Definition set_st_high_water (x : PageId) (s : BTreeStore F W I) : BTreeStore F W I :=
  mkStore (st_file s) (st_wal s) (st_superblock s) (st_active_slot s) (st_root s)
    (st_free_list_head s) x (st_next_revision s) (st_next_lsn s) (st_next_batch_id s) (st_cache s)
    (st_config s) (st_dirty_pages s) (st_dirty_superblock s) (st_track_published s) (st_published s)
    (st_metrics s) (st_broken s) (st_injector s).
Definition set_st_next_revision (x : Revision) (s : BTreeStore F W I) : BTreeStore F W I :=
  mkStore (st_file s) (st_wal s) (st_superblock s) (st_active_slot s) (st_root s)
    (st_free_list_head s) (st_high_water s) x (st_next_lsn s) (st_next_batch_id s) (st_cache s)
    (st_config s) (st_dirty_pages s) (st_dirty_superblock s) (st_track_published s) (st_published s)
    (st_metrics s) (st_broken s) (st_injector s).
Definition set_st_next_lsn (x : Lsn) (s : BTreeStore F W I) : BTreeStore F W I :=
  mkStore (st_file s) (st_wal s) (st_superblock s) (st_active_slot s) (st_root s)
    (st_free_list_head s) (st_high_water s) (st_next_revision s) x (st_next_batch_id s) (st_cache s)
    (st_config s) (st_dirty_pages s) (st_dirty_superblock s) (st_track_published s) (st_published s)
    (st_metrics s) (st_broken s) (st_injector s).
Definition set_st_next_batch_id (x : Z) (s : BTreeStore F W I) : BTreeStore F W I :=
  mkStore (st_file s) (st_wal s) (st_superblock s) (st_active_slot s) (st_root s)
    (st_free_list_head s) (st_high_water s) (st_next_revision s) (st_next_lsn s) x (st_cache s)
    (st_config s) (st_dirty_pages s) (st_dirty_superblock s) (st_track_published s) (st_published s)
    (st_metrics s) (st_broken s) (st_injector s).
Definition set_st_cache (x : PageCache) (s : BTreeStore F W I) : BTreeStore F W I :=
  mkStore (st_file s) (st_wal s) (st_superblock s) (st_active_slot s) (st_root s)
    (st_free_list_head s) (st_high_water s) (st_next_revision s) (st_next_lsn s)
    (st_next_batch_id s) x (st_config s) (st_dirty_pages s) (st_dirty_superblock s)
    (st_track_published s) (st_published s) (st_metrics s) (st_broken s) (st_injector s).
Definition set_st_dirty_pages (x : gmap PageId (list byte)) (s : BTreeStore F W I) : BTreeStore F W I :=
  mkStore (st_file s) (st_wal s) (st_superblock s) (st_active_slot s) (st_root s)
    (st_free_list_head s) (st_high_water s) (st_next_revision s) (st_next_lsn s)
    (st_next_batch_id s) (st_cache s) (st_config s) x (st_dirty_superblock s) (st_track_published s)
    (st_published s) (st_metrics s) (st_broken s) (st_injector s).
Definition set_st_dirty_superblock (x : option (list byte)) (s : BTreeStore F W I) : BTreeStore F W I :=
  mkStore (st_file s) (st_wal s) (st_superblock s) (st_active_slot s) (st_root s)
    (st_free_list_head s) (st_high_water s) (st_next_revision s) (st_next_lsn s)
    (st_next_batch_id s) (st_cache s) (st_config s) (st_dirty_pages s) x (st_track_published s)
    (st_published s) (st_metrics s) (st_broken s) (st_injector s).
Definition set_st_track_published (x : bool) (s : BTreeStore F W I) : BTreeStore F W I :=
  mkStore (st_file s) (st_wal s) (st_superblock s) (st_active_slot s) (st_root s)
    (st_free_list_head s) (st_high_water s) (st_next_revision s) (st_next_lsn s)
    (st_next_batch_id s) (st_cache s) (st_config s) (st_dirty_pages s) (st_dirty_superblock s) x
    (st_published s) (st_metrics s) (st_broken s) (st_injector s).
Definition set_st_published (x : gmap PageId PageData) (s : BTreeStore F W I) : BTreeStore F W I :=
  mkStore (st_file s) (st_wal s) (st_superblock s) (st_active_slot s) (st_root s)
    (st_free_list_head s) (st_high_water s) (st_next_revision s) (st_next_lsn s)
    (st_next_batch_id s) (st_cache s) (st_config s) (st_dirty_pages s) (st_dirty_superblock s)
    (st_track_published s) x (st_metrics s) (st_broken s) (st_injector s).
Definition set_st_metrics (x : StorageMetrics) (s : BTreeStore F W I) : BTreeStore F W I :=
  mkStore (st_file s) (st_wal s) (st_superblock s) (st_active_slot s) (st_root s)
    (st_free_list_head s) (st_high_water s) (st_next_revision s) (st_next_lsn s)
    (st_next_batch_id s) (st_cache s) (st_config s) (st_dirty_pages s) (st_dirty_superblock s)
    (st_track_published s) (st_published s) x (st_broken s) (st_injector s).
Definition set_st_broken (x : option Error) (s : BTreeStore F W I) : BTreeStore F W I :=
  mkStore (st_file s) (st_wal s) (st_superblock s) (st_active_slot s) (st_root s)
    (st_free_list_head s) (st_high_water s) (st_next_revision s) (st_next_lsn s)
    (st_next_batch_id s) (st_cache s) (st_config s) (st_dirty_pages s) (st_dirty_superblock s)
    (st_track_published s) (st_published s) (st_metrics s) x (st_injector s).
Definition set_st_injector (x : option I) (s : BTreeStore F W I) : BTreeStore F W I :=
  mkStore (st_file s) (st_wal s) (st_superblock s) (st_active_slot s) (st_root s)
    (st_free_list_head s) (st_high_water s) (st_next_revision s) (st_next_lsn s)
    (st_next_batch_id s) (st_cache s) (st_config s) (st_dirty_pages s) (st_dirty_superblock s)
    (st_track_published s) (st_published s) (st_metrics s) (st_broken s) x.

End store_fields.

(** ** The overlay *)

Record Overlay (F W I : Type) := mkOverlay {
  ov_store : BTreeStore F W I;
  ov_pages : gmap PageId PageData;
  ov_dirty : gset PageId;
  ov_read_pages : gmap PageId PageData;
  ov_allocated : gset PageId;
  ov_root : PageId;
  ov_free_list_head : option PageId;
  ov_high_water : PageId;
  ov_next_revision : Revision;
  ov_last_lsn : option Lsn;
  ov_next_lsn : Lsn;
  ov_next_batch_id : Z;
  ov_superblock : Superblock;
  ov_active_slot : SuperblockSlot
}.
Arguments mkOverlay {F W I}.
Arguments ov_store {F W I}. Arguments ov_pages {F W I}. Arguments ov_dirty {F W I}.
Arguments ov_read_pages {F W I}. Arguments ov_allocated {F W I}. Arguments ov_root {F W I}.
Arguments ov_free_list_head {F W I}. Arguments ov_high_water {F W I}.
Arguments ov_next_revision {F W I}. Arguments ov_last_lsn {F W I}.
Arguments ov_next_lsn {F W I}. Arguments ov_next_batch_id {F W I}.
Arguments ov_superblock {F W I}. Arguments ov_active_slot {F W I}.

Section overlay_fields.
Context {F W I : Type}.

Definition set_ov_store (x : BTreeStore F W I) (s : Overlay F W I) : Overlay F W I :=
  mkOverlay x (ov_pages s) (ov_dirty s) (ov_read_pages s) (ov_allocated s) (ov_root s)
    (ov_free_list_head s) (ov_high_water s) (ov_next_revision s) (ov_last_lsn s) (ov_next_lsn s)
    (ov_next_batch_id s) (ov_superblock s) (ov_active_slot s).
Definition set_ov_pages (x : gmap PageId PageData) (s : Overlay F W I) : Overlay F W I :=
  mkOverlay (ov_store s) x (ov_dirty s) (ov_read_pages s) (ov_allocated s) (ov_root s)
    (ov_free_list_head s) (ov_high_water s) (ov_next_revision s) (ov_last_lsn s) (ov_next_lsn s)
    (ov_next_batch_id s) (ov_superblock s) (ov_active_slot s).
Definition set_ov_dirty (x : gset PageId) (s : Overlay F W I) : Overlay F W I :=
  mkOverlay (ov_store s) (ov_pages s) x (ov_read_pages s) (ov_allocated s) (ov_root s)
    (ov_free_list_head s) (ov_high_water s) (ov_next_revision s) (ov_last_lsn s) (ov_next_lsn s)
    (ov_next_batch_id s) (ov_superblock s) (ov_active_slot s).
Definition set_ov_read_pages (x : gmap PageId PageData) (s : Overlay F W I) : Overlay F W I :=
  mkOverlay (ov_store s) (ov_pages s) (ov_dirty s) x (ov_allocated s) (ov_root s)
    (ov_free_list_head s) (ov_high_water s) (ov_next_revision s) (ov_last_lsn s) (ov_next_lsn s)
    (ov_next_batch_id s) (ov_superblock s) (ov_active_slot s).
Definition set_ov_allocated (x : gset PageId) (s : Overlay F W I) : Overlay F W I :=
  mkOverlay (ov_store s) (ov_pages s) (ov_dirty s) (ov_read_pages s) x (ov_root s)
    (ov_free_list_head s) (ov_high_water s) (ov_next_revision s) (ov_last_lsn s) (ov_next_lsn s)
    (ov_next_batch_id s) (ov_superblock s) (ov_active_slot s).
Definition set_ov_root (x : PageId) (s : Overlay F W I) : Overlay F W I :=
  mkOverlay (ov_store s) (ov_pages s) (ov_dirty s) (ov_read_pages s) (ov_allocated s) x
    (ov_free_list_head s) (ov_high_water s) (ov_next_revision s) (ov_last_lsn s) (ov_next_lsn s)
    (ov_next_batch_id s) (ov_superblock s) (ov_active_slot s).
Definition set_ov_free_list_head (x : option PageId) (s : Overlay F W I) : Overlay F W I :=
  mkOverlay (ov_store s) (ov_pages s) (ov_dirty s) (ov_read_pages s) (ov_allocated s) (ov_root s) x
    (ov_high_water s) (ov_next_revision s) (ov_last_lsn s) (ov_next_lsn s) (ov_next_batch_id s)
    (ov_superblock s) (ov_active_slot s).
Definition set_ov_high_water (x : PageId) (s : Overlay F W I) : Overlay F W I :=
  mkOverlay (ov_store s) (ov_pages s) (ov_dirty s) (ov_read_pages s) (ov_allocated s) (ov_root s)
    (ov_free_list_head s) x (ov_next_revision s) (ov_last_lsn s) (ov_next_lsn s)
    (ov_next_batch_id s) (ov_superblock s) (ov_active_slot s).
Definition set_ov_next_revision (x : Revision) (s : Overlay F W I) : Overlay F W I :=
  mkOverlay (ov_store s) (ov_pages s) (ov_dirty s) (ov_read_pages s) (ov_allocated s) (ov_root s)
    (ov_free_list_head s) (ov_high_water s) x (ov_last_lsn s) (ov_next_lsn s) (ov_next_batch_id s)
    (ov_superblock s) (ov_active_slot s).
Definition set_ov_last_lsn (x : option Lsn) (s : Overlay F W I) : Overlay F W I :=
  mkOverlay (ov_store s) (ov_pages s) (ov_dirty s) (ov_read_pages s) (ov_allocated s) (ov_root s)
    (ov_free_list_head s) (ov_high_water s) (ov_next_revision s) x (ov_next_lsn s)
    (ov_next_batch_id s) (ov_superblock s) (ov_active_slot s).
Definition set_ov_next_lsn (x : Lsn) (s : Overlay F W I) : Overlay F W I :=
  mkOverlay (ov_store s) (ov_pages s) (ov_dirty s) (ov_read_pages s) (ov_allocated s) (ov_root s)
    (ov_free_list_head s) (ov_high_water s) (ov_next_revision s) (ov_last_lsn s) x
    (ov_next_batch_id s) (ov_superblock s) (ov_active_slot s).
Definition set_ov_next_batch_id (x : Z) (s : Overlay F W I) : Overlay F W I :=
  mkOverlay (ov_store s) (ov_pages s) (ov_dirty s) (ov_read_pages s) (ov_allocated s) (ov_root s)
    (ov_free_list_head s) (ov_high_water s) (ov_next_revision s) (ov_last_lsn s) (ov_next_lsn s) x
    (ov_superblock s) (ov_active_slot s).
Definition set_ov_superblock (x : Superblock) (s : Overlay F W I) : Overlay F W I :=
  mkOverlay (ov_store s) (ov_pages s) (ov_dirty s) (ov_read_pages s) (ov_allocated s) (ov_root s)
    (ov_free_list_head s) (ov_high_water s) (ov_next_revision s) (ov_last_lsn s) (ov_next_lsn s)
    (ov_next_batch_id s) x (ov_active_slot s).
Definition set_ov_active_slot (x : SuperblockSlot) (s : Overlay F W I) : Overlay F W I :=
  mkOverlay (ov_store s) (ov_pages s) (ov_dirty s) (ov_read_pages s) (ov_allocated s) (ov_root s)
    (ov_free_list_head s) (ov_high_water s) (ov_next_revision s) (ov_last_lsn s) (ov_next_lsn s)
    (ov_next_batch_id s) (ov_superblock s) x.

End overlay_fields.
