(* ===== verification/Store.v ===== *)
(** * Store: the overlay of the B+tree engine

    src/dodb/crates/dodb-storage/src/btree/mod.rs, [Overlay] and the functions
    it calls.  An overlay stages the page changes of one batch or of one group
    of transactions on top of the committed pages, which it reads through the
    cache; nothing is published before Engine.v's [publish_prepared_group].

    [binary_search_by] and [partition_point] are modelled by their documented
    results on sorted slices; every page the engine handles has sorted entries.
    The loops that follow page ids take fuel: the ids they visit are distinct
    and lie below the high-water mark, or their number is bounded by
    [MAX_OVERFLOW_PAGES].  Measured times are arguments. *)

From S2P Require Import Prelude Core Crc Page Superblock DurableFile Wal Format Cache StoreState.

(** ** Pure helpers *)

(** The first position whose element does not satisfy [p], for a slice
    partitioned by [p]. *)
Fixpoint partition_point {A} (p : A → bool) (l : list A) : nat :=
  match l with
  | [] => 0
  | x :: l => if p x then S (partition_point p l) else 0
  end.

(** [Ok(i)] for the entry with the key, [Err(i)] for the position it would
    have. *)
Definition binary_search (key : list byte) (entries : list LeafEntry) : nat + nat :=
  let i := partition_point (λ e, bytes_lt (le_key e) key) entries in
  match entries !! i with
  | Some e => if bytes_eqb (le_key e) key then inl i else inr i
  | None => inr i
  end.

(** [Vec::insert], at a position that is not behind the end. *)
Definition insert_at {A} (i : nat) (x : A) (l : list A) : list A := take i l ++ x :: drop i l.

(** [value.chunks(n)]. *)
Definition chunks {A} (n : Z) (l : list A) : list (list A) :=
  (λ i, sub l (i * n) (i * n + n)) <$> range_to (div_ceil (len l) n).

Definition store_elapsed_nanos (nanos : Z) : Z := Z.min nanos U64_MAX.

Definition validate_encoded_key (key : list byte) : Result Error unit :=
  guard? negb (MAX_ENCODED_KEY_SIZE <? len key) else
    InvalidInput "encoded document key is {} bytes, maximum is {MAX_ENCODED_KEY_SIZE}" in
  Ok tt.

Definition value_length (value : ValueRef) : Result Error Z :=
  match value with
  | Inline bytes => Ok (len bytes)
  | Overflow _ length =>
      ok_or (usize_try_from length) (Corruption "overflow value length does not fit usize")
  end.

(** [candidates.sort_by_key(|c| c.abs_diff(middle))], a stable sort. *)
Definition closer (middle : Z) (a b : Z) : Prop := Z.abs (a - middle) ≤ Z.abs (b - middle).
Global Instance closer_dec middle : RelDecision (closer middle).
Proof. intros a b. unfold closer. apply _. Defined.

Definition split_candidates (length : Z) : list Z :=
  let middle := length / 2 in
  merge_sort (closer middle) ((λ i, i + 1) <$> range_to (length - 1)).

(** The first candidate that passes a test which may panic. *)
Fixpoint first_candidate (test : Z → Result Error bool) (candidates : list Z) (none : Error)
    : Result Error Z :=
  match candidates with
  | [] => Err none
  | c :: candidates =>
      let? ok := test c in
      if (ok : bool) then Ok c else first_candidate test candidates none
  end.

Definition choose_leaf_split (entries : list LeafEntry) : Result Error Z :=
  first_candidate (λ candidate,
    let? left := slice entries 0 candidate in
    let? right := slice entries candidate (len entries) in
    Ok (leaf_fits left && leaf_fits right))
    (split_candidates (len entries)) (InvalidInput "a single leaf entry exceeds page capacity").

Definition choose_internal_split (leftmost : PageId) (entries : list InternalEntry) : Result Error Z :=
  guard? negb (len entries <? 3) else InvalidInput "internal page cannot be split safely" in
  first_candidate (λ candidate,
    let? promoted := index entries candidate in
    let? left := slice entries 0 candidate in
    let? right := slice entries (candidate + 1) (len entries) in
    Ok (internal_fits leftmost left && internal_fits (right_child promoted) right))
    (split_candidates (len entries)) (InvalidInput "internal separators exceed page capacity").

Definition restamp_state (provisional committed : Revision) (state : RevisionState) : RevisionState :=
  if RevisionState_revision state =? provisional then
    match state with Present value _ => Present value committed | Missing _ => Missing committed end
  else state.

Definition restamp_revision (provisional committed revision : Revision) : Revision :=
  if revision =? provisional then committed else revision.

Definition restamp_row (provisional committed : Revision) (row : Document) : Document :=
  mkDocument (doc_key row) (doc_value row) (restamp_revision provisional committed (doc_revision row)).

Definition restamp_response (provisional committed : Revision) (response : BatchResponse) : BatchResponse :=
  match response with
  | RPut revision => RPut (restamp_revision provisional committed revision)
  | RDelete revision => RDelete (restamp_revision provisional committed revision)
  | RGet state => RGet (restamp_state provisional committed state)
  | RQuery rows => RQuery (restamp_row provisional committed <$> rows)
  | RScan rows => RScan (restamp_row provisional committed <$> rows)
  end.

Definition restamp_responses (responses : list BatchResponse) (provisional committed : Revision)
    : list BatchResponse := restamp_response provisional committed <$> responses.

Definition other_slot (s : SuperblockSlot) : SuperblockSlot :=
  match s with SlotA => SlotB | SlotB => SlotA end.

Record LeafPage := mkLeafPage { lp_next_leaf : option PageId; lp_entries : list LeafEntry }.
Record InternalPage := mkInternalPage { ip_leftmost_child : PageId; ip_entries : list InternalEntry }.

Section overlay.
Context `{Crc32c} {F W I : Type} `{DurableFile F}.

Abbreviation StoreM := (ST (BTreeStore F W I) Error).
Abbreviation OvM := (ST (Overlay F W I) Error).
(** Overlay operations that also draw on a response budget. *)
Abbreviation OvB := (ST (Overlay F W I * ResponseBudget) Error).

Definition on_st_file {A} (m : ST F Error A) : StoreM A := zoom st_file set_st_file m.
Definition on_store {A} (m : StoreM A) : OvM A := zoom ov_store set_ov_store m.
Definition on_ov {A} (m : OvM A) : OvB A := zoom fst (λ o s, (o, s.2)) m.
Definition on_budget {A} (m : ST ResponseBudget Error A) : OvB A := zoom snd (λ b s, (s.1, b)) m.

Definition Overlay_new (s : BTreeStore F W I) : Overlay F W I :=
  mkOverlay s ∅ ∅ ∅ ∅ (st_root s) (st_free_list_head s) (st_high_water s) (st_next_revision s) None
    (st_next_lsn s) (st_next_batch_id s) (st_superblock s) (st_active_slot s).

(** ** Pages *)

(** [BTreeStore::read_page_from_file]. *)
Definition read_page_from_file (page_id : PageId) : StoreM PageData :=
  let* dirty := gets (λ s, st_dirty_pages s !! page_id) in
  match dirty with
  | Some bytes =>
      let* decoded := lift (decode_page_at bytes (Some page_id)) in
      lift (PageData_decode decoded)
  | None =>
      let* offset := lift (plain_mul page_id PAGE_SIZE) in
      let* bytes := on_st_file (read_exact_at offset PAGE_SIZE) in
      let* decoded := lift (decode_page_at bytes (Some page_id)) in
      lift (PageData_decode decoded)
  end.

Definition check_page_id (page_id : PageId) : OvM unit :=
  let* high_water := gets ov_high_water in
  guard* negb ((page_id <? FIRST_DATA_PAGE) || (high_water <? page_id)) else
    Corruption "page id {} is outside the allocated range" in
  ret tt.

(** [self.store.cache.get(page_id)]. *)
Definition cache_get (page_id : PageId) : OvM (option PageData) := fun o =>
  let '(found, cache) := PageCache_get page_id (st_cache (ov_store o)) in
  (Ok found, set_ov_store (set_st_cache cache (ov_store o)) o).

Definition page (page_id : PageId) : OvM PageData :=
  do* check_page_id page_id in
  let* staged := gets (λ o, ov_pages o !! page_id) in
  match staged with
  | Some p => ret p
  | None =>
      let* cached := cache_get page_id in
      match cached with
      | Some p =>
          do* modify (λ o, set_ov_pages (<[page_id := p]> (ov_pages o)) o) in
          ret p
      | None =>
          let* p := on_store (read_page_from_file page_id) in
          do* modify (λ o, set_ov_read_pages (<[page_id := p]> (ov_read_pages o)) o) in
          do* modify (λ o, set_ov_pages (<[page_id := p]> (ov_pages o)) o) in
          ret p
      end
  end.

Definition leaf (page_id : PageId) : OvM LeafPage :=
  let* p := page page_id in
  match p with
  | PLeaf _ next_leaf entries => ret (mkLeafPage next_leaf entries)
  | _ => throw (Corruption "expected a leaf page")
  end.

Definition internal (page_id : PageId) : OvM InternalPage :=
  let* p := page page_id in
  match p with
  | PInternal _ leftmost_child entries => ret (mkInternalPage leftmost_child entries)
  | _ => throw (Corruption "expected an internal page")
  end.

Definition replace_page (page_id : PageId) (p : PageData) : OvM unit :=
  modify (λ o, set_ov_dirty ({[page_id]} ∪ ov_dirty o) (set_ov_pages (<[page_id := p]> (ov_pages o)) o)).

Definition allocate_page : OvM PageId :=
  let* head := gets ov_free_list_head in
  match head with
  | Some page_id =>
      let* p := page page_id in
      match p with
      | PFree _ next =>
          do* modify (set_ov_free_list_head next) in
          do* modify (λ o, set_ov_allocated ({[page_id]} ∪ ov_allocated o) o) in
          ret page_id
      | _ => throw (Corruption "free-list head is not a free page")
      end
  | None =>
      let* high_water := gets ov_high_water in
      match checked_add high_water 1 with
      | Some page_id =>
          do* modify (set_ov_high_water page_id) in
          do* modify (λ o, set_ov_allocated ({[page_id]} ∪ ov_allocated o) o) in
          ret page_id
      | None => throw (InternalInvariantViolation "page id exhausted")
      end
  end.

Definition free_page (page_id : PageId) (lsn : Revision) : OvM unit :=
  do* modify (λ o, set_ov_allocated (ov_allocated o ∖ {[page_id]}) o) in
  let* head := gets ov_free_list_head in
  do* replace_page page_id (PFree lsn head) in
  modify (set_ov_free_list_head (Some page_id)).

Definition allocate_revision : OvM Revision :=
  let* o := get in
  let revision :=
    match ov_last_lsn o with Some l => revision_from_lsn l | None => ov_next_revision o end in
  do* modify (set_ov_last_lsn (Some revision)) in
  ret revision.

(** ** Values *)

Definition config_limits (o : Overlay F W I) : StorageLimits := limits (st_config (ov_store o)).

Definition validate_value (value : list byte) : OvM unit :=
  let* l := gets config_limits in
  guard* negb ((max_value_size l <? len value) || (MAX_VALUE_SIZE <? len value)) else
    InvalidInput "value is {} bytes, maximum is {}" in
  ret tt.

Definition make_value (value : list byte) (lsn : Revision) : OvM ValueRef :=
  let* l := gets config_limits in
  if (len value <=? inline_value_limit l) && (len value <=? INLINE_VALUE_LIMIT) then ret (Inline value)
  else
    let ids := div_ceil (len value) OVERFLOW_DATA_SIZE in
    guard* negb (MAX_OVERFLOW_PAGES <? ids) else InvalidInput "value requires too many overflow pages" in
    let* page_ids := mapM (λ _, allocate_page) (range_to ids) in
    do* forM (imap pair (chunks OVERFLOW_DATA_SIZE value)) (λ '(i, chunk),
      let* page_id := lift (index page_ids (Z.of_nat i)) in
      replace_page page_id (POverflow lsn (page_ids !! S i) (len value) chunk)) in
    let* head := lift (index page_ids 0) in
    ret (Overflow head (len value)).

(** The [while let Some(current)] loop of [free_value]; the result is the total
    length. *)
Fixpoint free_value_loop (fuel : nat) (length : Z) (lsn : Revision) (page_id : option PageId)
    (visited : gset PageId) (total_length count : Z) : OvM Z :=
  match page_id with
  | None => ret total_length
  | Some current =>
      match fuel with
      | O => lift NoFuel
      | S fuel =>
          guard* negb (bool_decide (current ∈ visited) || (MAX_OVERFLOW_PAGES <=? count)) else
            Corruption "overflow chain is cyclic or too long" in
          let* p := page current in
          match p with
          | POverflow _ next page_total chunk =>
              guard* page_total =? length else Corruption "overflow length metadata disagrees with leaf" in
              let* total_length := lift (ok_or (checked_add total_length (len chunk))
                                           (Corruption "overflow length overflows")) in
              do* free_page current lsn in
              free_value_loop fuel length lsn next ({[current]} ∪ visited) total_length (count + 1)
          | _ => throw (Corruption "value reference points to a non-overflow page")
          end
      end
  end.

Definition OVERFLOW_FUEL : nat := S (Z.to_nat MAX_OVERFLOW_PAGES).

Definition free_value (value : option ValueRef) (lsn : Revision) : OvM unit :=
  match value with
  | Some (Overflow head length) =>
      let* total_length := free_value_loop OVERFLOW_FUEL length lsn (Some head) ∅ 0 0 in
      guard* negb (negb (total_length =? length) || (length =? 0)) else
        Corruption "overflow chain content length is invalid" in
      ret tt
  | _ => ret tt
  end.

Fixpoint read_value_loop (fuel : nat) (length : Z) (page_id : option PageId)
    (visited : gset PageId) (count : Z) (output : list byte) : OvM (list byte) :=
  match page_id with
  | None => ret output
  | Some current =>
      match fuel with
      | O => lift NoFuel
      | S fuel =>
          guard* negb (bool_decide (current ∈ visited) || (MAX_OVERFLOW_PAGES <=? count)) else
            Corruption "overflow chain is cyclic or too long" in
          let* p := page current in
          match p with
          | POverflow _ next total_length chunk =>
              guard* total_length =? length else Corruption "overflow length metadata disagrees with leaf" in
              read_value_loop fuel length next ({[current]} ∪ visited) (count + 1) (output ++ chunk)
          | _ => throw (Corruption "value reference points to a non-overflow page")
          end
      end
  end.

Definition read_value (value : ValueRef) : OvM (list byte) :=
  match value with
  | Inline value => ret value
  | Overflow head length =>
      let* output := read_value_loop OVERFLOW_FUEL length (Some head) ∅ 0 [] in
      guard* len output =? length else Corruption "overflow content length is invalid" in
      ret output
  end.

(** ** The tree *)

(** A traversal visits distinct pages between [FIRST_DATA_PAGE] and the
    high-water mark, and one more page id at which it fails. *)
Definition traversal_fuel : OvM nat := gets (λ o, S (Z.to_nat (ov_high_water o))).

(** The child of an internal page that a key belongs to. *)
Definition child_for (key : list byte) (leftmost_child : PageId) (entries : list InternalEntry)
    : Result Error PageId :=
  match partition_point (λ e, bytes_le (ie_key e) key) entries with
  | O => Ok leftmost_child
  | S i => let? e := index entries (Z.of_nat i) in Ok (right_child e)
  end.

Fixpoint find_leaf_loop (fuel : nat) (key : list byte) (page_id : PageId) (route : list PageId)
    (visited : gset PageId) : OvM (PageId * list PageId) :=
  match fuel with
  | O => lift NoFuel
  | S fuel =>
      guard* negb (bool_decide (page_id ∈ visited)) else Corruption "tree traversal contains a cycle" in
      let visited := {[page_id]} ∪ visited in
      let route := route ++ [page_id] in
      let* p := page page_id in
      match p with
      | PLeaf _ _ _ => ret (page_id, route)
      | PInternal _ leftmost_child entries =>
          let* child := lift (child_for key leftmost_child entries) in
          find_leaf_loop fuel key child route visited
      | _ => throw (Corruption "tree child has an impossible page type")
      end
  end.

Definition find_leaf (key : list byte) : OvM (PageId * list PageId) :=
  let* fuel := traversal_fuel in
  let* root := gets ov_root in
  find_leaf_loop fuel key root [] ∅.

Fixpoint leftmost_leaf_loop (fuel : nat) (page_id : PageId) (visited : gset PageId) : OvM PageId :=
  match fuel with
  | O => lift NoFuel
  | S fuel =>
      guard* negb (bool_decide (page_id ∈ visited)) else Corruption "leftmost traversal contains a cycle" in
      let* p := page page_id in
      match p with
      | PLeaf _ _ _ => ret page_id
      | PInternal _ leftmost_child _ => leftmost_leaf_loop fuel leftmost_child ({[page_id]} ∪ visited)
      | _ => throw (Corruption "tree child has an impossible page type")
      end
  end.

Definition leftmost_leaf : OvM PageId :=
  let* fuel := traversal_fuel in
  let* root := gets ov_root in
  leftmost_leaf_loop fuel root ∅.

(** The [while let Some(parent_id) = route.pop()] loop: [parents] is the route
    above the leaf, nearest parent first. *)
Fixpoint insert_parent_separator_loop (parents : list PageId) (separator : list byte)
    (new_child : PageId) (lsn : Revision) : OvM unit :=
  match parents with
  | [] =>
      let* new_root_id := allocate_page in
      let* root := gets ov_root in
      do* replace_page new_root_id (PInternal lsn root [mkInternalEntry separator new_child]) in
      modify (set_ov_root new_root_id)
  | parent_id :: parents =>
      let* parent := internal parent_id in
      let leftmost := ip_leftmost_child parent in
      let entries := ip_entries parent in
      let position := partition_point (λ e, bytes_lt (ie_key e) separator) entries in
      let entries := insert_at position (mkInternalEntry separator new_child) entries in
      if internal_fits leftmost entries then replace_page parent_id (PInternal lsn leftmost entries)
      else
        let* split := lift (choose_internal_split leftmost entries) in
        let* middle := lift (index entries split) in
        let promoted := ie_key middle in
        let right_leftmost := right_child middle in
        let* right_id := allocate_page in
        let* left_entries := lift (slice entries 0 split) in
        let* right_entries := lift (slice entries (split + 1) (len entries)) in
        guard* negb (negb (internal_fits leftmost left_entries)
                     || negb (internal_fits right_leftmost right_entries)) else
          InvalidInput "internal split produced an oversized page" in
        do* replace_page parent_id (PInternal lsn leftmost left_entries) in
        do* replace_page right_id (PInternal lsn right_leftmost right_entries) in
        insert_parent_separator_loop parents promoted right_id lsn
  end.

Definition insert_parent_separator (route : list PageId) (separator : list byte) (new_child : PageId)
    (lsn : Revision) : OvM unit :=
  insert_parent_separator_loop (tail (rev route)) separator new_child lsn.

Definition insert_leaf_entries (leaf_id : PageId) (route : list PageId) (l : LeafPage) (lsn : Revision)
    : OvM unit :=
  let next_leaf := lp_next_leaf l in
  let entries := lp_entries l in
  if leaf_fits entries then replace_page leaf_id (PLeaf lsn next_leaf entries)
  else
    let* split := lift (choose_leaf_split entries) in
    let* right_id := allocate_page in
    let* left_entries := lift (slice entries 0 split) in
    let* right_entries := lift (slice entries split (len entries)) in
    let* separator := lift (ok_or (le_key <$> head right_entries)
                              (InternalInvariantViolation "leaf split produced an empty right page")) in
    do* replace_page leaf_id (PLeaf lsn (Some right_id) left_entries) in
    do* replace_page right_id (PLeaf lsn next_leaf right_entries) in
    insert_parent_separator route separator right_id lsn.

(** ** Point operations *)

Definition find_entry (key : list byte) (entries : list LeafEntry) : option LeafEntry :=
  List.find (λ e, bytes_eqb (le_key e) key) entries.

Definition get_state_with_budget (key : DocumentKey) : OvB RevisionState :=
  let encoded := DocumentKey_encode key in
  do* lift (validate_encoded_key encoded) in
  let* '(leaf_id, _) := on_ov (find_leaf encoded) in
  let* l := on_ov (leaf leaf_id) in
  match find_entry encoded (lp_entries l) with
  | None => do* on_budget (reserve_state 0) in ret (Missing 0)
  | Some entry =>
      match le_value entry with
      | Some value_ref =>
          let* length := lift (value_length value_ref) in
          do* on_budget (reserve_state length) in
          let* value := on_ov (read_value value_ref) in
          ret (Present value (le_revision entry))
      | None => do* on_budget (reserve_state 0) in ret (Missing (le_revision entry))
      end
  end.

Definition get_observed_state (key : DocumentKey) : OvM ObservedState :=
  let encoded := DocumentKey_encode key in
  do* lift (validate_encoded_key encoded) in
  let* '(leaf_id, _) := find_leaf encoded in
  let* l := leaf leaf_id in
  match find_entry encoded (lp_entries l) with
  | None => ret (ObsMissing 0)
  | Some entry =>
      match le_value entry with
      | Some _ => ret (ObsPresent (le_revision entry))
      | None => ret (ObsMissing (le_revision entry))
      end
  end.

Definition Overlay_put (key : DocumentKey) (value : list byte) : OvM Revision :=
  do* validate_value value in
  let encoded := DocumentKey_encode key in
  do* lift (validate_encoded_key encoded) in
  let* revision := allocate_revision in
  let* '(leaf_id, route) := find_leaf encoded in
  let* l := leaf leaf_id in
  let position := binary_search encoded (lp_entries l) in
  let* value_ref := make_value value revision in
  let entry := mkLeafEntry encoded revision (Some value_ref) in
  match position with
  | inl i =>
      let* old := lift (index (lp_entries l) (Z.of_nat i)) in
      do* insert_leaf_entries leaf_id route (mkLeafPage (lp_next_leaf l) (<[i := entry]> (lp_entries l)))
            revision in
      do* free_value (le_value old) revision in
      ret revision
  | inr i =>
      do* insert_leaf_entries leaf_id route (mkLeafPage (lp_next_leaf l) (insert_at i entry (lp_entries l)))
            revision in
      ret revision
  end.

Definition Overlay_delete (key : DocumentKey) : OvM Revision :=
  let encoded := DocumentKey_encode key in
  do* lift (validate_encoded_key encoded) in
  let* revision := allocate_revision in
  let* '(leaf_id, route) := find_leaf encoded in
  let* l := leaf leaf_id in
  let entry := mkLeafEntry encoded revision None in
  match binary_search encoded (lp_entries l) with
  | inl i =>
      let* old := lift (index (lp_entries l) (Z.of_nat i)) in
      do* replace_page leaf_id (PLeaf revision (lp_next_leaf l) (<[i := entry]> (lp_entries l))) in
      do* free_value (le_value old) revision in
      ret revision
  | inr i =>
      do* insert_leaf_entries leaf_id route (mkLeafPage (lp_next_leaf l) (insert_at i entry (lp_entries l)))
            revision in
      ret revision
  end.

(** ** Range reads *)

(** One document of the result. *)
Definition push_row (document_key : DocumentKey) (entry : LeafEntry) (value : ValueRef)
    (rows : list Document) : OvB (list Document) :=
  let* length := lift (value_length value) in
  do* on_budget (reserve_document document_key length) in
  let* bytes := on_ov (read_value value) in
  ret (rows ++ [mkDocument document_key bytes (le_revision entry)]).

Definition decode_entry_key (entry : LeafEntry) : Result Error DocumentKey :=
  map_err (λ _, Corruption "leaf key decode failed: {error}") (DocumentKey_decode (le_key entry)).

(** The [for entry] loop of [query_with_budget]: whether it returned from the
    function, the flag [first] and the rows. *)
Fixpoint query_entries (p : PrimaryKey) (exclusive_after_sk : option SortKey) (cursor : option (list byte))
    (limit : Z) (entries : list LeafEntry) (first : bool) (rows : list Document)
    : OvB (bool * bool * list Document) :=
  match entries with
  | [] => ret (false, first, rows)
  | entry :: entries =>
      if first && match cursor with Some cursor => bytes_le (le_key entry) cursor | None => false end
      then query_entries p exclusive_after_sk cursor limit entries first rows
      else
        let next := query_entries p exclusive_after_sk cursor limit entries false in
        let* document_key := lift (decode_entry_key entry) in
        if negb (bytes_eqb (pk document_key) p) then
          if bytes_lt p (pk document_key) then ret (true, false, rows) else next rows
        else if match exclusive_after_sk with Some cursor => bytes_le (sk document_key) cursor | None => false end
        then next rows
        else
          match le_value entry with
          | Some value =>
              let* rows := push_row document_key entry value rows in
              if len rows =? limit then ret (true, false, rows) else next rows
          | None => next rows
          end
  end.

Fixpoint query_leaves (fuel : nat) (p : PrimaryKey) (exclusive_after_sk : option SortKey)
    (cursor : option (list byte)) (limit : Z) (leaf_id : PageId) (first : bool) (visited : gset PageId)
    (rows : list Document) : OvB (list Document) :=
  if len rows <? limit then
    match fuel with
    | O => lift NoFuel
    | S fuel =>
        guard* negb (bool_decide (leaf_id ∈ visited)) else
          Corruption "leaf chain contains a cycle during query" in
        let* l := on_ov (leaf leaf_id) in
        let* '(returned, first, rows) :=
          query_entries p exclusive_after_sk cursor limit (lp_entries l) first rows in
        if (returned : bool) then ret rows
        else
          match lp_next_leaf l with
          | None => ret rows
          | Some next =>
              query_leaves fuel p exclusive_after_sk cursor limit next false ({[leaf_id]} ∪ visited) rows
          end
    end
  else ret rows.

Definition query_with_budget (p : PrimaryKey) (exclusive_after_sk : option SortKey) (limit : Z)
    : OvB (list Document) :=
  if limit =? 0 then ret []
  else
    let start_key := DocumentKey_encode (mkKey p []) in
    do* lift (validate_encoded_key start_key) in
    let* '(leaf_id, _) := on_ov (find_leaf start_key) in
    let cursor := (λ s, DocumentKey_encode (mkKey p s)) <$> exclusive_after_sk in
    do* lift (match cursor with Some cursor => validate_encoded_key cursor | None => Ok tt end) in
    let* fuel := on_ov traversal_fuel in
    query_leaves fuel p exclusive_after_sk cursor limit leaf_id true ∅ [].

Fixpoint scan_entries (cursor : option (list byte)) (limit : Z) (entries : list LeafEntry)
    (rows : list Document) : OvB (bool * list Document) :=
  match entries with
  | [] => ret (false, rows)
  | entry :: entries =>
      if match cursor with Some cursor => bytes_le (le_key entry) cursor | None => false end
      then scan_entries cursor limit entries rows
      else
        let* document_key := lift (decode_entry_key entry) in
        match le_value entry with
        | Some value =>
            let* rows := push_row document_key entry value rows in
            if len rows =? limit then ret (true, rows) else scan_entries cursor limit entries rows
        | None => scan_entries cursor limit entries rows
        end
  end.

Fixpoint scan_leaves (fuel : nat) (cursor : option (list byte)) (limit : Z) (leaf_id : PageId)
    (visited : gset PageId) (rows : list Document) : OvB (list Document) :=
  match fuel with
  | O => lift NoFuel
  | S fuel =>
      guard* negb (bool_decide (leaf_id ∈ visited)) else
        Corruption "leaf chain contains a cycle during scan" in
      let* l := on_ov (leaf leaf_id) in
      let* '(returned, rows) := scan_entries cursor limit (lp_entries l) rows in
      if (returned : bool) then ret rows
      else
        match lp_next_leaf l with
        | None => ret rows
        | Some next => scan_leaves fuel cursor limit next ({[leaf_id]} ∪ visited) rows
        end
  end.

Definition scan_with_budget (cursor : option DocumentKey) (limit : Z) : OvB (list Document) :=
  if limit =? 0 then ret []
  else
    let* leaf_id :=
      match cursor with
      | Some key =>
          let encoded := DocumentKey_encode key in
          do* lift (validate_encoded_key encoded) in
          let* '(leaf_id, _) := on_ov (find_leaf encoded) in ret leaf_id
      | None => on_ov leftmost_leaf
      end in
    let* fuel := on_ov traversal_fuel in
    scan_leaves fuel (DocumentKey_encode <$> cursor) limit leaf_id ∅ [].

Definition execute_with_budget (request : BatchRequest) : OvB BatchResponse :=
  match request with
  | BGet key => let* state := get_state_with_budget key in ret (RGet state)
  | BPut key value => let* revision := on_ov (Overlay_put key value) in ret (RPut revision)
  | BDelete key => let* revision := on_ov (Overlay_delete key) in ret (RDelete revision)
  | BQuery p exclusive_after_sk limit =>
      let* rows := query_with_budget p exclusive_after_sk limit in ret (RQuery rows)
  | BScan exclusive_after_key limit =>
      let* rows := scan_with_budget exclusive_after_key limit in ret (RScan rows)
  end.

(** ** Finishing a batch or a transaction *)

(** Gives the dirty pages their commit LSN. *)
Definition restamp_dirty (provisional : Revision) (committed : Lsn) : OvM unit :=
  let* dirty := gets (λ o, btree_elems (ov_dirty o)) in
  forM dirty (λ page_id,
    let* p := gets (λ o, ov_pages o !! page_id) in
    let* p := lift (ok_or p (InternalInvariantViolation "dirty page missing from overlay")) in
    modify (λ o, set_ov_pages (<[page_id := PageData_restamp provisional committed p]> (ov_pages o)) o)).

(** The images and the decoded contents of the dirty pages. *)
Definition collect_changed : OvM (gmap PageId (list byte) * gmap PageId PageData) :=
  let* dirty := gets (λ o, btree_elems (ov_dirty o)) in
  foldM (λ '(changed_pages, changed_decoded) page_id,
    let* p := gets (λ o, ov_pages o !! page_id) in
    let* p := lift (ok_or p (InternalInvariantViolation "dirty page missing from overlay")) in
    let* image := lift (PageData_encode p page_id) in
    ret (<[page_id := image]> changed_pages, <[page_id := p]> changed_decoded)) (∅, ∅) dirty.

(** [Superblock { generation, root_page_id, free_list_head, high_water_page_id,
    checkpoint_lsn, ..current.clone() }], encoded and decoded. *)
Definition next_superblock (current : Superblock) (root : PageId) (free_head : option PageId)
    (high_water : PageId) : Result Error Superblock :=
  let? next_generation := ok_or (checked_add (generation current) 1)
                            (InternalInvariantViolation "superblock generation exhausted") in
  let? bytes := encode_superblock (mkSuperblock (sb_format_version current) next_generation
    (database_uuid current) (tenant_id current) (shard_id current) (shard_epoch current)
    (page_size current) (Some root) free_head (Some high_water) (checkpoint_lsn current)
    (sb_checksum current)) in
  decode_superblock bytes.

(** The commit LSN of a log group that holds the dirty pages and a superblock,
    from the log's next LSN on. *)
Definition wal_commit_lsn (next_lsn : Lsn) (dirty : gset PageId) : Result Error Lsn :=
  let? image_count := ok_or (checked_add (Z.of_nat (size dirty)) 1)
                        (InternalInvariantViolation "WAL image count overflow") in
  ok_or (checked_add next_lsn image_count) (InternalInvariantViolation "WAL LSN exhausted").

Definition finish_transaction : OvM PreparedBatch :=
  let* last_lsn := gets ov_last_lsn in
  let* provisional_lsn := lift (ok_or last_lsn
                            (InternalInvariantViolation "transaction has no provisional revision")) in
  let* current := gets ov_superblock in
  let* commit_lsn := (λ o,
    (match st_wal (ov_store o) with
     | Some _ => wal_commit_lsn (ov_next_lsn o) (ov_dirty o)
     | None => Ok provisional_lsn
     end, o)) in
  do* restamp_dirty (revision_from_lsn provisional_lsn) commit_lsn in
  let* o := get in
  let* superblock := lift (next_superblock (ov_superblock o) (ov_root o) (ov_free_list_head o)
                             (ov_high_water o)) in
  let slot := other_slot (ov_active_slot o) in
  let* '(changed_pages, changed_decoded) := collect_changed in
  let* read_pages := gets ov_read_pages in
  do* modify (set_ov_read_pages ∅) in
  let* next_revision := lift (ok_or (checked_add commit_lsn 1)
                                (InternalInvariantViolation "storage revision exhausted")) in
  let* o := get in
  let prepared := mkPrepared [] changed_pages changed_decoded read_pages superblock slot
    (generation current) next_revision (ov_root o) (ov_free_list_head o) (ov_high_water o)
    (Some commit_lsn) (ov_next_batch_id o) in
  do* modify (set_ov_superblock superblock) in
  do* modify (set_ov_active_slot slot) in
  do* modify (set_ov_next_revision next_revision) in
  let* next_lsn := lift (ok_or (checked_add commit_lsn 1)
                           (InternalInvariantViolation "WAL LSN exhausted")) in
  do* modify (set_ov_next_lsn next_lsn) in
  let* next_batch_id := lift (ok_or (checked_add (ov_next_batch_id o) 1)
                                (InternalInvariantViolation "WAL batch ID exhausted")) in
  do* modify (set_ov_next_batch_id next_batch_id) in
  do* modify (set_ov_dirty ∅) in
  do* modify (set_ov_last_lsn None) in
  ret prepared.

(** [finish] consumes the overlay. *)
Definition finish (responses : list BatchResponse) : OvM PreparedBatch :=
  let* o := get in
  let store := ov_store o in
  let* commit_lsn := lift
    match ov_last_lsn o with
    | Some provisional =>
        let? image_count := ok_or (checked_add (Z.of_nat (size (ov_dirty o))) 1)
                              (InternalInvariantViolation "WAL image count overflow") in
        match st_wal store with
        | Some _ =>
            let? lsn := ok_or (checked_add (st_next_lsn store) image_count)
                          (InternalInvariantViolation "WAL LSN exhausted") in
            Ok (Some lsn)
        | None => Ok (Some provisional)
        end
    | None => Ok None
    end in
  do* match ov_last_lsn o, commit_lsn with
      | Some provisional, Some committed => restamp_dirty (revision_from_lsn provisional) committed
      | _, _ => ret tt
      end in
  let* superblock := lift
    match commit_lsn with
    | Some _ => next_superblock (st_superblock store) (ov_root o) (ov_free_list_head o) (ov_high_water o)
    | None => Ok (st_superblock store)
    end in
  let slot := other_slot (st_active_slot store) in
  let* '(changed_pages, changed_decoded) := collect_changed in
  let responses :=
    match ov_last_lsn o, commit_lsn with
    | Some provisional, Some committed =>
        restamp_responses responses (revision_from_lsn provisional) (revision_from_lsn committed)
    | _, _ => responses
    end in
  let* next_revision := lift
    match commit_lsn with
    | Some lsn => ok_or (checked_add lsn 1) (InternalInvariantViolation "storage revision exhausted")
    | None => Ok (st_next_revision store)
    end in
  ret (mkPrepared responses changed_pages changed_decoded (ov_read_pages o) superblock slot
         (generation (st_superblock store)) next_revision (ov_root o) (ov_free_list_head o)
         (ov_high_water o) commit_lsn (st_next_batch_id store)).

(** ** Transactions *)

Definition add_validation_time (nanos : Z) : StoreM unit :=
  modify (λ s, set_st_metrics
    (mkStorageMetrics (saturating_add (validation_nanos (st_metrics s)) nanos)
       (btree_preparation_nanos (st_metrics s)) (publication_nanos (st_metrics s))) s).

Definition validate_transaction_mutation (mutation : TransactionMutation) : OvM unit :=
  match mutation with
  | Put key value =>
      do* validate_value value in
      lift (validate_encoded_key (DocumentKey_encode key))
  | Delete key => lift (validate_encoded_key (DocumentKey_encode key))
  end.

Definition check_transaction_condition (elapsed : Z) (condition : TransactionCondition) : OvM unit :=
  let* actual := get_observed_state (TransactionCondition_key condition) in
  if satisfied condition actual then ret tt
  else
    do* on_store (add_validation_time (store_elapsed_nanos elapsed)) in
    throw (Conflict (mkConflict (TransactionCondition_key condition)
                       (TransactionCondition_expectation condition) actual)).

Definition apply_mutation (mutation : TransactionMutation) : OvM unit :=
  match mutation with
  | Put key value => let* _revision := Overlay_put key value in ret tt
  | Delete key => let* _revision := Overlay_delete key in ret tt
  end.

Definition prepare_transaction (elapsed : Z) (request : TransactionRequest) : OvM (option PreparedBatch) :=
  do* lift (TransactionRequest_validate request) in
  do* forM (mutations request) validate_transaction_mutation in
  do* forM (conditions request) (check_transaction_condition elapsed) in
  do* on_store (add_validation_time (store_elapsed_nanos elapsed)) in
  if is_empty (mutations request) then ret None
  else
    do* forM (mutations request) apply_mutation in
    let* prepared := finish_transaction in
    ret (Some prepared).

End overlay.
