(* ===== verification/Tree.v ===== *)
(** * Tree: the B+tree that a set of pages represents

    The abstract side of the overlay's correctness proof.  A [tree] records
    everything the pages of a tree hold: ids, log sequence numbers, separators,
    entries and overflow chains; [tree_pages] and [value_pages] list the pages
    it occupies.  A search path splits a tree into a context ([frame]s, nearest
    first) and the subtree in its hole.  The lemmas say what filling the hole
    with one or two other subtrees does to the pages, to the order of the keys
    and to the entries. *)

From S2P Require Import Prelude Core Crc Page Superblock DurableFile Wal Format FormatCodec Cache StoreState Store.

(** ** Entries with their values *)

(** A value as stored: a tombstone, inline bytes, or a chain of overflow pages
    (id, LSN, chunk). *)
Inductive gval : Type :=
  | VNone
  | VInline (bytes : list byte)
  | VChain (links : list (PageId * Lsn * list byte)).

Record gentry := mkGEntry { ge_key : list byte; ge_rev : Revision; ge_val : gval }.

Definition link_id (l : PageId * Lsn * list byte) : PageId := l.1.1.
Definition chain_bytes (links : list (PageId * Lsn * list byte)) : list byte := links ≫= snd.

Definition ref_of (v : gval) : option ValueRef :=
  match v with
  | VNone => None
  | VInline bytes => Some (Inline bytes)
  | VChain links => Some (Overflow (default 0 (link_id <$> head links)) (len (chain_bytes links)))
  end.

Definition entry_of (e : gentry) : LeafEntry := mkLeafEntry (ge_key e) (ge_rev e) (ref_of (ge_val e)).

(** What a reader of the entry sees. *)
Definition ge_state (e : gentry) : RevisionState :=
  match ge_val e with
  | VNone => Missing (ge_rev e)
  | VInline bytes => Present bytes (ge_rev e)
  | VChain links => Present (chain_bytes links) (ge_rev e)
  end.

Fixpoint chain_pages (total : Z) (links : list (PageId * Lsn * list byte)) : list (PageId * PageData) :=
  match links with
  | [] => []
  | l :: links => (link_id l, POverflow l.1.2 (link_id <$> head links) total l.2) :: chain_pages total links
  end.

Definition value_pages (v : gval) : list (PageId * PageData) :=
  match v with VChain links => chain_pages (len (chain_bytes links)) links | _ => [] end.

Definition entries_pages (es : list gentry) : list (PageId * PageData) := es ≫= (λ e, value_pages (ge_val e)).

Definition val_ok (v : gval) : Prop :=
  match v with
  | VNone => True
  | VInline bytes => len bytes ≤ INLINE_VALUE_LIMIT
  | VChain links =>
      links ≠ [] ∧ len links ≤ MAX_OVERFLOW_PAGES ∧ len (chain_bytes links) ≤ MAX_VALUE_SIZE ∧
      Forall (λ l, 0 < len l.2 ≤ OVERFLOW_DATA_SIZE) links
  end.

(** ** Trees *)

Inductive tree : Type :=
  | Lf (id : PageId) (lsn : Lsn) (es : list gentry)
  | Nd (id : PageId) (lsn : Lsn) (t : tree) (f : forest)
with forest : Type :=
  | FNil
  | FCons (k : list byte) (t : tree) (f : forest).

Scheme tree_mut := Induction for tree Sort Prop
  with forest_mut := Induction for forest Sort Prop.
Combined Scheme tree_forest_ind from tree_mut, forest_mut.

Definition tid (t : tree) : PageId := match t with Lf id _ _ | Nd id _ _ _ => id end.

Fixpoint first_leaf (t : tree) : PageId :=
  match t with Lf id _ _ => id | Nd _ _ t _ => first_leaf t end.

(** The leaf that follows the child before [f]. *)
Definition first_or (f : forest) (next : option PageId) : option PageId :=
  match f with FNil => next | FCons _ t _ => Some (first_leaf t) end.

Fixpoint seps (f : forest) : list InternalEntry :=
  match f with FNil => [] | FCons k t f => mkInternalEntry k (tid t) :: seps f end.

Fixpoint tree_pages (t : tree) (next : option PageId) : list (PageId * PageData) :=
  match t with
  | Lf id lsn es => [(id, PLeaf lsn next (entry_of <$> es))]
  | Nd id lsn t f =>
      (id, PInternal lsn (tid t) (seps f)) :: tree_pages t (first_or f next) ++ forest_pages f next
  end
with forest_pages (f : forest) (next : option PageId) : list (PageId * PageData) :=
  match f with
  | FNil => []
  | FCons _ t f => tree_pages t (first_or f next) ++ forest_pages f next
  end.

Fixpoint entries (t : tree) : list gentry :=
  match t with
  | Lf _ _ es => es
  | Nd _ _ t f => entries t ++ forest_entries f
  end
with forest_entries (f : forest) : list gentry :=
  match f with FNil => [] | FCons _ t f => entries t ++ forest_entries f end.

(** ** Order *)

Definition above (lo : option (list byte)) (k : list byte) : Prop :=
  match lo with None => True | Some l => bytes_le l k = true end.
Definition strictly_above (lo : option (list byte)) (k : list byte) : Prop :=
  match lo with None => True | Some l => bytes_lt l k = true end.
Definition below (hi : option (list byte)) (k : list byte) : Prop :=
  match hi with None => True | Some h => bytes_lt k h = true end.

(** The upper bound of the child before [f]. *)
Definition forest_hi (f : forest) (hi : option (list byte)) : option (list byte) :=
  match f with FNil => hi | FCons k _ _ => Some k end.

Fixpoint ordered (lo hi : option (list byte)) (t : tree) : Prop :=
  match t with
  | Lf _ _ es =>
      keys_sorted (ge_key <$> es) ∧ Forall (λ e, above lo (ge_key e) ∧ below hi (ge_key e)) es
  | Nd _ _ t f => ordered lo (forest_hi f hi) t ∧ forest_ordered lo hi f
  end
with forest_ordered (lo hi : option (list byte)) (f : forest) : Prop :=
  match f with
  | FNil => True
  | FCons k t f =>
      strictly_above lo k ∧ below hi k ∧ ordered (Some k) (forest_hi f hi) t ∧ forest_ordered (Some k) hi f
  end.

(** An internal page has room for its separators, and at least one of them. *)
Definition node_ok (leftmost : PageId) (es : list InternalEntry) : Prop := internal_ok leftmost es ∧ es ≠ [].

(** Every page has room for what it holds. *)
Fixpoint fits (t : tree) : Prop :=
  match t with
  | Lf _ _ es => leaf_ok (entry_of <$> es) ∧ Forall (λ e, val_ok (ge_val e)) es
  | Nd _ _ t f => node_ok (tid t) (seps f) ∧ fits t ∧ forest_fits f
  end
with forest_fits (f : forest) : Prop :=
  match f with FNil => True | FCons _ t f => fits t ∧ forest_fits f end.

(** All leaves are at depth [d]. *)
Fixpoint bal (d : nat) (t : tree) : Prop :=
  match t with
  | Lf _ _ _ => d = 0%nat
  | Nd _ _ t f => match d with 0%nat => False | S d => bal d t ∧ forest_bal d f end
  end
with forest_bal (d : nat) (f : forest) : Prop :=
  match f with FNil => True | FCons _ t f => bal d t ∧ forest_bal d f end.

Fixpoint forest_app (f1 f2 : forest) : forest :=
  match f1 with FNil => f2 | FCons k t f1 => FCons k t (forest_app f1 f2) end.

(** ** Contexts *)

Record frame := mkFrame_ {
  fr_id : PageId;
  fr_lsn : Lsn;
  fr_before : list (tree * list byte);
  fr_after : forest
}.

(** The children of a node: those before the hole, each with the separator
    behind it, the hole, and those after it. *)
Fixpoint kids (before : list (tree * list byte)) (h : tree) (after : forest) : tree * forest :=
  match before with
  | [] => (h, after)
  | (t, k) :: before => (t, FCons k (kids before h after).1 (kids before h after).2)
  end.

Definition fill (fr : frame) (h : tree) : tree :=
  Nd (fr_id fr) (fr_lsn fr) (kids (fr_before fr) h (fr_after fr)).1 (kids (fr_before fr) h (fr_after fr)).2.

(** Nearest frame first. *)
Fixpoint plug (c : list frame) (h : tree) : tree :=
  match c with [] => h | fr :: c => plug c (fill fr h) end.

(** ** What a context contributes *)

Definition leftmost_id (before : list (tree * list byte)) (hid : PageId) : PageId :=
  match before with [] => hid | (t, _) :: _ => tid t end.
Definition leftmost_leaf_of (before : list (tree * list byte)) (leaf : PageId) : PageId :=
  match before with [] => leaf | (t, _) :: _ => first_leaf t end.

Fixpoint before_seps (before : list (tree * list byte)) (hid : PageId) : list InternalEntry :=
  match before with
  | [] => []
  | (_, k) :: before => mkInternalEntry k (leftmost_id before hid) :: before_seps before hid
  end.

Fixpoint before_pages (before : list (tree * list byte)) (leaf : PageId) : list (PageId * PageData) :=
  match before with
  | [] => []
  | (t, _) :: before => tree_pages t (Some (leftmost_leaf_of before leaf)) ++ before_pages before leaf
  end.

Definition before_entries (before : list (tree * list byte)) : list gentry := before ≫= (λ x, entries x.1).

Fixpoint before_lo (lo : option (list byte)) (before : list (tree * list byte)) : option (list byte) :=
  match before with [] => lo | (_, k) :: before => before_lo (Some k) before end.

Fixpoint before_ordered (lo hi : option (list byte)) (before : list (tree * list byte)) : Prop :=
  match before with
  | [] => True
  | (t, k) :: before =>
      ordered lo (Some k) t ∧ strictly_above lo k ∧ below hi k ∧ before_ordered (Some k) hi before
  end.

Lemma kids_tid b h a : tid (kids b h a).1 = leftmost_id b (tid h).
Proof. by destruct b as [|[t k] b]. Qed.

Lemma kids_first_leaf b h a : first_leaf (kids b h a).1 = leftmost_leaf_of b (first_leaf h).
Proof. by destruct b as [|[t k] b]. Qed.

Lemma kids_seps b h a : seps (kids b h a).2 = before_seps b (tid h) ++ seps a.
Proof. induction b as [|[t k] b IH]; [done|]. simpl. by rewrite IH, kids_tid. Qed.

Lemma kids_pages b h a next :
  tree_pages (kids b h a).1 (first_or (kids b h a).2 next) ++ forest_pages (kids b h a).2 next =
  before_pages b (first_leaf h) ++ tree_pages h (first_or a next) ++ forest_pages a next.
Proof. induction b as [|[t k] b IH]; [done|]. simpl. by rewrite IH, kids_first_leaf, <- app_assoc. Qed.

Lemma kids_entries b h a :
  entries (kids b h a).1 ++ forest_entries (kids b h a).2 =
  before_entries b ++ entries h ++ forest_entries a.
Proof.
  induction b as [|[t k] b IH]; [done|]. simpl. unfold before_entries in *. simpl. by rewrite IH, <- app_assoc.
Qed.

Lemma kids_ordered lo hi b h a :
  ordered lo (forest_hi (kids b h a).2 hi) (kids b h a).1 ∧ forest_ordered lo hi (kids b h a).2 ↔
  before_ordered lo hi b ∧ ordered (before_lo lo b) (forest_hi a hi) h ∧ forest_ordered (before_lo lo b) hi a.
Proof.
  revert lo. induction b as [|[t k] b IH]; intros lo; simpl; [tauto|]. specialize (IH (Some k)). tauto.
Qed.

Lemma kids_fits b h a :
  fits (kids b h a).1 ∧ forest_fits (kids b h a).2 ↔ Forall (λ x, fits x.1) b ∧ fits h ∧ forest_fits a.
Proof.
  induction b as [|[t k] b IH]; simpl; [by rewrite Forall_nil; tauto|]. rewrite Forall_cons. simpl. tauto.
Qed.

Lemma kids_bal d b h a :
  bal d (kids b h a).1 ∧ forest_bal d (kids b h a).2 ↔ Forall (λ x, bal d x.1) b ∧ bal d h ∧ forest_bal d a.
Proof.
  induction b as [|[t k] b IH]; simpl; [by rewrite Forall_nil; tauto|]. rewrite Forall_cons. simpl. tauto.
Qed.

Fixpoint ctx_next (c : list frame) (next : option PageId) : option PageId :=
  match c with [] => next | fr :: c => first_or (fr_after fr) (ctx_next c next) end.

(** The pages of the nodes on the path and of the subtrees beside it; they
    depend on the hole only through its root and its first leaf. *)
Fixpoint ctx_pages (c : list frame) (hid leaf : PageId) (next : option PageId) : list (PageId * PageData) :=
  match c with
  | [] => []
  | fr :: c =>
      (fr_id fr, PInternal (fr_lsn fr) (leftmost_id (fr_before fr) hid)
                   (before_seps (fr_before fr) hid ++ seps (fr_after fr))) ::
      before_pages (fr_before fr) leaf ++ forest_pages (fr_after fr) (ctx_next c next) ++
      ctx_pages c (fr_id fr) (leftmost_leaf_of (fr_before fr) leaf) next
  end.

Fixpoint ctx_left (c : list frame) : list gentry :=
  match c with [] => [] | fr :: c => ctx_left c ++ before_entries (fr_before fr) end.
Fixpoint ctx_right (c : list frame) : list gentry :=
  match c with [] => [] | fr :: c => forest_entries (fr_after fr) ++ ctx_right c end.

(** The bounds of the hole, for a whole tree without bounds. *)
Fixpoint ctx_lo (c : list frame) : option (list byte) :=
  match c with [] => None | fr :: c => before_lo (ctx_lo c) (fr_before fr) end.
Fixpoint ctx_hi (c : list frame) : option (list byte) :=
  match c with [] => None | fr :: c => forest_hi (fr_after fr) (ctx_hi c) end.

Definition frame_ordered (lo hi : option (list byte)) (fr : frame) : Prop :=
  before_ordered lo hi (fr_before fr) ∧ forest_ordered (before_lo lo (fr_before fr)) hi (fr_after fr).
Fixpoint ctx_ordered (c : list frame) : Prop :=
  match c with [] => True | fr :: c => frame_ordered (ctx_lo c) (ctx_hi c) fr ∧ ctx_ordered c end.

(** A context fits when its pages do; the separators do not depend on what
    fills the hole. *)
Definition frame_fits (hid : PageId) (fr : frame) : Prop :=
  node_ok (leftmost_id (fr_before fr) hid) (before_seps (fr_before fr) hid ++ seps (fr_after fr)) ∧
  Forall (λ x, fits x.1) (fr_before fr) ∧ forest_fits (fr_after fr).
Fixpoint ctx_fits (c : list frame) (hid : PageId) : Prop :=
  match c with [] => True | fr :: c => frame_fits hid fr ∧ ctx_fits c (fr_id fr) end.

(** The hole is [d] levels above the leaves. *)
Fixpoint ctx_bal (d : nat) (c : list frame) : Prop :=
  match c with
  | [] => True
  | fr :: c => (Forall (λ x, bal d x.1) (fr_before fr) ∧ forest_bal d (fr_after fr)) ∧ ctx_bal (S d) c
  end.

Lemma fill_pages fr h next :
  tree_pages (fill fr h) next =
  (fr_id fr, PInternal (fr_lsn fr) (leftmost_id (fr_before fr) (tid h))
               (before_seps (fr_before fr) (tid h) ++ seps (fr_after fr))) ::
  before_pages (fr_before fr) (first_leaf h) ++ tree_pages h (first_or (fr_after fr) next) ++
  forest_pages (fr_after fr) next.
Proof. unfold fill. simpl. by rewrite kids_tid, kids_seps, kids_pages. Qed.

Lemma plug_pages c h next :
  tree_pages (plug c h) next ≡ₚ ctx_pages c (tid h) (first_leaf h) next ++ tree_pages h (ctx_next c next).
Proof.
  revert h. induction c as [|fr c IH]; intros h; simpl; [done|].
  rewrite IH, fill_pages. unfold fill at 1 2. simpl. rewrite kids_first_leaf.
  rewrite <- !app_assoc. solve_Permutation.
Qed.

Lemma plug_entries c h : entries (plug c h) = ctx_left c ++ entries h ++ ctx_right c.
Proof.
  revert h. induction c as [|fr c IH]; intros h; simpl; [by rewrite app_nil_r|].
  rewrite IH. unfold fill. simpl. rewrite kids_entries. by rewrite <- !app_assoc.
Qed.

Lemma plug_ordered c h : ordered None None (plug c h) ↔ ordered (ctx_lo c) (ctx_hi c) h ∧ ctx_ordered c.
Proof.
  revert h. induction c as [|fr c IH]; intros h; simpl; [tauto|]. rewrite IH. unfold fill. simpl.
  rewrite kids_ordered. unfold frame_ordered. tauto.
Qed.

Lemma plug_fits c h : fits (plug c h) ↔ fits h ∧ ctx_fits c (tid h).
Proof.
  revert h. induction c as [|fr c IH]; intros h; simpl; [tauto|]. rewrite IH. unfold fill. simpl.
  rewrite kids_fits, kids_tid, kids_seps. unfold frame_fits. tauto.
Qed.

Lemma plug_bal c h d : bal (length c + d) (plug c h) ↔ bal d h ∧ ctx_bal d c.
Proof.
  revert h d. induction c as [|fr c IH]; intros h d; simpl; [tauto|]. rewrite <- Nat.add_succ_r, IH. unfold fill. simpl.
  rewrite kids_bal. tauto.
Qed.

Lemma plug_depth c h D : bal D (plug c h) → ∃ d, D = (length c + d)%nat.
Proof.
  revert h. induction c as [|fr c IH]; intros h Hb; simpl; [by exists D|]. pose proof Hb as [d ->]%IH.
  cbn [plug] in Hb. apply plug_bal in Hb as [Hb _]. destruct d as [|d]; [done|]. exists d. lia.
Qed.

Lemma plug_app c1 c2 h : plug (c1 ++ c2) h = plug c2 (plug c1 h).
Proof. revert h. induction c1 as [|fr c1 IH]; intros h; simpl; [done|]. apply IH. Qed.

(** ** Splitting a forest *)

Lemma seps_app f1 f2 : seps (forest_app f1 f2) = seps f1 ++ seps f2.
Proof. induction f1 as [|k t f1 IH]; simpl; [done|]. by rewrite IH. Qed.

Lemma first_or_app f1 f2 next : first_or (forest_app f1 f2) next = first_or f1 (first_or f2 next).
Proof. by destruct f1. Qed.

Lemma forest_hi_app f1 f2 hi : forest_hi (forest_app f1 f2) hi = forest_hi f1 (forest_hi f2 hi).
Proof. by destruct f1. Qed.

Lemma forest_pages_app f1 f2 next :
  forest_pages (forest_app f1 f2) next = forest_pages f1 (first_or f2 next) ++ forest_pages f2 next.
Proof. induction f1 as [|k t f1 IH]; simpl; [done|]. by rewrite IH, first_or_app, app_assoc. Qed.

Lemma forest_entries_app f1 f2 : forest_entries (forest_app f1 f2) = forest_entries f1 ++ forest_entries f2.
Proof. induction f1 as [|k t f1 IH]; simpl; [done|]. by rewrite IH, app_assoc. Qed.

Lemma forest_fits_app f1 f2 : forest_fits (forest_app f1 f2) ↔ forest_fits f1 ∧ forest_fits f2.
Proof. induction f1 as [|k t f1 IH]; simpl; tauto. Qed.

Lemma forest_bal_app d f1 f2 : forest_bal d (forest_app f1 f2) ↔ forest_bal d f1 ∧ forest_bal d f2.
Proof. induction f1 as [|k t f1 IH]; simpl; tauto. Qed.

Lemma strictly_above_trans lo k k' : strictly_above lo k → bytes_lt k k' = true → strictly_above lo k'.
Proof. destruct lo; simpl; eauto using bytes_lt_trans. Qed.

Lemma below_trans hi k k' : bytes_lt k k' = true → below hi k' → below hi k.
Proof. destruct hi; simpl; eauto using bytes_lt_trans. Qed.

Lemma forest_ordered_split lo hi f1 k t f2 :
  forest_ordered lo hi (forest_app f1 (FCons k t f2)) →
  strictly_above lo k ∧ below hi k ∧ forest_ordered lo (Some k) f1 ∧
  ordered (Some k) (forest_hi f2 hi) t ∧ forest_ordered (Some k) hi f2.
Proof.
  revert lo. induction f1 as [|k' t' f1 IH]; intros lo; simpl; [tauto|].
  intros (Hlo & Hhi & Ht & Hf). apply IH in Hf as (Hk & Hhik & Hf1 & Htk & Hf2). simpl in Hk.
  split_and!; try done; [by eapply strictly_above_trans|]. by rewrite forest_hi_app in Ht.
Qed.

(** A forest cut at the [i]-th separator. *)
Lemma forest_cut f i e :
  seps f !! i = Some e →
  ∃ f1 t f2, f = forest_app f1 (FCons (ie_key e) t f2) ∧ tid t = right_child e ∧
    seps f1 = take i (seps f) ∧ seps f2 = drop (S i) (seps f).
Proof.
  revert i. induction f as [|k t f IH]; intros i; simpl; [done|]. destruct i as [|i]; simpl.
  - intros [= <-]. by exists FNil, t, f.
  - intros (f1 & t' & f2 & -> & Ht & E1 & E2)%IH. exists (FCons k t f1), t', f2. simpl. by rewrite E1.
Qed.

(** ** Order of the entries *)

Definition within (lo hi : option (list byte)) (e : gentry) : Prop := above lo (ge_key e) ∧ below hi (ge_key e).

Lemma above_weaken lo k k' : strictly_above lo k → bytes_le k k' = true → above lo k'.
Proof. destruct lo; simpl; [|done]. intros H1 H2. apply bytes_le_lteq. left. eauto with dodb. Qed.

Lemma below_weaken hi k k' : below hi k → bytes_lt k' k = true → below hi k'.
Proof. destruct hi; simpl; [|done]. eauto using bytes_lt_trans. Qed.

Lemma keys_sorted_app (l1 l2 : list (list byte)) :
  keys_sorted (l1 ++ l2) ↔ keys_sorted l1 ∧ keys_sorted l2 ∧ ∀ a b, a ∈ l1 → b ∈ l2 → bytes_lt a b = true.
Proof.
  unfold keys_sorted. induction l1 as [|a l1 IH]; simpl.
  - split; [intros H; split_and!; [constructor|done|]; by intros ?? ?%not_elem_of_nil|tauto].
  - split.
    + intros [H1 H2]%StronglySorted_inv. apply IH in H1 as (H11 & H12 & H13).
      rewrite Forall_app in H2. destruct H2 as [H21 H22]. split_and!; [by constructor|done|].
      intros x y [->|Hx]%elem_of_cons Hy; [|by apply H13]. by eapply Forall_forall in H22.
    + intros ([H1 H1']%StronglySorted_inv & H2 & H3). constructor.
      * apply IH. split_and!; [done|done|]. intros x y Hx Hy. apply H3; [set_solver|done].
      * apply Forall_app. split; [done|]. apply Forall_forall. intros y Hy. apply H3; [set_solver|done].
Qed.

Lemma within_mono lo hi lo' hi' e :
  (∀ k, above lo' k → above lo k) → (∀ k, below hi' k → below hi k) → within lo' hi' e → within lo hi e.
Proof. intros H1 H2 []. split; auto. Qed.

Lemma ordered_entries_mut :
  (∀ t lo hi, ordered lo hi t → keys_sorted (ge_key <$> entries t) ∧ Forall (within lo hi) (entries t)) ∧
  (∀ f lo hi, forest_ordered lo hi f →
     keys_sorted (ge_key <$> forest_entries f) ∧ Forall (within (forest_hi f lo) hi) (forest_entries f) ∧
     ∀ e, e ∈ forest_entries f → ∃ k, forest_hi f None = Some k ∧ bytes_le k (ge_key e) = true).
Proof.
  apply tree_forest_ind; simpl; [tauto|..].
  - intros id lsn t IHt f IHf lo hi [Ht Hf]. apply IHt in Ht as [St Wt]. pose proof (IHf lo hi Hf) as (Sf & Wf & Bf).
    rewrite fmap_app, keys_sorted_app, Forall_app. split_and!; [done|done| | |].
    + intros a b (e & -> & He)%list_elem_of_fmap (e' & -> & He')%list_elem_of_fmap.
      destruct (Bf e' He') as (k & Hk & Hle). eapply Forall_forall in Wt as [_ Hb]; [|exact He].
      destruct f as [|k' t' f]; [done|]. simpl in *. injection Hk as ->. eauto with dodb.
    + eapply Forall_impl; [exact Wt|]. intros e. apply within_mono; [done|]. intros k Hk.
      destruct f as [|k' t' f]; [done|]. simpl in *. destruct Hf as (_ & Hhi & _). by eapply below_weaken.
    + eapply Forall_impl; [exact Wf|]. intros e. apply within_mono; [|done]. intros k Hk.
      destruct f as [|k' t' f]; [done|]. simpl in *. destruct Hf as (Hlo & _). by eapply above_weaken.
  - intros lo hi _. split_and!; [constructor|constructor|]. by intros e ?%not_elem_of_nil.
  - intros k t IHt f IHf lo hi (Hlo & Hhi & Ht & Hf). apply IHt in Ht as [St Wt].
    pose proof (IHf (Some k) hi Hf) as (Sf & Wf & Bf).
    assert (∀ e', e' ∈ forest_entries f → ∃ k', forest_hi f hi = Some k' ∧ bytes_lt k k' = true ∧
      bytes_le k' (ge_key e') = true) as Bf'.
    { intros e' (k' & Hk & Hle)%Bf. exists k'. destruct f as [|k2 t2 f]; [done|]. simpl in *.
      injection Hk as ->. destruct Hf as (Hlt & _). done. }
    rewrite fmap_app, keys_sorted_app, !Forall_app. split_and!; [done|done| | | |].
    + intros a b (e & -> & He)%list_elem_of_fmap (e' & -> & He')%list_elem_of_fmap.
      destruct (Bf' e' He') as (k' & Hk & _ & Hle). eapply Forall_forall in Wt as [_ Hb]; [|exact He].
      rewrite Hk in Hb. simpl in Hb. eauto with dodb.
    + eapply Forall_impl; [exact Wt|]. intros e. apply within_mono; [done|]. intros k' Hk.
      destruct f as [|k2 t2 f]; [done|]. simpl in *. destruct Hf as (_ & Hhi' & _). by eapply below_weaken.
    + eapply Forall_impl; [exact Wf|]. intros e. apply within_mono; [|done]. intros k' Hk.
      destruct f as [|k2 t2 f]; [done|]. simpl in *. destruct Hf as (Hlt & _). by eapply (above_weaken (Some k)).
    + intros e He. exists k. split; [done|]. apply elem_of_app in He as [He|He].
      * by eapply Forall_forall in Wt as [Ha _].
      * destruct (Bf' e He) as (k' & _ & Hlt & Hle). apply bytes_le_lteq. left. eauto with dodb.
Qed.

Lemma ordered_entries lo hi t :
  ordered lo hi t → keys_sorted (ge_key <$> entries t) ∧ Forall (within lo hi) (entries t).
Proof. apply ordered_entries_mut. Qed.

(** ** Descent *)

Lemma child_for_cons key k t t' f :
  bytes_le k key = true →
  child_for key (tid t) (mkInternalEntry k (tid t') :: seps f) = child_for key (tid t') (seps f).
Proof.
  intros Hk. unfold child_for. simpl. rewrite Hk.
  destruct (partition_point (λ e, bytes_le (ie_key e) key) (seps f)) as [|i]; [done|].
  unfold index. rewrite !(proj2 (Z.leb_le 0 _)) by lia. by rewrite !Nat2Z.id.
Qed.

(** The child that the separators select is the one whose bounds contain the
    key. *)
Lemma child_for_spec key t f lo hi :
  forest_ordered lo hi f → above lo key → below hi key →
  ∃ b h a, kids b h a = (t, f) ∧ child_for key (tid t) (seps f) = Ok (tid h) ∧
    above (before_lo lo b) key ∧ below (forest_hi a hi) key.
Proof.
  revert t lo. induction f as [|k t' f IH]; intros t lo; simpl; [by exists [], t, FNil|].
  intros (Hlo & Hhi & Ht & Hf) Ha Hb. destruct (bytes_le k key) eqn:Hk.
  - destruct (IH t' (Some k) Hf Hk Hb) as (b & h & a & E & Hc & Ha' & Hb').
    exists ((t, k) :: b), h, a. simpl. rewrite E. by rewrite child_for_cons.
  - exists [], t, (FCons k t' f). simpl. unfold child_for. simpl. rewrite Hk.
    split_and!; try done. by rewrite bytes_le_negb, negb_false_iff in Hk.
Qed.

(** A key within the bounds of the hole separates the entries beside it. *)
Lemma ctx_sorted c key :
  ctx_ordered c → above (ctx_lo c) key → below (ctx_hi c) key →
  keys_sorted ((ge_key <$> ctx_left c) ++ key :: (ge_key <$> ctx_right c)).
Proof.
  intros Hc Ha Hb.
  assert (ordered None None (plug c (Lf 0 0 [mkGEntry key 0 VNone]))) as Ho.
  { apply plug_ordered. split; [|done]. simpl. split; [repeat constructor|]. by repeat constructor. }
  apply ordered_entries in Ho as [Ho _]. by rewrite plug_entries, !fmap_app in Ho.
Qed.

(** ** The contents of a tree *)

Definition content (es : list gentry) : gmap (list byte) RevisionState :=
  list_to_map ((λ e, (ge_key e, ge_state e)) <$> es).

Lemma keys_sorted_NoDup l : keys_sorted l → NoDup l.
Proof.
  induction 1 as [|a l Hs IH Hall]; constructor; [|done]. intros Ha.
  eapply Forall_forall in Hall; [|exact Ha]. unfold blt in Hall. by rewrite bytes_lt_irrefl in Hall.
Qed.

Lemma content_fst es : ((λ e, (ge_key e, ge_state e)) <$> es).*1 = ge_key <$> es.
Proof. by rewrite <- list_fmap_compose. Qed.

Lemma content_insert es1 es2 e :
  NoDup (ge_key <$> es1 ++ e :: es2) →
  content (es1 ++ e :: es2) = <[ge_key e := ge_state e]> (content (es1 ++ es2)).
Proof.
  intros Hnd. unfold content. rewrite (list_to_map_proper _ ((λ e, (ge_key e, ge_state e)) <$> e :: es1 ++ es2)).
  - done.
  - by rewrite content_fst.
  - by rewrite Permutation_middle.
Qed.

Lemma content_replace es1 es2 e e' :
  NoDup (ge_key <$> es1 ++ e :: es2) → ge_key e' = ge_key e →
  content (es1 ++ e' :: es2) = <[ge_key e' := ge_state e']> (content (es1 ++ e :: es2)).
Proof.
  intros Hnd Hk. assert (NoDup (ge_key <$> es1 ++ e' :: es2)) as Hnd'.
  { rewrite fmap_app, fmap_cons, Hk, <- fmap_cons, <- fmap_app. done. }
  rewrite !content_insert by done. rewrite Hk. by rewrite insert_insert_eq.
Qed.

Lemma content_lookup es e : NoDup (ge_key <$> es) → e ∈ es → content es !! ge_key e = Some (ge_state e).
Proof.
  intros Hnd He. apply elem_of_list_to_map_1; [by rewrite content_fst|].
  apply list_elem_of_fmap. by exists e.
Qed.

Lemma content_lookup_None es key : key ∉ ge_key <$> es → content es !! key = None.
Proof. intros H. apply not_elem_of_list_to_map_1. by rewrite content_fst. Qed.

(** ** Searching a leaf *)

Lemma partition_point_app {A} (p : A → bool) l1 l2 :
  Forall (λ x, p x = true) l1 → (∀ x, head l2 = Some x → p x = false) →
  partition_point p (l1 ++ l2) = length l1.
Proof.
  intros H1 H2. induction H1 as [|x l1 Hx _ IH]; simpl; [|by rewrite Hx, IH].
  destruct l2 as [|y l2]; simpl; [done|]. by rewrite H2.
Qed.

(** A sorted list cut at a key. *)
Lemma sorted_cut key es :
  keys_sorted (ge_key <$> es) →
  ∃ es1 es2, es = es1 ++ es2 ∧ Forall (λ e, bytes_lt (ge_key e) key = true) es1 ∧
    Forall (λ e, bytes_le key (ge_key e) = true) es2.
Proof.
  induction es as [|e es IH]; intros Hs; [by exists [], []|].
  rewrite fmap_cons in Hs. apply StronglySorted_inv in Hs as [Hs Hall]. destruct (bytes_lt (ge_key e) key) eqn:E.
  - destruct (IH Hs) as (es1 & es2 & -> & H1 & H2). exists (e :: es1), es2. split_and!; [done|by constructor|done].
  - exists [], (e :: es). split_and!; [done|constructor|]. constructor; [by rewrite bytes_le_negb, E|].
    rewrite Forall_fmap in Hall. eapply Forall_impl; [exact Hall|]. intros e' He'. apply bytes_le_lteq. left.
    apply (bytes_le_lt_trans _ (ge_key e)); [|done]. by rewrite bytes_le_negb, E.
Qed.

Lemma binary_search_spec key es :
  keys_sorted (ge_key <$> es) →
  match binary_search key (entry_of <$> es) with
  | inl i => ∃ es1 e es2, es = es1 ++ e :: es2 ∧ i = length es1 ∧ ge_key e = key
  | inr i => ∃ es1 es2, es = es1 ++ es2 ∧ i = length es1 ∧
      Forall (λ e, bytes_lt (ge_key e) key = true) es1 ∧ Forall (λ e, bytes_lt key (ge_key e) = true) es2
  end.
Proof.
  intros Hs. destruct (sorted_cut key es Hs) as (es1 & es2 & -> & H1 & H2). unfold binary_search.
  rewrite fmap_app, (partition_point_app _ (entry_of <$> es1) (entry_of <$> es2)).
  - rewrite length_fmap, lookup_app_r, length_fmap, Nat.sub_diag by (by rewrite length_fmap).
    destruct es2 as [|e es2]; simpl; [by exists es1, []|]. unfold bytes_eqb. case_bool_decide as Hk.
    + by exists es1, e, es2.
    + exists es1, (e :: es2). split_and!; [done|done|done|].
      apply Forall_cons in H2 as [He _]. apply bytes_le_lteq in He as [He|He]; [|by subst].
      rewrite fmap_app in Hs. apply keys_sorted_app in Hs as (_ & Hs & _).
      rewrite fmap_cons in Hs. apply StronglySorted_inv in Hs as [_ Hall]. constructor; [done|]. rewrite Forall_fmap in Hall.
      eapply Forall_impl; [exact Hall|]. intros e' He'. by eapply bytes_lt_trans.
  - rewrite Forall_fmap. done.
  - intros x Hx. destruct es2 as [|e es2]; [done|]. injection Hx as <-. simpl.
    apply Forall_cons in H2 as [He _]. by rewrite bytes_le_negb, negb_true_iff in He.
Qed.

Lemma find_entry_spec key es :
  match find_entry key (entry_of <$> es) with
  | Some x => ∃ e, e ∈ es ∧ ge_key e = key ∧ x = entry_of e
  | None => key ∉ ge_key <$> es
  end.
Proof.
  unfold find_entry. induction es as [|e es IH]; simpl; [by apply not_elem_of_nil|].
  unfold bytes_eqb at 1. case_bool_decide as Hk.
  - exists e. split_and!; [set_solver|done|done].
  - destruct (List.find _ _).
    + destruct IH as (e' & ? & ? & ?). exists e'. split_and!; [set_solver|done|done].
    + set_solver.
Qed.
