(* ===== verification/Heap.v ===== *)
(** * Heap: the overlay as a heap of pages

    The overlay reads a page from its staged pages, from the cache or from the
    committed state; [rep] says that it thereby represents one [Heap], a map
    from page ids to pages with the allocator's metadata.  [runs g m a g'] says
    that the operation [m] succeeds on every overlay that represents [g],
    returns [a] and leaves an overlay that represents [g'].  The lemmas give
    the effect on the heap of every page operation of the overlay; the tree
    operations are then verified on heaps. *)

From S2P Require Import Prelude Core Crc Page Superblock DurableFile Wal Format FormatCodec Cache StoreState Store.

Record Heap := mkHeap {
  hp : gmap PageId PageData;
  hdirty : gset PageId;
  hroot : PageId;
  hfree : option PageId;
  hhw : PageId;
  hlast : option Lsn;
  hnext : Revision
}.

Definition heap_put (id : PageId) (p : PageData) (g : Heap) : Heap :=
  mkHeap (<[id := p]> (hp g)) ({[id]} ∪ hdirty g) (hroot g) (hfree g) (hhw g) (hlast g) (hnext g).
Definition heap_free_head (x : option PageId) (g : Heap) : Heap :=
  mkHeap (hp g) (hdirty g) (hroot g) x (hhw g) (hlast g) (hnext g).
Definition heap_hw (x : PageId) (g : Heap) : Heap :=
  mkHeap (hp g) (hdirty g) (hroot g) (hfree g) x (hlast g) (hnext g).
Definition heap_root (x : PageId) (g : Heap) : Heap :=
  mkHeap (hp g) (hdirty g) x (hfree g) (hhw g) (hlast g) (hnext g).
Definition heap_last (x : option Lsn) (g : Heap) : Heap :=
  mkHeap (hp g) (hdirty g) (hroot g) (hfree g) (hhw g) x (hnext g).

(** The revision of the writes of the transaction being prepared. *)
Definition heap_revision (g : Heap) : Revision := default (hnext g) (hlast g).

(** What does not change while a transaction is prepared: the committed pages,
    the pages at its beginning, and the counters and the superblock it will be
    published with. *)
Record Env := mkEnv {
  e_base : gmap PageId PageData;
  e_clean : gmap PageId PageData;
  e_next_lsn : Lsn;
  e_batch_id : Z;
  e_superblock : Superblock;
  e_slot : SuperblockSlot
}.

Section heap.
Context `{Crc32c} {F W I : Type} `{DFL : DurableFileLaws F}.

Definition decodes (bytes : list byte) (id : PageId) (p : PageData) : Prop :=
  ∃ d, decode_page_at bytes (Some id) = Ok d ∧ PageData_decode d = Ok p.

(** Page [id] of the committed state of a store: the image waiting to be
    written to the data file, or else the data file's. *)
Definition committed_page (s : BTreeStore F W I) (id : PageId) (p : PageData) : Prop :=
  match st_dirty_pages s !! id with
  | Some bytes => decodes bytes id p
  | None =>
      0 ≤ id ∧ (id + 1) * PAGE_SIZE ≤ len (contents (st_file s)) ≤ U64_MAX ∧
      decodes (sub (contents (st_file s)) (id * PAGE_SIZE) (id * PAGE_SIZE + PAGE_SIZE)) id p
  end.

(** The store when the overlay was created. *)
Context (s0 : BTreeStore F W I) (env : Env).

(** Reading changes nothing of a store but its cache, its file's internal
    state and its time counters. *)
Record reads_base (s : BTreeStore F W I) : Prop := {
  rb_same : s = set_st_metrics (st_metrics s) (set_st_cache (st_cache s) (set_st_file (st_file s) s0));
  rb_contents : contents (st_file s) = contents (st_file s0);
  rb_durable : durable (st_file s) = durable (st_file s0);
  rb_cache id p : cached (st_cache s) id = Some p → e_base env !! id = Some p;
  rb_reliable : reliable (st_file s0) → reliable (st_file s);
  rb_capacity : (capacity (st_cache s0) = 0 → pages (st_cache s0) = ∅) → capacity (st_cache s) = 0 → pages (st_cache s) = ∅
}.

Record rep (o : Overlay F W I) (g : Heap) : Prop := {
  rep_store : reads_base (ov_store o);
  rep_staged id p : ov_pages o !! id = Some p → hp g !! id = Some p;
  rep_dirty : ov_dirty o = hdirty g;
  rep_dirty_staged id : id ∈ hdirty g → is_Some (ov_pages o !! id);
  rep_base id : ov_pages o !! id = None → hp g !! id = e_base env !! id;
  rep_clean id : id ∉ hdirty g → hp g !! id = e_clean env !! id;
  rep_read id p : ov_read_pages o !! id = Some p → e_clean env !! id = Some p;
  rep_root : ov_root o = hroot g;
  rep_free : ov_free_list_head o = hfree g;
  rep_hw : ov_high_water o = hhw g;
  rep_last : ov_last_lsn o = hlast g;
  rep_next : ov_next_revision o = hnext g;
  rep_lsn : ov_next_lsn o = e_next_lsn env;
  rep_batch : ov_next_batch_id o = e_batch_id env;
  rep_superblock : ov_superblock o = e_superblock env;
  rep_slot : ov_active_slot o = e_slot env
}.

(** The data file failed. *)
Definition io_error {A} (out : Result Error A * Overlay F W I) : Prop :=
  ∃ e, out.1 = Err e ∧ ¬ reliable (st_file s0) ∧ reads_base (ov_store out.2).

Definition runs {A} (g : Heap) (m : ST (Overlay F W I) Error A) (a : A) (g' : Heap) : Prop :=
  ∀ o, rep o g → (∃ o', m o = (Ok a, o') ∧ rep o' g') ∨ io_error (m o).

(** A request is turned down: the overlay is still one over the same store. *)
Definition rejects {A} (g : Heap) (m : ST (Overlay F W I) Error A) : Prop :=
  ∀ o, rep o g → (∃ e o', m o = (Err (InvalidInput e), o') ∧ reads_base (ov_store o')) ∨ io_error (m o).

Lemma runs_ret {A} g (a : A) : runs g (ret a) a g.
Proof. intros o Ho. left. by exists o. Qed.

Lemma runs_lift {A} g (a : A) m : m = Ok a → runs g (lift m) a g.
Proof. intros -> o Ho. left. by exists o. Qed.

Lemma io_error_bind {A B} (m : ST (Overlay F W I) Error A) (k : A → ST (Overlay F W I) Error B) o :
  io_error (m o) → io_error (bind m k o).
Proof.
  intros (e & He & Hr & Hb). unfold bind. destruct (m o) as [r o']. simpl in *. subst r. by exists e.
Qed.

Lemma runs_bind {A B} g g1 g2 (m : ST (Overlay F W I) Error A) (k : A → ST (Overlay F W I) Error B) a b :
  runs g m a g1 → runs g1 (k a) b g2 → runs g (bind m k) b g2.
Proof.
  intros Hm Hk o Ho. destruct (Hm o Ho) as [(o1 & E1 & Ho1)|Hio]; [|right; by apply io_error_bind].
  rewrite bind_eq, E1. by apply Hk.
Qed.

Lemma runs_gets {A} g (f : Overlay F W I → A) a : (∀ o, rep o g → f o = a) → runs g (gets f) a g.
Proof. intros Hf o Ho. left. exists o. unfold gets. by rewrite Hf. Qed.

Lemma runs_modify g g' f : (∀ o, rep o g → rep (f o) g') → runs g (modify f) tt g'.
Proof. intros Hf o Ho. left. exists (f o). split; [done|auto]. Qed.

Lemma rejects_bind {A B} g g1 (m : ST (Overlay F W I) Error A) (k : A → ST (Overlay F W I) Error B) a :
  runs g m a g1 → rejects g1 (k a) → rejects g (bind m k).
Proof.
  intros Hm Hk o Ho. destruct (Hm o Ho) as [(o1 & E1 & Ho1)|Hio]; [|right; by apply io_error_bind].
  rewrite bind_eq, E1. by apply Hk.
Qed.

Lemma rejects_bind_l {A B} g (m : ST (Overlay F W I) Error A) (k : A → ST (Overlay F W I) Error B) :
  rejects g m → rejects g (bind m k).
Proof.
  intros Hm o Ho. destruct (Hm o Ho) as [(e & o1 & E1 & Ho1)|Hio]; [|right; by apply io_error_bind].
  left. exists e, o1. split; [|done]. by rewrite bind_eq, E1.
Qed.

Lemma rejects_lift {A} g (m : Result Error A) e : m = Err (InvalidInput e) → rejects g (lift m).
Proof. intros -> o Ho. left. exists e, o. split; [done|apply Ho]. Qed.

(** ** Reading pages *)

Hypothesis base_committed : ∀ id p, e_base env !! id = Some p → committed_page s0 id p.

Lemma read_page_spec s id p :
  reads_base s → e_base env !! id = Some p →
  let out := read_page_from_file id s in
  reads_base out.2 ∧ st_cache out.2 = st_cache s ∧
  (out.1 = Ok p ∨ ∃ e, out.1 = Err e ∧ ¬ reliable (st_file s0)).
Proof.
  intros Hs Hb. apply base_committed in Hb. unfold committed_page in Hb. unfold read_page_from_file.
  rewrite bind_eq. unfold gets. assert (st_dirty_pages s = st_dirty_pages s0) as -> by (by rewrite (rb_same _ Hs)).
  destruct (st_dirty_pages s0 !! id) as [bytes|].
  - destruct Hb as (d & E1 & E2). unfold lift. rewrite !bind_eq, E1. simpl. rewrite E2. auto.
  - destruct Hb as (Hid & Hlen & d & E1 & E2). unfold lift. rewrite bind_eq.
    unfold plain_mul. rewrite (proj2 (Z.leb_le _ _)) by lia. rewrite bind_eq. unfold on_st_file, zoom.
    destruct (reads_exact plain_add (Corruption "unexpected end of database file") (id * PAGE_SIZE) PAGE_SIZE (st_file s))
      as (Hc & Hd & Hok & Hr); [apply adds_plain|lia|lia|rewrite (rb_contents _ Hs); lia|lia|].
    unfold read_exact_at. destruct (read_exact _ _ _ _ (st_file s)) as [r f']. simpl in *.
    assert (reads_base (set_st_file f' s)) as Hs'.
    { destruct Hs as [H1 H2 H3 H4 H5 H6]. split; simpl; [by rewrite H1|congruence|congruence|done|auto|done]. }
    destruct Hok as [->|(e & -> & Hnr)].
    + rewrite (rb_contents _ Hs), bind_eq, E1. simpl. rewrite E2. auto.
    + simpl. split_and!; [done|done|right]. exists e. split; [done|]. intros Hr0. by apply Hnr, Hs.
Qed.

Lemma cache_get_rep o g id : rep o g → rep (cache_get id o).2 g.
Proof.
  intros [[H1 H2 H3 H4 H5 H6]]. unfold cache_get. pose proof (cached_get id (st_cache (ov_store o))) as Hc.
  pose proof (get_empty id (st_cache (ov_store o))) as He.
  destruct (PageCache_get id (st_cache (ov_store o))) as [found c]. simpl in *.
  split; simpl; try done. split; simpl; [by rewrite H1|done|done| |done|auto]. intros k p. rewrite Hc. apply H4.
Qed.

(** Staging a page that the heap already holds. *)
Lemma stage_rep o g id p : rep o g → hp g !! id = Some p → rep (set_ov_pages (<[id := p]> (ov_pages o)) o) g.
Proof.
  intros [] Hp. split; simpl; try done.
  - intros k q [[<- <-]|[_ Hk]]%lookup_insert_Some; auto.
  - intros k Hk. destruct (decide (id = k)) as [->|]; [rewrite lookup_insert_eq|rewrite lookup_insert_ne]; eauto.
  - intros k [Hk _]%lookup_insert_None. auto.
Qed.

Definition in_range (g : Heap) (id : PageId) : Prop := FIRST_DATA_PAGE ≤ id ≤ hhw g.

Lemma check_page_id_runs g id : in_range g id → runs g (check_page_id id) tt g.
Proof.
  intros [H1 H2] o Ho. left. exists o. split; [|done]. unfold check_page_id, bind, gets.
  rewrite (rep_hw _ _ Ho), (proj2 (Z.ltb_ge id _)), (proj2 (Z.ltb_ge (hhw g) _)) by lia. done.
Qed.

Lemma page_runs g id p : hp g !! id = Some p → in_range g id → runs g (page id) p g.
Proof.
  intros Hp Hr. unfold page. eapply runs_bind; [by apply check_page_id_runs|]. intros o Ho.
  rewrite bind_eq. unfold gets. destruct (ov_pages o !! id) as [q|] eqn:Hst.
  { left. exists o. apply (rep_staged _ _ Ho) in Hst. by simplify_eq. }
  assert (e_base env !! id = Some p) as Hb.
  { by rewrite <- (rep_base _ _ Ho). }
  assert (e_clean env !! id = Some p) as Hcl.
  { rewrite <- (rep_clean _ _ Ho); [done|]. intros Hd. apply (rep_dirty_staged _ _ Ho) in Hd as [q Hq]. congruence. }
  rewrite bind_eq. pose proof (cache_get_rep o g id Ho) as Ho1. pose proof (get_cached id (st_cache (ov_store o))) as Hc.
  unfold cache_get in *. destruct (PageCache_get id (st_cache (ov_store o))) as [found c]. simpl in *.
  destruct found as [q|].
  - symmetry in Hc. apply (rb_cache _ (rep_store _ _ Ho)) in Hc. simplify_eq.
    left. eexists. split; [reflexivity|]. by apply (stage_rep _ _ _ _ Ho1).
  - rewrite bind_eq. unfold on_store, zoom.
    set (o1 := set_ov_store _ o) in *. destruct (read_page_spec (ov_store o1) id p (rep_store _ _ Ho1) Hb) as (Hs & _ & Hok).
    destruct (read_page_from_file id (ov_store o1)) as [r s']. simpl in *. destruct Hok as [->|(e & -> & Hnr)].
    + left. eexists. split; [reflexivity|]. destruct Ho1. split; simpl; try done.
      * intros k q [[<- <-]|[_ Hk]]%lookup_insert_Some; auto.
      * intros k Hk. destruct (decide (id = k)) as [->|]; [rewrite lookup_insert_eq|rewrite lookup_insert_ne]; eauto.
      * intros k [Hk _]%lookup_insert_None. auto.
      * intros k q [[<- <-]|[_ Hk]]%lookup_insert_Some; auto.
    + right. exists e. split_and!; done.
Qed.

Lemma leaf_runs g id lsn next es :
  hp g !! id = Some (PLeaf lsn next es) → in_range g id → runs g (leaf id) (mkLeafPage next es) g.
Proof. intros Hp Hr. eapply runs_bind; [by apply page_runs|]. apply runs_ret. Qed.

Lemma internal_runs g id lsn leftmost es :
  hp g !! id = Some (PInternal lsn leftmost es) → in_range g id →
  runs g (internal id) (mkInternalPage leftmost es) g.
Proof. intros Hp Hr. eapply runs_bind; [by apply page_runs|]. apply runs_ret. Qed.

(** ** Writing pages and allocation *)

Lemma replace_page_runs g id p : runs g (replace_page id p) tt (heap_put id p g).
Proof.
  apply runs_modify. intros o []. split; simpl; try done.
  - intros k q [[<- <-]|[Hne Hk]]%lookup_insert_Some; [by rewrite lookup_insert_eq|].
    rewrite lookup_insert_ne by done. auto.
  - by rewrite rep_dirty0.
  - intros k Hk. destruct (decide (id = k)) as [->|]; [by rewrite lookup_insert_eq|].
    rewrite lookup_insert_ne by done. apply rep_dirty_staged0. set_solver.
  - intros k [Hk Hne]%lookup_insert_None. rewrite lookup_insert_ne by done. auto.
  - intros k Hk. rewrite lookup_insert_ne by set_solver. apply rep_clean0. set_solver.
Qed.

Lemma allocate_free_runs g id lsn next :
  hfree g = Some id → hp g !! id = Some (PFree lsn next) → in_range g id →
  runs g allocate_page id (heap_free_head next g).
Proof.
  intros Hf Hp Hr. unfold allocate_page. eapply runs_bind; [apply runs_gets; intros o Ho; apply Ho|]. rewrite Hf.
  eapply runs_bind; [by apply page_runs|].
  eapply (runs_bind _ (heap_free_head next g)); [apply runs_modify; intros o []; by split|].
  eapply runs_bind; [apply runs_modify; intros o []; by split|]. apply runs_ret.
Qed.

Lemma allocate_fresh_runs g :
  hfree g = None → hhw g < U64_MAX → runs g allocate_page (hhw g + 1) (heap_hw (hhw g + 1) g).
Proof.
  intros Hf Hhw. unfold allocate_page. eapply runs_bind; [apply runs_gets; intros o Ho; apply Ho|]. rewrite Hf.
  eapply runs_bind; [apply runs_gets; intros o Ho; apply Ho|].
  unfold checked_add. rewrite (proj2 (Z.leb_le _ _)) by lia.
  eapply (runs_bind _ (heap_hw (hhw g + 1) g)); [apply runs_modify; intros o []; by split|].
  eapply runs_bind; [apply runs_modify; intros o []; by split|]. apply runs_ret.
Qed.

Lemma free_page_runs g id lsn :
  runs g (free_page id lsn) tt (heap_free_head (Some id) (heap_put id (PFree lsn (hfree g)) g)).
Proof.
  unfold free_page. eapply runs_bind; [apply runs_modify; intros o []; by split|].
  eapply runs_bind; [apply runs_gets; intros o Ho; apply Ho|].
  eapply runs_bind; [apply replace_page_runs|]. apply runs_modify. intros o []. by split.
Qed.

Lemma allocate_revision_runs g :
  runs g allocate_revision (heap_revision g) (heap_last (Some (heap_revision g)) g).
Proof.
  intros o Ho. left. exists (set_ov_last_lsn (Some (heap_revision g)) o).
  unfold allocate_revision, bind, get, modify, ret, heap_revision.
  rewrite <- (rep_last _ _ Ho), <- (rep_next _ _ Ho). split; [by destruct (ov_last_lsn o)|].
  destruct Ho. split; simpl; try done.
Qed.

Lemma runs_limits g : runs g (gets config_limits) (limits (st_config s0)) g.
Proof.
  apply runs_gets. intros o Ho. unfold config_limits. by rewrite (rb_same _ (rep_store _ _ Ho)).
Qed.

Lemma runs_fuel g : runs g traversal_fuel (S (Z.to_nat (hhw g))) g.
Proof. apply runs_gets. intros o Ho. by rewrite (rep_hw _ _ Ho). Qed.

End heap.
