(* ===== verification/Own.v ===== *)
(** * Own: ownership of pages

    Every page id up to the high-water mark has one owner: the tree, an
    overflow chain, the free list, or the operation in progress (a page just
    allocated and not yet written).  [owns g T fl lim] says so of the heap [g]:
    [T] lists the pages in use with their contents, [fl] the free list, [lim]
    the pages in limbo.  [wp] is the weakest precondition of an operation of
    the overlay on such heaps.  The lemmas verify allocation, the free list and
    overflow values: a value made from bytes reads back as those bytes, and
    freeing it returns all its pages. *)

From stdpp Require Import list_numbers.
From S2P Require Import Prelude Core Crc Page Superblock DurableFile Wal Format FormatCodec Cache StoreState Store Heap Tree.

(** ** Owned pages *)

Fixpoint free_list_pages (fl : list (PageId * Lsn)) : list (PageId * PageData) :=
  match fl with
  | [] => []
  | x :: fl => (x.1, PFree x.2 (fst <$> head fl)) :: free_list_pages fl
  end.

Record owns (g : Heap) (T : list (PageId * PageData)) (fl : list (PageId * Lsn)) (lim : list PageId) : Prop := {
  own_pages x : x ∈ T → hp g !! x.1 = Some x.2;
  own_free_pages x : x ∈ free_list_pages fl → hp g !! x.1 = Some x.2;
  own_head : hfree g = fst <$> head fl;
  own_ids : T.*1 ++ fl.*1 ++ lim ≡ₚ seqZ FIRST_DATA_PAGE (hhw g - 1);
  own_dirty id : id ∈ hdirty g → in_range g id
}.

(** The parts of a heap that page operations do not touch. *)
Definition same_meta (g g' : Heap) : Prop :=
  hroot g' = hroot g ∧ hlast g' = hlast g ∧ hnext g' = hnext g.

Lemma same_meta_refl g : same_meta g g.
Proof. done. Qed.
Lemma same_meta_trans g1 g2 g3 : same_meta g1 g2 → same_meta g2 g3 → same_meta g1 g3.
Proof. unfold same_meta. intuition congruence. Qed.
#[export] Hint Resolve same_meta_refl same_meta_trans : dodb.

Lemma free_list_fst fl : (free_list_pages fl).*1 = fl.*1.
Proof. induction fl as [|x fl IH]; [done|]. cbn [free_list_pages]. by rewrite !fmap_cons, IH. Qed.

Section owns.
Context (g : Heap) (T : list (PageId * PageData)) (fl : list (PageId * Lsn)) (lim : list PageId).
Hypothesis O : owns g T fl lim.

Lemma owns_NoDup : NoDup (T.*1 ++ fl.*1 ++ lim).
Proof. rewrite (own_ids _ _ _ _ O). apply NoDup_seqZ. Qed.

Lemma owns_in_range id : id ∈ T.*1 ++ fl.*1 ++ lim → in_range g id.
Proof. rewrite (own_ids _ _ _ _ O), elem_of_seqZ. unfold in_range. lia. Qed.

Lemma owns_page id p : (id, p) ∈ T → hp g !! id = Some p ∧ in_range g id.
Proof.
  intros Hin. split; [apply (own_pages _ _ _ _ O _ Hin)|]. apply owns_in_range, elem_of_app. left.
  apply list_elem_of_fmap. by exists (id, p).
Qed.

Lemma owns_perm T' lim' : T ≡ₚ T' → lim ≡ₚ lim' → owns g T' fl lim'.
Proof.
  intros HT Hl. destruct O. split; [|done|done| |done].
  - intros x. rewrite <- HT. auto.
  - by rewrite <- HT, <- Hl.
Qed.

Lemma owns_put id p T' lim' :
  T'.*1 ++ lim' ≡ₚ T.*1 ++ lim → (id ∉ fl.*1) → id ∈ T.*1 ++ fl.*1 ++ lim →
  (∀ x, x ∈ T' → (x.1 = id ∧ x.2 = p) ∨ (x.1 ≠ id ∧ x ∈ T)) →
  owns (heap_put id p g) T' fl lim'.
Proof.
  intros Hids Hfl Hin HT. pose proof (owns_in_range id Hin) as Hr. destruct O as [H1 H2 H3 H4 H5]. split; simpl.
  - intros x [[-> ->]|[Hne Hx]]%HT; [by rewrite lookup_insert_eq|]. rewrite lookup_insert_ne by done. auto.
  - intros x Hx. rewrite lookup_insert_ne; [auto|]. intros ->. apply Hfl.
    rewrite <- free_list_fst. apply list_elem_of_fmap. by exists x.
  - done.
  - rewrite <- H4. rewrite (Permutation_app_comm fl.*1 lim), (Permutation_app_comm fl.*1 lim'), !app_assoc.
    by rewrite Hids.
  - intros k [->%elem_of_singleton|Hk]%elem_of_union; [done|]. by apply H5.
Qed.

End owns.

Lemma owns_replace g id p p' T fl lim :
  owns g ((id, p) :: T) fl lim → owns (heap_put id p' g) ((id, p') :: T) fl lim.
Proof.
  intros O. pose proof (owns_NoDup _ _ _ _ O) as Hnd. simpl in Hnd. apply NoDup_cons in Hnd as [Hid _].
  rewrite !elem_of_app in Hid. apply (owns_put _ _ _ _ O); [done|tauto|simpl; set_solver|].
  intros x [->|Hx]%elem_of_cons; [by left|]. right. split; [|set_solver].
  intros <-. apply Hid. left. apply list_elem_of_fmap. by exists x.
Qed.

Lemma owns_write g id p T fl lim : owns g T fl (id :: lim) → owns (heap_put id p g) ((id, p) :: T) fl lim.
Proof.
  intros O. pose proof (owns_NoDup _ _ _ _ O) as Hnd.
  assert ((id ∉ T.*1) ∧ (id ∉ fl.*1)) as [HT Hf].
  { rewrite app_assoc, NoDup_app in Hnd. destruct Hnd as (_ & Hd & _).
    split; intros Hin; apply (Hd id); set_solver. }
  apply (owns_put _ _ _ _ O); [by simpl; solve_Permutation|done|set_solver|].
  intros x [->|Hx]%elem_of_cons; [by left|]. right. split; [|done].
  intros <-. apply HT. apply list_elem_of_fmap. by exists x.
Qed.

Lemma owns_free g id p lsn T fl lim :
  owns g ((id, p) :: T) fl lim →
  owns (heap_free_head (Some id) (heap_put id (PFree lsn (hfree g)) g)) T ((id, lsn) :: fl) lim.
Proof.
  intros O. pose proof (owns_NoDup _ _ _ _ O) as Hnd. simpl in Hnd. apply NoDup_cons in Hnd as [Hid _].
  rewrite !elem_of_app in Hid.
  assert (in_range g id) as Hr by (apply (owns_in_range _ _ _ _ O); simpl; set_solver).
  destruct O as [H1 H2 H3 H4 H5]. split; simpl.
  - intros x Hx. rewrite lookup_insert_ne; [apply H1; set_solver|]. intros ->. apply Hid. left.
    apply list_elem_of_fmap. by exists x.
  - intros x [->|Hx]%elem_of_cons; simpl; [by rewrite lookup_insert_eq, H3|].
    rewrite lookup_insert_ne; [by apply H2|]. intros ->. apply Hid. right. left.
    rewrite <- free_list_fst. apply list_elem_of_fmap. by exists x.
  - done.
  - rewrite <- H4. simpl. solve_Permutation.
  - intros k [->%elem_of_singleton|Hk]%elem_of_union; [done|]. by apply H5.
Qed.

(** ** Weakest preconditions *)

Section wp.
Context `{Crc32c} {F W I : Type} `{DFL : DurableFileLaws F}.
Context (s0 : BTreeStore F W I) (env : Env).
Hypothesis base_committed : ∀ id p, e_base env !! id = Some p → committed_page s0 id p.

Abbreviation OvM := (ST (Overlay F W I) Error).

(** [m] runs on [g], unless the data file fails, and ends as [Q] says. *)
Definition wp {A} (g : Heap) (m : OvM A) (Q : A → Heap → Prop) : Prop :=
  ∃ a g', runs s0 env g m a g' ∧ Q a g'.
(** The same, but when [φ] holds the request may be turned down. *)
Definition wpr {A} (φ : Prop) (g : Heap) (m : OvM A) (Q : A → Heap → Prop) : Prop :=
  wp g m Q ∨ (φ ∧ rejects s0 env g m).

Lemma wp_ret {A} g (a : A) (Q : A → Heap → Prop) : Q a g → wp g (ret a) Q.
Proof. intros HQ. exists a, g. split; [apply runs_ret|done]. Qed.
Lemma wp_lift {A} g m (a : A) (Q : A → Heap → Prop) : m = Ok a → Q a g → wp g (lift m) Q.
Proof. intros Hm HQ. exists a, g. split; [by apply runs_lift|done]. Qed.
Lemma wp_runs {A} g g' m (a : A) (Q : A → Heap → Prop) : runs s0 env g m a g' → Q a g' → wp g m Q.
Proof. intros Hr HQ. by exists a, g'. Qed.
Lemma wp_mono {A} g m (Q Q' : A → Heap → Prop) : wp g m Q → (∀ a g', Q a g' → Q' a g') → wp g m Q'.
Proof. intros (a & g' & Hr & HQ) Himp. exists a, g'. auto. Qed.
Lemma wp_bind {A B} g (m : OvM A) (k : A → OvM B) (Q : B → Heap → Prop) :
  wp g m (λ a g', wp g' (k a) Q) → wp g (bind m k) Q.
Proof. intros (a & g1 & Hm & b & g2 & Hk & HQ). exists b, g2. split; [by eapply runs_bind|done]. Qed.

Lemma wpr_wp {A} φ g (m : OvM A) (Q : A → Heap → Prop) : wp g m Q → wpr φ g m Q.
Proof. by left. Qed.
Lemma wpr_bind {A B} φ g (m : OvM A) (k : A → OvM B) (Q : B → Heap → Prop) :
  wpr φ g m (λ a g', wpr φ g' (k a) Q) → wpr φ g (bind m k) Q.
Proof.
  intros [(a & g1 & Hm & [(b & g2 & Hk & HQ)|[Hφ Hk]])|[Hφ Hm]].
  - left. exists b, g2. split; [by eapply runs_bind|done].
  - right. split; [done|]. by eapply rejects_bind.
  - right. split; [done|]. by eapply rejects_bind_l.
Qed.
Lemma wpr_wp_bind {A B} φ g (m : OvM A) (k : A → OvM B) (Q : B → Heap → Prop) :
  wp g m (λ a g', wpr φ g' (k a) Q) → wpr φ g (bind m k) Q.
Proof. intros Hm. apply wpr_bind. by left. Qed.
Lemma wpr_mono {A} (φ φ' : Prop) g (m : OvM A) (Q Q' : A → Heap → Prop) :
  wpr φ g m Q → (φ → φ') → (∀ a g', Q a g' → Q' a g') → wpr φ' g m Q'.
Proof. intros [Hm|[Hφ Hm]] Hφ' Himp; [left; by eapply wp_mono|right; auto]. Qed.
Lemma wp_runs_bind {A B} g g1 (m : OvM A) (k : A → OvM B) a (Q : B → Heap → Prop) :
  runs s0 env g m a g1 → wp g1 (k a) Q → wp g (bind m k) Q.
Proof. intros Hm Hk. apply wp_bind. by exists a, g1. Qed.
Lemma wpr_runs_bind {A B} φ g g1 (m : OvM A) (k : A → OvM B) a (Q : B → Heap → Prop) :
  runs s0 env g m a g1 → wpr φ g1 (k a) Q → wpr φ g (bind m k) Q.
Proof. intros Hm Hk. apply wpr_wp_bind. by exists a, g1. Qed.
Lemma wpr_lift_Err {A} (φ : Prop) g (m : Result Error A) e (Q : A → Heap → Prop) :
  φ → m = Err (InvalidInput e) → wpr φ g (lift m) Q.
Proof. intros Hφ Hm. right. split; [done|]. by eapply rejects_lift. Qed.

(** ** Allocation *)

Lemma allocate_wp g T fl lim :
  owns g T fl lim → 1 ≤ hhw g < U64_MAX →
  wp g allocate_page (λ id g', ∃ fl', owns g' T fl' (id :: lim) ∧ same_meta g g' ∧ hhw g ≤ hhw g' ≤ hhw g + 1).
Proof.
  intros O Hhw. destruct fl as [|[id lsn] fl].
  - eapply wp_runs; [apply allocate_fresh_runs; [by rewrite (own_head _ _ _ _ O)|lia]|].
    exists []. split; [|simpl; by split; [|lia]]. destruct O as [H1 H2 H3 H4 H5]. split; simpl; [done|done|done| |].
    2: { intros k Hk. destruct (H5 k Hk). unfold in_range in *. simpl. lia. }
    simpl in H4. replace (hhw g + 1 - 1) with ((hhw g - 1) + 1) by lia. rewrite seqZ_app, <- H4 by lia.
    replace (FIRST_DATA_PAGE + (hhw g - 1)) with (hhw g + 1) by (unfold FIRST_DATA_PAGE; lia).
    replace (seqZ (hhw g + 1) 1) with [hhw g + 1] by (unfold seqZ; simpl; f_equal; lia). solve_Permutation.
  - destruct O as [H1 H2 H3 H4 H5]. simpl in *.
    assert (in_range g id) as Hr.
    { assert (id ∈ seqZ FIRST_DATA_PAGE (hhw g - 1)) as Hin by (rewrite <- H4; set_solver).
      rewrite elem_of_seqZ in Hin. unfold in_range. lia. }
    eapply wp_runs; [apply (allocate_free_runs _ _ base_committed _ _ lsn (fst <$> head fl));
      [done|apply (H2 (id, _)); set_solver|done]|].
    exists fl. split; [|simpl; by split; [|lia]]. split; simpl; [done| |done| |done].
    + intros x Hx. apply H2. set_solver.
    + rewrite <- H4. solve_Permutation.
Qed.

Lemma allocate_many_wp (n : list Z) g T fl lim :
  owns g T fl lim → 1 ≤ hhw g → hhw g + len n ≤ U64_MAX →
  wp g (mapM (λ _, allocate_page) n) (λ ids g', length ids = length n ∧ ∃ fl',
    owns g' T fl' (ids ++ lim) ∧ same_meta g g' ∧ hhw g ≤ hhw g' ≤ hhw g + len n).
Proof.
  revert g fl lim. induction n as [|i n IH]; intros g fl lim O H1 Hhw; simpl; len_simpl.
  - apply wp_ret. split; [done|]. exists fl. simpl. split_and!; [done|done|lia|lia].
  - pose proof (len_nonneg n). apply wp_bind. eapply wp_mono; [apply (allocate_wp _ _ _ _ O); lia|].
    intros id g1 (fl1 & O1 & M1 & B1). apply wp_bind. eapply wp_mono; [apply (IH g1 fl1 (id :: lim) O1); lia|].
    intros ids g2 (Hl & fl2 & O2 & M2 & B2). apply wp_ret. simpl. split; [by rewrite Hl|]. exists fl2.
    split_and!; [|by eapply same_meta_trans|lia|lia].
    eapply owns_perm; [exact O2|done|]. solve_Permutation.
Qed.

(** ** Overflow values *)

Lemma chunks_take n (l : list byte) k :
  0 < n → concat ((λ i, sub l (i * n) (i * n + n)) <$> (Z.of_nat <$> seq 0 k)) = take (Z.to_nat (Z.of_nat k * n)) l.
Proof.
  intros Hn. induction k as [|k IH]; [done|]. rewrite seq_S, !fmap_app, concat_app, IH. simpl.
  rewrite app_nil_r. unfold sub. rewrite take_take_drop. f_equal. lia.
Qed.

Lemma div_ceil_bounds a b : 0 < b → 0 ≤ a → a ≤ div_ceil a b * b < a + b.
Proof.
  intros Hb Ha. unfold div_ceil. pose proof (Z.mod_pos_bound (a + b - 1) b Hb).
  pose proof (Z.div_mod (a + b - 1) b). lia.
Qed.

Lemma chunks_spec n (l : list byte) :
  0 < n → concat (chunks n l) = l ∧ Forall (λ c, 0 < len c ≤ n) (chunks n l) ∧
  length (chunks n l) = Z.to_nat (div_ceil (len l) n).
Proof.
  intros Hn. pose proof (div_ceil_bounds (len l) n Hn (len_nonneg l)) as Hd. unfold chunks, range_to.
  split_and!.
  - rewrite chunks_take by done. apply take_ge. unfold len in *. lia.
  - apply Forall_fmap, Forall_fmap, Forall_forall. intros i Hi%elem_of_seq. simpl.
    unfold sub. unfold len in *. rewrite length_take, length_drop. nia.
  - by rewrite !length_fmap, length_seq.
Qed.

Lemma chain_fst total links : (chain_pages total links).*1 = link_id <$> links.
Proof. induction links as [|l links IH]; [done|]. cbn [chain_pages]. by rewrite !fmap_cons, IH. Qed.

Lemma chain_bytes_cons l links : chain_bytes (l :: links) = l.2 ++ chain_bytes links.
Proof. done. Qed.
Lemma chain_bytes_snoc links l : chain_bytes (links ++ [l]) = chain_bytes links ++ l.2.
Proof. unfold chain_bytes. rewrite bind_app. simpl. by rewrite app_nil_r. Qed.

Definition links_of (rev : Lsn) (ids : list PageId) (cs : list (list byte)) : list (PageId * Lsn * list byte) :=
  zip_with (λ id c, (id, rev, c)) ids cs.

Lemma links_head rev ids cs : length ids = length cs → link_id <$> head (links_of rev ids cs) = head ids.
Proof. by destruct ids, cs. Qed.

Lemma links_bytes rev ids cs : length ids = length cs → chain_bytes (links_of rev ids cs) = concat cs.
Proof.
  unfold chain_bytes. revert ids. induction cs as [|c cs IH]; intros [|id ids] Hl; try done.
  simpl. f_equal. apply IH. simpl in Hl. lia.
Qed.

Lemma links_chunks rev ids cs P : length ids = length cs → Forall P cs → Forall (λ l, P l.2) (links_of rev ids cs).
Proof.
  revert ids. induction cs as [|c cs IH]; intros [|id ids] Hl HP; try done.
  apply Forall_cons in HP as [Hc HP]. constructor; [done|]. apply IH; [simpl in Hl; lia|done].
Qed.

Lemma write_chunks_wp total rev cs ids pre g T fl lim :
  length ids = length cs → owns g T fl (ids ++ lim) →
  wp g (forM (imap (λ i c, ((length pre + i)%nat, c)) cs) (λ '(i, chunk),
          let* page_id := lift (index (pre ++ ids) (Z.of_nat i)) in
          replace_page page_id (POverflow rev ((pre ++ ids) !! S i) total chunk)))
    (λ _ g', owns g' (chain_pages total (links_of rev ids cs) ++ T) fl lim ∧ same_meta g g' ∧ hhw g' = hhw g).
Proof.
  revert ids pre g T. induction cs as [|c cs IH]; intros [|id ids] pre g T Hl O; try done.
  { by apply wp_ret. }
  rewrite imap_cons. cbn [forM]. apply wp_bind. rewrite Nat.add_0_r.
  assert (index (E:=Error) (pre ++ id :: ids) (Z.of_nat (length pre)) = Ok id) as Hi.
  { unfold index. rewrite (proj2 (Z.leb_le 0 _)) by lia. by rewrite Nat2Z.id, list_lookup_middle. }
  apply wp_bind. eapply wp_lift; [exact Hi|].
  eapply wp_runs; [by apply replace_page_runs|].
  assert ((pre ++ id :: ids) !! S (length pre) = head ids) as ->.
  { rewrite lookup_app_r by lia. replace (S (length pre) - length pre)%nat with 1%nat by lia. by destruct ids. }
  set (p := POverflow rev (head ids) total c).
  assert (owns (heap_put id p g) ((id, p) :: T) fl (ids ++ lim)) as O' by (by apply owns_write).
  rewrite (imap_ext _ (λ i c, ((length (pre ++ [id]) + i)%nat, c))); [|intros i x _; simpl; rewrite length_app; f_equal; simpl; lia].
  replace (pre ++ id :: ids) with ((pre ++ [id]) ++ ids) by (by rewrite <- app_assoc).
  eapply wp_mono; [apply (IH ids (pre ++ [id]) _ _ ltac:(simpl in Hl; lia) O')|].
  intros _ g' (O2 & M2 & B2). split_and!; [|done|done].
  eapply owns_perm; [exact O2| |done]. cbn [links_of zip_with chain_pages]. fold (links_of rev ids cs).
  rewrite links_head by (simpl in Hl; lia). subst p. simpl. solve_Permutation.
Qed.

(** The bytes of a value. *)
Definition val_bytes (v : gval) : list byte :=
  match v with VNone => [] | VInline bytes => bytes | VChain links => chain_bytes links end.

Lemma make_value_wp value rev g T fl lim :
  0 ≤ inline_value_limit (limits (st_config s0)) → owns g T fl lim → 1 ≤ hhw g → hhw g + MAX_OVERFLOW_PAGES ≤ U64_MAX → len value ≤ MAX_VALUE_SIZE →
  wp g (make_value value rev) (λ ref g', ∃ v fl', ref_of v = Some ref ∧ val_ok v ∧ val_bytes v = value ∧
    owns g' (value_pages v ++ T) fl' lim ∧ same_meta g g' ∧ hhw g ≤ hhw g' ≤ hhw g + MAX_OVERFLOW_PAGES).
Proof.
  intros Hlim O H1 Hroom Hlen. unfold make_value. eapply wp_runs_bind; [apply runs_limits|].
  assert (0 ≤ MAX_OVERFLOW_PAGES) by (vm_compute; discriminate).
  destruct (_ && _) eqn:Einl.
  { bool_props. apply wp_ret. exists (VInline value), fl. split_and!; done || lia. }
  assert (value ≠ []) as Hne by (intros ->; apply andb_false_iff in Einl as [E|E]; bool_props; len_simpl; lia).
  destruct (chunks_spec OVERFLOW_DATA_SIZE value ltac:(lia)) as (Hcat & Hchunks & Hn).
  set (ids := div_ceil (len value) OVERFLOW_DATA_SIZE) in *.
  assert (0 ≤ ids ≤ MAX_OVERFLOW_PAGES) as Hids.
  { unfold ids, MAX_OVERFLOW_PAGES, div_ceil. pose proof (len_nonneg value).
    split; [apply Z.div_pos; lia|apply Z.div_le_mono; lia]. }
  rewrite (proj2 (Z.ltb_ge MAX_OVERFLOW_PAGES ids)) by lia. cbn [negb].
  assert (len (range_to ids) = ids) as Hrange by (unfold range_to, len; rewrite length_fmap, length_seq; lia).
  apply wp_bind. eapply wp_mono; [apply (allocate_many_wp (range_to ids) _ _ _ _ O); lia|].
  intros page_ids g1 (Hl & fl1 & O1 & M1 & B1).
  assert (length page_ids = length (chunks OVERFLOW_DATA_SIZE value)) as Hl'.
  { rewrite Hl, Hn. unfold len in Hrange. lia. }
  apply wp_bind. eapply wp_mono; [apply (write_chunks_wp (len value) rev _ page_ids [] _ _ _ _ Hl' O1)|].
  intros _ g2 (O2 & M2 & B2). set (links := links_of rev page_ids (chunks OVERFLOW_DATA_SIZE value)) in *.
  assert (chain_bytes links = value) as Hb by (unfold links; by rewrite links_bytes).
  destruct page_ids as [|id page_ids]; [destruct (chunks _ value); [by subst value|done]|].
  apply wp_bind. eapply wp_lift; [reflexivity|]. apply wp_ret. exists (VChain links), fl1.
  split_and!; [..|by eapply same_meta_trans|lia|lia].
  - simpl. rewrite Hb. do 2 f_equal. unfold links. by rewrite links_head.
  - split_and!.
    + intros E. by rewrite E in Hb; subst value.
    + unfold links, links_of, len. rewrite length_zip_with. unfold len in Hrange. lia.
    + by rewrite Hb.
    + by apply (links_chunks _ _ _ (λ c, 0 < len c ≤ OVERFLOW_DATA_SIZE)).
  - done.
  - simpl. by rewrite Hb.
Qed.

Lemma read_chain_wp total links done fuel visited g T fl lim :
  owns g (chain_pages total links ++ T) fl lim →
  (length links < fuel)%nat → len done + len links ≤ MAX_OVERFLOW_PAGES →
  (∀ l, l ∈ links → link_id l ∉ visited) →
  wp g (read_value_loop fuel total (link_id <$> head links) visited (len done) (chain_bytes done))
    (λ bytes g', bytes = chain_bytes done ++ chain_bytes links ∧ g' = g).
Proof.
  intros O. assert (NoDup (link_id <$> links)) as Hnd.
  { pose proof (owns_NoDup _ _ _ _ O) as Hnd. rewrite fmap_app, chain_fst, <- app_assoc in Hnd.
    by apply NoDup_app in Hnd as [Hnd _]. }
  assert (∀ x, x ∈ chain_pages total links → hp g !! x.1 = Some x.2 ∧ in_range g x.1) as Hpages.
  { intros [id p] Hx. apply (owns_page _ _ _ _ O). set_solver. }
  clear O. revert done fuel visited Hnd Hpages.
  induction links as [|l links IH]; intros done fuel visited Hnd Hpages Hfuel Hroom Hvis.
  { destruct fuel; [simpl in Hfuel; lia|]. apply wp_ret. by rewrite app_nil_r. }
  destruct fuel as [|fuel]; [simpl in Hfuel; lia|]. rewrite fmap_cons, NoDup_cons in Hnd. destruct Hnd as [Hl Hnd].
  cbn [head fmap option_fmap option_map read_value_loop]. len_simpl. pose proof (len_nonneg links).
  rewrite bool_decide_eq_false_2 by (apply Hvis; set_solver). rewrite (proj2 (Z.leb_gt _ _)) by lia. cbn [orb negb].
  destruct (Hpages (link_id l, POverflow l.1.2 (link_id <$> head links) total l.2)) as [Hp Hr]; [simpl; set_solver|].
  eapply wp_runs_bind; [by apply page_runs|]. cbn. rewrite Z.eqb_refl.
  rewrite <- chain_bytes_snoc.
  replace (len done + 1) with (len (done ++ [l])) by (by len_simpl).
  eapply wp_mono; [apply IH|]; try done.
  - intros x Hx. apply Hpages. simpl. set_solver.
  - simpl in Hfuel. lia.
  - len_simpl. lia.
  - intros l' Hl'. rewrite elem_of_union, elem_of_singleton. intros [E|Hv]; [|by apply (Hvis l'); [set_solver|]].
    apply Hl. rewrite <- E. apply list_elem_of_fmap. by exists l'.
  - intros bytes g' [-> ->]. split; [|done]. by rewrite chain_bytes_snoc, <- app_assoc.
Qed.

(** A stored value reads back as its bytes. *)
Lemma read_value_wp v ref g T fl lim :
  owns g (value_pages v ++ T) fl lim → val_ok v → ref_of v = Some ref →
  wp g (read_value ref) (λ bytes g', bytes = val_bytes v ∧ g' = g).
Proof.
  intros O Hv Href. destruct v as [|bytes|links]; simpl in Href; simplify_eq; [by apply wp_ret|].
  destruct Hv as (Hne & Hn & Hlen & Hchunks). simpl in O. destruct links as [|l links]; [done|].
  apply wp_bind. eapply wp_mono.
  { apply (read_chain_wp _ (l :: links) [] OVERFLOW_FUEL ∅ _ _ _ _ O); [|by len_simpl; simpl in *; lia|set_solver].
    unfold OVERFLOW_FUEL. unfold len in Hn. lia. }
  intros bytes g' [-> ->]. simpl. rewrite Z.eqb_refl. by apply wp_ret.
Qed.

Lemma free_chain_wp total rev links done fuel visited g T fl lim :
  owns g (chain_pages total links ++ T) fl lim →
  (length links < fuel)%nat → len done + len links ≤ MAX_OVERFLOW_PAGES →
  len (chain_bytes done) + len (chain_bytes links) ≤ U64_MAX →
  (∀ l, l ∈ links → link_id l ∉ visited) →
  wp g (free_value_loop fuel total rev (link_id <$> head links) visited (len (chain_bytes done)) (len done))
    (λ n g', n = len (chain_bytes done) + len (chain_bytes links) ∧
       ∃ fl', owns g' T fl' lim ∧ same_meta g g' ∧ hhw g' = hhw g).
Proof.
  revert done fuel visited g fl.
  induction links as [|l links IH]; intros done fuel visited g fl O Hfuel Hroom Hlen Hvis.
  { destruct fuel; [simpl in Hfuel; lia|]. apply wp_ret. split; [len_simpl; lia|]. by exists fl. }
  destruct fuel as [|fuel]; [simpl in Hfuel; lia|]. pose proof (owns_NoDup _ _ _ _ O) as Hnd.
  cbn [chain_pages app fmap list_fmap] in Hnd. apply NoDup_cons in Hnd as [Hl _].
  cbn [head fmap option_fmap option_map free_value_loop]. len_simpl. pose proof (len_nonneg links).
  rewrite bool_decide_eq_false_2 by (apply Hvis; set_solver). rewrite (proj2 (Z.leb_gt _ _)) by lia. cbn [orb negb].
  destruct (owns_page _ _ _ _ O (link_id l) (POverflow l.1.2 (link_id <$> head links) total l.2)) as [Hp Hr];
    [simpl; set_solver|].
  eapply wp_runs_bind; [by apply page_runs|]. cbn. rewrite Z.eqb_refl.
  assert (len (chain_bytes (l :: links)) = len l.2 + len (chain_bytes links)) as Hsum by (by rewrite chain_bytes_cons, len_app).
  assert (len (chain_bytes (done ++ [l])) = len (chain_bytes done) + len l.2) as Hsnoc
    by (by rewrite chain_bytes_snoc, len_app).
  rewrite Hsum in *. pose proof (len_nonneg (chain_bytes links)).
  unfold checked_add. rewrite (proj2 (Z.leb_le _ _)) by lia. eapply wp_runs_bind; [by apply runs_lift|].
  eapply wp_runs_bind; [by apply free_page_runs|]. rewrite <- Hsnoc.
  replace (len done + 1) with (len (done ++ [l])) by (by len_simpl).
  eapply wp_mono; [eapply IH; [exact (owns_free _ _ _ rev _ _ _ O)|simpl in Hfuel; lia|len_simpl; lia|lia|]|].
  - intros l' Hl'. rewrite elem_of_union, elem_of_singleton. intros [E|Hv]; [|by apply (Hvis l'); [set_solver|]].
    apply Hl. rewrite !fmap_app, chain_fst, <- E, !elem_of_app. do 2 left. apply list_elem_of_fmap. by exists l'.
  - intros n g' (-> & fl' & O' & M & B). split; [by rewrite Hsnoc, len_app, Z.add_assoc|]. by exists fl'.
Qed.

(** Freeing a value returns its pages to the free list. *)
Lemma free_value_wp v rev g T fl lim :
  owns g (value_pages v ++ T) fl lim → val_ok v →
  wp g (free_value (ref_of v) rev) (λ _ g', ∃ fl', owns g' T fl' lim ∧ same_meta g g' ∧ hhw g' = hhw g).
Proof.
  intros O Hv. destruct v as [|bytes|links]; [by apply wp_ret; exists fl..|].
  destruct Hv as (Hne & Hn & Hlen & Hchunks). simpl in O. destruct links as [|l links]; [done|].
  apply wp_bind. eapply wp_mono.
  { apply (free_chain_wp _ rev (l :: links) [] OVERFLOW_FUEL ∅ _ _ _ _ O); [|by len_simpl; simpl in *; lia| |set_solver].
    - unfold OVERFLOW_FUEL. unfold len in Hn. lia.
    - change (chain_bytes []) with (@nil byte). len_simpl. lia. }
  intros n g' (-> & fl' & O' & M & B). change (chain_bytes []) with (@nil byte). len_simpl. rewrite Z.add_0_l, Z.eqb_refl.
  apply Forall_cons in Hchunks as [Hc _]. rewrite chain_bytes_cons, len_app. pose proof (len_nonneg (chain_bytes links)).
  rewrite (proj2 (Z.eqb_neq _ 0)) by lia. apply wp_ret. by exists fl'.
Qed.

End wp.
