(* ===== verification/Split.v ===== *)
(** * Split: where an overfull page is split

    The search of [choose_leaf_split] and [choose_internal_split]: it returns
    the admissible position nearest to the middle, and finds one whenever the
    records are small enough. *)

From S2P Require Import Prelude Core Crc Page Superblock DurableFile Wal Format FormatCodec Cache StoreState Store.

(** ** The search *)

Global Instance closer_total m : Total (closer m).
Proof. intros a b. unfold closer. lia. Qed.
Global Instance closer_trans m : Transitive (closer m).
Proof. intros a b c. unfold closer. lia. Qed.

Lemma elem_of_split_candidates n c : c ∈ split_candidates n ↔ 1 ≤ c < n.
Proof.
  unfold split_candidates, range_to. rewrite merge_sort_Permutation, list_elem_of_fmap. setoid_rewrite list_elem_of_fmap.
  setoid_rewrite elem_of_seq. split.
  - intros (i & -> & j & -> & Hj). lia.
  - intros Hc. exists (c - 1). split; [lia|]. exists (Z.to_nat (c - 1)). lia.
Qed.

Lemma first_candidate_spec R test (ok : Z → bool) cands none :
  StronglySorted R cands → (∀ c, c ∈ cands → test c = Ok (ok c)) →
  match first_candidate test cands none with
  | Ok s => s ∈ cands ∧ ok s = true ∧ ∀ s', s' ∈ cands → ok s' = true → s' = s ∨ R s s'
  | Err e => e = none ∧ ∀ s', s' ∈ cands → ok s' = false
  | Panic | NoFuel => False
  end.
Proof.
  induction 1 as [|c cands Hs IH Hall]; intros Ht; simpl; [by split; [|intros ? ?%not_elem_of_nil]|].
  rewrite Ht by set_solver. simpl. destruct (ok c) eqn:Hc.
  - split_and!; [set_solver|done|]. intros s' [->|Hin]%elem_of_cons _; [by left|right].
    by eapply Forall_forall in Hall.
  - specialize (IH ltac:(set_solver)). destruct (first_candidate _ _ _) as [s| | |]; [|..|done|done].
    + destruct IH as (Hin & Hok & Hmin). split_and!; [set_solver|done|].
      intros s' [->|Hs']%elem_of_cons Hok'; [congruence|auto].
    + destruct IH as [-> Hno]. split; [done|]. intros s' [->|Hs']%elem_of_cons; auto.
Qed.

Lemma split_search_spec n test (ok : Z → bool) none :
  (∀ c, 1 ≤ c < n → test c = Ok (ok c)) →
  match first_candidate test (split_candidates n) none with
  | Ok s => 1 ≤ s < n ∧ ok s = true ∧
      ∀ s', 1 ≤ s' < n → ok s' = true → Z.abs (s - n / 2) ≤ Z.abs (s' - n / 2)
  | Err e => e = none ∧ ∀ s', 1 ≤ s' < n → ok s' = false
  | Panic | NoFuel => False
  end.
Proof.
  intros Ht. pose proof (first_candidate_spec (closer (n / 2)) test ok (split_candidates n) none
    (StronglySorted_merge_sort _ _)) as Hf.
  specialize (Hf ltac:(intros c Hc; by apply Ht, elem_of_split_candidates)).
  destruct (first_candidate _ _ _) as [s|e| |]; [|..|done|done].
  - destruct Hf as (Hin & Hok & Hmin). split; [by apply elem_of_split_candidates|]. split; [done|].
    intros s' Hs' Hok'. apply elem_of_split_candidates in Hs'. destruct (Hmin s' Hs' Hok') as [->|Hc]; [done|exact Hc].
  - destruct Hf as [-> Hno]. split; [done|]. intros s' Hs'. by apply Hno, elem_of_split_candidates.
Qed.

Lemma slice_to {E A} (l : list A) c : 0 ≤ c ≤ len l → slice (E:=E) l 0 c = Ok (take (Z.to_nat c) l).
Proof. intros Hc. unfold slice, sub. rewrite !(proj2 (Z.leb_le _ _)) by lia. simpl. by rewrite Z.sub_0_r. Qed.

Lemma slice_from {E A} (l : list A) c : 0 ≤ c ≤ len l → slice (E:=E) l c (len l) = Ok (drop (Z.to_nat c) l).
Proof.
  intros Hc. unfold slice, sub. rewrite !(proj2 (Z.leb_le _ _)) by lia. simpl. rewrite take_ge; [done|].
  rewrite length_drop. unfold len. lia.
Qed.

Definition leaf_split_ok (entries : list LeafEntry) (s : Z) : bool :=
  leaf_fits (take (Z.to_nat s) entries) && leaf_fits (drop (Z.to_nat s) entries).

Definition internal_split_ok (leftmost : PageId) (entries : list InternalEntry) (s : Z) : bool :=
  match entries !! Z.to_nat s with
  | Some e => internal_fits leftmost (take (Z.to_nat s) entries) &&
              internal_fits (right_child e) (drop (S (Z.to_nat s)) entries)
  | None => false
  end.

Lemma leaf_test_eq (entries : list LeafEntry) c :
  1 ≤ c < len entries →
  (let? left := slice entries 0 c in
   let? right := slice entries c (len entries) in
   Ok (E:=Error) (leaf_fits left && leaf_fits right)) = Ok (leaf_split_ok entries c).
Proof. intros Hc. rewrite slice_to, slice_from by lia. done. Qed.

Lemma internal_test_eq leftmost (entries : list InternalEntry) c :
  1 ≤ c < len entries →
  (let? promoted := index entries c in
   let? left := slice entries 0 c in
   let? right := slice entries (c + 1) (len entries) in
   Ok (E:=Error) (internal_fits leftmost left && internal_fits (right_child promoted) right)) =
  Ok (internal_split_ok leftmost entries c).
Proof.
  intros Hc. rewrite slice_to, slice_from by lia. unfold index, internal_split_ok. rewrite (proj2 (Z.leb_le _ _)) by lia.
  destruct (lookup_lt_is_Some_2 entries (Z.to_nat c)) as [e ->]; [unfold len in Hc; lia|]. simpl.
  by replace (Z.to_nat (c + 1)) with (S (Z.to_nat c)) by lia.
Qed.

Lemma choose_leaf_split_cases entries :
  (∃ s, choose_leaf_split entries = Ok s ∧ 1 ≤ s < len entries ∧ leaf_split_ok entries s = true) ∨
  (∃ e, choose_leaf_split entries = Err (InvalidInput e) ∧ ∀ s, 1 ≤ s < len entries → leaf_split_ok entries s = false).
Proof.
  unfold choose_leaf_split. pose proof (split_search_spec (len entries) _ (leaf_split_ok entries)
    (InvalidInput "a single leaf entry exceeds page capacity") (leaf_test_eq entries)) as Hs.
  destruct (first_candidate _ _ _) as [s|e| |]; [left|right|done|done]; [by exists s; destruct Hs as (? & ? & _)|].
  destruct Hs as [-> Hno]. by eexists.
Qed.

Lemma choose_internal_split_cases leftmost entries :
  (∃ s, choose_internal_split leftmost entries = Ok s ∧ 1 ≤ s < len entries ∧
        internal_split_ok leftmost entries s = true ∧ 3 ≤ len entries ∧
        ∀ s', 1 ≤ s' < len entries → internal_split_ok leftmost entries s' = true →
          Z.abs (s - len entries / 2) ≤ Z.abs (s' - len entries / 2)) ∨
  (∃ e, choose_internal_split leftmost entries = Err (InvalidInput e) ∧
        (3 ≤ len entries → ∀ s, 1 ≤ s < len entries → internal_split_ok leftmost entries s = false)).
Proof.
  unfold choose_internal_split. destruct (len entries <? 3) eqn:E3; simpl; bool_props; [right; eexists; split; [done|lia]|].
  pose proof (split_search_spec (len entries) _ (internal_split_ok leftmost entries)
    (InvalidInput "internal separators exceed page capacity") (internal_test_eq leftmost entries)) as Hs.
  destruct (first_candidate _ _ _) as [s|e| |]; [left|right|done|done].
  { exists s. destruct Hs as (? & ? & ?). split_and!; done || lia. }
  destruct Hs as [-> Hno]. by eexists.
Qed.

(** ** Existence of a split *)

Definition cost {A} (w : A → Z) (l : list A) : Z := foldr (λ x n, w x + n) 0 l.

Lemma cost_app {A} (w : A → Z) l1 l2 : cost w (l1 ++ l2) = cost w l1 + cost w l2.
Proof. induction l1 as [|x l1 IH]; [done|]. cbn [app cost foldr]. fold (cost w (l1 ++ l2)) (cost w l1). lia. Qed.

Lemma cost_cons {A} (w : A → Z) x l : cost w (x :: l) = w x + cost w l.
Proof. done. Qed.

Lemma cost_nonneg {A} (w : A → Z) l : (∀ x, 0 ≤ w x) → 0 ≤ cost w l.
Proof. intros Hw. induction l as [|x l IH]; [done|]. rewrite cost_cons. specialize (Hw x). lia. Qed.

(** The longest prefix within a capacity. *)
Lemma cost_cut {A} (w : A → Z) l C :
  0 ≤ C < cost w l → ∃ l1 x l2, l = l1 ++ x :: l2 ∧ cost w l1 ≤ C < cost w l1 + w x.
Proof.
  revert C. induction l as [|x l IH]; intros C HC; [cbn in HC; lia|]. rewrite cost_cons in HC.
  destruct (decide (C < w x)) as [Hx|Hx]; [exists [], x, l; cbn; split; [done|lia]|].
  destruct (IH (C - w x) ltac:(lia)) as (l1 & y & l2 & -> & Hy). exists (x :: l1), y, l2. rewrite cost_cons.
  split; [done|lia].
Qed.

Definition leaf_cost (e : LeafEntry) : Z := SLOT_SIZE + leaf_record_size e.
Definition internal_cost (e : InternalEntry) : Z := SLOT_SIZE + INTERNAL_RECORD_HEADER_SIZE + len (ie_key e).

(** The room for records and their slots; a leaf and an internal page have the same. *)
Definition CAPACITY : Z := BODY_SIZE - LEAF_HEADER_SIZE.
#[export] Hint Unfold CAPACITY : consts.

Lemma leaf_cost_nonneg e : 0 ≤ leaf_cost e.
Proof. unfold leaf_cost, leaf_record_size. pose proof (len_nonneg (le_key e)). pose proof (len_nonneg (inline_bytes (le_value e))). lia. Qed.
Lemma internal_cost_nonneg e : 0 ≤ internal_cost e.
Proof. unfold internal_cost. pose proof (len_nonneg (ie_key e)). lia. Qed.

Lemma leaf_size_cost es : leaf_size es = LEAF_HEADER_SIZE + cost leaf_cost es.
Proof.
  unfold leaf_size. induction es as [|e es IH]; [done|]. rewrite fmap_cons, cost_cons. len_simpl.
  cbn [total_size foldr]. fold (total_size (leaf_record <$> es)). cbn [leaf_record fst]. rewrite len_leaf_record_image. unfold leaf_cost in *. lia.
Qed.

Lemma internal_size_cost es : internal_size es = INTERNAL_HEADER_SIZE + cost internal_cost es.
Proof.
  unfold internal_size. induction es as [|e es IH]; [done|]. rewrite fmap_cons, cost_cons. len_simpl.
  cbn [total_size foldr]. fold (total_size (internal_record <$> es)). cbn [internal_record fst].
  rewrite len_internal_record_image. unfold internal_cost in *. lia.
Qed.

Lemma leaf_fits_cost es :
  leaf_fits es = true ↔
  keys_sorted (le_key <$> es) ∧ Forall (λ e, encodable (le_key e)) es ∧ cost leaf_cost es ≤ CAPACITY.
Proof. rewrite leaf_fits_spec. unfold leaf_ok. rewrite leaf_size_cost. intuition lia. Qed.

Lemma internal_fits_cost leftmost es :
  internal_fits leftmost es = true ↔
  2 ≤ leftmost ∧ keys_sorted (ie_key <$> es) ∧ Forall child_ok es ∧ cost internal_cost es ≤ CAPACITY.
Proof. rewrite internal_fits_spec. unfold internal_ok. rewrite internal_size_cost. intuition lia. Qed.

Lemma keys_sorted_app_l l1 l2 : keys_sorted (l1 ++ l2) → keys_sorted l1.
Proof. apply StronglySorted_app_1_l. Qed.
Lemma keys_sorted_app_r l1 l2 : keys_sorted (l1 ++ l2) → keys_sorted l2.
Proof. apply StronglySorted_app_1_r. Qed.

(** A leaf overfull by one entry splits when no record takes more than half of
    a page. *)
Lemma leaf_split_exists es extra :
  keys_sorted (le_key <$> es) → Forall (λ e, encodable (le_key e) ∧ leaf_cost e ≤ CAPACITY / 2) es →
  CAPACITY < cost leaf_cost es ≤ CAPACITY + extra → extra ≤ CAPACITY / 2 →
  ∃ s, 1 ≤ s < len es ∧ leaf_split_ok es s = true.
Proof.
  intros Hs Hall Hc He. assert (CAPACITY / 2 = 2016) as Hhalf by done. rewrite Hhalf in *.
  destruct (cost_cut leaf_cost es CAPACITY) as (l1 & x & l2 & -> & Hx); [lia|].
  apply Forall_app in Hall as [H1 H2]. pose proof H2 as [[_ Hx'] _]%Forall_cons.
  exists (len l1). destruct l1 as [|y l1]; [cbn in Hx; lia|]. len_simpl.
  pose proof (len_nonneg l1). pose proof (len_nonneg l2). split; [lia|].
  unfold leaf_split_ok. replace (Z.to_nat (1 + len l1)) with (length (y :: l1)) by (simpl; unfold len; lia).
  rewrite take_app_length, drop_app_length. rewrite fmap_app in Hs. rewrite cost_app in Hc.
  apply andb_true_iff. rewrite !leaf_fits_cost. split_and!.
  - by eapply keys_sorted_app_l.
  - eapply Forall_impl; [exact H1|]. by intros ? [].
  - lia.
  - by eapply keys_sorted_app_r.
  - eapply Forall_impl; [exact H2|]. by intros ? [].
  - lia.
Qed.

Lemma internal_split_exists leftmost es extra :
  2 ≤ leftmost → keys_sorted (ie_key <$> es) → Forall child_ok es →
  CAPACITY < cost internal_cost es ≤ CAPACITY + extra → extra ≤ CAPACITY →
  (∀ e, head es = Some e → internal_cost e ≤ CAPACITY) →
  ∃ s, 1 ≤ s < len es ∧ internal_split_ok leftmost es s = true.
Proof.
  intros Hl Hs Hall Hc He Hhd. destruct (cost_cut internal_cost es CAPACITY) as (l1 & x & l2 & -> & Hx); [lia|].
  apply Forall_app in Hall as [H1 H2]. pose proof H2 as [[_ Hx'] H3]%Forall_cons.
  exists (len l1). destruct l1 as [|y l1]; [specialize (Hhd x eq_refl); cbn in Hx; lia|]. len_simpl.
  pose proof (len_nonneg l1). pose proof (len_nonneg l2). split; [lia|].
  unfold internal_split_ok. replace (Z.to_nat (1 + len l1)) with (length (y :: l1)) by (simpl; unfold len; lia).
  rewrite list_lookup_middle by done. rewrite take_app_length.
  replace (drop (S (length (y :: l1))) ((y :: l1) ++ x :: l2)) with l2
    by (rewrite <- Nat.add_1_r, drop_app_add; done).
  rewrite fmap_app, fmap_cons in Hs. rewrite cost_app, !cost_cons in Hc. rewrite cost_cons in Hx.
  apply andb_true_iff. rewrite !internal_fits_cost. split_and!; try done.
  - by eapply keys_sorted_app_l.
  - rewrite cost_cons; lia.
  - by apply keys_sorted_app_r, (keys_sorted_app_r [_]) in Hs.
  - lia.
Qed.

(** The split nearest to the middle leaves a separator on the right. *)
Lemma internal_split_right leftmost es s :
  1 ≤ s < len es → internal_split_ok leftmost es s = true → 3 ≤ len es →
  Forall child_ok es → Forall (λ e, internal_cost e ≤ CAPACITY) es →
  (∀ s', 1 ≤ s' < len es → internal_split_ok leftmost es s' = true → Z.abs (s - len es / 2) ≤ Z.abs (s' - len es / 2)) →
  s + 1 < len es.
Proof.
  intros Hs Hok H3 Hch Hcost Hmin. apply Z.nle_gt. intros Hlast. assert (s = len es - 1) as -> by lia.
  assert (internal_split_ok leftmost es (len es - 2) = true) as Hok'.
  2: { specialize (Hmin (len es - 2) ltac:(lia) Hok'). pose proof (Z.div_mod (len es) 2). pose proof (Z.mod_pos_bound (len es) 2). lia. }
  destruct (exists_last (l:=es)) as (es1 & y & ->); [intros ->; unfold len in H3; simpl in H3; lia|].
  destruct (exists_last (l:=es1)) as (es2 & x & ->); [intros ->; unfold len in H3; simpl in H3; lia|].
  apply Forall_app in Hch as [[_ [Hx _]%Forall_cons]%Forall_app [Hy _]%Forall_cons].
  apply Forall_app in Hcost as [_ [Hcy _]%Forall_cons].
  unfold internal_split_ok in *.
  replace (Z.to_nat (len ((es2 ++ [x]) ++ [y]) - 1)) with (length (es2 ++ [x])) in Hok by (unfold len; rewrite !length_app; simpl; lia).
  replace (Z.to_nat (len ((es2 ++ [x]) ++ [y]) - 2)) with (length es2) by (unfold len; rewrite !length_app; simpl; lia).
  rewrite (list_lookup_middle (es2 ++ [x]) [] y _ eq_refl), take_app_length in Hok. apply andb_true_iff in Hok as [Hok _].
  rewrite <- app_assoc. cbn [app]. rewrite (list_lookup_middle es2 [y] x _ eq_refl), take_app_length.
  replace (drop (S (length es2)) (es2 ++ [x; y])) with [y] by (rewrite <- Nat.add_1_r, drop_app_add; done).
  apply andb_true_iff. rewrite !internal_fits_cost in *. destruct Hok as (? & Hks & [Hc2 _]%Forall_app & Hc).
  rewrite cost_app, cost_cons in Hc. pose proof (internal_cost_nonneg x). change (cost internal_cost []) with 0 in Hc.
  split_and!; try done.
  - rewrite fmap_app in Hks. by eapply keys_sorted_app_l.
  - lia.
  - apply Hx.
  - by repeat constructor.
  - by constructor.
  - rewrite cost_cons. change (cost internal_cost []) with 0. lia.
Qed.

(** Keys up to this size always leave a split. *)
Definition SMALL_KEY : Z := 1456.
#[export] Hint Unfold SMALL_KEY : consts.
Definition small_entry (e : LeafEntry) : Prop := len (le_key e) ≤ SMALL_KEY.
Definition small_sep (e : InternalEntry) : Prop := len (ie_key e) ≤ SMALL_KEY.

Lemma small_cost_len es : Forall small_sep es → CAPACITY < cost internal_cost es → 3 ≤ len es.
Proof.
  intros Hs Hc. destruct es as [|a [|b [|c es]]]; [cbn in Hc; lia|..].
  - apply Forall_cons in Hs as [Ha _]. unfold small_sep in Ha. cbn in Hc. unfold internal_cost in Hc. lia.
  - apply Forall_cons in Hs as [Ha [Hb _]%Forall_cons]. unfold small_sep in *. cbn in Hc. unfold internal_cost in Hc. lia.
  - len_simpl. pose proof (len_nonneg es). lia.
Qed.
