(* ===== verification/TreeOps.v ===== *)
(** * TreeOps: the tree operations of the overlay

    [db_at g t] says that the heap [g] holds the tree [t] and nothing else: the
    pages of the tree, of its overflow chains and of the free list are all the
    allocated pages.  The lemmas give the effect of a search and of an
    insertion, with the splits that propagate to the root, on such heaps. *)

From stdpp Require Import list_numbers.
From S2P Require Import Prelude Core Crc Page Superblock DurableFile Wal Format FormatCodec Cache StoreState Store Heap Tree Own Split.

Record db_at (g : Heap) (t : tree) (fl : list (PageId * Lsn)) : Prop := {
  db_owns : owns g (tree_pages t None ++ entries_pages (entries t)) fl [];
  db_ordered : ordered None None t;
  db_fits : fits t;
  db_root : hroot g = tid t
}.

(** Keys short enough for every split to succeed. *)
Definition small_page (x : PageId * PageData) : Prop :=
  match x.2 with
  | PLeaf _ _ es => Forall small_entry es
  | PInternal _ _ es => Forall small_sep es
  | _ => True
  end.

(** ** Searching *)

Lemma tid_pages t next : ∃ p ps, tree_pages t next = (tid t, p) :: ps.
Proof. destruct t; simpl; eauto. Qed.

(** ** Separators *)

Lemma before_lo_above lo hi b k : before_ordered lo hi b → strictly_above (before_lo lo b) k → strictly_above lo k.
Proof.
  revert lo. induction b as [|[t k1] b IH]; intros lo; simpl; [done|]. intros (_ & Hlo & _ & Hb) Hk.
  apply (IH _ Hb) in Hk. by eapply strictly_above_trans.
Qed.

Lemma before_seps_below lo hi b k hid :
  before_ordered lo hi b → strictly_above (before_lo lo b) k →
  Forall (λ e, bytes_lt (ie_key e) k = true) (before_seps b hid).
Proof.
  revert lo. induction b as [|[t k1] b IH]; intros lo; simpl; [by constructor|]. intros (_ & Hlo & _ & Hb) Hk.
  constructor; [|by eapply IH]. by apply (before_lo_above _ _ _ _ Hb) in Hk.
Qed.

(** The new separator goes between those before the hole and those after it. *)
Lemma separator_position lo hi b a k hid :
  before_ordered lo hi b → strictly_above (before_lo lo b) k → below (forest_hi a hi) k →
  partition_point (λ e, bytes_lt (ie_key e) k) (before_seps b hid ++ seps a) = length (before_seps b hid).
Proof.
  intros Hb Hlo Hhi. apply partition_point_app; [by eapply before_seps_below|].
  intros x Hx. destruct a as [|k' t a]; [done|]. injection Hx as <-. simpl in *.
  destruct (bytes_lt k' k) eqn:E; [|done]. pose proof (bytes_lt_trans _ _ _ Hhi E) as C. by rewrite bytes_lt_irrefl in C.
Qed.

Lemma insert_at_app {A} (x : A) l1 l2 : insert_at (length l1) x (l1 ++ l2) = l1 ++ x :: l2.
Proof. unfold insert_at. by rewrite take_app_length, drop_app_length. Qed.

Lemma seps_sorted lo hi f :
  forest_ordered lo hi f →
  keys_sorted (ie_key <$> seps f) ∧ Forall (λ e, strictly_above lo (ie_key e)) (seps f).
Proof.
  revert lo. induction f as [|k t f IH]; intros lo; simpl; [by repeat constructor|].
  intros (Hlo & _ & _ & Hf). apply IH in Hf as [Hs Hall]. split.
  - constructor; [done|]. by rewrite Forall_fmap.
  - constructor; [done|]. eapply Forall_impl; [exact Hall|]. intros e He. by eapply strictly_above_trans.
Qed.

Lemma forest_ordered_raise lo hi f k :
  forest_ordered lo hi f → below (forest_hi f hi) k → forest_ordered (Some k) hi f ∧ below hi k.
Proof. destruct f as [|k' t f]; simpl; [done|]. intros (_ & Hhi & Ht & Hf) Hk. split; [done|]. by eapply below_weaken. Qed.

Lemma seps_tids f : Forall (λ e, ∀ next, right_child e ∈ (forest_pages f next).*1) (seps f).
Proof.
  induction f as [|k t f IH]; simpl; constructor.
  - intros next. destruct (tid_pages t (first_or f next)) as (p & ps & ->). simpl. set_solver.
  - eapply Forall_impl; [exact IH|]. intros e He next. rewrite fmap_app. specialize (He next). set_solver.
Qed.

(** ** Insertion *)

(** A split in progress: [k] and the subtree [R] are to be inserted behind [L],
    which fills the hole of [c]. *)
Record pending (g : Heap) (c : list frame) (L : tree) (k : list byte) (R : tree)
    (V : list (PageId * PageData)) (fl : list (PageId * Lsn)) (lim : list PageId) : Prop := {
  pd_owns : owns g (ctx_pages c (tid L) (first_leaf L) None ++ tree_pages L (Some (first_leaf R)) ++
                    tree_pages R (ctx_next c None) ++ V) fl lim;
  pd_left : ordered (ctx_lo c) (Some k) L;
  pd_right : ordered (Some k) (ctx_hi c) R;
  pd_lo : strictly_above (ctx_lo c) k;
  pd_hi : below (ctx_hi c) k;
  pd_key : encodable k ∧ SLOT_SIZE + INTERNAL_RECORD_HEADER_SIZE + len k ≤ CAPACITY;
  pd_fits_left : fits L;
  pd_fits_right : fits R;
  pd_ctx : ctx_ordered c;
  pd_ctx_fits : ctx_fits c (tid L);
  pd_root : hroot g = tid (plug c L)
}.

(** The heap holds a whole tree with the entries [es], of depth [D] or one
    more; at most [n] pages are new. *)
Definition inserted (g g' : Heap) (n : Z) (D : nat) (es : list gentry) (V : list (PageId * PageData))
    (lim : list PageId) (small : Prop) : Prop :=
  ∃ t' fl', owns g' (tree_pages t' None ++ V) fl' lim ∧ ordered None None t' ∧ fits t' ∧
    hroot g' = tid t' ∧ entries t' = es ∧ (hlast g' = hlast g ∧ hnext g' = hnext g) ∧
    hhw g ≤ hhw g' ≤ hhw g + n ∧ (bal D t' ∨ bal (S D) t') ∧ (small → Forall small_page (tree_pages t' None)).

Lemma owns_root x g T fl lim : owns g T fl lim → owns (heap_root x g) T fl lim.
Proof. intros []. by split. Qed.

Lemma plug_tid c h h' : tid h = tid h' → tid (plug c h) = tid (plug c h').
Proof. revert h h'. induction c as [|fr c IH]; intros h h' E; [done|]. by apply IH. Qed.

Lemma root_range g t next T fl lim : owns g (tree_pages t next ++ T) fl lim → in_range g (tid t).
Proof.
  intros O. apply (owns_in_range _ _ _ _ O). destruct (tid_pages t next) as (p & ps & ->). simpl. set_solver.
Qed.

Lemma above_lt lo k k' : above lo k → bytes_lt k k' = true → strictly_above lo k'.
Proof. destruct lo; simpl; [|done]. intros. by eapply bytes_le_lt_trans. Qed.

Lemma entry_keys (es : list gentry) : le_key <$> (entry_of <$> es) = ge_key <$> es.
Proof. by rewrite <- list_fmap_compose. Qed.

(** The halves of a leaf, as subtrees around the new separator. *)
Lemma leaf_halves lo hi (es1 es2 : list gentry) e1 e2 id1 id2 rv :
  keys_sorted (ge_key <$> (e1 :: es1) ++ e2 :: es2) → Forall (within lo hi) ((e1 :: es1) ++ e2 :: es2) →
  ordered lo (Some (ge_key e2)) (Lf id1 rv (e1 :: es1)) ∧ ordered (Some (ge_key e2)) hi (Lf id2 rv (e2 :: es2)) ∧
  strictly_above lo (ge_key e2) ∧ below hi (ge_key e2).
Proof.
  intros Hs Hw. rewrite fmap_app in Hs. apply keys_sorted_app in Hs as (Hs1 & Hs2 & Hlt).
  apply Forall_app in Hw as [Hw1 Hw2].
  assert (∀ e, e ∈ e1 :: es1 → bytes_lt (ge_key e) (ge_key e2) = true) as Hlt'.
  { intros e He. apply Hlt; apply list_elem_of_fmap; eexists; split; [done|done|done|set_solver]. }
  pose proof Hw2 as [[Ha2 Hb2] Hw2']%Forall_cons. split_and!; [split; [done|]|split; [done|]| |done].
  - apply Forall_forall. intros e He. eapply Forall_forall in Hw1 as [Ha _]; [|exact He]. simpl. auto.
  - rewrite fmap_cons in Hs2. apply StronglySorted_inv in Hs2 as [_ Hgt]. rewrite Forall_fmap in Hgt.
    constructor; [split; [apply bytes_le_lteq; by right|done]|]. rewrite Forall_forall in Hgt, Hw2'. apply Forall_forall.
    intros e He. split; [apply bytes_le_lteq; left; by apply Hgt|by apply Hw2'].
  - eapply above_lt; [|apply (Hlt' e1); set_solver]. by apply Forall_cons in Hw1 as [[? _] _].
Qed.

Lemma leaf_sep_key e es :
  leaf_ok (entry_of <$> e :: es) →
  encodable (ge_key e) ∧ SLOT_SIZE + INTERNAL_RECORD_HEADER_SIZE + len (ge_key e) ≤ CAPACITY.
Proof.
  intros (_ & Henc & Hsize). rewrite fmap_cons in Henc. apply Forall_cons in Henc as [Henc _]. split; [done|].
  rewrite leaf_size_cost, fmap_cons, cost_cons in Hsize. pose proof (cost_nonneg leaf_cost (entry_of <$> es) leaf_cost_nonneg).
  unfold leaf_cost at 1, leaf_record_size in Hsize. pose proof (len_nonneg (inline_bytes (le_value (entry_of e)))). cbn in *. lia.
Qed.

Lemma small_leaf_cost e : val_ok (ge_val e) → small_entry (entry_of e) → leaf_cost (entry_of e) ≤ CAPACITY / 2.
Proof.
  intros Hv Hs. assert (CAPACITY / 2 = 2016) as -> by done. unfold small_entry, leaf_cost, leaf_record_size in *.
  destruct e as [k r [|bytes|links]]; cbn in *; len_simpl; lia.
Qed.

Section ops.
Context `{Crc32c} {F W I : Type} `{DFL : DurableFileLaws F}.
Context (s0 : BTreeStore F W I) (env : Env).
Hypothesis base_committed : ∀ id p, e_base env !! id = Some p → committed_page s0 id p.

Abbreviation wp := (wp s0 env).
Abbreviation wpr := (wpr s0 env).

Lemma find_leaf_loop_wp key g fuel h c next route visited :
  (∀ x, x ∈ tree_pages h next → hp g !! x.1 = Some x.2 ∧ in_range g x.1) →
  NoDup (tree_pages h next).*1 → (∀ x, x ∈ tree_pages h next → x.1 ∉ visited) →
  (length (tree_pages h next) ≤ fuel)%nat →
  ordered (ctx_lo c) (ctx_hi c) h → above (ctx_lo c) key → below (ctx_hi c) key →
  wp g (find_leaf_loop fuel key (tid h) route visited) (λ r g', g' = g ∧ ∃ c' lsn es,
    h = plug c' (Lf r.1 lsn es) ∧ r.2 = route ++ rev (fr_id <$> c') ++ [r.1] ∧
    above (ctx_lo (c' ++ c)) key ∧ below (ctx_hi (c' ++ c)) key).
Proof.
  revert h c next route visited. induction fuel as [|fuel IH]; intros h c next route visited Hp Hnd Hvis Hfuel Ho Ha Hb.
  { destruct (tid_pages h next) as (p & ps & E). rewrite E in Hfuel. simpl in Hfuel. lia. }
  cbn [find_leaf_loop]. destruct h as [id lsn es|id lsn t f]; cbn [tid].
  - destruct (Hp (id, PLeaf lsn next (entry_of <$> es))) as [Hpg Hr]; [set_solver|].
    rewrite bool_decide_eq_false_2 by (apply (Hvis (id, PLeaf lsn next (entry_of <$> es))); set_solver). cbn [negb].
    eapply wp_runs_bind; [by apply page_runs|]. apply wp_ret. split; [done|]. by exists [], lsn, es.
  - destruct Ho as [Hot Hof]. destruct (child_for_spec key t f _ _ Hof Ha Hb) as (b & h & a & E & Hc & Ha' & Hb').
    set (fr := mkFrame_ id lsn b a). assert (Nd id lsn t f = fill fr h) as Efill by (unfold fill; simpl; by rewrite E).
    destruct (Hp (id, PInternal lsn (tid t) (seps f))) as [Hpg Hr]; [simpl; set_solver|].
    rewrite bool_decide_eq_false_2 by (apply (Hvis (id, PInternal lsn (tid t) (seps f))); simpl; set_solver). cbn [negb].
    eapply wp_runs_bind; [by apply page_runs|]. cbn. eapply wp_runs_bind; [by apply runs_lift|].
    rewrite Efill, fill_pages in Hp, Hnd, Hvis, Hfuel. cbn [length fr_id fr] in Hfuel.
    rewrite !length_app in Hfuel. rewrite fmap_cons, !fmap_app in Hnd. apply NoDup_cons in Hnd as [Hid Hnd].
    apply NoDup_app in Hnd as (_ & _ & Hnd). apply NoDup_app in Hnd as (Hnd & _ & _).
    pose proof (proj1 (kids_ordered (ctx_lo c) (ctx_hi c) b h a)) as Hk. rewrite E in Hk. destruct (Hk (conj Hot Hof)) as (_ & Hoh & _).
    eapply wp_mono; [apply (IH h (fr :: c) (first_or a next) (route ++ [id]) ({[id]} ∪ visited)); try done|].
    + intros x Hx. apply Hp. set_solver.
    + intros x Hx. rewrite not_elem_of_union, not_elem_of_singleton. split; [|apply Hvis; set_solver].
      intros <-. apply Hid. rewrite !elem_of_app. right. left. apply list_elem_of_fmap. by exists x.
    + simpl in *. lia.
    + intros r g' (-> & c' & lsn' & es & -> & Hroute & Hlo & Hhi). split; [done|].
      exists (c' ++ [fr]), lsn', es. rewrite plug_app. split; [done|].
      rewrite <- app_assoc. split; [|done]. rewrite Hroute, fmap_app, rev_app_distr, <- !app_assoc. done.
Qed.

Lemma owns_length g T fl lim : owns g T fl lim → (length T ≤ Z.to_nat (hhw g))%nat.
Proof.
  intros O. pose proof (Permutation_length (own_ids _ _ _ _ O)) as Hl.
  rewrite !length_app, !length_fmap, length_seqZ in Hl. lia.
Qed.

(** A search ends in the leaf whose bounds contain the key. *)
Lemma find_leaf_wp key g t fl :
  db_at g t fl →
  wp g (find_leaf key) (λ r g', g' = g ∧ ∃ c lsn es,
    t = plug c (Lf r.1 lsn es) ∧ r.2 = rev (fr_id <$> c) ++ [r.1] ∧ above (ctx_lo c) key ∧ below (ctx_hi c) key).
Proof.
  intros [O Ho Hf Hr]. unfold find_leaf. eapply wp_runs_bind; [by apply runs_fuel|].
  eapply wp_runs_bind; [apply runs_gets; intros o R; apply R|]. rewrite Hr.
  eapply wp_mono; [apply (find_leaf_loop_wp key g _ t [] None [] ∅)|]; try done.
  - intros [id p] Hx. apply (owns_page _ _ _ _ O). set_solver.
  - pose proof (owns_NoDup _ _ _ _ O) as Hnd. rewrite fmap_app, <- app_assoc in Hnd. by apply NoDup_app in Hnd as [Hnd _].
  - apply owns_length in O. rewrite length_app in O. lia.
  - intros r g' (-> & c & lsn & es & Ht & Hroute & Ha & Hb). rewrite app_nil_r in Ha, Hb. split; [done|]. by exists c, lsn, es.
Qed.

(** The root splits. *)
Lemma new_root_wp rev g L k R V fl lim d (small : Prop) :
  pending g [] L k R V fl lim → bal d L ∧ bal d R → 1 ≤ hhw g < U64_MAX →
  (small → Forall small_page (tree_pages L (Some (first_leaf R)) ++ tree_pages R None) ∧ len k ≤ SMALL_KEY) →
  wp g (insert_parent_separator_loop [] k (tid R) rev)
    (λ _ g', inserted g g' 1 d (entries L ++ entries R) V lim small).
Proof.
  intros [O HL HR _ _ [Hk Hroom] FL FR _ _ Hroot] [BL BR] Hhw Hsmall. simpl in *.
  apply wp_bind. eapply wp_mono; [eapply (allocate_wp _ _ base_committed); [exact O|done]|].
  intros id g1 (fl1 & O1 & (M1 & M2 & M3) & B1).
  eapply wp_runs_bind; [apply runs_gets; intros o Ro; apply Ro|]. rewrite M1, Hroot.
  eapply wp_runs_bind; [by apply replace_page_runs|].
  eapply wp_runs; [apply (runs_modify _ _ _ (heap_root id (heap_put id (PInternal rev (tid L) [mkInternalEntry k (tid R)]) g1))); intros o []; by split|].
  exists (Nd id rev L (FCons k R FNil)), fl1. simpl.
  assert (in_range g (tid L)) as [HL2 _] by (by eapply root_range).
  assert (in_range g (tid R)) as [HR2 _] by (eapply root_range, owns_perm; [exact O|apply Permutation_app_swap_app|done]).
  split_and!; try done; try lia.
  - apply owns_root. rewrite app_nil_r, <- !app_assoc. by apply owns_write.
  - split; [|done]. apply internal_fits_spec, internal_fits_cost. split_and!; [lia|repeat constructor| |].
    + constructor; [split; simpl; [done|lia]|constructor].
    + unfold cost, internal_cost. simpl. lia.
  - by rewrite app_nil_r.
  - by right.
  - intros [Hall Hks]%Hsmall. rewrite app_nil_r. constructor; [|done]. by repeat constructor.
Qed.

(** The node above a split, with the new separator, whether it fits or not. *)
Section node.
Context (g : Heap) (fr : frame) (c : list frame) (L : tree) (k : list byte) (R : tree).
Context (V : list (PageId * PageData)) (fl : list (PageId * Lsn)) (lim : list PageId).
Hypothesis P : pending g (fr :: c) L k R V fl lim.
Context (d : nat).
Hypothesis B : bal d L ∧ bal d R ∧ ctx_bal d (fr :: c).

Definition node_child : tree := (kids (fr_before fr) L (FCons k R (fr_after fr))).1.
Definition node_rest : forest := (kids (fr_before fr) L (FCons k R (fr_after fr))).2.
Definition node_old : PageData :=
  PInternal (fr_lsn fr) (leftmost_id (fr_before fr) (tid L)) (before_seps (fr_before fr) (tid L) ++ seps (fr_after fr)).
Definition node_pages : list (PageId * PageData) :=
  tree_pages node_child (first_or node_rest (ctx_next c None)) ++ forest_pages node_rest (ctx_next c None).

Lemma node_tid : tid node_child = leftmost_id (fr_before fr) (tid L).
Proof. apply kids_tid. Qed.
Lemma node_seps :
  seps node_rest = before_seps (fr_before fr) (tid L) ++ mkInternalEntry k (tid R) :: seps (fr_after fr).
Proof. apply kids_seps. Qed.

Lemma node_nonempty : seps node_rest ≠ [].
Proof. rewrite node_seps. by destruct (before_seps _ _). Qed.

Lemma node_perm :
  ctx_pages (fr :: c) (tid L) (first_leaf L) None ++ tree_pages L (Some (first_leaf R)) ++
    tree_pages R (ctx_next (fr :: c) None) ≡ₚ
  (fr_id fr, node_old) :: ctx_pages c (fr_id fr) (first_leaf node_child) None ++ node_pages.
Proof.
  unfold node_pages, node_child, node_rest. rewrite kids_pages, kids_first_leaf. simpl. solve_Permutation.
Qed.

Lemma node_owns : owns g ((fr_id fr, node_old) :: ctx_pages c (fr_id fr) (first_leaf node_child) None ++ node_pages ++ V) fl lim.
Proof.
  eapply owns_perm; [apply (pd_owns _ _ _ _ _ _ _ _ P)| |done]. rewrite !app_assoc, <- (app_assoc _ _ (tree_pages R _)).
  rewrite node_perm. simpl. by rewrite <- app_assoc.
Qed.

Lemma node_ordered : ordered (ctx_lo c) (forest_hi node_rest (ctx_hi c)) node_child ∧ forest_ordered (ctx_lo c) (ctx_hi c) node_rest.
Proof.
  destruct P as [O HL HR Hlo Hhi Hk FL FR [[Hb Ha] Hc] Hcf Hroot]. simpl in *. apply kids_ordered.
  destruct (forest_ordered_raise _ _ _ _ Ha Hhi). simpl. done.
Qed.

Lemma node_fits : fits node_child ∧ forest_fits node_rest.
Proof.
  destruct P as [O HL HR Hlo Hhi Hk FL FR _ [(_ & Hb & Ha) _] Hroot]. apply kids_fits. simpl. done.
Qed.

Lemma node_bal : bal d node_child ∧ forest_bal d node_rest.
Proof. destruct B as (BL & BR & [Hb Ha] & _). apply kids_bal. simpl. done. Qed.

Lemma node_entries : entries node_child ++ forest_entries node_rest =
  before_entries (fr_before fr) ++ entries L ++ entries R ++ forest_entries (fr_after fr).
Proof. unfold node_child, node_rest. by rewrite kids_entries. Qed.

Lemma node_position :
  insert_at (partition_point (λ e, bytes_lt (ie_key e) k) (before_seps (fr_before fr) (tid L) ++ seps (fr_after fr)))
    (mkInternalEntry k (tid R)) (before_seps (fr_before fr) (tid L) ++ seps (fr_after fr)) = seps node_rest.
Proof.
  destruct P as [O HL HR Hlo Hhi Hk FL FR [[Hb Ha] Hc] Hcf Hroot]. simpl in *.
  erewrite separator_position by done. by rewrite insert_at_app, node_seps.
Qed.

(** What is missing for the node to fit is only room. *)
Lemma node_seps_ok :
  2 ≤ tid node_child ∧ keys_sorted (ie_key <$> seps node_rest) ∧ Forall child_ok (seps node_rest) ∧
  Forall (λ e, internal_cost e ≤ CAPACITY) (seps node_rest) ∧
  cost internal_cost (seps node_rest) ≤ CAPACITY + (SLOT_SIZE + INTERNAL_RECORD_HEADER_SIZE + len k).
Proof.
  pose proof (seps_sorted _ _ _ (proj2 node_ordered)) as [Hs _].
  destruct P as [O HL HR Hlo Hhi [Hk Hroom] FL FR _ [(((Hl & _ & Hch & Hsize) & _) & _) _] Hroot].
  assert (in_range g (tid R)) as [HR2 _].
  { apply (root_range g R (ctx_next (fr :: c) None)
      (ctx_pages (fr :: c) (tid L) (first_leaf L) None ++ tree_pages L (Some (first_leaf R)) ++ V) fl lim).
    eapply owns_perm; [exact O| |done]. generalize (ctx_pages (fr :: c) (tid L) (first_leaf L) None).
    intros. solve_Permutation. }
  rewrite internal_size_cost, cost_app in Hsize. split; [by rewrite node_tid|]. split; [done|]. rewrite node_seps.
  apply Forall_app in Hch as [Hch1 Hch2]. split; [apply Forall_app; split; [done|constructor; [by split|done]]|].
  assert (∀ l, cost internal_cost l ≤ CAPACITY → Forall (λ e, internal_cost e ≤ CAPACITY) l) as Hcost.
  { intros l. induction l as [|e l IH]; [constructor|]. rewrite cost_cons. pose proof (internal_cost_nonneg e).
    pose proof (cost_nonneg internal_cost l internal_cost_nonneg). constructor; [lia|]. apply IH. lia. }
  pose proof (cost_nonneg internal_cost (before_seps (fr_before fr) (tid L)) internal_cost_nonneg).
  pose proof (cost_nonneg internal_cost (seps (fr_after fr)) internal_cost_nonneg). split.
  - apply Forall_app. split; [apply Hcost; lia|]. constructor; [unfold internal_cost; simpl; lia|apply Hcost; lia].
  - rewrite cost_app, cost_cons. unfold internal_cost at 2. simpl. lia.
Qed.

Lemma node_small :
  Forall small_page (ctx_pages (fr :: c) (tid L) (first_leaf L) None ++ tree_pages L (Some (first_leaf R)) ++
    tree_pages R (ctx_next (fr :: c) None)) → len k ≤ SMALL_KEY →
  Forall small_sep (seps node_rest) ∧
  Forall small_page (ctx_pages c (fr_id fr) (first_leaf node_child) None ++ node_pages).
Proof.
  rewrite node_perm. intros [Hold Hall]%Forall_cons Hk. split; [|done]. unfold small_page in Hold. cbn in Hold.
  rewrite node_seps. apply Forall_app in Hold as [H1 H2]. apply Forall_app. split; [done|]. by constructor.
Qed.

(** The node fits: the insertion is complete. *)
Lemma node_fit_inserted rev (small : Prop) :
  node_ok (tid node_child) (seps node_rest) →
  (small → Forall small_page (ctx_pages (fr :: c) (tid L) (first_leaf L) None ++ tree_pages L (Some (first_leaf R)) ++
    tree_pages R (ctx_next (fr :: c) None)) ∧ len k ≤ SMALL_KEY) →
  inserted g (heap_put (fr_id fr) (PInternal rev (tid node_child) (seps node_rest)) g) 0 (length c + S d)
    (ctx_left (fr :: c) ++ entries L ++ entries R ++ ctx_right (fr :: c)) V lim small.
Proof.
  intros Hok Hsmall. exists (plug c (Nd (fr_id fr) rev node_child node_rest)), fl.
  pose proof P as [_ _ _ _ _ _ _ _ [_ Hc] [_ Hcf] Hroot].
  assert (tree_pages (plug c (Nd (fr_id fr) rev node_child node_rest)) None ≡ₚ
    (fr_id fr, PInternal rev (tid node_child) (seps node_rest)) ::
    ctx_pages c (fr_id fr) (first_leaf node_child) None ++ node_pages) as Hperm.
  { rewrite plug_pages. cbn [tid first_leaf tree_pages]. fold node_pages. solve_Permutation. }
  split_and!; cbn [hhw heap_put hlast hnext hroot]; try lia; try done.
  - eapply owns_perm; [eapply owns_replace, node_owns| |done]. rewrite Hperm. simpl. by rewrite <- app_assoc.
  - apply plug_ordered. split; [apply node_ordered|done].
  - apply plug_fits. split; [|done]. split; [done|apply node_fits].
  - rewrite Hroot. by apply (plug_tid c (fill fr L)).
  - rewrite plug_entries. cbn [entries ctx_left ctx_right]. rewrite node_entries, <- !app_assoc. done.
  - left. apply plug_bal. destruct B as (_ & _ & _ & Bc). split; [apply node_bal|done].
  - intros [H1 H2]%Hsmall. destruct (node_small H1 H2). rewrite Hperm. by constructor.
Qed.

(** The node is split: its right half is pending at the node above. *)
Lemma node_split_pending rev (s : nat) e right_id g1 fl1
    (left := PInternal rev (tid node_child) (take s (seps node_rest)))
    (right := PInternal rev (right_child e) (drop (S s) (seps node_rest))) :
  seps node_rest !! s = Some e →
  node_ok (tid node_child) (take s (seps node_rest)) → node_ok (right_child e) (drop (S s) (seps node_rest)) →
  owns g1 ((fr_id fr, node_old) :: ctx_pages c (fr_id fr) (first_leaf node_child) None ++ node_pages ++ V) fl1
    (right_id :: lim) → same_meta g g1 →
  ∃ L' R', pending (heap_put right_id right (heap_put (fr_id fr) left g1)) c L' (ie_key e) R' V fl1 lim ∧
    (bal (S d) L' ∧ bal (S d) R') ∧ tid R' = right_id ∧
    ctx_left c ++ entries L' ++ entries R' ++ ctx_right c =
      ctx_left (fr :: c) ++ entries L ++ entries R ++ ctx_right (fr :: c) ∧
    ctx_pages c (tid L') (first_leaf L') None ++ tree_pages L' (Some (first_leaf R')) ++ tree_pages R' (ctx_next c None) ≡ₚ
    (right_id, right) :: (fr_id fr, left) :: ctx_pages c (fr_id fr) (first_leaf node_child) None ++ node_pages.
Proof.
  intros He Hleft Hright O1 (M1 & _ & _).
  destruct (forest_cut _ _ _ He) as (f1 & tm & f2 & Hf & Htm & E1 & E2).
  pose proof node_ordered as [Hot Hof]. pose proof node_fits as [Hft Hff]. pose proof node_bal as [Hbt Hbf]. pose proof node_entries as Hen.
  destruct node_seps_ok as (_ & _ & Hch & Hcost & _).
  assert (encodable (ie_key e) ∧ internal_cost e ≤ CAPACITY) as [Hek Hec].
  { apply list_elem_of_lookup_2 in He. eapply Forall_forall in Hch as [? _]; [|exact He].
    by eapply Forall_forall in Hcost; [|exact He]. }
  pose proof P as [_ _ _ _ _ _ _ _ [_ Hc] [_ Hcf] Hroot].
  unfold left, right. rewrite <- E1, <- E2, <- Htm in *. unfold node_pages in *. rewrite Hf in *.
  rewrite forest_hi_app in Hot. apply forest_ordered_split in Hof as (Hk1 & Hk2 & Hof1 & Hotm & Hof2).
  rewrite forest_bal_app in Hbf. rewrite forest_fits_app in Hff. destruct Hff as [Hff1 [Hftm Hff2]]. rewrite forest_entries_app in Hen. simpl in *.
  rewrite forest_pages_app, first_or_app in *. simpl in *.
  exists (Nd (fr_id fr) rev node_child f1), (Nd right_id rev tm f2). split; [|split; [simpl; tauto|split; [done|split]]].
  - split; try done.
    + eapply owns_perm; [eapply owns_write, owns_perm; [eapply owns_replace, O1|done|done]| |done].
      simpl. solve_Permutation.
    + simpl. rewrite M1, Hroot. by apply (plug_tid c (fill fr L)).
  - simpl. apply (f_equal (λ l, l ++ ctx_right c)) in Hen. rewrite <- !app_assoc in Hen. by rewrite <- !app_assoc, Hen.
  - simpl. solve_Permutation.
Qed.

End node.

Lemma inserted_mono g1 g g' n m D es V lim (small small' : Prop) :
  inserted g1 g' n D es V lim small → (small' → small) → (hlast g1 = hlast g ∧ hnext g1 = hnext g) →
  hhw g ≤ hhw g1 → hhw g1 + n ≤ hhw g + m → inserted g g' m D es V lim small'.
Proof.
  intros (t & fl & O & Ho & Hf & Hr & He & [H1 H2] & Hb & Hd & Hs) Himp [M1 M2] B1 B2. exists t, fl.
  split_and!; try done; try lia; [congruence|auto].
Qed.

Lemma take_nonempty {A} (l : list A) n : (0 < n)%nat → (n ≤ length l)%nat → take n l ≠ [].
Proof. destruct n, l; simpl; done || lia. Qed.
Lemma drop_nonempty {A} (l : list A) n : (n < length l)%nat → drop n l ≠ [].
Proof. intros Hn E. apply (f_equal length) in E. rewrite length_drop in E. simpl in E. lia. Qed.

(** When small separators overfill a node, a split exists. *)
Lemma node_split_small leftmost es x :
  2 ≤ leftmost → keys_sorted (ie_key <$> es) → Forall child_ok es → Forall (λ e, internal_cost e ≤ CAPACITY) es →
  cost internal_cost es ≤ CAPACITY + x → x ≤ CAPACITY → internal_fits leftmost es = false →
  Forall small_sep es → 3 ≤ len es ∧ ∃ s, 1 ≤ s < len es ∧ internal_split_ok leftmost es s = true.
Proof.
  intros Hl Hs Hch Hc Hx HxC Hno Hsm. assert (CAPACITY < cost internal_cost es) as Hover.
  { apply Z.nle_gt. intros Hle. apply not_true_iff_false in Hno. apply Hno, internal_fits_cost. done. }
  split; [by apply small_cost_len|]. apply (internal_split_exists _ _ x); try done.
  intros e He. eapply Forall_forall in Hc; [exact Hc|]. destruct es; [done|]. injection He as ->. set_solver.
Qed.

Lemma insert_parent_wpr rev c g L k R V fl lim d (small : Prop) :
  pending g c L k R V fl lim → bal d L ∧ bal d R ∧ ctx_bal d c → 1 ≤ hhw g → hhw g + len c < U64_MAX →
  (small → Forall small_page (ctx_pages c (tid L) (first_leaf L) None ++ tree_pages L (Some (first_leaf R)) ++
     tree_pages R (ctx_next c None)) ∧ len k ≤ SMALL_KEY) →
  wpr (¬ small) g (insert_parent_separator_loop (fr_id <$> c) k (tid R) rev)
    (λ _ g', inserted g g' (len c + 1) (length c + d) (ctx_left c ++ entries L ++ entries R ++ ctx_right c) V lim small).
Proof.
  revert g L k R fl d. induction c as [|fr c IH]; intros g L k R fl d P B Hhw Hroom Hsmall; len_simpl.
  { apply wpr_wp. simpl. rewrite app_nil_r. by eapply new_root_wp; [|tauto|lia|]. }
  simpl length. rewrite Nat.add_succ_comm.
  pose proof (len_nonneg c). pose proof (node_owns _ _ _ _ _ _ _ _ _ P) as O.
  destruct (node_seps_ok _ _ _ _ _ _ _ _ _ P) as (Hc1 & Hc2 & Hc3 & Hc4 & Hc5).
  rewrite fmap_cons. cbn [insert_parent_separator_loop].
  destruct (owns_page _ _ _ _ O (fr_id fr) (node_old fr L)) as [Hp Hr]; [set_solver|].
  eapply wpr_runs_bind; [by eapply internal_runs|]. cbn [ip_leftmost_child ip_entries].
  rewrite (node_position _ _ _ _ _ _ _ _ _ P), <- (node_tid fr L k R).
  destruct (internal_fits (tid (node_child fr L k R)) (seps (node_rest fr L k R))) eqn:Hfits.
  { apply wpr_wp. eapply wp_runs; [by apply replace_page_runs|].
    eapply inserted_mono; [eapply (node_fit_inserted _ _ _ _ _ _ _ _ _ P d B); [split; [by apply internal_fits_spec|apply node_nonempty]|done]|..]; try done; simpl; lia. }
  set (entries := seps (node_rest fr L k R)) in *. set (leftmost := tid (node_child fr L k R)) in *.
  pose proof (pd_key _ _ _ _ _ _ _ _ P) as [_ Hkc].
  destruct (choose_internal_split_cases leftmost entries) as [(s & Es & Hs & Hok & H3 & Hmin)|(e & Es & Hno)].
  2: { apply wpr_bind. eapply wpr_lift_Err; [|done]. intros Hsm. apply Hsmall in Hsm as [Hsm1 Hsm2].
    destruct (node_small _ _ _ _ _ Hsm1 Hsm2) as [Hss _].
    destruct (node_split_small leftmost entries _ Hc1 Hc2 Hc3 Hc4 Hc5 Hkc Hfits Hss) as (H3 & s & Hs & Hok).
    by rewrite Hno in Hok. }
  pose proof (internal_split_right leftmost entries s Hs Hok H3 Hc3 Hc4 Hmin) as Hright.
  assert (take (Z.to_nat s) entries ≠ [] ∧ drop (S (Z.to_nat s)) entries ≠ []) as [Hne1 Hne2]
    by (split; [apply take_nonempty|apply drop_nonempty]; unfold len in *; lia).
  eapply wpr_runs_bind; [by apply runs_lift|]. unfold internal_split_ok in Hok.
  destruct (entries !! Z.to_nat s) as [e|] eqn:He; [|done]. apply andb_true_iff in Hok as [Hok1 Hok2].
  eapply wpr_runs_bind; [apply runs_lift; unfold index; rewrite (proj2 (Z.leb_le _ _)) by lia; by rewrite He|].
  apply wpr_wp_bind. eapply wp_mono; [eapply (allocate_wp _ _ base_committed); [exact O|lia]|].
  intros right_id g1 (fl1 & O1 & M1 & B1).
  eapply wpr_runs_bind; [apply runs_lift; apply slice_to; lia|].
  eapply wpr_runs_bind; [apply runs_lift; apply slice_from; lia|].
  replace (Z.to_nat (s + 1)) with (S (Z.to_nat s)) by lia. rewrite Hok1, Hok2. cbn [negb orb].
  eapply wpr_runs_bind; [by apply replace_page_runs|]. eapply wpr_runs_bind; [by apply replace_page_runs|].
  destruct (node_split_pending _ _ _ _ _ _ _ _ _ P d B rev _ e right_id g1 fl1 He) as (L' & R' & P' & [BL BR] & Hid & Hen & Hperm);
    [by split; [apply internal_fits_spec|]..|done|done|].
  subst right_id. destruct M1 as (M1 & M2 & M3).
  eapply wpr_mono; [eapply (IH _ _ _ _ _ (S d) P')|exact id|]; cbn [hhw heap_put] in *; try lia.
  - destruct B as (_ & _ & _ & Bc). done.
  - intros Hsm. apply Hsmall in Hsm as [Hsm1 Hsm2]. destruct (node_small _ _ _ _ _ Hsm1 Hsm2) as [Hss Hps]. rewrite Hperm. split.
    + constructor; [by apply Forall_drop|]. constructor; [by apply Forall_take|]. done.
    + eapply Forall_lookup in Hss; [|exact He]. done.
  - intros _ g' Hins. rewrite <- Hen. eapply inserted_mono; [exact Hins|..]; simpl; try done; lia.
Qed.

Lemma insert_leaf_wpr rv c g id p es V fl lim (small : Prop) :
  owns g (ctx_pages c id id None ++ (id, p) :: V) fl lim → ctx_ordered c → ctx_fits c id →
  hroot g = tid (plug c (Lf id rv es)) → 1 ≤ hhw g → hhw g + len c + 1 < U64_MAX →
  ctx_bal 0 c → keys_sorted (ge_key <$> es) → Forall (within (ctx_lo c) (ctx_hi c)) es →
  Forall (λ e, val_ok (ge_val e)) es → Forall (λ e, encodable (le_key e)) (entry_of <$> es) →
  (small → Forall small_page (ctx_pages c id id None) ∧ Forall small_entry (entry_of <$> es) ∧
           cost leaf_cost (entry_of <$> es) ≤ CAPACITY + CAPACITY / 2) →
  wpr (¬ small) g (insert_leaf_entries id (rev (fr_id <$> c) ++ [id]) (mkLeafPage (ctx_next c None) (entry_of <$> es)) rv)
    (λ _ g', inserted g g' (len c + 2) (length c) (ctx_left c ++ es ++ ctx_right c) V lim small).
Proof.
  intros O Hc Hcf Hroot Hhw Hroom Bc Hs Hw Hv Henc Hsmall. pose proof (len_nonneg c).
  assert (owns g ((id, p) :: ctx_pages c id id None ++ V) fl lim) as O' by (eapply owns_perm; [exact O|solve_Permutation|done]).
  unfold insert_leaf_entries. cbn [lp_next_leaf lp_entries].
  destruct (leaf_fits (entry_of <$> es)) eqn:Hfits.
  { apply wpr_wp. eapply wp_runs; [by apply replace_page_runs|]. apply leaf_fits_spec in Hfits.
    exists (plug c (Lf id rv es)), fl. split_and!; cbn [hhw heap_put hlast hnext hroot]; try lia; try done.
    - eapply owns_perm; [eapply owns_replace, O'| |done]. rewrite plug_pages. simpl. solve_Permutation.
    - by apply plug_ordered.
    - by apply plug_fits.
    - apply plug_entries.
    - left. rewrite <- (Nat.add_0_r (length c)). by apply plug_bal.
    - intros (Hsm1 & Hsm2 & _)%Hsmall. rewrite plug_pages. apply Forall_app. split; [done|]. by repeat constructor. }
  destruct (choose_leaf_split_cases (entry_of <$> es)) as [(s & Es & Hsr & Hok)|(e & Es & Hno)].
  2: { apply wpr_bind. eapply wpr_lift_Err; [|done]. intros (Hsm1 & Hsm2 & Hsm3)%Hsmall.
    destruct (leaf_split_exists (entry_of <$> es) (CAPACITY / 2)) as (s & Hsr & Hok); [by rewrite entry_keys| | |done|].
    - rewrite Forall_forall in Henc, Hsm2. apply Forall_forall. intros x Hx. split; [auto|].
      apply list_elem_of_fmap in Hx as (e' & -> & He'). rewrite Forall_forall in Hv.
      apply small_leaf_cost; [auto|]. apply Hsm2, list_elem_of_fmap. by exists e'.
    - split; [|done]. apply Z.nle_gt. intros Hle. apply not_true_iff_false in Hfits.
      apply Hfits, leaf_fits_cost. by rewrite entry_keys.
    - by rewrite Hno in Hok. }
  eapply wpr_runs_bind; [by apply runs_lift|].
  apply wpr_wp_bind. eapply wp_mono; [eapply (allocate_wp _ _ base_committed); [exact O'|lia]|].
  intros right_id g1 (fl1 & O1 & (M1 & M2 & M3) & B1).
  eapply wpr_runs_bind; [apply runs_lift; apply slice_to; lia|].
  eapply wpr_runs_bind; [apply runs_lift; apply slice_from; lia|].
  unfold leaf_split_ok in Hok. apply andb_true_iff in Hok as [Hok1 Hok2].
  rewrite <- fmap_take in *. rewrite <- fmap_drop in *. unfold len in Hsr. rewrite length_fmap in Hsr.
  pose proof (take_drop (Z.to_nat s) es) as Ees.
  assert (length (take (Z.to_nat s) es) = Z.to_nat s) as Hl1 by (rewrite length_take; lia).
  assert (length (drop (Z.to_nat s) es) = (length es - Z.to_nat s)%nat) as Hl2 by (rewrite length_drop; lia).
  destruct (take (Z.to_nat s) es) as [|e1 es1]; [simpl in Hl1; lia|].
  destruct (drop (Z.to_nat s) es) as [|e2 es2]; [simpl in Hl2; lia|].
  eapply wpr_runs_bind; [by apply runs_lift|].
  eapply wpr_runs_bind; [by apply replace_page_runs|]. eapply wpr_runs_bind; [by apply replace_page_runs|].
  unfold insert_parent_separator. rewrite rev_app_distr, rev_involutive. cbn [rev app tail le_key entry_of].
  assert (pending (heap_put right_id (PLeaf rv (ctx_next c None) (entry_of <$> e2 :: es2))
    (heap_put id (PLeaf rv (Some right_id) (entry_of <$> e1 :: es1)) g1))
    c (Lf id rv (e1 :: es1)) (ge_key e2) (Lf right_id rv (e2 :: es2)) V fl1 lim) as P.
  { rewrite <- Ees in Hs, Hw, Hv. apply Forall_app in Hv as [Hv1 Hv2]. apply leaf_fits_spec in Hok1, Hok2.
    destruct (leaf_halves _ _ _ _ _ _ id right_id rv Hs Hw) as (H2 & H3 & H4 & H5). split; try done.
    - eapply owns_perm; [eapply owns_write, owns_replace, O1| |done]. simpl. solve_Permutation.
    - by apply leaf_sep_key in Hok2.
    - simpl. rewrite M1, Hroot. by apply plug_tid. }
  eapply wpr_mono; [eapply (insert_parent_wpr _ _ _ _ _ _ _ _ _ 0 small P)|exact (λ x, x)|]; cbn [hhw heap_put]; try lia.
  - done.
  - intros (Hsm1 & Hsm2 & _)%Hsmall. rewrite <- Ees, fmap_app in Hsm2. apply Forall_app in Hsm2 as [Hsm2 Hsm3]. split.
    + simpl. apply Forall_app. split; [done|]. constructor; [done|]. by constructor.
    + by apply Forall_cons in Hsm3 as [? _].
  - intros _ g' Hins. rewrite <- Ees, <- (app_assoc (e1 :: es1)). rewrite Nat.add_0_r in Hins.
    eapply inserted_mono; [exact Hins|..]; simpl; try done; lia.
Qed.

End ops.
