(* ===== verification/Point.v ===== *)
(** * Point: reads and writes of one document

    The overlay as a map from encoded keys to revision states.  [put] and
    [delete] change the map at one key, [get] reads it; no other outcome is
    possible but a failure of the data file, or a rejected request. *)

From stdpp Require Import list_numbers.
From S2P Require Import Prelude Core Crc Page Superblock DurableFile Wal Format FormatCodec Cache StoreState Store Heap Tree Own Split TreeOps.

(** ** Lists of entries *)

Lemma insert_middle {A} (l1 : list A) x y l2 : <[length l1 := y]> (l1 ++ x :: l2) = l1 ++ y :: l2.
Proof. induction l1 as [|z l1 IH]; simpl; [done|]. by rewrite IH. Qed.

Lemma Forall_middle {A} (P : A → Prop) l1 x y l2 : Forall P (l1 ++ x :: l2) → P y → Forall P (l1 ++ y :: l2).
Proof. rewrite !Forall_app, !Forall_cons. tauto. Qed.

Lemma entries_pages_app es1 es2 : entries_pages (es1 ++ es2) = entries_pages es1 ++ entries_pages es2.
Proof. apply bind_app. Qed.

Lemma entries_pages_cons e es : entries_pages (e :: es) = value_pages (ge_val e) ++ entries_pages es.
Proof. done. Qed.

(** Replacing the entries [olds], none or one with the same key, by [e]. *)
Lemma content_update l olds e r :
  keys_sorted (ge_key <$> l ++ e :: r) → olds = [] ∨ (∃ o, olds = [o] ∧ ge_key o = ge_key e) →
  content (l ++ e :: r) = <[ge_key e := ge_state e]> (content (l ++ olds ++ r)).
Proof.
  intros Hs Hold. apply keys_sorted_NoDup in Hs. destruct Hold as [->|(o & -> & Ho)]; [by apply content_insert|].
  apply content_replace; [|done]. rewrite fmap_app, fmap_cons in *. by rewrite Ho.
Qed.

Lemma sorted_insert l r e :
  keys_sorted (ge_key <$> l ++ r) → Forall (λ x, bytes_lt (ge_key x) (ge_key e) = true) l →
  Forall (λ x, bytes_lt (ge_key e) (ge_key x) = true) r → keys_sorted (ge_key <$> l ++ e :: r).
Proof.
  rewrite !fmap_app, fmap_cons, !keys_sorted_app. intros (Hl & Hr & Hlr) Hle Her. split_and!; [done| |].
  - constructor; [done|]. by rewrite Forall_fmap.
  - intros a b Ha [->|Hb]%elem_of_cons; [|auto]. apply list_elem_of_fmap in Ha as (x & -> & Hx).
    by eapply Forall_forall in Hle.
Qed.

Lemma ctx_pages_length c hid leaf next : (length c ≤ length (ctx_pages c hid leaf next))%nat.
Proof.
  revert hid leaf. induction c as [|fr c IH]; intros hid leaf; simpl; [done|]. rewrite !length_app.
  specialize (IH (fr_id fr) (leftmost_leaf_of (fr_before fr) leaf)). lia.
Qed.

(** Far more pages than a file can have. *)
Definition MANY_PAGES : Z := 2 ^ 61.
#[export] Hint Unfold MANY_PAGES : consts.

(** ** Lookups *)

(** What a reader sees under a key. *)
Definition state_at (m : gmap (list byte) RevisionState) (key : DocumentKey) : RevisionState :=
  default (Missing 0) (m !! DocumentKey_encode key).

(** The leaf's entry for a key is the tree's. *)
Lemma leaf_lookup key c id lsn es :
  ordered None None (plug c (Lf id lsn es)) → above (ctx_lo c) key → below (ctx_hi c) key →
  match find_entry key (entry_of <$> es) with
  | Some x => ∃ e, e ∈ es ∧ x = entry_of e ∧ content (entries (plug c (Lf id lsn es))) !! key = Some (ge_state e)
  | None => content (entries (plug c (Lf id lsn es))) !! key = None
  end.
Proof.
  intros Ho Ha Hb. pose proof Ho as [Hs _]%ordered_entries. pose proof Ho as [_ Hc]%plug_ordered.
  apply keys_sorted_NoDup in Hs. pose proof (find_entry_spec key es) as Hfind. destruct (find_entry _ _) as [x|].
  - destruct Hfind as (e & He & <- & ->). exists e. split_and!; [done|done|]. apply content_lookup; [done|].
    rewrite plug_entries. simpl. set_solver.
  - apply content_lookup_None. rewrite plug_entries. simpl. rewrite !fmap_app, !elem_of_app.
    pose proof (keys_sorted_NoDup _ (ctx_sorted c key Hc Ha Hb)) as Hnd. apply NoDup_app in Hnd as (_ & Hd & Hnd).
    apply NoDup_cons in Hnd as [Hr _]. intros [Hl|[?|?]]; [|done|done]. apply (Hd _ Hl). set_solver.
Qed.

Section point.
Context `{Crc32c} {F W I : Type} `{DFL : DurableFileLaws F}.
Context (s0 : BTreeStore F W I) (env : Env).
Hypothesis base_committed : ∀ id p, e_base env !! id = Some p → committed_page s0 id p.

Abbreviation wp := (wp s0 env).
Abbreviation wpr := (wpr s0 env).

(** What an update of a leaf at depth [D] leaves: a tree with the new entry, and
    the pages of the value it replaces. *)
Definition updated (g g' : Heap) (D : nat) (es : list gentry) (olds : list gentry) (small : Prop) : Prop :=
  ∃ t' fl', owns g' (entries_pages olds ++ tree_pages t' None ++ entries_pages (entries t')) fl' [] ∧
    ordered None None t' ∧ fits t' ∧ hroot g' = tid t' ∧ entries t' = es ∧
    (hlast g' = hlast g ∧ hnext g' = hnext g) ∧ hhw g ≤ hhw g' ≤ hhw g + Z.of_nat D + 2 ∧
    (bal D t' ∨ bal (S D) t') ∧ (small → Forall small_page (tree_pages t' None)).

Section leaf.
Context (g : Heap) (c : list frame) (id : PageId) (lsn : Lsn) (es1 olds es2 : list gentry) (e : gentry).
Context (fl : list (PageId * Lsn)) (rv : Revision).
Abbreviation t := (plug c (Lf id lsn (es1 ++ olds ++ es2))).
Hypothesis O : owns g (value_pages (ge_val e) ++ tree_pages t None ++ entries_pages (entries t)) fl [].
Hypothesis Ho : ordered None None t.
Hypothesis Hf : fits t.
Hypothesis Hroot : hroot g = tid t.
Hypothesis Hbal : bal (length c) t.
Hypothesis Hval : val_ok (ge_val e).
Hypothesis Hsorted : keys_sorted (ge_key <$> es1 ++ e :: es2).
Hypothesis Hbounds : within (ctx_lo c) (ctx_hi c) e.

Abbreviation V := (entries_pages olds ++ entries_pages (ctx_left c ++ (es1 ++ e :: es2) ++ ctx_right c)).

Lemma leaf_owns : owns g (ctx_pages c id id None ++ (id, PLeaf lsn (ctx_next c None) (entry_of <$> es1 ++ olds ++ es2)) :: V) fl [].
Proof.
  eapply owns_perm; [exact O| |done]. rewrite plug_pages, plug_entries. cbn [tid first_leaf tree_pages entries].
  rewrite !entries_pages_app, entries_pages_cons. solve_Permutation.
Qed.

Lemma leaf_entries_ok :
  Forall (within (ctx_lo c) (ctx_hi c)) (es1 ++ e :: es2) ∧ Forall (λ x, val_ok (ge_val x)) (es1 ++ e :: es2).
Proof.
  apply plug_ordered in Ho as [[_ Hw] _]. apply plug_fits in Hf as [[_ Hv] _].
  rewrite !Forall_app in Hw, Hv. rewrite !Forall_app, !Forall_cons. unfold within in *. tauto.
Qed.

Lemma insert_entry_wpr (small : Prop) :
  encodable (ge_key e) → 1 ≤ hhw g → hhw g ≤ 2 * MANY_PAGES →
  (small → Forall small_page (tree_pages t None) ∧ len (ge_key e) ≤ SMALL_KEY) →
  wpr (¬ small) g (insert_leaf_entries id (rev (fr_id <$> c) ++ [id])
      (mkLeafPage (ctx_next c None) (entry_of <$> es1 ++ e :: es2)) rv)
    (λ _ g', updated g g' (length c) (ctx_left c ++ (es1 ++ e :: es2) ++ ctx_right c) olds small).
Proof.
  intros Henc H1 Hroom Hsmall. pose proof leaf_owns as Ol. destruct leaf_entries_ok as [Hw Hv].
  pose proof Ho as [_ Hc]%plug_ordered. pose proof Hf as [[(_ & Henc' & Hsize) _] Hcf]%plug_fits.
  pose proof (owns_length _ _ _ _ Ol) as Hlen. rewrite length_app in Hlen.
  pose proof (ctx_pages_length c id id None) as Hcl.
  eapply wpr_mono; [eapply (insert_leaf_wpr _ _ base_committed rv c g id _ (es1 ++ e :: es2) V fl [] small)|exact (λ x, x)|];
    try done.
  - rewrite Hroot. by apply plug_tid.
  - unfold len. lia.
  - rewrite <- (Nat.add_0_r (length c)) in Hbal. by apply plug_bal in Hbal as [_ ?].
  - rewrite !fmap_app, !Forall_app in Henc'. rewrite fmap_app, fmap_cons, Forall_app, Forall_cons. tauto.
  - intros [Hsm Hk]%Hsmall. rewrite plug_pages, Forall_app in Hsm. destruct Hsm as [Hsm1 Hsm2].
    apply Forall_cons in Hsm2 as [Hsm2 _]. unfold small_page in Hsm2. cbn in Hsm2. rewrite !fmap_app, !Forall_app in Hsm2.
    rewrite leaf_size_cost, !fmap_app, !cost_app in Hsize. rewrite !fmap_app, fmap_cons, cost_app, cost_cons.
    pose proof (cost_nonneg leaf_cost (entry_of <$> olds) leaf_cost_nonneg).
    pose proof (small_leaf_cost e Hval Hk). rewrite Forall_app, Forall_cons. split_and!; try tauto. lia.
  - intros _ g' (t' & fl' & O' & Ho' & Hf' & Hr' & He' & [M1' M2'] & B' & D' & Hs'). exists t', fl'. unfold len in B'. split_and!; try done; try lia.
    eapply owns_perm; [exact O'| |done]. rewrite He'. solve_Permutation.
Qed.

End leaf.

(** ** Writes *)

(** The new pages of a write, beside those of the nodes it splits. *)
Definition WRITE_PAGES : Z := MAX_OVERFLOW_PAGES + 2.

(** The tree after a write at depth [D] with revision [rv]: its contents are
    [m], and at most [n] pages are new. *)
Definition written (g g' : Heap) (n : Z) (D : nat) (rv : Revision) (m : gmap (list byte) RevisionState) (small : Prop) : Prop :=
  ∃ t' fl', db_at g' t' fl' ∧ content (entries t') = m ∧ hlast g' = Some rv ∧ hnext g' = hnext g ∧
    hhw g ≤ hhw g' ≤ hhw g + n ∧ (bal D t' ∨ bal (S D) t') ∧
    (small → Forall small_page (tree_pages t' None)).

Lemma db_hhw g t fl : db_at g t fl → 2 ≤ hhw g.
Proof. intros [O _ _ _]. apply root_range in O as [? ?]. lia. Qed.

Lemma db_last l g t fl : db_at g t fl → db_at (heap_last l g) t fl.
Proof. intros [[] ? ? ?]. by split; [split|..]. Qed.

Lemma key_encodable key : len (DocumentKey_encode key) ≤ MAX_ENCODED_KEY_SIZE → encodable (DocumentKey_encode key).
Proof. intros Hl. split; [lia|]. by rewrite decode_encode_key. Qed.

Lemma db_leaf g c id lsn es fl :
  db_at g (plug c (Lf id lsn es)) fl → runs s0 env g (leaf id) (mkLeafPage (ctx_next c None) (entry_of <$> es)) g.
Proof.
  intros [O _ _ _]. destruct (owns_page _ _ _ _ O id (PLeaf lsn (ctx_next c None) (entry_of <$> es))) as [Hp Hr].
  { rewrite plug_pages. simpl. set_solver. }
  by eapply leaf_runs.
Qed.

(** Freeing the replaced value completes the write. *)
Lemma free_old_wp rv g g1 D old m es small :
  updated g g1 D es [old] small → val_ok (ge_val old) → hlast g = Some rv → content es = m →
  wp g1 (let* _ := free_value (ref_of (ge_val old)) rv in ret rv) (λ r g', r = rv ∧ written g g' (Z.of_nat D + 2) D rv m small).
Proof.
  intros (t & fl & O & Ho & Hf & Hr & He & [M1 M2] & B & Hd & Hs) Hv Hl Hm. apply wp_bind.
  eapply wp_mono; [eapply (free_value_wp _ _ base_committed (ge_val old)); [|done]|].
  { eapply owns_perm; [exact O| |done]. rewrite entries_pages_cons, <- app_assoc. done. }
  intros _ g' (fl' & O' & (M1' & M2' & M3') & B'). apply wp_ret. split; [done|]. exists t, fl'.
  split_and!; [by split; [..|congruence]|by rewrite He|congruence|congruence|lia|lia|done|done].
Qed.

Lemma written_mono rv g1 g g' n n' D m small :
  written g1 g' n D rv m small → hnext g1 = hnext g → hhw g ≤ hhw g1 → hhw g1 + n ≤ hhw g + n' →
  written g g' n' D rv m small.
Proof. intros (t & fl & ? & ? & ? & ? & ? & ? & ?) ? ? ?. exists t, fl. split_and!; try done; [congruence|lia|lia]. Qed.

Lemma updated_written rv g g' D m es small :
  updated g g' D es [] small → hlast g = Some rv → content es = m → written g g' (Z.of_nat D + 2) D rv m small.
Proof.
  intros (t & fl & O & Ho & Hf & Hr & He & [M1 M2] & B & Hd & Hs) Hl Hm. exists t, fl. rewrite He.
  split_and!; [by split|done|congruence|congruence|lia|lia|done|done].
Qed.

(** The leaf's entries around the position of a key. *)
Lemma search_leaf key c id lsn es :
  ordered None None (plug c (Lf id lsn es)) →
  match binary_search key (entry_of <$> es) with
  | inl i => ∃ es1 o es2, es = es1 ++ o :: es2 ∧ i = length es1 ∧ ge_key o = key ∧
      ∀ e, ge_key e = key → keys_sorted (ge_key <$> es1 ++ e :: es2)
  | inr i => ∃ es1 es2, es = es1 ++ es2 ∧ i = length es1 ∧
      ∀ e, ge_key e = key → keys_sorted (ge_key <$> es1 ++ e :: es2)
  end.
Proof.
  intros [[Hs _] _]%plug_ordered. pose proof (binary_search_spec key es Hs) as Hb.
  destruct (binary_search _ _) as [i|i].
  - destruct Hb as (es1 & o & es2 & -> & -> & Hk). exists es1, o, es2. split_and!; [done|done|done|].
    intros e He. rewrite fmap_app, fmap_cons in *. by rewrite He, <- Hk.
  - destruct Hb as (es1 & es2 & -> & -> & H1 & H2). exists es1, es2. split_and!; [done|done|].
    intros e He. rewrite <- He in *. by apply sorted_insert.
Qed.

Lemma index_entry (es1 es2 : list gentry) o :
  index (E:=Error) (entry_of <$> es1 ++ o :: es2) (Z.of_nat (length es1)) = Ok (entry_of o).
Proof.
  unfold index. rewrite (proj2 (Z.leb_le 0 _)) by lia. by rewrite Nat2Z.id, list_lookup_fmap, list_lookup_middle.
Qed.

Lemma insert_entry (es1 es2 : list gentry) o e :
  <[length es1 := entry_of e]> (entry_of <$> es1 ++ o :: es2) = entry_of <$> es1 ++ e :: es2.
Proof. rewrite !fmap_app, !fmap_cons, <- (length_fmap entry_of es1). apply insert_middle. Qed.

Lemma insert_at_entry (es1 es2 : list gentry) e :
  insert_at (length es1) (entry_of e) (entry_of <$> es1 ++ es2) = entry_of <$> es1 ++ e :: es2.
Proof. rewrite !fmap_app, !fmap_cons, <- (length_fmap entry_of es1). apply insert_at_app. Qed.

(** The contents after the leaf's update. *)
Lemma content_plug c id lsn es1 olds es2 e :
  ordered None None (plug c (Lf id lsn (es1 ++ olds ++ es2))) →
  keys_sorted (ge_key <$> es1 ++ e :: es2) → within (ctx_lo c) (ctx_hi c) e →
  olds = [] ∨ (∃ o, olds = [o] ∧ ge_key o = ge_key e) →
  content (ctx_left c ++ (es1 ++ e :: es2) ++ ctx_right c) =
    <[ge_key e := ge_state e]> (content (entries (plug c (Lf id lsn (es1 ++ olds ++ es2))))).
Proof.
  intros [[_ Hw] Hc]%plug_ordered Hs He Hold.
  assert (ordered None None (plug c (Lf id lsn (es1 ++ e :: es2)))) as [Ho' _]%ordered_entries.
  { apply plug_ordered. split; [|done]. split; [done|]. rewrite !Forall_app in Hw. rewrite Forall_app, Forall_cons.
    unfold within in *. tauto. }
  pose proof (content_update (ctx_left c ++ es1) olds e (es2 ++ ctx_right c)) as Hcu.
  rewrite plug_entries in *. cbn [entries] in *. rewrite <- !app_assoc in *. by apply Hcu.
Qed.

(** The path to a leaf has the tree's depth. *)
Lemma leaf_depth c id lsn es D : bal D (plug c (Lf id lsn es)) → D = length c.
Proof.
  intros Hb. pose proof Hb as [d ->]%plug_depth. apply plug_bal in Hb as [Hb _]. simpl in Hb. lia.
Qed.

(** ** The two ways to write an entry *)

Section write.
Context (g : Heap) (c : list frame) (id : PageId) (lsn : Lsn) (fl : list (PageId * Lsn)) (rv : Revision) (e : gentry).
Context (small : Prop).
Hypothesis Hval : val_ok (ge_val e).
Hypothesis Henc : encodable (ge_key e).
Hypothesis Hbounds : within (ctx_lo c) (ctx_hi c) e.
Hypothesis Hpages : 2 ≤ hhw g ≤ 2 * MANY_PAGES.
Hypothesis Hlast : hlast g = Some rv.

(** The heap when the new value has been stored and the leaf not yet changed. *)
Record at_leaf (es : list gentry) (t := plug c (Lf id lsn es)) : Prop := {
  al_owns : owns g (value_pages (ge_val e) ++ tree_pages t None ++ entries_pages (entries t)) fl [];
  al_ordered : ordered None None t;
  al_fits : fits t;
  al_root : hroot g = tid t;
  al_bal : bal (length c) t;
  al_small : small → Forall small_page (tree_pages t None) ∧ len (ge_key e) ≤ SMALL_KEY
}.

Lemma insert_new_wpr es1 es2 :
  at_leaf (es1 ++ es2) → keys_sorted (ge_key <$> es1 ++ e :: es2) →
  wpr (¬ small) g (let* _ := insert_leaf_entries id (rev (fr_id <$> c) ++ [id])
      (mkLeafPage (ctx_next c None) (insert_at (length es1) (entry_of e) (entry_of <$> es1 ++ es2))) rv in ret rv)
    (λ r g', r = rv ∧ written g g' (len c + 2) (length c) rv (<[ge_key e := ge_state e]> (content (entries (plug c (Lf id lsn (es1 ++ es2)))))) small).
Proof.
  intros [O Ho Hf Hroot Hbal Hsmall] Hs. pose proof (content_plug c id lsn es1 [] es2 e Ho Hs Hbounds) as Hc.
  simpl in Hc. rewrite <- Hc by eauto. rewrite insert_at_entry. apply wpr_bind.
  eapply wpr_mono; [eapply (insert_entry_wpr g c id lsn es1 [] es2 e fl rv); try done; lia|exact (λ x, x)|].
  intros ? g' U. cbn beta in U. apply wpr_wp, wp_ret. split; [done|]. by eapply updated_written.
Qed.

Lemma overwrite_wpr es1 o es2 :
  at_leaf (es1 ++ o :: es2) → keys_sorted (ge_key <$> es1 ++ e :: es2) → ge_key o = ge_key e →
  wpr (¬ small) g (let* old := lift (index (entry_of <$> es1 ++ o :: es2) (Z.of_nat (length es1))) in
      do* insert_leaf_entries id (rev (fr_id <$> c) ++ [id])
        (mkLeafPage (ctx_next c None) (<[length es1 := entry_of e]> (entry_of <$> es1 ++ o :: es2))) rv in
      do* free_value (le_value old) rv in ret rv)
    (λ r g', r = rv ∧ written g g' (len c + 2) (length c) rv (<[ge_key e := ge_state e]> (content (entries (plug c (Lf id lsn (es1 ++ o :: es2)))))) small).
Proof.
  intros [O Ho Hf Hroot Hbal Hsmall] Hs Hk. pose proof (content_plug c id lsn es1 [o] es2 e Ho Hs Hbounds) as Hc.
  simpl in Hc. rewrite <- Hc by eauto. eapply wpr_runs_bind; [apply runs_lift, index_entry|]. rewrite insert_entry.
  apply wpr_bind.
  eapply wpr_mono; [eapply (insert_entry_wpr g c id lsn es1 [o] es2 e fl rv); try done; lia|exact (λ x, x)|].
  intros ? g' U. cbn beta in U. apply wpr_wp. eapply (free_old_wp rv g g' (length c) o); [exact U| |done|done].
  apply plug_fits in Hf as [[_ Hvs] _]. apply Forall_app in Hvs as [_ Hvs]. by apply Forall_cons in Hvs as [? _].
Qed.

End write.

Lemma put_wpr key value g t fl D (small : Prop) (limits := limits (st_config s0)) :
  db_at g t fl → bal D t → 0 ≤ inline_value_limit limits → hhw g ≤ MANY_PAGES →
  (small → Forall small_page (tree_pages t None) ∧ len (DocumentKey_encode key) ≤ SMALL_KEY ∧
           len value ≤ max_value_size limits ∧ len value ≤ MAX_VALUE_SIZE) →
  wpr (¬ small) g (Overlay_put key value) (λ rv g', rv = heap_revision g ∧
    written g g' (Z.of_nat D + WRITE_PAGES) D rv (<[DocumentKey_encode key := Present value rv]> (content (entries t))) small).
Proof.
  intros DB Hbal Hlim Hroom Hsmall. pose proof (db_hhw _ _ _ DB).
  assert (MAX_OVERFLOW_PAGES ≤ MANY_PAGES) by (by vm_compute). unfold Overlay_put.
  apply wpr_bind. unfold validate_value. eapply wpr_runs_bind; [by apply runs_limits|].
  destruct (_ || _) eqn:Hval; cbn [negb].
  { right. split; [|intros o Ro; left; eexists _, o; by split; [|apply Ro]].
    intros (_ & _ & ? & ?)%Hsmall. apply orb_true_iff in Hval as [E|E]; bool_props; unfold limits in *; lia. }
  bool_props. apply wpr_wp, wp_ret. apply wpr_bind. unfold validate_encoded_key.
  destruct (MAX_ENCODED_KEY_SIZE <? len (DocumentKey_encode key)) eqn:Hkey; cbn [negb]; bool_props.
  { eapply wpr_lift_Err; [|done]. intros (_ & ? & _)%Hsmall. lia. }
  apply wpr_wp. eapply wp_lift; [done|]. eapply wpr_runs_bind; [by apply allocate_revision_runs|].
  set (rv := heap_revision g). apply (db_last (Some rv)) in DB.
  apply wpr_wp_bind. eapply wp_mono; [by eapply (find_leaf_wp _ _ base_committed)|].
  intros [id route] g' (-> & c & lsn & es & -> & Hroute & Ha & Hb). cbn [fst snd] in *. subst route.
  pose proof (leaf_depth _ _ _ _ _ Hbal) as ->.
  eapply wpr_runs_bind; [by eapply db_leaf|]. cbn [lp_entries lp_next_leaf].
  pose proof DB as [O Ho Hf Hroot]. apply wpr_wp_bind.
  eapply wp_mono; [eapply (make_value_wp _ _ base_committed value rv); [done|exact O|simpl; lia..]|].
  intros ref g1 (v & fl1 & Href & Hv & Hbytes & O1 & (M1 & M2 & M3) & B1). cbn [hhw heap_last hlast hnext hroot] in *.
  set (e := mkGEntry (DocumentKey_encode key) rv v).
  assert (mkLeafEntry (DocumentKey_encode key) rv (Some ref) = entry_of e) as -> by (by unfold entry_of; simpl; rewrite Href).
  assert (ge_state e = Present value rv) as Hst by (unfold ge_state; rewrite <- Hbytes; simpl; by destruct v).
  assert (at_leaf g1 c id lsn fl1 e small es) as A
    by (split; [done|done|done|by rewrite M1|done|intros ?%Hsmall; simpl; tauto]).
  pose proof (search_leaf (DocumentKey_encode key) c id lsn es Ho) as Hpos.
  pose proof (key_encodable key Hkey) as Henc.
  eapply (wpr_mono _ _ (¬ small) _ _ _ (λ r g', r = rv ∧
    written g1 g' (len c + 2) (length c) rv (<[ge_key e := ge_state e]> (content (entries (plug c (Lf id lsn es))))) small)); [|done|].
  2: { intros r g' [Er Hw]. rewrite Er. split; [done|]. rewrite Hst in Hw. eapply written_mono; [exact Hw|done|lia|unfold len, WRITE_PAGES; lia]. }
  destruct (binary_search _ _) as [i|i].
  - destruct Hpos as (es1 & o & es2 & -> & -> & Hok & Hsorted). apply (overwrite_wpr g1 c id lsn fl1 rv e small); try done; [lia|by apply Hsorted].
  - destruct Hpos as (es1 & es2 & -> & -> & Hsorted). apply (insert_new_wpr g1 c id lsn fl1 rv e small); try done; [lia|by apply Hsorted].
Qed.

(** A tombstone in place of an entry always fits. *)
Lemma tombstone_cost o rv : leaf_cost (entry_of (mkGEntry (ge_key o) rv VNone)) ≤ leaf_cost (entry_of o).
Proof.
  unfold leaf_cost, leaf_record_size. pose proof (len_nonneg (inline_bytes (le_value (entry_of o)))).
  cbn [le_key le_value entry_of ge_key ge_val ref_of inline_bytes]. len_simpl. cbn in *. lia.
Qed.

Lemma tombstone_updated g c id lsn es1 o es2 fl rv (e := mkGEntry (ge_key o) rv VNone) (small : Prop) :
  db_at g (plug c (Lf id lsn (es1 ++ o :: es2))) fl → bal (length c) (plug c (Lf id lsn (es1 ++ o :: es2))) →
  (small → Forall small_page (tree_pages (plug c (Lf id lsn (es1 ++ o :: es2))) None)) →
  updated g (heap_put id (PLeaf rv (ctx_next c None) (entry_of <$> es1 ++ e :: es2)) g) (length c)
    (ctx_left c ++ (es1 ++ e :: es2) ++ ctx_right c) [o] small.
Proof.
  intros [O Ho Hf Hroot] Hbal Hsmall. pose proof Ho as [[Hs Hw] Hc]%plug_ordered.
  pose proof Hf as [[(Hs' & Henc & Hsize) Hv] Hcf]%plug_fits.
  assert (Hkeys : (ge_key <$> es1 ++ e :: es2) = (ge_key <$> es1 ++ o :: es2)) by (by rewrite !fmap_app, !fmap_cons).
  exists (plug c (Lf id rv (es1 ++ e :: es2))), fl. split_and!; try done; cbn [hhw heap_put hlast hnext hroot].
  - eapply owns_perm; [eapply (owns_replace _ id (PLeaf lsn (ctx_next c None) (entry_of <$> es1 ++ o :: es2))), owns_perm; [exact O| |done]| |done].
    + rewrite plug_pages. cbn [tid first_leaf tree_pages]. rewrite (Permutation_app_comm (ctx_pages _ _ _ _)). simpl. done.
    + rewrite plug_pages, !plug_entries. cbn [tid first_leaf tree_pages entries].
      rewrite !entries_pages_app, !entries_pages_cons. simpl. solve_Permutation.
  - apply plug_ordered. split; [|done]. split; [by rewrite Hkeys|]. eapply Forall_middle; [exact Hw|]. by apply Forall_app in Hw as [_ [? _]%Forall_cons].
  - apply plug_fits. split; [|done]. split; [|by eapply Forall_middle; [exact Hv|]].
    rewrite leaf_size_cost, fmap_app, cost_app, fmap_cons, cost_cons in Hsize.
    split_and!; [by rewrite entry_keys, Hkeys, <- entry_keys| |].
    { rewrite !fmap_app, !fmap_cons in *. eapply Forall_middle; [exact Henc|]. by apply Forall_app in Henc as [_ [? _]%Forall_cons]. }
    rewrite leaf_size_cost, fmap_app, cost_app, fmap_cons, cost_cons. pose proof (tombstone_cost o rv). subst e. lia.
  - rewrite Hroot. by apply plug_tid.
  - by rewrite plug_entries.
  - lia.
  - left. rewrite <- (Nat.add_0_r (length c)) in *. apply plug_bal in Hbal as [_ ?]. by apply plug_bal.
  - intros Hsm%Hsmall. rewrite plug_pages in *. rewrite Forall_app in *. destruct Hsm as [Hsm1 Hsm2]. split; [done|].
    apply Forall_cons in Hsm2 as [Hsm2 _]. constructor; [|constructor]. unfold small_page in *. cbn in *.
    rewrite !fmap_app, !fmap_cons in *. eapply Forall_middle; [exact Hsm2|]. by apply Forall_app in Hsm2 as [_ [? _]%Forall_cons].
Qed.

Lemma delete_wpr key g t fl D (small : Prop) :
  db_at g t fl → bal D t → hhw g ≤ MANY_PAGES →
  (small → Forall small_page (tree_pages t None) ∧ len (DocumentKey_encode key) ≤ SMALL_KEY) →
  wpr (¬ small) g (Overlay_delete key) (λ rv g', rv = heap_revision g ∧
    written g g' (Z.of_nat D + WRITE_PAGES) D rv (<[DocumentKey_encode key := Missing rv]> (content (entries t))) small).
Proof.
  intros DB Hbal Hroom Hsmall. pose proof (db_hhw _ _ _ DB). unfold Overlay_delete. apply wpr_bind. unfold validate_encoded_key.
  destruct (MAX_ENCODED_KEY_SIZE <? len (DocumentKey_encode key)) eqn:Hkey; cbn [negb]; bool_props.
  { eapply wpr_lift_Err; [|done]. intros [_ ?]%Hsmall. lia. }
  apply wpr_wp. eapply wp_lift; [done|]. eapply wpr_runs_bind; [by apply allocate_revision_runs|].
  set (rv := heap_revision g). apply (db_last (Some rv)) in DB.
  apply wpr_wp_bind. eapply wp_mono; [by eapply (find_leaf_wp _ _ base_committed)|].
  intros [id route] g' (-> & c & lsn & es & -> & Hroute & Ha & Hb). cbn [fst snd] in *. subst route.
  pose proof (leaf_depth _ _ _ _ _ Hbal) as ->.
  eapply wpr_runs_bind; [by eapply db_leaf|]. cbn [lp_entries lp_next_leaf].
  pose proof DB as [O Ho Hf Hroot]. set (g1 := heap_last (Some rv) g) in *.
  set (e := mkGEntry (DocumentKey_encode key) rv VNone).
  change (mkLeafEntry (DocumentKey_encode key) rv None) with (entry_of e).
  pose proof (search_leaf (DocumentKey_encode key) c id lsn es Ho) as Hpos.
  eapply (wpr_mono _ _ (¬ small) _ _ _ (λ r g', r = rv ∧
    written g1 g' (len c + 2) (length c) rv (<[ge_key e := ge_state e]> (content (entries (plug c (Lf id lsn es))))) small)); [|done|].
  2: { intros r g' [Er Hw]. rewrite Er. split; [done|]. eapply written_mono; [exact Hw|done|simpl; lia|unfold len, WRITE_PAGES; simpl; assert (0 ≤ MAX_OVERFLOW_PAGES) by (by vm_compute); lia]. }
  destruct (binary_search _ _) as [i|i].
  - destruct Hpos as (es1 & o & es2 & -> & -> & Hok & Hsorted). specialize (Hsorted e eq_refl).
    eapply wpr_runs_bind; [apply runs_lift, index_entry|]. rewrite insert_entry.
    eapply wpr_runs_bind; [by apply replace_page_runs|]. apply wpr_wp.
    eapply (free_old_wp rv g1 _ (length c) o _ (ctx_left c ++ (es1 ++ e :: es2) ++ ctx_right c)); [| |done|].
    + unfold e. rewrite <- Hok. eapply tombstone_updated; [exact DB|done|]. intros ?%Hsmall. tauto.
    + apply plug_fits in Hf as [[_ Hvs] _]. apply Forall_app in Hvs as [_ Hvs]. by apply Forall_cons in Hvs as [? _].
    + apply (content_plug c id lsn es1 [o] es2 e Ho Hsorted (conj Ha Hb)). eauto.
  - destruct Hpos as (es1 & es2 & -> & -> & Hsorted).
    apply (insert_new_wpr g1 c id lsn fl rv e small); try done; [by apply key_encodable|simpl; lia|by apply Hsorted].
Qed.

(** ** Reads *)

Lemma observe_wpr key g t fl (small : Prop) :
  db_at g t fl → (small → len (DocumentKey_encode key) ≤ MAX_ENCODED_KEY_SIZE) →
  wpr (¬ small) g (get_observed_state key) (λ st g', g' = g ∧
    st = RevisionState_observed (state_at (content (entries t)) key)).
Proof.
  intros D Hsmall. unfold get_observed_state. apply wpr_bind. unfold validate_encoded_key.
  destruct (MAX_ENCODED_KEY_SIZE <? len (DocumentKey_encode key)) eqn:Hkey; cbn [negb]; bool_props.
  { eapply wpr_lift_Err; [|done]. intros ?%Hsmall. lia. }
  apply wpr_wp. eapply wp_lift; [done|].
  apply wpr_wp_bind. eapply wp_mono; [by eapply (find_leaf_wp _ _ base_committed)|].
  intros [id route] g' (-> & c & lsn & es & -> & _ & Ha & Hb). cbn [fst] in *.
  eapply wpr_runs_bind; [by eapply db_leaf|]. cbn [lp_entries].
  pose proof (leaf_lookup (DocumentKey_encode key) c id lsn es (db_ordered _ _ _ D) Ha Hb) as Hfind. unfold state_at.
  destruct (find_entry _ _) as [x|]; [|rewrite Hfind; by apply wpr_wp, wp_ret].
  destruct Hfind as (e & He & -> & ->). apply wpr_wp. destruct e as [k r [| |]]; by apply wp_ret.
Qed.

End point.
