(* ===== verification/Checker.v ===== *)
(** * Checker: the structural check of a data file

    src/dodb/crates/dodb-storage/src/btree/checker.rs.  Walks the tree, the
    leaf chain, the overflow chains and the free list of a data file and
    reports what it found.  The walk of a tree marks every page it enters, so
    the number of pages below the high-water mark is fuel enough. *)

From S2P Require Import Prelude Core Crc Page Superblock DurableFile Wal Format Cache StoreState Store.

Definition KeyBounds : Type := option (list byte) * option (list byte).

Record TreeCheckState := mkTreeCheck {
  tc_reachable : gset PageId;
  tc_keys : gset (list byte);
  tc_leaves : list PageId;
  tc_max_revision : Revision
}.
Definition TreeCheckState_default : TreeCheckState := mkTreeCheck ∅ ∅ [] 0.

Definition set_tc_reachable (x : gset PageId) (s : TreeCheckState) : TreeCheckState :=
  mkTreeCheck x (tc_keys s) (tc_leaves s) (tc_max_revision s).
Definition set_tc_keys (x : gset (list byte)) (s : TreeCheckState) : TreeCheckState :=
  mkTreeCheck (tc_reachable s) x (tc_leaves s) (tc_max_revision s).
Definition set_tc_leaves (x : list PageId) (s : TreeCheckState) : TreeCheckState :=
  mkTreeCheck (tc_reachable s) (tc_keys s) x (tc_max_revision s).
Definition set_tc_max_revision (x : Revision) (s : TreeCheckState) : TreeCheckState :=
  mkTreeCheck (tc_reachable s) (tc_keys s) (tc_leaves s) x.

(** [bound.is_some_and(|bound| ..)]. *)
Definition is_some_and {A} (o : option A) (p : A → bool) : bool :=
  match o with Some a => p a | None => false end.

(** [iter().find_map(f)]. *)
Fixpoint find_map {A B} (f : A → option B) (l : list A) : option B :=
  match l with
  | [] => None
  | x :: l => match f x with Some b => Some b | None => find_map f l end
  end.

Section checker.
Context `{Crc32c} {F : Type} `{DurableFile F}.
(** [self.high_water_page_id]. *)
Context (high_water : PageId).

Abbreviation FileM := (ST F Error).
(** The file and the [&mut TreeCheckState]. *)
Abbreviation CheckM := (ST (F * TreeCheckState) Error).

Definition on_check_file {A} (m : FileM A) : CheckM A := zoom fst (λ f s, (f, s.2)) m.
Definition modify_check (u : TreeCheckState → TreeCheckState) : CheckM unit := modify (λ s, (s.1, u s.2)).

Definition checker_check_page_id (page_id : PageId) : Result Error unit :=
  guard? negb ((page_id <? FIRST_DATA_PAGE) || (high_water <? page_id)) else
    Corruption "page id {} is outside checker bounds" in
  Ok tt.

Definition checker_read_page (page_id : PageId) : FileM PageData :=
  do* lift (checker_check_page_id page_id) in
  let* offset := lift (plain_mul page_id PAGE_SIZE) in
  let* bytes := read_exact_at offset PAGE_SIZE in
  let* decoded := lift (decode_page_at bytes (Some page_id)) in
  lift (PageData_decode decoded).

(** [!state.reachable.insert(page_id)] is an error. *)
Definition mark_reachable (page_id : PageId) (twice : Error) : CheckM unit :=
  let* reachable := gets (λ s, tc_reachable s.2) in
  guard* negb (bool_decide (page_id ∈ reachable)) else twice in
  modify_check (set_tc_reachable ({[page_id]} ∪ reachable)).

(** The loop of [check_overflow]; the result is the total content length. *)
Fixpoint check_overflow_loop (fuel : nat) (length : Z) (page_id : option PageId) (visited : gset PageId)
    (total count : Z) : CheckM Z :=
  match page_id with
  | None => ret total
  | Some current =>
      match fuel with
      | O => lift NoFuel
      | S fuel =>
          guard* negb ((MAX_OVERFLOW_PAGES <=? count) || bool_decide (current ∈ visited)) else
            Corruption "overflow chain is cyclic or too long" in
          do* mark_reachable current (Corruption "overflow page is referenced more than once") in
          let* p := on_check_file (checker_read_page current) in
          match p with
          | POverflow _ next total_length chunk =>
              guard* total_length =? length else Corruption "overflow page length disagrees with leaf" in
              let* total := lift (ok_or (checked_add total (len chunk))
                                    (Corruption "overflow content length overflows")) in
              check_overflow_loop fuel length next ({[current]} ∪ visited) total (count + 1)
          | _ => throw (Corruption "overflow chain reaches a non-overflow page")
          end
      end
  end.

Definition check_overflow (head : PageId) (length : Z) : CheckM unit :=
  guard* negb ((length =? 0) || (MAX_VALUE_SIZE <? length)) else
    Corruption "overflow value length is invalid" in
  let* total := check_overflow_loop OVERFLOW_FUEL length (Some head) ∅ 0 0 in
  guard* total =? length else Corruption "overflow content length does not match leaf" in
  ret tt.

(** The body of the [for entry in &entries] loop of a leaf. *)
Definition check_leaf_entry (lower upper : option (list byte)) (bounds : KeyBounds) (entry : LeafEntry)
    : CheckM KeyBounds :=
  guard* negb (is_some_and lower (λ bound, bytes_lt (le_key entry) bound)
               || is_some_and upper (λ bound, bytes_le bound (le_key entry))) else
    Corruption "leaf key violates parent separator range" in
  guard* negb (le_revision entry =? 0) else Corruption "leaf entry has zero revision" in
  let* keys := gets (λ s, tc_keys s.2) in
  guard* negb (bool_decide (le_key entry ∈ keys)) else Corruption "duplicate leaf key" in
  do* modify_check (set_tc_keys ({[le_key entry]} ∪ keys)) in
  do* modify_check (λ s, set_tc_max_revision (Z.max (tc_max_revision s) (le_revision entry)) s) in
  do* match le_value entry with
      | Some (Inline value) =>
          guard* negb (INLINE_VALUE_LIMIT <? len value) else Corruption "inline value exceeds inline limit" in
          ret tt
      | Some (Overflow head length) => check_overflow head length
      | None => ret tt
      end in
  ret (match bounds.1 with Some min => Some min | None => Some (le_key entry) end, Some (le_key entry)).

(** The bounds handed to the children of an internal page. *)
Fixpoint inner_bounds (entries : list InternalEntry) (upper : option (list byte)) : list KeyBounds :=
  match entries with
  | [] => []
  | e :: rest =>
      (Some (ie_key e), match rest with [] => upper | e' :: _ => Some (ie_key e') end) :: inner_bounds rest upper
  end.
Definition child_bounds (lower upper : option (list byte)) (entries : list InternalEntry) : list KeyBounds :=
  (lower, match entries with [] => upper | e :: _ => Some (ie_key e) end) :: inner_bounds entries upper.

(** What the keys found below the children must satisfy. *)
Definition check_separator (bounds : list KeyBounds) (indexed : nat * InternalEntry) : Result Error unit :=
  let '(i, entry) := indexed in
  let? left := index bounds (Z.of_nat i) in
  guard? negb (is_some_and left.2 (λ left_max, bytes_le (ie_key entry) left_max)) else
    Corruption "left child violates internal separator" in
  let? right := index bounds (Z.of_nat i + 1) in
  guard? negb (is_some_and right.1 (λ right_min, bytes_lt right_min (ie_key entry))) else
    Corruption "right child violates internal separator" in
  Ok tt.

Fixpoint visit_tree (fuel : nat) (page_id : PageId) (lower upper : option (list byte)) : CheckM KeyBounds :=
  match fuel with
  | O => lift NoFuel
  | S fuel =>
      do* mark_reachable page_id (Corruption "tree page is reachable more than once") in
      let* p := on_check_file (checker_read_page page_id) in
      match p with
      | PLeaf _ _ entries =>
          let* bounds := foldM (check_leaf_entry lower upper) (None, None) entries in
          do* modify_check (λ s, set_tc_leaves (tc_leaves s ++ [page_id]) s) in
          ret bounds
      | PInternal _ leftmost_child entries =>
          guard* negb (is_empty entries) else Corruption "internal page has no separators" in
          let children := leftmost_child :: (right_child <$> entries) in
          let* bounds := mapM (λ '(child, (child_lower, child_upper)), visit_tree fuel child child_lower child_upper)
                           (zip children (child_bounds lower upper entries)) in
          do* lift (foldR (λ _ e, check_separator bounds e) tt (imap pair entries)) in
          ret (find_map fst bounds, find_map snd (rev bounds))
      | POverflow _ _ _ _ | PFree _ _ => throw (Corruption "tree reaches a non-tree page")
      end
  end.

Fixpoint checker_leftmost_leaf (fuel : nat) (root : PageId) (visited : gset PageId) : FileM PageId :=
  match fuel with
  | O => lift NoFuel
  | S fuel =>
      guard* negb (bool_decide (root ∈ visited)) else
        Corruption "tree contains a cycle while finding leftmost leaf" in
      let* p := checker_read_page root in
      match p with
      | PLeaf _ _ _ => ret root
      | PInternal _ leftmost_child _ => checker_leftmost_leaf fuel leftmost_child ({[root]} ∪ visited)
      | _ => throw (Corruption "tree reaches a non-tree page")
      end
  end.

Definition check_key_order (previous : option (list byte)) (entry : LeafEntry) : Result Error (option (list byte)) :=
  guard? negb (is_some_and previous (λ previous, bytes_le (le_key entry) previous)) else
    Corruption "leaf chain ordering is invalid" in
  Ok (Some (le_key entry)).

(** The loop of [check_leaf_chain]; the result is the chain. *)
Fixpoint leaf_chain_loop (fuel : nat) (reachable : gset PageId) (current : option PageId)
    (visited : gset PageId) (previous_key : option (list byte)) (chain : list PageId) : FileM (list PageId) :=
  match current with
  | None => ret chain
  | Some page_id =>
      match fuel with
      | O => lift NoFuel
      | S fuel =>
          guard* negb (bool_decide (page_id ∈ visited)) else Corruption "leaf chain contains a cycle" in
          guard* bool_decide (page_id ∈ reachable) else Corruption "leaf chain points outside the tree" in
          let* p := checker_read_page page_id in
          match p with
          | PLeaf _ next_leaf entries =>
              let* previous_key := lift (foldR check_key_order previous_key entries) in
              leaf_chain_loop fuel reachable next_leaf ({[page_id]} ∪ visited) previous_key (chain ++ [page_id])
          | _ => throw (Corruption "leaf chain points to a non-leaf page")
          end
      end
  end.

Definition check_fuel : nat := S (Z.to_nat high_water).

Definition check_leaf_chain (tree_leaves : list PageId) (leftmost : PageId) (reachable : gset PageId) : FileM unit :=
  let* chain := leaf_chain_loop check_fuel reachable (Some leftmost) ∅ None [] in
  guard* bool_decide (chain = tree_leaves) else Corruption "leaf chain is not connected in tree order" in
  ret tt.

(** The free-list loop of [check]; the result is the set of free pages. *)
Fixpoint free_list_loop (fuel : nat) (reachable : gset PageId) (next : option PageId) (free : gset PageId)
    : FileM (gset PageId) :=
  match next with
  | None => ret free
  | Some page_id =>
      match fuel with
      | O => lift NoFuel
      | S fuel =>
          do* lift (checker_check_page_id page_id) in
          guard* negb (bool_decide (page_id ∈ free)) else Corruption "free-page list contains a cycle" in
          guard* negb (bool_decide (page_id ∈ reachable)) else Corruption "a page is both reachable and free" in
          let* p := checker_read_page page_id in
          match p with
          | PFree _ page_next => free_list_loop fuel reachable page_next ({[page_id]} ∪ free)
          | _ => throw (Corruption "free-list entry is not a free page")
          end
      end
  end.

Definition check (root : PageId) (free_head : option PageId) : FileM InvariantReport := fun f =>
  let '(r, (f, state)) := visit_tree check_fuel root None None (f, TreeCheckState_default) in
  (do* lift r in
   let* leftmost := checker_leftmost_leaf check_fuel root ∅ in
   do* check_leaf_chain (tc_leaves state) leftmost (tc_reachable state) in
   let* free := free_list_loop check_fuel (tc_reachable state) free_head ∅ in
   let leaked := filter (λ page_id : PageId, (page_id ∉ tc_reachable state) ∧ (page_id ∉ free))
                   ((λ i, i + FIRST_DATA_PAGE) <$> range_to (high_water + 1 - FIRST_DATA_PAGE)) in
   ret (mkReport (Z.of_nat (size (tc_reachable state))) (Z.of_nat (size free)) leaked (tc_max_revision state))) f.

End checker.
