(* ===== verification/Engine.v ===== *)
(** * Engine: the operations of the B+tree store

    src/dodb/crates/dodb-storage/src/btree/mod.rs, [BTreeStore]: opening and
    recovery, batches and transaction groups, publication through the log,
    flushing, checkpoints and the invariant check.  A store without a log
    publishes by writing the data file.  [open_path] only opens two
    [ProductionFile]s and is not modelled.  Measured times are arguments. *)

From S2P Require Import Prelude Core Crc Page Superblock DurableFile Wal Format Cache StoreState Store Checker.

Record CheckpointReport := mkCheckpointReport {
  rep_checkpoint_lsn : Lsn;
  pages_flushed : Z;
  cp_bytes_written : Z;
  wal_bytes_reclaimed : Z;
  duration_nanos : Z
}.

(** What a publication measures: the log's append and sync, and the
    publication itself. *)
Record PublishTimes := mkPublishTimes { t_append : Z; t_sync : Z; t_publication : Z }.

Section engine.
Context `{Crc32c} {F W I : Type} `{DurableFile F} `{DurableFile W} `{FaultInjector I}.

Abbreviation StoreM := (ST (BTreeStore F W I) Error).

(** ** Accessors *)

Definition cache_len (s : BTreeStore F W I) : Z := PageCache_len (st_cache s).
Definition enable_published_page_tracking : StoreM unit := modify (set_st_track_published true).
Definition take_published_page_updates : StoreM (gmap PageId PageData) :=
  let* updates := gets st_published in
  do* modify (set_st_published ∅) in
  ret updates.
Definition wal_metrics (s : BTreeStore F W I) : Result Error (option WalMetrics) :=
  match st_wal s with
  | None => Ok None
  | Some w => let? m := metrics w in Ok (Some m)
  end.
Definition set_fault_injector (i : I) : StoreM unit := modify (set_st_injector (Some i)).
Definition into_files (s : BTreeStore F W I) : Result Error (F * W) :=
  let? w := ok_or (st_wal s) (InvalidInput "store does not have a WAL file") in
  Ok (st_file s, w_file w).

(** ** Faults and failures *)

Definition hit_fault (point : string) : StoreM unit := fun s =>
  match st_injector s with
  | None => (Ok tt, s)
  | Some i => let '(r, i') := injector_hit point i in (r, set_st_injector (Some i') s)
  end.

(** [if let Err(error) = m { self.broken = Some(error.to_string()); return Err(wrap) }]. *)
Definition or_broken {A} (wrap : Error → Error) (m : StoreM A) : StoreM A := fun s =>
  match m s with
  | (Err e, s') => (Err (wrap e), set_st_broken (Some e) s')
  | out => out
  end.

Definition not_broken (e : Error) : StoreM unit :=
  let* broken := gets st_broken in
  match broken with Some _ => throw e | None => ret tt end.

Definition NOT_SERVING : Error :=
  DurabilityFailure "storage shard is not serving after an uncertain persistence failure: {message}".

(** [Overlay::new(self)], and [self] when the overlay is dropped. *)
Definition with_overlay {A} (m : ST (Overlay F W I) Error A) : StoreM A := fun s =>
  let '(r, o) := m (Overlay_new s) in (r, ov_store o).

(** An overlay operation together with a fresh response budget. *)
Definition with_budget {A} (maximum : Z) (m : ST (Overlay F W I * ResponseBudget) Error A)
    : ST (Overlay F W I) Error A :=
  let* budget := lift (ResponseBudget_new maximum) in
  (λ o, let '(r, (o, _)) := m (o, budget) in (r, o)).

(** ** Publication *)

Definition slot_offset (s : SuperblockSlot) : Z :=
  match s with SlotA => SUPERBLOCK_A_OFFSET | SlotB => SUPERBLOCK_B_OFFSET end.
Definition slot_page (s : SuperblockSlot) : PageId := match s with SlotA => 0 | SlotB => 1 end.

(** The log record of one candidate. *)
Definition wal_commit_of (candidate : PreparedBatch) (superblock_bytes : list byte) : Result Error WalCommit :=
  let? commit_lsn := ok_or (pb_commit_lsn candidate)
                       (InternalInvariantViolation "WAL transaction has no commit LSN") in
  let images := (λ e, mkImage e.1 e.2) <$> btree_iter (changed_pages candidate) in
  Ok (mkCommit (pb_batch_id candidate) commit_lsn
        (images ++ [mkImage (slot_page (new_slot candidate)) superblock_bytes])).

(** The loop that encodes the superblocks and builds the log records. *)
Definition encode_candidate (has_wal : bool) (acc : list (list byte) * list WalCommit)
    (candidate : PreparedBatch) : Result Error (list (list byte) * list WalCommit) :=
  let '(encoded_superblocks, wal_commits) := acc in
  let? superblock_bytes := encode_superblock (new_superblock candidate) in
  if has_wal then
    let? commit := wal_commit_of candidate superblock_bytes in
    Ok (encoded_superblocks ++ [superblock_bytes], wal_commits ++ [commit])
  else Ok (encoded_superblocks ++ [superblock_bytes], wal_commits).

Definition target_file_length (high_water : PageId) : Result Error Z :=
  let? pages := ok_or (checked_add high_water 1) (InvalidInput "database page id is exhausted") in
  ok_or (checked_mul pages PAGE_SIZE) (InvalidInput "database file length overflows").

Definition grow_file (high_water : PageId) : StoreM unit :=
  let* target_length := lift (target_file_length high_water) in
  let* length := on_st_file (λ f, (file_len f, f)) in
  if length <? target_length then on_st_file (set_len target_length) else ret tt.

Definition write_page (page_id : PageId) (bytes : list byte) : StoreM unit :=
  let* offset := lift (plain_mul page_id PAGE_SIZE) in
  on_st_file (write_all_at offset bytes).

(** The loop body that writes one candidate to the data file of a store
    without a log. *)
Definition write_candidate (entry : PreparedBatch * list byte) : StoreM unit :=
  let '(candidate, superblock_bytes) := entry in
  do* grow_file (pb_high_water_page_id candidate) in
  do* forM (btree_iter (changed_pages candidate)) (λ '(page_id, bytes), write_page page_id bytes) in
  do* on_st_file (write_all_at (slot_offset (new_slot candidate)) superblock_bytes) in
  on_st_file sync_data.

Definition append_to_wal (append_elapsed sync_elapsed : Z) (wal : WalLog W) (commits : list WalCommit)
    : StoreM unit := fun s =>
  let '(r, (wal, injector)) := append_group append_elapsed sync_elapsed commits (wal, st_injector s) in
  let s := set_st_injector injector (set_st_wal (Some wal) s) in
  (let? _reports := r in Ok tt, s).

(** The loop body that makes one candidate the committed state. *)
Definition publish_candidate (entry : PreparedBatch * list byte) : StoreM unit :=
  let '(candidate, superblock_bytes) := entry in
  let* superblock := lift (decode_superblock superblock_bytes) in
  do* modify (set_st_superblock superblock) in
  do* modify (set_st_active_slot (new_slot candidate)) in
  do* modify (set_st_root (pb_root_page_id candidate)) in
  do* modify (set_st_free_list_head (pb_free_list_head candidate)) in
  do* modify (set_st_high_water (pb_high_water_page_id candidate)) in
  do* modify (set_st_next_revision (pb_next_revision candidate)) in
  do* match pb_commit_lsn candidate with
      | Some commit_lsn =>
          let* next_lsn := lift (ok_or (checked_add commit_lsn 1)
                                   (InternalInvariantViolation "WAL LSN exhausted")) in
          do* modify (set_st_next_lsn next_lsn) in
          let* next_batch_id := lift (ok_or (checked_add (pb_batch_id candidate) 1)
                                        (InternalInvariantViolation "WAL batch ID exhausted")) in
          do* modify (set_st_next_batch_id next_batch_id) in
          do* modify (λ s, set_st_dirty_pages (changed_pages candidate ∪ st_dirty_pages s) s) in
          modify (set_st_dirty_superblock (Some superblock_bytes))
      | None => ret tt
      end in
  do* modify (λ s, set_st_cache (PageCache_insert_many (btree_iter (pb_read_pages candidate)) (st_cache s)) s) in
  do* modify (λ s, if st_track_published s
                   then set_st_published (changed_decoded candidate ∪ st_published s) s else s) in
  modify (λ s, set_st_cache (PageCache_insert_many (btree_iter (changed_decoded candidate)) (st_cache s)) s).

Definition check_generation (expected_generation : Z) (candidate : PreparedBatch) : Result Error Z :=
  guard? base_generation candidate =? expected_generation else
    InternalInvariantViolation "prepared transaction group has a non-contiguous superblock generation" in
  Ok (generation (new_superblock candidate)).

Definition add_publication_time (nanos : Z) : StoreM unit :=
  modify (λ s, set_st_metrics
    (mkStorageMetrics (validation_nanos (st_metrics s)) (btree_preparation_nanos (st_metrics s))
       (saturating_add (publication_nanos (st_metrics s)) nanos)) s).

Definition publish_prepared_group (times : PublishTimes) (prepared : list PreparedBatch) : StoreM unit :=
  do* not_broken NOT_SERVING in
  let* current := gets st_superblock in
  let* _expected := lift (foldR check_generation (generation current) prepared) in
  if forallb (λ candidate, bool_decide (changed_pages candidate = ∅)) prepared then ret tt
  else
    let* wal := gets st_wal in
    let* '(encoded_superblocks, wal_commits) :=
      lift (foldR (encode_candidate (match wal with Some _ => true | None => false end)) ([], []) prepared) in
    do* match wal with
        | Some wal => or_broken id (append_to_wal (t_append times) (t_sync times) wal wal_commits)
        | None => forM (zip prepared encoded_superblocks) write_candidate
        end in
    do* or_broken id (hit_fault "before_publish") in
    do* forM (zip prepared encoded_superblocks) publish_candidate in
    do* add_publication_time (store_elapsed_nanos (t_publication times)) in
    hit_fault "after_publish".

Definition publish_prepared (times : PublishTimes) (prepared : PreparedBatch) : StoreM (list BatchResponse) :=
  do* publish_prepared_group times [prepared] in
  ret (responses prepared).

(** ** Batches *)

Definition prepare_batch_with_response_budget (requests : list BatchRequest) (max_response_bytes : Z)
    : StoreM PreparedBatch :=
  with_overlay
    (let* responses := with_budget max_response_bytes (mapM execute_with_budget requests) in
     finish responses).

Definition prepare_batch (requests : list BatchRequest) : StoreM PreparedBatch :=
  prepare_batch_with_response_budget requests USIZE_MAX.

Definition apply_batch_with_response_budget (times : PublishTimes) (requests : list BatchRequest)
    (max_response_bytes : Z) : StoreM (list BatchResponse) :=
  let* prepared := prepare_batch_with_response_budget requests max_response_bytes in
  publish_prepared times prepared.

Definition apply_batch (times : PublishTimes) (requests : list BatchRequest) : StoreM (list BatchResponse) :=
  let* prepared := prepare_batch requests in
  publish_prepared times prepared.

(** [apply_batch(&[request])?.remove(0)]. *)
Definition apply_one (times : PublishTimes) (request : BatchRequest) : StoreM BatchResponse :=
  let* responses := apply_batch times [request] in
  lift (index responses 0).

Definition BTreeStore_get (times : PublishTimes) (key : DocumentKey) : StoreM RevisionState :=
  let* response := apply_one times (BGet key) in
  match response with
  | RGet state => ret state
  | _ => throw (InternalInvariantViolation "get produced an unexpected batch response")
  end.

Definition BTreeStore_put (times : PublishTimes) (key : DocumentKey) (value : list byte) : StoreM Revision :=
  let* response := apply_one times (BPut key value) in
  match response with
  | RPut revision => ret revision
  | _ => throw (InternalInvariantViolation "put produced an unexpected batch response")
  end.

Definition BTreeStore_delete (times : PublishTimes) (key : DocumentKey) : StoreM Revision :=
  let* response := apply_one times (BDelete key) in
  match response with
  | RDelete revision => ret revision
  | _ => throw (InternalInvariantViolation "delete produced an unexpected batch response")
  end.

Definition BTreeStore_query (times : PublishTimes) (p : PrimaryKey) (exclusive_after_sk : option SortKey)
    (limit : Z) : StoreM (list Document) :=
  let* response := apply_one times (BQuery p exclusive_after_sk limit) in
  match response with
  | RQuery rows => ret rows
  | _ => throw (InternalInvariantViolation "query produced an unexpected batch response")
  end.

Definition BTreeStore_scan (times : PublishTimes) (exclusive_after_key : option DocumentKey) (limit : Z)
    : StoreM (list Document) :=
  let* response := apply_one times (BScan exclusive_after_key limit) in
  match response with
  | RScan rows => ret rows
  | _ => throw (InternalInvariantViolation "scan produced an unexpected batch response")
  end.

(** ** Transactions *)

(** A request and the times its validation and its preparation took. *)
Record TimedRequest := mkTimed { timed_request : TransactionRequest; t_validation : Z; t_preparation : Z }.

(** The errors that concern one request only. *)
Definition request_error (e : Error) : bool :=
  match e with Conflict _ | InvalidRequest _ | InvalidInput _ => true | _ => false end.

Definition add_preparation_time (nanos : Z) : StoreM unit :=
  modify (λ s, set_st_metrics
    (mkStorageMetrics (validation_nanos (st_metrics s))
       (saturating_add (btree_preparation_nanos (st_metrics s)) nanos) (publication_nanos (st_metrics s))) s).

Abbreviation GroupResults := (list PreparedBatch * list (Result Error TransactionResult))%type.

Definition group_step (acc : GroupResults) (t : TimedRequest) : ST (Overlay F W I) Error GroupResults :=
  let '(prepared, results) := acc in
  let* outcome := attempt (prepare_transaction (t_validation t) (timed_request t)) in
  let* acc :=
    match outcome with
    | inl (Some candidate) =>
        let* commit_lsn := lift (ok_or (pb_commit_lsn candidate)
                                   (InternalInvariantViolation "mutation transaction has no commit LSN")) in
        ret (prepared ++ [candidate], results ++ [Ok (mkTransactionResult (Some commit_lsn))])
    | inl None => ret (prepared, results ++ [Ok (mkTransactionResult None)])
    | inr e => if request_error e then ret (prepared, results ++ [Err e]) else throw e
    end in
  do* on_store (add_preparation_time (store_elapsed_nanos (t_preparation t))) in
  ret acc.

Definition apply_transaction_group (times : PublishTimes) (requests : list TimedRequest)
    : StoreM (list (Result Error TransactionResult)) :=
  if is_empty requests then ret []
  else
    let* '(prepared, results) := with_overlay (foldM group_step ([], []) requests) in
    if is_empty prepared then ret results
    else
      do* publish_prepared_group times prepared in
      ret results.

Definition transact (times : PublishTimes) (request : TimedRequest) : StoreM TransactionResult :=
  let* results := apply_transaction_group times [request] in
  let* result := lift (ok_or (last results) (InternalInvariantViolation "transaction group returned no result")) in
  lift result.

Definition transact_get_with_response_budget (keys : list DocumentKey) (max_response_bytes : Z)
    : StoreM (list RevisionState) :=
  do* not_broken NOT_SERVING in
  with_overlay (with_budget max_response_bytes (mapM get_state_with_budget keys)).

Definition transact_get (keys : list DocumentKey) : StoreM (list RevisionState) :=
  transact_get_with_response_budget keys USIZE_MAX.

Definition observe (keys : list DocumentKey) : StoreM (list ObservedState) :=
  do* not_broken NOT_SERVING in
  with_overlay (mapM get_observed_state keys).

(** ** Flushing *)

(** The closure of [flush_dirty_pages]. *)
Definition write_dirty : StoreM unit :=
  let* s := get in
  do* grow_file (st_high_water s) in
  do* hit_fault "before_data_page_write" in
  do* forM (btree_iter (st_dirty_pages s)) (λ '(page_id, bytes),
        do* hit_fault "during_data_page_write" in
        write_page page_id bytes) in
  do* hit_fault "after_data_page_write" in
  match st_dirty_superblock s with
  | Some superblock_bytes => on_st_file (write_all_at (slot_offset (st_active_slot s)) superblock_bytes)
  | None => ret tt
  end.

Definition is_none {A} (o : option A) : bool := match o with None => true | Some _ => false end.

Definition flush_dirty_pages : StoreM unit :=
  let* s := get in
  if is_none (st_wal s) then on_st_file sync_data
  else if bool_decide (st_dirty_pages s = ∅) && is_none (st_dirty_superblock s) then ret tt
  else
    do* or_broken (λ _, DurabilityFailure "database data-file write failed after WAL commit: {error}") write_dirty in
    do* or_broken id (hit_fault "before_data_file_sync") in
    do* or_broken id (hit_fault "during_data_file_sync") in
    do* or_broken (λ _, DurabilityFailure "database data-file sync failed after WAL commit: {error}")
          (on_st_file sync_data) in
    do* modify (set_st_dirty_pages ∅) in
    do* modify (set_st_dirty_superblock None) in
    hit_fault "after_data_file_sync".

Definition flush : StoreM unit :=
  let* s := get in
  if is_none (st_wal s) then on_st_file sync_data else flush_dirty_pages.

(** ** Superblocks and the invariant check *)

Definition page_aligned (length : Z) : bool :=
  negb ((length <? FIRST_DATA_PAGE * PAGE_SIZE) || negb (length mod PAGE_SIZE =? 0)).

Definition read_superblocks : ST F Error SelectedSuperblock :=
  let* slot_a := read_exact_at SUPERBLOCK_A_OFFSET PAGE_SIZE in
  let* slot_b := read_exact_at SUPERBLOCK_B_OFFSET PAGE_SIZE in
  lift (choose_superblock slot_a slot_b).

Definition metadata_from_superblock (sb : Superblock) (file_length : Z)
    : Result Error (PageId * option PageId * PageId) :=
  guard? page_size sb =? PAGE_SIZE else UnsupportedFormat "superblock page size is unsupported" in
  let page_count := file_length / PAGE_SIZE in
  let? root := ok_or (root_page_id sb) (Corruption "selected superblock has no root page") in
  let? high_water := ok_or (high_water_page_id sb) (Corruption "selected superblock has no high-water page") in
  let? expected_page_count := ok_or (checked_add high_water 1)
                                (Corruption "superblock high-water page overflows") in
  guard? negb ((high_water <? FIRST_DATA_PAGE) || negb (expected_page_count =? page_count)) else
    Corruption "superblock high-water page is inconsistent with file length" in
  guard? negb ((root <? FIRST_DATA_PAGE) || (high_water <? root)) else
    Corruption "superblock root page is outside the file" in
  guard? negb (is_some_and (free_list_head sb) (λ free, (free <? FIRST_DATA_PAGE) || (high_water <? free))) else
    Corruption "superblock free-list head is outside the file" in
  Ok (root, free_list_head sb, high_water).

(** The last commit LSN in the log, or else the checkpoint. *)
Definition latest_lsn (w : WalLog W) (otherwise : Lsn) : Lsn :=
  match last (w_committed w) with Some batch => b_commit_lsn batch | None => otherwise end.

Definition check_invariants : StoreM InvariantReport :=
  let* s := get in
  do* (if is_none (st_wal s) then ret tt else flush_dirty_pages) in
  let* length := on_st_file (λ f, (file_len f, f)) in
  guard* page_aligned length else Corruption "database file length is not page aligned" in
  let* selected := on_st_file read_superblocks in
  let* s := get in
  guard* bool_decide (slot selected = st_active_slot s) && bool_decide (superblock selected = st_superblock s) else
    Corruption "in-memory superblock is not the selected file copy" in
  let* '(root, free_head, high_water) := lift (metadata_from_superblock (superblock selected) length) in
  guard* (root =? st_root s) && bool_decide (free_head = st_free_list_head s) && (high_water =? st_high_water s) else
    Corruption "in-memory allocator metadata does not match superblock" in
  do* match st_wal s with
      | Some w =>
          let checkpoint := checkpoint_lsn (st_superblock s) in
          guard* negb (latest_lsn w checkpoint <? checkpoint) else
            Corruption "checkpoint LSN is newer than the known durable WAL state" in
          ret tt
      | None => ret tt
      end in
  on_st_file (check high_water root free_head).

(** ** Checkpoints *)

(** Writes a superblock that records the checkpoint to the other slot. *)
Definition write_checkpoint_superblock (checkpoint : Lsn) : StoreM unit :=
  let* s := get in
  let current := st_superblock s in
  let* next_generation := lift (ok_or (checked_add (generation current) 1)
                                  (InternalInvariantViolation "superblock generation exhausted")) in
  let* bytes := lift (encode_superblock (mkSuperblock (sb_format_version current) next_generation
    (database_uuid current) (tenant_id current) (shard_id current) (shard_epoch current)
    (page_size current) (root_page_id current) (free_list_head current) (high_water_page_id current)
    checkpoint (sb_checksum current))) in
  let* checkpoint_superblock := lift (decode_superblock bytes) in
  let* checkpoint_bytes := lift (encode_superblock checkpoint_superblock) in
  let checkpoint_slot := other_slot (st_active_slot s) in
  do* hit_fault "before_checkpoint_superblock_write" in
  do* or_broken (λ _, CheckpointFailure "checkpoint superblock write failed: {error}")
        (on_st_file (write_all_at (slot_offset checkpoint_slot) checkpoint_bytes)) in
  do* hit_fault "after_checkpoint_superblock_write" in
  do* hit_fault "before_checkpoint_metadata_sync" in
  do* hit_fault "during_checkpoint_metadata_sync" in
  do* or_broken (λ _, CheckpointFailure "checkpoint metadata sync failed: {error}") (on_st_file sync_data) in
  do* or_broken (λ _, CheckpointFailure "checkpoint metadata completion was uncertain: {error}")
        (hit_fault "after_checkpoint_metadata_sync") in
  do* modify (set_st_superblock checkpoint_superblock) in
  modify (set_st_active_slot checkpoint_slot).

(** Drops the log's records up to the checkpoint. *)
Definition reset_wal (checkpoint : Lsn) : StoreM unit := fun s =>
  match st_wal s with
  | None => (Err (InternalInvariantViolation "WAL disappeared during checkpoint"), s)
  | Some wal =>
      let '(r, (wal, injector)) := reset checkpoint (wal, st_injector s) in
      let s := set_st_injector injector (set_st_wal (Some wal) s) in
      match r with
      | Ok _ => (Ok tt, set_st_next_batch_id (w_next_batch_id wal) (set_st_next_lsn (w_next_lsn wal) s))
      | Err e => (Err (CheckpointFailure "WAL reset failed: {error}"), set_st_broken (Some e) s)
      | Panic => (Panic, s)
      | NoFuel => (NoFuel, s)
      end
  end.

Definition checkpoint_bytes (dirty_page_count : Z) (dirty_superblock metadata_changed : bool) : option Z :=
  count ← u64_try_from dirty_page_count;
  bytes ← checked_mul count PAGE_SIZE;
  bytes ← checked_add bytes (if dirty_superblock then PAGE_SIZE else 0);
  checked_add bytes (if metadata_changed then PAGE_SIZE else 0).

Definition checkpoint (elapsed : Z) : StoreM CheckpointReport :=
  do* not_broken (CheckpointFailure "storage shard is degraded: {message}") in
  do* hit_fault "before_checkpoint_gate" in
  let* s := get in
  let* wal := lift (ok_or (st_wal s) (CheckpointFailure "formal checkpoint requires a WAL-backed store")) in
  let previous := checkpoint_lsn (st_superblock s) in
  let checkpoint := latest_lsn wal previous in
  guard* negb (checkpoint <? previous) else InternalInvariantViolation "checkpoint LSN would move backwards" in
  let metadata_changed := previous <? checkpoint in
  let dirty_page_count := Z.of_nat (size (st_dirty_pages s)) in
  let* bytes_written := lift (ok_or
    (checkpoint_bytes dirty_page_count (negb (is_none (st_dirty_superblock s))) metadata_changed)
    (CheckpointFailure "checkpoint byte count overflows")) in
  let* before := lift (metrics wal) in
  do* hit_fault "before_checkpoint_data_flush" in
  do* mapping_err (λ _, CheckpointFailure "checkpoint data-file flush failed: {error}") flush_dirty_pages in
  do* hit_fault "after_checkpoint_data_sync" in
  do* (if metadata_changed then write_checkpoint_superblock checkpoint else ret tt) in
  let* _report := or_broken (λ _, CheckpointFailure "checkpoint invariant check failed: {error}") check_invariants in
  let* s := get in
  let should_reset_wal :=
    is_some_and (st_wal s) (λ w, negb (is_empty (w_committed w)) || (w_history_start_lsn w <? checkpoint)) in
  do* (if should_reset_wal then reset_wal checkpoint else ret tt) in
  do* or_broken (λ _, CheckpointFailure "checkpoint completion was uncertain: {error}")
        (hit_fault "before_checkpoint_complete") in
  let* s := get in
  let* after := lift (wal_metrics s) in
  let wal_bytes_after := match after with Some m => wal_bytes m | None => 0 end in
  ret (mkCheckpointReport checkpoint dirty_page_count bytes_written
         (saturating_sub (wal_bytes before) wal_bytes_after) (store_elapsed_nanos elapsed)).

(** ** Creating a database *)

(** The store of a data file whose selected superblock is known. *)
Definition make_store (file : F) (wal : option (WalLog W)) (sb : Superblock) (active : SuperblockSlot)
    (root : PageId) (free_head : option PageId) (high_water : PageId) (next_lsn : Lsn)
    (config : DatabaseConfig) (injector : option I) : BTreeStore F W I :=
  mkStore file wal sb active root free_head high_water 1 next_lsn 1
    (PageCache_new (cache_capacity config)) config ∅ None false ∅ StorageMetrics_default None injector.

Definition initialize (config : DatabaseConfig) : ST F Error (BTreeStore F W I) :=
  let root_page := FIRST_DATA_PAGE in
  let new := Superblock_new 1 (cfg_database_uuid config) (cfg_tenant_id config) (cfg_shard_id config)
               (cfg_shard_epoch config) in
  let sb := mkSuperblock (sb_format_version new) (generation new) (database_uuid new) (tenant_id new)
              (shard_id new) (shard_epoch new) (page_size new) (Some root_page) (free_list_head new)
              (Some root_page) (checkpoint_lsn new) (sb_checksum new) in
  let* root_bytes := lift (PageData_encode (PLeaf 0 None []) root_page) in
  let* superblock_bytes := lift (encode_superblock sb) in
  do* set_len (3 * PAGE_SIZE) in
  do* write_all_at SUPERBLOCK_A_OFFSET superblock_bytes in
  do* write_all_at SUPERBLOCK_B_OFFSET superblock_bytes in
  do* write_all_at (root_page * PAGE_SIZE) root_bytes in
  do* sync_all in
  let* file := get in
  ret (make_store file None sb SlotA root_page None root_page 1 config None).

(** ** Recovery *)

Definition validate_superblock_identity (sb : Superblock) (identity : WalIdentity) : Result Error unit :=
  guard? bytes_eqb (database_uuid sb) (id_uuid identity) && (tenant_id sb =? id_tenant identity)
         && (shard_id sb =? id_shard identity) && (shard_epoch sb =? id_epoch identity) else
    Corruption "database superblock identity does not match the requested shard" in
  Ok tt.

Definition validate_existing_identity_before_wal (identity : WalIdentity) (wal_length : Z)
    : ST F Error (option Lsn) :=
  let* length := (λ f, (file_len f, f)) in
  if length =? 0 then ret None
  else if negb (page_aligned length) then
    if wal_length =? 0 then throw (Corruption "database file is not a complete existing database") else ret None
  else
    let* slot_a := read_exact_at SUPERBLOCK_A_OFFSET PAGE_SIZE in
    let* slot_b := read_exact_at SUPERBLOCK_B_OFFSET PAGE_SIZE in
    let* selected := attempt (lift (choose_superblock slot_a slot_b)) in
    match selected with
    | inl selected =>
        do* lift (validate_superblock_identity (superblock selected) identity) in
        ret (Some (checkpoint_lsn (superblock selected)))
    | inr e => if 0 <? wal_length then ret None else throw e
    end.

(** The highest data page in the batches to replay. *)
Definition highest_page (batches : list CommittedWalBatch) : Z :=
  foldl (λ highest (page : WalPageImage),
    if FIRST_DATA_PAGE <=? img_page_id page then Z.max highest (img_page_id page) else highest)
    FIRST_DATA_PAGE (batches ≫= b_pages).

(** [decode_page_at(&bytes, Some(page_id)).ok()]. *)
Definition decoded_ok (bytes : list byte) (page_id : PageId) : Result Error (option DecodedPage) :=
  match decode_page_at bytes (Some page_id) with
  | Ok p => Ok (Some p)
  | Err _ => Ok None
  | Panic => Panic
  | NoFuel => NoFuel
  end.

(** Whether a logged page is newer than the page in the data file. *)
Definition should_write (readable_length commit_lsn : Z) (page_id : PageId) (offset : Z) : ST F Error bool :=
  if (page_id =? 0) || (page_id =? 1) then ret true
  else
    let* current :=
      (if is_some_and (checked_add offset PAGE_SIZE) (λ end_, end_ <=? readable_length) then
         let* bytes := read_exact_at offset PAGE_SIZE in
         lift (decoded_ok bytes page_id)
       else ret None) in
    ret (match current with Some p => page_lsn (header p) <? commit_lsn | None => true end).

(** The body of the replay loop; the state is the [changed] flag. *)
Definition replay_page (readable_length : Z) (changed : bool) (logged : Lsn * WalPageImage)
    : ST (F * option I) Error bool :=
  let '(commit_lsn, page) := logged in
  let* offset := lift (ok_or (checked_mul (img_page_id page) PAGE_SIZE)
                         (RecoveryFailure "recovery page offset overflows")) in
  let* write := open_file (should_write readable_length commit_lsn (img_page_id page) offset) in
  if (write : bool) then
    do* hit "during_recovery_page_write" in
    do* open_file (write_all_at offset (img_bytes page)) in
    ret true
  else ret changed.

(** The batches' pages in log order, each with its commit LSN. *)
Definition logged_pages (batches : list CommittedWalBatch) : list (Lsn * WalPageImage) :=
  b ← batches; pair (b_commit_lsn b) <$> b_pages b.

Definition recover_data_file (committed_batches : list CommittedWalBatch) (checkpoint : Lsn)
    : ST (F * option I) Error unit :=
  let batches := filter (λ b, checkpoint < b_commit_lsn b) committed_batches in
  if is_empty batches then ret tt
  else
    let* pages := lift (ok_or (checked_add (highest_page batches) 1)
                          (RecoveryFailure "recovery page range overflows")) in
    let* target_length := lift (ok_or (checked_mul pages PAGE_SIZE)
                                  (RecoveryFailure "recovery file length overflows")) in
    let* current_length := open_file (λ f, (file_len f, f)) in
    do* (if (current_length =? 0) || (current_length <? target_length) then open_file (set_len target_length)
         else
           guard* current_length mod PAGE_SIZE =? 0 else
             RecoveryFailure "database file has a non-page-aligned length before recovery" in
           ret tt) in
    let* readable_length := open_file (λ f, (file_len f, f)) in
    let* changed := foldM (replay_page readable_length) (current_length <? target_length) (logged_pages batches) in
    if (changed : bool) then
      do* hit "before_recovery_sync" in
      do* hit "during_recovery_sync" in
      do* open_file (mapping_err (λ _, DurabilityFailure "database sync during WAL recovery failed: {error}")
                       sync_data) in
      hit "after_recovery_sync"
    else ret tt.

(** ** Opening *)

Definition next_revision_after (revision : Revision) : Result Error Revision :=
  ok_or (checked_add revision 1) (InternalInvariantViolation "storage revision exhausted").

(** [open_no_wal]: the state is the file, also when opening fails. *)
Definition open_no_wal (config : DatabaseConfig) : ST F Error (BTreeStore F W I) :=
  let* length := (λ f, (file_len f, f)) in
  if length =? 0 then initialize config
  else
    guard* page_aligned length else Corruption "database file length is not page aligned" in
    let* selected := read_superblocks in
    let* '(root, free_head, high_water) := lift (metadata_from_superblock (superblock selected) length) in
    (λ f,
      let '(r, store) := check_invariants (make_store f None (superblock selected) (slot selected)
                           root free_head high_water 1 config None) in
      (let? report := r in
       let? next := next_revision_after (max_revision report) in
       Ok (set_st_next_revision next store), st_file store)).

(** The data file, the log file and the fault injector while a store is being
    opened. *)
Abbreviation OpenM := (ST (F * W * option I) Error).
Definition on_data {A} (m : ST F Error A) : OpenM A := zoom (λ s, s.1.1) (λ f s, (f, s.1.2, s.2)) m.
Definition on_data_injected {A} (m : ST (F * option I) Error A) : OpenM A :=
  zoom (λ s, (s.1.1, s.2)) (λ t s, (t.1, s.1.2, t.2)) m.
Definition on_log {A} (m : ST (W * option I) Error A) : OpenM A :=
  zoom (λ s, (s.1.2, s.2)) (λ t s, (s.1.1, t.1, t.2)) m.

Definition config_identity (config : DatabaseConfig) : WalIdentity :=
  mkIdentity (cfg_database_uuid config) (cfg_tenant_id config) (cfg_shard_id config) (cfg_shard_epoch config).

(** The store after a successful [check_invariants]: the counters continue
    behind everything found in the tree and in the log. *)
Definition resume_counters (report : InvariantReport) (wal : WalLog W) (store : BTreeStore F W I)
    : Result Error (BTreeStore F W I) :=
  let? next := next_revision_after (Z.max (max_revision report) (latest_lsn wal 0)) in
  Ok (set_st_next_batch_id (w_next_batch_id wal)
        (set_st_next_lsn (w_next_lsn wal) (set_st_next_revision next store))).

Definition open_with_wal_internal (config : DatabaseConfig) : OpenM (BTreeStore F W I) :=
  let identity := config_identity config in
  let* wal_length := (λ s, (file_len s.1.2, s)) in
  let* hint := on_data (validate_existing_identity_before_wal identity wal_length) in
  let checkpoint_hint := default 0 hint in
  let* wal := on_log (open_with_fault_injector_and_start_lsn identity checkpoint_hint) in
  let* empty := on_data (λ f, (file_is_empty f, f)) in
  let* injector := gets snd in
  if (empty : bool) && is_empty (w_committed wal) then
    let* store := on_data (initialize config) in
    ret (set_st_injector injector (set_st_next_batch_id (w_next_batch_id wal)
           (set_st_next_lsn (w_next_lsn wal) (set_st_wal (Some wal) store))))
  else
    do* on_data_injected (recover_data_file (w_committed wal) checkpoint_hint) in
    let* length := on_data (λ f, (file_len f, f)) in
    guard* page_aligned length else RecoveryFailure "recovered database file is not page aligned" in
    let* selected := on_data read_superblocks in
    do* lift (validate_superblock_identity (superblock selected) identity) in
    let* '(root, free_head, high_water) := lift (metadata_from_superblock (superblock selected) length) in
    let '(resumed, (wal, _)) :=
      resume_after (checkpoint_lsn (superblock selected)) (wal, @None I) in
    do* lift resumed in
    (λ '(f, w, injector),
      let '(r, store) := check_invariants (make_store f (Some wal) (superblock selected) (slot selected)
                           root free_head high_water 0 config injector) in
      (let? report := r in resume_counters report wal store, (st_file store, w_file wal, st_injector store))).

(** [open_with_wal] has no injector. *)
Definition open_with_wal (config : DatabaseConfig) : OpenM (BTreeStore F W I) :=
  do* modify (λ s, (s.1, None)) in
  open_with_wal_internal config.

End engine.
