(* ===== verification/ReadOps.v ===== *)
(** * ReadOps: reads with a response budget

    A read does not change the heap; on a heap that holds a tree it behaves
    like a computation on the budget alone, which [budgeted] states.  Lookups,
    scans and queries are thereby reduced to the list of the tree's documents
    in key order, which is what the reference database iterates over. *)

From stdpp Require Import list_numbers.
From S2P Require Import Prelude Core Crc Page Superblock DurableFile Wal Format FormatCodec Cache Reference StoreState Store Heap Tree Own Split TreeOps Point.

(** ** The leaves in order *)

Fixpoint leaves (t : tree) : list (PageId * list gentry) :=
  match t with
  | Lf id _ es => [(id, es)]
  | Nd _ _ t f => leaves t ++ forest_leaves f
  end
with forest_leaves (f : forest) : list (PageId * list gentry) :=
  match f with FNil => [] | FCons _ t f => leaves t ++ forest_leaves f end.

Definition before_leaves (before : list (tree * list byte)) : list (PageId * list gentry) := before ≫= (λ x, leaves x.1).
Fixpoint ctx_leaves_left (c : list frame) : list (PageId * list gentry) :=
  match c with [] => [] | fr :: c => ctx_leaves_left c ++ before_leaves (fr_before fr) end.
Fixpoint ctx_leaves_right (c : list frame) : list (PageId * list gentry) :=
  match c with [] => [] | fr :: c => forest_leaves (fr_after fr) ++ ctx_leaves_right c end.

Definition leaf_entries (ls : list (PageId * list gentry)) : list gentry := ls ≫= snd.

Lemma leaf_entries_app l1 l2 : leaf_entries (l1 ++ l2) = leaf_entries l1 ++ leaf_entries l2.
Proof. apply bind_app. Qed.

Lemma leaves_entries_mut :
  (∀ t, leaf_entries (leaves t) = entries t) ∧ (∀ f, leaf_entries (forest_leaves f) = forest_entries f).
Proof.
  apply tree_forest_ind; simpl; intros; try done.
  - apply app_nil_r.
  - rewrite leaf_entries_app. congruence.
  - rewrite leaf_entries_app. congruence.
Qed.

Lemma leaves_entries t : leaf_entries (leaves t) = entries t.
Proof. apply leaves_entries_mut. Qed.

Lemma kids_leaves b h a :
  leaves (kids b h a).1 ++ forest_leaves (kids b h a).2 = before_leaves b ++ leaves h ++ forest_leaves a.
Proof.
  induction b as [|[t k] b IH]; [done|]. simpl. unfold before_leaves in *. simpl. by rewrite IH, <- app_assoc.
Qed.

Lemma plug_leaves c h : leaves (plug c h) = ctx_leaves_left c ++ leaves h ++ ctx_leaves_right c.
Proof.
  revert h. induction c as [|fr c IH]; intros h; simpl; [by rewrite app_nil_r|].
  rewrite IH. unfold fill. simpl. rewrite kids_leaves. by rewrite <- !app_assoc.
Qed.

Lemma ctx_leaves_right_entries c : leaf_entries (ctx_leaves_right c) = ctx_right c.
Proof.
  induction c as [|fr c IH]; simpl; [done|]. rewrite leaf_entries_app, IH. f_equal. apply leaves_entries_mut.
Qed.

Lemma leaves_pages_mut :
  (∀ t next, (leaves t).*1 ⊆+ (tree_pages t next).*1) ∧ (∀ f next, (forest_leaves f).*1 ⊆+ (forest_pages f next).*1).
Proof.
  apply tree_forest_ind; simpl; intros; rewrite ?fmap_app; try done.
  - apply submseteq_cons. by apply submseteq_app.
  - by apply submseteq_app.
Qed.

(** The leaf behind a list of leaves. *)
Definition head_or (ls : list (PageId * list gentry)) (next : option PageId) : option PageId :=
  match ls with [] => next | x :: _ => Some x.1 end.

Fixpoint chain (g : Heap) (ls : list (PageId * list gentry)) (next : option PageId) : Prop :=
  match ls with
  | [] => True
  | x :: ls =>
      (∃ lsn, hp g !! x.1 = Some (PLeaf lsn (head_or ls next) (entry_of <$> x.2))) ∧ in_range g x.1 ∧ chain g ls next
  end.

Lemma head_or_app l1 l2 next : head_or (l1 ++ l2) next = head_or l1 (head_or l2 next).
Proof. by destruct l1. Qed.

Lemma leaves_app g l1 l2 next : chain g (l1 ++ l2) next ↔ chain g l1 (head_or l2 next) ∧ chain g l2 next.
Proof. induction l1 as [|x l1 IH]; simpl; [tauto|]. rewrite head_or_app. tauto. Qed.

Lemma leaves_head t next : head_or (leaves t) next = Some (first_leaf t).
Proof.
  revert t next. apply (tree_mut (λ t, ∀ next, head_or (leaves t) next = Some (first_leaf t)) (λ _, True)); simpl; try done.
  intros id lsn t IH f _ next. by rewrite head_or_app, IH.
Qed.

Lemma forest_leaves_head f next : head_or (forest_leaves f) next = first_or f next.
Proof. destruct f; simpl; [done|]. by rewrite head_or_app, leaves_head. Qed.

Lemma tree_chain_mut g :
  (∀ t next, (∀ x, x ∈ tree_pages t next → hp g !! x.1 = Some x.2 ∧ in_range g x.1) → chain g (leaves t) next) ∧
  (∀ f next, (∀ x, x ∈ forest_pages f next → hp g !! x.1 = Some x.2 ∧ in_range g x.1) → chain g (forest_leaves f) next).
Proof.
  apply tree_forest_ind; simpl; [..|done|].
  - intros id lsn es next Hp. destruct (Hp (id, PLeaf lsn next (entry_of <$> es))) as [Hpg Hr]; [set_solver|].
    split_and!; [by exists lsn|done|done].
  - intros id lsn t IHt f IHf next Hp. apply leaves_app. rewrite forest_leaves_head.
    split; [apply IHt|apply IHf]; intros x Hx; apply Hp; set_solver.
  - intros k t IHt f IHf next Hp. apply leaves_app. rewrite forest_leaves_head.
    split; [apply IHt|apply IHf]; intros x Hx; apply Hp; set_solver.
Qed.

(** ** The documents of a tree *)

(** The key an entry is stored under; every stored key decodes. *)
Definition doc_of (e : gentry) : DocumentKey :=
  match DocumentKey_decode (ge_key e) with Ok k => k | _ => mkKey [] [] end.

Definition listing (es : list gentry) : list (DocumentKey * RevisionState) := (λ e, (doc_of e, ge_state e)) <$> es.

(** The abstract database. *)
Definition states_of (es : list gentry) : gmap DocumentKey RevisionState := list_to_map (listing es).

(** Every key is the encoding of a document key. *)
Definition canonical (es : list gentry) : Prop := Forall (λ e, ge_key e = DocumentKey_encode (doc_of e)) es.

Lemma encodable_canonical e : encodable (ge_key e) → ge_key e = DocumentKey_encode (doc_of e).
Proof.
  intros [_ Hd]. unfold doc_of. destruct (DocumentKey_decode (ge_key e)) eqn:E; try done.
  symmetry. by apply decode_canonical.
Qed.

Lemma fits_canonical_mut :
  (∀ t, fits t → canonical (entries t)) ∧ (∀ f, forest_fits f → canonical (forest_entries f)).
Proof.
  unfold canonical. apply tree_forest_ind; simpl; [..|done|].
  - intros _ _ es [(_ & Henc & _) _]. rewrite Forall_fmap in Henc. eapply Forall_impl; [exact Henc|].
    intros e He. by apply encodable_canonical.
  - intros _ _ t IHt f IHf (_ & Ht & Hf). apply Forall_app. auto.
  - intros k t IHt f IHf [Ht Hf]. apply Forall_app. auto.
Qed.

Lemma fits_canonical t : fits t → canonical (entries t).
Proof. apply fits_canonical_mut. Qed.

Lemma fits_vals_mut :
  (∀ t, fits t → Forall (λ e, val_ok (ge_val e)) (entries t)) ∧
  (∀ f, forest_fits f → Forall (λ e, val_ok (ge_val e)) (forest_entries f)).
Proof.
  apply tree_forest_ind; simpl; [tauto| |done|]; intros; rewrite Forall_app; naive_solver.
Qed.

Lemma encode_key_inj a b : DocumentKey_encode a = DocumentKey_encode b → a = b.
Proof. intros E. apply (f_equal DocumentKey_decode) in E. rewrite !decode_encode_key in E. congruence. Qed.

Lemma keys_of_listing es : canonical es → ge_key <$> es = DocumentKey_encode <$> (listing es).*1.
Proof. intros Hc. unfold listing. rewrite <- !list_fmap_compose. apply Forall_fmap_ext_1, Hc. Qed.

Lemma states_of_lookup es key : canonical es → states_of es !! key = content es !! DocumentKey_encode key.
Proof.
  intros Hc. unfold states_of, content, listing. induction Hc as [|e es He Hc IH]; [done|].
  rewrite !fmap_cons. cbn [list_to_map foldr fst snd uncurry]. destruct (decide (doc_of e = key)) as [<-|Hne].
  - by rewrite <- He, !lookup_insert_eq.
  - rewrite !lookup_insert_ne; [exact IH| |done]. rewrite He. by intros ?%encode_key_inj.
Qed.

(** A change of the contents at one key is a change of the database there. *)
Lemma states_of_insert es es' key s :
  canonical es → canonical es' → content es' = <[DocumentKey_encode key := s]> (content es) →
  states_of es' = <[key := s]> (states_of es).
Proof.
  intros Hc Hc' E. apply map_eq. intros k. rewrite states_of_lookup, E by done.
  destruct (decide (key = k)) as [->|Hne]; [by rewrite !lookup_insert_eq|].
  rewrite !lookup_insert_ne, states_of_lookup; try done. by intros ?%encode_key_inj.
Qed.

Lemma key_le_bytes a b : key_le a b ↔ bytes_le (DocumentKey_encode a) (DocumentKey_encode b) = true.
Proof. unfold key_le, bytes_le. rewrite encode_compare. by destruct (key_compare a b). Qed.

Global Instance key_le_trans : Transitive key_le.
Proof. intros a b c. rewrite !key_le_bytes, !bytes_le_lteq. intros [H1|H1] [H2|H2]; [left; eauto with dodb|left; congruence..|right; congruence]. Qed.
Global Instance key_le_total : Total key_le.
Proof.
  intros a b. rewrite !key_le_bytes, !bytes_le_lteq.
  destruct (bytes_lt_trichotomy (DocumentKey_encode a) (DocumentKey_encode b)) as [H|[H|H]]; auto.
Qed.

(** Iterating over the database visits the entries in tree order. *)
Lemma ordered_iter_states es :
  canonical es → keys_sorted (ge_key <$> es) → ordered_iter key_le (states_of es) = listing es.
Proof.
  intros Hc Hs. assert (NoDup (listing es).*1) as Hnd.
  { apply keys_sorted_NoDup in Hs. rewrite keys_of_listing in Hs by done. by apply NoDup_fmap_1 in Hs. }
  apply (StronglySorted_unique_strong (iter_le key_le)).
  - intros [k1 s1] [k2 s2] H1 H2. unfold iter_le. simpl. rewrite !key_le_bytes. intros Hle Hle'.
    assert (k1 = k2) as <-.
    { apply encode_key_inj. rewrite bytes_le_lteq in Hle. destruct Hle as [Hlt|]; [|done].
      rewrite bytes_le_negb, Hlt in Hle'. done. }
    apply elem_of_ordered_iter in H1. unfold states_of in H1.
    rewrite (elem_of_list_to_map_1 _ _ _ Hnd H2) in H1. congruence.
  - apply ordered_iter_sorted; apply _.
  - unfold listing, iter_le. clear Hnd. revert Hc. unfold keys_sorted in Hs.
    induction es as [|e es IH]; intros Hc; [constructor|]. rewrite fmap_cons. rewrite fmap_cons in Hs.
    apply StronglySorted_inv in Hs as [Hs Hall]. apply Forall_cons in Hc as [He Hc]. constructor; [auto|].
    rewrite Forall_fmap in Hall. apply Forall_fmap, Forall_forall. intros e' He'. simpl.
    eapply Forall_forall in Hall, Hc; [|exact He'..].
    rewrite key_le_bytes, <- He, <- Hc, bytes_le_lteq. by left.
  - rewrite ordered_iter_permutation. unfold states_of. by rewrite map_to_list_to_map.
Qed.

(** ** Collecting rows *)

Definition live (e : gentry) : option Document :=
  match ge_state e with
  | Present value revision => Some (mkDocument (doc_of e) value revision)
  | Missing _ => None
  end.

(** What a range read does with an entry. *)
Inductive action := Skip | Stop | Row (d : Document).

(** Rows are added, as far as the budget goes, until a [Stop] or until there
    are [limit] of them; whether the read is complete. *)
Fixpoint gather (limit : Z) (acts : list action) (rows : list Document) : ST ResponseBudget Error (bool * list Document) :=
  match acts with
  | [] => ret (false, rows)
  | Skip :: acts => gather limit acts rows
  | Stop :: _ => ret (true, rows)
  | Row d :: acts =>
      do* reserve_document (doc_key d) (len (doc_value d)) in
      let rows := rows ++ [d] in
      if len rows =? limit then ret (true, rows) else gather limit acts rows
  end.

Lemma gather_app limit a1 a2 rows b :
  gather limit (a1 ++ a2) rows b =
  (let* '(stop, rows) := gather limit a1 rows in
   if (stop : bool) then ret (true, rows) else gather limit a2 rows) b.
Proof.
  revert rows b. induction a1 as [|[| |d] a1 IH]; intros rows b; [done|apply IH|done|]. simpl. rewrite !bind_eq.
  destruct (reserve_document _ _ b) as [[[]|e| |] b1]; try done. destruct (_ =? limit); [done|]. apply IH.
Qed.

Lemma gather_skips limit a1 a2 rows : Forall (λ a, a = Skip) a1 → gather limit (a1 ++ a2) rows = gather limit a2 rows.
Proof. induction 1 as [|a a1 -> _ IH]; [done|]. exact IH. Qed.

Definition row (a : action) : option Document := match a with Row d => Some d | _ => None end.

(** Nothing to read follows a [Stop]. *)
Fixpoint stops (acts : list action) : Prop :=
  match acts with
  | [] => True
  | Stop :: acts => omap row acts = []
  | _ :: acts => stops acts
  end.

Lemma reserve_document_out key n b :
  (reserve_document key n b).1 = Ok tt ∨ ∃ e, (reserve_document key n b).1 = Err (ResponseTooLarge e).
Proof.
  unfold reserve_document, reserve. destruct (checked_add _ _); [|by right; eexists].
  destruct (checked_add _ _); [|by right; eexists]. destruct (_ || _); [by right; eexists|by left].
Qed.

(** The rows gathered are the first ones, unless the budget is exhausted. *)
Lemma gather_out limit acts rows b :
  stops acts → len rows < limit →
  (∃ stop, (gather limit acts rows b).1 = Ok (stop, rows ++ take (Z.to_nat (limit - len rows)) (omap row acts))) ∨
  ∃ e, (gather limit acts rows b).1 = Err (ResponseTooLarge e).
Proof.
  revert rows b. induction acts as [|[| |d] acts IH]; intros rows b Hs Hl; cbn [gather stops] in *.
  - left. exists false. simpl. by rewrite take_nil, app_nil_r.
  - by apply IH.
  - left. exists true. change (omap row (Stop :: acts)) with (omap row acts). rewrite Hs. simpl. by rewrite take_nil, app_nil_r.
  - change (omap row (Row d :: acts)) with (d :: omap row acts). rewrite bind_eq. destruct (reserve_document_out (doc_key d) (len (doc_value d)) b) as [Hr|[e Hr]];
      destruct (reserve_document _ _ b) as [r b1]; simpl in Hr; subst r; [|right; by eexists].
    len_simpl. replace (Z.to_nat (limit - len rows)) with (S (Z.to_nat (limit - (len rows + 1)))) by lia.
    destruct (_ =? limit) eqn:E; bool_props.
    + left. exists true. simpl. do 3 f_equal. replace (Z.to_nat _) with 0%nat by lia. done.
    + destruct (IH (rows ++ [d]) b1 Hs) as [[stop Hst]|He]; [len_simpl; lia| |by right].
      left. exists stop. rewrite Hst. len_simpl. simpl. by rewrite <- app_assoc.
Qed.

Definition read_live (e : gentry) : action := match live e with Some d => Row d | None => Skip end.

Definition scan_action (cursor : option (list byte)) (e : gentry) : action :=
  if match cursor with Some cursor => bytes_le (ge_key e) cursor | None => false end then Skip else read_live e.

Definition query_action (p : PrimaryKey) (exclusive_after_sk : option SortKey) (e : gentry) : action :=
  if negb (bytes_eqb (pk (doc_of e)) p) then if bytes_lt p (pk (doc_of e)) then Stop else Skip
  else if match exclusive_after_sk with Some cursor => bytes_le (sk (doc_of e)) cursor | None => false end then Skip
  else read_live e.

Lemma key_le_cases a b : key_le a b ↔ bytes_lt (pk a) (pk b) = true ∨ (pk a = pk b ∧ bytes_le (sk a) (sk b) = true).
Proof.
  unfold key_le, key_compare, then_cmp, bytes_lt, bytes_le. destruct (bytes_compare (pk a) (pk b)) eqn:E.
  - apply bytes_compare_eq in E. destruct (bytes_compare (sk a) (sk b)); naive_solver.
  - naive_solver.
  - split; [done|]. intros [?|[E' _]]; [done|]. apply bytes_compare_eq in E'. congruence.
Qed.

(** An entry up to the cursor is skipped. *)
Lemma query_action_cursor p s e :
  ge_key e = DocumentKey_encode (doc_of e) → bytes_le (ge_key e) (DocumentKey_encode (mkKey p s)) = true →
  query_action p (Some s) e = Skip.
Proof.
  intros He Hle. rewrite He in Hle. apply key_le_bytes, key_le_cases in Hle as [Hlt|[E Hle]]; unfold query_action; simpl in *.
  - unfold bytes_eqb. rewrite bool_decide_eq_false_2 by (by apply bytes_lt_ne). cbn [negb].
    destruct (bytes_lt p _) eqn:E; [|done]. pose proof (bytes_lt_trans _ _ _ Hlt E) as C. by rewrite bytes_lt_irrefl in C.
  - unfold bytes_eqb. rewrite bool_decide_eq_true_2 by done. simpl. by rewrite Hle.
Qed.

(** An entry before the first key of the partition is skipped. *)
Lemma query_action_before p after e :
  ge_key e = DocumentKey_encode (doc_of e) → bytes_lt (ge_key e) (DocumentKey_encode (mkKey p [])) = true →
  query_action p after e = Skip.
Proof.
  intros He Hlt. rewrite He in Hlt. assert (bytes_lt (pk (doc_of e)) p = true) as Hp.
  { assert (key_le (doc_of e) (mkKey p [])) as Hle by (rewrite key_le_bytes, bytes_le_lteq; by left).
    apply key_le_cases in Hle as [?|[E Hle]]; [done|]. simpl in *. apply bytes_le_lteq in Hle as [Hle|Hle].
    - by destruct (sk (doc_of e)).
    - assert (doc_of e = mkKey p []) as Ed by (destruct (doc_of e); simpl in *; congruence).
      by rewrite Ed, bytes_lt_irrefl in Hlt. }
  unfold query_action, bytes_eqb. rewrite bool_decide_eq_false_2 by (by apply bytes_lt_ne). cbn [negb].
  destruct (bytes_lt p _) eqn:E; [|done]. pose proof (bytes_lt_trans _ _ _ Hp E) as C. by rewrite bytes_lt_irrefl in C.
Qed.

(** Behind the partition there is nothing to return. *)
Lemma query_stops p after es : canonical es → keys_sorted (ge_key <$> es) → stops (query_action p after <$> es).
Proof.
  induction es as [|e es IH]; intros Hc Hs; [done|]. apply Forall_cons in Hc as [He Hc].
  rewrite fmap_cons. rewrite fmap_cons in Hs. apply StronglySorted_inv in Hs as [Hs Hall].
  destruct (query_action p after e) as [| |d] eqn:Ha; cbn [stops]; [auto| |auto].
  assert (bytes_lt p (pk (doc_of e)) = true) as Hp.
  { unfold query_action, read_live in Ha. destruct (negb _).
    - by destruct (bytes_lt p (pk (doc_of e))).
    - destruct (match after with Some _ => _ | None => _ end); [done|]. by destruct (live e). }
  clear IH Ha Hs. rewrite Forall_fmap in Hall. induction es as [|e' es IH]; [done|].
  apply Forall_cons in Hc as [He' Hc]. apply Forall_cons in Hall as [Hlt Hall]. rewrite fmap_cons. cbn [omap list_omap].
  assert (bytes_lt p (pk (doc_of e')) = true) as Hp'.
  { unfold blt in Hlt. simpl in Hlt. rewrite He, He' in Hlt.
    assert (key_le (doc_of e) (doc_of e')) as Hle by (rewrite key_le_bytes, bytes_le_lteq; by left).
    apply key_le_cases in Hle as [Hlt'|[E _]]; [by eapply bytes_lt_trans|by rewrite <- E]. }
  assert (query_action p after e' = Stop) as ->; [|by apply IH].
  unfold query_action, bytes_eqb. rewrite bool_decide_eq_false_2, Hp'; [done|]. intros E. by rewrite E, bytes_lt_irrefl in Hp'.
Qed.

Lemma scan_stops cursor es : stops (scan_action cursor <$> es).
Proof.
  induction es as [|e es IH]; [done|]. rewrite fmap_cons. unfold scan_action at 1, read_live.
  destruct (match cursor with Some _ => _ | None => _ end); [done|]. by destruct (live e).
Qed.

Section budgeted.
Context `{Crc32c} {F W I : Type} `{DFL : DurableFileLaws F}.
Context (s0 : BTreeStore F W I) (env : Env).
Hypothesis base_committed : ∀ id p, e_base env !! id = Some p → committed_page s0 id p.

Abbreviation OvB := (ST (Overlay F W I * ResponseBudget) Error).
Abbreviation Bud := (ST ResponseBudget Error).

(** On every overlay that represents [g], [m] does to the budget what [n]
    does and leaves [g] as it is, unless the data file fails. *)
Definition budgeted {A} (g : Heap) (m : OvB A) (n : Bud A) : Prop :=
  ∀ o b, rep s0 env o g →
    (∃ o', m (o, b) = ((n b).1, (o', (n b).2)) ∧ rep s0 env o' g) ∨
    (∃ e, (m (o, b)).1 = Err e ∧ ¬ reliable (st_file s0) ∧ reads_base s0 env (ov_store (m (o, b)).2.1)).

Lemma budget_ret {A} g (a : A) : budgeted g (ret a) (ret a).
Proof. intros o b Ho. left. by exists o. Qed.

Lemma budget_lift {A} g (r : Result Error A) : budgeted g (lift r) (lift r).
Proof. intros o b Ho. left. by exists o. Qed.

Lemma reads_lift_bind {A B} g (r : Result Error A) a (k : A → OvB B) l :
  r = Ok a → budgeted g (k a) l → budgeted g (bind (lift r) k) l.
Proof. intros -> Hk o b Ho. by apply Hk. Qed.

Lemma reads_bind_in {A B} g (m : OvB A) (k : A → OvB B) n l :
  budgeted g m n → (∀ a b b', n b = (Ok a, b') → budgeted g (k a) (l a)) → budgeted g (bind m k) (bind n l).
Proof.
  intros Hm Hk o b Ho. rewrite !bind_eq. destruct (Hm o b Ho) as [(o1 & E1 & Ho1)|(e & E1 & Hr & Hb)].
  - rewrite E1. destruct (n b) as [[a|e| |] b1] eqn:En; cbn [fst snd]; [by eapply Hk|left; by exists o1..].
  - right. exists e. destruct (m (o, b)) as [r [o1 b1]]. cbn [fst snd] in *. by subst r.
Qed.

Lemma budget_bind {A B} g (m : OvB A) (k : A → OvB B) n l :
  budgeted g m n → (∀ a, budgeted g (k a) (l a)) → budgeted g (bind m k) (bind n l).
Proof. intros Hm Hk. apply reads_bind_in; auto. Qed.

Lemma reads_ext {A} g (m : OvB A) n n' : (∀ b, n b = n' b) → budgeted g m n → budgeted g m n'.
Proof. intros E Hm o b Ho. rewrite <- E. by apply Hm. Qed.

Lemma reads_assoc {A B C} g (m : OvB A) (k : A → OvB B) (k' : B → OvB C) n :
  budgeted g (bind m (λ a, bind (k a) k')) n → budgeted g (bind (bind m k) k') n.
Proof.
  intros Hm o b Ho. specialize (Hm o b Ho). assert (bind (bind m k) k' (o, b) = bind m (λ a, bind (k a) k') (o, b)) as ->; [|done].
  rewrite !bind_eq. by destruct (m (o, b)) as [[a|e| |] s].
Qed.

Lemma reads_ov {A} g (m : ST (Overlay F W I) Error A) a : runs s0 env g m a g → budgeted g (on_ov m) (ret a).
Proof.
  intros Hm o b Ho. unfold on_ov, zoom. cbn [fst snd]. destruct (Hm o Ho) as [(o1 & E1 & Ho1)|(e & E1 & Hr & Hb)].
  - left. exists o1. by rewrite E1.
  - right. exists e. destruct (m o) as [r o1]. simpl in *. by subst r.
Qed.

Lemma reads_wp {A} g (m : ST (Overlay F W I) Error A) a (Q : A → Prop) :
  wp s0 env g m (λ a g', Q a ∧ g' = g) → (∀ a', Q a' → a' = a) → budgeted g (on_ov m) (ret a).
Proof. intros (a' & g' & Hr & Ha & ->) HQ. rewrite (HQ _ Ha) in Hr. by apply reads_ov. Qed.

Lemma reads_budget {A} g (n : Bud A) : budgeted g (on_budget n) n.
Proof. intros o b Ho. left. exists o. unfold on_budget, zoom. simpl. by destruct (n b). Qed.

Lemma reads_ov_bind {A B} g (m : ST (Overlay F W I) Error A) (k : A → OvB B) a l :
  runs s0 env g m a g → budgeted g (k a) l → budgeted g (bind (on_ov m) k) l.
Proof.
  intros Hm Hk o b Ho. rewrite bind_eq. destruct (reads_ov g m a Hm o b Ho) as [(o1 & E1 & Ho1)|(e & E1 & Hr & Hb)].
  - rewrite E1. simpl. by apply Hk.
  - right. exists e. destruct (on_ov m (o, b)) as [r [o1 b1]]. cbn [fst snd] in *. by subst r.
Qed.

(** ** Values and lookups *)

Lemma value_owned g t fl e :
  db_at g t fl → e ∈ entries t → val_ok (ge_val e) ∧ ∃ T, owns g (value_pages (ge_val e) ++ T) fl [].
Proof.
  intros [O Ho Hf Hr] He. split.
  - apply (proj1 fits_vals_mut) in Hf. by eapply Forall_forall in Hf.
  - apply list_elem_of_split in He as (es1 & es2 & E). rewrite E in O.
    exists (tree_pages t None ++ entries_pages (es1 ++ es2)). eapply owns_perm; [exact O| |done].
    rewrite !entries_pages_app, entries_pages_cons. solve_Permutation.
Qed.

Definition state_len (s : RevisionState) : Z := match s with Present value _ => len value | Missing _ => 0 end.

(** The value of an entry: its length, and its bytes. *)
Lemma entry_value g t fl e ref :
  db_at g t fl → e ∈ entries t → ref_of (ge_val e) = Some ref →
  ∃ bytes, ge_state e = Present bytes (ge_rev e) ∧ value_length ref = Ok (len bytes) ∧
    runs s0 env g (read_value ref) bytes g.
Proof.
  intros D He Href. destruct (value_owned g t fl e D He) as (Hv & T & O).
  destruct (read_value_wp _ _ base_committed _ _ _ _ _ _ O Hv Href) as (bytes & g' & Hr & -> & ->).
  exists (val_bytes (ge_val e)). unfold ge_state. destruct (ge_val e) as [|b|links]; simpl in Href; simplify_eq; [by split_and!|].
  split_and!; [done| |done]. simpl. unfold usize_try_from. destruct Hv as (_ & _ & Hl & _).
  pose proof (len_nonneg (chain_bytes links)). by rewrite (proj2 (Z.leb_le _ _)) by lia.
Qed.

Lemma get_reads key g t fl :
  db_at g t fl →
  budgeted g (get_state_with_budget key)
    (do* lift (validate_encoded_key (DocumentKey_encode key)) in
     let s := state_at (content (entries t)) key in
     do* reserve_state (state_len s) in ret s).
Proof.
  intros D. unfold get_state_with_budget. apply budget_bind; [apply budget_lift|]. intros _.
  destruct (find_leaf_wp _ _ base_committed (DocumentKey_encode key) g t fl D)
    as ([id route] & g' & Hr & -> & c & lsn & es & -> & _ & Ha & Hb). cbn [fst] in *.
  eapply reads_ov_bind; [exact Hr|]. eapply reads_ov_bind; [by eapply db_leaf|]. cbn [lp_entries].
  pose proof (leaf_lookup (DocumentKey_encode key) c id lsn es (db_ordered _ _ _ D) Ha Hb) as Hfind. unfold state_at.
  destruct (find_entry _ _) as [x|]; [|rewrite Hfind; apply budget_bind; [apply reads_budget|intros _; apply budget_ret]].
  destruct Hfind as (e & He & -> & ->). cbn [default from_option]. unfold entry_of. cbn [le_value le_revision].
  destruct (ref_of (ge_val e)) as [ref|] eqn:Href.
  - destruct (entry_value g _ fl e ref D) as (bytes & -> & Hlen & Hrd); [rewrite plug_entries; simpl; set_solver|done|].
    eapply reads_lift_bind; [exact Hlen|]. apply budget_bind; [apply reads_budget|]. intros _.
    eapply reads_ov_bind; [exact Hrd|]. apply budget_ret.
  - destruct e as [k r [| |]]; try done. apply budget_bind; [apply reads_budget|]. intros _. apply budget_ret.
Qed.

(** ** Scans *)

Section tree.
Context (g : Heap) (t : tree) (fl : list (PageId * Lsn)).
Hypothesis D : db_at g t fl.

Lemma entry_decodes e : e ∈ entries t → decode_entry_key (entry_of e) = Ok (doc_of e).
Proof.
  intros He. pose proof (fits_canonical _ (db_fits _ _ _ D)) as Hc. eapply Forall_forall in Hc; [|exact He].
  unfold decode_entry_key. cbn [le_key entry_of]. by rewrite Hc, decode_encode_key.
Qed.

(** A live entry becomes a row. *)
Lemma push_row_reads e ref rows :
  e ∈ entries t → ref_of (ge_val e) = Some ref →
  ∃ d, live e = Some d ∧
    budgeted g (push_row (doc_of e) (entry_of e) ref rows)
      (do* reserve_document (doc_key d) (len (doc_value d)) in ret (rows ++ [d])).
Proof.
  intros He Href. destruct (entry_value g t fl e ref D He Href) as (bytes & Hst & Hlen & Hrd).
  exists (mkDocument (doc_of e) bytes (ge_rev e)). unfold live. rewrite Hst. split; [done|].
  unfold push_row. cbn [doc_key doc_value]. eapply reads_lift_bind; [exact Hlen|]. apply budget_bind; [apply reads_budget|]. intros _.
  eapply reads_ov_bind; [exact Hrd|]. apply budget_ret.
Qed.

Lemma dead_entry e : ref_of (ge_val e) = None → live e = None.
Proof. unfold live, ge_state. by destruct (ge_val e). Qed.

Lemma scan_entries_reads cursor limit es rows :
  (∀ e, e ∈ es → e ∈ entries t) →
  budgeted g (scan_entries cursor limit (entry_of <$> es) rows) (gather limit (scan_action cursor <$> es) rows).
Proof.
  revert rows. induction es as [|e es IH]; intros rows Hes; [apply budget_ret|]. rewrite !fmap_cons.
  cbn [scan_entries]. unfold scan_action at 1. change (le_key (entry_of e)) with (ge_key e).
  destruct (match cursor with Some _ => _ | None => _ end); [apply IH; set_solver|].
  eapply reads_lift_bind; [apply entry_decodes; set_solver|]. cbn [le_value entry_of]. unfold read_live.
  destruct (ref_of (ge_val e)) as [ref|] eqn:Href; [|rewrite dead_entry by done; apply IH; set_solver].
  destruct (push_row_reads e ref rows) as (d & -> & Hp); [set_solver|done|]. cbn [gather].
  eapply reads_ext; [|apply (budget_bind _ _ _ _ (λ rows, if len rows =? limit then ret (true, rows)
    else gather limit (scan_action cursor <$> es) rows) Hp)].
  - intros b. rewrite !bind_eq. by destruct (reserve_document _ _ b) as [[[]|?| |] b1].
  - intros rows'. destruct (_ =? limit); [apply budget_ret|]. apply IH. set_solver.
Qed.

Lemma chain_leaf id es ls : chain g ((id, es) :: ls) None → runs s0 env g (leaf id) (mkLeafPage (head_or ls None) (entry_of <$> es)) g.
Proof. intros ((lsn & Hp) & Hr & _). by eapply leaf_runs. Qed.

(** The walk along the leaf chain, leaf by leaf. *)
Fixpoint walk (limit : Z) (act : gentry → action) (ls : list (PageId * list gentry)) (rows : list Document) : Bud (list Document) :=
  match ls with
  | [] => ret rows
  | x :: ls =>
      let* '(stop, rows) := gather limit (act <$> x.2) rows in
      if (stop : bool) then ret rows else walk limit act ls rows
  end.

Lemma walk_gather limit act ls rows b :
  walk limit act ls rows b = (let* '(_, rows) := gather limit (act <$> leaf_entries ls) rows in ret rows) b.
Proof.
  revert rows b. induction ls as [|x ls IH]; intros rows b; [done|]. simpl. rewrite !bind_eq.
  change (leaf_entries (x :: ls)) with (x.2 ++ leaf_entries ls). rewrite fmap_app, gather_app, bind_eq.
  destruct (gather limit (act <$> x.2) rows b) as [[[[] rows']|e| |] b1]; try done.
Qed.

Lemma scan_leaves_reads cursor limit fuel id es ls visited rows :
  chain g ((id, es) :: ls) None → NoDup ((id, es) :: ls).*1 → (∀ x, x ∈ (id, es) :: ls → x.1 ∉ visited) →
  (length ls < fuel)%nat → (∀ e, e ∈ leaf_entries ((id, es) :: ls) → e ∈ entries t) →
  budgeted g (scan_leaves fuel cursor limit id visited rows) (walk limit (scan_action cursor) ((id, es) :: ls) rows).
Proof.
  revert ls id es visited rows. induction fuel as [|fuel IH]; intros ls id es visited rows Hch Hnd Hvis Hfuel Hes; [lia|].
  cbn [scan_leaves walk]. rewrite bool_decide_eq_false_2 by (apply (Hvis (id, es)); set_solver). cbn [negb].
  eapply reads_ov_bind; [by eapply chain_leaf|]. cbn [lp_entries lp_next_leaf].
  apply budget_bind; [apply scan_entries_reads; intros e He; apply Hes; unfold leaf_entries; set_solver|].
  intros [[] rows']; [apply budget_ret|]. destruct ls as [|[id' es'] ls]; cbn [head_or fst]; [apply budget_ret|].
  destruct Hch as (_ & _ & Hch). rewrite fmap_cons in Hnd. apply NoDup_cons in Hnd as [Hid Hnd]. apply IH; try done.
  - intros x Hx. rewrite not_elem_of_union, not_elem_of_singleton. split; [|apply Hvis; set_solver].
    intros <-. apply Hid. apply list_elem_of_fmap. by exists x.
  - simpl in Hfuel. lia.
  - intros e He. apply Hes. unfold leaf_entries in *. simpl in *. set_solver.
Qed.

Lemma leftmost_leaf_loop_runs fuel h next visited :
  (∀ x, x ∈ tree_pages h next → hp g !! x.1 = Some x.2 ∧ in_range g x.1) →
  NoDup (tree_pages h next).*1 → (∀ x, x ∈ tree_pages h next → x.1 ∉ visited) →
  (length (tree_pages h next) ≤ fuel)%nat →
  runs s0 env g (leftmost_leaf_loop fuel (tid h) visited) (first_leaf h) g.
Proof.
  revert h next visited. induction fuel as [|fuel IH]; intros h next visited Hp Hnd Hvis Hfuel.
  { destruct (tid_pages h next) as (p & ps & E). rewrite E in Hfuel. simpl in Hfuel. lia. }
  cbn [leftmost_leaf_loop]. destruct (tid_pages h next) as (p & ps & E).
  destruct (Hp (tid h, p)) as [Hpg Hr]; [rewrite E; set_solver|].
  rewrite bool_decide_eq_false_2 by (apply (Hvis (tid h, p)); rewrite E; set_solver). cbn [negb].
  eapply runs_bind; [by apply page_runs|]. destruct h as [id lsn es|id lsn t' f]; simpl in E; injection E as <- <-; [apply runs_ret|].
  simpl in Hp, Hnd, Hvis, Hfuel. rewrite fmap_app in Hnd. apply NoDup_cons in Hnd as [Hid Hnd].
  rewrite length_app in Hfuel. apply (IH t' (first_or f next)); [..|lia].
  - intros x Hx. apply Hp. set_solver.
  - by apply NoDup_app in Hnd as [Hnd _].
  - intros x Hx. rewrite not_elem_of_union, not_elem_of_singleton. split; [|apply Hvis; set_solver].
    intros Hx1. cbn in Hx1. apply Hid. rewrite <- Hx1. apply elem_of_app. left. apply list_elem_of_fmap. by exists x.
Qed.

Lemma tree_page_ids :
  (∀ x, x ∈ tree_pages t None → hp g !! x.1 = Some x.2 ∧ in_range g x.1) ∧ NoDup (tree_pages t None).*1 ∧
  (length (tree_pages t None) ≤ Z.to_nat (hhw g))%nat.
Proof.
  pose proof (db_owns _ _ _ D) as O. split_and!.
  - intros [id p] Hx. apply (owns_page _ _ _ _ O). set_solver.
  - pose proof (owns_NoDup _ _ _ _ O) as Hnd. rewrite fmap_app, <- app_assoc in Hnd. by apply NoDup_app in Hnd as [Hnd _].
  - apply owns_length in O. rewrite length_app in O. lia.
Qed.

Lemma leftmost_leaf_runs : runs s0 env g leftmost_leaf (first_leaf t) g.
Proof.
  destruct tree_page_ids as (Hp & Hnd & Hl). unfold leftmost_leaf. eapply runs_bind; [by apply runs_fuel|].
  eapply runs_bind; [apply runs_gets; intros o R; apply R|]. rewrite (db_root _ _ _ D).
  apply (leftmost_leaf_loop_runs _ t None); [done|done| |lia]. intros x _. apply not_elem_of_empty.
Qed.

(** A suffix of the leaf chain is ready to be walked. *)
Lemma chain_suffix l ls :
  leaves t = l ++ ls → chain g ls None ∧ NoDup ls.*1 ∧ (length ls ≤ Z.to_nat (hhw g))%nat ∧
  ∀ e, e ∈ leaf_entries ls → e ∈ entries t.
Proof.
  intros E. destruct tree_page_ids as (Hp & Hnd & Hl). pose proof (proj1 (tree_chain_mut g) t None Hp) as Hch.
  pose proof (proj1 leaves_pages_mut t None) as Hsub. pose proof (submseteq_length _ _ Hsub) as Hlen.
  rewrite !length_fmap in Hlen. rewrite E in Hch, Hlen, Hsub. apply leaves_app in Hch as [_ Hch]. rewrite length_app in Hlen.
  split_and!; [done| |lia|].
  - apply submseteq_Permutation in Hsub as [k Hk]. rewrite Hk, fmap_app, <- app_assoc in Hnd.
    apply NoDup_app in Hnd as (_ & _ & Hnd). by apply NoDup_app in Hnd as (Hnd & _).
  - intros e He. rewrite <- leaves_entries, E, leaf_entries_app. set_solver.
Qed.

(** The entries before the leaf of a key are before the key. *)
Lemma left_of_key c id lsn es key e :
  t = plug c (Lf id lsn es) → above (ctx_lo c) key → below (ctx_hi c) key → e ∈ ctx_left c →
  bytes_lt (ge_key e) key = true.
Proof.
  intros -> Ha Hb He. pose proof (db_ordered _ _ _ D) as [_ Hc]%plug_ordered.
  pose proof (ctx_sorted c key Hc Ha Hb) as Hs. apply keys_sorted_app in Hs as (_ & _ & Hlt).
  apply Hlt; [apply list_elem_of_fmap; by exists e|set_solver].
Qed.

(** A walk that starts at the leaf of a key skips only entries before the key. *)
Lemma walk_from_leaf c id lsn es key limit act rows b :
  t = plug c (Lf id lsn es) → above (ctx_lo c) key → below (ctx_hi c) key →
  (∀ e, e ∈ entries t → bytes_lt (ge_key e) key = true → act e = Skip) →
  walk limit act ((id, es) :: ctx_leaves_right c) rows b =
  (let* '(_, rows) := gather limit (act <$> entries t) rows in ret rows) b.
Proof.
  intros Ht Ha Hb Hskip. rewrite walk_gather, Ht, plug_entries.
  change (leaf_entries ((id, es) :: ctx_leaves_right c)) with (es ++ leaf_entries (ctx_leaves_right c)).
  rewrite ctx_leaves_right_entries. cbn [entries].
  assert (gather limit (act <$> ctx_left c ++ es ++ ctx_right c) rows = gather limit (act <$> es ++ ctx_right c) rows) as ->;
    [|done]. rewrite fmap_app. apply gather_skips. apply Forall_fmap, Forall_forall. intros e He. apply Hskip; [|by eapply left_of_key].
  rewrite Ht, plug_entries. set_solver.
Qed.

(** A scan returns the live documents behind the cursor, in key order. *)
Definition scan_spec (cursor : option DocumentKey) (limit : Z) : Bud (list Document) :=
  if limit =? 0 then ret []
  else
    do* lift (match cursor with Some key => validate_encoded_key (DocumentKey_encode key) | None => Ok tt end) in
    let* '(_, rows) := gather limit (scan_action (DocumentKey_encode <$> cursor) <$> entries t) [] in ret rows.

Lemma scan_reads cursor limit : budgeted g (scan_with_budget cursor limit) (scan_spec cursor limit).
Proof.
  unfold scan_with_budget, scan_spec. destruct (limit =? 0); [apply budget_ret|]. destruct cursor as [key|].
  - destruct (find_leaf_wp _ _ base_committed (DocumentKey_encode key) g t fl D)
      as ([id route] & g' & Hr & -> & c & lsn & es & Ht & _ & Ha & Hb). cbn [fst] in *.
    destruct (chain_suffix (ctx_leaves_left c) ((id, es) :: ctx_leaves_right c)) as (Hch & Hnd & Hl & Hes);
      [rewrite Ht, plug_leaves; done|].
    eapply (reads_ext _ _ (bind (bind (lift (validate_encoded_key (DocumentKey_encode key))) (λ _, ret id)) (λ _,
      let* '(_, rows) := gather limit (scan_action (Some (DocumentKey_encode key)) <$> entries t) [] in ret rows))).
    { intros b. rewrite !bind_eq. by destruct (validate_encoded_key _). }
    apply reads_bind_in.
    { apply budget_bind; [apply budget_lift|]. intros _. eapply reads_ov_bind; [exact Hr|]. apply budget_ret. }
    intros id' b b' E. assert (id' = id) as -> by (rewrite bind_eq in E; unfold lift, ret in E; destruct (validate_encoded_key _); congruence).
    eapply reads_ov_bind; [by apply runs_fuel|].
    eapply reads_ext; [intros b''; apply (walk_from_leaf c id lsn es (DocumentKey_encode key)); try done|].
    { intros e _ He. unfold scan_action. by rewrite (proj2 (bytes_le_lteq _ _)) by (by left). }
    apply scan_leaves_reads; try done. simpl in Hl. lia.
  - destruct (leaves t) as [|[id es] ls] eqn:E.
    { pose proof (leaves_head t None) as Hh. by rewrite E in Hh. }
    destruct (chain_suffix [] ((id, es) :: ls) E) as (Hch & Hnd & Hl & Hes).
    pose proof (leaves_head t None) as Hh. rewrite E in Hh. injection Hh as Hh.
    eapply reads_ov_bind; [apply leftmost_leaf_runs|]. eapply reads_ov_bind; [by apply runs_fuel|]. rewrite <- Hh.
    eapply (reads_ext _ _ (walk limit (scan_action None) ((id, es) :: ls) [])).
    { intros b. rewrite walk_gather, <- E, leaves_entries. done. }
    apply scan_leaves_reads; try done. simpl in Hl. lia.
Qed.

(** ** Queries *)

(** The flag that a query keeps for the cursor makes no difference. *)
Lemma query_entries_reads {B} p after limit es first rows (k : bool → list Document → OvB B) l :
  (∀ e, e ∈ es → e ∈ entries t) → len rows < limit →
  (∀ stop rows, stop = true ∨ len rows < limit → budgeted g (k stop rows) (l stop rows)) →
  budgeted g (let* '(stop, _, rows) :=
             query_entries p after ((λ s, DocumentKey_encode (mkKey p s)) <$> after) limit (entry_of <$> es) first rows in
           k stop rows)
    (let* '(stop, rows) := gather limit (query_action p after <$> es) rows in l stop rows).
Proof.
  intros Hes Hl Hk. revert first rows Hl. induction es as [|e es IH]; intros first rows Hl; [apply Hk; auto|].
  specialize (IH ltac:(set_solver)). rewrite !fmap_cons. cbn [query_entries]. change (le_key (entry_of e)) with (ge_key e).
  assert (ge_key e = DocumentKey_encode (doc_of e)) as He.
  { pose proof (fits_canonical _ (db_fits _ _ _ D)) as Hc. eapply Forall_forall in Hc; [exact Hc|set_solver]. }
  destruct (first && _) eqn:Hfirst.
  { apply andb_true_iff in Hfirst as [_ Hle]. destruct after as [s|]; [|done]. simpl in Hle.
    rewrite query_action_cursor by done. by apply IH. }
  apply reads_assoc. eapply reads_lift_bind; [apply entry_decodes; set_solver|]. unfold query_action at 1.
  destruct (negb _); [destruct (bytes_lt p _); [apply Hk; auto|by apply IH]|].
  destruct (match after with Some _ => _ | None => _ end); [by apply IH|]. unfold read_live. cbn [le_value entry_of].
  destruct (ref_of (ge_val e)) as [ref|] eqn:Href; [|rewrite dead_entry by done; by apply IH].
  destruct (push_row_reads e ref rows) as (d & -> & Hp); [set_solver|done|]. cbn [gather]. apply reads_assoc.
  eapply reads_ext; [|apply (reads_bind_in _ _ _ _ (λ rows, if len rows =? limit then l true rows
    else let* '(stop, rows) := gather limit (query_action p after <$> es) rows in l stop rows) Hp)].
  - intros b. rewrite !bind_eq. destruct (reserve_document _ _ b) as [[[]|?| |] b1]; try done. simpl.
    by destruct (_ =? limit).
  - intros rows' b b' E. rewrite bind_eq in E. destruct (reserve_document _ _ b) as [[[]|?| |] b1]; try done.
    injection E as <- _. len_simpl. destruct (_ =? limit) eqn:Elim; bool_props; [apply Hk; auto|]. apply IH. len_simpl. lia.
Qed.

Lemma query_leaves_reads p after limit fuel id es ls visited first rows :
  chain g ((id, es) :: ls) None → NoDup ((id, es) :: ls).*1 → (∀ x, x ∈ (id, es) :: ls → x.1 ∉ visited) →
  (length ls < fuel)%nat → (∀ e, e ∈ leaf_entries ((id, es) :: ls) → e ∈ entries t) → len rows < limit →
  budgeted g (query_leaves fuel p after ((λ s, DocumentKey_encode (mkKey p s)) <$> after) limit id first visited rows)
    (walk limit (query_action p after) ((id, es) :: ls) rows).
Proof.
  revert ls id es visited first rows.
  induction fuel as [|fuel IH]; intros ls id es visited first rows Hch Hnd Hvis Hfuel Hes Hl; [lia|].
  cbn [query_leaves walk]. rewrite (proj2 (Z.ltb_lt _ _) Hl).
  rewrite bool_decide_eq_false_2 by (apply (Hvis (id, es)); set_solver). cbn [negb].
  eapply reads_ov_bind; [by eapply chain_leaf|]. cbn [lp_entries lp_next_leaf].
  eapply (query_entries_reads p after limit es first rows (λ stop rows, if stop then _ else _)
    (λ stop rows, if (stop : bool) then ret rows else walk limit (query_action p after) ls rows)); [|done|].
  { intros e He. apply Hes. unfold leaf_entries. set_solver. }
  intros [] rows' Hl'; [apply budget_ret|]. destruct Hl' as [?|Hl']; [done|].
  destruct ls as [|[id' es'] ls]; cbn [head_or fst]; [apply budget_ret|].
  destruct Hch as (_ & _ & Hch). rewrite fmap_cons in Hnd. apply NoDup_cons in Hnd as [Hid Hnd]. apply IH; try done.
  - intros x Hx. rewrite not_elem_of_union, not_elem_of_singleton. split; [|apply Hvis; set_solver].
    intros <-. apply Hid. apply list_elem_of_fmap. by exists x.
  - simpl in Hfuel. lia.
  - intros e He. apply Hes. unfold leaf_entries in *. simpl in *. set_solver.
Qed.

(** A query returns the live documents of a partition behind the cursor, in
    key order. *)
Definition query_spec (p : PrimaryKey) (after : option SortKey) (limit : Z) : Bud (list Document) :=
  if limit =? 0 then ret []
  else
    do* lift (validate_encoded_key (DocumentKey_encode (mkKey p []))) in
    do* lift (match after with Some s => validate_encoded_key (DocumentKey_encode (mkKey p s)) | None => Ok tt end) in
    let* '(_, rows) := gather limit (query_action p after <$> entries t) [] in ret rows.

Lemma query_reads p after limit : 0 ≤ limit → budgeted g (query_with_budget p after limit) (query_spec p after limit).
Proof.
  intros Hlim. unfold query_with_budget, query_spec. destruct (limit =? 0) eqn:E0; [apply budget_ret|]. bool_props.
  destruct (find_leaf_wp _ _ base_committed (DocumentKey_encode (mkKey p [])) g t fl D)
    as ([id route] & g' & Hr & -> & c & lsn & es & Ht & _ & Ha & Hb). cbn [fst] in *.
  destruct (chain_suffix (ctx_leaves_left c) ((id, es) :: ctx_leaves_right c)) as (Hch & Hnd & Hl & Hes);
    [rewrite Ht, plug_leaves; done|].
  apply budget_bind; [apply budget_lift|]. intros _. eapply reads_ov_bind; [exact Hr|].
  eapply budget_bind; [by destruct after; apply budget_lift|]. intros _. eapply reads_ov_bind; [by apply runs_fuel|].
  eapply reads_ext; [intros b; apply (walk_from_leaf c id lsn es (DocumentKey_encode (mkKey p []))); try done|].
  { intros e He. apply query_action_before. pose proof (fits_canonical _ (db_fits _ _ _ D)) as Hc.
    by eapply Forall_forall in Hc. }
  apply query_leaves_reads; try done; [simpl in Hl|change (len []) with 0]; lia.
Qed.

End tree.

End budgeted.
