(* ===== verification/CheckerSpec.v ===== *)
(** * CheckerSpec: the checker accepts what the tree operations build

    On a data file that holds the pages of a tree in order, its overflow chains
    and its free list, [check] returns and reports that no page has leaked. *)

From stdpp Require Import list_numbers.
From S2P Require Import Prelude Core Crc Page Superblock DurableFile Wal Format FormatCodec Cache StoreState Store Heap Tree Own Split TreeOps Point Checker ReadOps.

(** ** What a walk has seen *)

Definition seen (ids : list PageId) (keys : list (list byte)) (lvs : list PageId) (revs : list Revision)
    (st : TreeCheckState) : TreeCheckState :=
  mkTreeCheck (list_to_set ids ∪ tc_reachable st) (list_to_set keys ∪ tc_keys st) (tc_leaves st ++ lvs)
    (foldl Z.max (tc_max_revision st) revs).

Lemma seen_nil st : seen [] [] [] [] st = st.
Proof. destruct st. unfold seen. simpl. f_equal; try set_solver. apply app_nil_r. Qed.

Lemma seen_seen i1 k1 l1 r1 i2 k2 l2 r2 st :
  seen i2 k2 l2 r2 (seen i1 k1 l1 r1 st) = seen (i1 ++ i2) (k1 ++ k2) (l1 ++ l2) (r1 ++ r2) st.
Proof.
  unfold seen. simpl. f_equal.
  - rewrite list_to_set_app_L. set_solver.
  - rewrite list_to_set_app_L. set_solver.
  - by rewrite app_assoc.
  - by rewrite foldl_app.
Qed.

Lemma seen_perm i i' k l r st : i ≡ₚ i' → seen i k l r st = seen i' k l r st.
Proof. intros Hi. unfold seen. f_equal. apply set_eq. intros x. rewrite !elem_of_union, !elem_of_list_to_set, Hi. done. Qed.

Definition fresh (ids : list PageId) (st : TreeCheckState) : Prop := NoDup ids ∧ ∀ id, id ∈ ids → id ∉ tc_reachable st.

Lemma fresh_app ids ids' k l r st : fresh (ids ++ ids') st → fresh ids st ∧ fresh ids' (seen ids k l r st).
Proof.
  intros [(H1 & H2 & H3)%NoDup_app Hf]. split; (split; [done|]); intros id Hid.
  - apply Hf. set_solver.
  - simpl. rewrite elem_of_union, elem_of_list_to_set. intros [Hin|Hin]; [by eapply H2|]. by apply (Hf id); [set_solver|].
Qed.

Lemma fresh_perm ids ids' st : ids ≡ₚ ids' → fresh ids st → fresh ids' st.
Proof. intros Hp [H1 H2]. split; [by rewrite <- Hp|]. intros id. rewrite <- Hp. auto. Qed.

Section checks.
Context `{Crc32c} {F : Type} `{DFL : DurableFileLaws F}.
(** The bytes of the data file, and the pages it holds. *)
Context (c : list byte) (g : Heap).

Definition page_at (id : PageId) (p : PageData) : Prop :=
  (id + 1) * PAGE_SIZE ≤ len c ∧ decodes (sub c (id * PAGE_SIZE) (id * PAGE_SIZE + PAGE_SIZE)) id p.

Hypothesis room : len c ≤ U64_MAX.
Hypothesis holds : ∀ id p, hp g !! id = Some p → in_range g id → page_at id p.

(** ** Walks without failures *)

(** [m] only reads a file with these bytes, and gives [a]. *)
Definition sees {A} (m : ST F Error A) (a : A) : Prop := ∀ f, contents f = c → reads f (m f) a.

Lemma sees_ret {A} (a : A) : sees (ret a) a.
Proof. intros f _. apply reads_ret. Qed.
Lemma sees_lift {A} m (a : A) : m = Ok a → sees (lift m) a.
Proof. intros Hm f _. by apply reads_lift. Qed.
Lemma sees_bind {A B} (m : ST F Error A) (k : A → ST F Error B) a b : sees m a → sees (k a) b → sees (bind m k) b.
Proof. intros Hm Hk f Hf. eapply reads_bind; [by apply Hm|]. intros f' Hc _. apply Hk. congruence. Qed.
Lemma sees_lift_bind {A B} m (k : A → ST F Error B) a b : m = Ok a → sees (k a) b → sees (bind (lift m) k) b.
Proof. intros Hm. apply sees_bind. by apply sees_lift. Qed.

(** [m], started with [st], gives [a] and [st']. *)
Definition visits {A} (st : TreeCheckState) (m : ST (F * TreeCheckState) Error A) (a : A) (st' : TreeCheckState) : Prop :=
  ∀ f, contents f = c → let out := m (f, st) in
    reads f (out.1, out.2.1) a ∧ (is_ok out.1 = true → out.2.2 = st').

Lemma visits_ret {A} st (a : A) : visits st (ret a) a st.
Proof. intros f _. split; [apply reads_ret|done]. Qed.
Lemma visits_lift {A} st m (a : A) : m = Ok a → visits st (lift m) a st.
Proof. intros -> f _. split; [apply reads_ret|done]. Qed.
Lemma visits_gets {A} st (u : F * TreeCheckState → A) a : (∀ f, u (f, st) = a) → visits st (gets u) a st.
Proof. intros Hu f _. unfold gets. simpl. rewrite Hu. split; [apply reads_ret|done]. Qed.
Lemma visits_modify st u : visits st (modify_check u) tt (u st).
Proof. intros f _. split; [apply reads_ret|done]. Qed.
Lemma visits_file {A} st (m : ST F Error A) a : sees m a → visits st (on_check_file m) a st.
Proof.
  intros Hm f Hf. specialize (Hm f Hf). unfold on_check_file, zoom. simpl. by destruct (m f) as [r f'].
Qed.
Lemma visits_bind {A B} st st1 st2 (m : ST (F * TreeCheckState) Error A) (k : A → ST (F * TreeCheckState) Error B) a b :
  visits st m a st1 → visits st1 (k a) b st2 → visits st (bind m k) b st2.
Proof.
  intros Hm Hk f Hf. destruct (Hm f Hf) as [(Hc & Hd & Hr & Hrel) Hst]. rewrite bind_eq.
  destruct (m (f, st)) as [r [f1 st1']]. simpl in *.
  destruct Hr as [->|(e & -> & Hnr)]; [|simpl; split; [|done]; split_and!; try done; right; by exists e].
  rewrite (Hst eq_refl). destruct (Hk f1) as [(Hc2 & Hd2 & Hr2 & Hrel2) Hst2]; [congruence|].
  split; [|done]. split_and!; [congruence|congruence| |auto].
  destruct Hr2 as [->|(e & -> & Hnr)]; [by left|right]. exists e. split; [done|]. auto.
Qed.
Lemma visits_post {A} st (m : ST (F * TreeCheckState) Error A) a a' st1 st2 :
  visits st m a st1 → a = a' → st1 = st2 → visits st m a' st2.
Proof. by intros ? -> ->. Qed.

Lemma check_page_ok id : in_range g id → checker_check_page_id (hhw g) id = Ok tt.
Proof.
  intros [H1 H2]. unfold checker_check_page_id. rewrite (proj2 (Z.ltb_ge id _)), (proj2 (Z.ltb_ge _ id)) by lia. done.
Qed.

Lemma sees_page id p : hp g !! id = Some p → in_range g id → sees (checker_read_page (hhw g) id) p.
Proof.
  intros Hp Hr. destruct (holds id p Hp Hr) as (Hl & d & E1 & E2). unfold checker_read_page. destruct Hr as [Hr1 Hr2].
  eapply sees_lift_bind; [by apply check_page_ok|].
  eapply sees_lift_bind; [unfold plain_mul; by rewrite (proj2 (Z.leb_le _ _)) by lia|].
  eapply (sees_bind _ _ (sub c (id * PAGE_SIZE) (id * PAGE_SIZE + PAGE_SIZE))).
  { intros f Hf. rewrite <- Hf. unfold read_exact_at. apply reads_exact; rewrite ?Hf; [apply adds_plain|lia..]. }
  eapply sees_lift_bind; [exact E1|]. by apply sees_lift.
Qed.

Lemma visits_page st id p :
  hp g !! id = Some p → in_range g id → visits st (on_check_file (checker_read_page (hhw g) id)) p st.
Proof. intros Hp Hr. by apply visits_file, sees_page. Qed.

Lemma visits_mark st id twice :
  id ∉ tc_reachable st → visits st (mark_reachable id twice) tt (seen [id] [] [] [] st).
Proof.
  intros Hid. unfold mark_reachable. eapply visits_bind; [by apply (visits_gets _ _ (tc_reachable st))|].
  rewrite bool_decide_eq_false_2 by done. cbn [negb]. eapply visits_post; [apply visits_modify|done|].
  destruct st. unfold seen, set_tc_reachable. simpl. f_equal; [set_solver..|by rewrite app_nil_r].
Qed.

(** ** Overflow chains *)

Lemma visits_chain total links st fuel visited n count :
  (∀ x, x ∈ chain_pages total links → hp g !! x.1 = Some x.2 ∧ in_range g x.1) →
  fresh (link_id <$> links) st → (∀ id, id ∈ visited → id ∈ tc_reachable st) →
  (length links ≤ fuel)%nat → count + len links ≤ MAX_OVERFLOW_PAGES → 0 ≤ n → n + len (chain_bytes links) ≤ U64_MAX →
  visits st (check_overflow_loop (hhw g) fuel total (link_id <$> head links) visited n count)
    (n + len (chain_bytes links)) (seen (link_id <$> links) [] [] [] st).
Proof.
  revert st fuel visited n count. induction links as [|l links IH]; intros st fuel visited n count Hp Hfr Hv Hfuel Hc Hn Hu.
  { eapply visits_post; [destruct fuel; apply visits_ret|by rewrite Z.add_0_r|by rewrite seen_nil]. }
  destruct fuel as [|fuel]; [simpl in Hfuel; lia|]. rewrite fmap_cons in *. rewrite len_cons in Hc. pose proof (len_nonneg links).
  destruct (fresh_app [link_id l] (link_id <$> links) [] [] [] st Hfr) as [[_ Hl] Hfr'].
  specialize (Hl (link_id l) ltac:(set_solver)).
  cbn [head fmap option_fmap option_map check_overflow_loop].
  rewrite (proj2 (Z.leb_gt _ _)), bool_decide_eq_false_2 by (lia || auto). cbn [orb negb].
  eapply visits_bind; [by apply visits_mark|].
  destruct (Hp (link_id l, POverflow l.1.2 (link_id <$> head links) total l.2)) as [Hp1 Hp2]; [simpl; set_solver|].
  eapply visits_bind; [by apply visits_page|]. cbn [snd]. cbn beta iota. rewrite Z.eqb_refl.
  rewrite chain_bytes_cons, len_app in *. pose proof (len_nonneg l.2). pose proof (len_nonneg (chain_bytes links)).
  eapply visits_bind; [apply visits_lift; unfold checked_add; by rewrite (proj2 (Z.leb_le _ _)) by lia|].
  eapply visits_post; [apply IH|lia|]; try lia; try done.
  - intros x Hx. apply Hp. simpl. set_solver.
  - intros id. rewrite elem_of_union, elem_of_singleton. simpl. specialize (Hv id). set_solver.
  - simpl in Hfuel. lia.
  - by rewrite seen_seen.
Qed.

Lemma visits_overflow links head length st :
  (∀ x, x ∈ value_pages (VChain links) → hp g !! x.1 = Some x.2 ∧ in_range g x.1) → val_ok (VChain links) →
  fresh (value_pages (VChain links)).*1 st → ref_of (VChain links) = Some (Overflow head length) →
  visits st (check_overflow (hhw g) head length) tt (seen (value_pages (VChain links)).*1 [] [] [] st).
Proof.
  intros Hp (Hne & Hn & Hlen & Hch) Hfr [= <- <-]. simpl in *. rewrite chain_fst in *.
  destruct links as [|l links]; [done|]. apply Forall_cons in Hch as [Hl _].
  unfold check_overflow. pose proof (len_nonneg (chain_bytes links)).
  assert (0 < len (chain_bytes (l :: links))) as Hpos by (rewrite chain_bytes_cons, len_app; lia).
  rewrite (proj2 (Z.eqb_neq _ 0)), (proj2 (Z.ltb_ge _ _)) by lia. cbn [orb negb].
  eapply visits_bind.
  { apply (visits_chain _ (l :: links) st OVERFLOW_FUEL ∅ 0 0); try done; try lia.
    unfold OVERFLOW_FUEL. unfold len in Hn. lia. }
  cbn beta iota. rewrite Z.add_0_l, Z.eqb_refl. apply visits_ret.
Qed.

(** ** Leaves *)

Definition present (T : list (PageId * PageData)) : Prop := ∀ x, x ∈ T → hp g !! x.1 = Some x.2 ∧ in_range g x.1.

(** Nothing of a part has been seen yet. *)
Definition unseen (ids : list PageId) (keys : list (list byte)) (st : TreeCheckState) : Prop :=
  fresh ids st ∧ NoDup keys ∧ ∀ k, k ∈ keys → k ∉ tc_keys st.

Lemma unseen_app ids ids' keys keys' l r st :
  unseen (ids ++ ids') (keys ++ keys') st → unseen ids keys st ∧ unseen ids' keys' (seen ids keys l r st).
Proof.
  intros (Hf & (H1 & H2 & H3)%NoDup_app & Hk). apply (fresh_app _ _ keys l r) in Hf as [Hf1 Hf2].
  split; (split; [done|]); (split; [done|]); intros k Hin.
  - apply Hk. set_solver.
  - simpl. rewrite elem_of_union, elem_of_list_to_set. intros [Hin'|Hin']; [by eapply H2|]. by apply (Hk k); [set_solver|].
Qed.

Lemma unseen_perm ids ids' keys st : ids ≡ₚ ids' → unseen ids keys st → unseen ids' keys st.
Proof. intros Hp [Hf Hk]. split; [by eapply fresh_perm|done]. Qed.

Definition entry_fine (lo hi : option (list byte)) (e : gentry) : Prop :=
  within lo hi e ∧ 0 < ge_rev e ∧ val_ok (ge_val e).

Lemma visits_entry lo hi b e st :
  present (value_pages (ge_val e)) → entry_fine lo hi e → unseen (value_pages (ge_val e)).*1 [ge_key e] st →
  visits st (check_leaf_entry (hhw g) lo hi b (entry_of e))
    (match b.1 with Some m => Some m | None => Some (ge_key e) end, Some (ge_key e))
    (seen (value_pages (ge_val e)).*1 [ge_key e] [] [ge_rev e] st).
Proof.
  intros Hp ([Hlo Hhi] & Hrev & Hv) (Hfr & _ & Hk). unfold check_leaf_entry. cbn [entry_of le_key le_revision le_value].
  assert (is_some_and lo (λ bound, bytes_lt (ge_key e) bound) = false) as ->.
  { destruct lo as [l|]; [|done]. simpl in *. rewrite bytes_le_negb in Hlo. by apply negb_true_iff. }
  assert (is_some_and hi (λ bound, bytes_le bound (ge_key e)) = false) as ->.
  { destruct hi as [h|]; [|done]. simpl in *. by rewrite bytes_le_negb, Hhi. }
  rewrite (proj2 (Z.eqb_neq _ 0)) by lia. cbn [orb negb].
  eapply visits_bind; [by apply (visits_gets _ _ (tc_keys st))|].
  rewrite bool_decide_eq_false_2 by (apply Hk; set_solver). cbn [negb].
  eapply visits_bind; [apply visits_modify|]. eapply visits_bind; [apply visits_modify|].
  set (st1 := set_tc_max_revision _ _).
  assert (seen [] [ge_key e] [] [ge_rev e] st = st1) as E1.
  { destruct st. unfold seen, st1, set_tc_max_revision, set_tc_keys. simpl. f_equal; [set_solver..|by rewrite app_nil_r]. }
  rewrite <- E1. clear E1 st1. eapply visits_bind; [|by apply visits_ret].
  set (st1 := seen [] _ [] _ st). assert (fresh (value_pages (ge_val e)).*1 st1) as Hfr1.
  { apply (fresh_app [] _ [ge_key e] [] [ge_rev e] st Hfr). }
  assert (seen (value_pages (ge_val e)).*1 [ge_key e] [] [ge_rev e] st = seen (value_pages (ge_val e)).*1 [] [] [] st1) as ->.
  { unfold st1. by rewrite seen_seen. }
  destruct (ge_val e) as [|bytes|links] eqn:Ev.
  - simpl. rewrite seen_nil. apply visits_ret.
  - simpl in Hv |- *. rewrite seen_nil, (proj2 (Z.ltb_ge _ _)) by done. cbn [negb]. apply visits_ret.
  - eapply visits_overflow; done.
Qed.

(** The first and the last key below a page. *)
Definition bounds_of (es : list gentry) : KeyBounds := (ge_key <$> head es, ge_key <$> last es).

Definition extend (b : KeyBounds) (es : list gentry) : KeyBounds :=
  (match b.1 with Some m => Some m | None => ge_key <$> head es end,
   match last es with Some e => Some (ge_key e) | None => b.2 end).

Lemma visits_entries lo hi es b st :
  present (entries_pages es) → Forall (entry_fine lo hi) es → unseen (entries_pages es).*1 (ge_key <$> es) st →
  visits st (foldM (check_leaf_entry (hhw g) lo hi) b (entry_of <$> es)) (extend b es)
    (seen (entries_pages es).*1 (ge_key <$> es) [] (ge_rev <$> es) st).
Proof.
  revert b st. induction es as [|e es IH]; intros b st Hp Hf Hu.
  { eapply visits_post; [apply visits_ret|by destruct b as [[] ?]|by rewrite seen_nil]. }
  apply Forall_cons in Hf as [He Hf]. rewrite fmap_cons. cbn [foldM]. unfold entries_pages in *. cbn [mbind list_bind] in *.
  rewrite fmap_app in *. destruct (unseen_app _ _ [ge_key e] _ [] [ge_rev e] st Hu) as [Hu1 Hu2].
  eapply visits_bind; [apply visits_entry; [intros x Hx; apply Hp; set_solver|done|done]|].
  eapply visits_post; [apply (IH _ _)|..].
  - intros x Hx. apply Hp. set_solver.
  - done.
  - done.
  - unfold extend. cbn [fst snd head]. rewrite last_cons. destruct (last es), b as [[] ?]; done.
  - by rewrite seen_seen.
Qed.

(** ** The tree *)

Fixpoint forest_bounds (f : forest) : list KeyBounds :=
  match f with FNil => [] | FCons _ t f => bounds_of (entries t) :: forest_bounds f end.

Lemma find_map_app {A B} (u : A → option B) l1 l2 :
  find_map u (l1 ++ l2) = match find_map u l1 with Some b => Some b | None => find_map u l2 end.
Proof. induction l1 as [|x l1 IH]; simpl; [done|]. by destruct (u x). Qed.

Lemma forest_first f : find_map fst (forest_bounds f) = ge_key <$> head (forest_entries f).
Proof.
  induction f as [|k t f IH]; [done|]. cbn [forest_bounds find_map forest_entries bounds_of fst].
  destruct (entries t); [exact IH|done].
Qed.

Lemma forest_last f : find_map snd (rev (forest_bounds f)) = ge_key <$> last (forest_entries f).
Proof.
  induction f as [|k t f IH]; [done|]. cbn [forest_bounds rev forest_entries]. rewrite find_map_app, IH, last_app.
  destruct (last (forest_entries f)); [done|]. cbn [find_map bounds_of snd]. by destruct (last (entries t)).
Qed.

Lemma node_bounds t f :
  (find_map fst (bounds_of (entries t) :: forest_bounds f),
   find_map snd (rev (bounds_of (entries t) :: forest_bounds f))) = bounds_of (entries t ++ forest_entries f).
Proof.
  unfold bounds_of at 3. f_equal; [exact (forest_first (FCons [] t f))|exact (forest_last (FCons [] t f))].
Qed.

(** The separators lie between the keys of the children. *)
Lemma separators_checked f lo hi (b0 : KeyBounds) (pre : list KeyBounds) :
  (∀ k, forest_hi f None = Some k → ∀ m, b0.2 = Some m → bytes_lt m k = true) → forest_ordered lo hi f →
  Forall (λ x, check_separator (pre ++ b0 :: forest_bounds f) x = Ok tt) (imap (λ i e, ((length pre + i)%nat, e)) (seps f)).
Proof.
  revert lo b0 pre. induction f as [|k t f IH]; intros lo b0 pre Hb Ho; [constructor|].
  destruct Ho as (_ & _ & Ht & Hf). cbn [seps forest_bounds]. rewrite imap_cons. constructor.
  - unfold check_separator. rewrite Nat.add_0_r. cbn beta iota.
    assert (∀ {A} (l1 : list A) x y l2, index (E:=Error) (l1 ++ x :: y :: l2) (Z.of_nat (length l1)) = Ok x ∧
      index (E:=Error) (l1 ++ x :: y :: l2) (Z.of_nat (length l1) + 1) = Ok y) as Hi.
    { intros A l1 x y l2. unfold index. rewrite !(proj2 (Z.leb_le 0 _)) by lia. split.
      - by rewrite Nat2Z.id, list_lookup_middle.
      - replace (Z.to_nat (Z.of_nat (length l1) + 1)) with (length (l1 ++ [x])) by (rewrite length_app; simpl; lia).
        change (l1 ++ x :: y :: l2) with (l1 ++ [x] ++ y :: l2). by rewrite app_assoc, list_lookup_middle. }
    destruct (Hi KeyBounds pre b0 (bounds_of (entries t)) (forest_bounds f)) as [-> ->]. cbn [rbind ie_key].
    assert (is_some_and b0.2 (λ left_max, bytes_le k left_max) = false) as ->.
    { destruct (b0.2) as [m|]; [|done]. simpl. by rewrite bytes_le_negb, (Hb k eq_refl m). }
    assert (is_some_and (bounds_of (entries t)).1 (λ right_min, bytes_lt right_min k) = false) as ->.
    { apply ordered_entries in Ht as [_ Ht]. destruct (entries t) as [|e es]; [done|]. apply Forall_cons in Ht as [[Ht _] _].
      simpl in *. rewrite bytes_le_negb in Ht. by apply negb_true_iff. }
    done.
  - specialize (IH (Some k) (bounds_of (entries t)) (pre ++ [b0])). rewrite <- app_assoc in IH. cbn [app] in IH.
    rewrite (imap_ext _ (λ i e, ((length (pre ++ [b0]) + i)%nat, e))) by (intros i x _; simpl; rewrite length_app; simpl; f_equal; lia).
    apply IH; [|done]. intros k' Hk' m Hm. apply ordered_entries in Ht as [_ Ht]. simpl in Hm.
    destruct (last (entries t)) as [e|] eqn:El; [|done]. simplify_eq/=.
    eapply Forall_forall in Ht as [_ Ht]; [|by eapply list_elem_of_lookup_2; rewrite <- last_lookup; exact El].
    destruct f; simplify_eq/=. done.
Qed.

(** The pages of a part of the tree. *)
Definition part_pages (T : list (PageId * PageData)) (es : list gentry) : list (PageId * PageData) := T ++ entries_pages es.

Lemma part_pages_app T1 T2 es1 es2 : part_pages (T1 ++ T2) (es1 ++ es2) ≡ₚ part_pages T1 es1 ++ part_pages T2 es2.
Proof. unfold part_pages, entries_pages. rewrite bind_app, <- !app_assoc. solve_Permutation. Qed.

Lemma present_perm T T' : T ≡ₚ T' → present T → present T'.
Proof. intros Hp Hpr x. rewrite <- Hp. apply Hpr. Qed.

Lemma present_app T T' : present (T ++ T') → present T ∧ present T'.
Proof. intros Hp. split; intros x Hx; apply Hp; set_solver. Qed.

Definition revs_pos (es : list gentry) : Prop := Forall (λ e, 0 < ge_rev e) es.

Lemma fits_entries_fine lo hi es :
  Forall (within lo hi) es → revs_pos es → Forall (λ e, val_ok (ge_val e)) es → Forall (entry_fine lo hi) es.
Proof. unfold revs_pos. intros H1 H2 H3. rewrite Forall_forall in *. intros e He. split_and!; auto. Qed.

Lemma split_part T1 T2 es1 es2 lvs st :
  present (part_pages (T1 ++ T2) (es1 ++ es2)) →
  unseen (part_pages (T1 ++ T2) (es1 ++ es2)).*1 (ge_key <$> (es1 ++ es2)) st →
  (present (part_pages T1 es1) ∧ unseen (part_pages T1 es1).*1 (ge_key <$> es1) st) ∧
  (present (part_pages T2 es2) ∧
   unseen (part_pages T2 es2).*1 (ge_key <$> es2) (seen (part_pages T1 es1).*1 (ge_key <$> es1) lvs (ge_rev <$> es1) st)).
Proof.
  intros Hp Hu. pose proof (part_pages_app T1 T2 es1 es2) as Hperm.
  apply (present_perm _ _ Hperm), present_app in Hp as [Hp1 Hp2]. apply (fmap_Permutation fst) in Hperm.
  apply (unseen_perm _ _ _ _ Hperm) in Hu. rewrite !fmap_app in Hu. apply (unseen_app _ _ _ _ lvs (ge_rev <$> es1)) in Hu as [Hu1 Hu2].
  done.
Qed.

Lemma seen_part T1 T2 es1 es2 l1 l2 st :
  seen (part_pages T2 es2).*1 (ge_key <$> es2) l2 (ge_rev <$> es2) (seen (part_pages T1 es1).*1 (ge_key <$> es1) l1 (ge_rev <$> es1) st) =
  seen (part_pages (T1 ++ T2) (es1 ++ es2)).*1 (ge_key <$> (es1 ++ es2)) (l1 ++ l2) (ge_rev <$> (es1 ++ es2)) st.
Proof.
  rewrite seen_seen, !fmap_app. apply seen_perm. rewrite <- fmap_app. apply fmap_Permutation. symmetry. apply part_pages_app.
Qed.

Lemma visits_tree_mut :
  (∀ t lo hi next st fuel,
     present (part_pages (tree_pages t next) (entries t)) → ordered lo hi t → fits t → revs_pos (entries t) →
     unseen (part_pages (tree_pages t next) (entries t)).*1 (ge_key <$> entries t) st → (length (tree_pages t next) ≤ fuel)%nat →
     visits st (visit_tree (hhw g) fuel (tid t) lo hi) (bounds_of (entries t))
       (seen (part_pages (tree_pages t next) (entries t)).*1 (ge_key <$> entries t) (leaves t).*1 (ge_rev <$> entries t) st)) ∧
  (∀ f lo hi next st fuel,
     present (part_pages (forest_pages f next) (forest_entries f)) → forest_ordered lo hi f → forest_fits f → revs_pos (forest_entries f) →
     unseen (part_pages (forest_pages f next) (forest_entries f)).*1 (ge_key <$> forest_entries f) st →
     (length (forest_pages f next) ≤ fuel)%nat →
     visits st (mapM (λ '(child, (child_lower, child_upper)), visit_tree (hhw g) fuel child child_lower child_upper)
         (zip (right_child <$> seps f) (inner_bounds (seps f) hi))) (forest_bounds f)
       (seen (part_pages (forest_pages f next) (forest_entries f)).*1 (ge_key <$> forest_entries f) (forest_leaves f).*1
         (ge_rev <$> forest_entries f) st)).
Proof.
  apply tree_forest_ind.
  - intros id lsn es lo hi next st fuel Hp [_ Ho] [_ Hv] Hr Hu Hfuel. destruct fuel as [|fuel]; [simpl in Hfuel; lia|].
    cbn [visit_tree tid entries tree_pages leaves] in *. unfold part_pages in *. cbn [app] in *. rewrite fmap_cons in *. cbn [fst] in *.
    destruct (unseen_app [id] _ [] _ [] [] st Hu) as [[[_ Hid] _] Hu'].
    eapply visits_bind; [apply visits_mark, Hid; set_solver|].
    destruct (Hp (id, PLeaf lsn next (entry_of <$> es))) as [Hp1 Hp2]; [set_solver|].
    eapply visits_bind; [by eapply visits_page|]. cbn beta iota.
    eapply visits_bind; [apply (visits_entries lo hi es (None, None)); [intros x Hx; apply Hp; set_solver|by apply fits_entries_fine|done]|].
    eapply visits_bind; [apply visits_modify|]. eapply visits_post; [apply visits_ret| |].
    + unfold extend, bounds_of. simpl. by destruct (last es).
    + rewrite seen_seen. unfold seen, set_tc_leaves. simpl. f_equal. by rewrite app_nil_r.
  - intros id lsn t IHt f IHf lo hi next st fuel Hp [Ho1 Ho2] ((_ & Hne) & Hf1 & Hf2) Hr Hu Hfuel.
    destruct fuel as [|fuel]; [simpl in Hfuel; lia|]. cbn [visit_tree tid entries tree_pages leaves] in *.
    destruct (unseen_app [id] _ [] _ [] [] st Hu) as [[[_ Hid] _] Hu'].
    eapply visits_bind; [apply visits_mark, Hid; set_solver|].
    destruct (Hp (id, PInternal lsn (tid t) (seps f))) as [Hp1 Hp2]; [set_solver|].
    eapply visits_bind; [by eapply visits_page|]. cbn [snd]. cbn beta iota.
    assert (is_empty (seps f) = false) as -> by (by destruct (seps f)). cbn [negb].
    assert (present (part_pages (tree_pages t (first_or f next) ++ forest_pages f next) (entries t ++ forest_entries f))) as Hp'
      by (intros x Hx; apply Hp; unfold part_pages in *; set_solver).
    cbn [length] in Hfuel. rewrite length_app in Hfuel. apply Forall_app in Hr as [Hr1 Hr2].
    destruct (split_part _ _ _ _ (leaves t).*1 _ Hp' Hu') as [[Hpt Hut] [Hpf Huf]].
    eapply visits_bind.
    { cbn [child_bounds zip fmap list_fmap mapM]. eapply visits_bind.
      - replace (match seps f with [] => hi | e :: _ => Some (ie_key e) end) with (forest_hi f hi) by (by destruct f).
        eapply IHt; try done. lia.
      - cbn beta iota. eapply visits_bind; [eapply IHf; try done; lia|]. apply visits_ret. }
    cbn beta iota. eapply visits_bind.
    { apply visits_lift, foldR_units. eapply (separators_checked f lo hi _ []); [|done].
      intros k Hk m Hm. apply ordered_entries in Ho1 as [_ Ho1]. simpl in Hm.
      destruct (last (entries t)) as [e|] eqn:El; [|done]. simplify_eq/=.
      eapply Forall_forall in Ho1 as [_ Ho1]; [|by eapply list_elem_of_lookup_2; rewrite <- last_lookup; exact El].
      destruct f; simplify_eq/=. done. }
    eapply visits_post; [apply visits_ret|apply node_bounds|]. rewrite seen_part, seen_seen. by rewrite <- fmap_app.
  - intros lo hi next st fuel _ _ _ _ _ _. eapply visits_post; [apply visits_ret|done|]. by rewrite seen_nil.
  - intros k t IHt f IHf lo hi next st fuel Hp (_ & _ & Ho1 & Ho2) (Hf1 & Hf2) Hr Hu Hfuel.
    cbn [forest_pages forest_entries forest_bounds forest_leaves seps inner_bounds zip fmap list_fmap mapM right_child ie_key] in *.
    rewrite length_app in Hfuel. apply Forall_app in Hr as [Hr1 Hr2].
    destruct (split_part _ _ _ _ (leaves t).*1 _ Hp Hu) as [[Hpt Hut] [Hpf Huf]].
    eapply visits_bind.
    { replace (match seps f with [] => hi | e :: _ => Some (ie_key e) end) with (forest_hi f hi) by (by destruct f).
      eapply IHt; try done. lia. }
    eapply visits_bind; [eapply IHf; try done; lia|]. eapply visits_post; [apply visits_ret|done|]. by rewrite seen_part, <- fmap_app.
Qed.

(** ** The leaf chain and the free list *)

Lemma sees_leftmost t next fuel visited :
  present (tree_pages t next) → NoDup (tree_pages t next).*1 → (∀ id, id ∈ (tree_pages t next).*1 → id ∉ visited) →
  (length (tree_pages t next) ≤ fuel)%nat →
  sees (checker_leftmost_leaf (hhw g) fuel (tid t) visited) (first_leaf t).
Proof.
  revert t next fuel visited. apply (tree_mut (λ t, ∀ next fuel visited, present (tree_pages t next) → NoDup (tree_pages t next).*1 →
    (∀ id, id ∈ (tree_pages t next).*1 → id ∉ visited) → (length (tree_pages t next) ≤ fuel)%nat →
    sees (checker_leftmost_leaf (hhw g) fuel (tid t) visited) (first_leaf t)) (λ _, True)); try done.
  - intros id lsn es next fuel visited Hp _ Hv Hfuel. destruct fuel as [|fuel]; [simpl in Hfuel; lia|].
    cbn [checker_leftmost_leaf tid first_leaf tree_pages] in *. rewrite bool_decide_eq_false_2 by (apply Hv; set_solver). cbn [negb].
    destruct (Hp (id, PLeaf lsn next (entry_of <$> es))) as [Hp1 Hp2]; [set_solver|].
    eapply sees_bind; [by eapply sees_page|]. apply sees_ret.
  - intros id lsn t IH f _ next fuel visited Hp Hnd Hv Hfuel. destruct fuel as [|fuel]; [simpl in Hfuel; lia|].
    cbn [checker_leftmost_leaf tid first_leaf tree_pages] in *. rewrite bool_decide_eq_false_2 by (apply Hv; set_solver). cbn [negb].
    destruct (Hp (id, PInternal lsn (tid t) (seps f))) as [Hp1 Hp2]; [set_solver|].
    eapply sees_bind; [by eapply sees_page|]. cbn [snd]. cbn beta iota.
    rewrite fmap_cons, fmap_app, NoDup_cons, NoDup_app in Hnd. cbn [fst] in Hnd. destruct Hnd as (Hid & Hnd & _).
    cbn [length] in Hfuel. rewrite length_app in Hfuel. apply (IH (first_or f next)); [|done| |lia].
    + intros x Hx. apply Hp. set_solver.
    + intros i Hi. rewrite elem_of_union, elem_of_singleton. intros [->|Hin]; [set_solver|]. apply (Hv i); [|done].
      rewrite fmap_cons, fmap_app. set_solver.
Qed.

(** Keys in order pass, whatever page they are on. *)
Lemma key_order_checked es prev :
  keys_sorted (ge_key <$> es) → (∀ p e, prev = Some p → e ∈ es → bytes_lt p (ge_key e) = true) →
  foldR check_key_order prev (entry_of <$> es) = Ok (match last es with Some e => Some (ge_key e) | None => prev end).
Proof.
  revert prev. induction es as [|e es IH]; intros prev Hs Hp; [done|]. rewrite fmap_cons in *. cbn [foldR].
  apply StronglySorted_inv in Hs as [Hs Hall]. unfold check_key_order at 1. cbn [entry_of le_key].
  assert (is_some_and prev (λ previous, bytes_le (ge_key e) previous) = false) as ->.
  { destruct prev as [p|]; [|done]. simpl. rewrite bytes_le_negb, (Hp p e) by set_solver. done. }
  cbn [negb rbind]. rewrite IH; [|done|].
  - rewrite last_cons. by destruct (last es).
  - intros p e' [= <-] He'. eapply Forall_forall in Hall; [exact Hall|]. apply list_elem_of_fmap. by exists e'.
Qed.

Lemma sees_leaf_chain reachable ls fuel visited prev done :
  chain g ls None → NoDup ls.*1 → (∀ x, x ∈ ls → x.1 ∈ reachable ∧ (x.1 ∉ visited)) →
  keys_sorted (ge_key <$> leaf_entries ls) → (∀ p e, prev = Some p → e ∈ leaf_entries ls → bytes_lt p (ge_key e) = true) →
  (length ls ≤ fuel)%nat →
  sees (leaf_chain_loop (hhw g) fuel reachable (head_or ls None) visited prev done) (done ++ ls.*1).
Proof.
  revert fuel visited prev done. induction ls as [|[id es] ls IH]; intros fuel visited prev done Hc Hnd Hr Hs Hp Hfuel.
  { destruct fuel; simpl; rewrite app_nil_r; apply sees_ret. }
  destruct fuel as [|fuel]; [simpl in Hfuel; lia|]. destruct Hc as ((lsn & Hpg) & Hrng & Hc).
  rewrite fmap_cons, NoDup_cons in *. cbn [fst] in *. destruct Hnd as [Hid Hnd]. destruct (Hr (id, es)) as [Hr1 Hr2]; [set_solver|].
  cbn [head_or leaf_chain_loop fst] in *. rewrite bool_decide_eq_false_2, bool_decide_eq_true_2 by done. cbn [negb].
  eapply sees_bind; [by eapply sees_page|]. cbn [snd]. cbn beta iota.
  unfold leaf_entries in *. cbn [mbind list_bind snd] in *. rewrite fmap_app in Hs. apply keys_sorted_app in Hs as (Hs1 & Hs2 & Hs3).
  eapply sees_lift_bind; [apply key_order_checked; [done|intros; eapply Hp; set_solver]|].
  replace (done ++ id :: ls.*1) with ((done ++ [id]) ++ ls.*1) by (by rewrite <- app_assoc).
  apply IH; try done.
  - intros x Hx. destruct (Hr x) as [Hx1 Hx2]; [set_solver|]. split; [done|]. rewrite elem_of_union, elem_of_singleton.
    intros [E|Hin]; [|done]. apply Hid. rewrite <- E. apply list_elem_of_fmap. by exists x.
  - intros p e Hpe He. destruct (last es) as [e0|] eqn:El; [|eapply Hp; set_solver]. injection Hpe as <-.
    apply Hs3; apply list_elem_of_fmap; [exists e0|by exists e]. split; [done|].
    eapply list_elem_of_lookup_2. rewrite <- last_lookup. exact El.
  - simpl in Hfuel. lia.
Qed.

Lemma sees_free_list reachable fl fuel free :
  present (free_list_pages fl) → NoDup fl.*1 → (∀ id, id ∈ fl.*1 → (id ∉ reachable) ∧ (id ∉ free)) → (length fl ≤ fuel)%nat →
  sees (free_list_loop (hhw g) fuel reachable (fst <$> head fl) free) (list_to_set fl.*1 ∪ free).
Proof.
  revert fuel free. induction fl as [|[id lsn] fl IH]; intros fuel free Hp Hnd Hr Hfuel.
  { destruct fuel; simpl; rewrite (left_id_L ∅ (∪)); apply sees_ret. }
  destruct fuel as [|fuel]; [simpl in Hfuel; lia|]. rewrite fmap_cons, NoDup_cons in *. destruct Hnd as [Hid Hnd].
  destruct (Hr id) as [Hr1 Hr2]; [set_solver|].
  cbn [head fmap option_fmap option_map fst free_list_loop list_to_set free_list_pages] in *.
  destruct (Hp (id, PFree lsn (fst <$> head fl))) as [Hp1 Hp2]; [set_solver|].
  eapply sees_lift_bind; [by apply check_page_ok|]. rewrite !bool_decide_eq_false_2 by done. cbn [negb].
  eapply sees_bind; [by eapply sees_page|]. cbn [snd]. cbn beta iota.
  replace ({[id]} ∪ list_to_set fl.*1 ∪ free) with (list_to_set fl.*1 ∪ ({[id]} ∪ free) : gset PageId) by set_solver.
  apply IH; [|done| |simpl in Hfuel; lia].
  - intros x Hx. apply Hp. set_solver.
  - intros i Hi. destruct (Hr i) as [? ?]; [set_solver|]. split; [done|]. set_solver.
Qed.

(** ** The whole check *)

(** What the check reports of a tree: nothing leaks. *)
Definition report_of (t : tree) (fl : list (PageId * Lsn)) : InvariantReport :=
  mkReport (len (part_pages (tree_pages t None) (entries t))) (len fl) [] (foldl Z.max 0 (ge_rev <$> entries t)).

Lemma size_list_to_set (l : list PageId) : NoDup l → Z.of_nat (size (list_to_set l : gset PageId)) = len l.
Proof. intros Hnd. by rewrite size_list_to_set. Qed.

Section whole.
Context (t : tree) (fl : list (PageId * Lsn)).
Hypothesis DB : db_at g t fl.
Hypothesis revs : revs_pos (entries t).

Let T : list (PageId * PageData) := part_pages (tree_pages t None) (entries t).
Let final : TreeCheckState :=
  seen T.*1 (ge_key <$> entries t) (leaves t).*1 (ge_rev <$> entries t) TreeCheckState_default.

Lemma whole_ids : T.*1 ++ fl.*1 ≡ₚ seqZ FIRST_DATA_PAGE (hhw g - 1).
Proof. destruct DB as [O _ _ _]. by rewrite <- (own_ids _ _ _ _ O), app_nil_r. Qed.

Lemma whole_NoDup : NoDup (T.*1 ++ fl.*1).
Proof. rewrite whole_ids. apply NoDup_seqZ. Qed.

Lemma whole_fuel : (length T + length fl ≤ check_fuel (hhw g))%nat.
Proof.
  pose proof (Permutation_length whole_ids) as Hl. rewrite length_app, !length_fmap, length_seqZ in Hl. unfold check_fuel. lia.
Qed.

Lemma whole_present : present T ∧ present (free_list_pages fl).
Proof.
  destruct DB as [O _ _ _]. split; [intros [id p] Hx; by eapply owns_page|]. intros x Hx.
  split; [by apply (own_free_pages _ _ _ _ O)|]. eapply owns_in_range; [exact O|].
  rewrite app_nil_r, elem_of_app, <- free_list_fst. right. apply list_elem_of_fmap. by exists x.
Qed.

Lemma final_reachable id : id ∈ tc_reachable final ↔ id ∈ T.*1.
Proof. unfold final. simpl. rewrite elem_of_union, elem_of_list_to_set. split; [by intros [|?%elem_of_empty]|by left]. Qed.

Lemma leaked_none :
  filter (λ page_id : PageId, (page_id ∉ tc_reachable final) ∧ (page_id ∉ (list_to_set fl.*1 ∪ ∅ : gset PageId)))
    ((λ i, i + FIRST_DATA_PAGE) <$> range_to (hhw g + 1 - FIRST_DATA_PAGE)) = [].
Proof.
  apply elem_of_nil_inv. intros id [[H1 H2] Hin]%list_elem_of_filter.
  assert (id ∈ T.*1 ++ fl.*1) as [Hx|Hx]%elem_of_app.
  - rewrite whole_ids, elem_of_seqZ. apply list_elem_of_fmap in Hin as (i & -> & (n & -> & Hn%elem_of_seq)%list_elem_of_fmap). lia.
  - by apply H1, final_reachable.
  - apply H2, elem_of_union_l, elem_of_list_to_set, Hx.
Qed.

(** What [check] does behind the walk of the tree. *)
Lemma sees_rest :
  sees (let* leftmost := checker_leftmost_leaf (hhw g) (check_fuel (hhw g)) (tid t) ∅ in
   do* check_leaf_chain (hhw g) (tc_leaves final) leftmost (tc_reachable final) in
   let* free := free_list_loop (hhw g) (check_fuel (hhw g)) (tc_reachable final) (hfree g) ∅ in
   let leaked := filter (λ page_id : PageId, (page_id ∉ tc_reachable final) ∧ (page_id ∉ free))
                   ((λ i, i + FIRST_DATA_PAGE) <$> range_to (hhw g + 1 - FIRST_DATA_PAGE)) in
   ret (mkReport (Z.of_nat (size (tc_reachable final))) (Z.of_nat (size free)) leaked (tc_max_revision final)))
  (report_of t fl).
Proof.
  pose proof whole_NoDup as (HndT & Hdis & Hndf)%NoDup_app. destruct whole_present as [HpT HpF]. pose proof whole_fuel as Hfuel.
  assert (∀ x, x ∈ tree_pages t None → x ∈ T) as Hsub by (unfold T, part_pages; set_solver).
  assert (length (tree_pages t None) ≤ length T)%nat by (unfold T, part_pages; rewrite length_app; lia).
  assert (NoDup (tree_pages t None).*1) as HndP.
  { unfold T, part_pages in HndT. rewrite fmap_app in HndT. by apply NoDup_app in HndT as [? _]. }
  pose proof (proj1 leaves_pages_mut t None) as Hlv.
  destruct DB as [O Ho Hf Hroot]. pose proof (ordered_entries _ _ _ Ho) as [Hsorted _].
  eapply sees_bind; [apply (sees_leftmost t None); [intros x Hx; by apply HpT, Hsub|done|intros id _; apply not_elem_of_empty|lia]|].
  eapply (sees_bind _ _ tt).
  { unfold check_leaf_chain. eapply sees_bind.
    - replace (Some (first_leaf t)) with (head_or (leaves t) None) by apply leaves_head.
      apply (sees_leaf_chain (tc_reachable final) (leaves t) _ ∅ None []); try done.
      + apply (proj1 (tree_chain_mut g)). intros x Hx. by apply HpT, Hsub.
      + apply submseteq_Permutation in Hlv as [k Hk]. rewrite Hk in HndP. by apply NoDup_app in HndP as [? _].
      + intros x Hx. split; [|apply not_elem_of_empty]. apply final_reachable.
        assert (x.1 ∈ (tree_pages t None).*1) as Hin by (eapply elem_of_submseteq; [|exact Hlv]; apply list_elem_of_fmap; by exists x).
        unfold T, part_pages. rewrite fmap_app. set_solver.
      + by rewrite leaves_entries.
      + apply submseteq_length in Hlv. rewrite !length_fmap in Hlv. lia.
    - cbn [app]. rewrite bool_decide_eq_true_2 by done. apply sees_ret. }
  eapply sees_bind.
  { rewrite (own_head _ _ _ _ O). apply (sees_free_list (tc_reachable final) fl _ ∅); [done|done| |lia].
    intros id Hid. split; [|apply not_elem_of_empty]. rewrite final_reachable. intros Hin. by apply (Hdis id). }
  cbv zeta. rewrite leaked_none. unfold report_of. rewrite (right_id_L ∅ (∪)), size_list_to_set by done.
  unfold final at 1. cbn [seen tc_reachable TreeCheckState_default tc_max_revision]. rewrite (right_id_L ∅ (∪)), size_list_to_set by done.
  unfold len. rewrite !length_fmap. apply sees_ret.
Qed.

Lemma check_reads f : contents f = c → reads f (check (hhw g) (hroot g) (hfree g) f) (report_of t fl).
Proof.
  intros Hc. pose proof sees_rest as Hrest. pose proof whole_NoDup as (HndT & _)%NoDup_app.
  destruct whole_present as [HpT _]. pose proof whole_fuel as Hfuel.
  assert (length (tree_pages t None) ≤ length T)%nat by (unfold T, part_pages; rewrite length_app; lia).
  destruct DB as [O Ho Hf Hroot]. pose proof (ordered_entries _ _ _ Ho) as [Hsorted _].
  assert (unseen T.*1 (ge_key <$> entries t) TreeCheckState_default) as Hun.
  { split; [by split; [|intros id _; apply not_elem_of_empty]|]. split; [by apply keys_sorted_NoDup|]. intros k _. apply not_elem_of_empty. }
  pose proof (proj1 visits_tree_mut t None None None TreeCheckState_default (check_fuel (hhw g)) HpT Ho Hf revs Hun ltac:(lia) f Hc) as [Hv Hst].
  unfold check. rewrite Hroot.
  destruct (visit_tree (hhw g) (check_fuel (hhw g)) (tid t) None None (f, TreeCheckState_default)) as [r [f1 st1]]. cbn [fst snd] in *.
  destruct Hv as (Hc1 & Hd1 & Hr & Hrel1); cbn [fst snd] in *.
  destruct Hr as [->|(e & -> & Hnr)]; [|split_and!; [done|done|right; by exists e|done]].
  rewrite (Hst eq_refl). rewrite bind_eq. unfold lift. fold final.
  destruct (Hrest f1 ltac:(congruence)) as (E1 & E2 & E3 & E4). split_and!; [etrans; [exact E1|done]|etrans; [exact E2|done]| |auto].
  destruct E3 as [E3|(e & E3 & Hnr)]; [by left|right; exists e; auto].
Qed.

End whole.

End checks.
