(* ===== verification/Restamp.v ===== *)
(** * Restamp: giving a transaction's pages their commit LSN

    A transaction writes with a provisional revision; when it is finished, the
    pages it changed get its commit LSN, and its entries the commit's revision.
    The lemmas follow this through the tree, the overflow chains and the free
    list; the pages then encode, and decode to what they hold. *)

From stdpp Require Import list_numbers.
From S2P Require Import Prelude Core Crc Page Superblock DurableFile Wal Format FormatCodec Cache Reference StoreState Store Heap Tree Own Split TreeOps Point ReadOps.

(** ** On trees *)

Section restamp.
Context (D : gset PageId) (prov : Revision) (com : Lsn).

Definition rs_page (x : PageId * PageData) : PageId * PageData :=
  (x.1, if decide (x.1 ∈ D) then PageData_restamp prov com x.2 else x.2).
Definition rs_lsn (id : PageId) (lsn : Lsn) : Lsn := if decide (id ∈ D) then com else lsn.
Definition rs_link (l : PageId * Lsn * list byte) : PageId * Lsn * list byte := (l.1.1, rs_lsn l.1.1 l.1.2, l.2).
Definition rs_val (v : gval) : gval := match v with VChain links => VChain (rs_link <$> links) | _ => v end.
Definition rs_entry (e : gentry) : gentry :=
  mkGEntry (ge_key e) (restamp_revision prov com (ge_rev e)) (rs_val (ge_val e)).
Definition rs_free (x : PageId * Lsn) : PageId * Lsn := (x.1, rs_lsn x.1 x.2).

Fixpoint rs_tree (t : tree) : tree :=
  match t with
  | Lf id lsn es => Lf id (rs_lsn id lsn) (rs_entry <$> es)
  | Nd id lsn t f => Nd id (rs_lsn id lsn) (rs_tree t) (rs_forest f)
  end
with rs_forest (f : forest) : forest :=
  match f with FNil => FNil | FCons k t f => FCons k (rs_tree t) (rs_forest f) end.

(** The page holds no provisional revision. *)
Definition settled (p : PageData) : Prop :=
  match p with PLeaf _ _ es => Forall (λ e, le_revision e ≠ prov) es | _ => True end.

Lemma rs_chain_bytes links : chain_bytes (rs_link <$> links) = chain_bytes links.
Proof. induction links as [|l links IH]; [done|]. by rewrite fmap_cons, !chain_bytes_cons, IH. Qed.

Lemma rs_chain_head links : link_id <$> head (rs_link <$> links) = link_id <$> head links.
Proof. by destruct links. Qed.

Lemma rs_ref v : ref_of (rs_val v) = ref_of v.
Proof. destruct v as [| |links]; simpl; try done. by rewrite rs_chain_bytes, rs_chain_head. Qed.

Lemma rs_val_ok v : val_ok v → val_ok (rs_val v).
Proof.
  destruct v as [| |links]; simpl; try done. intros (Hne & Hn & Hl & Hc). rewrite rs_chain_bytes. split_and!.
  - by destruct links.
  - unfold len in *. by rewrite length_fmap.
  - done.
  - rewrite Forall_fmap. exact Hc.
Qed.

Lemma rs_entry_of e : entry_of (rs_entry e) = restamp_entry prov com (entry_of e).
Proof.
  unfold entry_of, restamp_entry, rs_entry. simpl. rewrite rs_ref. unfold restamp_revision, revision_from_lsn.
  by destruct (_ =? _).
Qed.

Lemma rs_entries_of (es : list gentry) : entry_of <$> (rs_entry <$> es) = restamp_entry prov com <$> (entry_of <$> es).
Proof. rewrite <- !list_fmap_compose. apply list_fmap_ext. intros _ e _. apply rs_entry_of. Qed.

Lemma rs_keys (es : list gentry) : ge_key <$> (rs_entry <$> es) = ge_key <$> es.
Proof. by rewrite <- list_fmap_compose. Qed.

Lemma rs_state e : ge_state (rs_entry e) = restamp_state prov com (ge_state e).
Proof.
  unfold ge_state, restamp_state, rs_entry, restamp_revision. destruct e as [k r [| |links]]; simpl;
    rewrite ?rs_chain_bytes; by destruct (r =? prov).
Qed.

Lemma rs_chain_pages total links : chain_pages total (rs_link <$> links) = rs_page <$> chain_pages total links.
Proof.
  induction links as [|l links IH]; [done|]. rewrite fmap_cons. cbn [chain_pages]. rewrite fmap_cons, IH, rs_chain_head.
  f_equal. unfold rs_page, rs_link, link_id, rs_lsn. simpl. by case_decide.
Qed.

Lemma rs_entries_pages es : entries_pages (rs_entry <$> es) = rs_page <$> entries_pages es.
Proof.
  induction es as [|e es IH]; [done|]. rewrite fmap_cons, !entries_pages_cons, fmap_app, IH. f_equal.
  destruct e as [k r [| |links]]; simpl; try done. by rewrite rs_chain_bytes, rs_chain_pages.
Qed.

Lemma rs_free_pages fl : free_list_pages (rs_free <$> fl) = rs_page <$> free_list_pages fl.
Proof.
  induction fl as [|x fl IH]; [done|]. rewrite fmap_cons. cbn [free_list_pages]. rewrite fmap_cons, IH. f_equal.
  assert (fst <$> head (rs_free <$> fl) = fst <$> head fl) as -> by (by destruct fl).
  unfold rs_page, rs_free, rs_lsn. simpl. by case_decide.
Qed.

Lemma rs_tid t : tid (rs_tree t) = tid t.
Proof. by destruct t. Qed.
Lemma rs_first_leaf t : first_leaf (rs_tree t) = first_leaf t.
Proof.
  revert t. apply (tree_mut (λ t, first_leaf (rs_tree t) = first_leaf t) (λ _, True)); simpl; auto.
Qed.
Lemma rs_first_or f next : first_or (rs_forest f) next = first_or f next.
Proof. destruct f; simpl; [done|]. by rewrite rs_first_leaf. Qed.
Lemma rs_seps f : seps (rs_forest f) = seps f.
Proof. induction f as [|k t f IH]; simpl; [done|]. by rewrite IH, rs_tid. Qed.

Lemma settled_entries (es : list LeafEntry) : Forall (λ e, le_revision e ≠ prov) es → restamp_entry prov com <$> es = es.
Proof.
  induction 1 as [|e es He _ IH]; [done|]. rewrite fmap_cons, IH. f_equal. unfold restamp_entry.
  by rewrite (proj2 (Z.eqb_neq _ _) He).
Qed.

Lemma rs_tree_pages_mut :
  (∀ t next, (∀ x, x ∈ tree_pages t next → (x.1 ∉ D) → settled x.2) →
     tree_pages (rs_tree t) next = rs_page <$> tree_pages t next) ∧
  (∀ f next, (∀ x, x ∈ forest_pages f next → (x.1 ∉ D) → settled x.2) →
     forest_pages (rs_forest f) next = rs_page <$> forest_pages f next).
Proof.
  apply tree_forest_ind; simpl; [..|done|].
  - intros id lsn es next Hs. rewrite rs_entries_of. unfold rs_page, rs_lsn. simpl. case_decide as Hd; [done|].
    rewrite settled_entries; [done|]. apply (Hs (id, PLeaf lsn next (entry_of <$> es))); [set_solver|done].
  - intros id lsn t IHt f IHf next Hs. rewrite rs_tid, rs_seps, rs_first_or, IHt, IHf, fmap_app by (intros x Hx; apply Hs; set_solver).
    f_equal. unfold rs_page, rs_lsn. simpl. by case_decide.
  - intros k t IHt f IHf next Hs. by rewrite rs_first_or, IHt, IHf, fmap_app by (intros x Hx; apply Hs; set_solver).
Qed.

Lemma rs_entries_mut :
  (∀ t, entries (rs_tree t) = rs_entry <$> entries t) ∧ (∀ f, forest_entries (rs_forest f) = rs_entry <$> forest_entries f).
Proof. apply tree_forest_ind; simpl; intros; rewrite ?fmap_app; congruence. Qed.

Lemma rs_hi f hi : forest_hi (rs_forest f) hi = forest_hi f hi.
Proof. by destruct f. Qed.

Lemma rs_ordered_mut :
  (∀ t lo hi, ordered lo hi t → ordered lo hi (rs_tree t)) ∧
  (∀ f lo hi, forest_ordered lo hi f → forest_ordered lo hi (rs_forest f)).
Proof.
  apply tree_forest_ind; simpl; intros; rewrite ?rs_hi, ?rs_keys, ?Forall_fmap; naive_solver.
Qed.

Lemma rs_leaf_ok es : leaf_ok (entry_of <$> es) → leaf_ok (entry_of <$> (rs_entry <$> es)).
Proof.
  intros (Hs & Henc & Hsize). rewrite entry_keys in Hs. unfold leaf_ok. rewrite entry_keys, rs_keys. split_and!; [done| |].
  - rewrite !Forall_fmap in *. exact Henc.
  - rewrite leaf_size_cost in *. enough (cost leaf_cost (entry_of <$> (rs_entry <$> es)) = cost leaf_cost (entry_of <$> es)) as -> by done.
    clear. induction es as [|e es IH]; [done|]. rewrite !fmap_cons, !cost_cons, IH. f_equal.
    unfold leaf_cost, leaf_record_size. simpl. by rewrite rs_ref.
Qed.

Lemma rs_fits_mut : (∀ t, fits t → fits (rs_tree t)) ∧ (∀ f, forest_fits f → forest_fits (rs_forest f)).
Proof.
  apply tree_forest_ind; simpl; try tauto.
  - intros id lsn es [Hok Hv]. split; [by apply rs_leaf_ok|]. apply Forall_fmap. eapply Forall_impl; [exact Hv|].
    intros e. apply rs_val_ok.
  - intros id lsn t IHt f IHf. rewrite rs_tid, rs_seps. tauto.
Qed.

Lemma rs_content es : content (rs_entry <$> es) = restamp_state prov com <$> content es.
Proof.
  unfold content. rewrite <- list_to_map_fmap, <- !list_fmap_compose. f_equal. apply list_fmap_ext. intros _ e _.
  simpl. by rewrite rs_state.
Qed.

End restamp.

(** ** On heaps *)

Definition heap_restamp (D : gset PageId) (prov : Revision) (com : Lsn) (g : Heap) : Heap :=
  mkHeap (map_imap (λ id p, Some (rs_page D prov com (id, p)).2) (hp g)) (hdirty g) (hroot g) (hfree g) (hhw g)
    (hlast g) (hnext g).

Lemma heap_restamp_lookup D prov com g id :
  hp (heap_restamp D prov com g) !! id = (λ p, (rs_page D prov com (id, p)).2) <$> hp g !! id.
Proof. simpl. rewrite map_lookup_imap. by destruct (hp g !! id). Qed.

Lemma rs_page_fst D prov com (T : list (PageId * PageData)) : (rs_page D prov com <$> T).*1 = T.*1.
Proof. by rewrite <- list_fmap_compose. Qed.

Lemma owns_restamp D prov com g T fl lim :
  owns g T fl lim → owns (heap_restamp D prov com g) (rs_page D prov com <$> T) (rs_free D com <$> fl) lim.
Proof.
  intros [H1 H2 H3 H4 H5]. split.
  - intros x ([id p] & -> & Hy)%list_elem_of_fmap. rewrite heap_restamp_lookup. simpl. apply H1 in Hy. simpl in Hy. by rewrite Hy.
  - rewrite (rs_free_pages D prov com). intros x ([id p] & -> & Hy)%list_elem_of_fmap. rewrite heap_restamp_lookup. simpl.
    apply H2 in Hy. simpl in Hy. by rewrite Hy.
  - simpl. rewrite H3. by destruct fl.
  - rewrite rs_page_fst, <- list_fmap_compose. exact H4.
  - exact H5.
Qed.

Lemma db_restamp D prov com g t fl :
  db_at g t fl → (∀ x, x ∈ tree_pages t None → (x.1 ∉ D) → settled prov x.2) →
  db_at (heap_restamp D prov com g) (rs_tree D prov com t) (rs_free D com <$> fl).
Proof.
  intros [O Ho Hf Hr] Hs. split.
  - apply (owns_restamp D prov com) in O. rewrite fmap_app in O.
    by rewrite (proj1 (rs_tree_pages_mut D prov com)), (proj1 (rs_entries_mut D prov com)), rs_entries_pages.
  - by apply rs_ordered_mut.
  - by apply rs_fits_mut.
  - simpl. by rewrite rs_tid.
Qed.

(** ** Well-formed pages *)

Definition ok_id (id : PageId) : Prop := 0 ≤ id < NULL_PAGE_ID.

(** [wf_page] without the page's LSN. *)
Definition wf_body (p : PageData) : Prop :=
  match p with
  | PLeaf _ next entries => wf_leaf next entries
  | PInternal _ leftmost entries => wf_internal leftmost entries
  | POverflow _ next total_length _ => wf_page_ref next ∧ 0 ≤ total_length
  | PFree _ next => wf_page_ref next
  end.

Lemma first_leaf_in t next : first_leaf t ∈ (tree_pages t next).*1.
Proof.
  revert t next. apply (tree_mut (λ t, ∀ next, first_leaf t ∈ (tree_pages t next).*1) (λ _, True)); simpl; try done.
  - intros. set_solver.
  - intros id lsn t IH f _ next. rewrite fmap_app. specialize (IH (first_or f next)). set_solver.
Qed.

Lemma wf_next f next : (∀ id, id ∈ (forest_pages f next).*1 → ok_id id) → wf_page_ref next → wf_page_ref (first_or f next).
Proof.
  destruct f as [|k t f]; simpl; [done|]. intros Hids _. apply Hids. rewrite fmap_app.
  pose proof (first_leaf_in t (first_or f next)). set_solver.
Qed.

Lemma tree_wf_mut :
  (∀ t next, (∀ id, id ∈ (tree_pages t next).*1 → ok_id id) → wf_page_ref next → fits t →
     Forall (λ e, wf_leaf_entry (entry_of e)) (entries t) →
     ∀ x, x ∈ tree_pages t next → wf_body x.2 ∧ page_fits x.2) ∧
  (∀ f next, (∀ id, id ∈ (forest_pages f next).*1 → ok_id id) → wf_page_ref next → forest_fits f →
     Forall (λ e, wf_leaf_entry (entry_of e)) (forest_entries f) →
     ∀ x, x ∈ forest_pages f next → wf_body x.2 ∧ page_fits x.2).
Proof.
  apply tree_forest_ind; simpl.
  - intros id lsn es next _ Hn [Hok _] Hwf x ->%list_elem_of_singleton. simpl. split; [|done]. split; [done|].
    by rewrite Forall_fmap.
  - intros id lsn t IHt f IHf next Hids Hn ([Hok _] & Ht & Hf) Hwf x Hx. rewrite fmap_app in Hids.
    apply Forall_app in Hwf as [Hwf1 Hwf2].
    assert (wf_page_ref (first_or f next)) as Hn' by (apply wf_next; [intros i Hi; apply Hids; set_solver|done]).
    apply elem_of_cons in Hx as [->|Hx].
    + simpl. split; [|done]. split.
      * destruct (tid_pages t (first_or f next)) as (p & ps & E). destruct (Hids (tid t)) as [??]; [rewrite E; set_solver|]. lia.
      * pose proof (seps_tids f) as Hs. eapply Forall_impl; [exact Hs|]. intros e He. destruct (Hids (right_child e)); [|lia].
        specialize (He next). set_solver.
    + apply elem_of_app in Hx as [Hx|Hx]; [apply (IHt (first_or f next))|apply (IHf next)]; try done; intros i Hi; apply Hids; set_solver.
  - intros next _ _ _ _ x Hx. by apply not_elem_of_nil in Hx.
  - intros k t IHt f IHf next Hids Hn (Ht & Hf) Hwf x Hx. rewrite fmap_app in Hids. apply Forall_app in Hwf as [Hwf1 Hwf2].
    assert (wf_page_ref (first_or f next)) as Hn' by (apply wf_next; [intros i Hi; apply Hids; set_solver|done]).
    apply elem_of_app in Hx as [Hx|Hx]; [apply (IHt (first_or f next))|apply (IHf next)]; try done; intros i Hi; apply Hids; set_solver.
Qed.

Lemma chain_wf total links :
  (∀ id, id ∈ (chain_pages total links).*1 → ok_id id) → 0 < total ≤ MAX_VALUE_SIZE →
  Forall (λ l, 0 < len l.2 ≤ OVERFLOW_DATA_SIZE) links →
  ∀ x, x ∈ chain_pages total links → wf_body x.2 ∧ page_fits x.2.
Proof.
  intros Hids Ht Hc. induction links as [|l links IH]; [by intros x ?%not_elem_of_nil|].
  apply Forall_cons in Hc as [Hl Hc]. cbn [chain_pages] in *. rewrite fmap_cons in Hids.
  intros x [->|Hx]%elem_of_cons; [|apply IH; try done; set_solver]. simpl. split; [|done]. split; [|lia].
  destruct links as [|l' links]; [done|]. simpl. apply (Hids (link_id l')). cbn [chain_pages]. rewrite fmap_cons. set_solver.
Qed.

Lemma free_wf fl :
  (∀ id, id ∈ fl.*1 → ok_id id) → ∀ x, x ∈ free_list_pages fl → wf_body x.2 ∧ page_fits x.2.
Proof.
  intros Hids. induction fl as [|y fl IH]; [by intros x ?%not_elem_of_nil|]. cbn [free_list_pages].
  intros x [->|Hx]%elem_of_cons; [|apply IH; set_solver]. simpl. split; [|done].
  destruct fl as [|y' fl]; [done|]. simpl. apply (Hids y'.1). set_solver.
Qed.

(** Every allocated page is in the tree, in a value, or free. *)
Lemma owned_page g t fl id :
  db_at g t fl → in_range g id →
  ∃ p, hp g !! id = Some p ∧
    ((id, p) ∈ tree_pages t None ∨ (id, p) ∈ entries_pages (entries t) ∨ (id, p) ∈ free_list_pages fl).
Proof.
  intros [O _ _ _] [Hlo Hhi]. destruct O as [H1 H2 _ H4 _].
  assert (id ∈ (tree_pages t None ++ entries_pages (entries t)).*1 ++ fl.*1 ++ []) as Hin
    by (rewrite H4, elem_of_seqZ; lia).
  rewrite app_nil_r, <- free_list_fst, <- fmap_app in Hin. apply list_elem_of_fmap in Hin as ([id' p] & -> & Hin).
  exists p. rewrite !elem_of_app in Hin. split; [|tauto].
  destruct Hin as [Hin|Hin]; [apply (H1 (id', p)), elem_of_app; tauto|by apply (H2 (id', p))].
Qed.

Lemma value_page_in es x : x ∈ entries_pages es ↔ ∃ e, e ∈ es ∧ x ∈ value_pages (ge_val e).
Proof. unfold entries_pages. rewrite list_elem_of_bind. naive_solver. Qed.

Lemma value_page_overflow v x : x ∈ value_pages v → ∃ lsn next total chunk, x.2 = POverflow lsn next total chunk.
Proof.
  destruct v as [| |links]; simpl; try (by intros ?%not_elem_of_nil). generalize (len (chain_bytes links)) as total.
  induction links as [|l links IH]; intros total; [by intros ?%not_elem_of_nil|]. cbn [chain_pages].
  intros [->|Hx]%elem_of_cons; [by eexists _, _, _, _|by eapply IH].
Qed.

Lemma chain_positive links :
  links ≠ [] → Forall (λ l : PageId * Lsn * list byte, 0 < len l.2 ≤ OVERFLOW_DATA_SIZE) links → 0 < len (chain_bytes links).
Proof.
  intros Hne Hc. destruct links as [|l links]; [done|]. apply Forall_cons in Hc as [Hl _].
  rewrite chain_bytes_cons, len_app. pose proof (len_nonneg (chain_bytes links)). lia.
Qed.

Lemma value_wf v :
  val_ok v → (∀ id, id ∈ (value_pages v).*1 → ok_id id) →
  wf_value (ref_of v) ∧ ∀ x, x ∈ value_pages v → wf_body x.2 ∧ page_fits x.2.
Proof.
  destruct v as [| |links]; simpl; [by split; [|intros x ?%not_elem_of_nil]..|].
  intros (Hne & _ & Hl & Hc) Hids. pose proof (chain_positive links Hne Hc). split; [|by apply chain_wf].
  split; [|lia]. destruct links as [|l links]; [done|]. simpl. apply Hids. cbn [chain_pages]. rewrite fmap_cons. set_solver.
Qed.

Lemma owned_wf g t fl id p :
  db_at g t fl → hhw g < NULL_PAGE_ID → Forall (λ e, is_u64 (ge_rev e)) (entries t) →
  in_range g id → hp g !! id = Some p → wf_body p ∧ page_fits p.
Proof.
  intros DB Hhw Hrev Hr Hp. pose proof DB as [O Ho Hf _].
  assert (∀ i, i ∈ (tree_pages t None ++ entries_pages (entries t)).*1 ++ fl.*1 ++ [] → ok_id i) as Hids.
  { intros i Hi. apply (owns_in_range _ _ _ _ O) in Hi as [??]. unfold ok_id. lia. }
  pose proof (proj1 fits_vals_mut _ Hf) as Hvals. rewrite Forall_forall in Hvals.
  assert (∀ e, e ∈ entries t → wf_value (ref_of (ge_val e)) ∧
    ∀ x, x ∈ value_pages (ge_val e) → wf_body x.2 ∧ page_fits x.2) as Hvwf.
  { intros e He. apply value_wf; [by apply Hvals|]. intros i (x & -> & Hx)%list_elem_of_fmap.
    apply Hids, elem_of_app. left. apply list_elem_of_fmap. exists x. split; [done|]. apply elem_of_app. right.
    apply value_page_in. eauto. }
  destruct (owned_page g t fl id DB Hr) as (p' & Hp' & Hin). assert (p' = p) as -> by congruence.
  destruct Hin as [Hin|[Hin|Hin]].
  - refine (proj1 tree_wf_mut t None _ _ Hf _ (id, p) Hin); [|done|].
    + intros i Hi. apply Hids. rewrite fmap_app. set_solver.
    + rewrite Forall_forall in Hrev. apply Forall_forall. intros e He. split; [by apply Hrev|by apply Hvwf].
  - apply value_page_in in Hin as (e & He & Hx). exact (proj2 (Hvwf e He) (id, p) Hx).
  - apply (free_wf fl) in Hin; [done|]. intros i Hi. apply Hids. set_solver.
Qed.

(** A dirty page encodes, at its id, as an image that decodes to it. *)
Lemma dirty_image `{Crc32c} g t fl id p com :
  db_at g t fl → hhw g < NULL_PAGE_ID → Forall (λ e, is_u64 (ge_rev e)) (entries t) → is_u64 com →
  in_range g id → hp g !! id = Some p → PageData_lsn p = com →
  ∃ image, PageData_encode p id = Ok image ∧ len image = PAGE_SIZE ∧ decodes image id p.
Proof.
  intros DB Hhw Hrev Hcom Hr Hp Hlsn. destruct (owned_wf _ _ _ _ _ DB Hhw Hrev Hr Hp) as [Hwf Hfit].
  destruct (page_data_image p id) as (image & d & E & Hl & Hd & _ & Hdd); [|done|destruct Hr; lia|].
  - split; [by rewrite Hlsn|]. by destruct p.
  - exists image. split; [done|]. split; [done|]. by exists d.
Qed.

Lemma restamp_lsn prov com p : PageData_lsn (PageData_restamp prov com p) = com.
Proof. by destruct p. Qed.
