(* ===== verification/Finish.v ===== *)
(** * Finish: the end of a transaction

    [finish_transaction] stamps the transaction's pages, encodes them, and
    leaves the overlay ready for the next transaction of the group, which sees
    the changes.  [prepared_ok] says what the prepared transaction holds: the
    images of exactly the changed pages. *)

From stdpp Require Import list_numbers.
From S2P Require Import Prelude Core Crc Page Superblock DurableFile Wal Format FormatCodec Cache Reference StoreState Store Heap Tree Own Split TreeOps Point ReadOps Restamp.

Section finish.
Context `{Crc32c} {F W I : Type} `{DFL : DurableFileLaws F}.
Context (s0 : BTreeStore F W I) (env : Env).

(** ** Outcomes *)

(** The operation returns with [Q], or the data file failed. *)
Definition outcome {A} (Q : A → Overlay F W I → Prop) (out : Result Error A * Overlay F W I) : Prop :=
  match out with (Ok a, o') => Q a o' | out => io_error s0 env out end.

Lemma outcome_io {A} (Q : A → Overlay F W I → Prop) out : io_error s0 env out → outcome Q out.
Proof. intros Hio. pose proof Hio as (e & He & _). destruct out as [r o']. simpl in He. by subst r. Qed.

Lemma outcome_cases {A} (Q : A → Overlay F W I → Prop) out :
  outcome Q out → (∃ a o', out = (Ok a, o') ∧ Q a o') ∨ io_error s0 env out.
Proof. destruct out as [[a|e| |] o']; simpl; eauto. Qed.

Lemma outcome_runs {A B} g g' (m : ST (Overlay F W I) Error A) (k : A → ST (Overlay F W I) Error B) a Q o :
  runs s0 env g m a g' → rep s0 env o g → (∀ o', rep s0 env o' g' → outcome Q (k a o')) → outcome Q (bind m k o).
Proof.
  intros Hr Ho Hk. destruct (Hr o Ho) as [(o' & E & Ho')|Hio]; [|by apply outcome_io, io_error_bind].
  rewrite bind_eq, E. auto.
Qed.

Lemma outcome_step {A B} (m : ST (Overlay F W I) Error A) (k : A → ST (Overlay F W I) Error B) a Q o o' :
  m o = (Ok a, o') → outcome Q (k a o') → outcome Q (bind m k o).
Proof. intros E Hk. by rewrite bind_eq, E. Qed.

(** ** Stamping *)

Lemma restamp_page_runs prov com g id p :
  id ∈ hdirty g → hp g !! id = Some p →
  runs s0 env g
    (let* p := gets (λ o, ov_pages o !! id) in
     let* p := lift (ok_or p (InternalInvariantViolation "dirty page missing from overlay")) in
     modify (λ o, set_ov_pages (<[id := PageData_restamp prov com p]> (ov_pages o)) o)) tt
    (heap_put id (PageData_restamp prov com p) g).
Proof.
  intros Hd Hp o Ho. left. destruct (rep_dirty_staged _ _ _ _ Ho id Hd) as [q Hq].
  assert (q = p) as -> by (apply (rep_staged _ _ _ _ Ho) in Hq; congruence).
  exists (set_ov_pages (<[id := PageData_restamp prov com p]> (ov_pages o)) o). split.
  { rewrite bind_eq. unfold gets. rewrite Hq. done. }
  destruct Ho. split; simpl; try done.
  - intros k q [[<- <-]|[Hne Hk]]%lookup_insert_Some; [by rewrite lookup_insert_eq|].
    rewrite lookup_insert_ne by done. auto.
  - set_solver.
  - intros k Hk. destruct (decide (id = k)) as [->|]; [by rewrite lookup_insert_eq|].
    rewrite lookup_insert_ne by done. apply rep_dirty_staged. set_solver.
  - intros k [Hk Hne]%lookup_insert_None. rewrite lookup_insert_ne by done. auto.
  - intros k Hk. rewrite lookup_insert_ne by set_solver. apply rep_clean. set_solver.
Qed.

Lemma heap_restamp_cons prov com id (D : gset PageId) p g :
  (id ∉ D) → id ∈ hdirty g → hp g !! id = Some p →
  heap_restamp D prov com (heap_put id (PageData_restamp prov com p) g) = heap_restamp ({[id]} ∪ D) prov com g.
Proof.
  intros HD Hd Hp. unfold heap_restamp. simpl. f_equal; [|set_solver]. apply map_eq. intros k. rewrite !map_lookup_imap.
  destruct (decide (id = k)) as [<-|Hne].
  - rewrite lookup_insert_eq, Hp. simpl. unfold rs_page. simpl. by rewrite decide_False, decide_True by set_solver.
  - rewrite lookup_insert_ne by done. destruct (hp g !! k) as [q|]; [|done]. simpl. unfold rs_page. simpl.
    do 2 f_equal. by apply decide_ext; set_solver.
Qed.

Lemma restamp_loop_runs prov com ids g :
  NoDup ids → (∀ id, id ∈ ids → id ∈ hdirty g) →
  runs s0 env g (forM ids (λ id,
     let* p := gets (λ o, ov_pages o !! id) in
     let* p := lift (ok_or p (InternalInvariantViolation "dirty page missing from overlay")) in
     modify (λ o, set_ov_pages (<[id := PageData_restamp prov com p]> (ov_pages o)) o))) tt
    (heap_restamp (list_to_set ids) prov com g).
Proof.
  revert g. induction ids as [|id ids IH]; intros g Hnd Hids.
  { simpl. assert (heap_restamp ∅ prov com g = g) as ->; [|apply runs_ret]. destruct g. unfold heap_restamp. simpl. f_equal.
    apply map_eq. intros k. rewrite map_lookup_imap. destruct (hp !! k); [|done]. simpl. unfold rs_page. simpl.
    by rewrite decide_False by set_solver. }
  apply NoDup_cons in Hnd as [Hid Hnd]. assert (id ∈ hdirty g) as Hd by set_solver.
  destruct (hp g !! id) as [p|] eqn:Hp.
  2: { intros o Ho. destruct (rep_dirty_staged _ _ _ _ Ho id Hd) as [q Hq]. apply (rep_staged _ _ _ _ Ho) in Hq. congruence. }
  cbn [forM list_to_set]. rewrite <- (heap_restamp_cons prov com id _ p) by (done || by rewrite elem_of_list_to_set).
  eapply runs_bind; [by apply restamp_page_runs|]. apply IH; [done|]. simpl. set_solver.
Qed.

Lemma restamp_dirty_runs prov com g :
  runs s0 env g (restamp_dirty prov com) tt (heap_restamp (hdirty g) prov com g).
Proof.
  unfold restamp_dirty. eapply runs_bind; [apply runs_gets; intros o Ho; by rewrite (rep_dirty _ _ _ _ Ho)|].
  assert (heap_restamp (hdirty g) prov com g = heap_restamp (list_to_set (btree_elems (hdirty g))) prov com g) as ->.
  { f_equal. apply set_eq. intros id. by rewrite elem_of_list_to_set, elem_of_btree_elems. }
  apply restamp_loop_runs; [apply btree_elems_NoDup|]. intros id. by rewrite elem_of_btree_elems.
Qed.

(** ** Images *)

Lemma collect_loop_runs g ids (imgs : gmap PageId (list byte)) (decs : gmap PageId PageData) :
  (∀ id, id ∈ ids → id ∈ hdirty g ∧ ∃ p image, hp g !! id = Some p ∧ PageData_encode p id = Ok image) →
  ∃ imgs' decs',
    runs s0 env g (foldM (λ '(changed_pages, changed_decoded) page_id,
      let* p := gets (λ o, ov_pages o !! page_id) in
      let* p := lift (ok_or p (InternalInvariantViolation "dirty page missing from overlay")) in
      let* image := lift (PageData_encode p page_id) in
      ret (<[page_id := image]> changed_pages, <[page_id := p]> changed_decoded)) (imgs, decs) ids) (imgs', decs') g ∧
    (∀ id, id ∉ ids → imgs' !! id = imgs !! id ∧ decs' !! id = decs !! id) ∧
    (∀ id, id ∈ ids → ∃ p image, hp g !! id = Some p ∧ decs' !! id = Some p ∧ imgs' !! id = Some image ∧
       PageData_encode p id = Ok image).
Proof.
  revert imgs decs. induction ids as [|id ids IH]; intros imgs decs Hids.
  { exists imgs, decs. split_and!; [apply runs_ret|done|]. by intros id ?%not_elem_of_nil. }
  destruct (Hids id) as (Hd & p & image & Hp & He); [set_solver|].
  destruct (IH (<[id := image]> imgs) (<[id := p]> decs)) as (imgs' & decs' & Hr & Hout & Hin); [intros; apply Hids; set_solver|].
  exists imgs', decs'. split_and!.
  - cbn [foldM]. eapply runs_bind; [|exact Hr]. intros o Ho. left. exists o. split; [|done].
    destruct (rep_dirty_staged _ _ _ _ Ho id Hd) as [q Hq].
    assert (q = p) as -> by (apply (rep_staged _ _ _ _ Ho) in Hq; congruence).
    rewrite bind_eq. unfold gets. rewrite Hq. rewrite bind_eq. simpl. rewrite bind_eq. unfold lift. by rewrite He.
  - intros k Hk. destruct (Hout k) as [-> ->]; [set_solver|]. rewrite !lookup_insert_ne by set_solver. done.
  - intros k Hk. destruct (decide (k ∈ ids)) as [Hk'|Hk']; [by apply Hin|].
    assert (k = id) as -> by set_solver. destruct (Hout id Hk') as [-> ->]. rewrite !lookup_insert_eq. by exists p, image.
Qed.

(** The images of the dirty pages, and nothing else. *)
Lemma collect_changed_runs g :
  (∀ id, id ∈ hdirty g → ∃ p image, hp g !! id = Some p ∧ PageData_encode p id = Ok image) →
  ∃ imgs decs, runs s0 env g collect_changed (imgs, decs) g ∧
    (∀ id, id ∉ hdirty g → imgs !! id = None ∧ decs !! id = None) ∧
    (∀ id, id ∈ hdirty g → ∃ p image, hp g !! id = Some p ∧ decs !! id = Some p ∧ imgs !! id = Some image ∧
       PageData_encode p id = Ok image).
Proof.
  intros Henc. destruct (collect_loop_runs g (btree_elems (hdirty g)) ∅ ∅) as (imgs & decs & Hr & Hout & Hin).
  { intros id. rewrite elem_of_btree_elems. auto. }
  exists imgs, decs. split_and!.
  - unfold collect_changed. eapply runs_bind; [apply runs_gets; intros o Ho; by rewrite (rep_dirty _ _ _ _ Ho)|]. exact Hr.
  - intros id Hid. destruct (Hout id) as [-> ->]; [by rewrite elem_of_btree_elems|]. by rewrite !lookup_empty.
  - intros id Hid. apply Hin. by rewrite elem_of_btree_elems.
Qed.

(** ** The superblock *)

Definition next_sb (current : Superblock) (root : PageId) (free_head : option PageId) (high_water : PageId) : Superblock :=
  mkSuperblock (sb_format_version current) (generation current + 1) (database_uuid current) (tenant_id current)
    (shard_id current) (shard_epoch current) (page_size current) (Some root) free_head (Some high_water)
    (checkpoint_lsn current) (sb_checksum current).

Lemma next_sb_wf sb root free hw :
  wf_superblock sb → generation sb + 1 ≤ U64_MAX → wf_page_ref (Some root) → wf_page_ref free → wf_page_ref (Some hw) →
  wf_superblock (next_sb sb root free hw).
Proof.
  intros (?&Hg&?&?&?&?&?&?&?&?&?) Hgen Hr Hf Hh.
  repeat (split; [first [assumption | unfold is_u64 in *; cbn [next_sb generation]; lia]|]). done.
Qed.

Lemma sealed_wf sb : wf_superblock sb → wf_superblock (sealed_copy sb).
Proof. done. Qed.

Lemma sealed_image sb : superblock_image (sealed_copy sb) = superblock_image sb.
Proof.
  unfold superblock_image, superblock_unsealed. cbn [sealed_copy sb_format_version generation database_uuid tenant_id
    shard_id shard_epoch page_size root_page_id free_list_head high_water_page_id checkpoint_lsn]. reflexivity.
Qed.

(** A superblock that was read is written as it is. *)
Lemma sealed_encodes sb : wf_superblock sb → ∃ bytes,
  encode_superblock (sealed_copy sb) = Ok bytes ∧ decode_superblock bytes = Ok (sealed_copy sb) ∧ len bytes = PAGE_SIZE.
Proof.
  intros Hwf. exists (superblock_image sb). split_and!.
  - rewrite <- sealed_image. destruct Hwf as (?&?&?&?&?&?&?&_).
    by apply encode_superblock_Ok.
  - by apply decode_superblock_image.
  - apply len_superblock_image.
Qed.

Lemma next_superblock_Ok sb root free hw :
  wf_superblock sb → generation sb + 1 ≤ U64_MAX → wf_page_ref (Some root) → wf_page_ref free → wf_page_ref (Some hw) →
  next_superblock sb root free hw = Ok (sealed_copy (next_sb sb root free hw)).
Proof.
  intros Hwf Hgen Hr Hf Hh. pose proof (next_sb_wf _ _ _ _ Hwf Hgen Hr Hf Hh) as Hn. unfold next_superblock, checked_add.
  rewrite (proj2 (Z.leb_le _ _)) by done. cbn [ok_or rbind]. fold (next_sb sb root free hw).
  pose proof Hn as (?&?&?&?&?&?&?&_). rewrite encode_superblock_Ok by done. by apply decode_superblock_image.
Qed.

(** ** The prepared transaction *)

Definition commit_of (g : Heap) (prov : Lsn) : Lsn :=
  match st_wal s0 with Some _ => e_next_lsn env + (Z.of_nat (size (hdirty g)) + 1) | None => prov end.

Definition heap_finish (prov com : Lsn) (g : Heap) : Heap :=
  mkHeap (hp (heap_restamp (hdirty g) prov com g)) ∅ (hroot g) (hfree g) (hhw g) None (com + 1).

Definition env_finish (prov com : Lsn) (g : Heap) : Env :=
  mkEnv (e_base env) (hp (heap_finish prov com g)) (com + 1) (e_batch_id env + 1)
    (sealed_copy (next_sb (e_superblock env) (hroot g) (hfree g) (hhw g))) (other_slot (e_slot env)).

(** The counters are not exhausted. *)
Definition counters_left (com : Lsn) : Prop :=
  0 < com ∧ com + 1 ≤ U64_MAX ∧ 0 ≤ e_next_lsn env ∧ 0 ≤ e_batch_id env ∧ e_batch_id env + 1 ≤ U64_MAX ∧
  wf_superblock (e_superblock env) ∧ generation (e_superblock env) + 1 ≤ U64_MAX.

(** The prepared transaction holds the pages that changed, as images that
    decode to them, and the state to be published. *)
Record prepared_ok (prov com : Lsn) (g : Heap) (pb : PreparedBatch) : Prop := {
  po_in id : id ∈ hdirty g → ∃ p image, hp (heap_finish prov com g) !! id = Some p ∧
    changed_decoded pb !! id = Some p ∧ changed_pages pb !! id = Some image ∧ len image = PAGE_SIZE ∧ decodes image id p;
  po_out id : id ∉ hdirty g → changed_pages pb !! id = None ∧ changed_decoded pb !! id = None;
  po_read id p : pb_read_pages pb !! id = Some p → e_clean env !! id = Some p;
  po_superblock : new_superblock pb = e_superblock (env_finish prov com g);
  po_slot : new_slot pb = other_slot (e_slot env);
  po_generation : base_generation pb = generation (e_superblock env);
  po_next : pb_next_revision pb = com + 1;
  po_root : pb_root_page_id pb = hroot g;
  po_free : pb_free_list_head pb = hfree g;
  po_hw : pb_high_water_page_id pb = hhw g;
  po_lsn : pb_commit_lsn pb = Some com;
  po_batch : pb_batch_id pb = e_batch_id env
}.

Lemma finish_refs g t fl :
  db_at g t fl → hhw g < NULL_PAGE_ID →
  wf_page_ref (Some (hroot g)) ∧ wf_page_ref (hfree g) ∧ wf_page_ref (Some (hhw g)).
Proof.
  intros DB Hhw. pose proof (db_hhw _ _ _ DB). pose proof DB as [O _ _ Hroot]. pose proof (root_range _ _ _ _ _ _ O) as [? ?].
  unfold wf_page_ref. split; [rewrite Hroot; lia|]. split; [|lia]. rewrite (own_head _ _ _ _ O).
  destruct fl as [|x fl']; [done|]. simpl.
  assert (in_range g x.1) as [? ?]; [|lia]. apply (owns_in_range _ _ _ _ O). set_solver.
Qed.

Section finish_transaction.
Context (g : Heap) (t : tree) (fl : list (PageId * Lsn)) (prov : Lsn) (com := commit_of g prov).
Hypothesis DB : db_at g t fl.
Hypothesis Hlast : hlast g = Some prov.
Hypothesis Hhw : hhw g < NULL_PAGE_ID.
Hypothesis Hsettled : ∀ x, x ∈ tree_pages t None → (x.1 ∉ hdirty g) → settled prov x.2.
Hypothesis Hrevs : Forall (λ e, is_u64 (ge_rev e)) (entries t).
Hypothesis Hleft : counters_left com.

Abbreviation g1 := (heap_restamp (hdirty g) prov com g).

Lemma finish_db : db_at (heap_finish prov com g) (rs_tree (hdirty g) prov com t) (rs_free (hdirty g) com <$> fl).
Proof.
  destruct (db_restamp (hdirty g) prov com g t fl DB Hsettled) as [[] ? ? ?]. by split.
Qed.

Lemma finish_revs : Forall (λ e, is_u64 (ge_rev e)) (entries (rs_tree (hdirty g) prov com t)).
Proof.
  rewrite (proj1 (rs_entries_mut _ _ _)), Forall_fmap. eapply Forall_impl; [exact Hrevs|]. intros e He. simpl.
  unfold restamp_revision. destruct (_ =? _); [|done]. destruct Hleft as (? & ? & _). split; lia.
Qed.

Lemma finish_image id :
  id ∈ hdirty g → ∃ p image, hp g1 !! id = Some p ∧ PageData_encode p id = Ok image ∧ len image = PAGE_SIZE ∧ decodes image id p.
Proof.
  intros Hd. assert (in_range g id) as Hr by (apply (own_dirty _ _ _ _ (db_owns _ _ _ DB)); done).
  destruct (owned_page g t fl id DB Hr) as (p & Hp & _).
  assert (hp g1 !! id = Some (PageData_restamp prov com p)) as Hp1.
  { rewrite heap_restamp_lookup, Hp. simpl. unfold rs_page. simpl. by rewrite decide_True. }
  destruct (dirty_image (heap_finish prov com g) _ _ id (PageData_restamp prov com p) com finish_db Hhw finish_revs)
    as (image & E & Hl & Hdec); [|done|done|apply restamp_lsn|].
  - destruct Hleft as (? & ? & _). split; lia.
  - eauto 10.
Qed.

Lemma commit_lsn_Ok o :
  rep s0 env o g →
  match st_wal (ov_store o) with Some _ => wal_commit_lsn (ov_next_lsn o) (ov_dirty o) | None => Ok prov end = Ok com.
Proof.
  intros Ho. pose proof Hleft as (Hc0 & Hc1 & Hn0 & _).
  rewrite (rb_same _ _ _ (rep_store _ _ _ _ Ho)), (rep_lsn _ _ _ _ Ho), (rep_dirty _ _ _ _ Ho). subst com. unfold commit_of in *.
  simpl. destruct (st_wal s0); [|done]. unfold wal_commit_lsn, checked_add.
  rewrite (proj2 (Z.leb_le (Z.of_nat (size (hdirty g)) + 1) _)) by lia. cbn [ok_or rbind].
  by rewrite (proj2 (Z.leb_le _ _)) by lia.
Qed.

Lemma finish_spec o :
  rep s0 env o g →
  outcome (λ pb o', rep s0 (env_finish prov com g) o' (heap_finish prov com g) ∧ prepared_ok prov com g pb)
    (finish_transaction o).
Proof.
  intros Ho. pose proof Hleft as (Hc0 & Hc1 & Hn0 & Hb0 & Hb1 & Hsb & Hgen). destruct (finish_refs g t fl DB Hhw) as (Hw1 & Hw2 & Hw3).
  assert (checked_add com 1 = Some (com + 1)) as Hnext by (unfold checked_add; by rewrite (proj2 (Z.leb_le _ _)) by lia).
  unfold finish_transaction. eapply outcome_step; [by unfold gets; rewrite (rep_last _ _ _ _ Ho), Hlast|].
  eapply outcome_step; [done|]. eapply outcome_step; [done|].
  eapply outcome_step; [by rewrite (commit_lsn_Ok o Ho)|].
  eapply outcome_runs; [apply restamp_dirty_runs|done|]. intros o1 Ho1. fold com.
  eapply outcome_step; [done|].
  eapply outcome_step.
  { rewrite (rep_superblock _ _ _ _ Ho1), (rep_root _ _ _ _ Ho1), (rep_free _ _ _ _ Ho1), (rep_hw _ _ _ _ Ho1).
    unfold lift. by rewrite next_superblock_Ok by done. }
  destruct (collect_changed_runs g1) as (imgs & decs & Hr & Hout & Hin).
  { intros id (p & image & Hp & He & _)%finish_image. eauto. }
  eapply outcome_runs; [exact Hr|done|]. intros o2 Ho2. cbn zeta beta.
  do 2 (eapply outcome_step; [done|]). eapply outcome_step; [unfold lift; by rewrite Hnext|].
  do 4 (eapply outcome_step; [done|]). eapply outcome_step; [unfold lift; by rewrite Hnext|].
  eapply outcome_step; [done|]. eapply outcome_step.
  { unfold lift. simpl. rewrite (rep_batch _ _ _ _ Ho2). unfold checked_add. by rewrite (proj2 (Z.leb_le _ _)) by lia. }
  do 3 (eapply outcome_step; [done|]). cbn beta. unfold ret. pose proof (rep_slot _ _ _ _ Ho1) as Hslot. split.
  - destruct Ho2 as [[Hs1 Hs2 Hs3 Hs4 Hs5 Hs6]]. split; simpl; try done.
    by rewrite Hslot.
  - split; simpl; try done; try (by apply Ho2); [|by rewrite Hslot|by rewrite (rep_superblock _ _ _ _ Ho)].
    intros id Hid. destruct (finish_image id Hid) as (p & image & Hp & He & Hl & Hd).
    destruct (Hin id Hid) as (p' & image' & Hp' & Hdec & Himg & He').
    assert (p' = p) as -> by congruence. assert (image' = image) as -> by congruence. by exists p, image.
Qed.
End finish_transaction.

End finish.
