(* ===== verification/Txn.v ===== *)
(** * Txn: transactions on the overlay refine the reference database

    An overlay between two transactions represents a [ReferenceDb]
    ([ready]).  [prepare_transaction] then does what
    [ReferenceDb::transact_at] does: it turns the request down with the same
    error and leaves the overlay as it was, or it stages the transaction's
    writes, under its commit LSN, as a [PreparedBatch] that holds every changed
    page ([prepared_ok]). *)

From stdpp Require Import list_numbers.
From S2P Require Import Prelude Core Crc Page Superblock DurableFile Wal Format FormatCodec Cache Reference StoreState Store Heap Tree Own Split TreeOps Point ReadOps Restamp Finish.

(** ** Depth and revisions *)

Lemma depth_pages_mut :
  (∀ t D next, bal D t → (D < length (tree_pages t next))%nat) ∧
  (∀ f : forest, True).
Proof.
  apply tree_forest_ind; simpl; try done.
  - intros. lia.
  - intros id lsn t IHt f _ [|D] next; [done|]. intros [Ht _]. apply (IHt _ (first_or f next)) in Ht. rewrite length_app. lia.
Qed.

Lemma db_depth g t fl D : db_at g t fl → bal D t → Z.of_nat D ≤ hhw g.
Proof.
  intros DB Hb. pose proof (owns_length _ _ _ _ (db_owns _ _ _ DB)) as Hl. rewrite length_app in Hl.
  apply (proj1 depth_pages_mut _ _ None) in Hb. pose proof (db_hhw _ _ _ DB). lia.
Qed.

Lemma rs_bal_mut S prov com :
  (∀ t D, bal D t → bal D (rs_tree S prov com t)) ∧ (∀ f D, forest_bal D f → forest_bal D (rs_forest S prov com f)).
Proof. apply tree_forest_ind; simpl; try done; intros; repeat case_match; naive_solver. Qed.

Lemma rs_small S prov com t :
  (∀ x, x ∈ tree_pages t None → (x.1 ∉ S) → settled prov x.2) →
  Forall small_page (tree_pages t None) → Forall small_page (tree_pages (rs_tree S prov com t) None).
Proof.
  intros Hs Hsm. rewrite (proj1 (rs_tree_pages_mut S prov com)) by done. apply Forall_fmap. eapply Forall_impl; [exact Hsm|].
  intros [id p]. unfold small_page, rs_page. simpl. case_decide; [|done]. destruct p as [l n es|l n es| |]; try done.
  simpl. rewrite Forall_fmap. intros Hes. eapply Forall_impl; [exact Hes|]. intros e. unfold compose, restamp_entry, small_entry.
  by case_match.
Qed.

Lemma state_revision e : RevisionState_revision (ge_state e) = ge_rev e.
Proof. unfold ge_state. by destruct (ge_val e). Qed.

Lemma entry_in_states t e :
  ordered None None t → fits t → e ∈ entries t → states_of (entries t) !! doc_of e = Some (ge_state e).
Proof.
  intros Ho Hf He. apply fits_canonical in Hf as Hc. rewrite states_of_lookup by done.
  unfold canonical in Hc. rewrite Forall_forall in Hc. rewrite <- (Hc e He). apply content_lookup; [|done].
  apply keys_sorted_NoDup. by apply ordered_entries in Ho as [? _].
Qed.

Lemma entries_revs (P : Revision → Prop) t :
  ordered None None t → fits t → map_Forall (λ _ s, P (RevisionState_revision s)) (states_of (entries t)) →
  Forall (λ e, P (ge_rev e)) (entries t).
Proof.
  intros Ho Hf Hm. apply Forall_forall. intros e He. rewrite <- state_revision.
  apply (Hm (doc_of e)). by apply entry_in_states.
Qed.

(** The entries of a leaf page are the tree's. *)
Lemma leaf_page_entries_mut :
  (∀ t next id lsn n es, (id, PLeaf lsn n es) ∈ tree_pages t next → ∀ x, x ∈ es → ∃ e, e ∈ entries t ∧ x = entry_of e) ∧
  (∀ f next id lsn n es, (id, PLeaf lsn n es) ∈ forest_pages f next → ∀ x, x ∈ es →
     ∃ e, e ∈ forest_entries f ∧ x = entry_of e).
Proof.
  apply tree_forest_ind; simpl.
  - intros id lsn es next i l n es' [= -> -> -> ->]%list_elem_of_singleton x (e & -> & He)%list_elem_of_fmap. by exists e.
  - intros id lsn t IHt f IHf next i l n es Hin x Hx. rewrite elem_of_cons, elem_of_app in Hin.
    destruct Hin as [?|[Hin|Hin]]; [done|destruct (IHt _ _ _ _ _ Hin x Hx) as (e & ? & ?)|destruct (IHf _ _ _ _ _ Hin x Hx) as (e & ? & ?)];
      exists e; set_solver.
  - intros next i l n es ?%not_elem_of_nil. done.
  - intros k t IHt f IHf next i l n es Hin x Hx. rewrite elem_of_app in Hin.
    destruct Hin as [Hin|Hin]; [destruct (IHt _ _ _ _ _ Hin x Hx) as (e & ? & ?)|destruct (IHf _ _ _ _ _ Hin x Hx) as (e & ? & ?)];
      exists e; set_solver.
Qed.

Lemma entry_leaf_page_mut :
  (∀ t next e, e ∈ entries t → ∃ id lsn n es, (id, PLeaf lsn n es) ∈ tree_pages t next ∧ entry_of e ∈ es) ∧
  (∀ f next e, e ∈ forest_entries f → ∃ id lsn n es, (id, PLeaf lsn n es) ∈ forest_pages f next ∧ entry_of e ∈ es).
Proof.
  apply tree_forest_ind; simpl.
  - intros id lsn es next e He. exists id, lsn, next, (entry_of <$> es). split; [set_solver|]. by apply list_elem_of_fmap_2.
  - intros id lsn t IHt f IHf next e [He|He]%elem_of_app;
      [destruct (IHt (first_or f next) e He) as (i & l & n & es & ? & ?)|destruct (IHf next e He) as (i & l & n & es & ? & ?)];
      exists i, l, n, es; set_solver.
  - intros next e ?%not_elem_of_nil. done.
  - intros k t IHt f IHf next e [He|He]%elem_of_app;
      [destruct (IHt (first_or f next) e He) as (i & l & n & es & ? & ?)|destruct (IHf next e He) as (i & l & n & es & ? & ?)];
      exists i, l, n, es; set_solver.
Qed.

Lemma db_cover g t fl id : db_at g t fl → FIRST_DATA_PAGE ≤ id ≤ hhw g → is_Some (hp g !! id).
Proof. intros DB Hid. destruct (owned_page g t fl id DB Hid) as (p & -> & _). done. Qed.

(** A leaf page within the range of the heap is in its tree. *)
Lemma owned_leaf g t fl id lsn n es :
  db_at g t fl → in_range g id → hp g !! id = Some (PLeaf lsn n es) → (id, PLeaf lsn n es) ∈ tree_pages t None.
Proof.
  intros DB Hr Hp. destruct (owned_page g t fl id DB Hr) as (p & Hp' & Hin). rewrite Hp in Hp'. injection Hp' as <-.
  destruct Hin as [?|[Hin|Hin]]; [done| |].
  - apply value_page_in in Hin as (e & _ & Hin). apply value_page_overflow in Hin as (? & ? & ? & ? & ?). done.
  - clear -Hin. exfalso. induction fl as [|x fl IH]; [by apply not_elem_of_nil in Hin|].
    cbn [free_list_pages] in Hin. apply elem_of_cons in Hin as [?|?]; [done|auto].
Qed.

(** Stamping the writes of a transaction gives the writes with the commit's
    revision. *)
Lemma restamp_mutations prov com l m :
  map_Forall (λ _ s, RevisionState_revision s ≠ prov) m →
  restamp_state prov com <$> apply_mutations prov l m = apply_mutations com l m.
Proof.
  intros Hm. assert (restamp_state prov com <$> m = m) as Hid.
  { apply map_eq. intros k. rewrite lookup_fmap. destruct (m !! k) as [s|] eqn:E; [|done]. simpl. f_equal.
    unfold restamp_state. by rewrite (proj2 (Z.eqb_neq _ _) (Hm _ _ E)). }
  rewrite <- Hid at 2. clear Hm Hid. unfold apply_mutations. revert m. induction l as [|x l IH]; intros m; [done|].
  simpl. rewrite IH, fmap_insert. do 2 f_equal. destruct x; unfold restamp_state; simpl; by rewrite Z.eqb_refl.
Qed.

Lemma apply_mutations_revs (P : Revision → Prop) rv l m :
  P rv → map_Forall (λ _ s, P (RevisionState_revision s)) m →
  map_Forall (λ _ s, P (RevisionState_revision s)) (apply_mutations rv l m).
Proof.
  intros Hrv. unfold apply_mutations. revert m. induction l as [|x l IH]; intros m Hm; [done|]. simpl. apply IH.
  apply map_Forall_insert_2; [|done]. by destruct x.
Qed.

Lemma apply_mutations_some rv l m :
  l ≠ [] → ∃ k s, apply_mutations rv l m !! k = Some s ∧ RevisionState_revision s = rv.
Proof.
  intros Hl. destruct (exists_last Hl) as (l' & x & ->). unfold apply_mutations. rewrite foldl_app. simpl.
  eexists _, _. split; [apply lookup_insert_eq|]. by destruct x.
Qed.

Lemma states_of_restamp S prov com t :
  fits t → states_of (entries (rs_tree S prov com t)) = restamp_state prov com <$> states_of (entries t).
Proof.
  intros Hf. apply fits_canonical in Hf as Hc. apply (proj1 (rs_fits_mut S prov com)), fits_canonical in Hf as Hc'.
  apply map_eq. intros k. rewrite lookup_fmap, !states_of_lookup by done. rewrite (proj1 (rs_entries_mut S prov com)), rs_content.
  by rewrite lookup_fmap.
Qed.

Section txn.
Context `{Crc32c} {F W I : Type} `{DFL : DurableFileLaws F}.
Context (s0 : BTreeStore F W I).

(** ** Requests that always fit *)

Definition small_mutation (m : TransactionMutation) : Prop :=
  len (DocumentKey_encode (TransactionMutation_key m)) ≤ SMALL_KEY ∧
  match m with
  | Put _ value => len value ≤ max_value_size (limits (st_config s0)) ∧ len value ≤ MAX_VALUE_SIZE
  | Delete _ => True
  end.

Definition small_request (r : TransactionRequest) : Prop :=
  Forall small_mutation (mutations r) ∧
  Forall (λ c, len (DocumentKey_encode (TransactionCondition_key c)) ≤ MAX_ENCODED_KEY_SIZE) (conditions r).

(** ** Represented databases *)

Definition holds_states (g : Heap) (D : nat) (m : gmap DocumentKey RevisionState) : Prop :=
  ∃ t fl, db_at g t fl ∧ bal D t ∧ Forall small_page (tree_pages t None) ∧ states_of (entries t) = m.

(** The superblock names these pages. *)
Definition locates (sb : Superblock) (root : PageId) (free : option PageId) (hw : PageId) : Prop :=
  root_page_id sb = Some root ∧ free_list_head sb = free ∧ high_water_page_id sb = Some hw ∧ page_size sb = PAGE_SIZE.

(** The next revision follows the latest one in the database. *)
Definition tip (db : ReferenceDb) : Prop :=
  (states db = ∅ ∧ db_next_lsn db = 1) ∨
  ∃ k s, states db !! k = Some s ∧ RevisionState_revision s + 1 = db_next_lsn db.

(** The committed state between two transactions. *)
Record holding (env : Env) (g : Heap) (D : nat) (db : ReferenceDb) : Prop := {
  rd_tree : holds_states g D (states db);
  rd_pages : hp g = e_clean env;
  rd_dirty : hdirty g = ∅;
  rd_last : hlast g = None;
  rd_next : hnext g = db_next_lsn db;
  rd_pos : 0 < hnext g ≤ e_next_lsn env;
  rd_revs : map_Forall (λ _ s, 0 < RevisionState_revision s < hnext g) (states db);
  rd_clean id lsn next es : e_clean env !! id = Some (PLeaf lsn next es) → Forall (λ e, le_revision e < hnext g) es;
  rd_tip : tip db;
  rd_locates : locates (e_superblock env) (hroot g) (hfree g) (hhw g);
  rd_superblock : wf_superblock (e_superblock env);
  rd_batch : 0 ≤ e_batch_id env
}.

(** The overlay between two transactions. *)
Record ready (env : Env) (g : Heap) (D : nat) (db : ReferenceDb) : Prop := {
  rd_holding :> holding env g D db;
  rd_base id p : e_base env !! id = Some p → committed_page s0 id p
}.

(** No counter is exhausted by [ntx] transactions with [nmut] mutations
    together, on a tree of depth [D]: it stays below depth [C], and the file
    below [P] pages. *)
Record room (C : nat) (P : Z) (env : Env) (g : Heap) (D ntx nmut : nat) : Prop := {
  rm_depth : (D + nmut ≤ C)%nat;
  rm_pages : hhw g + Z.of_nat nmut * (Z.of_nat C + WRITE_PAGES) ≤ P ≤ MANY_PAGES;
  rm_lsn : e_next_lsn env + Z.of_nat ntx * (P + 2) < U64_MAX;
  rm_batch : e_batch_id env + Z.of_nat ntx ≤ U64_MAX;
  rm_generation : generation (e_superblock env) + Z.of_nat ntx ≤ U64_MAX
}.

Hypothesis inline_limit : 0 ≤ inline_value_limit (limits (st_config s0)).

Lemma apply_mutation_wp env x g D m (rv := heap_revision g) :
  (∀ id p, e_base env !! id = Some p → committed_page s0 id p) →
  holds_states g D m → small_mutation x → hhw g ≤ MANY_PAGES →
  wp s0 env g (apply_mutation x) (λ _ g',
    (holds_states g' D (<[TransactionMutation_key x := mutation_state rv x]> m) ∨
     holds_states g' (S D) (<[TransactionMutation_key x := mutation_state rv x]> m)) ∧
    hlast g' = Some rv ∧ hnext g' = hnext g ∧ hhw g ≤ hhw g' ≤ hhw g + Z.of_nat D + WRITE_PAGES).
Proof.
  intros Hbase (t & fl & DB & Hbal & Hsm & <-) [Hk Hx] Hpages.
  assert (∀ st g', written g g' (Z.of_nat D + WRITE_PAGES) D rv
      (<[DocumentKey_encode (TransactionMutation_key x) := st]> (content (entries t))) True →
    (holds_states g' D (<[TransactionMutation_key x := st]> (states_of (entries t))) ∨
     holds_states g' (S D) (<[TransactionMutation_key x := st]> (states_of (entries t)))) ∧
    hlast g' = Some rv ∧ hnext g' = hnext g ∧ hhw g ≤ hhw g' ≤ hhw g + Z.of_nat D + WRITE_PAGES) as Hdone.
  { intros st g' (t' & fl' & DB' & Hc & Hl & Hn & Hw & Hb & Hs). split; [|split_and!; try done; lia].
    rewrite <- (states_of_insert (entries t) (entries t')) by (done || by eapply fits_canonical, db_fits).
    unfold holds_states. destruct Hb; [left|right]; exists t', fl'; auto. }
  destruct x as [key value|key]; simpl in *; apply wp_bind.
  - destruct (put_wpr s0 env Hbase key value g t fl D True DB Hbal inline_limit Hpages) as [Hwp|[Hno _]]; [tauto| |by destruct Hno].
    eapply wp_mono; [exact Hwp|]. intros r g' [Er Hw]. apply wp_ret. rewrite Er in Hw. by apply Hdone.
  - destruct (delete_wpr s0 env Hbase key g t fl D True DB Hbal Hpages) as [Hwp|[Hno _]]; [tauto| |by destruct Hno].
    eapply wp_mono; [exact Hwp|]. intros r g' [Er Hw]. apply wp_ret. rewrite Er in Hw. by apply Hdone.
Qed.

Lemma mutations_wp env (C : nat) l g D m (rv := heap_revision g) :
  (∀ id p, e_base env !! id = Some p → committed_page s0 id p) →
  holds_states g D m → Forall small_mutation l → (D + length l ≤ C)%nat →
  hhw g + len l * (Z.of_nat C + WRITE_PAGES) ≤ MANY_PAGES →
  wp s0 env g (forM l apply_mutation) (λ _ g', ∃ D', holds_states g' D' (apply_mutations rv l m) ∧
    (D ≤ D' ≤ D + length l)%nat ∧ hhw g ≤ hhw g' ≤ hhw g + len l * (Z.of_nat C + WRITE_PAGES) ∧
    hnext g' = hnext g ∧ (hlast g' = if l is [] then hlast g else Some rv)).
Proof.
  intros Hbase. revert g D m rv. induction l as [|x l IH]; intros g D m rv Hm Hsm HC HP.
  { apply wp_ret. exists D. split_and!; len_simpl; done || lia. }
  apply Forall_cons in Hsm as [Hx Hsm]. simpl length in *. rewrite len_cons in *. cbn [forM].
  pose proof (len_nonneg l). assert (0 ≤ WRITE_PAGES) by (by vm_compute).
  apply wp_bind. eapply wp_mono; [apply (apply_mutation_wp env x g D m); [done|done|done|nia]|].
  intros _ g1 (Hst & Hl1 & Hn1 & Hw1).
  assert (heap_revision g1 = rv) as Hrv by (unfold heap_revision; by rewrite Hl1).
  assert (∃ D1, holds_states g1 D1 (<[TransactionMutation_key x := mutation_state rv x]> m) ∧ (D ≤ D1 ≤ S D)%nat)
    as (D1 & Hst1 & HD1) by (destruct Hst; [exists D|exists (S D)]; split; done || lia).
  eapply wp_mono; [apply (IH g1 D1 _ Hst1); [done|lia|nia]|].
  intros _ g2 (D2 & Hst2 & HD2 & Hw2 & Hn2 & Hl2). rewrite Hrv in *. exists D2.
  split_and!; [done|lia|lia|lia|nia|congruence|]. destruct l; [by rewrite Hl2|done].
Qed.
(** ** Conditions *)

Lemma validation_time_rep env g o n : rep s0 env o g → ∃ o', on_store (add_validation_time n) o = (Ok tt, o') ∧ rep s0 env o' g.
Proof.
  intros Ho. eexists. split; [reflexivity|]. destruct Ho as [[Hs1 Hs2 Hs3 Hs4 Hs5 Hs6]]. split; simpl; try done.
  split; simpl; try done. by rewrite Hs1.
Qed.

Section conditions.
Context (env : Env) (g : Heap) (D : nat) (db : ReferenceDb) (elapsed : Z).
Hypothesis Hbase : ∀ id p, e_base env !! id = Some p → committed_page s0 id p.
Hypothesis Hstates : holds_states g D (states db).

Lemma observe_spec key o :
  rep s0 env o g → len (DocumentKey_encode key) ≤ MAX_ENCODED_KEY_SIZE →
  (∃ o', get_observed_state key o = (Ok (RevisionState_observed (ReferenceDb_get db key)), o') ∧ rep s0 env o' g) ∨
  io_error s0 env (get_observed_state key o).
Proof.
  intros Ho Hk. destruct Hstates as (t & fl & DB & _ & _ & Hm).
  destruct (observe_wpr s0 env Hbase key g t fl True DB) as [(st & g' & Hr & -> & ->)|[Hno _]]; [done| |by destruct Hno].
  assert (state_at (content (entries t)) key = ReferenceDb_get db key) as E.
  { unfold state_at, ReferenceDb_get. rewrite <- Hm, states_of_lookup; [done|]. eapply fits_canonical, db_fits, DB. }
  rewrite E in Hr. by apply Hr.
Qed.

Lemma condition_spec c o :
  rep s0 env o g → len (DocumentKey_encode (TransactionCondition_key c)) ≤ MAX_ENCODED_KEY_SIZE →
  let out := check_transaction_condition elapsed c o in
  (out.1 = check_condition db c ∧ rep s0 env out.2 g) ∨ io_error s0 env out.
Proof.
  intros Ho Hk. unfold check_transaction_condition. destruct (observe_spec _ o Ho Hk) as [(o1 & E & Ho1)|Hio].
  2: { right. by apply io_error_bind. }
  left. rewrite bind_eq, E. unfold check_condition. destruct (satisfied _ _); [done|].
  destruct (validation_time_rep env g o1 (store_elapsed_nanos elapsed) Ho1) as (o2 & E2 & Ho2). rewrite bind_eq, E2. done.
Qed.

Lemma conditions_spec l o :
  rep s0 env o g → Forall (λ c, len (DocumentKey_encode (TransactionCondition_key c)) ≤ MAX_ENCODED_KEY_SIZE) l →
  let out := forM l (check_transaction_condition elapsed) o in
  (out.1 = foldR (λ _ c, check_condition db c) tt l ∧ rep s0 env out.2 g) ∨ io_error s0 env out.
Proof.
  revert o. induction l as [|c l IH]; intros o Ho Hl; [by left|]. apply Forall_cons in Hl as [Hc Hl].
  cbn [forM foldR]. destruct (condition_spec c o Ho Hc) as [[E Ho1]|Hio]; [|right; by apply io_error_bind].
  rewrite bind_eq. destruct (check_transaction_condition elapsed c o) as [r o1]. simpl in E, Ho1. subst r.
  destruct (check_condition_cases db c) as [[-> _]|[[x ->] _]]; [|by left]. by apply IH.
Qed.

End conditions.

(** ** Committing *)

(** What a prepared transaction publishes, on top of [env]: [env'], with the
    allocator's metadata of [g']. *)
Record commits (env env' : Env) (g' : Heap) (com : Lsn) (pb : PreparedBatch) : Prop := {
  cm_pages : e_clean env' = changed_decoded pb ∪ e_clean env;
  cm_image id p : changed_decoded pb !! id = Some p →
    in_range g' id ∧ PageData_lsn p = com ∧ ∃ image, changed_pages pb !! id = Some image ∧ len image = PAGE_SIZE ∧ decodes image id p;
  cm_dom id : changed_decoded pb !! id = None → changed_pages pb !! id = None;
  cm_some : changed_pages pb ≠ ∅;
  cm_size : Z.of_nat (size (changed_pages pb)) ≤ hhw g';
  cm_read id p : pb_read_pages pb !! id = Some p → e_clean env !! id = Some p;
  cm_base : e_base env' = e_base env;
  cm_superblock : new_superblock pb = e_superblock env';
  cm_fields : wf_superblock (next_sb (e_superblock env) (hroot g') (hfree g') (hhw g')) ∧
    e_superblock env' = sealed_copy (next_sb (e_superblock env) (hroot g') (hfree g') (hhw g'));
  cm_cover id : FIRST_DATA_PAGE ≤ id ≤ hhw g' → is_Some (e_clean env' !! id);
  cm_grow hw : high_water_page_id (e_superblock env) = Some hw → hw ≤ hhw g';
  cm_generation : base_generation pb = generation (e_superblock env) ∧
    generation (e_superblock env') = generation (e_superblock env) + 1;
  cm_slot : new_slot pb = e_slot env' ∧ e_slot env' = other_slot (e_slot env);
  cm_next : pb_next_revision pb = com + 1 ∧ hnext g' = com + 1 ∧ e_next_lsn env' = com + 1;
  cm_root : pb_root_page_id pb = hroot g';
  cm_free : pb_free_list_head pb = hfree g';
  cm_hw : pb_high_water_page_id pb = hhw g';
  cm_lsn : pb_commit_lsn pb = Some com;
  cm_bound : com + 1 ≤ U64_MAX;
  cm_wal : is_Some (st_wal s0) → com = e_next_lsn env + Z.of_nat (size (changed_pages pb)) + 1;
  cm_batch : pb_batch_id pb = e_batch_id env ∧ e_batch_id env' = e_batch_id env + 1 ∧ e_batch_id env' ≤ U64_MAX
}.

Section commit.
Context (env : Env) (g gm : Heap) (D Dm : nat) (db : ReferenceDb) (l : list TransactionMutation) (C : nat) (P : Z) (ntx nmut : nat).
Abbreviation prov := (hnext g).
Abbreviation com := (commit_of s0 env gm prov).
Abbreviation g' := (heap_finish prov com gm).
Abbreviation env' := (env_finish env prov com gm).
Hypothesis R : ready env g D db.
Hypothesis Rm : room C P env g D (S ntx) nmut.
Hypothesis Hl : l ≠ [].
Hypothesis Hstates : holds_states gm Dm (apply_mutations prov l (states db)).
Hypothesis Hlast : hlast gm = Some prov.
Hypothesis Hhw : hhw gm ≤ P.
Hypothesis Hgrow : hhw g ≤ hhw gm.
Context (o : Overlay F W I).
Hypothesis Ho : rep s0 env o gm.

Lemma commit_settled t fl : db_at gm t fl → ∀ x, x ∈ tree_pages t None → (x.1 ∉ hdirty gm) → settled prov x.2.
Proof.
  intros DB [id p] Hx Hd. simpl in *. pose proof (own_pages _ _ _ _ (db_owns _ _ _ DB) (id, p)) as Hp. simpl in Hp.
  rewrite (rep_clean _ _ _ _ Ho) in Hp by done. destruct p as [lsn next es| | |]; [|done..]. simpl.
  eapply Forall_impl; [eapply (rd_clean _ _ _ _ R), Hp; set_solver|]. simpl. lia.
Qed.

Lemma commit_revs : map_Forall (λ _ s, 0 ≤ RevisionState_revision s ≤ prov) (apply_mutations prov l (states db)).
Proof.
  pose proof (rd_pos _ _ _ _ R). apply (apply_mutations_revs (λ r, 0 ≤ r ≤ prov)); [lia|].
  eapply map_Forall_impl; [exact (rd_revs _ _ _ _ R)|]. simpl. lia.
Qed.

Lemma dirty_size t fl : db_at gm t fl → Z.of_nat (size (hdirty gm)) ≤ hhw gm.
Proof.
  intros DB. pose proof (db_hhw _ _ _ DB).
  assert (hdirty gm ⊆ list_to_set (seqZ FIRST_DATA_PAGE (hhw gm - 1))) as Hsub%subseteq_size.
  { intros id Hid%(own_dirty _ _ _ _ (db_owns _ _ _ DB)). rewrite elem_of_list_to_set, elem_of_seqZ. destruct Hid. lia. }
  rewrite size_list_to_set, length_seqZ in Hsub by apply NoDup_seqZ. lia.
Qed.

Lemma commit_bounds t fl : db_at gm t fl → prov ≤ com ≤ e_next_lsn env + P + 1.
Proof.
  intros DB. pose proof (dirty_size _ _ DB). pose proof (rd_pos _ _ _ _ R). unfold commit_of. destruct (st_wal s0); lia.
Qed.

Lemma commit_counters t fl : db_at gm t fl → counters_left env com.
Proof.
  intros DB. pose proof (commit_bounds _ _ DB). destruct Rm, R as [[] _]. pose proof (db_hhw _ _ _ DB).
  unfold counters_left. rewrite Nat2Z.inj_succ in *. split_and!; try done; lia || nia.
Qed.

Lemma commit_dirty : hdirty gm ≠ ∅.
Proof.
  intros Hd. destruct Hstates as (t & fl & DB & _ & _ & Hm).
  destruct (apply_mutations_some prov l (states db) Hl) as (k & s & Hk & Hs). rewrite <- Hm in Hk.
  apply elem_of_list_to_map_2, list_elem_of_fmap in Hk as (e & [= -> ->] & He). rewrite state_revision in Hs.
  destruct (proj1 entry_leaf_page_mut t None e He) as (id & lsn & n & es & Hp & Hin).
  pose proof (commit_settled t fl DB _ Hp) as Hset. rewrite Hd in Hset. specialize (Hset (not_elem_of_empty _)). simpl in Hset.
  rewrite Forall_forall in Hset. by apply (Hset _ Hin).
Qed.

Definition commit_db : ReferenceDb := mkDb (apply_mutations com l (states db)) (com + 1) (db_next_txn_id db).

Lemma commit_null : hhw gm < NULL_PAGE_ID.
Proof. destruct Rm as [_ ? _ _ _]. lia. Qed.

Lemma commit_tree : holds_states g' Dm (states commit_db).
Proof.
  destruct Hstates as (t & fl & DB & Hb & Hsm & Hm). pose proof (commit_settled t fl DB) as Hset.
  exists (rs_tree (hdirty gm) prov com t), (rs_free (hdirty gm) com <$> fl). split_and!.
  - by apply finish_db.
  - by apply rs_bal_mut.
  - by apply rs_small.
  - rewrite states_of_restamp by apply DB. rewrite Hm. apply restamp_mutations.
    eapply map_Forall_impl; [exact (rd_revs _ _ _ _ R)|]. simpl. lia.
Qed.

Lemma commit_new_revs : map_Forall (λ _ s, 0 < RevisionState_revision s < com + 1) (states commit_db).
Proof.
  destruct Hstates as (t & fl & DB & _). pose proof (commit_bounds t fl DB). pose proof (rd_pos _ _ _ _ R).
  apply (apply_mutations_revs (λ r, 0 < r < com + 1)); [lia|].
  eapply map_Forall_impl; [exact (rd_revs _ _ _ _ R)|]. simpl. lia.
Qed.

Lemma commit_clean id lsn next es :
  hp g' !! id = Some (PLeaf lsn next es) → Forall (λ e, le_revision e < com + 1) es.
Proof.
  intros Hp. destruct (decide (id ∈ hdirty gm)) as [Hd|Hd].
  - destruct commit_tree as (t & fl & DB & _ & _ & Hm). destruct Hstates as (tm & flm & DBm & _).
    assert (in_range g' id) as Hr by (by apply (own_dirty _ _ _ _ (db_owns _ _ _ DBm))).
    pose proof (owned_leaf _ _ _ _ _ _ _ DB Hr Hp) as Hin.
    pose proof (entries_revs (λ r, 0 < r < com + 1) t (db_ordered _ _ _ DB) (db_fits _ _ _ DB)) as Hrevs.
    rewrite Hm in Hrevs. specialize (Hrevs commit_new_revs). rewrite Forall_forall in Hrevs. apply Forall_forall.
    intros x Hx. destruct (proj1 leaf_page_entries_mut _ _ _ _ _ _ Hin x Hx) as (e & He & ->). by apply Hrevs.
  - destruct Hstates as (t & fl & DB & _). pose proof (commit_bounds t fl DB).
    change (hp g') with (hp (heap_restamp (hdirty gm) prov com gm)) in Hp. rewrite heap_restamp_lookup in Hp.
    rewrite (rep_clean _ _ _ _ Ho) in Hp by done. destruct (e_clean env !! id) as [p|] eqn:E; [|done].
    unfold rs_page in Hp. simpl in Hp. rewrite decide_False in Hp by done. injection Hp as ->.
    eapply Forall_impl; [by eapply (rd_clean _ _ _ _ R)|]. simpl. lia.
Qed.

Lemma commit_sb_wf : wf_superblock (next_sb (e_superblock env) (hroot gm) (hfree gm) (hhw gm)).
Proof.
  destruct Hstates as (t & fl & DB & _). pose proof (commit_counters t fl DB) as (_ & _ & _ & _ & _ & Hsb & Hgen).
  destruct (finish_refs gm t fl DB commit_null) as (? & ? & ?). by apply next_sb_wf.
Qed.

Lemma commit_ready : ready env' g' Dm commit_db.
Proof.
  destruct Hstates as (t & fl & DB & _). pose proof (commit_bounds t fl DB). pose proof (rd_pos _ _ _ _ R).
  pose proof (rd_batch _ _ _ _ R). split; [split; try done|].
  - apply commit_tree.
  - simpl. lia.
  - apply commit_new_revs.
  - apply commit_clean.
  - right. destruct (apply_mutations_some com l (states db) Hl) as (k & s & Hk & Hs). exists k, s. simpl. split; [done|lia].
  - destruct (rd_locates _ _ _ _ R) as (_ & _ & _ & Hps). by split_and!.
  - apply sealed_wf, commit_sb_wf.
  - simpl. lia.
  - apply (rd_base _ _ _ _ R).
Qed.

Lemma changed_dom pb : prepared_ok env prov com gm pb → dom (changed_pages pb) = hdirty gm.
Proof.
  intros Po. apply set_eq. intros id. rewrite elem_of_dom. destruct (decide (id ∈ hdirty gm)) as [Hd|Hd].
  - destruct (po_in _ _ _ _ _ Po id Hd) as (p & image & _ & _ & -> & _). by split.
  - destruct (po_out _ _ _ _ _ Po id Hd) as [-> _]. split; [by intros []|done].
Qed.

Lemma commit_pages pb : prepared_ok env prov com gm pb → hp g' = changed_decoded pb ∪ e_clean env.
Proof.
  intros Po. apply map_eq. intros id. destruct (decide (id ∈ hdirty gm)) as [Hd|Hd].
  - destruct (po_in _ _ _ _ _ Po id Hd) as (p & image & -> & Hdec & _). symmetry. by apply lookup_union_Some_l.
  - destruct (po_out _ _ _ _ _ Po id Hd) as [_ Hdec]. rewrite lookup_union_r by done.
    change (hp g') with (hp (heap_restamp (hdirty gm) prov com gm)). rewrite heap_restamp_lookup.
    rewrite (rep_clean _ _ _ _ Ho) by done. destruct (e_clean env !! id) as [p|]; [|done].
    unfold rs_page. simpl. by rewrite decide_False.
Qed.

Lemma commit_page_lsn id p : id ∈ hdirty gm → hp g' !! id = Some p → PageData_lsn p = com.
Proof.
  intros Hd. change (hp g') with (hp (heap_restamp (hdirty gm) prov com gm)). rewrite heap_restamp_lookup.
  destruct (hp gm !! id) as [q|]; [|done]. unfold rs_page. simpl. rewrite decide_True by done. intros [= <-].
  apply restamp_lsn.
Qed.

Lemma commit_step pb : prepared_ok env prov com gm pb → commits env env' g' com pb.
Proof.
  intros Po. pose proof Hstates as (t & fl & DB & _). pose proof (commit_counters t fl DB) as (_ & Hc1 & _ & Hb & Hb1 & _ & Hgen).
  pose proof Po as [Hin Hout Hread Hsb Hslot Hgeneration Hnext Hroot Hfree Hw Hlsn Hbatch]. split; try done.
  - by apply commit_pages.
  - intros id p Hp. destruct (decide (id ∈ hdirty gm)) as [Hd|Hd]; [|by destruct (Hout id Hd) as [_ ?]; congruence].
    split; [by apply (own_dirty _ _ _ _ (db_owns _ _ _ DB))|].
    destruct (Hin id Hd) as (p' & image & Hp' & Hdec & Himg & Hlen & Hd'). assert (p' = p) as -> by congruence.
    split; [by eapply commit_page_lsn|]. eauto.
  - intros id Hnone. destruct (decide (id ∈ hdirty gm)) as [Hd|Hd]; [|by destruct (Hout id Hd)].
    destruct (Hin id Hd) as (? & ? & _ & ? & _). congruence.
  - intros He. apply commit_dirty. by rewrite <- (changed_dom pb Po), He, dom_empty_L.
  - rewrite <- size_dom, (changed_dom pb Po). by eapply dirty_size.
  - split; [apply commit_sb_wf|done].
  - intros id Hid. destruct commit_tree as (t' & fl' & DB' & _). by eapply db_cover.
  - intros hw Hhw'. destruct (rd_locates _ _ _ _ R) as (_ & _ & E & _). rewrite E in Hhw'. injection Hhw' as <-. exact Hgrow.
  - intros [w Hw']. rewrite <- size_dom, (changed_dom pb Po). unfold commit_of. rewrite Hw'. lia.
Qed.

Lemma commit_finish :
  outcome s0 env (λ pb o', rep s0 env' o' g' ∧ commits env env' g' com pb) (finish_transaction o).
Proof.
  pose proof Hstates as (t & fl & DB & _ & _ & Hm). pose proof (commit_counters t fl DB) as Hcnt.
  assert (Forall (λ e, is_u64 (ge_rev e)) (entries t)) as Hrevs.
  { pose proof (entries_revs (λ r, 0 ≤ r ≤ prov) t (db_ordered _ _ _ DB) (db_fits _ _ _ DB)) as Hr.
    rewrite Hm in Hr. specialize (Hr commit_revs). pose proof (commit_bounds t fl DB). destruct Hcnt as (_ & ? & _).
    eapply Forall_impl; [exact Hr|]. unfold is_u64. simpl. lia. }
  pose proof (finish_spec s0 env gm t fl prov DB Hlast commit_null (commit_settled t fl DB) Hrevs Hcnt o Ho) as Hf.
  destruct (finish_transaction o) as [[pb|e| |] o']; try done. destruct Hf as [Hrep Hpo]. split; [done|]. by apply commit_step.
Qed.

End commit.

(** ** Preparing a transaction *)

Lemma room_mono C P env g D ntx nmut ntx' nmut' :
  0 ≤ hhw g → room C P env g D ntx nmut → (ntx' ≤ ntx)%nat → (nmut' ≤ nmut)%nat → room C P env g D ntx' nmut'.
Proof.
  intros H0' [H1 H2 H3 H4 H5] Ht Hm. assert (0 ≤ WRITE_PAGES) by (by vm_compute). split; try lia; nia.
Qed.

Lemma validate_mutation_runs env g m : small_mutation m → runs s0 env g (validate_transaction_mutation m) tt g.
Proof.
  intros [Hk Hm]. assert ((MAX_ENCODED_KEY_SIZE <? len (DocumentKey_encode (TransactionMutation_key m))) = false) as Hkey
    by (apply Z.ltb_ge; lia).
  assert (∀ k, k = TransactionMutation_key m → runs s0 env g (lift (validate_encoded_key (DocumentKey_encode k))) tt g) as Hl.
  { intros k ->. apply runs_lift. unfold validate_encoded_key. by rewrite Hkey. }
  destruct m as [key value|key]; [|by apply Hl]. eapply runs_bind; [|by apply Hl].
  unfold validate_value. eapply runs_bind; [apply runs_limits|].
  rewrite (proj2 (Z.ltb_ge _ _)) by tauto. rewrite (proj2 (Z.ltb_ge _ _)) by tauto. apply runs_ret.
Qed.

Lemma validate_mutations_runs env g l : Forall small_mutation l → runs s0 env g (forM l validate_transaction_mutation) tt g.
Proof.
  induction 1 as [|m l Hm _ IH]; [apply runs_ret|]. eapply runs_bind; [by apply validate_mutation_runs|done].
Qed.

(** [outcome_runs], for any description of the outcome that allows the data
    file to fail. *)
Lemma or_io_runs {A B} env g g' (m : ST (Overlay F W I) Error A) (k : A → ST (Overlay F W I) Error B) a o
    (Q : Result Error B * Overlay F W I → Prop) :
  runs s0 env g m a g' → rep s0 env o g →
  (∀ o', rep s0 env o' g' → io_error s0 env (k a o') ∨ Q (k a o')) → io_error s0 env (bind m k o) ∨ Q (bind m k o).
Proof.
  intros Hr Ho Hk. destruct (Hr o Ho) as [(o' & E & Ho')|Hio]; [|left; by apply io_error_bind].
  rewrite bind_eq, E. auto.
Qed.

(** The result of a request, compared with the reference's: the overlay's new
    state when it commits, and no change otherwise. *)
Definition prepared_as (C : nat) (P : Z) (env : Env) (g : Heap) (D : nat) (db : ReferenceDb) (request : TransactionRequest)
    (ntx nmut : nat) (out : Result Error (option PreparedBatch) * Overlay F W I) : Prop :=
  ∃ com env' g' D' r db', ReferenceDb_transact_at request com db = (r, db') ∧
    rep s0 env' out.2 g' ∧ ready env' g' D' db' ∧ room C P env' g' D' ntx nmut ∧
    match r with
    | Ok (Some lsn) => lsn = com ∧ db_next_lsn db ≤ com ∧ ∃ pb, out.1 = Ok (Some pb) ∧ commits env env' g' com pb
    | Ok None => out.1 = Ok None ∧ env' = env ∧ g' = g ∧ db' = db
    | Err e => out.1 = Err e ∧ ((∃ c, e = Conflict c) ∨ (∃ m, e = InvalidRequest m)) ∧ env' = env ∧ g' = g ∧ db' = db
    | _ => False
    end.

Lemma ready_hhw env g D db : ready env g D db → 0 ≤ hhw g.
Proof. intros [[(t & fl & DB & _)]]. pose proof (db_hhw _ _ _ DB). lia. Qed.

(** The part after the conditions. *)
Lemma commit_refines C P env g D db request ntx nmut o :
  ready env g D db → room C P env g D (S ntx) (length (mutations request) + nmut) → small_request request →
  accepts db request → mutations request ≠ [] → rep s0 env o g →
  let out := (do* forM (mutations request) apply_mutation in
              let* prepared := finish_transaction in ret (Some prepared)) o in
  io_error s0 env out ∨ prepared_as C P env g D db request ntx nmut out.
Proof.
  intros R Rm [Hsm _] Hacc Hne Ho. pose proof (rd_tree _ _ _ _ R) as Htree. pose proof (rd_last _ _ _ _ R) as Hlast.
  pose proof (rd_pos _ _ _ _ R) as Hpos. pose proof (rd_base _ _ _ _ R) as Hbase. pose proof Rm as [R1 R2 R3 R4 R5].
  set (l := mutations request) in *. assert (0 ≤ WRITE_PAGES) by (by vm_compute).
  assert (heap_revision g = hnext g) as Hrev by (unfold heap_revision; by rewrite Hlast).
  destruct (mutations_wp env C l g D (states db) Hbase Htree Hsm) as (a & gm & Hr & Dm & Hst & HD & Hw & Hn & Hl);
    [lia|unfold len; nia|].
  rewrite Hrev in *. assert (hlast gm = Some (hnext g)) as Hlm by (rewrite Hl; by destruct l).
  cbv zeta. eapply or_io_runs; [exact Hr|done|]. intros om Hom.
  assert (hhw gm ≤ P) as HhwP by (unfold len in *; nia). assert (hhw g ≤ hhw gm) as HhwG by lia.
  pose proof (commit_finish env g gm D Dm db l C P ntx _ R Rm Hne Hst Hlm HhwP HhwG om Hom) as Hfin.
  pose proof (commit_ready env g gm D Dm db l C P ntx _ R Rm Hne Hst Hlm HhwP HhwG om Hom) as R'.
  pose proof Hst as (t & fl & DB & _). destruct (commit_bounds env g gm D db P R HhwP t fl DB) as [Hc1 Hc2].
  pose proof (commit_counters env g gm D db C P ntx _ R Rm HhwP t fl DB) as (Hc0 & Hc3 & _).
  set (com := commit_of s0 env gm (hnext g)) in *.
  apply outcome_cases in Hfin as [(pb & o' & E & Hrep & Hcm)|Hio]; [|left; by apply io_error_bind].
  right. rewrite bind_eq, E. exists com, (env_finish env (hnext g) com gm), (heap_finish (hnext g) com gm), Dm.
  assert (committed request com db = commit_db env g gm db l) as Edb.
  { unfold committed, commit_db. fold com l. rewrite (rd_next _ _ _ _ R) in Hc1. rewrite Z.max_r by lia.
    rewrite apply_mutations_union; [done|]. by apply validate_nodup, Hacc. }
  exists (Ok (Some com)), (commit_db env g gm db l). split_and!.
  - rewrite (transact_at_Ok request com db Hacc) by lia. rewrite Edb. fold l. by destruct l.
  - exact Hrep.
  - exact R'.
  - rewrite !Nat2Z.inj_succ in *. split; cbn [env_finish heap_finish hhw e_next_lsn e_batch_id e_superblock sealed_copy next_sb generation];
      unfold len in *; lia || nia.
  - done.
  - rewrite (rd_next _ _ _ _ R) in Hc1. done.
  - by exists pb.
Qed.

(** A request that does not commit leaves everything as it was. *)
Lemma unchanged_refines C P env g D db request ntx nmut out r :
  ready env g D db → room C P env g D (S ntx) (length (mutations request) + nmut) → rep s0 env out.2 g →
  ReferenceDb_transact_at request 1 db = (r, db) →
  match r with
  | Ok None => out.1 = Ok None
  | Err e => out.1 = Err e ∧ ((∃ c, e = Conflict c) ∨ (∃ m, e = InvalidRequest m))
  | _ => False
  end →
  prepared_as C P env g D db request ntx nmut out.
Proof.
  intros R Rm Hrep Href Hout. exists 1, env, g, D, r, db. split_and!; try done.
  - eapply room_mono; [by eapply ready_hhw|exact Rm|lia..].
  - destruct r as [[lsn|]|e| |]; try done. by destruct Hout.
Qed.

Lemma prepare_refines C P env g D db elapsed request ntx nmut o :
  ready env g D db → room C P env g D (S ntx) (length (mutations request) + nmut) → small_request request →
  rep s0 env o g →
  let out := prepare_transaction elapsed request o in
  io_error s0 env out ∨ prepared_as C P env g D db request ntx nmut out.
Proof.
  intros R Rm Hsm Ho. pose proof Hsm as [Hsm1 Hsm2]. cbv zeta. unfold prepare_transaction.
  destruct (validate_error request) as [Hv|[msg Hv]].
  2: { right. rewrite bind_eq. unfold lift. rewrite Hv. eapply (unchanged_refines _ _ _ _ _ _ _ _ _ _ (Err (InvalidRequest msg))); try done; [|by eauto].
    unfold ReferenceDb_transact_at. rewrite bind_eq. unfold lift. by rewrite Hv. }
  eapply or_io_runs; [by apply runs_lift|done|]. intros o1 Ho1.
  eapply or_io_runs; [by apply validate_mutations_runs|done|]. intros o2 Ho2.
  destruct (conditions_spec env g D db elapsed (rd_base _ _ _ _ R) (rd_tree _ _ _ _ R) (conditions request) o2 Ho2 Hsm2) as [[E Ho3]|Hio];
    [|left; by apply io_error_bind].
  rewrite bind_eq. destruct (forM (conditions request) (check_transaction_condition elapsed) o2) as [r o3]. simpl in E, Ho3. subst r.
  destruct (check_conditions_cases db (conditions request)) as [[Ec Hc]|[[x Ec] Hc]].
  2: { right. rewrite Ec. eapply (unchanged_refines _ _ _ _ _ _ _ _ _ _ (Err (Conflict x))); try done; [|by eauto].
    unfold ReferenceDb_transact_at. rewrite bind_eq. unfold lift at 1. rewrite Hv, bind_eq. unfold get. rewrite bind_eq. unfold lift.
    by rewrite Ec. }
  rewrite Ec. destruct (validation_time_rep env g o3 (store_elapsed_nanos elapsed) Ho3) as (o4 & E4 & Ho4).
  rewrite bind_eq, E4. destruct (mutations request) as [|m l] eqn:El.
  - right. eapply (unchanged_refines _ _ _ _ _ _ _ _ _ _ (Ok None)); try done; [by rewrite El|].
    rewrite transact_at_Ok by (done || lia). by rewrite El.
  - cbn [is_empty]. rewrite <- El. apply commit_refines; try done; rewrite El; done.
Qed.

End txn.
