(* ===== verification/Group.v ===== *)
(** * Group: transaction groups refine the reference database

    [apply_transaction_group] prepares the requests of a group one after the
    other on one overlay, logs the prepared transactions together and publishes
    them.  A store that represents a [ReferenceDb] ([represents]) answers as if
    the requests had been executed one by one on it, and then represents the
    database that they leave. *)

From stdpp Require Import list_numbers.
From S2P Require Import Prelude Core Crc Page Superblock DurableFile Wal WalCodec WalScan WalLog WalOpen WalSafety Format FormatCodec Cache Reference StoreState Store Checker Engine Heap Tree Own Split TreeOps Point ReadOps Restamp Finish Txn.

(** ** Serial execution *)

Definition transaction_result (r : Result Error (option Lsn)) : Result Error TransactionResult :=
  let? lsn := r in Ok (mkTransactionResult lsn).

(** The requests are executed one after the other; those that commit get
    increasing LSNs. *)
Inductive serial : ReferenceDb → list TransactionRequest → list (Result Error TransactionResult) → ReferenceDb → Prop :=
  | serial_nil db : serial db [] [] db
  | serial_cons db request lsn r db1 requests results db2 :
      ReferenceDb_transact_at request lsn db = (r, db1) → (is_ok r = true → db_next_lsn db ≤ lsn ∨ db1 = db) →
      serial db1 requests results db2 →
      serial db (request :: requests) (transaction_result r :: results) db2.

Section group.
Context `{Crc32c} {F W I : Type} `{DFL : DurableFileLaws F} `{WFL : DurableFileLaws W} `{FaultInjector I}.

(** ** Stores that represent a database *)

Definition env_of (s : BTreeStore F W I) (base : gmap PageId PageData) : Env :=
  mkEnv base base (st_next_lsn s) (st_next_batch_id s) (st_superblock s) (st_active_slot s).
Definition heap_of (s : BTreeStore F W I) (base : gmap PageId PageData) : Heap :=
  mkHeap base ∅ (st_root s) (st_free_list_head s) (st_high_water s) None (st_next_revision s).

(** The tree of the committed pages [base] has depth [D] and holds [db]; the
    cache holds none but those pages. *)
Record represents (s : BTreeStore F W I) (base : gmap PageId PageData) (D : nat) (db : ReferenceDb) : Prop := {
  rp_ready : ready s (env_of s base) (heap_of s base) D db;
  rp_cache id p : cached (st_cache s) id = Some p → base !! id = Some p;
  rp_capacity : capacity (st_cache s) = 0 → pages (st_cache s) = ∅;
  rp_config : 0 ≤ inline_value_limit (limits (st_config s));
  rp_serving : st_broken s = None
}.

Lemma overlay_rep (s : BTreeStore F W I) base D db : represents s base D db → rep s (env_of s base) (Overlay_new s) (heap_of s base).
Proof.
  intros [_ Hc _ _ _]. split; try done. split; try done. by destruct s.
Qed.

(** ** Preparing the group *)

(** The prepared transactions lead from one state to the next. *)
Inductive prepared_chain (s0 : BTreeStore F W I) (P : Z) : Env → Heap → list PreparedBatch → Env → Heap → Prop :=
  | chain_nil env g : prepared_chain s0 P env g [] env g
  | chain_cons env g env1 g1 com pb ps env2 g2 :
      commits s0 env env1 g1 com pb → hhw g1 ≤ P → prepared_chain s0 P env1 g1 ps env2 g2 →
      prepared_chain s0 P env g (pb :: ps) env2 g2.

Definition mutation_count (requests : list TimedRequest) : nat :=
  list_sum ((λ t, length (mutations (timed_request t))) <$> requests).

Lemma preparation_time_rep (s0 : BTreeStore F W I) env g o n :
  rep s0 env o g → ∃ o', on_store (F:=F) (W:=W) (I:=I) (add_preparation_time n) o = (Ok tt, o') ∧ rep s0 env o' g.
Proof.
  intros Ho. eexists. split; [reflexivity|]. destruct Ho as [[Hs1 Hs2 Hs3 Hs4 Hs5 Hs6]]. split; simpl; try done.
  split; simpl; try done. by rewrite Hs1.
Qed.

Section prepare.
Context (s0 : BTreeStore F W I) (C : nat) (P : Z).
Hypothesis inline_limit : 0 ≤ inline_value_limit (limits (st_config s0)).
Hypothesis file_reliable : reliable (st_file s0).

Lemma group_step_refines env g D db o t ntx nmut prepared results :
  ready s0 env g D db → room C P env g D (S ntx) (length (mutations (timed_request t)) + nmut) →
  small_request s0 (timed_request t) → rep s0 env o g →
  ∃ ps r lsn env' g' D' db' o', group_step (prepared, results) t o = (Ok (prepared ++ ps, results ++ [transaction_result r]), o') ∧
    rep s0 env' o' g' ∧ ready s0 env' g' D' db' ∧ room C P env' g' D' ntx nmut ∧ prepared_chain s0 P env g ps env' g' ∧
    ReferenceDb_transact_at (timed_request t) lsn db = (r, db') ∧ (is_ok r = true → db_next_lsn db ≤ lsn ∨ db' = db) ∧
    (length ps ≤ 1)%nat.
Proof.
  intros R Rm Hsm Ho.
  destruct (prepare_refines s0 inline_limit C P env g D db (t_validation t) (timed_request t) ntx nmut o R Rm Hsm Ho)
    as [(e & _ & Hno & _)|(com & env' & g' & D' & r & db' & Href & Ho' & R' & Rm' & Hr)]; [done|].
  unfold group_step, attempt. rewrite bind_eq. destruct (prepare_transaction _ _ o) as [out o1]. simpl in Ho', Hr.
  destruct (preparation_time_rep s0 env' g' o1 (store_elapsed_nanos (t_preparation t)) Ho') as (o2 & E2 & Ho2).
  destruct r as [[lsn|]|e| |]; [| | |done..].
  - destruct Hr as (-> & Hle & pb & -> & Hcm). rewrite bind_eq.
    exists [pb], (Ok (Some com)), com, env', g', D', db', o2. rewrite (cm_lsn _ _ _ _ _ _ Hcm). split_and!; try done; try (simpl; lia); try (by auto).
    + cbn [lift ok_or bind ret]. rewrite bind_eq, E2. done.
    + eapply chain_cons; [exact Hcm| |constructor]. pose proof (rm_pages _ _ _ _ _ _ _ Rm') as [? _].
      assert (0 ≤ WRITE_PAGES) by (by vm_compute). nia.
  - destruct Hr as (-> & -> & -> & ->). rewrite bind_eq. exists [], (Ok None), com, env, g, D', db, o2. split_and!; try done; try (simpl; lia); try (by auto).
    + cbn [lift ok_or bind ret]. rewrite app_nil_r, bind_eq, E2. done.
    + constructor.
  - destruct Hr as (-> & He & -> & -> & ->). rewrite bind_eq. exists [], (Err e), com, env, g, D', db, o2. split_and!; try done; try (simpl; lia); [|constructor].
    assert (request_error e = true) as -> by (by destruct He as [[? ->]|[? ->]]). rewrite app_nil_r.
    cbn [ret]. rewrite bind_eq, E2. done.
Qed.

Lemma prepared_chain_app env g ps env1 g1 ps' env2 g2 :
  prepared_chain s0 P env g ps env1 g1 → prepared_chain s0 P env1 g1 ps' env2 g2 → prepared_chain s0 P env g (ps ++ ps') env2 g2.
Proof. induction 1; [done|]. intros. simpl. econstructor; eauto. Qed.

(** The state after the first [n] prepared transactions is the state after some
    of the first requests. *)
Definition prefixes env g db (requests : list TransactionRequest) results ps : Prop :=
  ∀ n, ∃ m env' g' D' db', prepared_chain s0 P env g (take n ps) env' g' ∧ ready s0 env' g' D' db' ∧
    serial db (take m requests) (take m results) db'.

Lemma prefixes_cons env g D db request lsn r db1 requests results env1 g1 ps ps' :
  ready s0 env g D db → prepared_chain s0 P env g ps env1 g1 → (length ps ≤ 1)%nat →
  ReferenceDb_transact_at request lsn db = (r, db1) → (is_ok r = true → db_next_lsn db ≤ lsn ∨ db1 = db) →
  prefixes env1 g1 db1 requests results ps' → prefixes env g db (request :: requests) (transaction_result r :: results) (ps ++ ps').
Proof.
  intros R Hch Hn Href Hle Hpre n. destruct (decide (n < length ps)%nat) as [Hlt|Hge].
  { assert (n = 0%nat) as -> by lia. exists 0%nat, env, g, D, db. split_and!; [constructor|done|constructor]. }
  destruct (Hpre (n - length ps)%nat) as (m & env' & g' & D' & db' & Hch' & R' & Hser). exists (S m), env', g', D', db'.
  rewrite take_app_ge by lia. split_and!; [by eapply prepared_chain_app|done|]. simpl. by econstructor.
Qed.

Lemma group_refines requests env g D db o prepared results :
  ready s0 env g D db → room C P env g D (length requests) (mutation_count requests) →
  Forall (λ t, small_request s0 (timed_request t)) requests → rep s0 env o g →
  ∃ ps rs env' g' D' db' o', foldM group_step (prepared, results) requests o = (Ok (prepared ++ ps, results ++ rs), o') ∧
    rep s0 env' o' g' ∧ ready s0 env' g' D' db' ∧ prepared_chain s0 P env g ps env' g' ∧
    serial db (timed_request <$> requests) rs db' ∧ prefixes env g db (timed_request <$> requests) rs ps ∧
    (length ps ≤ length requests)%nat ∧ (D' ≤ C)%nat.
Proof.
  revert env g D db o prepared results. induction requests as [|t requests IH]; intros env g D db o prepared results R Rm Hsm Ho.
  { exists [], [], env, g, D, db, o. rewrite !app_nil_r. pose proof (rm_depth _ _ _ _ _ _ _ Rm).
    split_and!; try done; try constructor; try (simpl; lia). intros n. rewrite take_nil. exists 0%nat, env, g, D, db.
    split_and!; [constructor|done|constructor]. }
  apply Forall_cons in Hsm as [Ht Hsm].
  destruct (group_step_refines env g D db o t (length requests) (mutation_count requests) prepared results R Rm Ht Ho)
    as (ps & r & lsn & env1 & g1 & D1 & db1 & o1 & E & Ho1 & R1 & Rm1 & Hch & Href & Hle & Hn).
  destruct (IH env1 g1 D1 db1 o1 (prepared ++ ps) (results ++ [transaction_result r]) R1 Rm1 Hsm Ho1)
    as (ps' & rs & env2 & g2 & D2 & db2 & o2 & E2 & Ho2 & R2 & Hch2 & Hser & Hpre & Hn2 & HD2).
  exists (ps ++ ps'), (transaction_result r :: rs), env2, g2, D2, db2, o2. split_and!; try done.
  - cbn [foldM]. rewrite bind_eq, E, E2, <- !app_assoc. done.
  - by eapply prepared_chain_app.
  - rewrite fmap_cons. by econstructor.
  - rewrite fmap_cons. by eapply prefixes_cons.
  - rewrite length_app. simpl. lia.
Qed.

End prepare.

(** ** Log records *)

Lemma decode_lsn d p : PageData_decode d = Ok p → PageData_lsn p = page_lsn (header d).
Proof.
  unfold PageData_decode. intros Hd. ok_step Hd. destruct (page_type (header d)); [..|done];
    unfold decode_leaf, decode_internal, decode_overflow, decode_free in Hd; ok_steps Hd;
    repeat match type of Hd with context [let '(_, _) := ?x in _] => destruct x; ok_steps Hd end; by injection Hd as <-.
Qed.

Lemma decode_lsn_bytes bytes id d :
  decode_page_at bytes (Some id) = Ok d → slice (E:=Error) bytes 16 24 = Ok (sub bytes 16 24) ∧ from_le_bytes (sub bytes 16 24) = page_lsn (header d).
Proof.
  unfold decode_page_at. intros Hd. ok_steps Hd.
  match type of Hd with Ok _ = Ok _ => injection Hd as <- end. simpl.
  match goal with H : slice bytes 16 24 = Ok ?b |- _ => pose proof H as E'; apply slice_inv in E' as (_ & _ & ->); by rewrite H end.
Qed.

(** A page's image may be logged with the page's LSN. *)
Lemma image_loggable image id p com :
  decodes image id p → PageData_lsn p = com → FIRST_DATA_PAGE ≤ id ≤ U64_MAX →
  wf_image (mkImage id image) ∧ validate_page_image_lsn (mkImage id image) com = Ok tt.
Proof.
  intros (d & Hd & Hp) Hlsn Hid. assert (is_superblock_page id = false) as Hno.
  { unfold is_superblock_page. by rewrite !(proj2 (Z.eqb_neq _ _)) by lia. }
  pose proof (decode_lsn _ _ Hp) as El. destruct (decode_lsn_bytes _ _ _ Hd) as [Es Eb].
  unfold wf_image, validate_page_image, validate_page_image_lsn. simpl. rewrite Hno, Hd. split; [split; [|done]|].
  - unfold is_u64. lia.
  - rewrite Es. cbn [rbind]. by rewrite Eb, <- El, Hlsn, Z.eqb_refl.
Qed.

Lemma superblock_loggable slot bytes sb com :
  decode_superblock bytes = Ok sb →
  wf_image (mkImage (slot_page slot) bytes) ∧ validate_page_image_lsn (mkImage (slot_page slot) bytes) com = Ok tt.
Proof.
  intros Hsb. unfold wf_image, validate_page_image, validate_page_image_lsn. simpl.
  assert (is_superblock_page (slot_page slot) = true) as -> by (by destruct slot). rewrite Hsb. split; [split; [|done]|done].
  unfold is_u64. destruct slot; simpl; lia.
Qed.

(** The log record [c] of a prepared transaction with the superblock [bytes]. *)
Definition logged_as (pb : PreparedBatch) (bytes : list byte) (c : WalCommit) : Prop :=
  decode_superblock bytes = Ok (new_superblock pb) ∧ pb_commit_lsn pb = Some (c_commit_lsn c) ∧
  NoDup (img_page_id <$> c_pages c) ∧
  ∀ img, img ∈ c_pages c ↔ changed_pages pb !! img_page_id img = Some (img_bytes img) ∨ img = mkImage (slot_page (new_slot pb)) bytes.

Lemma wal_commit_spec (s0 : BTreeStore F W I) P env env' g' com pb bytes :
  is_Some (st_wal s0) → commits s0 env env' g' com pb → hhw g' ≤ P → P + 1 ≤ U32_MAX → 0 ≤ e_next_lsn env →
  0 ≤ e_batch_id env → decode_superblock bytes = Ok (new_superblock pb) →
  ∃ c, wal_commit_of pb bytes = Ok c ∧ c_batch_id c = e_batch_id env ∧ c_commit_lsn c = com ∧
    com = e_next_lsn env + len (c_pages c) ∧ len (c_pages c) ≤ P + 1 ∧ wf_segment (commit_segment (e_next_lsn env) c) ∧
    logged_as pb bytes c.
Proof.
  intros Hwal Cm HP HU Hl Hb Hsb. pose proof (cm_wal _ _ _ _ _ _ Cm Hwal) as Hcom. pose proof (cm_size _ _ _ _ _ _ Cm).
  destruct (cm_batch _ _ _ _ _ _ Cm) as (Hb1 & Hb2 & Hb3). pose proof (cm_bound _ _ _ _ _ _ Cm).
  set (imgs := (λ e : PageId * list byte, mkImage e.1 e.2) <$> btree_iter (changed_pages pb)).
  assert (len (imgs ++ [mkImage (slot_page (new_slot pb)) bytes]) = Z.of_nat (size (changed_pages pb)) + 1) as Hlen.
  { rewrite len_app, len_cons, len_nil. unfold len, imgs. rewrite length_fmap. unfold btree_iter. rewrite length_ordered_iter. lia. }
  exists (mkCommit (pb_batch_id pb) com (imgs ++ [mkImage (slot_page (new_slot pb)) bytes])). cbn [c_batch_id c_commit_lsn c_pages].
  assert (∀ img, img ∈ imgs ↔ changed_pages pb !! img_page_id img = Some (img_bytes img)) as Hin.
  { intros [i b]. unfold imgs. rewrite list_elem_of_fmap. simpl. split.
    - intros ([i' b'] & [= -> ->] & Hi). by apply elem_of_ordered_iter in Hi.
    - intros Hi. exists (i, b). split; [done|]. by apply elem_of_ordered_iter. }
  assert (Forall (λ img, wf_image img ∧ validate_page_image_lsn img com = Ok tt) (imgs ++ [mkImage (slot_page (new_slot pb)) bytes])) as Hall.
  { apply Forall_app. split; [|constructor; [by eapply superblock_loggable|constructor]]. apply Forall_forall.
    intros [i b] Hi%Hin. simpl in Hi. destruct (changed_decoded pb !! i) as [p|] eqn:E; [|by rewrite (cm_dom _ _ _ _ _ _ Cm i E) in Hi].
    destruct (cm_image _ _ _ _ _ _ Cm i p E) as ([Hr1 Hr2] & Hlsn & image & Him & _ & Hdec). assert (image = b) as -> by congruence.
    eapply image_loggable; [done|done|lia]. }
  split_and!; try done; try lia.
  - unfold wal_commit_of. by rewrite (cm_lsn _ _ _ _ _ _ Cm).
  - unfold wf_segment, sg_commit_lsn. cbn [commit_segment sg_pages sg_batch sg_first sg_done c_pages c_batch_id]. split_and!; try lia.
    + by intros [_ ?]%app_nil.
    + eapply Forall_impl; [exact Hall|]. by intros ? [? _].
    + intros _. replace (e_next_lsn env + _) with com by lia. eapply Forall_impl; [exact Hall|]. by intros ? [_ ?].
  - unfold logged_as. cbn [c_pages c_commit_lsn]. split_and!; [done|apply (cm_lsn _ _ _ _ _ _ Cm)| |intros img; by rewrite elem_of_app, Hin, list_elem_of_singleton].
    rewrite fmap_app, NoDup_app. split_and!.
    + unfold imgs. rewrite <- list_fmap_compose. apply ordered_iter_NoDup.
    + intros x (img & -> & Hx)%list_elem_of_fmap Hy. simpl in Hy. apply list_elem_of_singleton in Hy. apply Hin in Hx.
      destruct (changed_decoded pb !! img_page_id img) as [p|] eqn:E; [|by rewrite (cm_dom _ _ _ _ _ _ Cm _ E) in Hx].
      destruct (cm_image _ _ _ _ _ _ Cm _ p E) as ([Hr1 _] & _). destruct (new_slot pb); simpl in Hy; lia.
    + apply NoDup_singleton.
Qed.

(** ** Publication *)

(** The store has published the state [env], with the metadata of [g]. *)
Record at_env (s : BTreeStore F W I) (env : Env) (g : Heap) : Prop := {
  ae_superblock : st_superblock s = e_superblock env;
  ae_slot : st_active_slot s = e_slot env;
  ae_root : st_root s = hroot g;
  ae_free : st_free_list_head s = hfree g;
  ae_hw : st_high_water s = hhw g;
  ae_next : st_next_revision s = hnext g;
  ae_lsn : st_next_lsn s = e_next_lsn env;
  ae_batch : st_next_batch_id s = e_batch_id env;
  ae_pages id p : e_clean env !! id = Some p → committed_page s id p;
  ae_cache id p : cached (st_cache s) id = Some p → e_clean env !! id = Some p;
  ae_capacity : capacity (st_cache s) = 0 → pages (st_cache s) = ∅
}.

(** What publication does not touch. *)
Definition same_files (s s' : BTreeStore F W I) : Prop :=
  st_file s' = st_file s ∧ st_wal s' = st_wal s ∧ st_config s' = st_config s ∧ st_broken s' = st_broken s ∧
  st_injector s' = st_injector s.

Lemma insert_many_cached l c (m : gmap PageId PageData) k p :
  (capacity c = 0 → pages c = ∅) → (∀ k p, cached c k = Some p → m !! k = Some p ∨ k ∈ l.*1) →
  (∀ k p, (k, p) ∈ l → m !! k = Some p) →
  (cached (PageCache_insert_many l c) k = Some p → m !! k = Some p) ∧
  (capacity (PageCache_insert_many l c) = 0 → pages (PageCache_insert_many l c) = ∅).
Proof.
  revert c. induction l as [|[id q] l IH]; intros c H0' Hc Hl; simpl.
  { split; [|done]. intros Hk. apply Hc in Hk as [?|Hk]; [done|]. by apply not_elem_of_nil in Hk. }
  apply IH.
  - destruct (cache_step_coherent c (CInsert id q) (list_to_map ((map_to_list (ce_page <$> pages c)))) ) as [_ Hz]; [|done|exact Hz].
    intros k' p' Hk'. rewrite list_to_map_to_list, lookup_fmap. exact Hk'.
  - intros k' p' [[-> ->]|[[Hne Hk']|[Hz Hk']]]%cached_insert.
    + left. apply Hl. set_solver.
    + apply Hc in Hk' as [?|Hk']; [by left|right]. set_solver.
    + unfold cached in Hk'. by rewrite (H0' Hz), lookup_empty in Hk'.
  - intros k' p' Hk'. apply Hl. set_solver.
Qed.

Section publish.
Context (s0 : BTreeStore F W I).

Lemma publish_cache_spec (s : BTreeStore F W I) env g env' pb :
  at_env s env g → e_clean env' = changed_decoded pb ∪ e_clean env →
  (∀ id p, pb_read_pages pb !! id = Some p → e_clean env !! id = Some p) →
  let c := PageCache_insert_many (btree_iter (changed_decoded pb))
             (PageCache_insert_many (btree_iter (pb_read_pages pb)) (st_cache s)) in
  (∀ id p, cached c id = Some p → e_clean env' !! id = Some p) ∧ (capacity c = 0 → pages c = ∅).
Proof.
  intros A Hpages Hread c.
  assert (∀ id p, (cached (PageCache_insert_many (btree_iter (pb_read_pages pb)) (st_cache s)) id = Some p → e_clean env !! id = Some p) ∧
    (capacity (PageCache_insert_many (btree_iter (pb_read_pages pb)) (st_cache s)) = 0 →
     pages (PageCache_insert_many (btree_iter (pb_read_pages pb)) (st_cache s)) = ∅)) as Hc1.
  { intros id p. apply insert_many_cached; [apply A| |].
    - intros k q Hk. left. by apply (ae_cache _ _ _ A).
    - intros k q Hk%elem_of_ordered_iter. by apply Hread. }
  assert (∀ id p, (cached c id = Some p → e_clean env' !! id = Some p) ∧ (capacity c = 0 → pages c = ∅)) as Hc2.
  { intros id p. apply insert_many_cached.
    - apply (Hc1 0 (PFree 0 None)).
    - intros k q Hk%Hc1. rewrite Hpages. destruct (changed_decoded pb !! k) as [q'|] eqn:E.
      + right. apply list_elem_of_fmap. exists (k, q'). split; [done|]. by apply elem_of_ordered_iter.
      + left. by rewrite lookup_union_r.
    - intros k q Hk%elem_of_ordered_iter. rewrite Hpages. by apply lookup_union_Some_l. }
  split; [intros id p; apply Hc2|apply (Hc2 0 (PFree 0 None))].
Qed.

Lemma publish_pages_spec (s : BTreeStore F W I) env g env' g' com pb id p (s' : BTreeStore F W I) :
  at_env s env g → commits s0 env env' g' com pb → st_dirty_pages s' = changed_pages pb ∪ st_dirty_pages s →
  st_file s' = st_file s → e_clean env' !! id = Some p → committed_page s' id p.
Proof.
  intros A Cm Hd Hf. rewrite (cm_pages _ _ _ _ _ _ Cm). unfold committed_page. rewrite Hd, Hf.
  destruct (changed_decoded pb !! id) as [q|] eqn:E.
  - rewrite (lookup_union_Some_l _ _ _ _ E). intros [= ->].
    destruct (cm_image _ _ _ _ _ _ Cm id p E) as (_ & _ & image & Him & _ & Hdec). by rewrite (lookup_union_Some_l _ _ _ _ Him).
  - rewrite lookup_union_r by done. intros Hp. rewrite lookup_union_r by (by apply (cm_dom _ _ _ _ _ _ Cm)).
    by apply (ae_pages _ _ _ A) in Hp.
Qed.

Lemma publish_candidate_spec (s : BTreeStore F W I) env g env' g' com pb bytes :
  at_env s env g → commits s0 env env' g' com pb → decode_superblock bytes = Ok (new_superblock pb) →
  ∃ s', publish_candidate (pb, bytes) s = (Ok tt, s') ∧ at_env s' env' g' ∧ same_files s s' ∧
    st_dirty_pages s' = changed_pages pb ∪ st_dirty_pages s ∧ st_dirty_superblock s' = Some bytes.
Proof.
  intros A Cm Hsb. pose proof Cm as [Hpages Himage Hdom Hsome Hsize Hread Hbase Esb Hfields Hcover Hgrow Hgen [Hslot Eslot] [Hn1 [Hn2 Hn3]] Hroot Hfree Hhw Hlsn Hbound Hwal
    (Hb1 & Hb2 & Hb3)].
  unfold publish_candidate. rewrite bind_eq. unfold lift. rewrite Hsb. do 6 (rewrite bind_eq; unfold modify at 1).
  rewrite Hlsn. rewrite !bind_eq. unfold lift, checked_add. rewrite (proj2 (Z.leb_le _ _)) by lia. cbn [ok_or].
  rewrite !bind_eq. unfold modify at 1. rewrite (proj2 (Z.leb_le (pb_batch_id pb + 1) _)) by lia. cbn [ok_or].
  rewrite !bind_eq. unfold modify. eexists. split; [reflexivity|]. cbn [bind].
  destruct (publish_cache_spec s env g env' pb A Hpages Hread) as [Hcache Hcap].
  destruct (st_track_published s) eqn:Et; cbn -[PageCache_insert_many committed_page]; rewrite Et.
  all: split; [|done]; destruct A; split; cbn -[PageCache_insert_many committed_page]; try congruence; try done.
  all: intros id p; by eapply publish_pages_spec.
Qed.

End publish.

(** ** The whole group *)

(** What the publication of [ps] leaves to be written to the data file. *)
Definition dirty_after (pages : gmap PageId (list byte)) (sb : option (list byte)) (ps : list PreparedBatch) (encs : list (list byte))
    (s' : BTreeStore F W I) : Prop :=
  st_dirty_pages s' = foldl (λ d pb, changed_pages pb ∪ d) pages ps ∧
  st_dirty_superblock s' = match last encs with Some bytes => Some bytes | None => sb end.

Section encode.
Context (s0 : BTreeStore F W I) (P : Z).
Hypothesis has_wal : is_Some (st_wal s0).
Hypothesis P_bound : P + 1 ≤ U32_MAX.

Lemma encode_chain env g ps env' g' acc :
  prepared_chain s0 P env g ps env' g' → 0 ≤ e_next_lsn env → 0 ≤ e_batch_id env →
  ∃ encs cs, foldR (encode_candidate true) acc ps = Ok (acc.1 ++ encs, acc.2 ++ cs) ∧
    Forall3 logged_as ps encs cs ∧
    wf_group (e_next_lsn env) (e_batch_id env) cs ∧ length cs = length ps ∧
    group_records cs ≤ Z.of_nat (length ps) * (P + 2) ∧
    group_lsn (e_next_lsn env) cs = e_next_lsn env' ∧ e_batch_id env' = e_batch_id env + Z.of_nat (length ps).
Proof.
  intros Hch. revert acc. induction Hch as [env g|env g env1 g1 com pb ps env2 g2 Cm HP Hch IH]; intros acc Hl Hb.
  { exists [], []. rewrite !app_nil_r. destruct acc. split_and!; try done; try constructor; simpl; lia. }
  destruct (cm_fields _ _ _ _ _ _ Cm) as (Hwf & Esb). destruct (sealed_encodes _ Hwf) as (bytes & He & Hd & _).
  rewrite <- Esb, <- (cm_superblock _ _ _ _ _ _ Cm) in He, Hd.
  destruct (wal_commit_spec s0 P env env1 g1 com pb bytes has_wal Cm HP P_bound Hl Hb Hd) as (c & Ec & Hcb & Hcl & Hcom & Hlen & Hseg & Hlog).
  destruct (cm_batch _ _ _ _ _ _ Cm) as (_ & Hb2 & Hb3). destruct (cm_next _ _ _ _ _ _ Cm) as (_ & _ & Hn).
  pose proof (cm_bound _ _ _ _ _ _ Cm). pose proof (len_nonneg (c_pages c)).
  destruct (IH (acc.1 ++ [bytes], acc.2 ++ [c])) as (encs & cs & E & Hdec & Hg & Hlc & Hrec & Hgl & Hbb); [lia|lia|].
  exists (bytes :: encs), (c :: cs). destruct acc as [a1 a2]. cbn [fst snd] in *. split_and!.
  - cbn [foldR]. unfold encode_candidate at 1. rewrite He. cbn [rbind]. rewrite Ec. cbn [rbind]. rewrite E, <- !app_assoc. done.
  - by constructor.
  - cbn [wf_group]. rewrite Hcl. split_and!; try done; try lia. rewrite <- Hn, <- Hb2. done.
  - simpl. lia.
  - cbn [group_records foldr]. unfold group_records in Hrec. simpl length. lia.
  - cbn [group_lsn]. rewrite Hcl, <- Hn. done.
  - simpl length. lia.
Qed.

Lemma generations_chain env g ps env' g' :
  prepared_chain s0 P env g ps env' g' →
  foldR check_generation (generation (e_superblock env)) ps = Ok (generation (e_superblock env')).
Proof.
  induction 1 as [env g|env g env1 g1 com pb ps env2 g2 Cm HP Hch IH]; [done|]. cbn [foldR]. unfold check_generation at 1.
  destruct (cm_generation _ _ _ _ _ _ Cm) as [-> _]. rewrite Z.eqb_refl, (cm_superblock _ _ _ _ _ _ Cm). exact IH.
Qed.

Lemma chain_changed env g ps env' g' :
  prepared_chain s0 P env g ps env' g' → ps ≠ [] →
  forallb (λ candidate, bool_decide (changed_pages candidate = ∅)) ps = false.
Proof.
  intros [|env0 g0 env1 g1 com pb ps' env2 g2 Cm _ _]; [done|]. intros _. simpl.
  by rewrite bool_decide_false by apply (cm_some _ _ _ _ _ _ Cm).
Qed.

Lemma publish_chain (s : BTreeStore F W I) env g ps encs cs env' g' :
  prepared_chain s0 P env g ps env' g' → Forall3 logged_as ps encs cs → at_env s env g →
  ∃ s', forM (zip ps encs) publish_candidate s = (Ok tt, s') ∧ at_env s' env' g' ∧ same_files s s' ∧
    dirty_after (st_dirty_pages s) (st_dirty_superblock s) ps encs s'.
Proof.
  intros Hch. revert s encs cs. induction Hch as [env g|env g env1 g1 com pb ps env2 g2 Cm HP Hch IH]; intros s encs cs Hf A.
  { exists s. inversion Hf; subst. done. }
  apply Forall3_cons_inv_l in Hf as (bytes & encs' & c & cs' & -> & -> & Hd & Hf).
  destruct (publish_candidate_spec s0 s env g env1 g1 com pb bytes A Cm (proj1 Hd)) as (s1 & E1 & A1 & F1 & D1 & B1).
  destruct (IH s1 encs' cs' Hf A1) as (s2 & E2 & A2 & F2 & D2 & B2). exists s2. split_and!; [|done| |].
  - cbn [zip zip_with forM]. rewrite bind_eq, E1. exact E2.
  - unfold same_files in *. intuition congruence.
  - unfold dirty_after. rewrite D2, B2, D1, B1. split; [done|]. by rewrite last_cons; destruct (last encs').
Qed.

End encode.

(** ** Room in the log *)

(** The longest frame: a page image. *)
Definition FRAME_MAX : Z := PAGE_IMAGE_PAYLOAD_SIZE + 52.

Lemma images_bound frames :
  Forall (λ fr, len (f_payload fr) ≤ PAGE_IMAGE_PAYLOAD_SIZE) frames → len (images frames) ≤ len frames * FRAME_MAX.
Proof.
  induction 1 as [|fr frames Hfr _ IH]; [done|]. rewrite len_images_cons, len_cons. unfold frame_length, FRAME_MAX in *. lia.
Qed.

Lemma group_frames v lsn batch cs :
  wf_group lsn batch cs →
  Forall (λ fr, len (f_payload fr) ≤ PAGE_IMAGE_PAYLOAD_SIZE) (segments_frames v (group_segments lsn cs)) ∧
  len (segments_frames v (group_segments lsn cs)) = group_records cs.
Proof.
  revert lsn batch. induction cs as [|c cs IH]; intros lsn batch; [done|]. intros (_ & _ & _ & _ & Hseg & Hg).
  destruct (IH _ _ Hg) as [IH1 IH2]. unfold segments_frames in *. cbn [group_segments group_records foldr].
  rewrite fmap_cons. cbn [concat]. rewrite len_app, IH2. split.
  - apply Forall_app. split; [|done]. unfold sg_frames, page_frames. apply Forall_app. split.
    + apply Forall_forall. intros fr (i & page & -> & Hi)%elem_of_lookup_imap. simpl. destruct Hseg as (_ & Hwf & _).
      rewrite len_page_payload; [lia|]. by eapply Forall_lookup_1.
    + cbn [commit_segment sg_done]. constructor; [|constructor]. simpl. rewrite len_commit_payload. lia.
  - unfold sg_frames, page_frames, group_records. rewrite len_app. unfold len at 1. rewrite length_imap. simpl. len_simpl. unfold len. lia.
Qed.

(** The log has room for [n] more records. *)
Definition wal_room (w : WalLog W) (times : PublishTimes) (n : Z) : Prop :=
  len (contents (w_file w)) + n * FRAME_MAX ≤ U64_MAX ∧
  0 ≤ t_append times ∧ 0 ≤ w_append_nanos w ∧ w_append_nanos w + t_append times ≤ U64_MAX ∧
  0 ≤ t_sync times ∧ 0 ≤ w_sync_nanos w ∧ w_sync_nanos w + t_sync times ≤ U64_MAX ∧
  0 ≤ w_sync_count w < U64_MAX ∧
  0 ≤ records_scanned (w_scan_report w) ∧ records_scanned (w_scan_report w) + n ≤ U64_MAX ∧
  0 ≤ committed_batches (w_scan_report w) ∧ committed_batches (w_scan_report w) + n ≤ U64_MAX ∧
  0 ≤ replayable_pages (w_scan_report w) ∧ replayable_pages (w_scan_report w) + n ≤ U64_MAX ∧
  0 ≤ w_page_images w ∧ w_page_images w + n ≤ U64_MAX.

Lemma room_appendable (w : WalLog W) times n v id start segs cs :
  wal_ready w v id start segs → wal_room w times n → cs ≠ [] → wf_group (w_next_lsn w) (w_next_batch_id w) cs →
  group_records cs ≤ n → appendable w (t_append times) (t_sync times) cs.
Proof.
  intros Hw Hroom Hne Hg Hn. destruct (group_frames (w_format_version w) _ _ _ Hg) as [Hf Hl].
  apply images_bound in Hf. rewrite Hl in Hf. assert (0 ≤ FRAME_MAX) by (by vm_compute).
  unfold wal_room in Hroom. unfold appendable, counters_ok, report_counters_ok, group_bytes. split_and!; try done; try lia. nia.
Qed.

(** ** Stores in service *)

(** A store with a log, in order and durable, that represents [db]; its files
    are reliable and no fault is injected. *)
Record serving (s : BTreeStore F W I) (base : gmap PageId PageData) (D : nat) (db : ReferenceDb) : Prop := {
  sv_represents : represents s base D db;
  sv_wal : ∃ w v id start segs, st_wal s = Some w ∧ wal_ready w v id start segs ∧
    w_next_lsn w = st_next_lsn s ∧ w_next_batch_id w = st_next_batch_id s ∧ reliable (w_file w) ∧
    durable (w_file w) = contents (w_file w);
  sv_file : reliable (st_file s);
  sv_injector : st_injector s = None
}.

(** What reading leaves is in service, too. *)
Lemma serving_reads (s : BTreeStore F W I) base D db s' :
  serving s base D db → reads_base s (env_of s base) s' → serving s' base D db.
Proof.
  intros [[R Hc Hcap Hcfg Hbr] (w & v & id & start & segs & Hw) Hf Hi] [B1 B2 B3 B4 B5 B6].
  assert (∀ id p, committed_page s id p → committed_page s' id p) as Hpages.
  { intros i p. unfold committed_page. rewrite B2. assert (st_dirty_pages s' = st_dirty_pages s) as -> by (by rewrite B1). done. }
  assert (env_of s' base = env_of s base ∧ heap_of s' base = heap_of s base) as [Ee Eh] by (split; by rewrite B1).
  split; [split|..].
  - rewrite Ee, Eh. destruct R as [R Hb]. split; [exact R|]. simpl in *. auto.
  - done.
  - auto.
  - by rewrite B1.
  - by rewrite B1.
  - exists w, v, id, start, segs. by rewrite B1.
  - auto.
  - by rewrite B1.
Qed.

Lemma serving_at_env (s : BTreeStore F W I) base D db : serving s base D db → at_env s (env_of s base) (heap_of s base).
Proof.
  intros [[R Hc Hcap Hcfg Hbr] _ _ _]. split; try done. apply (rd_base _ _ _ _ _ R).
Qed.

(** The log takes the group: the store still represents the old state, and the
    log is in order and behind the new one. *)
Lemma append_spec (s : BTreeStore F W I) times cs (w : WalLog W) v id start segs n :
  st_wal s = Some w → wal_ready w v id start segs → wal_room w times n → cs ≠ [] →
  wf_group (w_next_lsn w) (w_next_batch_id w) cs → group_records cs ≤ n → reliable (w_file w) → st_injector s = None →
  ∃ w', append_to_wal (t_append times) (t_sync times) w cs s = (Ok tt, set_st_injector None (set_st_wal (Some w') s)) ∧
    wal_ready w' v id start (segs ++ group_segments (w_next_lsn w) cs) ∧ reliable (w_file w') ∧
    w_next_lsn w' = group_lsn (w_next_lsn w) cs ∧ w_next_batch_id w' = w_next_batch_id w + len cs ∧
    durable (w_file w') = contents (w_file w') ∧ contents (w_file w') = contents (w_file w) ++ group_bytes w cs ∧
    len (contents (w_file w')) ≤ U64_MAX.
Proof.
  intros Hw Hr Hroom Hne Hg Hn Hrel Hi. pose proof (room_appendable w times n v id start segs cs Hr Hroom Hne Hg Hn) as Happ.
  pose proof (append_group_spec v id start segs (t_append times) (t_sync times) cs (w, st_injector s) Hr Happ) as (_ & Hok & Hlive).
  destruct (Hlive Hrel Hi) as (His & Hrel' & Hinj).
  unfold append_to_wal. destruct (append_group (t_append times) (t_sync times) cs (w, st_injector s)) as [r [w' i']].
  destruct r as [reports|e| |]; try done. destruct (Hok reports eq_refl) as (_ & Hc & Hd & Hr' & Hl & Hb).
  simpl in *. subst i'. exists w'. split_and!; try done. destruct Happ as (_ & _ & Hu & _). by rewrite Hc, len_app.
Qed.

(** What publication leaves is in service, in the new state. *)
Lemma published_serving (s0 s : BTreeStore F W I) env g D db w v id start segs :
  at_env s env g → ready s0 env g D db →
  0 ≤ inline_value_limit (limits (st_config s)) → st_broken s = None →
  st_wal s = Some w → wal_ready w v id start segs → w_next_lsn w = e_next_lsn env → w_next_batch_id w = e_batch_id env →
  reliable (w_file w) → durable (w_file w) = contents (w_file w) → reliable (st_file s) → st_injector s = None →
  serving s (e_clean env) D db.
Proof.
  intros A R Hcfg Hbr Hw Hwr Hwl Hwb Hrw Hdw Hrf Hi. pose proof A as [A1 A2 A3 A4 A5 A6 A7 A8 A9 A10 A11].
  assert (heap_of s (e_clean env) = g) as Eg.
  { pose proof (rd_dirty _ _ _ _ R) as Hd. pose proof (rd_last _ _ _ _ R) as Hl. destruct g. unfold heap_of. simpl in *. f_equal; try congruence.
    symmetry. exact (rd_pages _ _ _ _ R). }
  split; [split|..]; try done.
  - rewrite Eg. destruct R as [[R0 R1 R2 R3 R4 R5 R6 R7 R8 R9 R10 R11] _]. split; [split|]; simpl; try done; rewrite ?A7, ?A1, ?A8; done.
  - exists w, v, id, start, segs. split_and!; congruence || done.
Qed.

(** A group was published: its records are in the log, its pages are to be
    written. *)
Record published (s s' : BTreeStore F W I) (ps : list PreparedBatch) : Prop := {
  pu_file : st_file s' = st_file s;
  pu_config : st_config s' = st_config s;
  pu_log : ∃ w w' v id start segs encs cs, st_wal s = Some w ∧ st_wal s' = Some w' ∧ wal_ready w v id start segs ∧
    Forall3 logged_as ps encs cs ∧ dirty_after (st_dirty_pages s) (st_dirty_superblock s) ps encs s' ∧
    wf_group (w_next_lsn w) (w_next_batch_id w) cs ∧
    wal_ready w' v id start (segs ++ group_segments (w_next_lsn w) cs) ∧
    contents (w_file w') = contents (w_file w) ++ group_bytes w cs ∧ len (contents (w_file w')) ≤ U64_MAX
}.

Lemma publish_group_spec (s0 s : BTreeStore F W I) P env g ps env' g' D db times w v id start segs :
  prepared_chain s0 P env g ps env' g' → ps ≠ [] → P + 1 ≤ U32_MAX → is_Some (st_wal s0) → 0 ≤ e_next_lsn env → 0 ≤ e_batch_id env →
  at_env s env g → ready s0 env' g' D db →
  0 ≤ inline_value_limit (limits (st_config s)) → st_broken s = None →
  st_wal s = Some w → wal_ready w v id start segs → w_next_lsn w = e_next_lsn env → w_next_batch_id w = e_batch_id env →
  wal_room w times (Z.of_nat (length ps) * (P + 2)) → reliable (w_file w) → reliable (st_file s) → st_injector s = None →
  ∃ s', publish_prepared_group times ps s = (Ok tt, s') ∧ serving s' (e_clean env') D db ∧ published s s' ps ∧ at_env s' env' g'.
Proof.
  intros Hch Hne HP Hw0 Hl0 Hb0 A R Hcfg Hbr Hw Hwr Hwl Hwb Hroom Hrw Hrf Hi.
  destruct (encode_chain s0 P Hw0 HP env g ps env' g' ([], []) Hch Hl0 Hb0) as (encs & cs & Eenc & Hdec & Hg & Hlc & Hrec & Hgl & Hbb).
  rewrite <- Hwl, <- Hwb in Hg. assert (cs ≠ []) as Hcs by (by destruct cs, ps).
  destruct (append_spec s times cs w v id start segs _ Hw Hwr Hroom Hcs Hg Hrec Hrw Hi) as (w' & Ea & Hwr' & Hrw' & Hl' & Hb' & Hd' & Hc' & Hu').
  set (s1 := set_st_injector None (set_st_wal (Some w') s)) in *.
  assert (at_env s1 env g) as A1 by (by destruct A; split).
  destruct (publish_chain s0 P s1 env g ps encs cs env' g' Hch Hdec A1) as (s2 & E2 & A2 & (F1 & F2 & F3 & F4 & F5) & Hdirty).
  unfold publish_prepared_group. rewrite bind_eq. unfold not_broken. rewrite bind_eq. unfold gets at 1. rewrite Hbr.
  cbn [ret]. rewrite bind_eq. unfold gets at 1. rewrite (ae_superblock _ _ _ A). rewrite bind_eq. unfold lift at 1.
  rewrite (generations_chain s0 P env g ps env' g' Hch). rewrite (chain_changed s0 P env g ps env' g' Hch Hne).
  rewrite bind_eq. unfold gets at 1. rewrite Hw. rewrite bind_eq. unfold lift at 1. rewrite Eenc. cbn [fst snd app].
  rewrite bind_eq. unfold or_broken at 1. rewrite Ea. rewrite bind_eq. unfold or_broken, hit_fault at 1.
  change (st_injector s1) with (@None I). cbn match. rewrite bind_eq, E2. rewrite bind_eq. unfold add_publication_time, modify. cbn match.
  set (s3 := set_st_metrics _ s2). exists s3. split; [unfold hit_fault; change (st_injector s3) with (st_injector s2); by rewrite F5|].
  assert (st_wal s3 = Some w') as Hw3 by (exact F2). assert (at_env s3 env' g') as A3 by (by destruct A2; split). split_and!; [| |done].
  - apply (published_serving s0 s3 env' g' D db w' v id start (segs ++ group_segments (w_next_lsn w) cs)); try done.
    + change (st_config s3) with (st_config s2). by rewrite F3.
    + change (st_broken s3) with (st_broken s2). by rewrite F4.
    + by rewrite Hl', Hwl.
    + rewrite Hb', Hwb, Hbb. unfold len. lia.
    + change (st_file s3) with (st_file s2). by rewrite F1.
  - split; [exact F1|exact F3|]. exists w, w', v, id, start, segs, encs, cs. split_and!; done.
Qed.

(** ** Transaction groups *)

(** The new pages of a group, whose tree has depth [D]. *)
Definition group_pages (s : BTreeStore F W I) (D : nat) (requests : list TimedRequest) : Z :=
  st_high_water s + Z.of_nat (mutation_count requests) * (Z.of_nat (D + mutation_count requests) + WRITE_PAGES).

(** Nothing is exhausted by the group: page ids, LSNs, batch ids, superblock
    generations, the log's length and its counters. *)
Definition group_room (s : BTreeStore F W I) (D : nat) (times : PublishTimes) (requests : list TimedRequest) : Prop :=
  let n := Z.of_nat (length requests) in
  group_pages s D requests + 1 ≤ U32_MAX ∧
  st_next_lsn s + n * (group_pages s D requests + 2) < U64_MAX ∧
  st_next_batch_id s + n ≤ U64_MAX ∧ generation (st_superblock s) + n ≤ U64_MAX ∧
  match st_wal s with Some w => wal_room w times (n * (group_pages s D requests + 2)) | None => False end.

Lemma wal_room_mono (w : WalLog W) times n n' : wal_room w times n → n' ≤ n → wal_room w times n'.
Proof. assert (0 ≤ FRAME_MAX) by (by vm_compute). unfold wal_room. intros. split_and!; try tauto; try lia; nia. Qed.

Lemma group_pages_pos (s : BTreeStore F W I) base D db requests : ready s (env_of s base) (heap_of s base) D db → 0 ≤ group_pages s D requests.
Proof.
  intros Hh%ready_hhw. simpl in Hh. unfold group_pages. assert (0 ≤ WRITE_PAGES) by (by vm_compute).
  apply Z.add_nonneg_nonneg; [done|]. apply Z.mul_nonneg_nonneg; lia.
Qed.

Lemma chain_base (s0 : BTreeStore F W I) P env g ps env' g' : prepared_chain s0 P env g ps env' g' → e_base env' = e_base env.
Proof. induction 1 as [|env g env1 g1 com pb ps env2 g2 Cm HP Hch IH]; [done|]. by rewrite IH, (cm_base _ _ _ _ _ _ Cm). Qed.

Lemma reads_base_env (s : BTreeStore F W I) env env' s' : e_base env' = e_base env → reads_base (F:=F) (W:=W) (I:=I) s env' s' → reads_base s env s'.
Proof. intros E []. split; try done. intros id p. rewrite <- E. auto. Qed.

Lemma env_of_reads (s : BTreeStore F W I) env base s' : reads_base s env s' → env_of s' base = env_of s base ∧ heap_of s' base = heap_of s base.
Proof. intros [B1 _ _ _ _ _]. split; by rewrite B1. Qed.

(** How [apply_transaction_group] got from [s] to [s']: it read pages, prepared
    the transactions [ps] and published them. *)
Definition group_run (s : BTreeStore F W I) base db requests results (s' : BTreeStore F W I) base' : Prop :=
  ∃ P ps env' g' s1, P + 1 ≤ U32_MAX ∧ prefixes s P (env_of s base) (heap_of s base) db requests results ps ∧
    reads_base s (env_of s base) s1 ∧ prepared_chain s P (env_of s base) (heap_of s base) ps env' g' ∧ base' = e_clean env' ∧ at_env s' env' g' ∧
    ((ps = [] ∧ s' = s1) ∨ (ps ≠ [] ∧ published s1 s' ps)).

Lemma transaction_group_spec (s : BTreeStore F W I) base D db times requests :
  serving s base D db → Forall (λ t, small_request s (timed_request t)) requests → group_room s D times requests →
  ∃ results s' base' D' db', apply_transaction_group times requests s = (Ok results, s') ∧
    serial db (timed_request <$> requests) results db' ∧ serving s' base' D' db' ∧
    (D' ≤ D + mutation_count requests)%nat ∧ group_run s base db (timed_request <$> requests) results s' base'.
Proof.
  intros Sv Hsm (H1' & H2' & H3' & H4' & H5').
  destruct (st_wal s) as [w|] eqn:Hw; [|done]. set (P := group_pages s D requests) in *.
  pose proof Sv as [[R Hc Hcap Hcfg Hbr] (w' & v & id & start & segs & Hw' & Hwr & Hwl & Hwb & Hrw & Hdw) Hf Hi].
  rewrite Hw in Hw'. injection Hw' as <-.
  assert (room (D + mutation_count requests) P (env_of s base) (heap_of s base) D (length requests) (mutation_count requests)) as Rm.
  { assert (U32_MAX ≤ MANY_PAGES) by (by vm_compute). split; simpl; try done. unfold P, group_pages in *. lia. }
  destruct (group_refines s (D + mutation_count requests) P Hcfg Hf requests (env_of s base) (heap_of s base) D db (Overlay_new s) [] [] R Rm Hsm)
    as (ps & rs & env' & g' & D' & db' & o' & E & Ho' & R' & Hch & Hser & Hpre & Hlen & HD); [by eapply overlay_rep|].
  assert (reads_base s (env_of s base) (ov_store o')) as B
    by (eapply reads_base_env; [by eapply chain_base|apply (rep_store _ _ _ _ Ho')]).
  unfold apply_transaction_group. destruct (is_empty requests) eqn:Ee.
  { destruct requests as [|]; [|done]. exists [], s, base, D, db. split_and!; [done|constructor|done|lia|]. exists P, [], (env_of s base), (heap_of s base), s.
    split_and!; try done; [|apply (rep_store _ _ _ _ (overlay_rep s base D db (sv_represents _ _ _ _ Sv)))|constructor|by eapply serving_at_env|by left]. intros n. rewrite take_nil. exists 0%nat, (env_of s base), (heap_of s base), D, db.
    split_and!; [constructor|done|constructor]. }
  rewrite bind_eq. unfold with_overlay. rewrite E. cbn [app].
  destruct ps as [|pb ps0]; cbn [is_empty].
  { inversion Hch; subst. exists rs, (ov_store o'), base, D', db'. split_and!; [done|done| |done|].
    - eapply serving_reads; [|exact B]. split; [by split| |done|done]. by exists w, v, id, start, segs.
    - pose proof (serving_at_env _ _ _ _ (serving_reads _ _ _ _ _ Sv B)) as A. destruct (env_of_reads s _ base _ B) as [Een Eg]. rewrite Een, Eg in A.
      exists P, [], (env_of s base), (heap_of s base), (ov_store o'). split_and!; try done. by left. }
  assert (serving (ov_store o') base D db) as Sv' by (by eapply serving_reads).
  destruct (env_of_reads s _ base _ B) as [Een Eg]. pose proof (serving_at_env _ _ _ _ Sv') as A. rewrite Een, Eg in A.
  pose proof (rd_pos _ _ _ _ R) as [Hp1 Hp2]. pose proof (rd_batch _ _ _ _ R) as Hb0. simpl in Hp1, Hp2, Hb0.
  destruct (publish_group_spec s (ov_store o') P (env_of s base) (heap_of s base) (pb :: ps0) env' g' D' db' times w v id start segs)
    as (s' & Es & Sv2 & Hpu & A'); try done.
  - simpl. lia.
  - by rewrite (rb_same _ _ _ B).
  - by rewrite (rb_same _ _ _ B).
  - by rewrite (rb_same _ _ _ B).
  - eapply wal_room_mono; [exact H5'|]. apply Z.mul_le_mono_nonneg_r; [|lia].
    pose proof (group_pages_pos s base D db requests R). unfold P. lia.
  - by apply (sv_file _ _ _ _ Sv').
  - by rewrite (rb_same _ _ _ B).
  - exists rs, s', (e_clean env'), D', db'. split_and!; [by rewrite bind_eq, Es|done|done|done|].
    exists P, (pb :: ps0), env', g', (ov_store o'). split_and!; try done. by right.
Qed.


End group.
