(* ===== verification/Serve.v ===== *)
(** * Serve: the reads of a store in service

    Reads through the store (btree/mod.rs: [transact_get], [observe], and the
    batches of gets, queries and scans) answer as the reference database does,
    and leave the store in service. *)

From stdpp Require Import list_numbers.
From S2P Require Import Prelude Core Crc Page Superblock DurableFile Wal WalCodec WalScan WalLog WalOpen WalSafety Format FormatCodec Cache Reference StoreState Store Checker Engine Heap Tree Own Split TreeOps Point ReadOps Restamp Finish Txn Group.

(** ** Range reads of the reference database *)

Definition document_of (d : RefDocument) : Document := mkDocument (rd_key d) (rd_value d) (rd_revision d).

Lemma present_live e : document_of <$> present_document (doc_of e, ge_state e) = live e.
Proof. unfold present_document, live. simpl. by destruct (ge_state e). Qed.

Lemma omap_rows {A B C D} (f : A → option B) (g : B → C) (h : D → option C) (k : D → A) (l : list D) :
  (∀ x, x ∈ l → g <$> f (k x) = h x) → g <$> omap f (k <$> l) = omap h l.
Proof.
  induction l as [|x l IH]; intros Hl; [done|]. rewrite fmap_cons.
  change (omap f (k x :: (k <$> l))) with (match f (k x) with Some y => y :: omap f (k <$> l) | None => omap f (k <$> l) end).
  change (omap h (x :: l)) with (match h x with Some y => y :: omap h l | None => omap h l end).
  rewrite <- (Hl x ltac:(set_solver)), <- IH by set_solver. by destruct (f (k x)).
Qed.

Lemma omap_actions {A} (a : A → action) (l : list A) : omap row (a <$> l) = omap (λ x, row (a x)) l.
Proof.
  rewrite <- (omap_rows row (λ x : Document, x) (λ x, row (a x)) a l); [by rewrite list_fmap_id|].
  intros x _. by destruct (row (a x)).
Qed.

Section rows.
Context (t : tree) (db : ReferenceDb).
Hypothesis Ho : ordered None None t.
Hypothesis Hf : fits t.
Hypothesis Hdb : states_of (entries t) = states db.

Lemma listing_states : ordered_iter key_le (states db) = listing (entries t).
Proof.
  rewrite <- Hdb. apply ordered_iter_states; [by apply fits_canonical|]. by apply ordered_entries in Ho as [? _].
Qed.

Lemma scan_rows cursor limit :
  document_of <$> ReferenceDb_scan db cursor limit =
  take (Z.to_nat limit) (omap row (scan_action (DocumentKey_encode <$> cursor) <$> entries t)).
Proof.
  unfold ReferenceDb_scan. rewrite fmap_take, listing_states. f_equal. unfold listing.
  rewrite (omap_rows _ document_of (λ e, row (scan_action (DocumentKey_encode <$> cursor) e))); [by rewrite omap_actions|].
  intros e He. pose proof (fits_canonical t Hf) as Hc. unfold canonical in Hc. rewrite Forall_forall in Hc. specialize (Hc e He).
  unfold scan_action, read_live. rewrite <- present_live. simpl.
  destruct cursor as [cursor|]; simpl; [|by destruct (present_document _)].
  assert (bool_decide (key_le (doc_of e) cursor) = bytes_le (ge_key e) (DocumentKey_encode cursor)) as ->.
  { rewrite Hc. apply eq_true_iff_eq. rewrite bool_decide_eq_true. apply key_le_bytes. }
  destruct (bytes_le _ _); [done|]. by destruct (present_document _).
Qed.

Lemma query_rows p after limit :
  document_of <$> ReferenceDb_query db p after limit =
  take (Z.to_nat limit) (omap row (query_action p after <$> entries t)).
Proof.
  unfold ReferenceDb_query. rewrite fmap_take, listing_states. f_equal. unfold listing.
  rewrite (omap_rows _ document_of (λ e, row (query_action p after e))); [by rewrite omap_actions|].
  intros e He. unfold query_action, read_live. rewrite <- present_live. simpl.
  destruct (negb (bytes_eqb (pk (doc_of e)) p)); [by destruct (bytes_lt _ _)|]. simpl.
  destruct (match after with Some _ => _ | None => _ end); [done|]. by destruct (present_document _).
Qed.

End rows.

(** ** Answers *)

Definition read_request (r : BatchRequest) : Prop :=
  match r with BGet _ => True | BQuery _ _ limit | BScan _ limit => 0 ≤ limit | BPut _ _ | BDelete _ => False end.

(** The reference database gives the same answer. *)
Definition answers (db : ReferenceDb) (request : BatchRequest) (response : BatchResponse) : Prop :=
  match request, response with
  | BGet key, RGet state => state = ReferenceDb_get db key
  | BQuery p after limit, RQuery rows => rows = document_of <$> ReferenceDb_query db p after limit
  | BScan cursor limit, RScan rows => rows = document_of <$> ReferenceDb_scan db cursor limit
  | _, _ => False
  end.

(** The errors of a read: the response is too large, or a key too long. *)
Definition read_error (e : Error) : Prop := (∃ m, e = ResponseTooLarge m) ∨ (∃ m, e = InvalidInput m).

Definition read_result {A} (Q : A → Prop) (r : Result Error A) : Prop :=
  match r with Ok a => Q a | Err e => read_error e | _ => False end.

Lemma validate_key_result key : read_result (λ _, True) (validate_encoded_key key).
Proof. unfold validate_encoded_key. destruct (negb _); [done|]. right. eauto. Qed.

Section serve.
Context `{Crc32c} {F W I : Type} `{DFL : DurableFileLaws F}.
Context (s0 : BTreeStore F W I) (env : Env).
Hypothesis base_committed : ∀ id p, e_base env !! id = Some p → committed_page s0 id p.
Hypothesis file_reliable : reliable (st_file s0).

Abbreviation OvB := (ST (Overlay F W I * ResponseBudget) Error).

Definition reads_as {A} (g : Heap) (m : OvB A) (Q : A → Prop) : Prop :=
  ∀ o b, rep s0 env o g → ∃ r o' b', m (o, b) = (r, (o', b')) ∧ rep s0 env o' g ∧ read_result Q r.

Lemma reads_as_reads {A} g (m : OvB A) n (Q : A → Prop) :
  budgeted s0 env g m n → (∀ b, read_result Q (n b).1) → reads_as g m Q.
Proof.
  intros Hr Hn o b Ho. destruct (Hr o b Ho) as [(o' & E & Ho')|(e & _ & Hno & _)]; [|done]. eexists _, o', _. eauto.
Qed.

Lemma reads_as_bind {A B} g (m : OvB A) (k : A → OvB B) (P : A → Prop) (Q : B → Prop) :
  reads_as g m P → (∀ a, P a → reads_as g (k a) Q) → reads_as g (bind m k) Q.
Proof.
  intros Hm Hk o b Ho. destruct (Hm o b Ho) as (r & o1 & b1 & E & Ho1 & Hr). rewrite bind_eq, E.
  destruct r as [a|e| |]; [by apply Hk|by eexists _, o1, b1|done..].
Qed.

Lemma reads_as_ret {A} g (a : A) (Q : A → Prop) : Q a → reads_as g (ret a) Q.
Proof. intros HQ o b Ho. by eexists _, o, b. Qed.

Lemma reads_as_mapM {A B} g (f : A → OvB B) l (Q : A → B → Prop) :
  Forall (λ a, reads_as g (f a) (Q a)) l → reads_as g (mapM f l) (Forall2 Q l).
Proof.
  induction 1 as [|a l Ha _ IH]; [by apply reads_as_ret|]. eapply reads_as_bind; [exact Ha|]. intros b Hb.
  eapply reads_as_bind; [exact IH|]. intros bs Hbs. apply reads_as_ret. by constructor.
Qed.

Section tree.
Context (g : Heap) (t : tree) (fl : list (PageId * Lsn)) (db : ReferenceDb).
Hypothesis DB : db_at g t fl.
Hypothesis Hdb : states_of (entries t) = states db.

Lemma state_at_get key : state_at (content (entries t)) key = ReferenceDb_get db key.
Proof.
  unfold state_at, ReferenceDb_get. rewrite <- Hdb, states_of_lookup; [done|]. eapply fits_canonical, db_fits, DB.
Qed.

Lemma state_len_bound key : 0 ≤ state_len (state_at (content (entries t)) key) ≤ MAX_VALUE_SIZE.
Proof.
  unfold state_at. destruct (content (entries t) !! DocumentKey_encode key) as [s|] eqn:E; [|simpl; lia].
  apply elem_of_list_to_map_2, list_elem_of_fmap in E as (e & [= _ ->] & He). simpl.
  pose proof (proj1 fits_vals_mut _ (db_fits _ _ _ DB)) as Hv. rewrite Forall_forall in Hv. specialize (Hv e He).
  unfold ge_state. destruct (ge_val e) as [|bytes|links]; simpl in *.
  - lia.
  - pose proof (len_nonneg bytes). lia.
  - pose proof (len_nonneg (chain_bytes links)). lia.
Qed.

Lemma reserve_state_result n b : 0 ≤ n ≤ MAX_VALUE_SIZE → read_result (λ _, True) (reserve_state n b).1.
Proof.
  intros Hn. unfold reserve_state. rewrite bind_eq. unfold lift, plain_add.
  rewrite (proj2 (Z.leb_le _ _)) by lia. rewrite bind_eq, (proj2 (Z.leb_le _ _)) by lia. unfold reserve.
  destruct (checked_add _ _); [|left; eauto]. destruct (checked_add _ _); [|left; eauto]. destruct (_ || _); [left; eauto|done].
Qed.

Lemma get_answers key : reads_as g (get_state_with_budget key) (λ s, s = ReferenceDb_get db key).
Proof.
  eapply reads_as_reads; [by eapply get_reads|]. intros b. rewrite bind_eq. unfold lift.
  pose proof (validate_key_result (DocumentKey_encode key)) as Hv. destruct (validate_encoded_key _) as [[]|e| |]; try done.
  rewrite bind_eq. pose proof (reserve_state_result _ b (state_len_bound key)) as Hr.
  destruct (reserve_state _ b) as [[[]|e| |] b']; try done. simpl. apply state_at_get.
Qed.

Lemma gather_result limit acts b :
  stops acts → 0 < limit →
  read_result (λ rows, rows = take (Z.to_nat limit) (omap row acts))
    ((let* '(_, rows) := gather limit acts [] in ret rows) b).1.
Proof.
  intros Hs Hl. rewrite bind_eq. destruct (gather_out limit acts [] b Hs) as [[stop Hg]|[e Hg]]; [done| |];
    destruct (gather limit acts [] b) as [r b']; simpl in Hg; subst r; simpl; [|left; eauto].
  change (len (A:=Document) []) with 0. by rewrite Z.sub_0_r.
Qed.

Lemma scan_answers cursor limit :
  0 ≤ limit → reads_as g (scan_with_budget cursor limit) (λ rows, rows = document_of <$> ReferenceDb_scan db cursor limit).
Proof.
  intros Hl. eapply reads_as_reads; [by eapply scan_reads|]. intros b.
  rewrite (scan_rows t db (db_ordered _ _ _ DB) (db_fits _ _ _ DB) Hdb). unfold scan_spec.
  destruct (Z.eqb_spec limit 0) as [->|]; [done|]. rewrite bind_eq. unfold lift.
  assert (read_result (λ _ : unit, True) (match cursor with Some key => validate_encoded_key (DocumentKey_encode key) | None => Ok tt end)) as Hv.
  { destruct cursor; [apply validate_key_result|done]. }
  destruct (match cursor with Some _ => _ | None => _ end) as [[]|e| |]; try done. apply gather_result; [apply scan_stops|lia].
Qed.

Lemma query_answers p after limit :
  0 ≤ limit → reads_as g (query_with_budget p after limit) (λ rows, rows = document_of <$> ReferenceDb_query db p after limit).
Proof.
  intros Hl. eapply reads_as_reads; [by eapply query_reads|]. intros b.
  rewrite (query_rows t db (db_ordered _ _ _ DB) (db_fits _ _ _ DB) Hdb). unfold query_spec.
  destruct (Z.eqb_spec limit 0) as [->|]; [done|]. rewrite bind_eq. unfold lift at 1.
  pose proof (validate_key_result (DocumentKey_encode (mkKey p []))) as Hv. destruct (validate_encoded_key _) as [[]|e| |]; try done.
  rewrite bind_eq. unfold lift. clear Hv.
  assert (read_result (λ _ : unit, True) (match after with Some s => validate_encoded_key (DocumentKey_encode (mkKey p s)) | None => Ok tt end)) as Hv.
  { destruct after; [apply validate_key_result|done]. }
  destruct (match after with Some _ => _ | None => _ end) as [[]|e| |]; try done. apply gather_result; [|lia].
  apply query_stops; [eapply fits_canonical, db_fits, DB|]. by pose proof (db_ordered _ _ _ DB) as [? _]%ordered_entries.
Qed.

Lemma execute_answers r : read_request r → reads_as g (execute_with_budget r) (answers db r).
Proof.
  destruct r as [key|key value|key|p after limit|cursor limit]; simpl; intros Hr; try done.
  - eapply reads_as_bind; [apply get_answers|]. intros s Hs. by apply reads_as_ret.
  - eapply reads_as_bind; [by apply query_answers|]. intros s Hs. by apply reads_as_ret.
  - eapply reads_as_bind; [by apply scan_answers|]. intros s Hs. by apply reads_as_ret.
Qed.

End tree.
End serve.

(** ** Reads of the store *)

Section store.
Context `{Crc32c} {F W I : Type} `{DFL : DurableFileLaws F} `{WFL : DurableFileLaws W} `{FaultInjector I}.

Lemma with_budget_reads (s0 : BTreeStore F W I) env g {A} maximum (m : ST (Overlay F W I * ResponseBudget) Error A) (Q : A → Prop) o :
  reads_as s0 env g m Q → rep s0 env o g →
  ∃ r o', with_budget maximum m o = (r, o') ∧ rep s0 env o' g ∧ read_result Q r.
Proof.
  intros Hm Ho. unfold with_budget. rewrite bind_eq. unfold lift, ResponseBudget_new.
  destruct (negb _); [|by eexists _, o; split_and!; [done|done|left; eauto]].
  set (b := mkBudget _ _ _ _). destruct (Hm o b Ho) as (r & o' & b' & E & Ho' & Hr). cbn beta. rewrite E. by exists r, o'.
Qed.

(** Without writes there is nothing to prepare. *)
Lemma finish_nothing (s0 : BTreeStore F W I) env g out o :
  rep s0 env o g → hlast g = None → hdirty g = ∅ →
  ∃ pb, finish out o = (Ok pb, o) ∧ responses pb = out ∧ changed_pages pb = ∅ ∧
    base_generation pb = generation (st_superblock (ov_store o)).
Proof.
  intros Ho Hl Hd. unfold finish. rewrite bind_eq. unfold get. rewrite (rep_last _ _ _ _ Ho), Hl.
  do 3 (rewrite bind_eq; unfold lift, ret). rewrite bind_eq. unfold collect_changed. rewrite bind_eq. unfold gets.
  rewrite (rep_dirty _ _ _ _ Ho), Hd. eexists. split; [reflexivity|]. done.
Qed.

(** A read-only batch is answered from the tree. *)
Lemma read_batch_spec (s : BTreeStore F W I) base D db times requests maximum :
  serving s base D db → Forall read_request requests →
  ∃ r s', apply_batch_with_response_budget times requests maximum s = (r, s') ∧ serving s' base D db ∧
    reads_base s (env_of s base) s' ∧ read_result (Forall2 (answers db) requests) r.
Proof.
  intros Sv Hreq. pose proof Sv as [[R Hc Hcap Hcfg Hbr] _ Hf Hi].
  pose proof (rd_tree _ _ _ _ R) as (t & fl & DB & _ & _ & Hm).
  assert (rep s (env_of s base) (Overlay_new s) (heap_of s base)) as Ho by (eapply overlay_rep, Sv).
  destruct (with_budget_reads s (env_of s base) (heap_of s base) maximum (mapM execute_with_budget requests)
    (Forall2 (answers db) requests) (Overlay_new s)) as (r & o' & E & Ho' & Hr); [|done|].
  { apply reads_as_mapM. eapply Forall_impl; [exact Hreq|]. intros x Hx. eapply execute_answers; try done.
    apply (rd_base _ _ _ _ _ R). }
  assert (serving (ov_store o') base D db) as Sv' by (eapply serving_reads; [exact Sv|apply Ho']). pose proof (rep_store _ _ _ _ Ho') as B.
  unfold apply_batch_with_response_budget, prepare_batch_with_response_budget, with_overlay.
  rewrite bind_eq. rewrite bind_eq, E. destruct r as [out|e| |]; [|by exists (Err e), (ov_store o')|done..].
  destruct (finish_nothing s _ _ out o' Ho' eq_refl eq_refl) as (pb & -> & Hres & Hch & Hgen).
  unfold publish_prepared, publish_prepared_group, not_broken. rewrite !bind_eq. unfold gets at 1.
  rewrite (rp_serving _ _ _ _ (sv_represents _ _ _ _ Sv')). cbn [ret]. rewrite bind_eq. unfold gets at 1. rewrite bind_eq. unfold lift.
  cbn [foldR]. unfold check_generation. rewrite Hgen, Z.eqb_refl. cbn [rbind forallb]. rewrite bool_decide_true by done. cbn [andb ret].
  exists (Ok (responses pb)), (ov_store o'). rewrite Hres. done.
Qed.

(** C3. Gets, queries and scans of a store in service are those of the
    reference database: a batch of them, under any response budget, either gives
    exactly the reference's states and documents (in key order, live ones only,
    behind the cursor, up to the limit), or is refused because the response is
    too large or a key too long; the store still represents the same database.
    It never panics and never fails to return. *)
Theorem read_batch_refines (s : BTreeStore F W I) base D db times requests maximum :
  serving s base D db → Forall read_request requests →
  match apply_batch_with_response_budget times requests maximum s with
  | (Ok responses, s') => Forall2 (answers db) requests responses ∧ serving s' base D db
  | (Err e, s') => read_error e ∧ serving s' base D db
  | _ => False
  end.
Proof.
  intros Sv Hreq. destruct (read_batch_spec s base D db times requests maximum Sv Hreq) as (r & s' & -> & Sv' & _ & Hr).
  by destruct r.
Qed.

(** C4. [transact_get] reads all its keys from one state of the database. *)
Theorem transact_get_refines (s : BTreeStore F W I) base D db keys maximum :
  serving s base D db →
  match transact_get_with_response_budget keys maximum s with
  | (Ok states, s') => states = ReferenceDb_transact_get db keys ∧ serving s' base D db
  | (Err e, s') => read_error e ∧ serving s' base D db
  | _ => False
  end.
Proof.
  intros Sv. pose proof Sv as [[R Hc Hcap Hcfg Hbr] _ Hf Hi].
  pose proof (rd_tree _ _ _ _ R) as (t & fl & DB & _ & _ & Hm).
  assert (rep s (env_of s base) (Overlay_new s) (heap_of s base)) as Ho by (eapply overlay_rep, Sv).
  destruct (with_budget_reads s (env_of s base) (heap_of s base) maximum (mapM get_state_with_budget keys)
    (Forall2 (λ key s, s = ReferenceDb_get db key) keys) (Overlay_new s)) as (r & o' & E & Ho' & Hr); [|done|].
  { apply reads_as_mapM, Forall_forall. intros key _. eapply get_answers; try done. apply (rd_base _ _ _ _ _ R). }
  assert (serving (ov_store o') base D db) as Sv' by (eapply serving_reads; [exact Sv|apply Ho']).
  unfold transact_get_with_response_budget, not_broken. rewrite !bind_eq. unfold gets. rewrite Hbr. cbn [ret].
  unfold with_overlay. rewrite E. destruct r as [out|e| |]; try done. split; [|done].
  simpl in Hr. unfold ReferenceDb_transact_get. clear -Hr. induction Hr as [|key x keys out -> _ IH]; [done|].
  by rewrite fmap_cons, IH.
Qed.

End store.
