(* ===== verification/Disk.v ===== *)
(** * Disk: replaying the log onto the data file

    What the committed batches of the log make of the pages of a data file
    ([newest], [replayed]), when that is a database ([recoverable]), and that
    [recover_data_file] does exactly this. *)

From S2P Require Import Prelude Core Crc Page Superblock DurableFile Wal WalCodec WalScan WalLog WalOpen WalSafety Format FormatCodec Cache Reference StoreState Store Checker Engine Heap.

Definition page_bytes (c : list byte) (id : PageId) : list byte := sub c (id * PAGE_SIZE) (id * PAGE_SIZE + PAGE_SIZE).

Abbreviation Logged := (list (Lsn * WalPageImage)).

(** The last image of a page in the log. *)
Definition newest (id : PageId) (L : Logged) : option (Lsn * WalPageImage) := last (filter (λ x, img_page_id x.2 = id) L).

(** The bytes of a page after replaying the log. *)
Definition replayed (c : list byte) (L : Logged) (id : PageId) : list byte :=
  match newest id L with Some x => img_bytes x.2 | None => page_bytes c id end.

(** The images of a page are logged in the order of their LSNs. *)
Definition later (x y : Lsn * WalPageImage) : Prop := img_page_id x.2 = img_page_id y.2 → x.1 < y.1.

Lemma newest_app id L1 L2 : newest id (L1 ++ L2) = match newest id L2 with Some x => Some x | None => newest id L1 end.
Proof. unfold newest. by rewrite filter_app, last_app. Qed.

Lemma newest_cons id y L :
  newest id (y :: L) = match newest id L with Some x => Some x | None => if decide (img_page_id y.2 = id) then Some y else None end.
Proof.
  change (y :: L) with ([y] ++ L). rewrite newest_app. destruct (newest id L); [done|]. unfold newest. cbn.
  by destruct (decide _).
Qed.

Lemma newest_Some id L x : newest id L = Some x → x ∈ L ∧ img_page_id x.2 = id.
Proof.
  unfold newest. intros Hx. rewrite last_lookup in Hx. apply list_elem_of_lookup_2, list_elem_of_filter in Hx. tauto.
Qed.

Lemma newest_in L x : x ∈ L → is_Some (newest (img_page_id x.2) L).
Proof.
  intros Hx. unfold newest. apply last_is_Some. intros E.
  assert (x ∈ filter (λ y, img_page_id y.2 = img_page_id x.2) L) as Hin by (by apply list_elem_of_filter).
  rewrite E in Hin. by apply not_elem_of_nil in Hin.
Qed.

Lemma newest_later L y L' x :
  StronglySorted later (L ++ y :: L') → newest (img_page_id y.2) L' = Some x → y.1 < x.1.
Proof.
  intros Hs%StronglySorted_app_1_r Hx. apply StronglySorted_inv in Hs as [_ Hs].
  apply newest_Some in Hx as [Hin Hid]. eapply Forall_forall in Hs; [|exact Hin]. by apply Hs.
Qed.

(** ** Pages of a file *)

Lemma page_bytes_splice c id bytes id' :
  0 ≤ id → 0 ≤ id' → len bytes = PAGE_SIZE → (id + 1) * PAGE_SIZE ≤ len c → (id' + 1) * PAGE_SIZE ≤ len c →
  page_bytes (splice c (id * PAGE_SIZE) bytes) id' = if decide (id = id') then bytes else page_bytes c id'.
Proof.
  intros H1 H2 Hb Hl Hl'. unfold page_bytes. destruct (decide (id = id')) as [<-|Hne].
  - apply sub_splice_same; lia.
  - apply sub_splice_ne; lia.
Qed.

Lemma page_bytes_grow c n id :
  0 ≤ id → (id + 1) * PAGE_SIZE ≤ len c → len c ≤ n → page_bytes (resize_bytes n c) id = page_bytes c id.
Proof. intros H1 H2 H3. rewrite resize_grow by done. unfold page_bytes. apply sub_app_l; lia. Qed.

Section disk.
Context `{Crc32c} {F W I : Type} `{DFL : DurableFileLaws F} `{WFL : DurableFileLaws W} `{FaultInjector I}.

Lemma zero_page_invalid n m id d : 0 ≤ n → n + 4 ≤ m → decode_page_at (sub (zeros m) n (n + PAGE_SIZE)) (Some id) ≠ Ok d.
Proof.
  intros Hn Hm. unfold decode_page_at. destruct (len _ =? PAGE_SIZE) eqn:El; [|done]. bool_props. cbn [negb].
  assert (sub (zeros m) n (n + PAGE_SIZE) = zeros PAGE_SIZE) as ->.
  { unfold sub, zeros in *. rewrite drop_replicate, take_replicate in *. unfold len in El. rewrite length_replicate in El. f_equal. lia. }
  change (slice (E:=Error) (zeros PAGE_SIZE) 0 4) with (Ok (E:=Error) (zeros 4)). cbn [rbind].
  change (bytes_eqb (zeros 4) PAGE_MAGIC) with false. done.
Qed.

Lemma len_reliable {G} `{DurableFileLaws G} (f : G) : reliable f → file_len f = Ok (len (contents f)).
Proof.
  intros Hr%reliable_len. pose proof (file_len_law f) as L. destruct (file_len f); try done. by rewrite L.
Qed.

(** A write to a reliable file, inside the file. *)
Lemma write_all_reliable (f : F) offset bytes :
  reliable f → 0 ≤ offset → offset + len bytes ≤ len (contents f) → len (contents f) ≤ U64_MAX →
  ∃ f', write_all_at offset bytes f = (Ok tt, f') ∧ reliable f' ∧ contents f' = splice (contents f) offset bytes ∧
    durable f' = durable f.
Proof.
  intros Hr Ho Hl Hu. pose proof (len_nonneg bytes). assert (0 ≤ offset ≤ len (contents f)) as Hin by lia.
  destruct (write_all_spec plain_add (Io WriteZero "database file returned a zero-byte write") offset bytes f adds_plain Hin)
    as (Hd & _ & _ & (k & _ & Hc & Hk) & Hrel).
  destruct (Hrel Hr ltac:(lia)) as [Hok Hr']. unfold write_all_at. destruct (write_all _ _ offset bytes f) as [[[]| | |] f']; try done.
  exists f'. simpl in *. split_and!; [done|done| |done]. rewrite Hc, (Hk eq_refl), firstn_all. by apply write_bytes_inside.
Qed.

Lemma read_page_reliable (f : F) id :
  reliable f → 0 ≤ id → (id + 1) * PAGE_SIZE ≤ len (contents f) → len (contents f) ≤ U64_MAX →
  ∃ f', read_exact_at (id * PAGE_SIZE) PAGE_SIZE f = (Ok (page_bytes (contents f) id), f') ∧ reliable f' ∧
    contents f' = contents f ∧ durable f' = durable f.
Proof.
  intros Hr Hid Hl Hu. unfold read_exact_at.
  destruct (reads_exact plain_add (Corruption "unexpected end of database file") (id * PAGE_SIZE) PAGE_SIZE f)
    as (Hc & Hd & Hok & Hrel); [apply adds_plain|lia..|].
  destruct (read_exact _ _ _ _ f) as [r f']. simpl in *. destruct Hok as [->|(e & -> & Hnr)]; [|done].
  exists f'. auto.
Qed.

Lemma decoded_ok_spec bytes id :
  ∃ o, decoded_ok bytes id = Ok o ∧ (∀ d, o = Some d ↔ decode_page_at bytes (Some id) = Ok d).
Proof.
  unfold decoded_ok. pose proof (page_decode_returns bytes (Some id)) as Hr.
  destruct (decode_page_at bytes (Some id)) as [d| | |]; try done; [exists (Some d)|exists None]; split; try done; naive_solver.
Qed.

(** ** Replaying one page *)

(** A logged image, in a file whose last page is [hw]. *)
Definition wf_logged (hw : PageId) (x : Lsn * WalPageImage) : Prop :=
  0 ≤ img_page_id x.2 ≤ hw ∧ len (img_bytes x.2) = PAGE_SIZE ∧
  (FIRST_DATA_PAGE ≤ img_page_id x.2 →
   ∃ d, decode_page_at (img_bytes x.2) (Some (img_page_id x.2)) = Ok d ∧ page_lsn (header d) = x.1).

Definition file_size (hw : PageId) : Z := (hw + 1) * PAGE_SIZE.

(** A page of the file is the image [x], or older. *)
Definition not_newer (bytes : list byte) (id : PageId) (x : Lsn * WalPageImage) : Prop :=
  FIRST_DATA_PAGE ≤ id ∧ bytes ≠ img_bytes x.2 →
  ∀ d, decode_page_at bytes (Some id) = Ok d → page_lsn (header d) < x.1.

Lemma replay_page_spec hw changed y (f : F) :
  reliable f → len (contents f) = file_size hw → file_size hw ≤ U64_MAX → wf_logged hw y →
  ∃ changed' f', replay_page (file_size hw) changed y (f, @None I) = (Ok changed', (f', None)) ∧ reliable f' ∧
    (changed = true → changed' = true) ∧
    ((contents f' = splice (contents f) (img_page_id y.2 * PAGE_SIZE) (img_bytes y.2) ∧ changed' = true) ∨
     (FIRST_DATA_PAGE ≤ img_page_id y.2 ∧ contents f' = contents f ∧ durable f' = durable f ∧ changed' = changed ∧
      ∃ d, decode_page_at (page_bytes (contents f) (img_page_id y.2)) (Some (img_page_id y.2)) = Ok d ∧ y.1 ≤ page_lsn (header d))).
Proof.
  intros Hr Hl Hu (Hid & Hb & _). destruct y as [lsn img]. cbn [fst snd] in *. unfold file_size in *. unfold replay_page.
  unfold checked_mul. rewrite (proj2 (Z.leb_le _ _)) by lia. rewrite bind_eq. cbn [lift ok_or].
  destruct (read_page_reliable f (img_page_id img) Hr) as (f1 & E1 & Hr1 & C1 & D1); [lia..|].
  assert (∃ w f1, open_file (I:=I) (should_write ((hw + 1) * PAGE_SIZE) lsn (img_page_id img) (img_page_id img * PAGE_SIZE)) (f, None) =
    (Ok w, (f1, None)) ∧ reliable f1 ∧ contents f1 = contents f ∧ durable f1 = durable f ∧
    (w = false → FIRST_DATA_PAGE ≤ img_page_id img ∧
      ∃ d, decode_page_at (page_bytes (contents f) (img_page_id img)) (Some (img_page_id img)) = Ok d ∧ lsn ≤ page_lsn (header d)))
    as (w & f2 & E2 & Hr2 & C2 & D2 & Hw).
  { unfold open_file, zoom, should_write. cbn [fst snd].
    destruct ((_ =? 0) || _) eqn:E0; [by exists true, f|]. apply orb_false_iff in E0 as [E00 E01]. bool_props.
    unfold checked_add. rewrite (proj2 (Z.leb_le (_ + _) U64_MAX)) by lia. cbn [is_some_and]. rewrite (proj2 (Z.leb_le _ _)) by lia.
    rewrite !bind_eq, E1. unfold lift. destruct (decoded_ok_spec (page_bytes (contents f) (img_page_id img)) (img_page_id img)) as (o & Eo & Ho).
    rewrite Eo. eexists _, f1. split; [reflexivity|]. split_and!; [done|done|done|]. intros Hd. destruct o as [d|]; [|done]. bool_props.
    split; [lia|]. exists d. split; [by apply Ho|lia]. }
  rewrite bind_eq, E2. destruct w.
  - destruct (write_all_reliable f2 (img_page_id img * PAGE_SIZE) (img_bytes img) Hr2) as (f3 & E3 & Hr3 & C3 & _); [rewrite ?C2; lia..|].
    rewrite bind_eq. unfold hit. rewrite bind_eq. unfold open_file, zoom. cbn [fst snd]. rewrite E3.
    exists true, f3. split; [reflexivity|]. split_and!; [done|done|]. left. by rewrite C3, C2.
  - exists changed, f2. split; [reflexivity|]. split_and!; [done|done|]. right. by destruct (Hw eq_refl).
Qed.

(** ** Replaying the log *)

(** The file [cur] when the images [L2] of the log [L] are still to be replayed
    onto [c]. *)
Definition replaying (c : list byte) (L L2 : Logged) (hw : PageId) (cur : list byte) : Prop :=
  len cur = file_size hw ∧ ∀ id, 0 ≤ id ≤ hw →
    match newest id L with
    | None => page_bytes cur id = page_bytes c id
    | Some x => not_newer (page_bytes cur id) id x ∧ (newest id L2 = None → page_bytes cur id = img_bytes x.2)
    end.

Lemma newest_split L1 y L2 :
  StronglySorted later (L1 ++ y :: L2) →
  ∃ x, newest (img_page_id y.2) (L1 ++ y :: L2) = Some x ∧
    ((newest (img_page_id y.2) L2 = None ∧ x = y) ∨ (newest (img_page_id y.2) L2 = Some x ∧ y.1 < x.1)).
Proof.
  intros Hs. rewrite newest_app, newest_cons, decide_True by done.
  destruct (newest (img_page_id y.2) L2) as [x|] eqn:E; [exists x|exists y]; split; auto.
  right. split; [done|]. by eapply newest_later.
Qed.

Lemma replaying_write c L1 y L2 hw cur :
  StronglySorted later (L1 ++ y :: L2) → wf_logged hw y → replaying c (L1 ++ y :: L2) (y :: L2) hw cur →
  replaying c (L1 ++ y :: L2) L2 hw (splice cur (img_page_id y.2 * PAGE_SIZE) (img_bytes y.2)).
Proof.
  intros Hs (Hid & Hb & Hd) [Hl Hr]. unfold file_size in *. split; [unfold file_size; by rewrite splice_len by lia|].
  intros id Hi. specialize (Hr id Hi). rewrite page_bytes_splice by lia. rewrite newest_cons in Hr.
  destruct (decide (img_page_id y.2 = id)) as [<-|Hne]; [|by destruct (newest id (L1 ++ y :: L2)), (newest id L2)].
  destruct (newest_split _ _ _ Hs) as (x & -> & [[E ->]|[E Hlt]]); rewrite E; [by split; [intros [_ ?]|]|].
  split; [|done]. intros [Hf _] d E'. destruct (Hd Hf) as (d' & E'' & Hlsn). assert (d' = d) as -> by congruence. lia.
Qed.

Lemma replaying_skip c L1 y L2 hw cur d :
  StronglySorted later (L1 ++ y :: L2) → wf_logged hw y → replaying c (L1 ++ y :: L2) (y :: L2) hw cur →
  FIRST_DATA_PAGE ≤ img_page_id y.2 → decode_page_at (page_bytes cur (img_page_id y.2)) (Some (img_page_id y.2)) = Ok d →
  y.1 ≤ page_lsn (header d) → replaying c (L1 ++ y :: L2) L2 hw cur.
Proof.
  intros Hs (Hid & _) [Hl Hr] Hf Hd Hlsn. split; [done|]. intros id Hi. specialize (Hr id Hi). rewrite newest_cons in Hr.
  destruct (decide (img_page_id y.2 = id)) as [<-|Hne]; [|by destruct (newest id (L1 ++ y :: L2)), (newest id L2)].
  destruct (newest_split _ _ _ Hs) as (x & Ex & [[E ->]|[E Hlt]]); rewrite Ex, E in *; [|by destruct Hr].
  destruct Hr as [Hr _]. split; [done|]. intros _.
  destruct (decide (page_bytes cur (img_page_id y.2) = img_bytes y.2)) as [?|Hne]; [done|].
  specialize (Hr (conj Hf Hne) d Hd). lia.
Qed.

Lemma replay_loop_spec c L1 L2 hw changed (f : F) :
  reliable f → file_size hw ≤ U64_MAX → StronglySorted later (L1 ++ L2) → Forall (wf_logged hw) L2 →
  replaying c (L1 ++ L2) L2 hw (contents f) →
  ∃ changed' f', foldM (replay_page (file_size hw)) changed L2 (f, @None I) = (Ok changed', (f', None)) ∧ reliable f' ∧
    replaying c (L1 ++ L2) [] hw (contents f') ∧ (changed = true → changed' = true) ∧
    (changed' = false → contents f' = contents f ∧ durable f' = durable f).
Proof.
  intros Hr Hu. revert L1 changed f Hr. induction L2 as [|y L2 IH]; intros L1 changed f Hr Hs Hwf HR.
  { exists changed, f. split; [reflexivity|]. split_and!; done. }
  apply Forall_cons in Hwf as [Hy Hwf]. pose proof HR as [Hl _].
  destruct (replay_page_spec hw changed y f Hr Hl Hu Hy) as (ch1 & f1 & E1 & Hr1 & Hch & Hcase).
  assert (L1 ++ y :: L2 = (L1 ++ [y]) ++ L2) as EL by (by rewrite <- app_assoc).
  assert (replaying c (L1 ++ y :: L2) L2 hw (contents f1)) as HR1.
  { destruct Hcase as [[-> _]|(Hf & -> & _ & _ & d & Hd & Hlsn)]; [by apply replaying_write|by eapply replaying_skip]. }
  cbn [foldM]. rewrite bind_eq, E1. rewrite EL in *.
  destruct (IH (L1 ++ [y]) ch1 f1 Hr1 Hs Hwf HR1) as (ch2 & f2 & E2 & Hr2 & HR2 & Hch2 & Hun). exists ch2, f2.
  split; [exact E2|]. split_and!; [done|done|auto|]. intros ->. destruct (Hun eq_refl) as [C2 D2].
  destruct Hcase as [[_ ->]|(_ & C1 & D1 & _)]; [by discriminate Hch2|]. split; congruence.
Qed.

(** ** Databases on disk *)

Definition sb_identity (sb : Superblock) : WalIdentity :=
  mkIdentity (database_uuid sb) (tenant_id sb) (shard_id sb) (shard_epoch sb).

(** [a] is an earlier superblock than [b], behind the same checkpoint. *)
Definition older_copy (a b : Superblock) : Prop :=
  checkpoint_lsn a = checkpoint_lsn b ∧ sb_identity a = sb_identity b ∧ generation a ≤ generation b.

(** The images [L] of the log, replayed onto a data file with the bytes [c],
    make the pages [base] with the superblock [sb] in slot [sl]. *)
Record recoverable (c : list byte) (L : Logged) (base : gmap PageId PageData) (sb : Superblock) (sl : SuperblockSlot)
    (hw : PageId) : Prop := {
  rc_file : ∃ n, len c = file_size n ∧ FIRST_DATA_PAGE ≤ n ≤ hw;
  rc_bound : file_size hw ≤ U64_MAX;
  rc_images : Forall (wf_logged hw) L;
  rc_order : StronglySorted later L;
  rc_reach : len c = file_size hw ∨ is_Some (newest hw L);
  rc_before : ∃ sel, choose_superblock (page_bytes c 0) (page_bytes c 1) = Ok sel ∧
    older_copy (superblock sel) sb;
  rc_after : choose_superblock (replayed c L 0) (replayed c L 1) = Ok {| slot := sl; superblock := sb |};
  rc_cover id : FIRST_DATA_PAGE ≤ id ≤ hw → is_Some (base !! id);
  rc_pages id p : base !! id = Some p → FIRST_DATA_PAGE ≤ id ≤ hw ∧ decodes (replayed c L id) id p;
  rc_stale id x : newest id L = Some x → not_newer (page_bytes c id) id x
}.

(** A file that has the replayed data pages, and old superblocks only where the
    log has newer ones, is a database with the same log. *)
Lemma recoverable_written c c' L base sb sl hw sel :
  recoverable c L base sb sl hw → len c' = file_size hw →
  (∀ id, FIRST_DATA_PAGE ≤ id ≤ hw → page_bytes c' id = replayed c L id) →
  (∀ id, 0 ≤ id < FIRST_DATA_PAGE → newest id L = None → page_bytes c' id = page_bytes c id) →
  choose_superblock (page_bytes c' 0) (page_bytes c' 1) = Ok sel → older_copy (superblock sel) sb →
  recoverable c' L base sb sl hw.
Proof.
  intros [(n & Hn & Hnw) Hb Hi Ho Hre Hbe Haf Hcov Hp Hst] Hl Hc Hs Hsel Hold.
  assert (∀ id, 0 ≤ id ≤ hw → replayed c' L id = replayed c L id) as Hrep.
  { intros id Hid. unfold replayed. destruct (newest id L) as [x|] eqn:E; [reflexivity|].
    destruct (decide (id < FIRST_DATA_PAGE)); [apply Hs; [lia|assumption]|]. rewrite Hc by lia. unfold replayed. by rewrite E. }
  split; [exists hw; split; [assumption|lia]|assumption|assumption|assumption|left; assumption|exists sel; by split|..].
  - rewrite !Hrep by lia. assumption.
  - assumption.
  - intros id p Hbp. destruct (Hp id p Hbp) as [Hr Hd]. rewrite Hrep by lia. split; assumption.
  - intros id x Hx [Hid Hne]. apply newest_Some in Hx as Hx'. destruct Hx' as [Hin E].
    eapply Forall_forall in Hi as (Hid' & _); [|exact Hin]. destruct Hne. rewrite Hc by lia. unfold replayed. by rewrite Hx.
Qed.

Lemma older_refl sb : older_copy sb sb.
Proof. by repeat split. Qed.

(** A file that has the replayed pages is a database with the same log. *)
Lemma recoverable_replayed c c' L base sb sl hw :
  recoverable c L base sb sl hw → len c' = file_size hw → (∀ id, 0 ≤ id ≤ hw → page_bytes c' id = replayed c L id) →
  recoverable c' L base sb sl hw ∧ choose_superblock (page_bytes c' 0) (page_bytes c' 1) = Ok {| slot := sl; superblock := sb |}.
Proof.
  intros R Hl Hc. destruct (rc_file _ _ _ _ _ _ R) as (n & Hn & Hnw).
  assert (choose_superblock (page_bytes c' 0) (page_bytes c' 1) = Ok {| slot := sl; superblock := sb |}) as Hsel
    by (rewrite !Hc by lia; apply R).
  split; [|exact Hsel]. eapply (recoverable_written c c'); [exact R|exact Hl|intros; apply Hc; lia| |exact Hsel|apply older_refl].
  intros id Hid Hnone. rewrite Hc by lia. unfold replayed. by rewrite Hnone.
Qed.

Lemma decodes_len bytes id p : decodes bytes id p → len bytes = PAGE_SIZE.
Proof. intros (d & Hd & _). unfold decode_page_at in Hd. destruct (len bytes =? PAGE_SIZE) eqn:E; [|done]. by bool_props. Qed.

(** A page that is neither in the file nor in the log does not exist. *)
Lemma recoverable_inside c L base sb sl hw id n :
  recoverable c L base sb sl hw → len c = file_size n → 0 ≤ id ≤ hw → FIRST_DATA_PAGE ≤ n → newest id L = None → id ≤ n.
Proof.
  intros R Hn Hid Hn2 Hnone. apply Z.nlt_ge. intros Hlt. destruct (rc_cover _ _ _ _ _ _ R id) as [p Hp]; [lia|].
  apply (rc_pages _ _ _ _ _ _ R) in Hp as [_ Hd%decodes_len]. unfold replayed in Hd. rewrite Hnone in Hd.
  unfold page_bytes, sub in Hd. unfold file_size, len in *. rewrite length_take, length_drop in Hd. lia.
Qed.

(** The highest page in the log. *)
Lemma highest_page_spec bs hw :
  FIRST_DATA_PAGE ≤ hw → Forall (wf_logged hw) (logged_pages bs) →
  FIRST_DATA_PAGE ≤ highest_page bs ≤ hw ∧ (is_Some (newest hw (logged_pages bs)) → highest_page bs = hw).
Proof.
  intros Hhw Hwf.
  assert (∀ l m, FIRST_DATA_PAGE ≤ m ≤ hw → Forall (λ img, img_page_id img ≤ hw) l →
    let h := foldl (λ highest (page : WalPageImage),
      if FIRST_DATA_PAGE <=? img_page_id page then Z.max highest (img_page_id page) else highest) m l in
    m ≤ h ≤ hw ∧ ∀ img, img ∈ l → img_page_id img = hw → h = hw) as Hfold.
  { induction l as [|img l IH]; intros m Hm Hl; simpl; [split; [lia|by intros ? ?%not_elem_of_nil]|].
    apply Forall_cons in Hl as [Hi Hl].
    assert (FIRST_DATA_PAGE ≤ (if FIRST_DATA_PAGE <=? img_page_id img then Z.max m (img_page_id img) else m) ≤ hw) as Hm'
      by (destruct (_ <=? _) eqn:E; bool_props; lia).
    destruct (IH _ Hm' Hl) as [HA HB]. split; [destruct (_ <=? _) eqn:E; bool_props; lia|].
    intros img' [->|Hin]%elem_of_cons Hh; [|eauto]. rewrite (proj2 (Z.leb_le _ _)) in * by lia. lia. }
  assert (∀ img, img ∈ bs ≫= b_pages ↔ ∃ lsn, (lsn, img) ∈ logged_pages bs) as Hin.
  { intros img. unfold logged_pages. rewrite list_elem_of_bind. setoid_rewrite list_elem_of_bind. split.
    - intros (b & Hb & Hin). exists (b_commit_lsn b), b. split; [|done]. apply list_elem_of_fmap. by exists img.
    - intros (lsn & b & Hb & Hin). apply list_elem_of_fmap in Hb as (img' & [= -> ->] & ?). by exists b. }
  destruct (Hfold (bs ≫= b_pages) FIRST_DATA_PAGE) as [HA HB]; [lia| |].
  { apply Forall_forall. intros img (lsn & Hl)%Hin. eapply Forall_forall in Hwf as ([_ ?] & _); [|exact Hl]. done. }
  split; [unfold highest_page; lia|]. intros [[lsn img] [Hx Hid]%newest_Some]. apply (HB img); [|done]. apply Hin. by exists lsn.
Qed.

(** ** Recovery *)

(** The images that are not covered by a checkpoint. *)
Definition live (checkpoint : Lsn) (bs : list CommittedWalBatch) : Logged :=
  logged_pages (filter (λ b, checkpoint < b_commit_lsn b) bs).

(** The file with room for all pages. *)
Lemma recovery_grow c L base sb sl hw n :
  recoverable c L base sb sl hw → len c = file_size n → FIRST_DATA_PAGE ≤ n ≤ hw →
  replaying c L L hw (resize_bytes (file_size hw) c).
Proof.
  intros R Hn Hnw. assert (len c ≤ file_size hw) by (unfold file_size in *; lia). pose proof (rc_bound _ _ _ _ _ _ R).
  split; [apply len_resize; unfold file_size in *; lia|]. intros id Hid. destruct (newest id L) as [x|] eqn:E.
  - split; [|intros ?; congruence]. destruct (decide (id ≤ n)) as [Hle|Hgt].
    + rewrite page_bytes_grow by (unfold file_size in *; lia). by apply (rc_stale _ _ _ _ _ _ R).
    + intros _ d Hd. exfalso. revert Hd. rewrite resize_grow by done. unfold page_bytes, file_size in *.
      rewrite sub_app_r by lia. replace (id * PAGE_SIZE + PAGE_SIZE - len c) with (id * PAGE_SIZE - len c + PAGE_SIZE) by lia.
      apply zero_page_invalid; lia.
  - pose proof (recoverable_inside _ _ _ _ _ _ id n R Hn Hid ltac:(lia) E) as Hle. apply page_bytes_grow; unfold file_size in *; lia.
Qed.

Lemma replaying_done c L hw cur id :
  replaying c L [] hw cur → 0 ≤ id ≤ hw → page_bytes cur id = replayed c L id.
Proof.
  intros [_ HR] Hid. specialize (HR id Hid). unfold replayed. destruct (newest id L) as [x|]; [|done]. destruct HR as [_ HR]. by apply HR.
Qed.

Lemma resize_same n c : len c = n → resize_bytes n c = c.
Proof. intros <-. apply resize_id. Qed.

(** The preparation of the file for the replay. *)
Lemma recovery_grow_runs (f : F) n hw target :
  reliable f → len (contents f) = file_size n → FIRST_DATA_PAGE ≤ n ≤ hw → file_size hw ≤ U64_MAX →
  (target = file_size hw ∨ (n = hw ∧ target ≤ file_size hw)) → 0 < target →
  ∃ f1, (if (len (contents f) =? 0) || (len (contents f) <? target) then open_file (I:=I) (set_len target)
         else
           guard* len (contents f) mod PAGE_SIZE =? 0 else
             RecoveryFailure "database file has a non-page-aligned length before recovery" in
           ret tt) (f, None) = (Ok tt, (f1, None)) ∧ reliable f1 ∧ contents f1 = resize_bytes (file_size hw) (contents f) ∧
    ((len (contents f) <? target) = false → f1 = f).
Proof.
  intros Hr Hn Hnw Hu Ht Hpos. rewrite (proj2 (Z.eqb_neq _ 0)) by (unfold file_size in *; lia). cbn [orb].
  destruct (len (contents f) <? target) eqn:E; bool_props.
  - destruct Ht as [->|[-> ?]]; [|lia]. destruct (reliable_set_len f (file_size hw) Hr) as [Hr1 E1]; [unfold is_u64; lia|].
    pose proof (set_len_law f (file_size hw) ltac:(unfold is_u64; lia)) as L1.
    unfold open_file, zoom. cbn [fst snd]. destruct (set_len (file_size hw) f) as [r1 f1]. simpl in *. subst r1.
    exists f1. split; [reflexivity|]. destruct L1 as [_ L1]. done.
  - exists f. rewrite Hn. unfold file_size at 1. rewrite Z.mod_mul by lia. rewrite Z.eqb_refl. split; [reflexivity|].
    split_and!; [done| |done]. symmetry. apply resize_same. destruct Ht as [->|[-> ?]]; [|done]. unfold file_size in *. lia.
Qed.

Lemma recover_spec bs ck (f : F) base sb sl hw (L := live ck bs) :
  reliable f → recoverable (contents f) L base sb sl hw →
  ∃ f', recover_data_file bs ck (f, @None I) = (Ok tt, (f', None)) ∧ reliable f' ∧ len (contents f') = file_size hw ∧
    (∀ id, 0 ≤ id ≤ hw → page_bytes (contents f') id = replayed (contents f) L id) ∧
    (durable f = contents f → durable f' = contents f').
Proof.
  intros Hr R. destruct (rc_file _ _ _ _ _ _ R) as (n & Hn & Hnw). pose proof (rc_bound _ _ _ _ _ _ R) as Hu.
  unfold recover_data_file. fold (live ck bs) in *. set (batches := filter _ bs) in *. change (logged_pages batches) with L.
  destruct (highest_page_spec batches hw ltac:(lia) (rc_images _ _ _ _ _ _ R)) as [Hh1 Hh2].
  destruct (is_empty batches) eqn:Eb.
  { destruct batches as [|] eqn:E; [|done]. exists f. split; [reflexivity|]. unfold L, live. fold batches. rewrite E.
    assert (len (contents f) = file_size hw) as Hlen.
    { destruct (rc_reach _ _ _ _ _ _ R) as [?|[x Hx]]; [done|]. unfold L, live in Hx. fold batches in Hx. by rewrite E in Hx. }
    by split_and!. }
  assert (target_bounds : 0 < file_size (highest_page batches) ≤ file_size hw) by (unfold file_size; lia).
  rewrite bind_eq. unfold lift at 1, checked_add. rewrite (proj2 (Z.leb_le (highest_page batches + 1) _)) by (unfold file_size in *; lia). cbn [ok_or].
  rewrite bind_eq. unfold lift at 1, checked_mul. fold (file_size (highest_page batches)). rewrite (proj2 (Z.leb_le _ _)) by lia. cbn [ok_or].
  rewrite bind_eq. unfold open_file at 1, zoom at 1. cbn [fst snd]. rewrite (len_reliable f Hr). rewrite bind_eq.
  destruct (recovery_grow_runs f n hw (file_size (highest_page batches)) Hr Hn Hnw Hu) as (f1 & E1 & Hr1 & C1 & Hsame).
  { destruct (rc_reach _ _ _ _ _ _ R) as [Hlen|Hnew]; [right|left; by rewrite Hh2]. unfold file_size in *. split; lia. }
  { lia. }
  rewrite E1. rewrite bind_eq. unfold open_file at 1, zoom at 1. cbn [fst snd]. rewrite (len_reliable f1 Hr1), C1.
  rewrite len_resize by (unfold file_size in *; lia).
  pose proof (recovery_grow _ _ _ _ _ _ n R Hn Hnw) as HR. rewrite <- C1 in HR.
  destruct (replay_loop_spec (contents f) [] L hw (len (contents f) <? file_size (highest_page batches)) f1 Hr1 Hu
    (rc_order _ _ _ _ _ _ R) (rc_images _ _ _ _ _ _ R) HR) as (changed & f2 & E2 & Hr2 & HR2 & Hch & Hun).
  rewrite bind_eq. fold L. rewrite E2. cbn [app] in HR2. pose proof HR2 as [Hl2 _]. destruct changed.
  - rewrite bind_eq. unfold hit at 1. rewrite bind_eq. unfold hit at 1. rewrite bind_eq. unfold open_file, zoom, mapping_err. cbn [fst snd].
    destruct (reliable_sync f2 Hr2) as [Hr3 E3]. pose proof (sync_data_law f2) as L3. destruct (sync_data f2) as [r3 f3]. simpl in *. subst r3.
    destruct L3 as [C3 D3]. exists f3. split; [reflexivity|]. rewrite C3. split_and!; [done|done|by intros id Hid; eapply replaying_done|congruence].
  - destruct (Hun eq_refl) as [C2 D2]. exists f2. split; [reflexivity|]. split_and!; [done|done|by intros id Hid; eapply replaying_done|].
    intros Hd. assert ((len (contents f) <? file_size (highest_page batches)) = false) as Hlt
      by (destruct (len (contents f) <? _); [by discriminate Hch|done]).
    rewrite D2, C2, (Hsame Hlt). done.
Qed.

End disk.
