(* ===== verification/Create.v ===== *)
(** * Create: a new database

    [open_with_wal] on two empty files initialises them and returns a store in
    service that represents the empty reference database. *)

From stdpp Require Import list_numbers.
From S2P Require Import Prelude Core Crc Page Superblock DurableFile Wal WalCodec WalScan WalLog WalOpen WalSafety Format FormatCodec Cache Reference StoreState Store Checker Engine Heap Tree Own Split TreeOps Point ReadOps Restamp Finish Txn Group Disk.

Section create.
Context `{Crc32c} {F W I : Type} `{DFL : DurableFileLaws F} `{WFL : DurableFileLaws W} `{FaultInjector I}.

Definition new_superblock_of (config : DatabaseConfig) : Superblock :=
  mkSuperblock SUPERBLOCK_FORMAT_VERSION 1 (cfg_database_uuid config) (cfg_tenant_id config) (cfg_shard_id config)
    (cfg_shard_epoch config) PAGE_SIZE (Some 2) None (Some 2) 0 0.

Definition wf_config (config : DatabaseConfig) : Prop :=
  wf_identity (config_identity config) ∧ 0 ≤ inline_value_limit (limits config).

Lemma new_superblock_wf config : wf_config config → wf_superblock (new_superblock_of config).
Proof.
  intros [(Hu & Ht & Hs & He) _]. unfold wf_superblock. simpl in *. unfold is_u64 in *. split_and!; done || lia.
Qed.

(** The root of a new database: an empty leaf. *)
Lemma root_image : ∃ image, PageData_encode (PLeaf 0 None []) 2 = Ok image ∧ len image = PAGE_SIZE ∧ decodes image 2 (PLeaf 0 None []).
Proof.
  destruct (page_data_image (PLeaf 0 None []) 2) as (image & d & E & Hl & Hd & _ & Hp).
  - split; [by vm_compute|]. by split.
  - split_and!; [by constructor|by constructor|by vm_compute].
  - by vm_compute.
  - exists image. split_and!; [done|done|]. by exists d.
Qed.

Lemma initialize_spec config (f : F) :
  contents f = [] → reliable f → wf_config config →
  ∃ f', initialize (W:=W) (I:=I) config f =
      (Ok (make_store f' None (new_superblock_of config) SlotA 2 None 2 1 config None), f') ∧
    reliable f' ∧ len (contents f') = 3 * PAGE_SIZE ∧
    decodes (sub (contents f') (2 * PAGE_SIZE) (2 * PAGE_SIZE + PAGE_SIZE)) 2 (PLeaf 0 None []) ∧
    durable f' = contents f' ∧ page_bytes (contents f') 0 = superblock_image (new_superblock_of config) ∧
    page_bytes (contents f') 1 = superblock_image (new_superblock_of config).
Proof.
  intros Hc Hr Hcfg. destruct root_image as (image & Ei & Hli & Hdi). pose proof (new_superblock_wf config Hcfg) as Hwf.
  assert (encode_superblock (new_superblock_of config) = Ok (superblock_image (new_superblock_of config))) as Esb.
  { destruct Hwf as (?&?&?&?&?&?&?&_). by apply encode_superblock_Ok. }
  pose proof (len_superblock_image (new_superblock_of config)) as Hls.
  destruct (reliable_set_len f (3 * PAGE_SIZE) Hr) as [Hr1 E1]; [unfold is_u64; lia|].
  pose proof (set_len_law f (3 * PAGE_SIZE)) as L1.
  unfold initialize. cbv zeta. change FIRST_DATA_PAGE with 2.
  rewrite bind_eq. unfold lift at 1. rewrite Ei. rewrite bind_eq. unfold lift at 1.
  cbn [Superblock_new sb_format_version generation database_uuid tenant_id shard_id shard_epoch page_size free_list_head
    checkpoint_lsn sb_checksum]. fold (new_superblock_of config). rewrite Esb.
  rewrite bind_eq. destruct (set_len (3 * PAGE_SIZE) f) as [r1 f1]. simpl in E1, Hr1. subst r1.
  destruct L1 as [_ L1]; [unfold is_u64; lia|]. rewrite Hc in L1.
  assert (len (contents f1) = 3 * PAGE_SIZE) as Hl1 by (rewrite L1; apply len_resize; lia).
  destruct (write_all_reliable f1 SUPERBLOCK_A_OFFSET (superblock_image (new_superblock_of config)) Hr1) as (f2 & E2 & Hr2 & C2 & _);
    [rewrite ?Hls, ?Hl1; unfold SUPERBLOCK_A_OFFSET; lia..|].
  rewrite bind_eq, E2. assert (len (contents f2) = 3 * PAGE_SIZE) as Hl2 by (rewrite C2, splice_len; rewrite ?Hls; unfold SUPERBLOCK_A_OFFSET; lia).
  destruct (write_all_reliable f2 SUPERBLOCK_B_OFFSET (superblock_image (new_superblock_of config)) Hr2) as (f3 & E3 & Hr3 & C3 & _);
    [rewrite ?Hls, ?Hl2; unfold SUPERBLOCK_B_OFFSET; lia..|].
  rewrite bind_eq, E3. assert (len (contents f3) = 3 * PAGE_SIZE) as Hl3 by (rewrite C3, splice_len; rewrite ?Hls; unfold SUPERBLOCK_B_OFFSET; lia).
  destruct (write_all_reliable f3 (2 * PAGE_SIZE) image Hr3) as (f4 & E4 & Hr4 & C4 & _); [rewrite ?Hli, ?Hl3; lia..|].
  rewrite bind_eq, E4. rewrite bind_eq. destruct (reliable_sync_all f4 Hr4) as [Hr5 E5]. pose proof (sync_all_law f4) as L5.
  destruct (sync_all f4) as [r5 f5]. simpl in E5, Hr5. subst r5. destruct L5 as [C5 D5].
  exists f5. split; [done|]. split; [done|]. rewrite D5, C5, C4. change SUPERBLOCK_A_OFFSET with (0 * PAGE_SIZE) in C2. change SUPERBLOCK_B_OFFSET with (1 * PAGE_SIZE) in C3.
  split_and!; [| |done|..].
  - rewrite splice_len; lia.
  - replace (2 * PAGE_SIZE + PAGE_SIZE) with (2 * PAGE_SIZE + len image) by lia. rewrite sub_splice_same; [done|lia..].
  - rewrite page_bytes_splice by lia. rewrite C3, page_bytes_splice, C2, page_bytes_splice by (rewrite ?Hl2; lia). done.
  - rewrite page_bytes_splice by lia. rewrite C3, page_bytes_splice by (rewrite ?Hl2; lia). done.
Qed.

Lemma no_identity identity n (f : F) :
  reliable f → contents f = [] → validate_existing_identity_before_wal identity n f = (Ok None, f).
Proof.
  intros Hr Hc. unfold validate_existing_identity_before_wal. rewrite bind_eq. by rewrite (len_reliable f Hr), Hc.
Qed.

(** The new store. *)
Definition created (config : DatabaseConfig) (f : F) (wal : WalLog W) : BTreeStore F W I :=
  set_st_injector None (set_st_next_batch_id (w_next_batch_id wal) (set_st_next_lsn (w_next_lsn wal) (set_st_wal (Some wal)
    (make_store f None (new_superblock_of config) SlotA 2 None 2 1 config None)))).

Lemma open_new_spec config (f : F) (w : W) (i : option I) :
  contents f = [] → contents w = [] → reliable f → reliable w → wf_config config →
  ∃ f' wal, open_with_wal config (f, w, i) = (Ok (created config f' wal), (f', w_file wal, None)) ∧
    reliable f' ∧ reliable (w_file wal) ∧ len (contents f') = 3 * PAGE_SIZE ∧
    decodes (sub (contents f') (2 * PAGE_SIZE) (2 * PAGE_SIZE + PAGE_SIZE)) 2 (PLeaf 0 None []) ∧
    wal_ready wal WAL_FORMAT_VERSION (config_identity config) 0 [] ∧ durable (w_file wal) = contents (w_file wal) ∧
    durable f' = contents f' ∧ page_bytes (contents f') 0 = superblock_image (new_superblock_of config) ∧
    page_bytes (contents f') 1 = superblock_image (new_superblock_of config).
Proof.
  intros Hcf Hcw Hrf Hrw Hcfg. pose proof Hcfg as [Hid _].
  destruct (initialize_spec config f Hcf Hrf Hcfg) as (f' & Einit & Hrf' & Hlf' & Hdec & Hdf & Hp0 & Hp1).
  destruct (open_fresh (I:=I) (config_identity config) 0 w None 0 Hid) as (_ & Hw & Hlive & Hinj);
    [lia|by rewrite Hcw|rewrite Hcw; by vm_compute|].
  destruct (Hlive Hrw) as [Hok Hrw'].
  unfold open_with_wal. rewrite bind_eq. unfold modify. cbn [fst snd]. unfold open_with_wal_internal. rewrite bind_eq. cbn [fst snd].
  rewrite (len_reliable w Hrw). rewrite bind_eq. unfold on_data at 1, zoom at 1. cbn [fst snd]. rewrite no_identity by done.
  rewrite bind_eq. unfold on_log, zoom. cbn [fst snd default from_option].
  destruct (open_with_fault_injector_and_start_lsn (config_identity config) 0 (w, None)) as [r [w' i']].
  cbn [fst snd] in *. destruct r as [wal| | |]; cbn [is_ok] in Hok; [|discriminate Hok..]. destruct (Hw wal eq_refl) as (Hready & Hfile & Hdur). subst i' w'.
  rewrite bind_eq. unfold on_data at 1, zoom at 1, file_is_empty. cbn [fst snd]. rewrite (len_reliable f Hrf), Hcf. cbn [rbind].
  change (len (A:=byte) [] =? 0) with true. rewrite bind_eq. unfold gets. cbn [snd].
  pose proof Hready as ((_ & _ & _ & _ & _ & Hcom & _) & _). rewrite Hcom. change (true && is_empty (history_committed [])) with true. cbn match.
  rewrite bind_eq. unfold on_data, zoom. cbn [fst snd]. rewrite Einit. exists f', wal.
  split; [reflexivity|]. repeat (split; [assumption|]). assumption.
Qed.

(** ** The new store is in service *)

Definition new_pages : gmap PageId PageData := {[2 := PLeaf 0 None []]}.

Lemma new_holds (s : BTreeStore F W I) :
  st_root s = 2 → st_free_list_head s = None → st_high_water s = 2 → holds_states (heap_of s new_pages) 0 ∅.
Proof.
  intros Hr Hf Hh. exists (Lf 2 0 []), []. split; [split|split_and!; [done|by repeat constructor|done]].
  - split; simpl; rewrite ?Hh; try done.
    + intros x ->%list_elem_of_singleton. apply lookup_singleton_eq.
    + intros x ?%not_elem_of_nil. done.
  - split; [constructor|constructor].
  - split; [|constructor]. split_and!; [constructor|constructor|by vm_compute].
  - done.
Qed.

Lemma created_serving config (f : F) (wal : WalLog W) :
  wf_config config → reliable f → reliable (w_file wal) → len (contents f) = 3 * PAGE_SIZE →
  decodes (sub (contents f) (2 * PAGE_SIZE) (2 * PAGE_SIZE + PAGE_SIZE)) 2 (PLeaf 0 None []) →
  wal_ready wal WAL_FORMAT_VERSION (config_identity config) 0 [] → durable (w_file wal) = contents (w_file wal) →
  serving (created config f wal) new_pages 0 ReferenceDb_new.
Proof.
  intros Hcfg Hrf Hrw Hlen Hdec Hready Hdur. pose proof Hready as ((_ & _ & _ & _ & _ & _ & Hb & _) & Hlsn). simpl in Hlsn, Hb.
  split; [split|..]; try done.
  - split; [split; try done|].
    + by apply new_holds.
    + simpl. lia.
    + intros id lsn next es. simpl. unfold new_pages. intros [<- [= <- <- <-]]%lookup_singleton_Some. constructor.
    + by left.
    + by apply new_superblock_wf.
    + simpl. lia.
    + intros id p. simpl. unfold new_pages. intros [<- <-]%lookup_singleton_Some. unfold committed_page. simpl.
      split; [lia|]. split; [rewrite Hlen; lia|]. exact Hdec.
  - apply Hcfg.
  - by exists wal, WAL_FORMAT_VERSION, (config_identity config), 0, [].
Qed.

(** C5. Opening a database on two empty files initialises it: the store is in
    service, its one page is an empty leaf, and it represents the empty
    reference database. *)
Theorem open_new_serves config (f : F) (w : W) (i : option I) :
  contents f = [] → contents w = [] → reliable f → reliable w → wf_config config →
  ∃ s out, open_with_wal config (f, w, i) = (Ok s, out) ∧ serving s new_pages 0 ReferenceDb_new.
Proof.
  intros Hcf Hcw Hrf Hrw Hcfg.
  destruct (open_new_spec config f w i Hcf Hcw Hrf Hrw Hcfg) as (f' & wal & E & Hrf' & Hrw' & Hlen & Hdec & Hready & Hdur & _).
  exists (created config f' wal), (f', w_file wal, None). split; [exact E|]. by apply created_serving.
Qed.

End create.
