(* ===== verification/Recover.v ===== *)
(** * Recover: opening a database

    [open_with_wal] on the files of a database that was closed or has crashed:
    it replays the log, checks the tree and returns a store in service that
    represents the database. *)

From stdpp Require Import list_numbers.
From S2P Require Import Prelude Core Crc Page Superblock DurableFile Wal WalCodec WalScan WalLog WalOpen WalSafety Format FormatCodec Cache Reference StoreState Store Checker Engine Heap Tree Own Split TreeOps Point ReadOps CheckerSpec Restamp Finish Txn Group Disk Create.

Lemma page_aligned_file n : 1 ≤ n → page_aligned (file_size n) = true.
Proof.
  intros Hn. unfold page_aligned, file_size. rewrite (proj2 (Z.ltb_ge _ _)) by lia. rewrite Z.mod_mul by lia. done.
Qed.

Section check.
Context `{Crc32c} {F W I : Type} `{DFL : DurableFileLaws F} `{WFL : DurableFileLaws W} `{FaultInjector I}.

Lemma read_superblocks_spec (f : F) sel n :
  reliable f → len (contents f) = file_size n → 1 ≤ n → file_size n ≤ U64_MAX →
  choose_superblock (page_bytes (contents f) 0) (page_bytes (contents f) 1) = Ok sel →
  ∃ f', read_superblocks f = (Ok sel, f') ∧ reliable f' ∧ contents f' = contents f ∧ durable f' = durable f.
Proof.
  intros Hr Hl Hn Hu Hsel. unfold file_size in *. unfold read_superblocks. rewrite bind_eq.
  destruct (read_page_reliable f 0 Hr) as (f1 & E1 & Hr1 & C1 & D1); [lia..|].
  destruct (read_page_reliable f1 1 Hr1) as (f2 & E2 & Hr2 & C2 & D2); [rewrite ?C1; lia..|].
  change SUPERBLOCK_A_OFFSET with (0 * PAGE_SIZE). change SUPERBLOCK_B_OFFSET with (1 * PAGE_SIZE).
  rewrite E1, bind_eq, E2, C1. unfold lift. rewrite Hsel. exists f2. split_and!; [done|done|congruence|congruence].
Qed.

Lemma metadata_spec sb root free hw :
  locates sb root free hw → FIRST_DATA_PAGE ≤ root ≤ hw → (∀ id, free = Some id → FIRST_DATA_PAGE ≤ id ≤ hw) → file_size hw ≤ U64_MAX →
  metadata_from_superblock sb (file_size hw) = Ok (root, free, hw).
Proof.
  intros (Hroot & Hfree & Hhw & Hs) Hr Hf Hu. unfold metadata_from_superblock. rewrite Hs, Z.eqb_refl, Hroot, Hhw, Hfree. cbn [ok_or rbind].
  unfold checked_add, file_size in *. rewrite (proj2 (Z.leb_le (hw + 1) _)) by lia. cbn [ok_or rbind].
  rewrite Z.div_mul by lia. rewrite (proj2 (Z.ltb_ge hw FIRST_DATA_PAGE)), Z.eqb_refl by lia. cbn [orb negb].
  rewrite (proj2 (Z.ltb_ge root _)), (proj2 (Z.ltb_ge hw root)) by lia. cbn [orb negb].
  destruct free as [id|]; cbn [is_some_and negb]; [|done]. specialize (Hf id eq_refl).
  by rewrite (proj2 (Z.ltb_ge id _)), (proj2 (Z.ltb_ge hw id)) by lia.
Qed.

Lemma db_refs g t fl :
  db_at g t fl → FIRST_DATA_PAGE ≤ hroot g ≤ hhw g ∧ ∀ id, hfree g = Some id → FIRST_DATA_PAGE ≤ id ≤ hhw g.
Proof.
  intros [O _ _ Hroot]. split; [rewrite Hroot; exact (root_range _ _ _ _ _ _ O)|]. intros id Hid. rewrite (own_head _ _ _ _ O) in Hid.
  destruct fl as [|x fl]; [done|]. injection Hid as <-. apply (owns_in_range _ _ _ _ O). set_solver.
Qed.

(** The check of a store whose data file is up to date. *)
Lemma check_clean_spec (s : BTreeStore F W I) base t fl w :
  st_wal s = Some w → st_dirty_pages s = ∅ → st_dirty_superblock s = None → reliable (st_file s) →
  len (contents (st_file s)) = file_size (st_high_water s) → file_size (st_high_water s) ≤ U64_MAX →
  choose_superblock (page_bytes (contents (st_file s)) 0) (page_bytes (contents (st_file s)) 1) =
    Ok {| slot := st_active_slot s; superblock := st_superblock s |} →
  locates (st_superblock s) (st_root s) (st_free_list_head s) (st_high_water s) →
  checkpoint_lsn (st_superblock s) ≤ latest_lsn w (checkpoint_lsn (st_superblock s)) →
  (∀ id p, base !! id = Some p → decodes (page_bytes (contents (st_file s)) id) id p) →
  db_at (heap_of s base) t fl → revs_pos (entries t) →
  ∃ f', check_invariants s = (Ok (report_of t fl), set_st_file f' s) ∧ reliable f' ∧
    contents f' = contents (st_file s) ∧ durable f' = durable (st_file s).
Proof.
  intros Hw Hd Hds Hr Hl Hu Hsel Hloc Hck Hpages DB Hrev. destruct (db_refs _ _ _ DB) as [Hroot Hfree]. cbn [hroot hhw hfree heap_of] in *.
  unfold check_invariants. rewrite bind_eq. unfold get. rewrite Hw. cbn [is_none]. rewrite bind_eq. unfold flush_dirty_pages at 1.
  rewrite bind_eq. unfold get. rewrite Hw, Hds, bool_decide_eq_true_2 by done. cbn [is_none andb]. unfold ret at 1.
  rewrite bind_eq. unfold on_st_file at 1, zoom at 1. rewrite (len_reliable _ Hr), Hl.
  assert (1 ≤ st_high_water s) as Hhw1 by lia. rewrite (page_aligned_file _ Hhw1).
  set (s1 := set_st_file (st_file s) s). change (st_file s1) with (st_file s).
  rewrite bind_eq. unfold on_st_file at 1, zoom at 1. change (st_file s1) with (st_file s).
  destruct (read_superblocks_spec (st_file s) _ _ Hr Hl Hhw1 Hu Hsel) as (f1 & E1 & Hr1 & C1 & D1). rewrite E1.
  rewrite bind_eq. cbn [slot superblock]. set (s2 := set_st_file f1 s1).
  change (st_active_slot s2) with (st_active_slot s). change (st_superblock s2) with (st_superblock s).
  rewrite !bool_decide_eq_true_2 by done. cbn [andb]. rewrite bind_eq. unfold lift at 1. rewrite (metadata_spec _ _ _ _ Hloc Hroot Hfree Hu).
  change (st_root s2) with (st_root s). change (st_free_list_head s2) with (st_free_list_head s). change (st_high_water s2) with (st_high_water s).
  rewrite !Z.eqb_refl, bool_decide_eq_true_2 by done. cbn [andb]. rewrite bind_eq. change (st_wal s2) with (st_wal s). rewrite Hw.
  rewrite (proj2 (Z.ltb_ge _ _)) by done. cbn [negb]. unfold ret at 1. unfold on_st_file, zoom. change (st_file s2) with f1.
  assert (len (contents f1) ≤ U64_MAX) as Hroom by (rewrite C1, Hl; exact Hu).
  assert (∀ id p, hp (heap_of s base) !! id = Some p → in_range (heap_of s base) id → page_at (contents f1) id p) as Hholds.
  { intros id p Hp [Hi1 Hi2]. cbn [hp hhw heap_of] in *. rewrite C1. split; [rewrite Hl; unfold file_size; lia|]. by apply Hpages. }
  destruct (check_reads (contents f1) (heap_of s base) Hroom Hholds t fl DB Hrev f1 eq_refl) as (C2 & D2 & Hok & Hrel).
  cbn [hhw hroot hfree heap_of] in *. destruct (check _ _ _ f1) as [r f2]. cbn [fst snd] in *.
  destruct Hok as [->|(e & _ & Hnr)]; [|done]. exists f2. split_and!; [done|auto|congruence|congruence].
Qed.

Lemma validate_identity_spec sb identity : sb_identity sb = identity → validate_superblock_identity sb identity = Ok tt.
Proof.
  intros <-. unfold validate_superblock_identity, sb_identity. cbn [id_uuid id_tenant id_shard id_epoch].
  by rewrite bytes_eqb_refl, !Z.eqb_refl.
Qed.

(** The check of the data file before the log is opened. *)
Lemma identity_validated identity (f : F) sel n wal_length :
  reliable f → len (contents f) = file_size n → 1 ≤ n → file_size n ≤ U64_MAX →
  choose_superblock (page_bytes (contents f) 0) (page_bytes (contents f) 1) = Ok sel → sb_identity (superblock sel) = identity →
  ∃ f', validate_existing_identity_before_wal identity wal_length f = (Ok (Some (checkpoint_lsn (superblock sel))), f') ∧
    reliable f' ∧ contents f' = contents f ∧ durable f' = durable f.
Proof.
  intros Hr Hl Hn Hu Hsel Hid. unfold validate_existing_identity_before_wal. rewrite bind_eq, (len_reliable f Hr), Hl.
  rewrite (proj2 (Z.eqb_neq _ 0)) by (unfold file_size; lia). rewrite page_aligned_file by done. cbn [negb]. unfold file_size in *.
  destruct (read_page_reliable f 0 Hr) as (f1 & E1 & Hr1 & C1 & D1); [lia..|].
  destruct (read_page_reliable f1 1 Hr1) as (f2 & E2 & Hr2 & C2 & D2); [rewrite ?C1; lia..|].
  change SUPERBLOCK_A_OFFSET with (0 * PAGE_SIZE). change SUPERBLOCK_B_OFFSET with (1 * PAGE_SIZE).
  rewrite bind_eq, E1, bind_eq, E2, C1, bind_eq. unfold attempt, lift at 1. rewrite Hsel. rewrite bind_eq. unfold lift.
  rewrite (validate_identity_spec _ _ Hid). exists f2. split_and!; [done|done|congruence|congruence].
Qed.

End check.

(** ** Databases in files *)

(** The LSN of the last commit. *)
Definition newest_lsn (bs : list CommittedWalBatch) (checkpoint : Lsn) : Lsn :=
  match last bs with Some b => b_commit_lsn b | None => checkpoint end.

Section open.
Context `{Crc32c} {F W I : Type} `{DFL : DurableFileLaws F} `{WFL : DurableFileLaws W} `{FaultInjector I}.

(** The data file with the bytes [c] and a log with the batches [bs] hold the
    pages of [env], with the metadata of [g]. *)
Record on_disk (config : DatabaseConfig) (c : list byte) (bs : list CommittedWalBatch) (env : Env) (g : Heap) : Prop := {
  od_pages : recoverable c (live (checkpoint_lsn (e_superblock env)) bs) (e_clean env) (e_superblock env) (e_slot env) (hhw g);
  od_identity : sb_identity (e_superblock env) = config_identity config;
  od_lsns : map_Forall (λ _ p, PageData_lsn p < hnext g) (e_clean env);
  od_batches : Forall (λ b, b_commit_lsn b < hnext g) bs;
  od_limit : hnext g ≤ U64_MAX;
  od_latest : hnext g = newest_lsn bs (checkpoint_lsn (e_superblock env)) + 1;
  od_checkpoint : 0 ≤ checkpoint_lsn (e_superblock env) ≤ newest_lsn bs (checkpoint_lsn (e_superblock env));
  od_hw : high_water_page_id (e_superblock env) = Some (hhw g);
  od_next : 0 < hnext g ≤ e_next_lsn env
}.

(** They hold the database [db]. *)
Record stored (config : DatabaseConfig) (c : list byte) (bs : list CommittedWalBatch) (env : Env) (g : Heap) (D : nat)
    (db : ReferenceDb) : Prop := {
  so_disk : on_disk config c bs env g;
  so_holding : holding env g D db
}.

Lemma holding_env env env' g D db :
  holding env g D db → e_clean env' = e_clean env → e_superblock env' = e_superblock env → hnext g ≤ e_next_lsn env' →
  0 ≤ e_batch_id env' → holding env' g D db.
Proof.
  intros [] Ec Es Hl Hb. split; rewrite ?Ec, ?Es; try done. lia.
Qed.

(** The revisions end with the database's next LSN. *)
Lemma tip_report env g D db t fl :
  holding env g D db → db_at g t fl → states_of (entries t) = states db → max_revision (report_of t fl) + 1 = hnext g.
Proof.
  intros R DB Hm. pose proof (rd_pos _ _ _ _ R) as Hpos. pose proof (rd_revs _ _ _ _ R) as Hrevs.
  pose proof (entries_revs (λ r, 0 < r < hnext g) t (db_ordered _ _ _ DB) (db_fits _ _ _ DB)) as Hr. rewrite Hm in Hr. specialize (Hr Hrevs).
  cbn [report_of max_revision]. assert (∀ l m, m ≤ foldl Z.max m l ∧ (∀ x, x ∈ l → x ≤ foldl Z.max m l) ∧
    ∀ b, m ≤ b → Forall (λ x, x ≤ b) l → foldl Z.max m l ≤ b) as Hfold.
  { induction l as [|x l IH]; intros m; simpl.
    - split_and!; [lia|by intros ? ?%not_elem_of_nil|done].
    - destruct (IH (Z.max m x)) as (I1 & I2 & I3). split_and!; [lia| |].
      + intros y [->|Hy]%elem_of_cons; [lia|auto].
      + intros b Hb [? ?]%Forall_cons. apply I3; [lia|done]. }
  destruct (Hfold (ge_rev <$> entries t) 0) as (F1 & F2 & F3). specialize (F3 (hnext g - 1)).
  apply Z.le_antisymm.
  - assert (foldl Z.max 0 (ge_rev <$> entries t) ≤ hnext g - 1); [|lia]. apply F3; [lia|]. apply Forall_fmap.
    eapply Forall_impl; [exact Hr|]. simpl. lia.
  - rewrite (rd_next _ _ _ _ R). destruct (rd_tip _ _ _ _ R) as [[_ E]|(k & s & Hk & Hs)]; [lia|]. rewrite <- Hm in Hk.
    apply elem_of_list_to_map_2, list_elem_of_fmap in Hk as (e & [= -> ->] & He). rewrite state_revision in Hs.
    specialize (F2 (ge_rev e) (list_elem_of_fmap_2 _ _ _ He)). lia.
Qed.

Lemma holding_revs env g D db t fl :
  holding env g D db → db_at g t fl → states_of (entries t) = states db → revs_pos (entries t).
Proof.
  intros R DB Hm. pose proof (entries_revs (λ r, 0 < r < hnext g) t (db_ordered _ _ _ DB) (db_fits _ _ _ DB)) as Hr. rewrite Hm in Hr.
  eapply Forall_impl; [apply Hr, (rd_revs _ _ _ _ R)|]. simpl. lia.
Qed.

Lemma committed_bound lsn batch segs b :
  WalScan.chain lsn batch segs → b ∈ history_committed segs → b_commit_lsn b ≤ chain_lsn lsn segs.
Proof.
  unfold history_committed. intros Hc (s & -> & [Hd Hs]%list_elem_of_filter)%list_elem_of_fmap. revert lsn batch Hc.
  induction Hs as [segs|s' segs Hs IH]; intros lsn batch (_ & _ & Hwf & Hc); simpl.
  - pose proof (chain_lsn_mono _ _ _ Hc). unfold sg_last in *. rewrite Hd in *. lia.
  - by eapply IHHs.
Qed.

(** The pages [d] and the superblock [dsb] that are not yet written to a data
    file with the bytes [c] are what replaying the log would write. *)
Definition unwritten (d : gmap PageId (list byte)) (dsb : option (list byte)) (sl : SuperblockSlot) (sb : Superblock) (hw : PageId)
    (c : list byte) (L : Logged) : Prop :=
  (∀ id bytes, d !! id = Some bytes → FIRST_DATA_PAGE ≤ id ≤ hw) ∧
  (∀ id, FIRST_DATA_PAGE ≤ id ≤ hw → replayed c L id = default (page_bytes c id) (d !! id)) ∧
  match dsb with
  | Some bytes => replayed c L (slot_page sl) = bytes ∧ decode_superblock bytes = Ok sb ∧
      ∃ sel, choose_superblock (page_bytes c 0) (page_bytes c 1) = Ok sel ∧ generation (superblock sel) < generation sb
  | None => d = ∅ ∧ choose_superblock (page_bytes c 0) (page_bytes c 1) = Ok {| slot := sl; superblock := sb |}
  end.

Definition write_back (s : BTreeStore F W I) : list byte → Logged → Prop :=
  unwritten (st_dirty_pages s) (st_dirty_superblock s) (st_active_slot s) (st_superblock s) (st_high_water s).

(** A store in service whose files hold its database at any moment. *)
Record sound (s : BTreeStore F W I) (base : gmap PageId PageData) (D : nat) (db : ReferenceDb) : Prop := {
  sd_serving : serving s base D db;
  sd_config : wf_config (st_config s);
  sd_durable : durable (st_file s) = contents (st_file s);
  sd_log : ∃ w v start segs, st_wal s = Some w ∧ wal_ready w v (config_identity (st_config s)) start segs ∧
    start ≤ checkpoint_lsn (st_superblock s) ∧ len (contents (w_file w)) ≤ U64_MAX ∧
    stored (st_config s) (contents (st_file s)) (w_committed w) (env_of s base) (heap_of s base) D db ∧
    write_back s (contents (st_file s)) (live (checkpoint_lsn (st_superblock s)) (w_committed w))
}.

(** The store [open_with_wal] makes of a recovered data file. *)
Definition reopened (config : DatabaseConfig) (f : F) (wal : WalLog W) (env : Env) (g : Heap) : BTreeStore F W I :=
  set_st_next_batch_id (w_next_batch_id wal) (set_st_next_lsn (w_next_lsn wal) (set_st_next_revision (hnext g)
    (make_store f (Some wal) (e_superblock env) (e_slot env) (hroot g) (hfree g) (hhw g) 0 config None))).

Lemma latest_newest (w : WalLog W) ck : latest_lsn w ck = newest_lsn (w_committed w) ck.
Proof. done. Qed.

Lemma newest_bound (w : WalLog W) v id start segs ck :
  wal_ready w v id start segs → ck < w_next_lsn w → newest_lsn (w_committed w) ck < w_next_lsn w.
Proof.
  intros ((Hok & _ & _ & _ & _ & -> & _) & Hlt) Hck. unfold newest_lsn. destruct (last _) as [b|] eqn:E; [|done].
  rewrite last_lookup in E. apply list_elem_of_lookup_2 in E. destruct Hok as (_ & _ & _ & Hch & _).
  pose proof (committed_bound _ _ _ _ Hch E). lia.
Qed.

Lemma sv_holding (s : BTreeStore F W I) base D db : serving s base D db → holding (env_of s base) (heap_of s base) D db.
Proof. intros [[R _ _ _ _] _ _ _]. exact R. Qed.

(** The recovered data file, with everything written. *)
Lemma reopened_write_back config (f : F) (wal : WalLog W) env g c L :
  recoverable c L (e_clean env) (e_superblock env) (e_slot env) (hhw g) → len (contents f) = file_size (hhw g) →
  (∀ id, 0 ≤ id ≤ hhw g → page_bytes (contents f) id = replayed c L id) → write_back (reopened config f wal env g) (contents f) L.
Proof.
  intros R Hl Hp. destruct (recoverable_replayed _ _ _ _ _ _ _ R Hl Hp) as [_ Hsel]. split_and!; simpl; try done.
  intros id Hid. unfold replayed at 1. destruct (newest id L) as [x|] eqn:E; [|done].
  rewrite Hp by lia. unfold replayed. by rewrite E.
Qed.

Lemma reopened_serving config (f : F) (wal : WalLog W) v id start segs env g D db :
  holding env g D db → wf_config config → reliable f → reliable (w_file wal) → durable (w_file wal) = contents (w_file wal) →
  wal_ready wal v id start segs → hnext g ≤ w_next_lsn wal →
  (∀ i p, e_clean env !! i = Some p → committed_page (reopened config f wal env g) i p) →
  serving (reopened config f wal env g) (e_clean env) D db.
Proof.
  intros R Hcfg Hr Hrw Hd Hw Hn Hp. pose proof Hw as ((Hok & _ & _ & _ & _ & _ & Hb & _) & _).
  assert (heap_of (reopened config f wal env g) (e_clean env) = g) as Eg.
  { pose proof (rd_dirty _ _ _ _ R). pose proof (rd_last _ _ _ _ R). pose proof (rd_pages _ _ _ _ R). destruct g. simpl in *. subst. done. }
  assert (0 ≤ w_next_batch_id wal) as Hb0.
  { rewrite Hb. destruct Hok as (_ & _ & _ & Hch & _). apply chain_batch_mono in Hch. lia. }
  split; [split|..]; try done.
  - rewrite Eg. split; [|done]. eapply holding_env; [exact R|done..].
  - apply Hcfg.
  - by exists wal, v, id, start, segs.
Qed.

(** Opening, up to the check of the recovered tree. *)
Lemma open_recovers_file config (f : F) (w : W) i (wal : WalLog W) v start segs env g D db
    (ck := checkpoint_lsn (e_superblock env)) :
  reliable f → durable f = contents f → reliable w → stored config (contents f) (w_committed wal) env g D db →
  open_with_fault_injector_and_start_lsn (I:=I) (config_identity config) ck (w, None) = (Ok wal, (w_file wal, None)) →
  wal_at wal v (config_identity config) start segs → start ≤ ck →
  ∃ f' wal', reliable f' ∧ durable f' = contents f' ∧ len (contents f') = file_size (hhw g) ∧
    (∀ id, 0 ≤ id ≤ hhw g → page_bytes (contents f') id = replayed (contents f) (live ck (w_committed wal)) id) ∧
    wal_ready wal' v (config_identity config) start segs ∧ w_committed wal' = w_committed wal ∧ w_file wal' = w_file wal ∧ ck < w_next_lsn wal' ∧
    open_with_wal config (f, w, i) =
      (let '(r, store) := check_invariants (make_store f' (Some wal') (e_superblock env) (e_slot env) (hroot g) (hfree g) (hhw g) 0 config (@None I)) in
       (let? report := r in resume_counters report wal' store, (st_file store, w_file wal', st_injector store))).
Proof.
  intros Hr Hd Hrw So Ew Hat Hst. destruct So as [[Rc Hid _ _ Hlim Hlatest Hck _ _] Hold]. fold ck in Rc, Hlatest, Hck.
  destruct (rc_file _ _ _ _ _ _ Rc) as (n & Hn & Hnw). destruct (rc_before _ _ _ _ _ _ Rc) as (sel & Hsel & Hcks & Hids & _).
  pose proof (rc_bound _ _ _ _ _ _ Rc) as Hu. assert (file_size n ≤ U64_MAX) as Hun by (unfold file_size in *; lia).
  unfold open_with_wal. rewrite bind_eq. unfold modify. cbn [fst snd]. unfold open_with_wal_internal. rewrite bind_eq. cbn [fst snd].
  rewrite (len_reliable w Hrw). rewrite bind_eq. unfold on_data at 1, zoom at 1. cbn [fst snd].
  destruct (identity_validated (config_identity config) f sel n (len (contents w)) Hr Hn ltac:(lia) Hun Hsel) as (f1 & E1 & Hr1 & C1 & D1);
    [congruence|].
  rewrite E1. cbn [default from_option]. rewrite Hcks. fold ck. rewrite bind_eq. unfold on_log, zoom at 1. cbn [fst snd]. change (id ck) with ck. rewrite Ew.
  rewrite bind_eq. unfold on_data at 1, zoom at 1, file_is_empty. cbn [fst snd]. rewrite (len_reliable f1 Hr1), C1, Hn. cbn [rbind].
  rewrite bind_eq. unfold gets. cbn [snd]. rewrite (proj2 (Z.eqb_neq (file_size n) 0)) by (unfold file_size; lia). cbn [andb].
  rewrite bind_eq. unfold on_data_injected, zoom at 1. cbn [fst snd].
  assert (recoverable (contents f1) (live ck (w_committed wal)) (e_clean env) (e_superblock env) (e_slot env) (hhw g)) as Rc1 by (by rewrite C1).
  destruct (recover_spec (I:=I) (w_committed wal) ck f1 _ _ _ _ Hr1 Rc1) as (f2 & E2 & Hr2 & L2 & P2 & D2). rewrite E2.
  rewrite C1 in P2. destruct (recoverable_replayed _ _ _ _ _ _ _ Rc L2 P2) as [_ Hsel2].
  rewrite bind_eq. unfold on_data at 1, zoom at 1. cbn [fst snd]. rewrite (len_reliable f2 Hr2), L2.
  rewrite page_aligned_file by lia. rewrite bind_eq. unfold on_data at 1, zoom at 1. cbn [fst snd].
  destruct (read_superblocks_spec f2 _ _ Hr2 L2 ltac:(lia) Hu Hsel2) as (f3 & E3 & Hr3 & C3 & D3). rewrite E3. cbn [superblock slot].
  rewrite bind_eq. unfold lift at 1. rewrite (validate_identity_spec _ _ Hid). rewrite bind_eq. unfold lift at 1.
  pose proof (rd_tree _ _ _ _ Hold) as (t & fl & DB & _ & _ & Hm). destruct (db_refs _ _ _ DB) as [Hroot Hfree].
  rewrite (metadata_spec _ _ _ _ (rd_locates _ _ _ _ Hold) Hroot Hfree Hu). fold ck.
  assert (start ≤ ck < U64_MAX) as Hb by lia.
  destruct (resume_after_ready v (config_identity config) start segs ck (wal, @None I) Hat Hb) as (wal' & E4 & Hready & Hcom & Hwf & Hlt & _).
  cbn [fst snd] in *. rewrite E4. rewrite bind_eq. unfold lift.
  exists f3, wal'. rewrite C3. split_and!; try done. rewrite D3. apply D2. congruence.
Qed.

(** Opening the files of a database returns a store in service that represents
    it. *)
Lemma open_stored config (f : F) (w : W) i (wal : WalLog W) v start segs env g D db
    (ck := checkpoint_lsn (e_superblock env)) :
  wf_config config → reliable f → durable f = contents f → reliable w → stored config (contents f) (w_committed wal) env g D db →
  open_with_fault_injector_and_start_lsn (I:=I) (config_identity config) ck (w, None) = (Ok wal, (w_file wal, None)) →
  wal_at wal v (config_identity config) start segs → start ≤ ck →
  reliable (w_file wal) → durable (w_file wal) = contents (w_file wal) → len (contents (w_file wal)) ≤ U64_MAX →
  ∃ s out, open_with_wal config (f, w, i) = (Ok s, out) ∧ sound s (e_clean env) D db ∧ st_config s = config.
Proof.
  intros Hcfg Hr Hd Hrw So Ew Hat Hst Hrl Hdl Hul.
  destruct (open_recovers_file config f w i wal v start segs env g D db Hr Hd Hrw So Ew Hat Hst)
    as (f' & wal' & Hr' & Hd' & Hl' & Hp' & Hready & Hcom & Hwf & Hlt & E). rewrite E. clear E.
  pose proof So as [[Rc Hid Hlsns Hbs Hlim Hlatest Hck Hhw Hnx] Hold]. fold ck in Rc, Hlatest, Hck, Hlt.
  destruct (recoverable_replayed _ _ _ _ _ _ _ Rc Hl' Hp') as [Rc' Hsel].
  pose proof (rd_tree _ _ _ _ Hold) as (t & fl & DB & Hbal & Hsmall & Hm).
  set (s0 := make_store f' (Some wal') (e_superblock env) (e_slot env) (hroot g) (hfree g) (hhw g) 0 config (@None I)).
  pose proof (tip_report _ _ _ _ _ _ Hold DB Hm) as Htip.
  assert (db_at (heap_of s0 (e_clean env)) t fl) as DB0.
  { destruct DB as [[O1 O2 O3 O4 O5] Ho Hf Hroot]. pose proof (rd_pages _ _ _ _ Hold) as Ep.
    split; [split|..]; cbn [heap_of hp hfree hhw hdirty hroot]; rewrite <- ?Ep; try done. }
  pose proof (holding_revs _ _ _ _ _ _ Hold DB Hm) as Hpos.
  assert (∀ id p, e_clean env !! id = Some p → FIRST_DATA_PAGE ≤ id ≤ hhw g ∧ decodes (page_bytes (contents f') id) id p) as Hpages.
  { intros id p Hp. destruct (rc_pages _ _ _ _ _ _ Rc id p Hp) as [Hin Hdec]. rewrite Hp' by lia. by split. }
  destruct (check_clean_spec s0 (e_clean env) t fl wal') as (f2 & E2 & Hr2 & C2 & D2); try done.
  { exact (rc_bound _ _ _ _ _ _ Rc). }
  { exact (rd_locates _ _ _ _ Hold). }
  { rewrite latest_newest, Hcom. apply Hck. }
  { intros id p Hp. by apply Hpages. }
  rewrite E2. cbn [rbind]. unfold resume_counters, next_revision_after.
  assert (Z.max (max_revision (report_of t fl)) (latest_lsn wal' 0) + 1 = hnext g) as Emax.
  { rewrite latest_newest, Hcom. unfold newest_lsn in *. destruct (last (w_committed wal)); lia. }
  unfold checked_add. rewrite Emax, (proj2 (Z.leb_le _ _)) by done. cbn [ok_or rbind].
  eexists _, _. split; [reflexivity|]. change (sound (reopened config f2 wal' env g) (e_clean env) D db ∧ config = config). split; [|done].
  cbn [st_file s0 make_store] in C2, D2.
  assert (serving (reopened config f2 wal' env g) (e_clean env) D db) as Sv.
  { eapply reopened_serving; [done|done|done|congruence|congruence|done| |].
    + rewrite Hlatest. rewrite <- Hcom in *. pose proof (newest_bound _ _ _ _ _ _ Hready Hlt). lia.
    + intros id p Hp. destruct (Hpages id p Hp) as [Hin Hdec]. split; [lia|]. change (st_file (reopened config f2 wal' env g)) with f2. rewrite C2, Hl'.
      split; [pose proof (rc_bound _ _ _ _ _ _ Rc); unfold file_size in *; lia|exact Hdec]. }
  split; [done|done|..].
  - change (durable f2 = contents f2). congruence.
  - set (s1 := reopened config f2 wal' env g). exists wal', v, start, segs.
    change (st_file s1) with f2. change (st_wal s1) with (Some wal'). change (st_superblock s1) with (e_superblock env).
    change (st_config s1) with config. fold ck. rewrite Hwf, C2, Hcom. split_and!; try done.
    + split; [|exact (sv_holding _ _ _ _ Sv)]. split; try done. exact (rd_pos _ _ _ _ (sv_holding _ _ _ _ Sv)).
    + rewrite <- C2. apply (reopened_write_back config f2 wal' env g (contents f)); [exact Rc|congruence|]. by rewrite C2.
Qed.

End open.
