(* ===== verification/Durable.v ===== *)
(** * Durable: commits, flushes and checkpoints keep the database on disk

    What [publish_prepared_group], [flush_dirty_pages] and [checkpoint] leave
    in the two files is the database at every moment: a crash followed by
    [open_with_wal] returns to it. *)

From S2P Require Import Prelude Core Crc Page Superblock DurableFile Wal WalCodec WalScan WalLog WalOpen WalSafety Format FormatCodec Cache Reference StoreState Store Checker Engine Heap Tree Own Split TreeOps Point ReadOps CheckerSpec Restamp Finish Txn Group Disk Create Recover.

Section choose.
Context `{Crc32c}.

(** A superblock of a higher generation is chosen, whichever copy it replaces. *)
Lemma choose_newer (p q : PageId → list byte) sel sl sb bytes :
  choose_superblock (p 0) (p 1) = Ok sel → q (slot_page sl) = bytes → q (slot_page (other_slot sl)) = p (slot_page (other_slot sl)) →
  decode_superblock bytes = Ok sb → generation (superblock sel) < generation sb →
  choose_superblock (q 0) (q 1) = Ok {| slot := sl; superblock := sb |}.
Proof.
  intros Hsel Hb Ho Hd Hg. unfold choose_superblock in *. destruct sl; cbn [slot_page other_slot] in *; rewrite Hb, Ho, Hd.
  - destruct (decode_superblock (p 1)) as [b|e| |] eqn:Eb.
    + rewrite (proj2 (Z.leb_le _ _)); [done|]. destruct (decode_superblock (p 0)) as [a|[]| |]; try discriminate Hsel.
      all: try (destruct (_ <=? _) eqn:El in Hsel; bool_props); injection Hsel as <-; simpl in *; lia.
    + destruct (decode_superblock (p 0)) as [a|[]| |], e; done.
    + destruct (decode_superblock (p 0)) as [a|[]| |]; done.
    + destruct (decode_superblock (p 0)) as [a|[]| |]; done.
  - destruct (decode_superblock (p 0)) as [a|e| |] eqn:Ea.
    + rewrite (proj2 (Z.leb_gt _ _)); [done|]. destruct (decode_superblock (p 1)) as [b|[]| |]; try discriminate Hsel.
      all: try (destruct (_ <=? _) eqn:El in Hsel; bool_props); injection Hsel as <-; simpl in *; lia.
    + destruct (decode_superblock (p 1)) as [b|[]| |], e; done.
    + destruct (decode_superblock (p 1)) as [b|[]| |]; done.
    + destruct (decode_superblock (p 1)) as [b|[]| |]; done.
Qed.

End choose.

(** ** Appending a batch to the log *)

Lemma newest_batch com imgs img :
  NoDup (img_page_id <$> imgs) → img ∈ imgs → newest (img_page_id img) (pair com <$> imgs) = Some (com, img).
Proof.
  intros Hnd Hin. assert ((com, img) ∈ (pair com <$> imgs)) as Hx by (by apply list_elem_of_fmap_2).
  destruct (newest_in _ _ Hx) as [y Hy]. cbn [snd] in Hy. rewrite Hy. apply newest_Some in Hy as [Hy Hid].
  apply list_elem_of_fmap in Hy as (img' & -> & Hin'). cbn [snd] in Hid. do 2 f_equal.
  apply list_elem_of_lookup in Hin as [i Hi]. apply list_elem_of_lookup in Hin' as [j Hj].
  assert (i = j) as ->; [|congruence]. eapply (NoDup_lookup (img_page_id <$> imgs)); [done|rewrite list_lookup_fmap, Hi; done|].
  rewrite list_lookup_fmap, Hj. simpl. by rewrite Hid.
Qed.

Lemma batch_sorted com imgs : NoDup (img_page_id <$> imgs) → StronglySorted later (pair com <$> imgs).
Proof.
  induction imgs as [|img imgs IH]; [constructor|]. rewrite fmap_cons. intros [Hn Hnd]%NoDup_cons. rewrite fmap_cons.
  constructor; [by apply IH|]. apply Forall_forall. intros x (y & -> & Hy)%list_elem_of_fmap E. destruct Hn.
  cbn [snd] in E. rewrite E. by apply list_elem_of_fmap_2.
Qed.

Section append.
Context `{Crc32c} {F W I : Type} `{DFL : DurableFileLaws F} `{WFL : DurableFileLaws W} `{FaultInjector I}.

Lemma decoded_len bytes id d : decode_page_at bytes (Some id) = Ok d → len bytes = PAGE_SIZE.
Proof. unfold decode_page_at. intros Hd. destruct (len bytes =? PAGE_SIZE) eqn:E; [|done]. by bool_props. Qed.

Lemma decode_superblock_len bytes sb : decode_superblock bytes = Ok sb → len bytes = PAGE_SIZE.
Proof. unfold decode_superblock. intros Hd. destruct (len bytes =? PAGE_SIZE) eqn:E; [|done]. by bool_props. Qed.

Section commit.
Context (s0 : BTreeStore F W I) (env env' : Env) (g' : Heap) (com : Lsn) (pb : PreparedBatch) (bytes : list byte) (cmt : WalCommit).
Context (c : list byte) (L : Logged) (hw : PageId).
Hypothesis Cm : commits s0 env env' g' com pb.
Hypothesis Hlog : logged_as pb bytes cmt.
Hypothesis Rc : recoverable c L (e_clean env) (e_superblock env) (e_slot env) hw.
Hypothesis Hhw : high_water_page_id (e_superblock env) = Some hw.
Hypothesis Hpages : map_Forall (λ _ p, PageData_lsn p < com) (e_clean env).
Hypothesis Hlsns : Forall (λ x, x.1 < com) L.
Hypothesis Hbound : file_size (hhw g') ≤ U64_MAX.

Definition batch_log : Logged := pair com <$> c_pages cmt.
Abbreviation NEW := batch_log.

Lemma new_changed id image : changed_pages pb !! id = Some image → newest id NEW = Some (com, mkImage id image).
Proof.
  intros Hi. destruct Hlog as (_ & _ & Hnd & Hin). apply (newest_batch com (c_pages cmt) (mkImage id image)); [done|].
  apply Hin. by left.
Qed.

Lemma new_superblock_image : newest (slot_page (new_slot pb)) NEW = Some (com, mkImage (slot_page (new_slot pb)) bytes).
Proof.
  destruct Hlog as (_ & _ & Hnd & Hin). apply (newest_batch com (c_pages cmt) (mkImage (slot_page (new_slot pb)) bytes)); [done|].
  apply Hin. by right.
Qed.

(** Every new image is one of these. *)
Lemma new_cases id x :
  newest id NEW = Some x → x.1 = com ∧ img_page_id x.2 = id ∧
    ((∃ p, changed_decoded pb !! id = Some p ∧ changed_pages pb !! id = Some (img_bytes x.2)) ∨
     (id = slot_page (new_slot pb) ∧ img_bytes x.2 = bytes)).
Proof.
  intros [Hx Hid]%newest_Some. apply list_elem_of_fmap in Hx as (img & -> & Himg). cbn [fst snd] in *. split_and!; [done|done|].
  destruct Hlog as (_ & _ & _ & Hin). apply Hin in Himg as [Hc| ->]; [left|right; by cbn in *].
  rewrite Hid in Hc. destruct (changed_decoded pb !! id) as [p|] eqn:E; [by exists p|].
  by rewrite (cm_dom _ _ _ _ _ _ Cm _ E) in Hc.
Qed.

Lemma slot_below sl : 0 ≤ slot_page sl < FIRST_DATA_PAGE.
Proof. destruct sl; simpl; lia. Qed.

(** A data page of the new state. *)
Lemma commit_page id p :
  e_clean env' !! id = Some p →
  (changed_decoded pb !! id = Some p ∧ FIRST_DATA_PAGE ≤ id ≤ hhw g' ∧ PageData_lsn p = com ∧
     ∃ image, newest id NEW = Some (com, mkImage id image) ∧ len image = PAGE_SIZE ∧ decodes image id p) ∨
  (changed_decoded pb !! id = None ∧ e_clean env !! id = Some p ∧ FIRST_DATA_PAGE ≤ id ≤ hw ∧ newest id NEW = None).
Proof.
  rewrite (cm_pages _ _ _ _ _ _ Cm). destruct (changed_decoded pb !! id) as [q|] eqn:E.
  - rewrite (lookup_union_Some_l _ _ _ _ E). intros [= ->]. left. destruct (cm_image _ _ _ _ _ _ Cm id p E) as (Hr & Hl & image & Hi & Hlen & Hdec).
    split_and!; try done; try apply Hr. exists image. split_and!; [by apply new_changed|done|done].
  - rewrite lookup_union_r by done. intros Hp. right. destruct (rc_pages _ _ _ _ _ _ Rc id p Hp) as [Hr _]. split_and!; try done; try lia.
    destruct (newest id NEW) as [x|] eqn:Ex; [|done]. destruct (new_cases id x Ex) as (_ & _ & [(p' & ? & _)|[-> _]]); [congruence|].
    pose proof (slot_below (new_slot pb)). lia.
Qed.

Lemma commit_hw : hw ≤ hhw g'.
Proof. by apply (cm_grow _ _ _ _ _ _ Cm). Qed.

Lemma commit_images : Forall (wf_logged (hhw g')) (L ++ NEW).
Proof.
  pose proof commit_hw. apply Forall_app. split.
  { eapply Forall_impl; [apply Rc|]. intros x (Hid & Hx). split; [lia|done]. }
  apply Forall_forall. intros x Hx. destruct (newest_in _ _ Hx) as [y Hy].
  assert (x = y) as <-.
  { apply list_elem_of_fmap in Hx as (img & -> & Himg). destruct Hlog as (_ & _ & Hnd & _). cbn [snd] in Hy.
    pose proof (newest_batch com (c_pages cmt) img Hnd Himg) as E. fold NEW in E. congruence. }
  destruct (new_cases _ _ Hy) as (Hl & _ & [(p & Hp & Hc)|[Hid Hb]]).
  - destruct (cm_image _ _ _ _ _ _ Cm _ p Hp) as ([Hr1 Hr2] & Hpl & image & Hi & Hlen & d & Hd & Hpd). rewrite Hi in Hc. injection Hc as ->.
    split; [lia|]. split; [done|]. intros _. exists d. split; [done|]. by rewrite <- (decode_lsn _ _ Hpd), Hl.
  - unfold wf_logged. rewrite Hid. pose proof (slot_below (new_slot pb)). destruct (rc_file _ _ _ _ _ _ Rc) as (n & _ & Hn). split; [lia|]. split; [|lia].
    rewrite Hb. destruct Hlog as (Hsb & _). by eapply decode_superblock_len.
Qed.

Lemma commit_order : StronglySorted later (L ++ NEW).
Proof.
  apply StronglySorted_app_2; [|apply Rc|apply batch_sorted, Hlog].
  intros x y Hx (img & -> & _)%list_elem_of_fmap _. cbn [fst]. eapply Forall_forall in Hlsns; [|exact Hx]. done.
Qed.

Lemma commit_stale id x : newest id (L ++ NEW) = Some x → not_newer (page_bytes c id) id x.
Proof.
  rewrite newest_app. destruct (newest id NEW) as [y|] eqn:Ey; [|by apply Rc].
  intros [= <-] [Hf _] d Hd. destruct (new_cases id y Ey) as (-> & _ & Hy).
  destruct (newest id L) as [z|] eqn:Ez.
  - pose proof (newest_Some _ _ _ Ez) as [Hz Hzid]. pose proof Hlsns as Hlt. eapply Forall_forall in Hlt; [|exact Hz].
    destruct (decide (page_bytes c id = img_bytes z.2)) as [E|Hne].
    + pose proof (rc_images _ _ _ _ _ _ Rc) as Hwf. eapply Forall_forall in Hwf as (_ & _ & Hz2); [|exact Hz].
      destruct Hz2 as (d' & Hd' & Hl'); [lia|]. rewrite Hzid, <- E in Hd'. assert (d' = d) as -> by congruence. simpl in *. lia.
    + pose proof (rc_stale _ _ _ _ _ _ Rc id z Ez (conj Hf Hne) d Hd). simpl in *. lia.
  - destruct (decide (id ≤ hw)) as [Hle|Hgt].
    + destruct (rc_cover _ _ _ _ _ _ Rc id) as [p Hp]; [lia|]. destruct (rc_pages _ _ _ _ _ _ Rc id p Hp) as (_ & d' & Hd' & Hp').
      unfold replayed in Hd'. rewrite Ez in Hd'. assert (d' = d) as -> by congruence. rewrite <- (decode_lsn _ _ Hp'). by apply (Hpages id).
    + apply decoded_len in Hd. destruct (rc_file _ _ _ _ _ _ Rc) as (n & Hn & Hnw). unfold page_bytes, sub, file_size, len in *.
      rewrite length_take, length_drop in Hd. lia.
Qed.

Lemma commit_reach : len c = file_size (hhw g') ∨ is_Some (newest (hhw g') (L ++ NEW)).
Proof.
  pose proof commit_hw as Hle. rewrite newest_app. destruct (decide (hhw g' = hw)) as [E|Hne].
  - rewrite E. destruct (rc_reach _ _ _ _ _ _ Rc) as [?|[x Hx]]; [by left|right]. rewrite Hx. by destruct (newest hw NEW).
  - destruct (rc_file _ _ _ _ _ _ Rc) as (n & _ & Hn). destruct (cm_cover _ _ _ _ _ _ Cm (hhw g')) as [p Hp]; [lia|].
    destruct (commit_page _ p Hp) as [(_ & _ & _ & image & Hi & _)|(_ & _ & Hr & _)]; [|lia]. right. by rewrite Hi.
Qed.

Lemma commit_superblock : choose_superblock (replayed c (L ++ NEW) 0) (replayed c (L ++ NEW) 1) =
  Ok {| slot := e_slot env'; superblock := e_superblock env' |}.
Proof.
  destruct (cm_slot _ _ _ _ _ _ Cm) as [Es Es']. destruct (cm_generation _ _ _ _ _ _ Cm) as [_ Hg]. pose proof new_superblock_image as Hn. rewrite Es in Hn.
  apply (choose_newer (replayed c L) (replayed c (L ++ NEW)) _ (e_slot env') (e_superblock env') bytes (rc_after _ _ _ _ _ _ Rc)).
  - unfold replayed. by rewrite newest_app, Hn.
  - unfold replayed. rewrite newest_app. destruct (newest (slot_page (other_slot (e_slot env'))) NEW) as [x|] eqn:Ex; [|done].
    destruct (new_cases _ _ Ex) as (_ & _ & [(p & Hp & _)|[E _]]).
    + destruct (cm_image _ _ _ _ _ _ Cm _ p Hp) as ([Hr _] & _). pose proof (slot_below (other_slot (e_slot env'))). lia.
    + rewrite Es in E. by destruct (e_slot env').
  - destruct Hlog as (Hsb & _). by rewrite <- (cm_superblock _ _ _ _ _ _ Cm).
  - simpl. lia.
Qed.

Lemma commit_older sb : older_copy sb (e_superblock env) → older_copy sb (e_superblock env').
Proof.
  destruct (cm_fields _ _ _ _ _ _ Cm) as [_ ->]. intros (Hc & Hi & Hg). split_and!; [exact Hc|exact Hi|]. simpl. lia.
Qed.

Lemma recoverable_commit : recoverable c (L ++ NEW) (e_clean env') (e_superblock env') (e_slot env') (hhw g').
Proof.
  pose proof commit_hw as Hle. split.
  - destruct (rc_file _ _ _ _ _ _ Rc) as (n & Hn & Hnw). exists n. split; [done|lia].
  - exact Hbound.
  - apply commit_images.
  - apply commit_order.
  - apply commit_reach.
  - destruct (rc_before _ _ _ _ _ _ Rc) as (sel & Hsel & Hold). exists sel. split; [done|]. by apply commit_older.
  - apply commit_superblock.
  - apply (cm_cover _ _ _ _ _ _ Cm).
  - intros id p Hp. unfold replayed. rewrite newest_app.
    destruct (commit_page id p Hp) as [(_ & Hr & _ & image & -> & _ & Hd)|(_ & Hp' & Hr & ->)]; [by split|].
    split; [lia|]. apply (rc_pages _ _ _ _ _ _ Rc id p Hp').
  - apply commit_stale.
Qed.

(** What is to be written after the commit. *)
Lemma unwritten_commit d dsb :
  unwritten d dsb (e_slot env) (e_superblock env) hw c L →
  unwritten (changed_pages pb ∪ d) (Some bytes) (e_slot env') (e_superblock env') (hhw g') c (L ++ NEW).
Proof.
  intros (Hd & Hr & _). pose proof commit_hw as Hle. split_and!.
  - intros id b [Hc|[_ Hc]]%lookup_union_Some_raw; [|specialize (Hd id b Hc); lia].
    destruct (changed_decoded pb !! id) as [p|] eqn:E; [|by rewrite (cm_dom _ _ _ _ _ _ Cm _ E) in Hc].
    by destruct (cm_image _ _ _ _ _ _ Cm id p E) as (Hin & _).
  - intros id Hid. unfold replayed. rewrite newest_app. destruct (changed_pages pb !! id) as [image|] eqn:E.
    { by rewrite (new_changed id image E), (lookup_union_Some_l _ _ _ _ E). }
    rewrite lookup_union_r by done. destruct (newest id NEW) as [x|] eqn:Ex.
    { destruct (new_cases id x Ex) as (_ & _ & [(p & _ & ?)|[-> _]]); [congruence|]. pose proof (slot_below (new_slot pb)). lia. }
    destruct (decide (id ≤ hw)); [apply Hr; lia|]. destruct (d !! id) as [b|] eqn:Eb; [specialize (Hd id b Eb); lia|].
    destruct (newest id L) as [x|] eqn:El; [|done]. apply newest_Some in El as [Hin <-].
    pose proof (rc_images _ _ _ _ _ _ Rc) as Hwf. eapply Forall_forall in Hwf as (? & _); [|exact Hin]. lia.
  - destruct (cm_slot _ _ _ _ _ _ Cm) as [<- _]. unfold replayed. by rewrite newest_app, new_superblock_image.
  - destruct Hlog as (Hsb & _). by rewrite <- (cm_superblock _ _ _ _ _ _ Cm).
  - destruct (rc_before _ _ _ _ _ _ Rc) as (sel & Hsel & _ & _ & Hg). destruct (cm_generation _ _ _ _ _ _ Cm) as [_ Hg'].
    exists sel. split; [done|lia].
Qed.

End commit.

(** ** A batch of the log *)

Lemma live_app ck bs bs' : live ck (bs ++ bs') = live ck bs ++ live ck bs'.
Proof. unfold live, logged_pages. by rewrite filter_app, bind_app. Qed.

Lemma live_one ck b : ck < b_commit_lsn b → live ck [b] = pair (b_commit_lsn b) <$> b_pages b.
Proof. intros Hb. unfold live, logged_pages. cbn. rewrite decide_True by done. cbn. apply app_nil_r. Qed.

Lemma live_below ck bs com : Forall (λ b, b_commit_lsn b < com) bs → Forall (λ x, x.1 < com) (live ck bs).
Proof.
  intros Hbs. apply Forall_forall. intros x (b & (img & -> & _)%list_elem_of_fmap & [_ Hb]%list_elem_of_filter)%list_elem_of_bind.
  cbn [fst]. eapply Forall_forall in Hbs; [|exact Hb]. done.
Qed.

Section commits.
Context (s0 : BTreeStore F W I) (config : DatabaseConfig) (c : list byte) (P : Z).
Hypothesis has_wal : is_Some (st_wal s0).
Hypothesis P_bound : P + 1 ≤ U32_MAX.

Lemma on_disk_commit bs d dsb env g env' g' com pb bytes cmt (ck := checkpoint_lsn (e_superblock env)) :
  commits s0 env env' g' com pb → logged_as pb bytes cmt → hhw g' ≤ P → on_disk config c bs env g →
  on_disk config c (bs ++ [commit_batch cmt]) env' g' ∧ checkpoint_lsn (e_superblock env') = ck ∧
  (unwritten d dsb (e_slot env) (e_superblock env) (hhw g) c (live ck bs) →
   unwritten (changed_pages pb ∪ d) (Some bytes) (e_slot env') (e_superblock env') (hhw g') c (live ck (bs ++ [commit_batch cmt]))).
Proof.
  intros Cm Hlog HP [Rc Hid Hlsns Hbs Hlim Hlatest Hck Hhw Hnx]. fold ck in Rc, Hlatest, Hck.
  assert (c_commit_lsn cmt = com) as Ec by (destruct Hlog as (_ & E & _); rewrite (cm_lsn _ _ _ _ _ _ Cm) in E; congruence).
  pose proof (cm_wal _ _ _ _ _ _ Cm has_wal) as Hcom. destruct (cm_next _ _ _ _ _ _ Cm) as (_ & Hn' & Hl').
  destruct (cm_fields _ _ _ _ _ _ Cm) as [Hwf Esb].
  assert (checkpoint_lsn (e_superblock env') = ck) as Eck by (by rewrite Esb).
  assert (live ck (bs ++ [commit_batch cmt]) = live ck bs ++ batch_log com cmt) as El.
  { rewrite live_app, live_one by (simpl; lia). simpl. by rewrite Ec. }
  assert (map_Forall (λ _ p, PageData_lsn p < com) (e_clean env)) as Hlt
    by (eapply map_Forall_impl; [exact Hlsns|]; simpl; lia).
  assert (Forall (λ x, x.1 < com) (live ck bs)) as Hll
    by (apply live_below; eapply Forall_impl; [exact Hbs|]; simpl; lia).
  split_and!; [|done|rewrite El; intros Hun; by eapply unwritten_commit].
  split; rewrite ?Eck, ?El.
  - apply (recoverable_commit s0 env env' g' com pb bytes cmt c (live ck bs) (hhw g)); try done. unfold file_size. lia.
  - rewrite <- Hid, Esb. done.
  - rewrite (cm_pages _ _ _ _ _ _ Cm). intros id p [Hp|[_ Hp]]%lookup_union_Some_raw.
    + destruct (cm_image _ _ _ _ _ _ Cm id p Hp) as (_ & Hl & _). simpl. lia.
    + specialize (Hlsns id p Hp). simpl in *. lia.
  - apply Forall_app. split; [eapply Forall_impl; [exact Hbs|]; simpl; lia|]. constructor; [|constructor]. simpl. lia.
  - pose proof (cm_bound _ _ _ _ _ _ Cm). lia.
  - unfold newest_lsn. rewrite last_snoc. simpl. lia.
  - unfold newest_lsn. rewrite last_snoc. simpl. lia.
  - by rewrite Esb.
  - lia.
Qed.

Lemma on_disk_chain bs d dsb env g ps encs cs env' g' (ck := checkpoint_lsn (e_superblock env)) :
  prepared_chain s0 P env g ps env' g' → Forall3 logged_as ps encs cs → on_disk config c bs env g →
  on_disk config c (bs ++ (commit_batch <$> cs)) env' g' ∧ checkpoint_lsn (e_superblock env') = ck ∧
  (unwritten d dsb (e_slot env) (e_superblock env) (hhw g) c (live ck bs) →
   unwritten (foldl (λ d pb, changed_pages pb ∪ d) d ps) (match last encs with Some bytes => Some bytes | None => dsb end)
     (e_slot env') (e_superblock env') (hhw g') c (live ck (bs ++ (commit_batch <$> cs)))).
Proof.
  intros Hch. revert bs d dsb encs cs ck.
  induction Hch as [env g|env g env1 g1 com pb ps env2 g2 Cm Hle Hch IH]; intros bs d dsb encs cs ck Hf Hod.
  { inversion Hf; subst. by rewrite app_nil_r. }
  apply Forall3_cons_inv_l in Hf as (bytes & encs' & cmt & cs' & -> & -> & Hl & Hf).
  destruct (on_disk_commit bs d dsb env g env1 g1 com pb bytes cmt Cm Hl Hle Hod) as (Hod1 & Eck & Hun). fold ck in Eck, Hun.
  destruct (IH (bs ++ [commit_batch cmt]) (changed_pages pb ∪ d) (Some bytes) encs' cs' Hf Hod1) as (Hod2 & Eck2 & Hun2).
  rewrite Eck in Eck2, Hun2. rewrite fmap_cons, cons_middle, app_assoc. split_and!; [done|done|]. intros Hw%Hun%Hun2.
  rewrite last_cons. cbn [foldl]. by destruct (last encs').
Qed.

End commits.

End append.
