(* ===== verification/Crash.v ===== *)
(** * Crash: transactions survive crashes

    A store whose files hold its database at every moment ([sound]) stays so
    under [apply_transaction_group].  After a crash, [open_with_wal] returns to
    the state after some of the group's requests, and after a group that
    returned, to its result. *)

From S2P Require Import Prelude Core Crc Page Superblock DurableFile Wal WalCodec WalScan WalLog WalOpen WalSafety Format FormatCodec Cache Reference StoreState Store Checker Engine Heap Tree Own Split TreeOps Point ReadOps CheckerSpec Restamp Finish Txn Group Disk Create Recover Durable.

Section crash.
Context `{Crc32c} {F W I : Type} `{DFL : DurableFileLaws F} `{WFL : DurableFileLaws W} `{FaultInjector I}.

(** The files a process finds when it starts: they work, and what they hold is
    on the disk. *)
Record at_rest (f : F) (w : W) : Prop := {
  ar_file : reliable f;
  ar_log : reliable w;
  ar_file_durable : durable f = contents f;
  ar_log_durable : durable w = contents w
}.

Lemma sound_reads (s : BTreeStore F W I) base D db s' :
  sound s base D db → reads_base s (env_of s base) s' → sound s' base D db.
Proof.
  intros [Sv Hcfg Hd (w & v & start & segs & Hw & Hr & Hst & Hu & So & Hwb)] B. pose proof B as [B1 B2 B3 _ _ _].
  destruct (env_of_reads s _ base _ B) as [Ee Eg]. split.
  - by eapply serving_reads.
  - by rewrite B1.
  - congruence.
  - exists w, v, start, segs. rewrite Ee, Eg, B2. unfold write_back in *. rewrite B1. split_and!; assumption.
Qed.

(** Opening the files of a database whose log may be cut inside the group
    [cs]: some of the group's commits are there. *)
Lemma reopen_cut config (f : F) (w : W) i c v start segs lsn batch cs k (Q : gmap PageId PageData → nat → ReferenceDb → Prop) ck :
  at_rest f w → wf_config config → contents f = c →
  history_ok v (config_identity config) start segs → wf_group lsn batch cs → chain_lsn start segs < lsn → chain_batch 0 segs < batch →
  contents w = history_bytes v (config_identity config) start segs ++ take k (images (segments_frames v (group_segments lsn cs))) →
  len (contents w) ≤ U64_MAX → start ≤ ck →
  (∀ n, ∃ env g D db, Q (e_clean env) D db ∧ checkpoint_lsn (e_superblock env) = ck ∧
     stored config c (history_committed segs ++ take n (commit_batch <$> cs)) env g D db) →
  ∃ base D db s out, open_with_wal config (f, w, i) = (Ok s, out) ∧ sound s base D db ∧ st_config s = config ∧ Q base D db.
Proof.
  intros [Hrf Hrw Hdf Hdw] Hcfg Hc Hok Hwf Hl Hb Hcw Hu Hst Hstored.
  destruct (reopen_after_crash (I:=I) v (config_identity config) start segs lsn batch cs ck w k Hok Hwf Hl Hb Hcw Hu Hrw)
    as (wal & w' & segs' & n & Ho & Hat & <- & Hrw' & Hcom & _ & Hd & Hlen).
  destruct (Hstored n) as (env & g & D & db & HQ & Eck & So). rewrite <- Hcom, <- Hc in So. rewrite <- Eck in Ho, Hst.
  destruct (open_stored config f w i wal v start segs' env g D db) as (s & out & E & Hs & Ec); try done.
  { by apply Hd. }
  { lia. }
  exists (e_clean env), D, db, s, out. split_and!; done.
Qed.

(** Opening the files of a store. *)
Lemma reopen_sound (s : BTreeStore F W I) base D db (w : WalLog W) (f : F) (wf : W) i :
  sound s base D db → st_wal s = Some w → at_rest f wf → contents f = contents (st_file s) → contents wf = contents (w_file w) →
  ∃ s' out, open_with_wal (st_config s) (f, wf, i) = (Ok s', out) ∧ sound s' base D db ∧ st_config s' = st_config s.
Proof.
  intros [Sv Hcfg _ (w' & v & start & segs & Hw & Hr & Hst & Hu & So & _)] Hw' Ar Hf Hwf. rewrite Hw in Hw'. injection Hw' as ->.
  pose proof Hr as ((Hok & _ & _ & _ & Hb & Hcom & Hbatch & _) & Hlsn).
  destruct (reopen_cut (st_config s) f wf i (contents (st_file s)) v start segs (w_next_lsn w) (w_next_batch_id w) [] 0
    (λ base' D' db', base' = base ∧ D' = D ∧ db' = db) (checkpoint_lsn (st_superblock s)))
    as (base' & D' & db' & s' & out & E & Hs & Hc & -> & -> & ->); try done.
  - lia.
  - rewrite Hwf, Hb. by rewrite app_nil_r.
  - by rewrite Hwf.
  - intros n. exists (env_of s base), (heap_of s base), D, db. split_and!; try done. cbn [fmap list_fmap]. rewrite take_nil, app_nil_r, <- Hcom. exact So.
  - by exists s', out.
Qed.

(** ** Transaction groups *)

Lemma on_disk_at (s : BTreeStore F W I) config c bs env g :
  at_env s env g → on_disk config c bs env g → on_disk config c bs (env_of s (e_clean env)) (heap_of s (e_clean env)).
Proof.
  intros [A1 A2 _ _ A5 A6 A7 _ _ _ _] Hod. destruct Hod. split; simpl; rewrite ?A1, ?A2, ?A5, ?A6, ?A7; done.
Qed.

Lemma sound_serving (s : BTreeStore F W I) base D db D' db' : sound s base D db → serving s base D' db' → sound s base D' db'.
Proof.
  intros [_ Hcfg Hd (w & v & start & segs & Hw & Hr & Hst & Hu & [Hod _] & Hwb)] Sv. split; [done|done|done|].
  exists w, v, start, segs. split_and!; try done. split; [done|]. by apply sv_holding.
Qed.

Lemma published_sound (s0 s s' : BTreeStore F W I) P base D db ps env' g' D' db' :
  is_Some (st_wal s0) → P + 1 ≤ U32_MAX → sound s base D db → prepared_chain s0 P (env_of s base) (heap_of s base) ps env' g' →
  published s s' ps → at_env s' env' g' → serving s' (e_clean env') D' db' → sound s' (e_clean env') D' db'.
Proof.
  intros Hw0 HP [Sv Hcfg Hd (w1 & v1 & start1 & segs1 & Hw1 & Hr1 & Hst & Hu & [Hod _] & Hwb)] Hch
    [Pf Pc (w & w' & v & id & start & segs & encs & cs & Hw & Hw' & Hr & Hlog & [Hd1 Hd2] & Hg & Hr' & Hc' & Hu')] A' Sv'.
  rewrite Hw1 in Hw. injection Hw as <-.
  assert (v1 = v ∧ config_identity (st_config s) = id ∧ start1 = start) as (-> & <- & ->).
  { destruct Hr1 as ((_ & E1 & E2 & E3 & _) & _), Hr as ((_ & E1' & E2' & E3' & _) & _). split_and!; congruence. }
  destruct (on_disk_chain s0 (st_config s) (contents (st_file s)) P Hw0 HP (w_committed w1) (st_dirty_pages s) (st_dirty_superblock s)
    (env_of s base) (heap_of s base) ps encs cs env' g' Hch Hlog Hod) as (Hod' & Eck & Hun). simpl in Eck, Hun.
  assert (w_committed w' = w_committed w1 ++ (commit_batch <$> cs)) as Ecom.
  { destruct Hr' as ((_ & _ & _ & _ & _ & -> & _) & _). destruct Hr as ((_ & _ & _ & _ & _ & -> & _) & _).
    rewrite history_committed_app. f_equal. by eapply group_committed. }
  pose proof A' as [A1 A2 _ _ A5 _ _ _ _ _ _]. split; [done|by rewrite Pc|by rewrite Pf|].
  exists w', v, start, (segs ++ group_segments (w_next_lsn w1) cs). rewrite Pc, Pf, A1, Eck, Ecom. split_and!; try done.
  - split; [by eapply on_disk_at|by apply sv_holding].
  - unfold write_back. rewrite Hd1, Hd2, A1, A2, A5. by apply Hun.
Qed.

Lemma Forall3_take {A B C} (R : A → B → C → Prop) n l k m : Forall3 R l k m → Forall3 R (take n l) (take n k) (take n m).
Proof. intros Hf. revert n. induction Hf as [|x y z l k m Hx Hf IH]; intros [|n]; constructor; auto. Qed.

(** A crash while the group is appended to the log. *)
Lemma published_crash (s0 s s1 s' : BTreeStore F W I) P base D db requests results ps (w w' : WalLog W) (f : F) (wf : W) i :
  sound s base D db → reads_base s (env_of s base) s1 → P + 1 ≤ U32_MAX →
  st_wal s0 = st_wal s → prefixes s0 P (env_of s base) (heap_of s base) db requests results ps → published s1 s' ps →
  st_wal s = Some w → st_wal s' = Some w' → at_rest f wf → contents f = contents (st_file s) →
  contents (w_file w) `prefix_of` contents wf → contents wf `prefix_of` contents (w_file w') →
  ∃ m s2 out base2 D2 db2, open_with_wal (st_config s) (f, wf, i) = (Ok s2, out) ∧ sound s2 base2 D2 db2 ∧
    st_config s2 = st_config s ∧ serial db (take m requests) (take m results) db2.
Proof.
  intros [Sv Hcfg _ (w1 & v1 & start1 & segs1 & Hw1 & Hr1 & Hst & Hu & [Hod _] & _)] B HP Ew0 Hpre
    [_ _ (w2 & w2' & v & id & start & segs & encs & cs & Hw & Hw' & Hr & Hlog & _ & Hg & _ & Hc' & Hu')] E1 E2 Ar Hf [t Ht] [u Hu2].
  rewrite E1 in Hw1. injection Hw1 as <-. rewrite E2 in Hw'. injection Hw' as <-.
  assert (st_wal s1 = st_wal s) as Ew by (by rewrite (rb_same _ _ _ B)). rewrite Ew, E1 in Hw. injection Hw as <-.
  assert (v1 = v ∧ config_identity (st_config s) = id ∧ start1 = start) as (-> & <- & ->).
  { destruct Hr1 as ((_ & X1 & X2 & X3 & _) & _), Hr as ((_ & Y1 & Y2 & Y3 & _) & _). split_and!; congruence. }
  pose proof Hr as ((Hok & _ & Hv & _ & Hb & Hcom & Hbatch & _) & Hlsn). unfold group_bytes in Hc'. rewrite Hv in Hc'. set (bytes := images _) in Hc'.
  assert (t = take (length t) bytes) as Htg.
  { rewrite Hc', Ht, <- app_assoc in Hu2. apply app_inv_head in Hu2. rewrite Hu2. by rewrite take_app_length. }
  assert (len (contents wf) ≤ U64_MAX) as Hul.
  { rewrite Hu2, len_app in Hu'. pose proof (len_nonneg u). lia. }
  destruct (reopen_cut (st_config s) f wf i (contents (st_file s)) v start segs (w_next_lsn w) (w_next_batch_id w) cs (length t)
    (λ base2 D2 db2, ∃ m, serial db (take m requests) (take m results) db2) (checkpoint_lsn (st_superblock s)))
    as (base2 & D2 & db2 & s2 & out & E & Hs & Hc & m & Hm); try done.
  - lia.
  - fold bytes. by rewrite Ht, Hb, Htg at 1.
  - intros n. destruct (Hpre n) as (m & env' & g' & D' & db' & Hch & R & Hser). exists env', g', D', db'. split; [by exists m|].
    destruct (on_disk_chain s0 (st_config s) (contents (st_file s)) P (ltac:(by rewrite Ew0, E1)) HP (w_committed w) ∅ None
      (env_of s base) (heap_of s base) (take n ps) (take n encs) (take n cs) env' g' Hch (Forall3_take _ n _ _ _ Hlog) Hod) as (Hod' & Eck & _).
    split; [exact Eck|]. rewrite <- Hcom, <- fmap_take. split; [exact Hod'|apply R].
  - by exists m, s2, out, base2, D2, db2.
Qed.

Lemma serial_length db requests results db' : serial db requests results db' → length results = length requests.
Proof. induction 1; simpl; lia. Qed.

(** What a group of transactions leaves, also after a crash. *)
Definition crash_prefix (s s' : BTreeStore F W I) db requests results db' : Prop :=
  ∀ w w' (f : F) (wf : W) (i : option I), st_wal s = Some w → st_wal s' = Some w' → at_rest f wf → contents f = contents (st_file s) →
    contents (w_file w) `prefix_of` contents wf → contents wf `prefix_of` contents (w_file w') →
    ∃ m s2 out base2 D2 db2, open_with_wal (st_config s) (f, wf, i) = (Ok s2, out) ∧ sound s2 base2 D2 db2 ∧ st_config s2 = st_config s ∧
      serial db (take m requests) (take m results) db2 ∧ (contents wf = contents (w_file w') → db2 = db').

(** ** Superblocks without a checksum

    The superblock of a new store has no checksum in memory; in the file it
    has one. *)

Definition with_checksum (n : Z) (sb : Superblock) : Superblock :=
  mkSuperblock (sb_format_version sb) (generation sb) (database_uuid sb) (tenant_id sb) (shard_id sb) (shard_epoch sb)
    (page_size sb) (root_page_id sb) (free_list_head sb) (high_water_page_id sb) (checkpoint_lsn sb) n.
Definition recheck (n : Z) (s : BTreeStore F W I) : BTreeStore F W I := set_st_superblock (with_checksum n (st_superblock s)) s.
Definition recheck_env (n : Z) (env : Env) : Env :=
  mkEnv (e_base env) (e_clean env) (e_next_lsn env) (e_batch_id env) (with_checksum n (e_superblock env)) (e_slot env).

Lemma recheck_id (s : BTreeStore F W I) : recheck (sb_checksum (st_superblock s)) s = s.
Proof. unfold recheck, with_checksum. destruct s as [? ? []]. done. Qed.

Lemma next_checksum n sb root free hw : sealed_copy (next_sb (with_checksum n sb) root free hw) = sealed_copy (next_sb sb root free hw).
Proof.
  unfold sealed_copy. assert (superblock_image (next_sb (with_checksum n sb) root free hw) = superblock_image (next_sb sb root free hw)) as ->; [|reflexivity].
  unfold superblock_image, superblock_unsealed. cbn [next_sb with_checksum sb_format_version generation database_uuid tenant_id
    shard_id shard_epoch page_size root_page_id free_list_head high_water_page_id checkpoint_lsn]. reflexivity.
Qed.

Lemma recheck_commits (s0 : BTreeStore F W I) n env env' g' com pb :
  commits s0 env env' g' com pb → commits s0 (recheck_env n env) env' g' com pb.
Proof.
  intros [? ? ? ? ? ? ? ? [Hwf Esb]]. split; try assumption. split; [exact Hwf|]. cbn [recheck_env e_superblock]. by rewrite next_checksum.
Qed.

Lemma recheck_chain (s0 : BTreeStore F W I) P n env g ps env' g' :
  prepared_chain s0 P env g ps env' g' → ps ≠ [] → prepared_chain s0 P (recheck_env n env) g ps env' g'.
Proof. intros [|]; [done|]. intros _. eapply chain_cons; [by apply recheck_commits|done|done]. Qed.

Lemma recheck_holding n env g D db : holding env g D db → holding (recheck_env n env) g D db.
Proof. intros []. by split. Qed.

Lemma recheck_prefixes (s0 : BTreeStore F W I) P n env g db requests results ps :
  prefixes s0 P env g db requests results ps → prefixes s0 P (recheck_env n env) g db requests results ps.
Proof.
  intros Hpre k. destruct (Hpre k) as (m & env' & g' & D' & db' & Hch & R & Hser). destruct (take k ps) as [|pb ps'] eqn:E.
  - inversion Hch; subst. exists m, (recheck_env n env'), g', D', db'. split_and!; [constructor| |done].
    destruct R as [R Hb]. split; [by apply recheck_holding|done].
  - exists m, env', g', D', db'. split_and!; [by apply recheck_chain|done|done].
Qed.

Lemma recheck_reads n (s : BTreeStore F W I) base s' :
  reads_base s (env_of s base) s' → reads_base (recheck n s) (env_of (recheck n s) base) (recheck n s').
Proof.
  intros [B1 B2 B3 B4 B5 B6]. split; try done. rewrite B1. by destruct s.
Qed.

Lemma recheck_serving n (s : BTreeStore F W I) base D db : serving s base D db → serving (recheck n s) base D db.
Proof.
  intros [[R Hc Hcap Hcfg Hbr] Hw Hf Hi]. split; [split|..]; try done. destruct R as [R Hb]. split; [exact (recheck_holding n _ _ _ _ R)|done].
Qed.

(** A store in service that is sound but for the checksum. *)
Definition usable (s : BTreeStore F W I) (base : gmap PageId PageData) (D : nat) (db : ReferenceDb) : Prop :=
  sound s base D db ∨ (sb_checksum (st_superblock s) = 0 ∧ serving s base D db ∧ ∃ n, sound (recheck n s) base D db).

Lemma usable_recheck (s : BTreeStore F W I) base D db : usable s base D db → serving s base D db ∧ ∃ n, sound (recheck n s) base D db.
Proof.
  intros [So|(_ & Sv & n & So)]; [|by eauto]. split; [apply So|]. exists (sb_checksum (st_superblock s)). by rewrite recheck_id.
Qed.

Lemma group_usable (s : BTreeStore F W I) base D db times requests :
  usable s base D db → Forall (λ t, small_request s (timed_request t)) requests → group_room s D times requests →
  ∃ results s' base' D' db', apply_transaction_group times requests s = (Ok results, s') ∧
    serial db (timed_request <$> requests) results db' ∧ usable s' base' D' db' ∧ (sound s base D db → sound s' base' D' db') ∧
    st_config s' = st_config s ∧ contents (st_file s') = contents (st_file s) ∧
    (D' ≤ D + mutation_count requests)%nat ∧ crash_prefix s s' db (timed_request <$> requests) results db'.
Proof.
  intros Us Hsm Hroom. destruct (usable_recheck _ _ _ _ Us) as (Sv & n & So).
  destruct (transaction_group_spec s base D db times requests Sv Hsm Hroom)
    as (rs & s' & base' & D' & db' & E & Hser & Sv' & HD & P & ps & env' & g' & s1 & HP & Hpre & B & Hch & -> & A' & Hcase).
  exists rs, s', (e_clean env'), D', db'. pose proof (recheck_reads n s base s1 B) as Bn. pose proof (sound_reads _ _ _ _ _ So Bn) as So1.
  destruct (env_of_reads s _ base _ B) as [Ee Eg].
  assert (st_config s1 = st_config s ∧ st_wal s1 = st_wal s ∧ st_superblock s1 = st_superblock s) as (Ec1 & Ew1 & Es1)
    by (split_and!; by rewrite (rb_same _ _ _ B)).
  assert ((sound s base D db → sound s' (e_clean env') D' db') ∧ usable s' (e_clean env') D' db' ∧ st_config s' = st_config s ∧
    contents (st_file s') = contents (st_file s)) as (So' & Us' & Ec & Ef).
  { destruct Hcase as [[-> ->]|[Hne Hpu]].
    - inversion Hch; subst. split_and!; [|..|done|apply (rb_contents _ _ _ B)].
      + intros So0. exact (sound_serving _ _ _ _ _ _ (sound_reads _ _ _ _ _ So0 B) Sv').
      + destruct Us as [So0|(Hz & _)]; [left; exact (sound_serving _ _ _ _ _ _ (sound_reads _ _ _ _ _ So0 B) Sv')|right].
        split_and!; [by rewrite Es1|done|]. exists n. eapply sound_serving; [exact So1|by apply recheck_serving].
    - assert (sound s' (e_clean env') D' db') as So'.
      { eapply (published_sound s (recheck n s1) s' P base D db ps env' g'); [|done|exact So1| | |done|done].
        - destruct So as [_ _ _ (w & _ & _ & _ & Hw & _)]. change (st_wal s = Some w) in Hw. by rewrite Hw.
        - change (env_of (recheck n s1) base) with (recheck_env n (env_of s1 base)). change (heap_of (recheck n s1) base) with (heap_of s1 base).
          rewrite Ee, Eg. by apply recheck_chain.
        - destruct Hpu. by split. }
      destruct Hpu as [Pf Pc Pl]. split_and!; [done|by left|congruence|rewrite Pf; apply (rb_contents _ _ _ B)]. }
  split_and!; try done. intros w w' f wf i Ew Ew' Ar Hf Hp1 Hp2.
  destruct (decide (contents wf = contents (w_file w'))) as [Eq|Hneq].
  { destruct (usable_recheck _ _ _ _ Us') as (_ & m & So2).
    destruct (reopen_sound (recheck m s') _ _ _ w' f wf i So2 Ew' Ar) as (s2 & out & Eo & So3 & Ec2);
      [change (contents f = contents (st_file s')); congruence|done|].
    change (st_config (recheck m s')) with (st_config s') in Eo, Ec2. rewrite Ec in Eo, Ec2.
    exists (length requests), s2, out, (e_clean env'), D', db'. split_and!; try done.
    rewrite !take_ge; [done| |by rewrite length_fmap]. apply serial_length in Hser. rewrite length_fmap in Hser. lia. }
  destruct Hcase as [[-> ->]|[_ Hpu]].
  { rewrite Ew1, Ew in Ew'. injection Ew' as <-. destruct Hneq. by apply (anti_symm prefix). }
  assert (published (recheck n s1) s' ps) as Hpu' by (destruct Hpu; by split).
  destruct (published_crash s (recheck n s) (recheck n s1) s' P base D db (timed_request <$> requests) rs ps w w' f wf i So Bn HP)
    as (m & s2 & out & base2 & D2 & db2 & ? & ? & ? & ?); try done.
  { exact (recheck_prefixes s P n _ _ _ _ _ _ Hpre). }
  exists m, s2, out, base2, D2, db2. split_and!; done.
Qed.

End crash.
