(* ===== verification/Flush.v ===== *)
(** * Flush: writing the dirty pages survives crashes

    A logic for store operations that may be interrupted at any of their fault
    points ([safe]), whatever the injector does: what a crash leaves is opened
    with the same database.  In it, [flush_dirty_pages] writes the pages and
    the superblock that only the log had, and [check_invariants] accepts the
    result. *)

From S2P Require Import Prelude Core Crc Page Superblock DurableFile Wal WalCodec WalScan WalLog WalOpen WalSafety Format FormatCodec Cache Reference StoreState Store Checker Engine Heap Tree Own Split TreeOps Point ReadOps CheckerSpec Restamp Finish Txn Group Disk Create Recover Durable Crash.

Section safe.
Context `{Crc32c} {F W I : Type} `{DFL : DurableFileLaws F} `{WFL : DurableFileLaws W} `{FaultInjector I}.
Context (config : DatabaseConfig) (base : gmap PageId PageData) (D : nat) (db : ReferenceDb).
Abbreviation store := (BTreeStore F W I).

(** The database, opened from the files after a crash: what is durable, and any
    bytes of the log behind that may be there. *)
Definition survives (s : store) : Prop :=
  ∀ (f : F) (wf : W) (i : option I) w, at_rest f wf → contents f = durable (st_file s) → st_wal s = Some w →
    contents wf = contents (w_file w) ∨ contents wf = durable (w_file w) →
    ∃ s' out, open_with_wal config (f, wf, i) = (Ok s', out) ∧ sound s' base D db ∧ st_config s' = config.

Lemma survives_same (s s' : store) : survives s → durable (st_file s') = durable (st_file s) → st_wal s' = st_wal s → survives s'.
Proof. intros Hs Ed Ew f wf i w Ar Hf Hw Hc. rewrite Ed in Hf. rewrite Ew in Hw. by apply (Hs f wf i w). Qed.

Lemma survives_sound (s : store) : sound (set_st_injector None s) base D db → st_config s = config → survives s.
Proof.
  intros So Ec f wf i w Ar Hf Hw Hc. destruct (sv_wal _ _ _ _ (sd_serving _ _ _ _ So)) as (w' & _ & _ & _ & _ & Hw' & _ & _ & _ & _ & Hd).
  change (st_wal s = Some w') in Hw'. assert (w' = w) as -> by congruence. rewrite Hd in Hc. subst config.
  apply (reopen_sound (set_st_injector None s) base D db w f wf i So Hw Ar); [|by destruct Hc].
  pose proof (sd_durable _ _ _ _ So) as Hd'. simpl in Hd'. by rewrite Hf.
Qed.

(** Interrupted or not, the operation leaves a database that survives a crash;
    without faults it returns. *)
Definition safe {A} (s : store) (out : Result Error A * store) (Q : A → store → Prop) : Prop :=
  survives out.2 ∧ (∀ a, out.1 = Ok a → Q a out.2 ∧ (st_injector s = None → st_injector out.2 = None)) ∧
  (st_injector s = None → is_ok out.1 = true).

Lemma safe_bind {A B} s (m : ST store Error A) (k : A → ST store Error B) Q :
  safe s (m s) (λ a s', safe s' (k a s') Q) → safe s (bind m k s) Q.
Proof.
  intros (Hs & Hok & Hl). rewrite bind_eq. destruct (m s) as [r s1]. cbn [fst snd] in *. destruct r as [a|e| |].
  2-4: split_and!; [done|done|]; intros Hi; by specialize (Hl Hi).
  destruct (Hok a eq_refl) as [(Hs' & Hok' & Hl') Hi]. split_and!; [done| |auto].
  intros b Hb. destruct (Hok' b Hb) as [HQ Hi']. auto.
Qed.

Lemma safe_ret {A} s (a : A) (Q : A → store → Prop) : survives s → Q a s → safe s (ret a s) Q.
Proof. intros Hs HQ. split_and!; [done| |done]. intros b [= <-]. done. Qed.

Lemma safe_lift {A} s m (a : A) (Q : A → store → Prop) : m = Ok a → survives s → Q a s → safe s (lift m s) Q.
Proof. intros -> Hs HQ. by apply safe_ret. Qed.

Lemma safe_get {B} s (k : store → ST store Error B) Q : safe s (k s s) Q → safe s (bind get k s) Q.
Proof. done. Qed.

Lemma safe_gets {A B} s (p : store → A) (k : A → ST store Error B) Q : safe s (k (p s) s) Q → safe s (bind (gets p) k s) Q.
Proof. done. Qed.

Lemma safe_modify s u (Q : unit → store → Prop) :
  survives (u s) → (st_injector s = None → st_injector (u s) = None) → Q tt (u s) → safe s (modify u s) Q.
Proof. intros Hs Hi HQ. split_and!; [done| |done]. intros [] _. done. Qed.

Lemma safe_mono {A} s out (Q Q' : A → store → Prop) : safe s out Q → (∀ a s', Q a s' → Q' a s') → safe s out Q'.
Proof. intros (Hs & Hok & Hl) HQ. split_and!; [done| |done]. intros a Ha. destruct (Hok a Ha). auto. Qed.

Lemma safe_hit s point (Q : unit → store → Prop) :
  survives s → (∀ i, (st_injector s = None → i = None) → Q tt (set_st_injector i s)) → safe s (hit_fault point s) Q.
Proof.
  intros Hs HQ. unfold hit_fault. destruct (st_injector s) as [j|] eqn:E.
  - destruct (injector_hit point j) as [r j']. split_and!; [by apply (survives_same s)| |by rewrite E].
    intros [] _. rewrite E. split; [by apply HQ|done].
  - split_and!; [done| |done]. intros [] _. split; [|done]. specialize (HQ None (λ _, eq_refl)).
    assert (set_st_injector None s = s) as Es by (rewrite <- E; by destruct s). by rewrite Es in HQ.
Qed.

Lemma safe_or_broken {A} s wrap (m : ST store Error A) Q : safe s (m s) Q → safe s (or_broken wrap m s) Q.
Proof.
  intros (Hs & Hok & Hl). unfold or_broken. destruct (m s) as [r s1]. cbn [fst snd] in *. destruct r as [a|e| |]; by split_and!.
Qed.

Lemma safe_mapping {A} s g (m : ST store Error A) Q : safe s (m s) Q → safe s (mapping_err g m s) Q.
Proof.
  intros (Hs & Hok & Hl). unfold mapping_err. destruct (m s) as [r s1]. cbn [fst snd] in *. destruct r as [a|e| |]; by split_and!.
Qed.

(** An operation of the data file that returns. *)
Lemma safe_file {A} s (m : ST F Error A) a f (Q : A → store → Prop) :
  m (st_file s) = (Ok a, f) → survives (set_st_file f s) → Q a (set_st_file f s) → safe s (on_st_file m s) Q.
Proof. intros E Hs HQ. unfold on_st_file, zoom. rewrite E. split_and!; [done| |done]. intros b [= <-]. done. Qed.

(** ** Writing pages *)

(** A store with another data file and another injector. *)
Definition with_file (i : option I) (f : F) (s : store) : store := set_st_injector i (set_st_file f s).

(** The pages [l], written to the bytes [c]. *)
Definition write_pages (c : list byte) (l : list (PageId * list byte)) : list byte :=
  foldl (λ c e, splice c (e.1 * PAGE_SIZE) e.2) c l.

Lemma write_pages_len hw c l :
  Forall (λ e, 0 ≤ e.1 ≤ hw ∧ len e.2 = PAGE_SIZE) l → len c = file_size hw → len (write_pages c l) = file_size hw.
Proof.
  intros Hl. revert c. induction Hl as [|e l [He1 He2] _ IH]; intros c Hc; [done|]. simpl. apply IH. unfold file_size in *.
  rewrite splice_len; lia.
Qed.

Lemma write_pages_bytes hw c l id :
  Forall (λ e, 0 ≤ e.1 ≤ hw ∧ len e.2 = PAGE_SIZE) l → len c = file_size hw → NoDup l.*1 → 0 ≤ id ≤ hw →
  (∀ bytes, (id, bytes) ∈ l → page_bytes (write_pages c l) id = bytes) ∧
  (id ∉ l.*1 → page_bytes (write_pages c l) id = page_bytes c id).
Proof.
  intros Hl. revert c. induction Hl as [|[i b] l [He1 He2] Hl IH]; intros c Hc Hnd Hid; simpl.
  { split; [by intros ? ?%not_elem_of_nil|done]. }
  cbn [fst snd] in *. rewrite fmap_cons in Hnd. apply NoDup_cons in Hnd as [Hn Hnd]. cbn [fst] in Hn.
  assert (len (splice c (i * PAGE_SIZE) b) = file_size hw) as Hc' by (unfold file_size in *; rewrite splice_len; lia).
  destruct (IH _ Hc' Hnd Hid) as [I1 I2]. unfold file_size in *. split.
  - intros bytes [[= <- ->]|Hin]%elem_of_cons; [|auto]. rewrite I2 by done. rewrite page_bytes_splice by lia. by rewrite decide_True.
  - intros Hni. rewrite not_elem_of_cons in Hni. destruct Hni as [Hne Hni]. rewrite I2 by done. rewrite page_bytes_splice by lia. by rewrite decide_False.
Qed.

Lemma safe_write_page s id bytes hw (Q : unit → store → Prop) :
  survives s → reliable (st_file s) → len (contents (st_file s)) = file_size hw → file_size hw ≤ U64_MAX →
  0 ≤ id ≤ hw → len bytes = PAGE_SIZE →
  (∀ f, reliable f → durable f = durable (st_file s) → contents f = splice (contents (st_file s)) (id * PAGE_SIZE) bytes → Q tt (set_st_file f s)) →
  safe s (write_page id bytes s) Q.
Proof.
  intros Hs Hr Hl Hu Hid Hb HQ. unfold file_size in *.
  destruct (write_all_reliable (st_file s) (id * PAGE_SIZE) bytes Hr) as (f & E & Hr' & C & Dr); [lia..|].
  unfold write_page. apply safe_bind. eapply safe_lift; [unfold plain_mul; by rewrite (proj2 (Z.leb_le _ _)) by lia|done|].
  eapply safe_file; [exact E|by apply (survives_same s)|by apply HQ].
Qed.

Lemma safe_write_pages point l s hw :
  survives s → reliable (st_file s) → len (contents (st_file s)) = file_size hw → file_size hw ≤ U64_MAX →
  Forall (λ e, 0 ≤ e.1 ≤ hw ∧ len e.2 = PAGE_SIZE) l →
  safe s (forM l (λ '(page_id, bytes), do* hit_fault point in write_page page_id bytes) s) (λ _ s',
    ∃ i f, s' = with_file i f s ∧ reliable f ∧ durable f = durable (st_file s) ∧ contents f = write_pages (contents (st_file s)) l).
Proof.
  intros Hs Hr Hl Hu Hwf. revert s Hs Hr Hl. induction Hwf as [|[id bytes] l [Hid Hb] Hwf IH]; intros s Hs Hr Hl.
  { apply safe_ret; [done|]. exists (st_injector s), (st_file s). split_and!; try done. by destruct s. }
  cbn [fst snd forM] in *. apply safe_bind, safe_bind. apply safe_hit; [done|]. intros i Hi.
  apply (safe_write_page _ _ _ hw); try done. simpl. intros f Hr' Df Cf.
  eapply safe_mono; [apply (IH (set_st_file f (set_st_injector i s)))|].
  - by apply (survives_same s).
  - done.
  - simpl. rewrite Cf. unfold file_size in *. rewrite splice_len; lia.
  - intros _ s' (i' & f' & -> & Hr'' & Df' & Cf'). exists i', f'. simpl in *. split_and!; [done|done|congruence|].
    by rewrite Cf', Cf.
Qed.

(** ** A flushed data file *)

(** The data file [f] has all pages of [s]. *)
Record flushed (s : store) (f : F) : Prop := {
  fl_reliable : reliable f;
  fl_durable : durable f = contents f;
  fl_len : len (contents f) = file_size (st_high_water s);
  fl_bound : file_size (st_high_water s) ≤ U64_MAX;
  fl_superblock : choose_superblock (page_bytes (contents f) 0) (page_bytes (contents f) 1) =
    Ok {| slot := st_active_slot s; superblock := st_superblock s |};
  fl_pages id p : base !! id = Some p → FIRST_DATA_PAGE ≤ id ≤ st_high_water s ∧ decodes (page_bytes (contents f) id) id p;
  fl_log w : st_wal s = Some w → ∃ L, L = live (checkpoint_lsn (st_superblock s)) (w_committed w) ∧
    recoverable (contents f) L base (st_superblock s) (st_active_slot s) (st_high_water s) ∧
    ∀ id, FIRST_DATA_PAGE ≤ id ≤ st_high_water s → replayed (contents f) L id = page_bytes (contents f) id
}.

(** The store whose data file it is. *)
Definition clean (i : option I) (f : F) (s : store) : store :=
  set_st_injector i (set_st_dirty_superblock None (set_st_dirty_pages ∅ (set_st_file f s))).

Lemma flushed_committed s f i id p : flushed s f → base !! id = Some p → committed_page (clean i f s) id p.
Proof.
  intros [_ _ Hl Hb _ Hp _] Hid. destruct (Hp id p Hid) as [Hin Hdec]. split; [lia|]. change (st_file (clean i f s)) with f.
  split; [unfold file_size in *; lia|exact Hdec].
Qed.

Lemma flushed_sound s f : sound (set_st_injector None s) base D db → flushed s f → sound (clean None f s) base D db.
Proof.
  intros [[[R Hc Hcap Hcfg Hbr] Hw Hrf Hi] Hwf Hd (w & v & start & segs & Ew & Hr & Hst & Hu & [Hod Hh] & _)] Fl.
  split; [split; [split|..]| | |]; try done.
  - destruct R as [R _]. split; [exact R|]. intros id p. by apply flushed_committed.
  - apply (fl_reliable _ _ Fl).
  - apply (fl_durable _ _ Fl).
  - exists w, v, start, segs. destruct (fl_log _ _ Fl w Ew) as (L & EL & Rc & Hrep).
    split; [exact Ew|]. split; [exact Hr|]. split; [exact Hst|]. split; [exact Hu|]. change (st_file (clean None f s)) with f. split.
    + split; [|exact Hh]. destruct Hod as [_ O2 O3 O4 O5 O6 O7 O8 O9]. split; try done. simpl. rewrite <- EL. exact Rc.
    + change (unwritten ∅ None (st_active_slot s) (st_superblock s) (st_high_water s) (contents f) (live (checkpoint_lsn (st_superblock s)) (w_committed w))).
      rewrite <- EL. split_and!; [done|exact Hrep|done|apply Fl].
Qed.

Lemma page_inside c id : 0 ≤ id → len (page_bytes c id) = PAGE_SIZE → (id + 1) * PAGE_SIZE ≤ len c.
Proof. intros Hid Hl. unfold page_bytes, sub, len in *. rewrite length_take, length_drop in Hl. lia. Qed.

(** The bytes of a flushed data file. *)
Lemma settled s (f : F) w L c :
  reliable f → durable f = contents f → st_wal s = Some w → L = live (checkpoint_lsn (st_superblock s)) (w_committed w) →
  recoverable c L base (st_superblock s) (st_active_slot s) (st_high_water s) →
  len (contents f) = file_size (st_high_water s) →
  (∀ id, FIRST_DATA_PAGE ≤ id ≤ st_high_water s → page_bytes (contents f) id = replayed c L id) →
  (∀ id, 0 ≤ id < FIRST_DATA_PAGE → newest id L = None → page_bytes (contents f) id = page_bytes c id) →
  choose_superblock (page_bytes (contents f) 0) (page_bytes (contents f) 1) =
    Ok {| slot := st_active_slot s; superblock := st_superblock s |} →
  flushed s f.
Proof.
  intros Hr Hd Hw EL Rc Hl Hp Hs Hsel.
  pose proof (recoverable_written _ (contents f) _ _ _ _ _ _ Rc Hl Hp Hs Hsel (older_refl _)) as Rc'.
  split; try done.
  - apply Rc.
  - intros id p Hid. destruct (rc_pages _ _ _ _ _ _ Rc id p Hid) as [Hin Hdec]. by rewrite Hp.
  - intros w' Hw'. rewrite Hw in Hw'. injection Hw' as <-. exists L. split; [done|]. split; [exact Rc'|].
    intros id Hid. unfold replayed. destruct (newest id L) as [x|] eqn:E; [|done]. rewrite (Hp id Hid). unfold replayed. by rewrite E.
Qed.

(** ** Flushing *)

Lemma safe_grow s hw n (Q : unit → store → Prop) :
  survives s → reliable (st_file s) → len (contents (st_file s)) = file_size n → FIRST_DATA_PAGE ≤ n ≤ hw → file_size hw ≤ U64_MAX →
  (∀ f, reliable f → durable f = durable (st_file s) → contents f = resize_bytes (file_size hw) (contents (st_file s)) → Q tt (set_st_file f s)) →
  safe s (grow_file hw s) Q.
Proof.
  intros Hs Hr Hl Hn Hu HQ. unfold grow_file. apply safe_bind. eapply safe_lift; [|done|].
  { unfold target_file_length, checked_add, checked_mul. unfold file_size in *. rewrite (proj2 (Z.leb_le (hw + 1) _)) by lia. cbn [ok_or rbind].
    by rewrite (proj2 (Z.leb_le _ _)) by lia. }
  fold (file_size hw). apply safe_bind. eapply safe_file; [by rewrite (len_reliable _ Hr)|by apply (survives_same s)|]. simpl. rewrite Hl.
  destruct (file_size n <? file_size hw) eqn:E; bool_props.
  - destruct (reliable_set_len (st_file s) (file_size hw) Hr) as [Hr1 E1]; [unfold is_u64, file_size in *; lia|].
    pose proof (set_len_law (st_file s) (file_size hw) ltac:(unfold is_u64, file_size in *; lia)) as L1.
    destruct (set_len (file_size hw) (st_file s)) as [r1 f1] eqn:Es. cbn [fst snd] in *. subst r1. destruct L1 as [D1 C1].
    eapply safe_file; [exact Es|by apply (survives_same s)|]. by apply HQ.
  - apply safe_ret; [by apply (survives_same s)|]. apply HQ; [done|done|]. symmetry. apply resize_same. unfold file_size in *. lia.
Qed.

Section flush.
Context (s : store) (w : WalLog W) (bytes : list byte).
Abbreviation c := (contents (st_file s)).
Abbreviation L := (live (checkpoint_lsn (st_superblock s)) (w_committed w)).
Abbreviation hw := (st_high_water s).
Hypothesis Rc : recoverable c L base (st_superblock s) (st_active_slot s) hw.
Hypothesis Un : unwritten (st_dirty_pages s) (Some bytes) (st_active_slot s) (st_superblock s) hw c L.
Hypothesis Hw : st_wal s = Some w.

Lemma dirty_images : Forall (λ e, 0 ≤ e.1 ≤ hw ∧ len e.2 = PAGE_SIZE) (btree_iter (st_dirty_pages s)).
Proof.
  apply Forall_forall. intros [id b] Hin%elem_of_ordered_iter. cbn [fst snd]. destruct Un as (Hd & Hr & _).
  specialize (Hd id b Hin). split; [lia|]. specialize (Hr id Hd). rewrite Hin in Hr. simpl in Hr.
  destruct (rc_cover _ _ _ _ _ _ Rc id Hd) as [p Hp]. destruct (rc_pages _ _ _ _ _ _ Rc id p Hp) as [_ Hdec%decodes_len]. congruence.
Qed.

Lemma superblock_image_len : len bytes = PAGE_SIZE.
Proof. destruct Un as (_ & _ & _ & Hd & _). by eapply decode_superblock_len. Qed.

Lemma slot_offset_page sl : slot_offset sl = slot_page sl * PAGE_SIZE.
Proof. by destruct sl. Qed.

(** The bytes of the data file after the flush. *)
Definition flushed_bytes : list byte :=
  splice (write_pages (resize_bytes (file_size hw) c) (btree_iter (st_dirty_pages s))) (slot_page (st_active_slot s) * PAGE_SIZE) bytes.

Lemma grown_len : len (resize_bytes (file_size hw) c) = file_size hw.
Proof. destruct (rc_file _ _ _ _ _ _ Rc) as (n & Hn & Hnw). apply len_resize. unfold file_size in *. lia. Qed.

Lemma written_len : len (write_pages (resize_bytes (file_size hw) c) (btree_iter (st_dirty_pages s))) = file_size hw.
Proof. apply (write_pages_len hw); [apply dirty_images|apply grown_len]. Qed.

Lemma flushed_len : len flushed_bytes = file_size hw.
Proof.
  pose proof written_len as Hl. pose proof superblock_image_len. pose proof (slot_below (st_active_slot s)).
  destruct (rc_file _ _ _ _ _ _ Rc) as (n & Hn & Hnw). unfold flushed_bytes, file_size in *. rewrite splice_len; [exact Hl|lia..].
Qed.

Lemma flushed_page id :
  0 ≤ id ≤ hw → page_bytes flushed_bytes id =
    if decide (slot_page (st_active_slot s) = id) then bytes
    else default (page_bytes c id) (st_dirty_pages s !! id).
Proof.
  intros Hid. pose proof written_len as Hl. pose proof superblock_image_len. pose proof (slot_below (st_active_slot s)).
  destruct (rc_file _ _ _ _ _ _ Rc) as (n & Hn & Hnw). unfold flushed_bytes.
  rewrite page_bytes_splice by (unfold file_size in *; lia). destruct (decide _) as [|Hne]; [done|].
  destruct (write_pages_bytes hw _ _ id dirty_images grown_len (ordered_iter_NoDup _ _) Hid) as [W1 W2].
  destruct (st_dirty_pages s !! id) as [b|] eqn:E; [by apply W1, elem_of_ordered_iter|]. rewrite W2.
  2: { intros ([i b] & -> & Hin)%list_elem_of_fmap. apply elem_of_ordered_iter in Hin. simpl in E. congruence. }
  simpl. apply page_bytes_grow; [lia| |unfold file_size in *; lia]. destruct (decide (id < FIRST_DATA_PAGE)).
  { unfold file_size in *. lia. }
  destruct Un as (_ & Hr & _). destruct (rc_cover _ _ _ _ _ _ Rc id ltac:(lia)) as [p Hp].
  destruct (rc_pages _ _ _ _ _ _ Rc id p Hp) as [_ Hdec%decodes_len]. rewrite (Hr id ltac:(lia)), E in Hdec. by apply page_inside; [lia|].
Qed.

Lemma flush_settled (f : F) : reliable f → durable f = contents f → contents f = flushed_bytes → flushed s f.
Proof.
  intros Hr Hd Hc. pose proof (slot_below (st_active_slot s)) as Hsl. pose proof Un as (_ & Hrep & Hsb & Hdec & sel & Hsel & Hg).
  destruct (rc_file _ _ _ _ _ _ Rc) as (n & Hn & Hnw).
  assert (∀ id, 0 ≤ id < FIRST_DATA_PAGE → st_dirty_pages s !! id = None) as Hnone.
  { intros id Hid. destruct (st_dirty_pages s !! id) as [b|] eqn:E; [|done]. destruct Un as (Hr' & _). specialize (Hr' id b E). lia. }
  apply (settled s f w L c); try done; rewrite ?Hc.
  - apply flushed_len.
  - intros id Hid. rewrite flushed_page by lia. rewrite decide_False by lia. by rewrite Hrep.
  - intros id Hid En. rewrite flushed_page by lia. destruct (decide _) as [<-|Hne]; [|by rewrite (Hnone id Hid)].
    rewrite <- Hsb. unfold replayed. by rewrite En.
  - apply (choose_newer (page_bytes c) (page_bytes flushed_bytes) sel (st_active_slot s) (st_superblock s) bytes); try done.
    + rewrite flushed_page by lia. by rewrite decide_True.
    + pose proof (slot_below (other_slot (st_active_slot s))). rewrite flushed_page by lia. rewrite decide_False by (by destruct (st_active_slot s)).
      rewrite Hnone by lia. done.
Qed.

End flush.

(** The writes, up to the sync. *)
Lemma write_dirty_safe s w bytes :
  survives s → reliable (st_file s) → st_wal s = Some w → st_dirty_superblock s = Some bytes →
  let L := live (checkpoint_lsn (st_superblock s)) (w_committed w) in
  recoverable (contents (st_file s)) L base (st_superblock s) (st_active_slot s) (st_high_water s) →
  unwritten (st_dirty_pages s) (Some bytes) (st_active_slot s) (st_superblock s) (st_high_water s) (contents (st_file s)) L →
  safe s (write_dirty s) (λ _ s', ∃ i f, s' = with_file i f s ∧ reliable f ∧ durable f = durable (st_file s) ∧ contents f = flushed_bytes s bytes).
Proof.
  intros Hs Hr Hw Hsb L Rc Un. destruct (rc_file _ _ _ _ _ _ Rc) as (n & Hn & Hnw). pose proof (rc_bound _ _ _ _ _ _ Rc) as Hu.
  unfold write_dirty. apply safe_get, safe_bind. apply (safe_grow _ _ n); try done. intros f1 Hr1 D1 C1.
  apply safe_bind. apply safe_hit; [by apply (survives_same s)|]. intros i1 _. apply safe_bind.
  eapply safe_mono; [apply (safe_write_pages _ _ _ (st_high_water s))|]; try done.
  { by apply (survives_same s). }
  { simpl. rewrite C1. by eapply grown_len. }
  { by eapply dirty_images. }
  intros _ s2 (i2 & f2 & -> & Hr2 & D2 & C2). simpl in D2, C2. apply safe_bind. apply safe_hit; [by apply (survives_same s); [done|simpl; congruence|]|].
  intros i3 _. rewrite Hsb. pose proof (written_len s w bytes Rc Un) as Hl. rewrite <- C1, <- C2 in Hl.
  pose proof (superblock_image_len s w bytes Un). pose proof (slot_below (st_active_slot s)).
  destruct (write_all_reliable f2 (slot_offset (st_active_slot s)) bytes Hr2) as (f3 & E3 & Hr3 & C3 & D3);
    [rewrite ?slot_offset_page; unfold file_size in *; lia..|].
  eapply safe_file; [exact E3|by apply (survives_same s); [done|simpl; congruence|]|]. exists i3, f3. split_and!; [done|done|congruence|].
  by rewrite C3, C2, C1, slot_offset_page.
Qed.

Lemma flush_safe s :
  sound (set_st_injector None s) base D db → st_config s = config →
  safe s (flush_dirty_pages s) (λ _ s', ∃ i f, s' = clean i f s ∧ flushed s f).
Proof.
  intros So Ec. pose proof (survives_sound s So Ec) as Hs. pose proof So as [Sv _ Hd (w & v & start & segs & Hw & _ & _ & _ & [Hod _] & Un)].
  pose proof (sv_file _ _ _ _ Sv) as Hr. pose proof (od_pages _ _ _ _ _ Hod) as Rc. simpl in Hr, Hd, Hw, Rc. unfold write_back in Un. simpl in Un.
  set (L := live (checkpoint_lsn (st_superblock s)) (w_committed w)) in *.
  unfold flush_dirty_pages. apply safe_get. rewrite Hw. cbn [is_none]. destruct (st_dirty_superblock s) as [bytes|] eqn:Eb.
  - rewrite andb_false_r. apply safe_bind, safe_or_broken. eapply safe_mono; [by apply (write_dirty_safe s w bytes)|].
    intros _ s1 (i1 & f1 & -> & Hr1 & D1 & C1).
    assert (∀ s', st_file s' = f1 → st_wal s' = st_wal s → survives s') as Hs1.
    { intros s' Ef Ew. apply (survives_same s); [done|by rewrite Ef|done]. }
    apply safe_bind, safe_or_broken, safe_hit; [by apply Hs1|]. intros i2 _.
    apply safe_bind, safe_or_broken, safe_hit; [by apply Hs1|]. intros i3 _.
    destruct (reliable_sync f1 Hr1) as [Hr2 E2]. pose proof (sync_data_law f1) as L2.
    destruct (sync_data f1) as [r2 f2] eqn:Es. cbn [fst snd] in *. subst r2. destruct L2 as [C2 D2].
    assert (flushed s f2) as Fl by (apply (flush_settled s w bytes); try done; congruence).
    assert (∀ s', st_file s' = f2 → st_wal s' = st_wal s → survives s') as Hs2.
    { intros s' Ef Ew. apply (survives_same (clean None f2 s)); [|by rewrite Ef|done]. apply survives_sound; [by apply flushed_sound|done]. }
    apply safe_bind, safe_or_broken. eapply safe_file; [exact Es|by apply Hs2|].
    apply safe_bind, safe_modify; [by apply Hs2|done|]. apply safe_bind, safe_modify; [by apply Hs2|done|].
    apply safe_hit; [by apply Hs2|]. intros i4 _. exists i4, f2. split; [done|exact Fl].
  - destruct Un as (_ & Hrep & Ed & Hsel). rewrite bool_decide_eq_true_2 by done. cbn [andb]. apply safe_ret; [done|].
    exists (st_injector s), (st_file s). split; [destruct s; simpl in *; by subst|]. rewrite Ed in Hrep.
    destruct (rc_file _ _ _ _ _ _ Rc) as (n & Hn & Hnw).
    apply (settled s (st_file s) w L (contents (st_file s))); try done.
    + destruct (rc_cover _ _ _ _ _ _ Rc (st_high_water s)) as [p Hp]; [lia|].
      destruct (rc_pages _ _ _ _ _ _ Rc _ p Hp) as [_ Hdec%decodes_len]. rewrite Hrep in Hdec by lia.
      apply page_inside in Hdec; [|lia]. unfold file_size in *. lia.
    + intros id Hid. by rewrite Hrep.
Qed.

(** ** The invariant check *)

Lemma check_spec (s : store) i f t fl :
  sound (set_st_injector None s) base D db → flushed s f → db_at (heap_of s base) t fl → states_of (entries t) = states db →
  ∃ f', check_invariants (clean i f s) = (Ok (report_of t fl), clean i f' s) ∧ flushed s f'.
Proof.
  intros So Fl DB Hm. pose proof So as [Sv _ _ (w & v & start & segs & Hw & _ & _ & _ & [Hod Hh] & _)]. simpl in Hw.
  pose proof (od_checkpoint _ _ _ _ _ Hod) as Hck. simpl in Hck.
  pose proof (holding_revs _ _ _ _ _ _ Hh DB Hm) as Hpos.
  destruct (check_clean_spec (clean i f s) base t fl w) as (f' & E & Hr' & C' & D'); try done; try apply Fl.
  - exact (rd_locates _ _ _ _ Hh).
  - rewrite latest_newest. apply Hck.
  - exists f'. split; [exact E|]. destruct Fl. change (st_file (clean i f s)) with f in C', D'. split; rewrite ?C'; try done. congruence.
Qed.

End safe.
