(* ===== verification/Checkpoint.v ===== *)
(** * Checkpoint: a checkpoint survives crashes at every fault point

    [checkpoint] flushes the data file, writes a superblock that records the
    last commit to the other slot, checks the tree and empties the log.
    Whatever the fault injector does in between, what a crash leaves is opened
    with the same database; without faults [checkpoint] returns. *)

From stdpp Require Import list_numbers.
From S2P Require Import Prelude Core Crc Page Superblock DurableFile Wal WalCodec WalScan WalLog WalOpen WalSafety Format FormatCodec Cache Reference StoreState Store Checker Engine Heap Tree Own Split TreeOps Point ReadOps CheckerSpec Restamp Finish Txn Group Disk Create Recover Durable Crash Flush.

Section checkpoint.
Context `{Crc32c} {F W I : Type} `{DFL : DurableFileLaws F} `{WFL : DurableFileLaws W} `{FaultInjector I}.
Context (config : DatabaseConfig) (base : gmap PageId PageData) (D : nat) (db : ReferenceDb).
Abbreviation store := (BTreeStore F W I).
Abbreviation safe := (Flush.safe (F:=F) (W:=W) (I:=I) config base D db).
Abbreviation survives := (Flush.survives (F:=F) (W:=W) (I:=I) config base D db).

(** ** The checkpoint's superblock *)

Definition checkpoint_sb (sb : Superblock) (ck : Lsn) : Superblock :=
  mkSuperblock (sb_format_version sb) (generation sb + 1) (database_uuid sb) (tenant_id sb) (shard_id sb) (shard_epoch sb)
    (page_size sb) (root_page_id sb) (free_list_head sb) (high_water_page_id sb) ck (sb_checksum sb).

Lemma checkpoint_sb_wf sb ck : wf_superblock sb → generation sb + 1 ≤ U64_MAX → is_u64 ck → wf_superblock (checkpoint_sb sb ck).
Proof.
  intros (Hv & Hg & Hu & Ht & Hs & He & Hp & Hr & Hf & Hh & _) Hgen Hck. unfold wf_superblock. cbn [checkpoint_sb sb_format_version generation
    database_uuid tenant_id shard_id shard_epoch page_size root_page_id free_list_head high_water_page_id checkpoint_lsn].
  split_and!; try done; unfold is_u64 in *; lia.
Qed.

(** The store after the checkpoint's superblock was written to [f]. *)
Definition checkpointed (i : option I) (f : F) (ck : Lsn) (s : store) : store :=
  set_st_active_slot (other_slot (st_active_slot s)) (set_st_superblock (sealed_copy (checkpoint_sb (st_superblock s) ck)) (with_file i f s)).

Lemma live_nil ck bs : Forall (λ b, b_commit_lsn b < ck + 1) bs → live ck bs = [].
Proof.
  intros Hbs. unfold live. assert (filter (λ b, ck < b_commit_lsn b) bs = []) as ->; [|done].
  induction Hbs as [|b bs Hb _ IH]; [done|]. rewrite filter_cons_False by lia. exact IH.
Qed.

Lemma newest_twice bs ck : newest_lsn bs (newest_lsn bs ck) = newest_lsn bs ck.
Proof. unfold newest_lsn. by destruct (last bs). Qed.

(** A data file without a log. *)
Lemma recoverable_clean c sb sl hw :
  len c = file_size hw → file_size hw ≤ U64_MAX → FIRST_DATA_PAGE ≤ hw →
  choose_superblock (page_bytes c 0) (page_bytes c 1) = Ok {| slot := sl; superblock := sb |} →
  (∀ id, FIRST_DATA_PAGE ≤ id ≤ hw → is_Some (base !! id)) →
  (∀ id p, base !! id = Some p → FIRST_DATA_PAGE ≤ id ≤ hw ∧ decodes (page_bytes c id) id p) →
  recoverable c [] base sb sl hw.
Proof.
  intros Hl Hu Hhw Hsel Hcov Hp. split; try done.
  - exists hw. split; [done|lia].
  - constructor.
  - by left.
  - eexists. split; [exact Hsel|]. apply older_refl.
Qed.

Lemma holding_superblock env g sb' sl' :
  holding env g D db → locates sb' (hroot g) (hfree g) (hhw g) → wf_superblock sb' →
  holding (mkEnv (e_base env) (e_clean env) (e_next_lsn env) (e_batch_id env) sb' sl') g D db.
Proof. intros [] Hl Hwf. by split. Qed.

Section superblock.
Context (s : store) (w : WalLog W) (f : F) (bytes : list byte).
Abbreviation sb := (st_superblock s).
Abbreviation ck := (newest_lsn (w_committed w) (checkpoint_lsn sb)).
Abbreviation sb' := (sealed_copy (checkpoint_sb sb ck)).
Hypothesis So : sound (set_st_injector None s) base D db.
Hypothesis Hd : st_dirty_pages s = ∅.
Hypothesis Hds : st_dirty_superblock s = None.
Hypothesis Hw : st_wal s = Some w.
Hypothesis Hgen : generation sb + 1 ≤ U64_MAX.
Hypothesis Fl : flushed base s (st_file s).
Hypothesis Hr : reliable f.
Hypothesis Hdur : durable f = contents f.
Hypothesis Hc : contents f = splice (contents (st_file s)) (slot_page (other_slot (st_active_slot s)) * PAGE_SIZE) bytes.
Hypothesis Hdec : decode_superblock bytes = Ok sb'.

Lemma checkpoint_disk : on_disk (st_config s) (contents (st_file s)) (w_committed w) (env_of s base) (heap_of s base) ∧
  holding (env_of s base) (heap_of s base) D db.
Proof.
  destruct So as [_ _ _ (w' & v & start & segs & Hw' & _ & _ & _ & [Hod Hh] & _)]. change (st_wal s = Some w') in Hw'.
  assert (w' = w) as -> by congruence. by split.
Qed.

Lemma checkpoint_wf : wf_superblock (checkpoint_sb sb ck).
Proof.
  destruct checkpoint_disk as [[_ _ _ _ Hlim Hlatest Hck _ _] Hh]. simpl in *.
  apply checkpoint_sb_wf; [apply (rd_superblock _ _ _ _ Hh)|done|unfold is_u64; lia].
Qed.

Lemma checkpoint_page id :
  0 ≤ id ≤ st_high_water s → page_bytes (contents f) id =
    if decide (slot_page (other_slot (st_active_slot s)) = id) then bytes else page_bytes (contents (st_file s)) id.
Proof.
  intros Hid. pose proof (slot_below (other_slot (st_active_slot s))) as Hsl. pose proof (decode_superblock_len _ _ Hdec) as Hl.
  destruct Fl as [_ _ Hlen _ _ _ _]. destruct checkpoint_disk as [Hod _]. destruct (rc_file _ _ _ _ _ _ (od_pages _ _ _ _ _ Hod)) as (n & _ & Hn).
  simpl in Hn. rewrite Hc. unfold file_size in Hlen. apply page_bytes_splice; lia.
Qed.

Lemma checkpoint_flushed i : flushed base (checkpointed i f ck s) f.
Proof.
  pose proof (slot_below (other_slot (st_active_slot s))) as Hsl. pose proof (slot_below (st_active_slot s)) as Hsl'.
  pose proof (decode_superblock_len _ _ Hdec) as Hlb. pose proof Fl as [_ _ Hlen Hu Hsel Hp _]. destruct checkpoint_disk as [Hod _].
  destruct Hod as [Rc _ _ Hbs _ Hlatest _ _ _]. simpl in Rc, Hbs, Hlatest. destruct (rc_file _ _ _ _ _ _ Rc) as (n & _ & Hn).
  assert (len (contents f) = file_size (st_high_water s)) as Hlf.
  { rewrite Hc. unfold file_size in *. rewrite splice_len; [done|lia..]. }
  assert (choose_superblock (page_bytes (contents f) 0) (page_bytes (contents f) 1) =
    Ok {| slot := other_slot (st_active_slot s); superblock := sb' |}) as Hsel'.
  { apply (choose_newer (page_bytes (contents (st_file s))) (page_bytes (contents f)) _ _ _ bytes Hsel); [|..|done|simpl; lia].
    - rewrite checkpoint_page by lia. by rewrite decide_True.
    - destruct (slot_below (other_slot (other_slot (st_active_slot s)))). rewrite checkpoint_page by lia. rewrite decide_False; [done|].
      by destruct (st_active_slot s). }
  assert (∀ id p, base !! id = Some p → FIRST_DATA_PAGE ≤ id ≤ st_high_water s ∧ decodes (page_bytes (contents f) id) id p) as Hp'.
  { intros id p Hid. destruct (Hp id p Hid) as [Hin Hdec']. rewrite checkpoint_page by lia. rewrite decide_False by lia. done. }
  split; try done. intros w' Hw'. change (st_wal s = Some w') in Hw'. assert (w' = w) as -> by congruence. exists [].
  split; [|split; [|done]].
  - symmetry. apply live_nil. simpl. by rewrite <- Hlatest.
  - apply recoverable_clean; try done; [simpl; lia|]. apply Rc.
Qed.

Lemma checkpoint_sound : sound (checkpointed None f ck s) base D db.
Proof.
  pose proof (checkpoint_flushed None) as Fl'. destruct checkpoint_disk as [Hod Hh]. pose proof checkpoint_wf as Hwf.
  pose proof So as [[[R Hcache Hcap Hlim Hbr] Hwal Hrf Hi] Hcfg _ (w' & v & start & segs & Hw' & Hready & Hst & Hu & _ & _)].
  change (st_wal s = Some w') in Hw'. assert (w' = w) as -> by congruence.
  assert (holding (env_of (checkpointed None f ck s) base) (heap_of s base) D db) as Hh'.
  { apply (holding_superblock (env_of s base)); [done| |by apply sealed_wf]. by destruct (rd_locates _ _ _ _ Hh) as (? & ? & ? & ?). }
  split; [split; [split|..]| | |]; try done.
  - split; [exact Hh'|]. intros id p Hp. pose proof (flushed_committed base (checkpointed None f ck s) f None id p Fl' Hp) as Hcp.
    unfold committed_page in *. change (st_dirty_pages (checkpointed None f ck s)) with (st_dirty_pages s). rewrite Hd. exact Hcp.
  - exists w, v, start, segs. split; [exact Hw|]. split; [exact Hready|].
    destruct Hod as [Rc O2 O3 O4 O5 O6 O7 O8 O9]. simpl in Hst, Hu, O6, O7. split; [simpl; lia|]. split; [exact Hu|].
    destruct (fl_log _ _ _ Fl' w Hw) as (L & EL & Rc' & Hrep). simpl in EL, Rc', Hrep. split.
    + split; [|exact Hh']. split; try done; simpl.
      * rewrite <- EL. exact Rc'.
      * by rewrite newest_twice.
      * rewrite newest_twice. lia.
    + unfold write_back. simpl. rewrite <- EL. rewrite Hd, Hds. split_and!; [done|exact Hrep|done|apply Fl'].
Qed.

End superblock.

Lemma write_checkpoint_safe (s : store) w (ck := newest_lsn (w_committed w) (checkpoint_lsn (st_superblock s))) :
  sound (set_st_injector None s) base D db → st_config s = config → st_dirty_pages s = ∅ → st_dirty_superblock s = None →
  st_wal s = Some w → generation (st_superblock s) + 1 ≤ U64_MAX → flushed base s (st_file s) →
  safe s (write_checkpoint_superblock ck s) (λ _ s', ∃ i f, s' = checkpointed i f ck s ∧
    sound (checkpointed None f ck s) base D db ∧ flushed base s' f).
Proof.
  intros So Ec Hd Hds Hw Hgen Fl. pose proof (survives_sound _ _ _ _ s So Ec) as Hs.
  pose proof (checkpoint_wf s w So Hw Hgen) as Hwf. fold ck in Hwf. set (sb := checkpoint_sb (st_superblock s) ck) in *.
  pose proof (decode_superblock_image sb Hwf) as Hdec. pose proof (len_superblock_image sb) as Hlb.
  assert (∀ sb0, wf_superblock sb0 → encode_superblock sb0 = Ok (superblock_image sb0)) as Henc.
  { intros sb0 (?&?&?&?&?&?&?&_). by apply encode_superblock_Ok. }
  unfold write_checkpoint_superblock. apply safe_get, safe_bind.
  eapply safe_lift; [unfold checked_add; by rewrite (proj2 (Z.leb_le _ _)) by done|done|].
  apply safe_bind. eapply safe_lift; [fold sb; by apply Henc|done|]. apply safe_bind. eapply safe_lift; [exact Hdec|done|].
  apply safe_bind. eapply safe_lift; [rewrite (Henc _ (sealed_wf _ Hwf)), sealed_image; done|done|].
  apply safe_bind, safe_hit; [done|]. intros i1 _.
  pose proof (slot_below (other_slot (st_active_slot s))) as Hsl. pose proof Fl as [Hr _ Hlen Hu _ _ _].
  destruct (rc_file _ _ _ _ _ _ (od_pages _ _ _ _ _ (proj1 (checkpoint_disk s w So Hw)))) as (n & _ & Hn). simpl in Hn.
  destruct (write_all_reliable (st_file s) (slot_offset (other_slot (st_active_slot s))) (superblock_image sb) Hr) as (f1 & E1 & Hr1 & C1 & D1);
    [rewrite ?slot_offset_page; unfold file_size in *; lia..|].
  apply safe_bind, safe_or_broken. eapply safe_file; [exact E1|by apply (survives_same _ _ _ _ s)|].
  assert (∀ s', st_file s' = f1 → st_wal s' = st_wal s → survives s') as Hs1.
  { intros s' Ef Ew. apply (survives_same _ _ _ _ s); [done|by rewrite Ef|done]. }
  do 3 (apply safe_bind, safe_hit; [by apply Hs1|]; intros ? _).
  destruct (reliable_sync f1 Hr1) as [Hr2 E2]. pose proof (sync_data_law f1) as L2.
  destruct (sync_data f1) as [r2 f2] eqn:Es. cbn [fst snd] in *. subst r2. destruct L2 as [C2 D2].
  assert (contents f2 = splice (contents (st_file s)) (slot_page (other_slot (st_active_slot s)) * PAGE_SIZE) (superblock_image sb)) as Cf
    by (by rewrite C2, C1, slot_offset_page).
  assert (durable f2 = contents f2) as Df by congruence.
  pose proof (checkpoint_sound s w f2 _ So Hd Hds Hw Hgen Fl Hr2 Df Cf Hdec) as So'.
  assert (∀ s', st_file s' = f2 → st_wal s' = st_wal s → survives s') as Hs2.
  { intros s' Ef Ew. apply (survives_same _ _ _ _ (checkpointed None f2 ck s)); [|by rewrite Ef|done]. by apply survives_sound. }
  apply safe_bind, safe_or_broken. eapply safe_file; [exact Es|by apply Hs2|].
  apply safe_bind, safe_or_broken, safe_hit; [by apply Hs2|]. intros i5 _.
  apply safe_bind, safe_modify; [by apply Hs2|done|]. apply safe_modify.
  { by apply Hs2. }
  { change (i5 = None → i5 = None). done. }
  exists i5, f2. split; [reflexivity|]. split; [exact So'|]. exact (checkpoint_flushed s w f2 _ So Hw Fl Hr2 Df Cf Hdec i5).
Qed.

(** ** Emptying the log *)

Lemma on_disk_reset c bs env g (ck := checkpoint_lsn (e_superblock env)) :
  on_disk config c bs env g → newest_lsn bs ck = ck → on_disk config c [] env g.
Proof.
  intros [Rc O2 O3 O4 O5 O6 O7 O8 O9] Hfull. fold ck in Rc, O6, O7. rewrite Hfull in O6.
  assert (live ck bs = []) as E by (apply live_nil; by rewrite <- O6). rewrite E in Rc. split; try done. unfold newest_lsn. simpl. fold ck. lia.
Qed.

Section reset.
Context (s : store) (w : WalLog W).
Abbreviation ck := (checkpoint_lsn (st_superblock s)).
Hypothesis So : sound (set_st_injector None s) base D db.
Hypothesis Ec : st_config s = config.
Hypothesis Hw : st_wal s = Some w.
Hypothesis Hfull : newest_lsn (w_committed w) ck = ck.

Lemma reset_log : ∃ v start segs, wal_ready w v (config_identity config) start segs ∧ start ≤ ck < U64_MAX ∧ reliable (w_file w) ∧
  durable (w_file w) = contents (w_file w) ∧ len (contents (w_file w)) ≤ U64_MAX ∧
  on_disk config (contents (st_file s)) (w_committed w) (env_of s base) (heap_of s base) ∧ holding (env_of s base) (heap_of s base) D db ∧
  durable (st_file s) = contents (st_file s) ∧ wf_config config ∧ 0 ≤ ck.
Proof.
  destruct So as [Sv Hcfg Hd (w' & v & start & segs & Hw' & Hready & Hst & Hu & [Hod Hh] & _)].
  destruct (sv_wal _ _ _ _ Sv) as (w2 & _ & _ & _ & _ & Hw2 & _ & _ & _ & Hrel & Hdur).
  change (st_wal s = Some w') in Hw'. assert (w' = w) as -> by congruence. change (st_wal s = Some w2) in Hw2. assert (w2 = w) as -> by congruence.
  change (st_config (set_st_injector None s)) with (st_config s) in *. rewrite Ec in *.
  pose proof (od_limit _ _ _ _ _ Hod) as Hlim. pose proof (od_latest _ _ _ _ _ Hod) as Hlat. pose proof (od_checkpoint _ _ _ _ _ Hod) as Hck.
  simpl in Hlim, Hlat, Hck, Hst, Hd. rewrite Hfull in Hlat, Hck.
  exists v, start, segs. split_and!; try done; lia.
Qed.

(** The old log and every prefix of the new one are opened. *)
Lemma reset_opens (f : F) (wf : W) (i : option I) :
  at_rest f wf → contents f = contents (st_file s) →
  contents wf = contents (w_file w) ∨ contents wf `prefix_of` init_image (config_identity config) ck →
  ∃ s' out, open_with_wal config (f, wf, i) = (Ok s', out) ∧ sound s' base D db ∧ st_config s' = config.
Proof.
  intros [Hrf Hrw Hdf Hdw] Hf Hwf. destruct reset_log as (v & start & segs & Hready & Hst & _ & _ & Hu & Hod & Hh & _ & Hcfg & Hck0).
  pose proof Hready as ((Hok & _ & _ & _ & Hb & Hcom & _) & _).
  destruct (open_after_reset (I:=I) v (config_identity config) start segs ck (w_file w) wf Hok Hb Hu ltac:(lia) Hrw Hwf)
    as (wal & w' & Ho & Hat & <- & Hrw' & Hd').
  rewrite <- Hf in Hod. destruct Hat as [Hat|Hat]; pose proof Hat as (_ & _ & _ & _ & Hbytes & Hcom' & _).
  - rewrite Hcom, <- Hcom' in Hod. apply (open_stored config f wf i wal v start segs (env_of s base) (heap_of s base) D db); try done.
    + simpl. lia.
    + by apply Hd'.
    + by rewrite Hbytes, <- Hb.
  - apply on_disk_reset in Hod; [|exact Hfull].
    apply (open_stored config f wf i wal WAL_FORMAT_VERSION ck [] (env_of s base) (heap_of s base) D db); try done.
    + rewrite Hcom'. by split.
    + by apply Hd'.
    + rewrite Hbytes, history_bytes_nil. pose proof (len_init_image (config_identity config) ck) as ->. by vm_compute.
Qed.

(** The store with the empty log [w']. *)
Definition emptied (i : option I) (w' : WalLog W) : store :=
  set_st_next_batch_id (w_next_batch_id w') (set_st_next_lsn (w_next_lsn w') (set_st_injector i (set_st_wal (Some w') s))).

Lemma emptied_sound w' :
  st_dirty_pages s = ∅ → st_dirty_superblock s = None → flushed base s (st_file s) →
  wal_ready w' WAL_FORMAT_VERSION (config_identity config) ck [] → reliable (w_file w') → durable (w_file w') = contents (w_file w') →
  sound (emptied None w') base D db.
Proof.
  intros Hd Hds Fl Hready Hrel Hdur. destruct reset_log as (v & start & segs & _ & Hst & _ & _ & _ & Hod & Hh & _ & Hcfg & Hck0).
  pose proof So as [[[R Hcache Hcap Hlim Hbr] _ Hrf _] _ Hdf _].
  pose proof Hready as ((_ & _ & _ & _ & Hbytes & Hcom & Hb & _) & Hlsn). simpl in Hb, Hlsn, Hcom.
  apply on_disk_reset in Hod; [|exact Hfull]. pose proof (od_latest _ _ _ _ _ Hod) as Hlat. unfold newest_lsn in Hlat. simpl in Hlat.
  assert (holding (env_of (emptied None w') base) (heap_of s base) D db) as Hh'.
  { eapply holding_env; [exact Hh|done|done|simpl; lia|simpl; lia]. }
  split; [split; [split|..]| | |]; try done.
  - split; [exact Hh'|]. exact (rd_base _ _ _ _ _ R).
  - by exists w', WAL_FORMAT_VERSION, (config_identity config), ck, [].
  - change (wf_config (st_config s)). by rewrite Ec.
  - exists w', WAL_FORMAT_VERSION, ck, []. change (st_config (emptied None w')) with (st_config s). change (st_superblock (emptied None w')) with (st_superblock s).
    change (st_file (emptied None w')) with (st_file s). rewrite Ec, Hcom. split_and!; try done.
    + rewrite Hbytes, history_bytes_nil. rewrite (len_init_image (config_identity config) ck). by vm_compute.
    + split; [|exact Hh']. destruct Hod as [Rc O2 O3 O4 O5 O6 O7 O8 O9]. split; try done. simpl in *. lia.
    + unfold write_back. simpl. rewrite Hd, Hds. split_and!; try done. apply Fl.
Qed.

Lemma reset_safe :
  st_dirty_pages s = ∅ → st_dirty_superblock s = None → flushed base s (st_file s) → 0 ≤ w_sync_count w < U64_MAX →
  safe s (reset_wal ck s) (λ _ s', ∃ i w', s' = emptied i w' ∧ sound (emptied None w') base D db ∧ w_committed w' = [] ∧ reliable (w_file w')).
Proof.
  intros Hd Hds Fl Hsync. destruct reset_log as (v & start & segs & [Hat Hlsn] & Hst & Hrel & Hdur & Hu & Hod & Hh & Hdf & Hcfg & Hck0).
  unfold reset_wal. rewrite Hw.
  destruct (reset_spec (config_identity config) ck (w, st_injector s) v start segs Hat Hst Hsync) as ((Hc & Hq & Hrd) & Hok & Hlive).
  destruct (reset ck (w, st_injector s)) as [r [w' i']]. cbn [fst snd] in *. destruct (Hrd Hrel) as [Hrel' Hdd]. rewrite Hdur in Hdd.
  assert (∀ s', st_file s' = st_file s → st_wal s' = Some w' → survives s') as Hs'.
  { intros s' Ef Ew f wf i w2 Ar Hf Hw2 Hwf. rewrite Ew in Hw2. injection Hw2 as <-. rewrite Ef, Hdf in Hf. apply reset_opens; [done|done|].
    unfold reset_bytes in *. cbn [fst] in *.
    destruct Hwf as [->| ->]; [destruct Hc as [->|[k ->]]; [by left|right; apply prefix_take]|].
    destruct Hdd as [->|[->|[k ->]]]; [by left|by left|right; apply prefix_take]. }
  assert (st_injector s = None → quiet (w, st_injector s)) as Hqt by (intros Hi; split; [done|by rewrite Hi]).
  destruct r as [[]|e| |].
  - destruct (Hok eq_refl) as [Hready Hdur']. split_and!; [by apply Hs'| |done]. intros [] _. split.
    + exists i', w'. split; [done|]. split; [by apply emptied_sound|]. split; [|done]. by destruct Hready as ((_ & _ & _ & _ & _ & -> & _) & _).
    + intros Hi%Hqt%Hq. by destruct Hi.
  - split_and!; [by apply Hs'|done|]. intros Hi%Hqt%Hlive. done.
  - split_and!; [by apply Hs'|done|]. intros Hi%Hqt%Hlive. done.
  - split_and!; [by apply Hs'|done|]. intros Hi%Hqt%Hlive. done.
Qed.

End reset.

(** ** The whole checkpoint *)

(** Everything is in the data file, and its superblock says so. *)
Record complete (s : store) (w : WalLog W) : Prop := {
  co_sound : sound (set_st_injector None s) base D db;
  co_config : st_config s = config;
  co_wal : st_wal s = Some w;
  co_pages : st_dirty_pages s = ∅;
  co_superblock : st_dirty_superblock s = None;
  co_file : flushed base s (st_file s);
  co_full : newest_lsn (w_committed w) (checkpoint_lsn (st_superblock s)) = checkpoint_lsn (st_superblock s)
}.

Lemma clean_id i f (s : store) : st_dirty_pages s = ∅ → st_dirty_superblock s = None → clean i f s = with_file i f s.
Proof. destruct s. simpl. by intros -> ->. Qed.

Lemma complete_injector s w i : complete s w → complete (set_st_injector i s) w.
Proof. intros [So Ec Hw Hd Hds [] Hfull]. split; try done. Qed.

Lemma complete_survives s w s' : complete s w → st_file s' = st_file s → st_wal s' = st_wal s → survives s'.
Proof. intros [So Ec Hw _ _ _ _] Ef Ew. apply (survives_same _ _ _ _ s); [by apply survives_sound|by rewrite Ef|done]. Qed.

Lemma check_complete s w :
  complete s w → ∃ report f, check_invariants s = (Ok report, set_st_file f s) ∧ complete (set_st_file f s) w.
Proof.
  intros [So Ec Hw Hd Hds Fl Hfull]. pose proof (rd_tree _ _ _ _ (sv_holding _ _ _ _ (sd_serving _ _ _ _ So))) as (t & fl & DB & _ & _ & Hm).
  destruct (check_spec base D db s (st_injector s) (st_file s) t fl So Fl DB Hm) as (f' & E & Fl').
  rewrite !clean_id in E by done. assert (with_file (st_injector s) (st_file s) s = s) as Es by (by destruct s). rewrite Es in E.
  exists (report_of t fl), f'. assert (with_file (st_injector s) f' s = set_st_file f' s) as Ef by (by destruct s). split; [by rewrite E, Ef|].
  pose proof (flushed_sound base D db s f' So Fl') as So'. rewrite clean_id in So' by done. destruct Fl'. by split.
Qed.

Lemma bytes_fit (s : store) w b1 b2 : st_wal s = Some w → sound (set_st_injector None s) base D db →
  ∃ n, checkpoint_bytes (Z.of_nat (size (st_dirty_pages s))) b1 b2 = Some n.
Proof.
  intros Hw [_ _ _ (w' & v & start & segs & _ & _ & _ & _ & [Hod _] & Un)]. pose proof (od_pages _ _ _ _ _ Hod) as Rc. simpl in Rc.
  destruct Un as (Hr & _). simpl in Hr. destruct (rc_file _ _ _ _ _ _ Rc) as (n & _ & Hn). pose proof (rc_bound _ _ _ _ _ _ Rc) as Hb.
  assert (Z.of_nat (size (st_dirty_pages s)) ≤ st_high_water s - 1) as Hsz.
  { rewrite <- size_dom. assert (dom (st_dirty_pages s) ⊆ (list_to_set (seqZ FIRST_DATA_PAGE (st_high_water s - 1)) : gset Z)) as Hsub%subseteq_size.
    { intros id [b Hid]%elem_of_dom. rewrite elem_of_list_to_set, elem_of_seqZ. specialize (Hr id b Hid). lia. }
    rewrite fin_sets.size_list_to_set, length_seqZ in Hsub by apply NoDup_seqZ. lia. }
  unfold file_size in Hb. unfold checkpoint_bytes, u64_try_from, checked_mul, checked_add.
  rewrite (proj2 (Z.leb_le (Z.of_nat _) _)) by lia. cbn [mbind option_bind].
  rewrite (proj2 (Z.leb_le (_ * _) _)) by lia. cbn [mbind option_bind].
  rewrite (proj2 (Z.leb_le (_ + _) _)) by (destruct b1; lia). cbn [mbind option_bind].
  rewrite (proj2 (Z.leb_le (_ + _ + _) _)) by (destruct b1, b2; lia). eauto.
Qed.

(** The superblock, when there is a commit since the last one. *)
Lemma record_checkpoint_safe s w (ck := newest_lsn (w_committed w) (checkpoint_lsn (st_superblock s))) :
  sound (set_st_injector None s) base D db → st_config s = config → st_dirty_pages s = ∅ → st_dirty_superblock s = None →
  st_wal s = Some w → generation (st_superblock s) + 1 ≤ U64_MAX → flushed base s (st_file s) →
  safe s ((if checkpoint_lsn (st_superblock s) <? ck then write_checkpoint_superblock ck else ret tt) s)
    (λ _ s', complete s' w ∧ checkpoint_lsn (st_superblock s') = ck).
Proof.
  intros So Ec Hd Hds Hw Hgen Fl. destruct (_ <? ck) eqn:E; bool_props.
  - eapply safe_mono; [by apply (write_checkpoint_safe s w)|]. intros _ s' (i & f & -> & So' & Fl'). split; [|done].
    split; try done. apply newest_twice.
  - destruct So as [Sv Hcfg Hdf (w' & v & start & segs & Hw' & Hrd & Hst & Hu & [Hod Hh] & Un)] eqn:E'. clear E'.
    change (st_wal s = Some w') in Hw'. assert (w' = w) as -> by congruence. pose proof (od_checkpoint _ _ _ _ _ Hod) as Hck. simpl in Hck.
    apply safe_ret; [by apply survives_sound|]. split; [|unfold ck in *; lia]. split; try done. unfold ck in *. lia.
Qed.

Lemma empty_log_safe s w :
  complete s w → 0 ≤ w_sync_count w < U64_MAX → let ck := checkpoint_lsn (st_superblock s) in
  safe s ((if is_some_and (st_wal s) (λ w, negb (is_empty (w_committed w)) || (w_history_start_lsn w <? ck)) then reset_wal ck else ret tt) s)
    (λ _ s', sound (set_st_injector None s') base D db ∧ st_config s' = config ∧ st_dirty_pages s' = ∅ ∧
       ∃ w', st_wal s' = Some w' ∧ w_committed w' = [] ∧ reliable (w_file w')).
Proof.
  intros [So Ec Hw Hd Hds Fl Hfull] Hsync ck. rewrite Hw. cbn [is_some_and].
  destruct (negb (is_empty (w_committed w)) || _) eqn:E.
  - eapply safe_mono; [by apply (reset_safe s w)|]. intros _ s' (i & w' & -> & So' & Hc & Hr). split_and!; [exact So'|done|done|].
    by exists w'.
  - apply orb_false_iff in E as [E _]. apply safe_ret; [by apply survives_sound|]. split_and!; try done. exists w. split_and!; [done| |].
    + by destruct (w_committed w).
    + destruct (sv_wal _ _ _ _ (sd_serving _ _ _ _ So)) as (w2 & _ & _ & _ & _ & Hw2 & _ & _ & _ & Hrel & _).
      change (st_wal s = Some w2) in Hw2. by assert (w2 = w) as -> by congruence.
Qed.

(** The whole checkpoint, interrupted or not. *)
Lemma checkpoint_safe s w elapsed (ck := newest_lsn (w_committed w) (checkpoint_lsn (st_superblock s))) :
  sound (set_st_injector None s) base D db → st_config s = config → st_wal s = Some w →
  generation (st_superblock s) + 1 ≤ U64_MAX → 0 ≤ w_sync_count w < U64_MAX →
  safe s (checkpoint elapsed s) (λ report s', rep_checkpoint_lsn report = ck ∧ pages_flushed report = Z.of_nat (size (st_dirty_pages s)) ∧
    sound (set_st_injector None s') base D db ∧ st_config s' = config ∧ st_dirty_pages s' = ∅ ∧
    ∃ w', st_wal s' = Some w' ∧ w_committed w' = []).
Proof.
  intros So Ec Hw Hgen Hsync. pose proof (survives_sound _ _ _ _ s So Ec) as Hs.
  pose proof (rp_serving _ _ _ _ (sv_represents _ _ _ _ (sd_serving _ _ _ _ So))) as Hbr. simpl in Hbr.
  destruct (sv_wal _ _ _ _ (sd_serving _ _ _ _ So)) as (w2 & _ & _ & _ & _ & Hw2 & _ & _ & _ & Hrel & _).
  change (st_wal s = Some w2) in Hw2. assert (w2 = w) as -> by congruence. clear Hw2.
  pose proof (checkpoint_disk s w So Hw) as [Hod _]. pose proof (od_checkpoint _ _ _ _ _ Hod) as Hck. simpl in Hck.
  destruct (bytes_fit s w (negb (is_none (st_dirty_superblock s))) (checkpoint_lsn (st_superblock s) <? ck) Hw So) as [n En].
  unfold checkpoint. apply safe_bind. unfold not_broken. apply safe_gets. rewrite Hbr. apply safe_ret; [done|].
  apply safe_bind, safe_hit; [done|]. intros i1 _. apply safe_get. set (s1 := set_st_injector i1 s).
  change (st_wal s1) with (st_wal s). rewrite Hw. apply safe_bind. eapply safe_lift; [done|by apply (survives_same _ _ _ _ s)|].
  change (st_superblock s1) with (st_superblock s). rewrite latest_newest. fold ck. rewrite (proj2 (Z.ltb_ge ck _)) by (unfold ck; lia). cbn [negb].
  change (st_dirty_pages s1) with (st_dirty_pages s). change (st_dirty_superblock s1) with (st_dirty_superblock s). rewrite En.
  apply safe_bind. eapply safe_lift; [done|by apply (survives_same _ _ _ _ s)|].
  apply safe_bind. eapply safe_lift; [unfold metrics; rewrite (len_reliable _ Hrel); done|by apply (survives_same _ _ _ _ s)|].
  apply safe_bind, safe_hit; [by apply (survives_same _ _ _ _ s)|]. intros i2 _. apply safe_bind, safe_mapping.
  eapply safe_mono; [by apply flush_safe|]. intros _ s2 (i3 & f & -> & Fl).
  assert (flushed base s f) as Fl' by (destruct Fl; by split). pose proof (flushed_sound base D db s f So Fl') as So2.
  assert (∀ s', st_file s' = f → st_wal s' = st_wal s → survives s') as Hs2.
  { intros s' Ef Ew. apply (survives_same _ _ _ _ (clean None f s)); [by apply survives_sound|by rewrite Ef|done]. }
  apply safe_bind, safe_hit; [by apply Hs2|]. intros i4 _. set (s3 := set_st_injector i4 _). apply safe_bind.
  assert (flushed base s3 (st_file s3)) as Fl3 by (destruct Fl'; by split).
  eapply safe_mono; [exact (record_checkpoint_safe s3 w So2 Ec eq_refl eq_refl Hw Hgen Fl3)|]. intros _ s4 [Co4 Eck].
  destruct (check_complete s4 w Co4) as (report & f5 & E5 & Co5).
  apply safe_bind, safe_or_broken. rewrite E5. split_and!; [by eapply complete_survives| |done]. intros r [= <-]. split; [|done].
  apply safe_get, safe_bind. change (checkpoint_lsn (st_superblock (set_st_file f5 s4)) = ck) in Eck. rewrite <- Eck.
  eapply safe_mono; [by apply (empty_log_safe (set_st_file f5 s4) w)|]. intros _ s6 (So6 & Ec6 & Hd6 & w' & Hw6 & Hc6 & Hr6).
  pose proof (survives_sound _ _ _ _ s6 So6 Ec6) as Hs6.
  apply safe_bind, safe_or_broken, safe_hit; [done|]. intros i7 _. apply safe_get, safe_bind.
  eapply safe_lift; [unfold wal_metrics; change (st_wal (set_st_injector i7 s6)) with (st_wal s6); rewrite Hw6; unfold metrics; rewrite (len_reliable _ Hr6); done|by apply (survives_same _ _ _ _ s6)|].
  apply safe_ret; [by apply (survives_same _ _ _ _ s6)|]. split_and!; try done. by exists w'.
Qed.

End checkpoint.
