(* ===== verification/System.v ===== *)
(** * System: every run of a database refines the reference database

    The database as a state machine: transaction groups, reads, flushes,
    invariant checks, checkpoints, and crashes - of an idle store, inside a
    group, and inside a checkpoint - followed by a restart.  Whatever the
    sequence, the store that serves next represents the result of executing the
    requests that were answered, and of a group that a crash cut short some of
    its first requests, one after the other. *)

From stdpp Require Import list_numbers.
From S2P Require Import Prelude Core Crc Page Superblock DurableFile Wal WalCodec WalScan WalLog WalOpen WalSafety Format FormatCodec Cache Reference StoreState Store Checker Engine Heap Tree Own Split TreeOps Point ReadOps CheckerSpec Restamp Finish Txn Group Serve Disk Create Recover Durable Crash Flush Checkpoint.

(** ** The depth of a tree *)

Lemma depth_pages D : ∀ t next, bal D t → (D < length (tree_pages t next))%nat.
Proof.
  induction D as [|D IH]; intros [id lsn es|id lsn t f] next Hb; simpl in *; try lia; try done.
  destruct Hb as [Hb _]. specialize (IH t (first_or f next) Hb). rewrite length_app. lia.
Qed.

Lemma depth_bound g D db : holds_states g D db → (D ≤ Z.to_nat (hhw g))%nat.
Proof.
  intros (t & fl & DB & Hb & _). apply (depth_pages _ _ None) in Hb. destruct (db_owns _ _ _ DB) as [_ _ _ Hids _].
  apply Permutation_length in Hids. rewrite !length_app, !length_fmap, length_app, length_seqZ in Hids. lia.
Qed.

Section system.
Context `{Crc32c} {F W I : Type} `{DFL : DurableFileLaws F} `{WFL : DurableFileLaws W} `{FaultInjector I}.
Abbreviation store := (BTreeStore F W I).

Lemma group_room_mono (s : store) D D' times requests :
  0 ≤ st_high_water s → (D ≤ D')%nat → group_room s D' times requests → group_room s D times requests.
Proof.
  intros Hhw HD (R1 & R2 & R3 & R4 & R5). assert (0 ≤ WRITE_PAGES) by (by vm_compute).
  assert (0 ≤ group_pages s D requests ≤ group_pages s D' requests) as Hp by (unfold group_pages; nia).
  split_and!; try done; [lia|nia|]. destruct (st_wal s); [|done]. eapply wal_room_mono; [exact R5|nia].
Qed.

(** ** Steps *)

(** What a client sees of a step: a group that was answered, or one that a
    crash cut short. *)
Inductive event : Type :=
  | Answered (requests : list TransactionRequest) (results : list (Result Error TransactionResult))
  | Interrupted (requests : list TransactionRequest) (results : list (Result Error TransactionResult)).

(** A group that the store can take. *)
Definition takes (s : store) (times : PublishTimes) (requests : list TimedRequest) : Prop :=
  Forall (λ t, small_request s (timed_request t)) requests ∧ group_room s (Z.to_nat (st_high_water s)) times requests.

(** The files of the crashed store [s], with the log [wf]. *)
Definition crashed (s : store) (f : F) (wf : W) : Prop := at_rest f wf ∧ contents f = durable (st_file s).

(** The log at a crash of an idle store, or of one that was checkpointing:
    everything that was written, or what was durable. *)
Definition log_left (s : store) (wf : W) : Prop :=
  ∃ w, st_wal s = Some w ∧ (contents wf = contents (w_file w) ∨ contents wf = durable (w_file w)).

(** The superblock in memory is the one in the file. *)
Definition checksummed (s : store) : Prop := sb_checksum (st_superblock s) ≠ 0.

Inductive step : store → list event → store → Prop :=
  | step_group s times requests results s' :
      takes s times requests → apply_transaction_group times requests s = (Ok results, s') →
      step s [Answered (timed_request <$> requests) results] s'
  | step_read s times requests maximum r s' :
      Forall read_request requests → apply_batch_with_response_budget times requests maximum s = (r, s') → step s [] s'
  | step_flush s s' : checksummed s → flush s = (Ok tt, s') → step s [] s'
  | step_check s report s' : checksummed s → check_invariants s = (Ok report, s') → step s [] s'
  | step_checkpoint s elapsed report s' w :
      checksummed s → st_wal s = Some w → generation (st_superblock s) + 1 ≤ U64_MAX → 0 ≤ w_sync_count w < U64_MAX →
      checkpoint elapsed s = (Ok report, s') → step s [] s'
  | step_crash s f wf i s' out :
      crashed s f wf → log_left s wf → open_with_wal (st_config s) (f, wf, i) = (Ok s', out) → step s [] s'
  | step_crash_group s times requests results s1 w w1 f wf i s' out :
      takes s times requests → apply_transaction_group times requests s = (Ok results, s1) →
      crashed s f wf → st_wal s = Some w → st_wal s1 = Some w1 →
      contents (w_file w) `prefix_of` contents wf → contents wf `prefix_of` contents (w_file w1) →
      open_with_wal (st_config s) (f, wf, i) = (Ok s', out) →
      step s [Interrupted (timed_request <$> requests) results] s'
  | step_crash_checkpoint s inj elapsed r s1 w f wf i s' out :
      checksummed s → st_wal s = Some w → generation (st_superblock s) + 1 ≤ U64_MAX → 0 ≤ w_sync_count w < U64_MAX →
      checkpoint elapsed (set_st_injector inj s) = (r, s1) → crashed s1 f wf → log_left s1 wf →
      open_with_wal (st_config s) (f, wf, i) = (Ok s', out) → step s [] s'.

Inductive run : store → list event → store → Prop :=
  | run_nil s : run s [] s
  | run_cons s e s1 es s2 : step s e s1 → run s1 es s2 → run s (e ++ es) s2.

(** The events, explained by the reference database. *)
Inductive explains : ReferenceDb → list event → ReferenceDb → Prop :=
  | explains_nil db : explains db [] db
  | explains_answered db requests results db1 es db2 :
      serial db requests results db1 → explains db1 es db2 → explains db (Answered requests results :: es) db2
  | explains_interrupted db requests results m db1 es db2 :
      serial db (take m requests) (take m results) db1 → explains db1 es db2 → explains db (Interrupted requests results :: es) db2.

Lemma explains_app db es db1 es' db2 : explains db es db1 → explains db1 es' db2 → explains db (es ++ es') db2.
Proof. induction 1; intros; simpl; [done|by econstructor; eauto..]. Qed.

(** ** Every step keeps the database *)

Lemma flush_clean (s : store) w :
  st_wal s = Some w → st_dirty_pages s = ∅ → st_dirty_superblock s = None → flush_dirty_pages s = (Ok tt, s).
Proof.
  intros Hw Hd Hs. unfold flush_dirty_pages. rewrite bind_eq. unfold get. rewrite Hw, Hs. cbn [is_none]. by rewrite bool_decide_eq_true_2.
Qed.


Section steps.
Context (s : store) (base : gmap PageId PageData) (D : nat) (db : ReferenceDb).

Lemma sound_injector : sound s base D db → set_st_injector None s = s.
Proof. intros So. pose proof (sv_injector _ _ _ _ (sd_serving _ _ _ _ So)) as <-. by destruct s. Qed.

Lemma sound_wal : sound s base D db → ∃ w, st_wal s = Some w.
Proof. intros [_ _ _ (w & _ & _ & _ & Hw & _)]. by exists w. Qed.

Lemma usable_sound : usable s base D db → checksummed s → sound s base D db.
Proof. intros [So|(Hz & _)] Hc; [done|by destruct Hc]. Qed.

Lemma usable_takes times requests : usable s base D db → takes s times requests → group_room s D times requests.
Proof.
  intros Us [_ Hroom]. destruct (usable_recheck _ _ _ _ Us) as [Sv _]. pose proof (sv_holding _ _ _ _ Sv) as Hh.
  apply (group_room_mono s D (Z.to_nat (st_high_water s))); [|exact (depth_bound _ _ _ (rd_tree _ _ _ _ Hh))|done].
  destruct (rd_tree _ _ _ _ Hh) as (t & fl & DB & _). pose proof (db_hhw _ _ _ DB) as Hw. simpl in Hw. lia.
Qed.

Lemma usable_reads s' : usable s base D db → reads_base s (env_of s base) s' → usable s' base D db.
Proof.
  intros [So|(Hz & Sv & n & So)] B; [left; by eapply sound_reads|right]. split_and!.
  - assert (st_superblock s' = st_superblock s) as -> by (by rewrite (rb_same _ _ _ B)). done.
  - by eapply serving_reads.
  - exists n. eapply sound_reads; [exact So|by apply recheck_reads].
Qed.

Lemma flush_sound : sound s base D db →
  ∃ f, flush_dirty_pages s = (Ok tt, clean None f s) ∧ flushed base s f ∧ sound (clean None f s) base D db.
Proof.
  intros So. pose proof (sound_injector So) as Ei. pose proof (sv_injector _ _ _ _ (sd_serving _ _ _ _ So)) as Hi.
  assert (sound (set_st_injector None s) base D db) as So' by (by rewrite Ei).
  destruct (flush_safe (st_config s) base D db s So' eq_refl) as (_ & Hok & Hl).
  destruct (flush_dirty_pages s) as [[[]|e| |] s']; try by specialize (Hl Hi).
  cbn [fst snd] in Hok. destruct (Hok tt eq_refl) as [(i & f & -> & Fl) Hin]. specialize (Hin Hi). simpl in Hin. subst i.
  exists f. split_and!; [done|done|by apply flushed_sound].
Qed.

Lemma check_sound : sound s base D db → ∃ t fl f, check_invariants s = (Ok (report_of t fl), clean None f s) ∧
  db_at (heap_of s base) t fl ∧ states_of (entries t) = states db ∧ sound (clean None f s) base D db.
Proof.
  intros So. destruct (flush_sound So) as (f & Ef & Fl & _). destruct (sound_wal So) as [w Hw].
  assert (sound (set_st_injector None s) base D db) as So' by (by rewrite (sound_injector So)).
  pose proof (rd_tree _ _ _ _ (sv_holding _ _ _ _ (sd_serving _ _ _ _ So))) as (t & fl & DB & _ & _ & Hm).
  destruct (check_spec base D db s None f t fl So' Fl DB Hm) as (f' & Ec & Fl'). exists t, fl, f'. split_and!; [|done|done|by apply flushed_sound].
  assert (flush_dirty_pages (clean None f s) = (Ok tt, clean None f s)) as Ef2 by (by apply (flush_clean _ w)).
  rewrite <- Ec. unfold check_invariants. rewrite bind_eq. unfold get at 1. rewrite Hw. cbn [is_none]. rewrite bind_eq, Ef.
  symmetry. rewrite bind_eq. unfold get at 1. change (st_wal (clean None f s)) with (st_wal s). rewrite Hw. cbn [is_none].
  by rewrite bind_eq, Ef2.
Qed.

Lemma crash_sound (f : F) (wf : W) i : usable s base D db → crashed s f wf → log_left s wf →
  ∃ s' out, open_with_wal (st_config s) (f, wf, i) = (Ok s', out) ∧ sound s' base D db.
Proof.
  intros Us [Ar Hf] (w & Hw & Hl). destruct (usable_recheck _ _ _ _ Us) as (Sv & n & So).
  destruct (sv_wal _ _ _ _ Sv) as (w' & _ & _ & _ & _ & Hw' & _ & _ & _ & _ & Hd). assert (w' = w) as -> by congruence. rewrite Hd in Hl.
  pose proof (sd_durable _ _ _ _ So) as Hdf. change (durable (st_file s) = contents (st_file s)) in Hdf. rewrite Hdf in Hf.
  destruct (reopen_sound (recheck n s) base D db w f wf i So Hw Ar Hf) as (s' & out & E & So' & _); [by destruct Hl|].
  by exists s', out.
Qed.

End steps.

Lemma checkpoint_sound_safe (s : store) base D db elapsed w inj :
  sound s base D db → st_wal s = Some w → generation (st_superblock s) + 1 ≤ U64_MAX → 0 ≤ w_sync_count w < U64_MAX →
  safe (st_config s) base D db (set_st_injector inj s) (checkpoint elapsed (set_st_injector inj s)) (λ report s',
    rep_checkpoint_lsn report = newest_lsn (w_committed w) (checkpoint_lsn (st_superblock s)) ∧
    pages_flushed report = Z.of_nat (size (st_dirty_pages s)) ∧
    sound (set_st_injector None s') base D db ∧ st_config s' = st_config s ∧ st_dirty_pages s' = ∅ ∧ ∃ w', st_wal s' = Some w' ∧ w_committed w' = []).
Proof.
  intros So Hw Hg Hs. assert (sound (set_st_injector None s) base D db) as So' by (by rewrite (sound_injector _ _ _ _ So)).
  exact (checkpoint_safe (st_config s) base D db (set_st_injector inj s) w elapsed So' eq_refl Hw Hg Hs).
Qed.

Lemma step_usable (s : store) es s' base D db :
  step s es s' → usable s base D db → ∃ base' D' db', usable s' base' D' db' ∧ explains db es db'.
Proof.
  intros Hstep Us. revert base D db Us. destruct Hstep as
    [s times requests results s' Ht E|s times requests maximum r s' Hr E|s s' Hc E|s report s' Hc E|s elapsed report s' w Hc Hw Hg Hn E
    |s f wf i s' out Hcr Hl E|s times requests results s1 w w1 f wf i s' out Ht E Hcr Hw Hw1 Hp1 Hp2 Eo
    |s inj elapsed r s1 w f wf i s' out Hc Hw Hg Hn E Hcr Hl Eo]; intros base D db Us.
  - destruct (group_usable s base D db times requests Us (proj1 Ht) (usable_takes _ _ _ _ _ _ Us Ht))
      as (rs & s2 & base' & D' & db' & E' & Hser & Us' & _). rewrite E in E'. injection E' as -> ->.
    exists base', D', db'. split; [done|]. econstructor; [done|constructor].
  - destruct (usable_recheck _ _ _ _ Us) as [Sv _].
    destruct (read_batch_spec s base D db times requests maximum Sv Hr) as (r' & s2 & E' & _ & B & _). rewrite E in E'. injection E' as -> ->.
    exists base, D, db. split; [by eapply usable_reads|constructor].
  - pose proof (usable_sound _ _ _ _ Us Hc) as So. destruct (sound_wal _ _ _ _ So) as [w Hw].
    destruct (flush_sound _ _ _ _ So) as (f & E' & _ & So'). unfold flush in E. rewrite bind_eq in E. unfold get in E. rewrite Hw in E. cbn [is_none] in E.
    rewrite E' in E. injection E as <-. exists base, D, db. split; [by left|constructor].
  - pose proof (usable_sound _ _ _ _ Us Hc) as So. destruct (check_sound _ _ _ _ So) as (t & fl & f & E' & _ & _ & So').
    rewrite E' in E. injection E as _ <-. exists base, D, db. split; [by left|constructor].
  - pose proof (usable_sound _ _ _ _ Us Hc) as So. destruct (checkpoint_sound_safe s base D db elapsed w None So Hw Hg Hn) as (_ & Hok & _).
    rewrite (sound_injector _ _ _ _ So), E in Hok. destruct (Hok report eq_refl) as [(_ & _ & So' & _) Hin]. cbn [fst snd] in *.
    specialize (Hin (sv_injector _ _ _ _ (sd_serving _ _ _ _ So))).
    assert (set_st_injector None s' = s') as Es by (rewrite <- Hin; by destruct s'). rewrite Es in So'.
    exists base, D, db. split; [by left|constructor].
  - destruct (crash_sound s base D db f wf i Us Hcr Hl) as (s2 & out' & E' & So'). rewrite E in E'. injection E' as -> ->.
    exists base, D, db. split; [by left|constructor].
  - destruct (group_usable s base D db times requests Us (proj1 Ht) (usable_takes _ _ _ _ _ _ Us Ht))
      as (rs & s2 & base' & D' & db' & E' & _ & _ & _ & _ & _ & _ & Hcrash). rewrite E in E'. injection E' as <- <-.
    destruct Hcr as [Ar Hf]. destruct (usable_recheck _ _ _ _ Us) as (_ & n & So). pose proof (sd_durable _ _ _ _ So) as Hdf.
    change (durable (st_file s) = contents (st_file s)) in Hdf. rewrite Hdf in Hf.
    destruct (Hcrash w w1 f wf i Hw Hw1 Ar Hf Hp1 Hp2) as (m & s3 & out' & base2 & D2 & db2 & Eo' & So2 & _ & Hser & _).
    rewrite Eo in Eo'. injection Eo' as <- <-. exists base2, D2, db2. split; [by left|]. econstructor; [exact Hser|constructor].
  - pose proof (usable_sound _ _ _ _ Us Hc) as So. destruct (checkpoint_sound_safe s base D db elapsed w inj So Hw Hg Hn) as (Hsv & _ & _).
    rewrite E in Hsv. destruct Hcr as [Ar Hf]. destruct Hl as (w1 & Hw1 & Hl).
    destruct (Hsv f wf i w1 Ar Hf Hw1 Hl) as (s2 & out' & Eo' & So' & _). rewrite Eo in Eo'. injection Eo' as <- <-.
    exists base, D, db. split; [by left|constructor].
Qed.

Lemma run_usable (s : store) es s' base D db :
  run s es s' → usable s base D db → ∃ base' D' db', usable s' base' D' db' ∧ explains db es db'.
Proof.
  intros Hrun. revert base D db. induction Hrun as [s|s e s1 es s2 Hstep Hrun IH]; intros base D db Us.
  { exists base, D, db. split; [done|constructor]. }
  destruct (step_usable _ _ _ _ _ _ Hstep Us) as (base1 & D1 & db1 & Us1 & He1).
  destruct (IH base1 D1 db1 Us1) as (base2 & D2 & db2 & Us2 & He2). exists base2, D2, db2. split; [done|by eapply explains_app].
Qed.

(** ** New databases *)

Lemma new_choose config (c : list byte) :
  wf_config config → page_bytes c 0 = superblock_image (new_superblock_of config) → page_bytes c 1 = superblock_image (new_superblock_of config) →
  choose_superblock (page_bytes c 0) (page_bytes c 1) = Ok {| slot := SlotA; superblock := sealed_copy (new_superblock_of config) |}.
Proof.
  intros Hcfg -> ->. unfold choose_superblock. rewrite (decode_superblock_image _ (new_superblock_wf config Hcfg)). by rewrite Z.leb_refl.
Qed.

Lemma created_sound config (f : F) (wal : WalLog W) (n := superblock_checksum (superblock_image (new_superblock_of config))) :
  wf_config config → reliable f → reliable (w_file wal) → len (contents f) = 3 * PAGE_SIZE →
  decodes (sub (contents f) (2 * PAGE_SIZE) (2 * PAGE_SIZE + PAGE_SIZE)) 2 (PLeaf 0 None []) →
  wal_ready wal WAL_FORMAT_VERSION (config_identity config) 0 [] → durable (w_file wal) = contents (w_file wal) →
  durable f = contents f → page_bytes (contents f) 0 = superblock_image (new_superblock_of config) →
  page_bytes (contents f) 1 = superblock_image (new_superblock_of config) →
  sound (recheck n (created (I:=I) config f wal)) new_pages 0 ReferenceDb_new.
Proof.
  intros Hcfg Hrf Hrw Hlen Hdec Hready Hdur Hdf Hp0 Hp1. pose proof (new_choose config (contents f) Hcfg Hp0 Hp1) as Hsel.
  pose proof (created_serving (I:=I) config f wal Hcfg Hrf Hrw Hlen Hdec Hready Hdur) as Sv.
  pose proof (sv_holding _ _ _ _ (recheck_serving n _ _ _ _ Sv)) as Hh.
  pose proof Hready as ((_ & _ & _ & _ & Hbytes & Hcom & _) & _). simpl in Hcom.
  assert (recoverable (contents f) [] new_pages (sealed_copy (new_superblock_of config)) SlotA 2) as Rc.
  { apply recoverable_clean; try done.
    - intros id Hid. assert (id = 2) as -> by lia. unfold new_pages. by rewrite lookup_singleton_eq.
    - unfold new_pages. intros id p [<- <-]%lookup_singleton_Some. by split. }
  split; [by apply recheck_serving|done|done|].
  exists wal, WAL_FORMAT_VERSION, 0, []. split; [done|]. split; [done|]. split; [done|].
  split; [rewrite Hbytes, history_bytes_nil, (len_init_image (config_identity config) 0); by vm_compute|]. rewrite Hcom. split.
  - split; [|exact Hh]. split; try done; try exact Rc.
    + change (map_Forall (λ _ p, PageData_lsn p < 1) new_pages). unfold new_pages. intros id p [<- <-]%lookup_singleton_Some. simpl. lia.
    + exact (rd_pos _ _ _ _ Hh).
  - split_and!; try done.
Qed.

Lemma created_usable config (f : F) (w : W) (i : option I) :
  contents f = [] → contents w = [] → reliable f → reliable w → wf_config config →
  ∃ s out, open_with_wal config (f, w, i) = (Ok s, out) ∧ usable s new_pages 0 ReferenceDb_new ∧ st_config s = config.
Proof.
  intros Hcf Hcw Hrf Hrw Hcfg.
  destruct (open_new_spec config f w i Hcf Hcw Hrf Hrw Hcfg) as (f' & wal & E & Hrf' & Hrw' & Hlen & Hdec & Hready & Hdur & Hdf & Hp0 & Hp1).
  eexists _, _. split; [exact E|]. split; [|done]. right. split; [done|]. split; [by apply created_serving|].
  eexists. by apply created_sound.
Qed.

(** ** What the database promises *)



(** C10. A crash between two operations loses nothing: opening the files of a store
    succeeds, and the store it returns represents the same database. *)
Theorem restart_restores (s : store) base D db (f : F) (wf : W) i :
  sound s base D db → crashed s f wf → log_left s wf →
  ∃ s' out, open_with_wal (st_config s) (f, wf, i) = (Ok s', out) ∧ sound s' base D db.
Proof. intros So. apply crash_sound. by left. Qed.

(** C9. [check_invariants] accepts every store whose files hold its database: it
    returns, no page is leaked, every page is either reachable or free, and the
    highest revision it finds precedes the next one. *)
Theorem check_accepts (s : store) base D db :
  sound s base D db →
  ∃ report s', check_invariants s = (Ok report, s') ∧ leaked_pages report = [] ∧
    reachable_pages report + free_pages report = st_high_water s - 1 ∧ max_revision report + 1 = db_next_lsn db ∧ sound s' base D db.
Proof.
  intros So. destruct (check_sound _ _ _ _ So) as (t & fl & f & E & DB & Hm & So'). exists (report_of t fl), (clean None f s).
  pose proof (sv_holding _ _ _ _ (sd_serving _ _ _ _ So)) as Hh. split_and!; [done|done| | |done].
  - pose proof (own_ids _ _ _ _ (db_owns _ _ _ DB)) as Hids. apply Permutation_length in Hids.
    rewrite !length_app, !length_fmap, length_app, length_seqZ in Hids. pose proof (db_hhw _ _ _ DB) as Hhw. simpl in Hids, Hhw.
    unfold report_of. cbn [reachable_pages free_pages]. unfold len, part_pages. rewrite ?length_app. lia.
  - rewrite <- (rd_next _ _ _ _ Hh). exact (tip_report _ _ _ _ _ _ Hh DB Hm).
Qed.

(** C7. A checkpoint survives a crash at every fault point.  Whatever the fault
    injector does and wherever [checkpoint] stops, opening what was durable then
    - with the log as written or as synced - succeeds and returns a store that
    represents the same database. *)
Theorem checkpoint_survives (s : store) base D db w elapsed inj (f : F) (wf : W) i :
  sound s base D db → st_wal s = Some w → generation (st_superblock s) + 1 ≤ U64_MAX → 0 ≤ w_sync_count w < U64_MAX →
  let out := checkpoint elapsed (set_st_injector inj s) in
  crashed out.2 f wf → log_left out.2 wf →
  ∃ s' out', open_with_wal (st_config s) (f, wf, i) = (Ok s', out') ∧ sound s' base D db.
Proof.
  intros So Hw Hg Hn out [Ar Hf] (w1 & Hw1 & Hl). destruct (checkpoint_sound_safe s base D db elapsed w inj So Hw Hg Hn) as (Hsv & _ & _).
  destruct (Hsv f wf i w1 Ar Hf Hw1 Hl) as (s' & out' & E & So' & _). by exists s', out'.
Qed.

(** C8. Without faults [checkpoint] returns: everything is in the data file, the
    log is empty, and the report names the last commit and the pages written. *)
Theorem checkpoint_returns (s : store) base D db w elapsed :
  sound s base D db → st_wal s = Some w → generation (st_superblock s) + 1 ≤ U64_MAX → 0 ≤ w_sync_count w < U64_MAX →
  ∃ report s' w', checkpoint elapsed s = (Ok report, s') ∧ sound s' base D db ∧
    rep_checkpoint_lsn report = newest_lsn (w_committed w) (checkpoint_lsn (st_superblock s)) ∧
    pages_flushed report = Z.of_nat (size (st_dirty_pages s)) ∧
    st_dirty_pages s' = ∅ ∧ st_wal s' = Some w' ∧ w_committed w' = [].
Proof.
  intros So Hw Hg Hn. destruct (checkpoint_sound_safe s base D db elapsed w None So Hw Hg Hn) as (_ & Hok & Hl).
  pose proof (sv_injector _ _ _ _ (sd_serving _ _ _ _ So)) as Hi. rewrite (sound_injector _ _ _ _ So) in Hok, Hl.
  destruct (checkpoint elapsed s) as [[report|e| |] s']; try by specialize (Hl Hi). cbn [fst snd] in Hok.
  destruct (Hok report eq_refl) as [(E1 & E2 & So' & _ & Hd & w' & Hw' & Hc) Hin]. specialize (Hin Hi).
  assert (set_st_injector None s' = s') as Es by (rewrite <- Hin; by destruct s'). rewrite Es in So'.
  by exists report, s', w'.
Qed.

(** ** New databases and the invariant check *)

Definition NOT_SELECTED : Error := Corruption "in-memory superblock is not the selected file copy".

Lemma created_check config (f : F) (wal : WalLog W) :
  wf_config config → reliable f → len (contents f) = 3 * PAGE_SIZE →
  page_bytes (contents f) 0 = superblock_image (new_superblock_of config) →
  page_bytes (contents f) 1 = superblock_image (new_superblock_of config) →
  superblock_checksum (superblock_image (new_superblock_of config)) ≠ 0 →
  ∃ f', check_invariants (created config f wal) = (Err NOT_SELECTED, set_st_file f' (created (I:=I) config f wal)).
Proof.
  intros Hcfg Hr Hlen Hp0 Hp1 Hn. pose proof (new_choose config (contents f) Hcfg Hp0 Hp1) as Hsel.
  destruct (read_superblocks_spec f _ 2 Hr Hlen ltac:(lia) ltac:(by vm_compute) Hsel) as (f1 & E1 & _).
  set (s := created config f wal). unfold check_invariants. rewrite bind_eq. unfold get at 1. change (st_wal s) with (Some wal). cbn [is_none].
  rewrite bind_eq, (flush_clean s wal) by done. rewrite bind_eq. unfold on_st_file at 1, zoom at 1.
  change (st_file s) with f. rewrite (len_reliable f Hr). change (len (contents f) = file_size 2) in Hlen. rewrite Hlen, page_aligned_file by lia.
  rewrite bind_eq. unfold on_st_file at 1, zoom at 1. change (st_file (set_st_file f s)) with f. rewrite E1. rewrite bind_eq. unfold get at 1.
  cbn [slot superblock]. set (s1 := set_st_file f1 (set_st_file f s)). change (st_active_slot s1) with SlotA.
  change (st_superblock s1) with (new_superblock_of config). rewrite bool_decide_eq_true_2 by done. rewrite bool_decide_eq_false_2.
  - exists f1. reflexivity.
  - intros E. apply Hn. apply (f_equal sb_checksum) in E. exact E.
Qed.

(** C11. A new database fails its first invariant check: [initialize] keeps the
    superblock without the checksum it writes to the file, and
    [check_invariants] compares the two.  Unless the checksum happens to be
    zero, [check_invariants] on the store that [open_with_wal] returns for two
    empty files reports a corruption, and [checkpoint] fails and leaves the store
    out of service. *)
Theorem new_store_check_fails config (f : F) (w : W) (i : option I) elapsed :
  contents f = [] → contents w = [] → reliable f → reliable w → wf_config config →
  superblock_checksum (superblock_image (new_superblock_of config)) ≠ 0 →
  ∃ s out s1 e s2, open_with_wal config (f, w, i) = (Ok s, out) ∧ check_invariants s = (Err NOT_SELECTED, s1) ∧
    checkpoint elapsed s = (Err (CheckpointFailure e), s2) ∧ st_broken s2 = Some NOT_SELECTED.
Proof.
  intros Hcf Hcw Hrf Hrw Hcfg Hn.
  destruct (open_new_spec config f w i Hcf Hcw Hrf Hrw Hcfg) as (f' & wal & E & Hrf' & Hrw' & Hlen & Hdec & Hready & Hdur & Hdf & Hp0 & Hp1).
  destruct (created_check config f' wal Hcfg Hrf' Hlen Hp0 Hp1 Hn) as (f1 & E1).
  assert (w_committed wal = []) as Hcom by (by destruct Hready as ((_ & _ & _ & _ & _ & -> & _) & _)).
  eexists _, _, _, _, _. split; [exact E|]. split; [exact E1|]. set (s := created config f' wal) in *.
  unfold checkpoint. rewrite bind_eq. unfold not_broken. rewrite bind_eq. unfold gets at 1. change (st_broken s) with (@None Error). cbn match. cbn [ret].
  rewrite bind_eq. unfold hit_fault at 1. change (st_injector s) with (@None I). cbn match. rewrite bind_eq. unfold get at 1. change (st_wal s) with (Some wal).
  rewrite bind_eq. unfold lift at 1. cbn [ok_or]. rewrite latest_newest, Hcom. change (checkpoint_lsn (st_superblock s)) with 0.
  change (newest_lsn [] 0) with 0. change (0 <? 0) with false. cbn [negb]. rewrite bind_eq. unfold lift at 1.
  change (st_dirty_pages s) with (∅ : gmap PageId (list byte)). rewrite map_size_empty.
  change (checkpoint_bytes (Z.of_nat 0) (negb (is_none (st_dirty_superblock s))) false) with (Some 0). cbn [ok_or].
  rewrite bind_eq. unfold lift at 1, metrics. rewrite (len_reliable _ Hrw'). cbn [rbind].
  rewrite bind_eq. unfold hit_fault at 1. change (st_injector s) with (@None I). cbn match. rewrite bind_eq. unfold mapping_err at 1.
  rewrite (flush_clean s wal) by done. cbn [map_err].
  rewrite bind_eq. unfold hit_fault at 1. change (st_injector s) with (@None I). cbn match. rewrite bind_eq. cbn [ret].
  rewrite bind_eq. unfold or_broken at 1. rewrite E1. split; reflexivity.
Qed.

End system.
