(* ===== verification/Utf8.v ===== *)
(** * Utf8: Rust strings

    A Rust [String] holds Unicode scalar values in UTF-8.  The source measures
    strings in characters and in bytes and converts between the two
    ([chars().take(n).collect()], [as_bytes], [String::from_utf8]); this file
    models these operations of the standard library on lists of characters and
    shows that encoding and decoding are inverse. *)

From S2P Require Import Prelude.

(** A [char]: a Unicode scalar value. *)
Abbreviation char := Z (only parsing).
Definition is_char (c : char) : Prop := 0 ≤ c ≤ 55295 ∨ 57344 ≤ c ≤ 1114111.

(** The characters of a message, those below 256. *)
Definition chars (s : string) : list char := byte.unsigned <$> bstr s.

(** ** Encoding *)

Definition continuation (z : Z) : byte := byte.of_Z (128 + z mod 64).

Definition encode_utf8 (c : char) : list byte :=
  if c <=? 127 then [byte.of_Z c]
  else if c <=? 2047 then [byte.of_Z (192 + c / 64); continuation c]
  else if c <=? 65535 then [byte.of_Z (224 + c / 4096); continuation (c / 64); continuation c]
  else [byte.of_Z (240 + c / 262144); continuation (c / 4096); continuation (c / 64); continuation c].

(** [String::as_bytes]. *)
Definition as_bytes (s : list char) : list byte := concat (encode_utf8 <$> s).

(** ** Decoding *)

(** The payload of a continuation byte. *)
Definition continued (b : byte) : option Z :=
  let z := byte.unsigned b in if (128 <=? z) && (z <=? 191) then Some (z - 128) else None.

(** [String::from_utf8]: only shortest forms of scalar values are accepted. *)
Fixpoint from_utf8 (bs : list byte) : option (list char) :=
  match bs with
  | [] => Some []
  | b :: bs =>
      let z := byte.unsigned b in
      if z <=? 127 then cons z <$> from_utf8 bs
      else match bs with
      | [] => None
      | b1 :: bs =>
          if (194 <=? z) && (z <=? 223) then
            match continued b1 with
            | Some c1 => cons ((z - 192) * 64 + c1) <$> from_utf8 bs
            | None => None
            end
          else match bs with
          | [] => None
          | b2 :: bs =>
              if (224 <=? z) && (z <=? 239) then
                match continued b1, continued b2 with
                | Some c1, Some c2 =>
                    let c := (z - 224) * 4096 + c1 * 64 + c2 in
                    if (2048 <=? c) && negb ((55296 <=? c) && (c <=? 57343)) then cons c <$> from_utf8 bs else None
                | _, _ => None
                end
              else match bs with
              | [] => None
              | b3 :: bs =>
                  if (240 <=? z) && (z <=? 244) then
                    match continued b1, continued b2, continued b3 with
                    | Some c1, Some c2, Some c3 =>
                        let c := (z - 240) * 262144 + c1 * 4096 + c2 * 64 + c3 in
                        if (65536 <=? c) && (c <=? 1114111) then cons c <$> from_utf8 bs else None
                    | _, _, _ => None
                    end
                  else None
              end
          end
      end
  end.

(** ** Correctness *)

Lemma unsigned_of_Z z : 0 ≤ z ≤ 255 → byte.unsigned (byte.of_Z z) = z.
Proof. intros. rewrite byte.unsigned_of_Z. unfold byte.wrap. apply Z.mod_small. lia. Qed.

Lemma continued_continuation z : continued (continuation z) = Some (z mod 64).
Proof.
  pose proof (Z.mod_pos_bound z 64 ltac:(lia)). unfold continued, continuation. rewrite unsigned_of_Z by lia.
  rewrite !(proj2 (Z.leb_le _ _)) by lia. cbn [andb]. f_equal. lia.
Qed.

Lemma continued_inv b c : continued b = Some c → 0 ≤ c < 64 ∧ byte.unsigned b = 128 + c.
Proof. unfold continued. destruct (_ && _) eqn:E; [|done]. intros [= <-]. bool_props. lia. Qed.

Lemma continuation_of b c z : continued b = Some c → z mod 64 = c → continuation z = b.
Proof. intros [Hc Hb]%continued_inv Hz. unfold continuation. rewrite Hz, <- Hb. apply byte.of_Z_unsigned. Qed.

Ltac digits := Z.to_euclidean_division_equations; lia.
(** Decides the tests of the definitions, from the outside in. *)
Ltac test_holds := lazymatch goal with
  | |- _ && _ = true => apply andb_true_intro; split; test_holds
  | |- negb _ = true => apply negb_true_iff; test_fails
  | |- _ => apply Z.leb_le; digits
  end
with test_fails := lazymatch goal with
  | |- _ && _ = false => apply andb_false_iff; first [left; test_fails | right; test_fails]
  | |- _ => apply Z.leb_gt; digits
  end.
Ltac tests := repeat match goal with
  | |- context [if ?b then _ else _] =>
      let H := fresh "H" in first [assert (b = true) as H by test_holds | assert (b = false) as H by test_fails]; rewrite H; clear H
  end.

Lemma from_utf8_char c bs : is_char c → from_utf8 (encode_utf8 c ++ bs) = cons c <$> from_utf8 bs.
Proof.
  unfold is_char. intros Hc. unfold encode_utf8.
  destruct (c <=? 127) eqn:E1; bool_props.
  { cbn [app from_utf8]. rewrite unsigned_of_Z by lia. by tests. }
  destruct (c <=? 2047) eqn:E2; bool_props.
  { cbn [app from_utf8]. rewrite unsigned_of_Z by digits. tests. rewrite continued_continuation.
    by replace ((192 + c / 64 - 192) * 64 + c mod 64) with c by digits. }
  destruct (c <=? 65535) eqn:E3; bool_props.
  { cbn [app from_utf8]. rewrite unsigned_of_Z by digits. tests. rewrite !continued_continuation.
    replace ((224 + c / 4096 - 224) * 4096 + (c / 64) mod 64 * 64 + c mod 64) with c by digits. tests.
    destruct ((55296 <=? c) && (c <=? 57343)) eqn:E4; [bool_props; lia|]. cbn [negb]. rewrite andb_true_r. by tests. }
  cbn [app from_utf8]. rewrite unsigned_of_Z by digits. tests. rewrite !continued_continuation.
  replace ((240 + c / 262144 - 240) * 262144 + (c / 4096) mod 64 * 4096 + (c / 64) mod 64 * 64 + c mod 64) with c by digits.
  by tests.
Qed.

(** Decoding what was encoded. *)
Lemma from_utf8_as_bytes s : Forall is_char s → from_utf8 (as_bytes s) = Some s.
Proof. induction 1 as [|c s Hc _ IH]; [done|]. unfold as_bytes in *. cbn [fmap list_fmap concat]. by rewrite from_utf8_char, IH. Qed.

(** The decoder reads one character at a time. *)
Lemma from_utf8_inv bs s : from_utf8 bs = Some s → bs ≠ [] →
  ∃ c s' bs', s = c :: s' ∧ bs = encode_utf8 c ++ bs' ∧ is_char c ∧ from_utf8 bs' = Some s'.
Proof.
  destruct bs as [|b bs]; [done|]. intros H _. cbn [from_utf8] in H. pose proof (byte.unsigned_range b).
  destruct (byte.unsigned b <=? 127) eqn:E.
  { apply fmap_Some in H as (s' & H & ->). eexists _, s', bs. split_and!; try done; bool_props; [|left; lia].
    unfold encode_utf8. tests. by rewrite byte.of_Z_unsigned. }
  destruct bs as [|b1 bs]; [done|]. destruct ((194 <=? _) && _) eqn:E1.
  { destruct (continued b1) as [c1|] eqn:C1; [|done]. apply fmap_Some in H as (s' & H & ->). bool_props.
    pose proof (continued_inv _ _ C1). eexists _, s', bs. split_and!; try done; [|left; lia].
    unfold encode_utf8. tests. rewrite (continuation_of b1 c1) by first [done|digits].
    replace (192 + _ / 64) with (byte.unsigned b) by digits. by rewrite byte.of_Z_unsigned. }
  destruct bs as [|b2 bs]; [done|]. destruct ((224 <=? _) && _) eqn:E2.
  { destruct (continued b1) as [c1|] eqn:C1; [|done]. destruct (continued b2) as [c2|] eqn:C2; [|done].
    pose proof (continued_inv _ _ C1). pose proof (continued_inv _ _ C2). destruct (_ && negb _) eqn:E3; [|done].
    apply fmap_Some in H as (s' & H & ->). apply andb_prop in E3 as [E3 E4]. apply negb_true_iff, andb_false_iff in E4. bool_props.
    eexists _, s', bs. split_and!; try done; [|unfold is_char; destruct E4; bool_props; lia].
    unfold encode_utf8. tests. rewrite (continuation_of b1 c1), (continuation_of b2 c2) by first [done|digits].
    replace (224 + _ / 4096) with (byte.unsigned b) by digits. by rewrite byte.of_Z_unsigned. }
  destruct bs as [|b3 bs]; [done|]. destruct ((240 <=? _) && _) eqn:E3; [|done].
  destruct (continued b1) as [c1|] eqn:C1; [|done]. destruct (continued b2) as [c2|] eqn:C2; [|done].
  destruct (continued b3) as [c3|] eqn:C3; [|done]. pose proof (continued_inv _ _ C1). pose proof (continued_inv _ _ C2).
  pose proof (continued_inv _ _ C3). destruct ((65536 <=? _) && _) eqn:E4; [|done]. apply fmap_Some in H as (s' & H & ->). bool_props.
  eexists _, s', bs. split_and!; try done; [|unfold is_char; lia].
  unfold encode_utf8. tests. rewrite (continuation_of b1 c1), (continuation_of b2 c2), (continuation_of b3 c3) by first [done|digits].
  replace (240 + _ / 262144) with (byte.unsigned b) by digits. by rewrite byte.of_Z_unsigned.
Qed.

Lemma encode_utf8_nonempty c : 1 ≤ len (encode_utf8 c) ≤ 4.
Proof. unfold encode_utf8. repeat case_match; unfold len; simpl; lia. Qed.

(** Encoding what was decoded: the encoding of a string is unique. *)
Lemma as_bytes_from_utf8 bs s : from_utf8 bs = Some s → Forall is_char s ∧ as_bytes s = bs.
Proof.
  revert s. induction bs as [bs IH] using (induction_ltof1 _ (@length byte)). unfold ltof in IH. intros s H.
  destruct (decide (bs = [])) as [->|Hne]; [by injection H as <-|].
  destruct (from_utf8_inv bs s H Hne) as (c & s' & bs' & -> & -> & Hc & H').
  pose proof (encode_utf8_nonempty c) as Hl. unfold len in Hl.
  destruct (IH bs' ltac:(rewrite length_app; lia) s' H') as [HF <-]. split; [by constructor|done].
Qed.

(** A string has at most four bytes per character, and at least one. *)
Lemma len_as_bytes s : len s ≤ len (as_bytes s) ≤ 4 * len s.
Proof.
  induction s as [|c s IH]; [done|]. unfold as_bytes in *. cbn [fmap list_fmap concat]. rewrite len_app, len_cons.
  pose proof (encode_utf8_nonempty c). lia.
Qed.

Lemma chars_are_chars s : Forall is_char (chars s).
Proof.
  unfold chars. apply Forall_fmap, Forall_forall. intros b _. pose proof (byte.unsigned_range b). left. simpl. lia.
Qed.
