(* ===== verification/Service.v ===== *)
(** * Service: the requests and responses between server and storage

    The data of src/dodb/crates/dodb-service: what a client may ask of a
    tenant's database and what it is answered. *)

From S2P Require Import Prelude Core.

Record ExecutionBudget := mkExecutionBudget { max_response_bytes : Z }.

Record ServiceDocument := mkServiceDocument {
  sdoc_key : DocumentKey;
  sdoc_value : list byte;
  sdoc_revision : Revision
}.

Inductive Request : Type :=
  | ReqGet (key : DocumentKey)
  | ReqPut (key : DocumentKey) (value : list byte)
  | ReqDelete (key : DocumentKey)
  | ReqQuery (p : PrimaryKey) (exclusive_after_sk : option SortKey) (limit : Z)
  | ReqScan (exclusive_after_key : option DocumentKey) (limit : Z)
  | ReqTransact (request : TransactionRequest).

Definition operation_name (r : Request) : string :=
  match r with
  | ReqGet _ => "get"
  | ReqPut _ _ => "put"
  | ReqDelete _ => "delete"
  | ReqQuery _ _ _ => "query"
  | ReqScan _ _ => "scan"
  | ReqTransact _ => "transact"
  end.

Definition Request_is_mutation (r : Request) : bool :=
  match r with
  | ReqPut _ _ | ReqDelete _ => true
  | ReqTransact request => negb (match mutations request with [] => true | _ => false end)
  | ReqGet _ | ReqQuery _ _ _ | ReqScan _ _ => false
  end.

Record TransactionOutcome := mkOutcome { outcome_lsn : option Lsn }.
Definition TransactionOutcome_committed (commit_lsn : Lsn) : TransactionOutcome := mkOutcome (Some commit_lsn).
Definition TransactionOutcome_conditions_satisfied : TransactionOutcome := mkOutcome None.

Inductive Response : Type :=
  | RespGet (state : RevisionState)
  | RespPut (revision : Revision)
  | RespDelete (revision : Revision)
  | RespQuery (documents : list ServiceDocument)
  | RespScan (documents : list ServiceDocument)
  | RespTransact (outcome : TransactionOutcome).
