(* ===== verification/Protocol.v ===== *)
(** * Protocol: the wire protocol

    The binary protocol of src/dodb/crates/dodb-protocol/src/lib.rs: frames,
    requests, responses and application errors, with the limits both sides
    enforce.  A [Writer] is the bytes written so far, a [Reader] the input and
    the position in it. *)

From S2P Require Import Prelude Core Service Utf8.

Definition MAGIC : list byte := bstr "DODB".
Definition PROTOCOL_VERSION : Z := 1.
Definition HEADER_SIZE : Z := 11.
Definition REQUEST_MESSAGE_TYPE : Z := 1.
Definition RESPONSE_MESSAGE_TYPE : Z := 2.
Definition MAX_STORAGE_VALUE_SIZE : Z := 64 * 1024 * 1024.
Definition MAX_STORAGE_KEY_COMPONENT_SIZE : Z := 3990.
Definition MAX_STORAGE_ENCODED_KEY_SIZE : Z := 3992.
#[export] Hint Unfold PROTOCOL_VERSION HEADER_SIZE REQUEST_MESSAGE_TYPE RESPONSE_MESSAGE_TYPE MAX_STORAGE_VALUE_SIZE
  MAX_STORAGE_KEY_COMPONENT_SIZE MAX_STORAGE_ENCODED_KEY_SIZE : consts.

Record ProtocolLimits := mkProtocolLimits {
  max_request_frame_size : Z;
  max_response_frame_size : Z;
  max_key_component_size : Z;
  max_encoded_key_size : Z;
  pl_max_value_size : Z;
  max_keys : Z;
  max_conditions : Z;
  max_mutations : Z;
  max_query_limit : Z;
  max_scan_limit : Z;
  max_error_detail_size : Z
}.

Definition ProtocolLimits_default : ProtocolLimits :=
  mkProtocolLimits (68 * 1024 * 1024) (68 * 1024 * 1024) MAX_STORAGE_KEY_COMPONENT_SIZE MAX_STORAGE_ENCODED_KEY_SIZE
    MAX_STORAGE_VALUE_SIZE 4096 256 256 4096 4096 4096.

Inductive ProtocolError : Type :=
  | InvalidLimits
  | TruncatedHeader
  | InvalidMagic
  | UnsupportedVersion (version : Z)
  | UnknownMessageType (message_type : Z)
  | TruncatedPayload
  | TrailingPayload
  | PayloadTooLarge (length maximum : Z)
  | KeyTooLarge (length maximum : Z)
  | LengthOverflow
  | InvalidOpcode (opcode : Z)
  | InvalidStatus (status : Z)
  | InvalidFlag (flag : Z)
  | InvalidResponseType (expected actual : Z)
  | InvalidErrorKind (kind : Z)
  | InvalidExpectation (expectation : Z)
  | InvalidRevisionState (state : Z)
  | InvalidUtf8.

(** [Display for ProtocolError]; a message is its format template. *)
Definition ProtocolError_to_string (error : ProtocolError) : string :=
  match error with
  | InvalidLimits => "protocol limits are invalid"
  | TruncatedHeader => "truncated frame header"
  | InvalidMagic => "invalid frame magic"
  | UnsupportedVersion _ => "unsupported protocol version {version}"
  | UnknownMessageType _ => "unknown message type {message_type}"
  | TruncatedPayload => "truncated frame payload"
  | TrailingPayload => "unexpected trailing bytes"
  | PayloadTooLarge _ _ => "payload length {length} exceeds maximum {maximum}"
  | KeyTooLarge _ _ => "encoded key length {length} exceeds maximum {maximum}"
  | LengthOverflow => "length conversion overflow"
  | InvalidOpcode _ => "invalid operation opcode {opcode}"
  | InvalidStatus _ => "invalid response status {status}"
  | InvalidFlag _ => "invalid boolean flag {flag}"
  | InvalidResponseType _ _ => "response type {actual} does not match expected type {expected}"
  | InvalidErrorKind _ => "invalid application error kind {kind}"
  | InvalidExpectation _ => "invalid transaction expectation {expectation}"
  | InvalidRevisionState _ => "invalid revision state {state}"
  | InvalidUtf8 => "invalid UTF-8 error detail"
  end.

Definition ProtocolLimits_validate (l : ProtocolLimits) : Result ProtocolError unit :=
  guard? negb ((max_request_frame_size l <? HEADER_SIZE) || (max_response_frame_size l <? HEADER_SIZE)
               || (max_key_component_size l =? 0) || (max_encoded_key_size l =? 0) || (pl_max_value_size l =? 0)
               || (max_keys l =? 0) || (max_conditions l =? 0) || (max_mutations l =? 0) || (max_query_limit l =? 0)
               || (max_scan_limit l =? 0) || (max_error_detail_size l =? 0)) else InvalidLimits in
  guard? negb ((MAX_STORAGE_KEY_COMPONENT_SIZE <? max_key_component_size l)
               || (MAX_STORAGE_ENCODED_KEY_SIZE <? max_encoded_key_size l)
               || (MAX_STORAGE_VALUE_SIZE <? pl_max_value_size l)) else InvalidLimits in
  Ok tt.

Record FrameHeader := mkFrameHeader { version : Z; message_type : Z; payload_length : Z }.

(** ** Application errors *)

Inductive ApplicationErrorKind : Type :=
  | KindInvalidRequest
  | KindOverloaded
  | KindConflict
  | KindResponseTooLarge
  | KindStorageFailure
  | KindCorruption
  | KindDurabilityFailure
  | KindInternal
  | KindUnsupportedProtocol.

Inductive MutationOutcome : Type := NotApplicable | NotApplied | OutcomeUnknown.

Record ConflictDetails := mkConflictDetails {
  cd_key : DocumentKey;
  cd_expected : ConditionExpectation;
  cd_actual : ObservedState
}.

Record ApplicationError := mkApplicationError {
  kind : ApplicationErrorKind;
  detail : list char;
  mutation_outcome : MutationOutcome;
  conflict : option ConflictDetails
}.

Definition conflict_details (c : TransactionConflict) : ConflictDetails :=
  mkConflictDetails (conflict_key c) (expected c) (actual c).

Definition ApplicationError_invalid_request (message : list char) : ApplicationError :=
  mkApplicationError KindInvalidRequest message NotApplied None.

Definition ApplicationError_from_core (error : Error) : ApplicationError :=
  match error with
  | InvalidInput message | InvalidRequest message => mkApplicationError KindInvalidRequest (chars message) NotApplied None
  | Overloaded message => mkApplicationError KindOverloaded (chars message) NotApplied None
  | Conflict c => mkApplicationError KindConflict (chars "transaction condition conflict") NotApplied (Some (conflict_details c))
  | ResponseTooLarge message => mkApplicationError KindResponseTooLarge (chars message) NotApplied None
  | Corruption message => mkApplicationError KindCorruption (chars message) OutcomeUnknown None
  | Io _ message => mkApplicationError KindStorageFailure (chars message) OutcomeUnknown None
  | UnsupportedFormat message | RecoveryFailure message | CheckpointFailure message =>
      mkApplicationError KindStorageFailure (chars message) OutcomeUnknown None
  | DurabilityFailure message => mkApplicationError KindDurabilityFailure (chars message) OutcomeUnknown None
  | InternalInvariantViolation message => mkApplicationError KindInternal (chars message) OutcomeUnknown None
  end.

Definition ApplicationError_from_core_for_request (error : Error) (is_mutation : bool) : ApplicationError :=
  let e := ApplicationError_from_core error in
  if negb is_mutation then mkApplicationError (kind e) (detail e) NotApplicable (conflict e) else e.

Definition ApplicationError_from_protocol (error : ProtocolError) : ApplicationError :=
  mkApplicationError
    (match error with UnsupportedVersion _ | UnknownMessageType _ => KindUnsupportedProtocol | _ => KindInvalidRequest end)
    (chars (ProtocolError_to_string error)) NotApplied None.

Inductive ResponseEnvelope : Type :=
  | Success (response : Response)
  | Failure (error : ApplicationError).

Definition application_error_kind_code (k : ApplicationErrorKind) : Z :=
  match k with
  | KindInvalidRequest => 0
  | KindOverloaded => 1
  | KindConflict => 2
  | KindStorageFailure => 3
  | KindCorruption => 4
  | KindDurabilityFailure => 5
  | KindInternal => 6
  | KindUnsupportedProtocol => 7
  | KindResponseTooLarge => 8
  end.

Definition application_error_kind (code : Z) : Result ProtocolError ApplicationErrorKind :=
  match code with
  | 0 => Ok KindInvalidRequest
  | 1 => Ok KindOverloaded
  | 2 => Ok KindConflict
  | 3 => Ok KindStorageFailure
  | 4 => Ok KindCorruption
  | 5 => Ok KindDurabilityFailure
  | 6 => Ok KindInternal
  | 7 => Ok KindUnsupportedProtocol
  | 8 => Ok KindResponseTooLarge
  | other => Err (InvalidErrorKind other)
  end.

Definition mutation_outcome_code (o : MutationOutcome) : Z :=
  match o with NotApplicable => 0 | NotApplied => 1 | OutcomeUnknown => 2 end.

Definition mutation_outcome_of (code : Z) : Result ProtocolError MutationOutcome :=
  match code with
  | 0 => Ok NotApplicable
  | 1 => Ok NotApplied
  | 2 => Ok OutcomeUnknown
  | other => Err (InvalidFlag other)
  end.

(** ** The writer *)

Abbreviation WriterM := (ST (list byte) ProtocolError).

(** [to_be_bytes] and [from_be_bytes]. *)
Definition u16_to_be_bytes (z : Z) : list byte := rev (le_split 2 z).
Definition u32_to_be_bytes (z : Z) : list byte := rev (le_split 4 z).
Definition u64_to_be_bytes (z : Z) : list byte := rev (le_split 8 z).
Definition from_be_bytes (bs : list byte) : Z := le_combine (rev bs).

Definition Writer_u8 (value : Z) : WriterM unit := modify (λ w, w ++ [byte.of_Z value]).
Definition Writer_u32 (value : Z) : WriterM unit := modify (λ w, w ++ u32_to_be_bytes value).
Definition Writer_u64 (value : Z) : WriterM unit := modify (λ w, w ++ u64_to_be_bytes value).

Definition Writer_bytes_raw (value : list byte) : WriterM unit :=
  let* length := lift (ok_or (u32_try_from (len value)) LengthOverflow) in
  do* Writer_u32 length in
  modify (λ w, w ++ value).

Definition encode_bytes (bytes : list byte) (maximum : Z) : WriterM unit :=
  guard* negb (maximum <? len bytes) else PayloadTooLarge (len bytes) maximum in
  Writer_bytes_raw bytes.

Definition Writer_bytes (value : list byte) (maximum : Z) : WriterM unit := encode_bytes value maximum.

(** ** The reader *)

Record Reader := mkReader { rd_input : list byte; rd_offset : Z }.
Abbreviation ReaderM := (ST Reader ProtocolError).

Definition Reader_u8 : ReaderM Z :=
  let* r := get in
  let* value := lift (ok_or (rd_input r !! Z.to_nat (rd_offset r)) TruncatedPayload) in
  let* offset := lift (plain_add (rd_offset r) 1) in
  do* modify (λ r, mkReader (rd_input r) offset) in
  ret (byte.unsigned value).

Definition Reader_take (length : Z) : ReaderM (list byte) :=
  let* r := get in
  let* end_ := lift (ok_or (checked_add (rd_offset r) length) LengthOverflow) in
  let* bytes := lift (ok_or (if end_ <=? len (rd_input r) then Some (sub (rd_input r) (rd_offset r) end_) else None)
                        TruncatedPayload) in
  do* modify (λ r, mkReader (rd_input r) end_) in
  ret bytes.

Definition Reader_u32 : ReaderM Z :=
  let* bytes := Reader_take 4 in
  let* bytes := lift (slice bytes 0 4) in
  ret (from_be_bytes bytes).

Definition Reader_u64 : ReaderM Z :=
  let* bytes := Reader_take 8 in
  let* bytes := lift (slice bytes 0 8) in
  ret (from_be_bytes bytes).

Definition Reader_bytes (maximum : Z) : ReaderM (list byte) :=
  let* value := Reader_u32 in
  let* length := lift (ok_or (usize_try_from value) LengthOverflow) in
  guard* negb (maximum <? length) else PayloadTooLarge length maximum in
  Reader_take length.

Definition Reader_count (maximum : Z) : ReaderM Z :=
  let* value := Reader_u32 in
  let* count := lift (ok_or (usize_try_from value) LengthOverflow) in
  guard* negb (maximum <? count) else PayloadTooLarge count maximum in
  ret count.

Definition Reader_limit (maximum : Z) : ReaderM Z := Reader_count maximum.

Definition Reader_flag : ReaderM bool :=
  let* value := Reader_u8 in
  match value with
  | 0 => ret false
  | 1 => ret true
  | other => throw (InvalidFlag other)
  end.

Definition Reader_optional_bytes (maximum : Z) : ReaderM (option (list byte)) :=
  let* flag := Reader_flag in
  if flag then (let* bytes := Reader_bytes maximum in ret (Some bytes)) else ret None.

Definition Reader_finish (r : Reader) : bool := rd_offset r =? len (rd_input r).

(** ** Keys, limits and counts *)

Section codec.
Context (limits : ProtocolLimits).

Definition validate_key_parts (p s : list byte) : Result ProtocolError unit :=
  let encoded_length := DocumentKey_encoded_len (mkKey p s) in
  guard? negb (max_encoded_key_size limits <? encoded_length) else KeyTooLarge encoded_length (max_encoded_key_size limits) in
  Ok tt.

Definition validate_key (key : DocumentKey) : Result ProtocolError unit := validate_key_parts (pk key) (sk key).

Definition encode_key (key : DocumentKey) : WriterM unit :=
  do* lift (validate_key key) in
  do* encode_bytes (pk key) (max_key_component_size limits) in
  encode_bytes (sk key) (max_key_component_size limits).

Definition decode_key : ReaderM DocumentKey :=
  let* p := Reader_bytes (max_key_component_size limits) in
  let* s := Reader_bytes (max_key_component_size limits) in
  let key := mkKey p s in
  do* lift (validate_key key) in
  ret key.

Definition encode_optional_key (key : option DocumentKey) : WriterM unit :=
  match key with
  | Some key => do* Writer_u8 1 in encode_key key
  | None => Writer_u8 0
  end.

Definition decode_optional_key : ReaderM (option DocumentKey) :=
  let* flag := Reader_flag in
  if flag then (let* key := decode_key in ret (Some key)) else ret None.

Definition encode_optional_bytes (bytes : option (list byte)) (maximum : Z) : WriterM unit :=
  match bytes with
  | Some bytes => do* Writer_u8 1 in encode_bytes bytes maximum
  | None => Writer_u8 0
  end.

Definition encode_limit (limit maximum : Z) : WriterM unit :=
  guard* negb (maximum <? limit) else PayloadTooLarge limit maximum in
  let* limit := lift (ok_or (u32_try_from limit) LengthOverflow) in
  Writer_u32 limit.

Definition encode_count (count maximum : Z) : WriterM unit :=
  guard* negb (maximum <? count) else PayloadTooLarge count maximum in
  let* count := lift (ok_or (u32_try_from count) LengthOverflow) in
  Writer_u32 count.

(** [for _ in 0..count { v.push(item?) }]. *)
Fixpoint decode_items {A} (item : ReaderM A) (count : nat) : ReaderM (list A) :=
  match count with
  | O => ret []
  | S count => let* x := item in let* xs := decode_items item count in ret (x :: xs)
  end.

(** ** Transactions *)

Definition encode_condition (c : TransactionCondition) : WriterM unit :=
  match c with
  | RevisionEquals key expected_revision => do* Writer_u8 0 in do* encode_key key in Writer_u64 expected_revision
  | Exists_ key => do* Writer_u8 1 in encode_key key
  | NotExists key => do* Writer_u8 2 in encode_key key
  end.

Definition encode_conditions (cs : list TransactionCondition) : WriterM unit :=
  do* encode_count (len cs) (max_conditions limits) in
  forM cs encode_condition.

Definition decode_condition : ReaderM TransactionCondition :=
  let* kind := Reader_u8 in
  let* key := decode_key in
  match kind with
  | 0 => let* revision := Reader_u64 in ret (RevisionEquals key revision)
  | 1 => ret (Exists_ key)
  | 2 => ret (NotExists key)
  | other => throw (InvalidExpectation other)
  end.

Definition decode_conditions : ReaderM (list TransactionCondition) :=
  let* count := Reader_count (max_conditions limits) in
  decode_items decode_condition (Z.to_nat count).

Definition encode_mutation (m : TransactionMutation) : WriterM unit :=
  match m with
  | Put key value => do* Writer_u8 0 in do* encode_key key in Writer_bytes value (pl_max_value_size limits)
  | Delete key => do* Writer_u8 1 in encode_key key
  end.

Definition encode_mutations (ms : list TransactionMutation) : WriterM unit :=
  do* encode_count (len ms) (max_mutations limits) in
  forM ms encode_mutation.

Definition decode_mutation : ReaderM TransactionMutation :=
  let* kind := Reader_u8 in
  let* key := decode_key in
  match kind with
  | 0 => let* value := Reader_bytes (pl_max_value_size limits) in ret (Put key value)
  | 1 => ret (Delete key)
  | other => throw (InvalidOpcode other)
  end.

Definition decode_mutations : ReaderM (list TransactionMutation) :=
  let* count := Reader_count (max_mutations limits) in
  decode_items decode_mutation (Z.to_nat count).

(** ** Requests *)

Definition request_opcode (r : Request) : Z :=
  match r with
  | ReqGet _ => 1
  | ReqPut _ _ => 2
  | ReqDelete _ => 3
  | ReqQuery _ _ _ => 4
  | ReqScan _ _ => 5
  | ReqTransact _ => 8
  end.

Definition encode_request_payload (r : Request) : WriterM unit :=
  do* Writer_u8 (request_opcode r) in
  match r with
  | ReqGet key => encode_key key
  | ReqPut key value => do* encode_key key in Writer_bytes value (pl_max_value_size limits)
  | ReqDelete key => encode_key key
  | ReqQuery p exclusive_after_sk limit =>
      do* lift (validate_key_parts p (default [] exclusive_after_sk)) in
      do* encode_bytes p (max_key_component_size limits) in
      do* encode_optional_bytes exclusive_after_sk (max_key_component_size limits) in
      encode_limit limit (max_query_limit limits)
  | ReqScan exclusive_after_key limit =>
      do* encode_optional_key exclusive_after_key in
      encode_limit limit (max_scan_limit limits)
  | ReqTransact request =>
      do* encode_conditions (conditions request) in
      encode_mutations (mutations request)
  end.

Definition decode_request_payload : ReaderM Request :=
  let* opcode := Reader_u8 in
  match opcode with
  | 1 => let* key := decode_key in ret (ReqGet key)
  | 2 => let* key := decode_key in let* value := Reader_bytes (pl_max_value_size limits) in ret (ReqPut key value)
  | 3 => let* key := decode_key in ret (ReqDelete key)
  | 4 =>
      let* pk_bytes := Reader_bytes (max_key_component_size limits) in
      let* sk_bytes := Reader_optional_bytes (max_key_component_size limits) in
      do* lift (validate_key_parts pk_bytes (default [] sk_bytes)) in
      let* limit := Reader_limit (max_query_limit limits) in
      ret (ReqQuery pk_bytes sk_bytes limit)
  | 5 =>
      let* key := decode_optional_key in
      let* limit := Reader_limit (max_scan_limit limits) in
      ret (ReqScan key limit)
  | 8 =>
      let* cs := decode_conditions in
      let* ms := decode_mutations in
      ret (ReqTransact (mkRequest cs ms))
  | other => throw (InvalidOpcode other)
  end.

(** ** Responses *)

Definition response_opcode (r : Response) : Z :=
  match r with
  | RespGet _ => 1
  | RespPut _ => 2
  | RespDelete _ => 3
  | RespQuery _ => 4
  | RespScan _ => 5
  | RespTransact _ => 8
  end.

Definition encode_transaction_outcome (o : TransactionOutcome) : WriterM unit :=
  match outcome_lsn o with
  | Some commit_lsn => do* Writer_u8 1 in Writer_u64 commit_lsn
  | None => Writer_u8 0
  end.

Definition decode_transaction_outcome : ReaderM TransactionOutcome :=
  let* value := Reader_u8 in
  match value with
  | 0 => ret TransactionOutcome_conditions_satisfied
  | 1 => let* lsn := Reader_u64 in ret (TransactionOutcome_committed lsn)
  | other => throw (InvalidFlag other)
  end.

Definition encode_document (d : ServiceDocument) : WriterM unit :=
  do* encode_key (sdoc_key d) in
  do* Writer_bytes (sdoc_value d) (pl_max_value_size limits) in
  Writer_u64 (sdoc_revision d).

Definition encode_documents (ds : list ServiceDocument) : WriterM unit :=
  do* encode_count (len ds) (max_scan_limit limits) in
  forM ds encode_document.

Definition decode_document : ReaderM ServiceDocument :=
  let* key := decode_key in
  let* value := Reader_bytes (pl_max_value_size limits) in
  let* revision := Reader_u64 in
  ret (mkServiceDocument key value revision).

Definition decode_documents : ReaderM (list ServiceDocument) :=
  let* count := Reader_count (max_scan_limit limits) in
  decode_items decode_document (Z.to_nat count).

Definition encode_revision_state (s : RevisionState) : WriterM unit :=
  match s with
  | Present value revision => do* Writer_u8 0 in do* Writer_bytes value (pl_max_value_size limits) in Writer_u64 revision
  | Missing revision => do* Writer_u8 1 in Writer_u64 revision
  end.

Definition decode_revision_state : ReaderM RevisionState :=
  let* value := Reader_u8 in
  match value with
  | 0 => let* value := Reader_bytes (pl_max_value_size limits) in let* revision := Reader_u64 in ret (Present value revision)
  | 1 => let* revision := Reader_u64 in ret (Missing revision)
  | other => throw (InvalidRevisionState other)
  end.

Definition encode_observed_state (s : ObservedState) : WriterM unit :=
  match s with
  | ObsPresent revision => do* Writer_u8 0 in Writer_u64 revision
  | ObsMissing revision => do* Writer_u8 1 in Writer_u64 revision
  end.

Definition decode_observed_state : ReaderM ObservedState :=
  let* value := Reader_u8 in
  match value with
  | 0 => let* revision := Reader_u64 in ret (ObsPresent revision)
  | 1 => let* revision := Reader_u64 in ret (ObsMissing revision)
  | other => throw (InvalidRevisionState other)
  end.

Definition encode_response_payload (r : Response) : WriterM unit :=
  match r with
  | RespGet state => encode_revision_state state
  | RespPut revision | RespDelete revision => Writer_u64 revision
  | RespQuery documents | RespScan documents => encode_documents documents
  | RespTransact outcome => encode_transaction_outcome outcome
  end.

Definition decode_response_payload (opcode : Z) : ReaderM Response :=
  match opcode with
  | 1 => let* state := decode_revision_state in ret (RespGet state)
  | 2 => let* revision := Reader_u64 in ret (RespPut revision)
  | 3 => let* revision := Reader_u64 in ret (RespDelete revision)
  | 4 => let* documents := decode_documents in ret (RespQuery documents)
  | 5 => let* documents := decode_documents in ret (RespScan documents)
  | 8 => let* outcome := decode_transaction_outcome in ret (RespTransact outcome)
  | other => throw (InvalidOpcode other)
  end.

(** ** Application errors on the wire *)

Definition encode_expectation (e : ConditionExpectation) : WriterM unit :=
  match e with
  | ExpRevisionEquals revision => do* Writer_u8 0 in Writer_u64 revision
  | ExpExists => Writer_u8 1
  | ExpNotExists => Writer_u8 2
  end.

Definition encode_conflict (c : ConflictDetails) : WriterM unit :=
  do* encode_key (cd_key c) in
  do* encode_expectation (cd_expected c) in
  encode_observed_state (cd_actual c).

Definition decode_expectation : ReaderM ConditionExpectation :=
  let* value := Reader_u8 in
  match value with
  | 0 => let* revision := Reader_u64 in ret (ExpRevisionEquals revision)
  | 1 => ret ExpExists
  | 2 => ret ExpNotExists
  | other => throw (InvalidExpectation other)
  end.

Definition decode_conflict : ReaderM ConflictDetails :=
  let* key := decode_key in
  let* expected := decode_expectation in
  let* actual := decode_observed_state in
  ret (mkConflictDetails key expected actual).

(** [error.detail.chars().take(limits.max_error_detail_size)]. *)
Definition sent_detail (e : ApplicationError) : list char := take (Z.to_nat (max_error_detail_size limits)) (detail e).

Definition encode_optional_conflict (c : option ConflictDetails) : WriterM unit :=
  match c with
  | Some c => do* Writer_u8 1 in encode_conflict c
  | None => Writer_u8 0
  end.

Definition encode_application_error (e : ApplicationError) : WriterM unit :=
  do* Writer_u8 (application_error_kind_code (kind e)) in
  do* encode_bytes (as_bytes (sent_detail e)) (max_error_detail_size limits) in
  do* Writer_u8 (mutation_outcome_code (mutation_outcome e)) in
  encode_optional_conflict (conflict e).

Definition decode_optional_conflict : ReaderM (option ConflictDetails) :=
  let* flag := Reader_flag in
  if flag then (let* c := decode_conflict in ret (Some c)) else ret None.

Definition decode_detail : ReaderM (list char) :=
  let* bytes := Reader_bytes (max_error_detail_size limits) in
  lift (ok_or (from_utf8 bytes) InvalidUtf8).

Definition decode_application_error : ReaderM ApplicationError :=
  let* code := Reader_u8 in
  let* kind := lift (application_error_kind code) in
  let* detail := decode_detail in
  let* code := Reader_u8 in
  let* outcome := lift (mutation_outcome_of code) in
  let* conflict := decode_optional_conflict in
  ret (mkApplicationError kind detail outcome conflict).

End codec.

(** ** Frames *)

(** [encode_frame]. *)
Definition encode_message (message_type : Z) (payload : list byte) (maximum_frame_size : Z)
    : Result ProtocolError (list byte) :=
  let? frame_length := ok_or (checked_add HEADER_SIZE (len payload)) LengthOverflow in
  guard? negb (maximum_frame_size <? frame_length) else PayloadTooLarge frame_length maximum_frame_size in
  let? payload_length := ok_or (u32_try_from (len payload)) LengthOverflow in
  Ok (MAGIC ++ u16_to_be_bytes PROTOCOL_VERSION ++ [byte.of_Z message_type] ++ u32_to_be_bytes payload_length ++ payload).

(** [decode_header]. *)
Definition decode_message_header (bytes : list byte) : Result ProtocolError FrameHeader :=
  guard? negb (len bytes <? HEADER_SIZE) else TruncatedHeader in
  let? magic := slice bytes 0 4 in
  guard? bytes_eqb magic MAGIC else InvalidMagic in
  let? version_bytes := slice bytes 4 6 in
  let version := from_be_bytes version_bytes in
  guard? version =? PROTOCOL_VERSION else UnsupportedVersion version in
  let? type_byte := index bytes 6 in
  let message_type := byte.unsigned type_byte in
  guard? (message_type =? REQUEST_MESSAGE_TYPE) || (message_type =? RESPONSE_MESSAGE_TYPE) else
    UnknownMessageType message_type in
  let? length_bytes := slice bytes 7 11 in
  Ok (mkFrameHeader version message_type (from_be_bytes length_bytes)).

Definition validate_payload_length (header : FrameHeader) (payload : list byte) (maximum_frame_size : Z)
    : Result ProtocolError unit :=
  let? frame_length := ok_or (checked_add HEADER_SIZE (payload_length header)) LengthOverflow in
  guard? negb (maximum_frame_size <? frame_length) else PayloadTooLarge frame_length maximum_frame_size in
  guard? len payload =? payload_length header else
    (if len payload <? payload_length header then TruncatedPayload else TrailingPayload) in
  Ok tt.

(** The first lines of [decode_request_frame] and [decode_response_frame]: the
    header and the payload of a frame. *)
Definition split_frame (frame : list byte) : Result ProtocolError (FrameHeader * list byte) :=
  let? header_bytes := ok_or (if HEADER_SIZE <=? len frame then Some (sub frame 0 HEADER_SIZE) else None) TruncatedHeader in
  let? header := decode_message_header header_bytes in
  let? frame_length := plain_add HEADER_SIZE (payload_length header) in
  guard? len frame =? frame_length else (if len frame <? frame_length then TruncatedPayload else TrailingPayload) in
  let? payload := slice frame HEADER_SIZE (len frame) in
  Ok (header, payload).

(** A reader that consumed all of its input. *)
Definition finished {A} (out : Result ProtocolError A * Reader) : Result ProtocolError A :=
  let? a := out.1 in
  guard? Reader_finish out.2 else TrailingPayload in
  Ok a.

Definition encode_request (tenant : TenantId) (request : Request) (limits : ProtocolLimits)
    : Result ProtocolError (list byte) :=
  let? _ := ProtocolLimits_validate limits in
  let '(r, payload) := (do* Writer_u64 tenant in encode_request_payload limits request) [] in
  let? _ := r in
  encode_message REQUEST_MESSAGE_TYPE payload (max_request_frame_size limits).

Definition decode_request_parts (header : FrameHeader) (payload : list byte) (limits : ProtocolLimits)
    : Result ProtocolError (TenantId * Request) :=
  let? _ := ProtocolLimits_validate limits in
  let? _ := validate_payload_length header payload (max_request_frame_size limits) in
  guard? message_type header =? REQUEST_MESSAGE_TYPE else UnknownMessageType (message_type header) in
  finished ((let* tenant := Reader_u64 in
             let* request := decode_request_payload limits in
             ret (tenant, request)) (mkReader payload 0)).

Definition decode_request_frame (frame : list byte) (limits : ProtocolLimits) : Result ProtocolError (TenantId * Request) :=
  let? '(header, payload) := split_frame frame in
  decode_request_parts header payload limits.

Definition encode_envelope (limits : ProtocolLimits) (response : ResponseEnvelope) : WriterM unit :=
  match response with
  | Success response =>
      do* Writer_u8 0 in do* Writer_u8 (response_opcode response) in encode_response_payload limits response
  | Failure error => do* Writer_u8 1 in encode_application_error limits error
  end.

Definition encode_response (response : ResponseEnvelope) (limits : ProtocolLimits) : Result ProtocolError (list byte) :=
  let? _ := ProtocolLimits_validate limits in
  let '(r, payload) := encode_envelope limits response [] in
  let? _ := r in
  encode_message RESPONSE_MESSAGE_TYPE payload (max_response_frame_size limits).

Definition decode_envelope (limits : ProtocolLimits) (expected_response_type : option Z) : ReaderM ResponseEnvelope :=
  let* status := Reader_u8 in
  match status with
  | 0 =>
      let* actual := Reader_u8 in
      guard* match expected_response_type with Some expected => actual =? expected | None => true end else
        InvalidResponseType (default 0 expected_response_type) actual in
      let* response := decode_response_payload limits actual in
      ret (Success response)
  | 1 => let* error := decode_application_error limits in ret (Failure error)
  | other => throw (InvalidStatus other)
  end.

Definition decode_response_parts (header : FrameHeader) (payload : list byte) (expected_response_type : option Z)
    (limits : ProtocolLimits) : Result ProtocolError ResponseEnvelope :=
  let? _ := ProtocolLimits_validate limits in
  let? _ := validate_payload_length header payload (max_response_frame_size limits) in
  guard? message_type header =? RESPONSE_MESSAGE_TYPE else UnknownMessageType (message_type header) in
  finished (decode_envelope limits expected_response_type (mkReader payload 0)).

Definition decode_response_frame (frame : list byte) (expected_response_type : option Z) (limits : ProtocolLimits)
    : Result ProtocolError ResponseEnvelope :=
  let? '(header, payload) := split_frame frame in
  decode_response_parts header payload expected_response_type limits.
