(* ===== verification/Wire.v ===== *)
(** * Wire: encoders and decoders that are inverse to each other

    The laws of a pair of a writer and a reader ([codec]): the reader reads what
    the writer wrote, and accepts nothing else, so that every value has exactly
    one encoding.  The pairs of the protocol's primitives are codecs, and codecs
    compose along the sequencing of writers and readers. *)

From S2P Require Import Prelude Core Service Utf8 Protocol.

(** ** Writers *)

#[export] Typeclasses Opaque ret throw lift modify bind forM Writer_u8 Writer_u32 Writer_u64 Writer_bytes_raw Writer_bytes
  encode_bytes encode_count encode_limit encode_key.

(** A writer only appends, whatever is there already. *)
Class Appends {A} (m : WriterM A) : Prop := appends_eq : ∃ r bs, ∀ w, m w = (r, w ++ bs).

Definition writes (m : WriterM unit) (bs : list byte) : Prop := ∀ w, m w = (Ok tt, w ++ bs).

#[export] Instance appends_ret {A} (a : A) : Appends (ret a).
Proof. exists (Ok a), []. intros w. by rewrite app_nil_r. Qed.
#[export] Instance appends_throw {A} e : Appends (A:=A) (throw e).
Proof. exists (Err e), []. intros w. by rewrite app_nil_r. Qed.
#[export] Instance appends_lift {A} (r : Result ProtocolError A) : Appends (lift r).
Proof. exists r, []. intros w. by rewrite app_nil_r. Qed.
#[export] Instance appends_modify bs : Appends (modify (λ w, w ++ bs)).
Proof. by exists (Ok tt), bs. Qed.
#[export] Instance appends_bind {A B} (m : WriterM A) (k : A → WriterM B) : Appends m → (∀ a, Appends (k a)) → Appends (bind m k).
Proof.
  intros (r & bs & Hm) Hk. destruct r as [a|e| |].
  - destruct (Hk a) as (r & bs' & Hk'). exists r, (bs ++ bs'). intros w. rewrite bind_eq, Hm, Hk', app_assoc. done.
  - exists (Err e), bs. intros w. by rewrite bind_eq, Hm.
  - exists Panic, bs. intros w. by rewrite bind_eq, Hm.
  - exists NoFuel, bs. intros w. by rewrite bind_eq, Hm.
Qed.
Lemma appends_if {A} (b : bool) (m m' : WriterM A) : Appends m → Appends m' → Appends (if b then m else m').
Proof. by destruct b. Qed.
#[export] Hint Extern 2 (Appends (if _ then _ else _)) => apply appends_if : typeclass_instances.
#[export] Instance appends_forM {A} (l : list A) (f : A → WriterM unit) : (∀ x, Appends (f x)) → Appends (forM l f).
Proof. intros Hf. induction l; cbn [forM]; apply _. Qed.

Lemma appends_writes (m : WriterM unit) `{!Appends m} w w' : m w = (Ok tt, w') → ∃ bs, w' = w ++ bs ∧ writes m bs.
Proof. destruct (appends_eq (m:=m)) as (r & bs & Hm). rewrite Hm. intros [= -> <-]. by exists bs. Qed.

Lemma writes_unique m bs bs' : writes m bs → writes m bs' → bs = bs'.
Proof. intros H H'. specialize (H []). rewrite (H' []) in H. by injection H. Qed.

Lemma writes_bind (m m' : WriterM unit) bs bs' : writes m bs → writes m' bs' → writes (do* m in m') (bs ++ bs').
Proof. intros H H' w. by rewrite bind_eq, H, H', app_assoc. Qed.

Lemma writes_bind_inv (m m' : WriterM unit) `{!Appends m, !Appends m'} bs :
  writes (do* m in m') bs → ∃ bs1 bs2, bs = bs1 ++ bs2 ∧ writes m bs1 ∧ writes m' bs2.
Proof.
  intros H. destruct (appends_eq (m:=m)) as (r & bs1 & Hm). destruct (appends_eq (m:=m')) as (r' & bs2 & Hm').
  pose proof (H []) as H0. rewrite bind_eq, Hm in H0. destruct r as [[]|e| |]; try done. rewrite Hm' in H0. injection H0 as -> <-.
  exists bs1, bs2. split_and!; [done|intros w; apply Hm|intros w; apply Hm'].
Qed.

Lemma writes_lift_inv {A} (r : Result ProtocolError A) (k : A → WriterM unit) bs :
  writes (bind (lift r) k) bs → ∃ a, r = Ok a ∧ writes (k a) bs.
Proof.
  intros H. destruct r as [a|e| |]; [exists a; split; [done|]|..]; [|by specialize (H [])..]. intros w. exact (H w).
Qed.

Lemma writes_lift {A} (r : Result ProtocolError A) (k : A → WriterM unit) a bs :
  r = Ok a → writes (k a) bs → writes (bind (lift r) k) bs.
Proof. intros -> H w. exact (H w). Qed.

Lemma writes_guard_inv (b : bool) e m bs : writes (if b then m else throw e) bs → b = true ∧ writes m bs.
Proof. destruct b; [done|]. intros H. by specialize (H []). Qed.

(** ** Readers *)

(** At [bs], and whatever surrounds it, the reader returns [a] and moves past [bs]. *)
Definition reads {A} (d : ReaderM A) (bs : list byte) (a : A) : Prop :=
  ∀ pre post, len (pre ++ bs ++ post) ≤ U64_MAX →
    d (mkReader (pre ++ bs ++ post) (len pre)) = (Ok a, mkReader (pre ++ bs ++ post) (len (pre ++ bs))).

(** On any input the reader returns, and what it accepts satisfies [P]. *)
Definition parses {A} (d : ReaderM A) (P : A → list byte → Prop) : Prop :=
  ∀ pre rest, len (pre ++ rest) ≤ U64_MAX →
    match d (mkReader (pre ++ rest) (len pre)) with
    | (Ok a, r) => ∃ bs post, rest = bs ++ post ∧ r = mkReader (pre ++ rest) (len (pre ++ bs)) ∧ P a bs
    | (Err _, _) => True
    | _ => False
    end.

Lemma decodes_ret {A} (a : A) : reads (ret a) [] a.
Proof. intros pre post _. by rewrite app_nil_r. Qed.

Lemma decodes_bind {A B} (d : ReaderM A) (k : A → ReaderM B) bs bs' a b :
  reads d bs a → reads (k a) bs' b → reads (bind d k) (bs ++ bs') b.
Proof.
  intros Hd Hk pre post Hl. specialize (Hd pre (bs' ++ post)). specialize (Hk (pre ++ bs) post).
  rewrite <- !app_assoc in *. rewrite bind_eq, Hd by done. by apply Hk.
Qed.

Lemma reads_bind_ret {A B} (d : ReaderM A) (f : A → B) bs a : reads d bs a → reads (let* x := d in ret (f x)) bs (f a).
Proof. intros H. rewrite <- (app_nil_r bs). eapply decodes_bind; [exact H|apply decodes_ret]. Qed.

Lemma decodes_lift {A B} (r : Result ProtocolError A) (k : A → ReaderM B) a bs b :
  r = Ok a → reads (k a) bs b → reads (bind (lift r) k) bs b.
Proof. intros -> H pre post Hl. by apply H. Qed.

Lemma parses_ret {A} (a : A) (P : A → list byte → Prop) : P a [] → parses (ret a) P.
Proof. intros H pre rest Hl. exists [], rest. by rewrite app_nil_r. Qed.

Lemma parses_throw {A} e (P : A → list byte → Prop) : parses (throw e) P.
Proof. intros pre rest Hl. exact I. Qed.

Lemma parses_bind {A B} (d : ReaderM A) (k : A → ReaderM B) (P : A → list byte → Prop) (Q : B → list byte → Prop) :
  parses d P → (∀ a bs, P a bs → parses (k a) (λ b bs', Q b (bs ++ bs'))) → parses (bind d k) Q.
Proof.
  intros Hd Hk pre rest Hl. specialize (Hd pre rest Hl). rewrite bind_eq.
  destruct (d _) as [[a|e| |] r]; try done. destruct Hd as (bs & post & -> & -> & HP).
  specialize (Hk a bs HP (pre ++ bs) post). rewrite <- !app_assoc in Hk. specialize (Hk Hl).
  destruct (k a _) as [[b|e| |] r']; try done. destruct Hk as (bs' & post' & -> & -> & HQ).
  exists (bs ++ bs'), post'. by rewrite <- !app_assoc.
Qed.

Lemma parses_weaken {A} (d : ReaderM A) (P Q : A → list byte → Prop) : parses d P → (∀ a bs, P a bs → Q a bs) → parses d Q.
Proof. intros H HPQ pre rest Hl. specialize (H pre rest Hl). destruct (d _) as [[a|e| |] r]; naive_solver. Qed.

Lemma parses_lift {A B} (r : Result ProtocolError A) (k : A → ReaderM B) Q :
  returns r → (∀ a, r = Ok a → parses (k a) Q) → parses (bind (lift r) k) Q.
Proof. intros Hr Hk. destruct r as [a|e| |]; try done. exact (Hk a eq_refl). Qed.

(** ** Codecs *)

Record codec {A} (ok : A → Prop) (W : A → WriterM unit) (D : ReaderM A) : Prop := mkCodec {
  codec_appends : ∀ a, Appends (W a);
  codec_reads : ∀ a bs, ok a → writes (W a) bs → reads D bs a;
  codec_parses : parses D (λ a bs, ok a ∧ writes (W a) bs)
}.

Definition is_u8 (z : Z) : Prop := 0 ≤ z ≤ 255.
#[export] Hint Unfold is_u8 : consts.

Lemma len_u16_be z : len (u16_to_be_bytes z) = 2.
Proof. unfold u16_to_be_bytes, len. rewrite length_rev, length_le_split. done. Qed.
Lemma len_u32_be z : len (u32_to_be_bytes z) = 4.
Proof. unfold u32_to_be_bytes, len. rewrite length_rev, length_le_split. done. Qed.
Lemma len_u64_be z : len (u64_to_be_bytes z) = 8.
Proof. unfold u64_to_be_bytes, len. rewrite length_rev, length_le_split. done. Qed.

Lemma from_u16_be z : is_u16 z → from_be_bytes (u16_to_be_bytes z) = z.
Proof. intros H. unfold from_be_bytes, u16_to_be_bytes. rewrite rev_involutive. by apply from_u16. Qed.
Lemma from_u32_be z : is_u32 z → from_be_bytes (u32_to_be_bytes z) = z.
Proof. intros H. unfold from_be_bytes, u32_to_be_bytes. rewrite rev_involutive. by apply from_u32. Qed.
Lemma from_u64_be z : is_u64 z → from_be_bytes (u64_to_be_bytes z) = z.
Proof. intros H. unfold from_be_bytes, u64_to_be_bytes. rewrite rev_involutive. by apply from_u64. Qed.

Lemma len_rev {A} (l : list A) : len (rev l) = len l.
Proof. unfold len. by rewrite length_rev. Qed.

Lemma u16_of_be bs : len bs = 2 → is_u16 (from_be_bytes bs) ∧ u16_to_be_bytes (from_be_bytes bs) = bs.
Proof.
  intros H. unfold from_be_bytes, u16_to_be_bytes. pose proof (len_rev bs) as Hr. rewrite H in Hr. split; [by apply from_le_u16|].
  rewrite <- (rev_involutive bs) at 2. f_equal. by apply u16_from_le.
Qed.
Lemma u32_of_be bs : len bs = 4 → is_u32 (from_be_bytes bs) ∧ u32_to_be_bytes (from_be_bytes bs) = bs.
Proof.
  intros H. unfold from_be_bytes, u32_to_be_bytes. pose proof (len_rev bs) as Hr. rewrite H in Hr. split; [by apply from_le_u32|].
  rewrite <- (rev_involutive bs) at 2. f_equal. by apply u32_from_le.
Qed.
Lemma u64_of_be bs : len bs = 8 → is_u64 (from_be_bytes bs) ∧ u64_to_be_bytes (from_be_bytes bs) = bs.
Proof.
  intros H. unfold from_be_bytes, u64_to_be_bytes. pose proof (len_rev bs) as Hr. rewrite H in Hr. split; [by apply from_le_u64|].
  rewrite <- (rev_involutive bs) at 2. f_equal. by apply u64_from_le.
Qed.

(** *** The reader's primitives *)

Lemma reads_take n bs : n = len bs → reads (Reader_take n) bs bs.
Proof.
  intros -> pre post Hl. unfold Reader_take. rewrite bind_eq. unfold get at 1. cbn [rd_offset rd_input].
  pose proof (len_nonneg pre). pose proof (len_nonneg post). rewrite !len_app in Hl. unfold checked_add.
  rewrite (proj2 (Z.leb_le _ _)) by lia. rewrite bind_eq. unfold lift at 1. cbn [ok_or].
  rewrite (proj2 (Z.leb_le _ _)) by (rewrite !len_app; lia). rewrite bind_eq. unfold lift at 1. cbn [ok_or].
  rewrite bind_eq. unfold modify. cbn [rd_input]. unfold ret. rewrite sub_app_exact by done. by rewrite len_app.
Qed.

Lemma parses_take n : 0 ≤ n → parses (Reader_take n) (λ a bs, a = bs ∧ len bs = n).
Proof.
  intros Hn pre rest Hl. unfold Reader_take. rewrite bind_eq. unfold get at 1. cbn [rd_offset rd_input]. rewrite bind_eq. unfold lift at 1.
  pose proof (len_nonneg pre). rewrite len_app in Hl. unfold checked_add. destruct (len pre + n <=? U64_MAX); [|done]. cbn [ok_or].
  rewrite bind_eq. unfold lift at 1. rewrite len_app. destruct (len pre + n <=? len pre + len rest) eqn:E; [|done]. bool_props. cbn [ok_or].
  rewrite bind_eq. unfold modify. cbn [rd_input]. unfold ret. exists (sub rest 0 n), (sub rest n (len rest)). split_and!.
  - rewrite <- sub_split by lia. by rewrite sub_all.
  - f_equal. rewrite len_app, len_sub by lia. lia.
  - rewrite sub_app_r by lia. f_equal; lia.
  - rewrite len_sub by lia. lia.
Qed.

Lemma unsigned_byte_of_Z z : is_u8 z → byte.unsigned (byte.of_Z z) = z.
Proof. apply unsigned_of_Z. Qed.

#[export] Instance appends_u8 z : Appends (Writer_u8 z).
Proof. unfold Writer_u8. apply _. Qed.
#[export] Instance appends_u32 z : Appends (Writer_u32 z).
Proof. unfold Writer_u32. apply _. Qed.
#[export] Instance appends_u64 z : Appends (Writer_u64 z).
Proof. unfold Writer_u64. apply _. Qed.
#[export] Instance appends_bytes_raw bs : Appends (Writer_bytes_raw bs).
Proof. unfold Writer_bytes_raw. apply _. Qed.
#[export] Instance appends_bytes bs n : Appends (encode_bytes bs n).
Proof. unfold encode_bytes. apply _. Qed.
#[export] Instance appends_Writer_bytes bs n : Appends (Writer_bytes bs n).
Proof. unfold Writer_bytes. apply _. Qed.
#[export] Instance appends_count z n : Appends (encode_count z n).
Proof. unfold encode_count. apply _. Qed.
#[export] Instance appends_limit z n : Appends (encode_limit z n).
Proof. unfold encode_limit. apply _. Qed.

Lemma reads_u8 z : is_u8 z → reads Reader_u8 [byte.of_Z z] z.
Proof.
  intros Hz pre post Hl. unfold Reader_u8. rewrite bind_eq. unfold get at 1. cbn [rd_offset rd_input]. rewrite to_nat_len.
  rewrite lookup_app_r, Nat.sub_diag by lia. rewrite bind_eq. unfold lift at 1. cbn [ok_or lookup list_lookup app].
  rewrite bind_eq. unfold lift at 1, plain_add. rewrite !len_app in Hl. pose proof (len_nonneg post).
  change (len [byte.of_Z z]) with 1 in Hl. rewrite (proj2 (Z.leb_le _ _)) by lia. rewrite bind_eq. unfold modify, ret. cbn [rd_input].
  rewrite unsigned_byte_of_Z by done. by rewrite len_app.
Qed.

Lemma parses_u8 : parses Reader_u8 (λ a bs, is_u8 a ∧ bs = [byte.of_Z a]).
Proof.
  intros pre rest Hl. unfold Reader_u8. rewrite bind_eq. unfold get at 1. cbn [rd_offset rd_input]. rewrite to_nat_len.
  rewrite lookup_app_r, Nat.sub_diag by lia. destruct rest as [|b rest]; [done|]. rewrite bind_eq. unfold lift at 1. cbn [ok_or lookup list_lookup].
  rewrite bind_eq. unfold lift at 1, plain_add. rewrite len_app, len_cons in Hl. pose proof (len_nonneg rest).
  rewrite (proj2 (Z.leb_le _ _)) by lia. rewrite bind_eq. unfold modify, ret. cbn [rd_input]. pose proof (byte.unsigned_range b).
  exists [b], rest. split_and!; [done|by rewrite len_app|unfold is_u8; lia|by rewrite byte.of_Z_unsigned].
Qed.

(** *** Codecs of the primitives *)

Lemma writes_u8 z : writes (Writer_u8 z) [byte.of_Z z].
Proof. done. Qed.
Lemma writes_u32 z : writes (Writer_u32 z) (u32_to_be_bytes z).
Proof. done. Qed.
Lemma writes_u64 z : writes (Writer_u64 z) (u64_to_be_bytes z).
Proof. done. Qed.

Lemma codec_u8 : codec is_u8 Writer_u8 Reader_u8.
Proof.
  split; [apply _| |].
  - intros z bs Hz Hw. rewrite (writes_unique _ _ _ Hw (writes_u8 z)). by apply reads_u8.
  - eapply parses_weaken; [apply parses_u8|]. intros z bs [Hz ->]. split; [done|apply writes_u8].
Qed.

Lemma codec_u32 : codec is_u32 Writer_u32 Reader_u32.
Proof.
  split; [apply _| |].
  - intros z bs Hz Hw. rewrite (writes_unique _ _ _ Hw (writes_u32 z)). unfold Reader_u32. rewrite <- (app_nil_r (u32_to_be_bytes z)).
    eapply decodes_bind; [apply reads_take; by rewrite len_u32_be|]. eapply decodes_lift.
    + rewrite slice_Ok by (rewrite ?len_u32_be; lia). by rewrite sub_all' by (by rewrite len_u32_be).
    + rewrite <- (from_u32_be z Hz) at 2. apply decodes_ret.
  - unfold Reader_u32. eapply parses_bind; [apply parses_take; lia|]. intros a bs [-> Hl]. cbv beta. apply parses_lift.
    { by rewrite slice_Ok by lia. }
    intros a Ha. apply slice_inv in Ha as (_ & _ & ->). rewrite sub_all' by done. apply parses_ret. rewrite app_nil_r.
    destruct (u32_of_be bs Hl) as [Hr E]. split; [done|]. rewrite <- E at 2. apply writes_u32.
Qed.

Lemma codec_u64 : codec is_u64 Writer_u64 Reader_u64.
Proof.
  split; [apply _| |].
  - intros z bs Hz Hw. rewrite (writes_unique _ _ _ Hw (writes_u64 z)). unfold Reader_u64. rewrite <- (app_nil_r (u64_to_be_bytes z)).
    eapply decodes_bind; [apply reads_take; by rewrite len_u64_be|]. eapply decodes_lift.
    + rewrite slice_Ok by (rewrite ?len_u64_be; lia). by rewrite sub_all' by (by rewrite len_u64_be).
    + rewrite <- (from_u64_be z Hz) at 2. apply decodes_ret.
  - unfold Reader_u64. eapply parses_bind; [apply parses_take; lia|]. intros a bs [-> Hl]. cbv beta. apply parses_lift.
    { by rewrite slice_Ok by lia. }
    intros a Ha. apply slice_inv in Ha as (_ & _ & ->). rewrite sub_all' by done. apply parses_ret. rewrite app_nil_r.
    destruct (u64_of_be bs Hl) as [Hr E]. split; [done|]. rewrite <- E at 2. apply writes_u64.
Qed.

(** A value that is written as a checked [u32]. *)
Lemma writes_count_inv n maximum bs :
  writes (encode_count n maximum) bs → n ≤ maximum ∧ n ≤ U32_MAX ∧ writes (Writer_u32 n) bs.
Proof.
  intros [Hm H]%writes_guard_inv. apply writes_lift_inv in H as (a & Ha & H). unfold u32_try_from in Ha.
  destruct (n <=? U32_MAX) eqn:E; [|done]. injection Ha as <-. bool_props. done.
Qed.

Lemma writes_count n maximum bs : n ≤ maximum → n ≤ U32_MAX → writes (Writer_u32 n) bs → writes (encode_count n maximum) bs.
Proof.
  intros Hm Hn H. unfold encode_count. rewrite (proj2 (Z.ltb_ge _ _)) by lia. cbn [negb]. eapply writes_lift; [|exact H].
  unfold u32_try_from. by rewrite (proj2 (Z.leb_le _ _)).
Qed.

Lemma codec_count maximum : codec (λ n, 0 ≤ n) (λ n, encode_count n maximum) (Reader_count maximum).
Proof.
  split; [apply _| |].
  - intros n bs Hn (Hm & Hu & Hw)%writes_count_inv. unfold Reader_count. rewrite <- (app_nil_r bs).
    eapply decodes_bind; [apply (codec_reads _ _ _ codec_u32 n); [lia|done]|]. eapply decodes_lift.
    { unfold usize_try_from. by rewrite (proj2 (Z.leb_le _ _)) by lia. }
    rewrite (proj2 (Z.ltb_ge _ _)) by lia. apply decodes_ret.
  - unfold Reader_count. eapply parses_bind; [apply codec_u32|]. intros n bs [Hn Hw]. cbv beta. apply parses_lift.
    { unfold usize_try_from. by case_match. }
    intros a Ha. unfold usize_try_from in Ha. destruct (n <=? USIZE_MAX) eqn:E; [|done]. injection Ha as <-.
    destruct (maximum <? n) eqn:E'; cbn [negb]; [apply parses_throw|]. bool_props. apply parses_ret. rewrite app_nil_r.
    split; [lia|]. by apply writes_count; [|lia|].
Qed.

Lemma encode_limit_count n maximum : encode_limit n maximum = encode_count n maximum.
Proof. done. Qed.

(** Byte strings with their length. *)
Lemma codec_bytes maximum : codec (λ _, True) (λ bs, encode_bytes bs maximum) (Reader_bytes maximum).
Proof.
  split; [apply _| |].
  - intros v bs _ [Hm H]%writes_guard_inv. apply writes_lift_inv in H as (n & Hn & H). unfold u32_try_from in Hn.
    destruct (len v <=? U32_MAX) eqn:E; [|done]. injection Hn as <-. bool_props. pose proof (len_nonneg v).
    apply writes_bind_inv in H as (bs1 & bs2 & -> & H1 & H2); [|apply _..].
    rewrite (writes_unique (modify (λ w, w ++ v)) bs2 v) by done. unfold Reader_bytes.
    eapply decodes_bind; [apply (codec_reads _ _ _ codec_u32 (len v)); [lia|done]|]. eapply decodes_lift.
    { unfold usize_try_from. by rewrite (proj2 (Z.leb_le _ _)) by lia. }
    rewrite (proj2 (Z.ltb_ge _ _)) by lia. by apply reads_take.
  - unfold Reader_bytes. eapply parses_bind; [apply codec_u32|]. intros n bs [Hn Hw]. cbv beta. apply parses_lift.
    { unfold usize_try_from. by case_match. }
    intros a Ha. unfold usize_try_from in Ha. destruct (n <=? USIZE_MAX) eqn:E; [|done]. injection Ha as <-.
    destruct (maximum <? n) eqn:E'; cbn [negb]; [apply parses_throw|]. bool_props.
    eapply parses_weaken; [apply parses_take; lia|]. intros v bs' [-> Hl]. split; [done|]. unfold encode_bytes.
    rewrite (proj2 (Z.ltb_ge _ _)) by lia. eapply writes_lift; [unfold u32_try_from; rewrite (proj2 (Z.leb_le _ _)) by lia; done|].
    rewrite Hl. by apply writes_bind.
Qed.

(** *** Tags, options and lists *)

Lemma writes_tag_inv z m `{!Appends m} bs :
  writes (do* Writer_u8 z in m) bs → ∃ bs', bs = [byte.of_Z z] ++ bs' ∧ writes m bs'.
Proof.
  intros H. apply writes_bind_inv in H as (bs1 & bs2 & -> & H1 & H2); [|apply _..]. exists bs2. split; [|done].
  f_equal. exact (writes_unique _ _ _ H1 (writes_u8 z)).
Qed.

Lemma reads_tag {A} z (k : Z → ReaderM A) bs b : is_u8 z → reads (k z) bs b → reads (bind Reader_u8 k) ([byte.of_Z z] ++ bs) b.
Proof. intros Hz H. eapply decodes_bind; [by apply reads_u8|done]. Qed.

Lemma reads_tag_only {A} z (k : Z → ReaderM A) b : is_u8 z → reads (k z) [] b → reads (bind Reader_u8 k) [byte.of_Z z] b.
Proof. apply (reads_tag z k [] b). Qed.

Lemma parses_tag {A} (k : Z → ReaderM A) Q :
  (∀ z, is_u8 z → parses (k z) (λ b bs, Q b ([byte.of_Z z] ++ bs))) → parses (bind Reader_u8 k) Q.
Proof. intros Hk. eapply parses_bind; [apply parses_u8|]. intros z bs [Hz ->]. by apply Hk. Qed.

Lemma writes_tag z m bs : writes m bs → writes (do* Writer_u8 z in m) ([byte.of_Z z] ++ bs).
Proof. intros H. by apply writes_bind. Qed.

(** [match flag]: an option with its flag. *)
Definition write_option {A} (W : A → WriterM unit) (o : option A) : WriterM unit :=
  match o with Some a => do* Writer_u8 1 in W a | None => Writer_u8 0 end.
Definition read_option {A} (D : ReaderM A) : ReaderM (option A) :=
  let* flag := Reader_flag in if flag then (let* a := D in ret (Some a)) else ret None.

Lemma parses_flag {A} (k : bool → ReaderM A) Q :
  parses (k false) (λ b bs, Q b ([byte.of_Z 0] ++ bs)) → parses (k true) (λ b bs, Q b ([byte.of_Z 1] ++ bs)) →
  parses (bind Reader_flag k) Q.
Proof.
  intros H0 H1. eapply (parses_bind _ _ (λ f bs, bs = [byte.of_Z (if f : bool then 1 else 0)])); [|by intros [] ? ->].
  unfold Reader_flag. apply parses_tag. intros z Hz. repeat case_match; try apply parses_throw; by apply parses_ret.
Qed.

Lemma reads_flag (f : bool) : reads Reader_flag [byte.of_Z (if f then 1 else 0)] f.
Proof. unfold Reader_flag. destruct f; (apply reads_tag_only; [by unfold is_u8|apply decodes_ret]). Qed.

Lemma codec_option {A} ok (W : A → WriterM unit) D :
  codec ok W D → codec (from_option ok True) (write_option W) (read_option D).
Proof.
  intros [Ha Hr Hp]. split.
  - intros [a|]; cbn; apply _.
  - intros [a|] bs Hok Hw; cbn in Hok, Hw; unfold read_option.
    + apply writes_tag_inv in Hw as (bs' & -> & Hw); [|apply _]. eapply decodes_bind; [apply (reads_flag true)|].
      apply reads_bind_ret. by apply Hr.
    + rewrite (writes_unique _ _ _ Hw (writes_u8 0)). rewrite <- (app_nil_r [byte.of_Z 0]).
      eapply decodes_bind; [apply (reads_flag false)|]. apply decodes_ret.
  - unfold read_option. apply parses_flag.
    + by apply parses_ret.
    + eapply parses_bind; [exact Hp|]. intros a bs [Hok Hw]. apply parses_ret. rewrite app_nil_r. split; [done|]. by apply writes_tag.
Qed.

Lemma codec_items {A} ok (W : A → WriterM unit) D : codec ok W D →
  (∀ l bs, Forall ok l → writes (forM l W) bs → reads (decode_items D (length l)) bs l) ∧
  (∀ n, parses (decode_items D n) (λ l bs, Forall ok l ∧ length l = n ∧ writes (forM l W) bs)).
Proof.
  intros [Ha Hr Hp]. split.
  - induction l as [|a l IH]; intros bs Hok Hw; cbn [forM length decode_items] in *.
    + rewrite (writes_unique (ret tt) bs [] Hw) by (intros w; by rewrite app_nil_r). apply decodes_ret.
    + inversion Hok; subst. apply writes_bind_inv in Hw as (bs1 & bs2 & -> & Hw1 & Hw2); [|apply _..].
      eapply decodes_bind; [by apply Hr|]. apply reads_bind_ret. by apply IH.
  - induction n as [|n IH]; cbn [decode_items].
    + apply parses_ret. split_and!; [done|done|]. intros w. by rewrite app_nil_r.
    + eapply parses_bind; [exact Hp|]. intros a bs [Hok Hw]. eapply parses_bind; [exact IH|]. intros l bs' (HF & Hl & Hws).
      apply parses_ret. rewrite app_nil_r. split_and!; [by constructor|simpl; lia|]. cbn [forM]. by apply writes_bind.
Qed.

(** A list with its number of items. *)
Lemma codec_list {A} ok (W : A → WriterM unit) D maximum : codec ok W D →
  codec (Forall ok) (λ l, do* encode_count (len l) maximum in forM l W)
    (let* count := Reader_count maximum in decode_items D (Z.to_nat count)).
Proof.
  intros C. destruct (codec_items ok W D C) as [Hr Hp]. pose proof (codec_appends _ _ _ C). split; [apply _| |].
  - intros l bs Hok Hw. apply writes_bind_inv in Hw as (bs1 & bs2 & -> & H1 & H2); [|apply _..].
    eapply decodes_bind; [apply (codec_reads _ _ _ (codec_count maximum) (len l)); [apply (len_nonneg l)|done]|].
    cbv beta. rewrite to_nat_len. by apply Hr.
  - eapply parses_bind; [apply codec_count|]. intros n bs [Hn Hw]. eapply parses_weaken; [apply Hp|].
    intros l bs' (HF & Hl & Hws). split; [done|]. apply writes_bind; [|done]. cbv beta in Hw.
    by replace (len l) with n by (unfold len; lia).
Qed.
