(* ===== verification/ProtocolSpec.v ===== *)
(** * ProtocolSpec: the wire protocol is unambiguous

    Every function pair of Protocol.v is a codec, so that a frame is accepted
    exactly when it is the encoding of the message it is read as. *)

From S2P Require Import Prelude Core Service Utf8 Protocol Wire.

Section spec.
Context (limits : ProtocolLimits).

(** ** Keys *)

#[export] Instance appends_key key : Appends (encode_key limits key).
Proof. unfold encode_key. apply _. Qed.

Lemma codec_key : codec (λ _, True) (encode_key limits) (decode_key limits).
Proof.
  split; [apply _| |].
  - intros [p s] bs _ Hw. apply writes_lift_inv in Hw as ([] & Hv & Hw).
    apply writes_bind_inv in Hw as (bs1 & bs2 & -> & H1 & H2); [|apply _..]. unfold decode_key.
    eapply decodes_bind; [by apply (codec_reads _ _ _ (codec_bytes _) p)|]. rewrite <- (app_nil_r bs2).
    eapply decodes_bind; [by apply (codec_reads _ _ _ (codec_bytes _) s)|]. eapply decodes_lift; [exact Hv|]. apply decodes_ret.
  - unfold decode_key. eapply parses_bind; [apply codec_bytes|]. intros p bs1 [_ H1].
    eapply parses_bind; [apply codec_bytes|]. intros s bs2 [_ H2]. apply parses_lift; [unfold validate_key, validate_key_parts; by case_match|].
    intros [] Hv. apply parses_ret. rewrite app_nil_r. split; [done|]. eapply writes_lift; [exact Hv|]. by apply writes_bind.
Qed.

Lemma codec_optional_key : codec (λ _, True) (encode_optional_key limits) (decode_optional_key limits).
Proof. destruct (codec_option _ _ _ codec_key) as [Ha Hr Hp]. split; [exact Ha| |].
  - intros o bs _. apply Hr. by destruct o.
  - eapply parses_weaken; [exact Hp|]. by intros o bs [_ ?].
Qed.

Lemma codec_optional_bytes maximum :
  codec (λ _, True) (λ o, encode_optional_bytes o maximum) (Reader_optional_bytes maximum).
Proof. destruct (codec_option _ _ _ (codec_bytes maximum)) as [Ha Hr Hp]. split; [exact Ha| |].
  - intros o bs _. apply Hr. by destruct o.
  - eapply parses_weaken; [exact Hp|]. by intros o bs [_ ?].
Qed.

#[export] Instance appends_optional_key o : Appends (encode_optional_key limits o).
Proof. apply codec_optional_key. Qed.
#[export] Instance appends_optional_bytes o n : Appends (encode_optional_bytes o n).
Proof. apply (codec_appends _ _ _ (codec_optional_bytes n)). Qed.

(** ** Transactions *)

Definition wf_condition (c : TransactionCondition) : Prop :=
  match c with RevisionEquals _ revision => is_u64 revision | _ => True end.

#[export] Instance appends_condition c : Appends (encode_condition limits c).
Proof. destruct c; cbn; apply _. Qed.

Lemma codec_condition : codec wf_condition (encode_condition limits) (decode_condition limits).
Proof.
  split; [apply _| |].
  - intros [key revision|key|key] bs Hok Hw; cbn [encode_condition] in Hw; apply writes_tag_inv in Hw as (bs' & -> & Hw);
      try apply _; unfold decode_condition; apply reads_tag; try by unfold is_u8.
    + apply writes_bind_inv in Hw as (bs1 & bs2 & -> & H1 & H2); [|apply _..].
      eapply decodes_bind; [by apply codec_key|]. apply reads_bind_ret. by apply codec_u64.
    + apply reads_bind_ret. by apply codec_key.
    + apply reads_bind_ret. by apply codec_key.
  - unfold decode_condition. apply parses_tag. intros z Hz. eapply parses_bind; [apply codec_key|]. intros key bs [_ Hw].
    repeat case_match; try apply parses_throw.
    + eapply parses_bind; [apply codec_u64|]. intros revision bs' [Hr Hw']. apply parses_ret. rewrite app_nil_r.
      split; [done|]. apply writes_tag. by apply writes_bind.
    + apply parses_ret. rewrite app_nil_r. split; [done|]. by apply writes_tag.
    + apply parses_ret. rewrite app_nil_r. split; [done|]. by apply writes_tag.
Qed.

#[export] Instance appends_mutation m : Appends (encode_mutation limits m).
Proof. destruct m; cbn; apply _. Qed.

Lemma codec_mutation : codec (λ _, True) (encode_mutation limits) (decode_mutation limits).
Proof.
  split; [apply _| |].
  - intros [key value|key] bs Hok Hw; cbn [encode_mutation] in Hw; apply writes_tag_inv in Hw as (bs' & -> & Hw);
      try apply _; unfold decode_mutation; apply reads_tag; try by unfold is_u8.
    + apply writes_bind_inv in Hw as (bs1 & bs2 & -> & H1 & H2); [|apply _..].
      eapply decodes_bind; [by apply codec_key|]. apply reads_bind_ret. by apply codec_bytes.
    + apply reads_bind_ret. by apply codec_key.
  - unfold decode_mutation. apply parses_tag. intros z Hz. eapply parses_bind; [apply codec_key|]. intros key bs [_ Hw].
    repeat case_match; try apply parses_throw.
    + eapply parses_bind; [apply codec_bytes|]. intros value bs' [_ Hw']. apply parses_ret. rewrite app_nil_r.
      split; [done|]. apply writes_tag. by apply writes_bind.
    + apply parses_ret. rewrite app_nil_r. split; [done|]. by apply writes_tag.
Qed.

Lemma codec_conditions : codec (Forall wf_condition) (encode_conditions limits) (decode_conditions limits).
Proof. exact (codec_list _ _ _ _ codec_condition). Qed.

Lemma codec_mutations : codec (Forall (λ _, True)) (encode_mutations limits) (decode_mutations limits).
Proof. exact (codec_list _ _ _ _ codec_mutation). Qed.

#[export] Instance appends_conditions cs : Appends (encode_conditions limits cs).
Proof. apply codec_conditions. Qed.
#[export] Instance appends_mutations ms : Appends (encode_mutations limits ms).
Proof. apply codec_mutations. Qed.

(** ** Requests *)

(** The integers of a request are in the range of their types. *)
Definition wf_request (r : Request) : Prop :=
  match r with
  | ReqQuery _ _ limit | ReqScan _ limit => 0 ≤ limit
  | ReqTransact request => Forall wf_condition (conditions request)
  | _ => True
  end.

#[export] Instance appends_request_payload r : Appends (encode_request_payload limits r).
Proof. unfold encode_request_payload. destruct r; apply _. Qed.

Lemma reads_request_payload r bs :
  wf_request r → writes (encode_request_payload limits r) bs → reads (decode_request_payload limits) bs r.
Proof.
  unfold encode_request_payload, decode_request_payload. intros Hok Hw. apply writes_tag_inv in Hw as (bs' & -> & Hw); [|destruct r; apply _].
  apply reads_tag; [by destruct r; unfold is_u8|]. destruct r as [key|key value|key|p o limit|o limit|[cs ms]]; cbn [request_opcode].
  - apply reads_bind_ret. by apply codec_key.
  - apply writes_bind_inv in Hw as (bs1 & bs2 & -> & H1 & H2); [|apply _..].
    eapply decodes_bind; [by apply codec_key|]. apply reads_bind_ret. by apply codec_bytes.
  - apply reads_bind_ret. by apply codec_key.
  - apply writes_lift_inv in Hw as ([] & Hv & Hw). apply writes_bind_inv in Hw as (bs1 & bs2 & -> & H1 & H2); [|apply _..].
    apply writes_bind_inv in H2 as (bs3 & bs4 & -> & H2 & H3); [|apply _..].
    eapply decodes_bind; [by apply codec_bytes|]. eapply decodes_bind; [by apply codec_optional_bytes|].
    eapply decodes_lift; [exact Hv|]. apply (reads_bind_ret _ (λ limit, ReqQuery p o limit)). by apply (codec_reads _ _ _ (codec_count _)).
  - apply writes_bind_inv in Hw as (bs1 & bs2 & -> & H1 & H2); [|apply _..]. eapply decodes_bind; [by apply codec_optional_key|].
    apply (reads_bind_ret _ (λ limit, ReqScan o limit)). by apply (codec_reads _ _ _ (codec_count _)).
  - apply writes_bind_inv in Hw as (bs1 & bs2 & -> & H1 & H2); [|apply _..]. eapply decodes_bind; [by apply codec_conditions|].
    apply (reads_bind_ret _ (λ ms, ReqTransact (mkRequest cs ms))). apply codec_mutations; [by apply Forall_true|done].
Qed.

Lemma parses_request_payload :
  parses (decode_request_payload limits) (λ r bs, wf_request r ∧ writes (encode_request_payload limits r) bs).
Proof.
  unfold decode_request_payload. apply parses_tag. intros z Hz. repeat case_match; try apply parses_throw.
  - (* Scan *) eapply parses_bind; [apply codec_optional_key|]. intros o bs [_ Hw]. eapply parses_bind; [apply codec_count|].
    intros limit bs' [Hl Hw']. apply parses_ret. rewrite app_nil_r. split; [done|]. apply writes_tag. by apply writes_bind.
  - (* Delete *) eapply parses_bind; [apply codec_key|]. intros key bs [_ Hw]. apply parses_ret. rewrite app_nil_r.
    split; [done|]. by apply writes_tag.
  - (* Transact *) eapply parses_bind; [apply codec_conditions|]. intros cs bs [Hc Hw]. eapply parses_bind; [apply codec_mutations|].
    intros ms bs' [_ Hw']. apply parses_ret. rewrite app_nil_r. split; [done|]. apply writes_tag. by apply writes_bind.
  - (* Query *) eapply parses_bind; [apply codec_bytes|]. intros q bs [_ Hw]. eapply parses_bind; [apply codec_optional_bytes|].
    intros o bs' [_ Hw']. apply parses_lift; [unfold validate_key_parts; by case_match|]. intros [] Hv.
    eapply parses_bind; [apply codec_count|]. intros limit bs'' [Hl Hw'']. apply parses_ret. rewrite app_nil_r. split; [done|].
    apply writes_tag. eapply writes_lift; [exact Hv|]. by repeat apply writes_bind.
  - (* Put *) eapply parses_bind; [apply codec_key|]. intros key bs [_ Hw]. eapply parses_bind; [apply codec_bytes|].
    intros value bs' [_ Hw']. apply parses_ret. rewrite app_nil_r. split; [done|]. apply writes_tag. by apply writes_bind.
  - (* Get *) eapply parses_bind; [apply codec_key|]. intros key bs [_ Hw]. apply parses_ret. rewrite app_nil_r.
    split; [done|]. by apply writes_tag.
Qed.

Lemma codec_request : codec wf_request (encode_request_payload limits) (decode_request_payload limits).
Proof. split; [apply _|exact reads_request_payload|exact parses_request_payload]. Qed.

(** ** Responses *)

Definition wf_outcome (o : TransactionOutcome) : Prop := from_option is_u64 True (outcome_lsn o).

Lemma codec_outcome : codec wf_outcome encode_transaction_outcome decode_transaction_outcome.
Proof.
  split.
  - intros [[lsn|]]; cbn; apply _.
  - intros [[lsn|]] bs Hok Hw; cbn in Hok, Hw; unfold decode_transaction_outcome.
    + apply writes_tag_inv in Hw as (bs' & -> & Hw); [|apply _]. apply reads_tag; [by unfold is_u8|].
      apply (reads_bind_ret _ TransactionOutcome_committed). by apply codec_u64.
    + rewrite (writes_unique _ _ _ Hw (writes_u8 0)). apply reads_tag_only; [by unfold is_u8|]. apply decodes_ret.
  - unfold decode_transaction_outcome. apply parses_tag. intros z Hz. repeat case_match; try apply parses_throw.
    + by apply parses_ret.
    + eapply parses_bind; [apply codec_u64|]. intros lsn bs [Hl Hw]. apply parses_ret. rewrite app_nil_r. split; [done|]. by apply writes_tag.
Qed.

Definition wf_document (d : ServiceDocument) : Prop := is_u64 (sdoc_revision d).

#[export] Instance appends_document d : Appends (encode_document limits d).
Proof. unfold encode_document. apply _. Qed.

Lemma codec_document : codec wf_document (encode_document limits) (decode_document limits).
Proof.
  split; [apply _| |].
  - intros [key value revision] bs Hok Hw. apply writes_bind_inv in Hw as (bs1 & bs2 & -> & H1 & H2); [|apply _..].
    apply writes_bind_inv in H2 as (bs3 & bs4 & -> & H2 & H3); [|apply _..]. unfold decode_document.
    eapply decodes_bind; [by apply codec_key|]. eapply decodes_bind; [by apply (codec_reads _ _ _ (codec_bytes _))|].
    apply (reads_bind_ret _ (mkServiceDocument key value)). by apply codec_u64.
  - unfold decode_document. eapply parses_bind; [apply codec_key|]. intros key bs [_ Hw]. eapply parses_bind; [apply codec_bytes|].
    intros value bs' [_ Hw']. eapply parses_bind; [apply codec_u64|]. intros revision bs'' [Hr Hw'']. apply parses_ret.
    rewrite app_nil_r. split; [done|]. apply writes_bind; [done|]. by apply writes_bind.
Qed.

Lemma codec_documents : codec (Forall wf_document) (encode_documents limits) (decode_documents limits).
Proof. exact (codec_list _ _ _ _ codec_document). Qed.

Definition wf_state (s : RevisionState) : Prop := is_u64 (RevisionState_revision s).

Lemma codec_revision_state : codec wf_state (encode_revision_state limits) (decode_revision_state limits).
Proof.
  split.
  - intros [value revision|revision]; cbn; apply _.
  - intros [value revision|revision] bs Hok Hw; cbn in Hok, Hw; apply writes_tag_inv in Hw as (bs' & -> & Hw); try apply _;
      unfold decode_revision_state; (apply reads_tag; [by unfold is_u8|]).
    + apply writes_bind_inv in Hw as (bs1 & bs2 & -> & H1 & H2); [|apply _..]. eapply decodes_bind; [by apply (codec_reads _ _ _ (codec_bytes _))|].
      apply (reads_bind_ret _ (Present value)). by apply codec_u64.
    + apply reads_bind_ret. by apply codec_u64.
  - unfold decode_revision_state. apply parses_tag. intros z Hz. repeat case_match; try apply parses_throw.
    + eapply parses_bind; [apply codec_bytes|]. intros value bs [_ Hw]. eapply parses_bind; [apply codec_u64|].
      intros revision bs' [Hr Hw']. apply parses_ret. rewrite app_nil_r. split; [done|]. apply writes_tag. by apply writes_bind.
    + eapply parses_bind; [apply codec_u64|]. intros revision bs [Hr Hw]. apply parses_ret. rewrite app_nil_r. split; [done|]. by apply writes_tag.
Qed.

Definition wf_observed (s : ObservedState) : Prop := is_u64 (ObservedState_revision s).

Lemma codec_observed_state : codec wf_observed encode_observed_state decode_observed_state.
Proof.
  split.
  - intros [revision|revision]; cbn; apply _.
  - intros [revision|revision] bs Hok Hw; cbn in Hok, Hw; apply writes_tag_inv in Hw as (bs' & -> & Hw); try apply _;
      unfold decode_observed_state; (apply reads_tag; [by unfold is_u8|]); apply reads_bind_ret; by apply codec_u64.
  - unfold decode_observed_state. apply parses_tag. intros z Hz. repeat case_match; try apply parses_throw;
      (eapply parses_bind; [apply codec_u64|]); intros revision bs [Hr Hw]; apply parses_ret; rewrite app_nil_r; (split; [done|]);
      by apply writes_tag.
Qed.

Definition wf_response (r : Response) : Prop :=
  match r with
  | RespGet state => wf_state state
  | RespPut revision | RespDelete revision => is_u64 revision
  | RespQuery documents | RespScan documents => Forall wf_document documents
  | RespTransact outcome => wf_outcome outcome
  end.

#[export] Instance appends_response_payload r : Appends (encode_response_payload limits r).
Proof.
  destruct r; cbn; [apply codec_revision_state|apply _|apply _|apply codec_documents|apply codec_documents|apply codec_outcome].
Qed.

Lemma reads_response_payload r bs :
  wf_response r → writes (encode_response_payload limits r) bs → reads (decode_response_payload limits (response_opcode r)) bs r.
Proof.
  intros Hok Hw. destruct r; cbn in *; apply reads_bind_ret;
    [by apply codec_revision_state|by apply codec_u64|by apply codec_u64|by apply codec_documents|by apply codec_documents|by apply codec_outcome].
Qed.

Lemma parses_response_payload opcode :
  parses (decode_response_payload limits opcode)
    (λ r bs, response_opcode r = opcode ∧ wf_response r ∧ writes (encode_response_payload limits r) bs).
Proof.
  unfold decode_response_payload. repeat case_match; try apply parses_throw;
    (eapply parses_bind; [first [apply codec_revision_state|apply codec_documents|apply codec_outcome|apply codec_u64]|]);
    intros x bs [Hok Hw]; apply parses_ret; rewrite app_nil_r; done.
Qed.

(** ** Application errors *)

Lemma codec_expectation :
  codec (λ e, match e with ExpRevisionEquals revision => is_u64 revision | _ => True end) encode_expectation decode_expectation.
Proof.
  split.
  - intros [revision| |]; cbn; apply _.
  - intros [revision| |] bs Hok Hw; cbn in Hok, Hw; unfold decode_expectation.
    + apply writes_tag_inv in Hw as (bs' & -> & Hw); [|apply _]. apply reads_tag; [by unfold is_u8|]. apply reads_bind_ret. by apply codec_u64.
    + rewrite (writes_unique _ _ _ Hw (writes_u8 1)). apply reads_tag_only; [by unfold is_u8|]. apply decodes_ret.
    + rewrite (writes_unique _ _ _ Hw (writes_u8 2)). apply reads_tag_only; [by unfold is_u8|]. apply decodes_ret.
  - unfold decode_expectation. apply parses_tag. intros z Hz. repeat case_match; try apply parses_throw; try by apply parses_ret.
    eapply parses_bind; [apply codec_u64|]. intros revision bs [Hr Hw]. apply parses_ret. rewrite app_nil_r. split; [done|]. by apply writes_tag.
Qed.

Definition wf_conflict (c : ConflictDetails) : Prop :=
  match cd_expected c with ExpRevisionEquals revision => is_u64 revision | _ => True end ∧ wf_observed (cd_actual c).

#[export] Instance appends_expectation e : Appends (encode_expectation e).
Proof. apply codec_expectation. Qed.
#[export] Instance appends_observed s : Appends (encode_observed_state s).
Proof. apply codec_observed_state. Qed.

Lemma codec_conflict : codec wf_conflict (encode_conflict limits) (decode_conflict limits).
Proof.
  split; [intros c; unfold encode_conflict; apply _| |].
  - intros [key e a] bs [Hok1 Hok2] Hw. apply writes_bind_inv in Hw as (bs1 & bs2 & -> & H1 & H2); [|apply _..].
    apply writes_bind_inv in H2 as (bs3 & bs4 & -> & H2 & H3); [|apply _..]. unfold decode_conflict.
    eapply decodes_bind; [by apply codec_key|]. eapply decodes_bind; [by apply codec_expectation|].
    apply (reads_bind_ret _ (mkConflictDetails key e)). by apply codec_observed_state.
  - unfold decode_conflict. eapply parses_bind; [apply codec_key|]. intros key bs [_ Hw]. eapply parses_bind; [apply codec_expectation|].
    intros e bs' [He Hw']. eapply parses_bind; [apply codec_observed_state|]. intros a bs'' [Ha Hw'']. apply parses_ret.
    rewrite app_nil_r. split; [done|]. apply writes_bind; [done|]. by apply writes_bind.
Qed.

Lemma codec_optional_conflict :
  codec (from_option wf_conflict True) (encode_optional_conflict limits) (decode_optional_conflict limits).
Proof. exact (codec_option _ _ _ codec_conflict). Qed.

Lemma kind_of_code k : application_error_kind (application_error_kind_code k) = Ok k ∧ is_u8 (application_error_kind_code k).
Proof. by destruct k. Qed.
Lemma code_of_kind z k : application_error_kind z = Ok k → application_error_kind_code k = z.
Proof. unfold application_error_kind. intros H. repeat case_match; try done; by injection H as <-. Qed.
Lemma outcome_of_code o : mutation_outcome_of (mutation_outcome_code o) = Ok o ∧ is_u8 (mutation_outcome_code o).
Proof. by destruct o. Qed.
Lemma code_of_outcome z o : mutation_outcome_of z = Ok o → mutation_outcome_code o = z.
Proof. unfold mutation_outcome_of. intros H. repeat case_match; try done; by injection H as <-. Qed.

(** The error as it is sent: its detail is cut to the limit. *)
Definition sent_error (e : ApplicationError) : ApplicationError :=
  mkApplicationError (kind e) (sent_detail limits e) (mutation_outcome e) (conflict e).

Definition wf_error (e : ApplicationError) : Prop := Forall is_char (detail e) ∧ from_option wf_conflict True (conflict e).

#[export] Instance appends_optional_conflict c : Appends (encode_optional_conflict limits c).
Proof. apply codec_optional_conflict. Qed.
#[export] Instance appends_error e : Appends (encode_application_error limits e).
Proof. unfold encode_application_error. apply _. Qed.

Lemma reads_error e bs :
  wf_error e → writes (encode_application_error limits e) bs → reads (decode_application_error limits) bs (sent_error e).
Proof.
  intros [Hd Hc] Hw. unfold encode_application_error, decode_application_error in *.
  apply writes_tag_inv in Hw as (bs' & -> & Hw); [|apply _]. apply reads_tag; [apply kind_of_code|].
  eapply decodes_lift; [apply kind_of_code|]. apply writes_bind_inv in Hw as (bs1 & bs2 & -> & H1 & H2); [|apply _..].
  eapply decodes_bind.
  { unfold decode_detail. rewrite <- (app_nil_r bs1). eapply decodes_bind; [by apply (codec_reads _ _ _ (codec_bytes _))|].
    rewrite from_utf8_as_bytes by (unfold sent_detail; by apply Forall_take). apply decodes_ret. }
  apply writes_tag_inv in H2 as (bs3 & -> & H2); [|apply _]. apply reads_tag; [apply outcome_of_code|].
  eapply decodes_lift; [apply outcome_of_code|]. apply (reads_bind_ret _ (mkApplicationError _ _ _)). by apply codec_optional_conflict.
Qed.

Lemma parses_error :
  parses (decode_application_error limits)
    (λ e bs, wf_error e ∧ sent_error e = e ∧ writes (encode_application_error limits e) bs).
Proof.
  unfold decode_application_error. apply parses_tag. intros z Hz. apply parses_lift; [unfold application_error_kind; repeat case_match; done|].
  intros k Hk. apply (parses_bind _ _ (λ d bs, Forall is_char d ∧ len d ≤ max_error_detail_size limits ∧
    writes (encode_bytes (as_bytes d) (max_error_detail_size limits)) bs)).
  { unfold decode_detail. eapply parses_bind; [apply codec_bytes|]. intros v bs [_ Hw]. rewrite <- (app_nil_r bs) in Hw.
    destruct (from_utf8 v) as [d|] eqn:Ed; cbn [ok_or]; [|apply parses_throw]. apply parses_ret.
    destruct (as_bytes_from_utf8 v d Ed) as [HF Ev]. split_and!; [done| |by rewrite Ev].
    pose proof (len_as_bytes d). rewrite Ev in *. pose proof Hw as [Hm _]%writes_guard_inv. bool_props. lia. }
  intros d bs (HF & Hl & Hw). apply parses_tag. intros z' Hz'. apply parses_lift; [unfold mutation_outcome_of; repeat case_match; done|].
  intros o Ho. eapply parses_bind; [apply codec_optional_conflict|]. intros c bs' [Hc Hw']. apply parses_ret. rewrite app_nil_r.
  assert (sent_detail limits (mkApplicationError k d o c) = d) as Es.
  { unfold sent_detail. cbn. apply take_ge. pose proof (len_nonneg d). unfold len in *. lia. }
  split_and!; [done|unfold sent_error; by rewrite Es|]. unfold encode_application_error. rewrite Es. cbn [kind mutation_outcome conflict].
  rewrite (code_of_kind z k Hk), (code_of_outcome z' o Ho). apply writes_tag. apply writes_bind; [done|]. by apply writes_tag.
Qed.

(** ** Envelopes *)

Definition wf_envelope (r : ResponseEnvelope) : Prop :=
  match r with Success response => wf_response response | Failure error => wf_error error end.

Definition sent (r : ResponseEnvelope) : ResponseEnvelope :=
  match r with Success response => Success response | Failure error => Failure (sent_error error) end.

(** What the client expects is the opcode of a successful response. *)
Definition expects (expected : option Z) (r : ResponseEnvelope) : Prop :=
  match expected, r with Some opcode, Success response => response_opcode response = opcode | _, _ => True end.

#[export] Instance appends_envelope r : Appends (encode_envelope limits r).
Proof. destruct r; cbn; apply _. Qed.

Lemma reads_envelope r expected bs :
  wf_envelope r → expects expected r → writes (encode_envelope limits r) bs → reads (decode_envelope limits expected) bs (sent r).
Proof.
  intros Hok He Hw. unfold decode_envelope. destruct r as [r|e]; cbn in Hok, Hw; apply writes_tag_inv in Hw as (bs' & -> & Hw);
    try apply _; (apply reads_tag; [by unfold is_u8|]).
  - apply writes_tag_inv in Hw as (bs'' & -> & Hw); [|apply _]. apply reads_tag; [by destruct r; unfold is_u8|].
    assert (match expected with Some expected => response_opcode r =? expected | None => true end = true) as ->.
    { destruct expected as [z|]; [|done]. apply Z.eqb_eq. exact He. }
    apply (reads_bind_ret _ Success). by apply reads_response_payload.
  - apply (reads_bind_ret _ Failure). by apply reads_error.
Qed.

Lemma parses_envelope expected :
  parses (decode_envelope limits expected)
    (λ r bs, wf_envelope r ∧ sent r = r ∧ expects expected r ∧ writes (encode_envelope limits r) bs).
Proof.
  unfold decode_envelope. apply parses_tag. intros z Hz. assert (parses (let* actual := Reader_u8 in
      guard* match expected with Some expected => actual =? expected | None => true end else
        InvalidResponseType (default 0 expected) actual in
      let* response := decode_response_payload limits actual in ret (Success response))
    (λ r bs, wf_envelope r ∧ sent r = r ∧ expects expected r ∧ writes (encode_envelope limits r) ([byte.of_Z 0] ++ bs))) as H0.
  { apply parses_tag. intros opcode Ho. destruct (match expected with Some x => opcode =? x | None => true end) eqn:E; [|apply parses_throw].
    eapply parses_bind; [apply parses_response_payload|]. intros r bs (<- & Hok & Hw). apply parses_ret. rewrite app_nil_r.
    split_and!; [done|done| |by do 2 apply writes_tag]. destruct expected; [|done]. by apply Z.eqb_eq. }
  assert (parses (let* error := decode_application_error limits in ret (Failure error))
    (λ r bs, wf_envelope r ∧ sent r = r ∧ expects expected r ∧ writes (encode_envelope limits r) ([byte.of_Z 1] ++ bs))) as H1.
  { eapply parses_bind; [apply parses_error|]. intros e bs (Hok & Hs & Hw). apply parses_ret. rewrite app_nil_r.
    split_and!; [done|cbn; by rewrite Hs|by destruct expected|by apply writes_tag]. }
  destruct z as [|[p|p|]|p]; first [exact H0|exact H1|apply parses_throw].
Qed.

End spec.

(** ** Frames *)

Definition frame_of (message_type : Z) (payload : list byte) : list byte :=
  MAGIC ++ u16_to_be_bytes PROTOCOL_VERSION ++ [byte.of_Z message_type] ++ u32_to_be_bytes (len payload) ++ payload.

Lemma encode_message_Ok t payload maximum frame :
  encode_message t payload maximum = Ok frame ↔
  HEADER_SIZE + len payload ≤ maximum ∧ len payload ≤ U32_MAX ∧ frame = frame_of t payload.
Proof.
  unfold encode_message, checked_add, u32_try_from. split.
  - intros H. ok_steps H. destruct (HEADER_SIZE + len payload <=? U64_MAX); [|done]. injection E as <-.
    destruct (len payload <=? U32_MAX) eqn:E2; [|done]. injection E1 as <-. injection H as <-. bool_props. split_and!; [lia|lia|done].
  - intros (Hm & Hu & ->). rewrite (proj2 (Z.leb_le _ _)) by lia. cbn [ok_or rbind]. rewrite (proj2 (Z.ltb_ge _ _)) by lia. cbn [negb].
    rewrite (proj2 (Z.leb_le _ _)) by lia. done.
Qed.

Lemma len_header t n : len (MAGIC ++ u16_to_be_bytes PROTOCOL_VERSION ++ [byte.of_Z t] ++ u32_to_be_bytes n) = HEADER_SIZE.
Proof. rewrite !len_app, len_u16_be, len_u32_be. done. Qed.

Lemma len_frame_of t payload : len (frame_of t payload) = HEADER_SIZE + len payload.
Proof. unfold frame_of. rewrite !len_app, len_u16_be, len_u32_be. change (len MAGIC) with 4. change (len [byte.of_Z t]) with 1. lia. Qed.

Lemma frame_of_parts t payload :
  frame_of t payload = (MAGIC ++ u16_to_be_bytes PROTOCOL_VERSION ++ [byte.of_Z t] ++ u32_to_be_bytes (len payload)) ++ payload.
Proof. unfold frame_of. by rewrite <- !app_assoc. Qed.

Definition is_message_type (t : Z) : Prop := t = REQUEST_MESSAGE_TYPE ∨ t = RESPONSE_MESSAGE_TYPE.

Lemma decode_header_of t n : is_message_type t → is_u32 n →
  decode_message_header (MAGIC ++ u16_to_be_bytes PROTOCOL_VERSION ++ [byte.of_Z t] ++ u32_to_be_bytes n) =
    Ok (mkFrameHeader PROTOCOL_VERSION t n).
Proof.
  intros Ht Hn. pose proof (len_header t n) as Hl. pose proof (len_u32_be n) as Hu. pose proof (len_u16_be PROTOCOL_VERSION) as Hv.
  unfold decode_message_header. rewrite Hl. cbn [Z.ltb Z.compare negb].
  rewrite slice_Ok by lia. cbn [rbind]. rewrite (sub_app_l MAGIC) by (change (len MAGIC) with 4; lia). rewrite (sub_all' MAGIC 4) by done. unfold bytes_eqb. rewrite bool_decide_eq_true_2 by done.
  rewrite slice_Ok by lia. cbn [rbind]. rewrite sub_app_exact by (rewrite ?Hv; done). rewrite from_u16_be by done.
  rewrite (index_sub _ 6 (byte.of_Z t)); [|lia|rewrite (app_assoc MAGIC); apply sub_app_exact; rewrite len_app, Hv; done].
  cbn [rbind]. assert (is_u8 t) as Ht8 by (destruct Ht as [->| ->]; unfold is_u8; lia). rewrite unsigned_byte_of_Z by done.
  assert ((t =? REQUEST_MESSAGE_TYPE) || (t =? RESPONSE_MESSAGE_TYPE) = true) as -> by (by destruct Ht as [->| ->]).
  rewrite slice_Ok by lia. cbn [rbind]. rewrite (app_assoc MAGIC), (app_assoc (MAGIC ++ _)), <- (app_nil_r (u32_to_be_bytes n)).
  rewrite sub_app_exact by (rewrite ?len_app, ?Hv, ?Hu; done). by rewrite from_u32_be.
Qed.

Lemma decode_header_inv bs h : len bs = HEADER_SIZE → decode_message_header bs = Ok h →
  is_message_type (message_type h) ∧ is_u32 (payload_length h) ∧
  bs = MAGIC ++ u16_to_be_bytes PROTOCOL_VERSION ++ [byte.of_Z (message_type h)] ++ u32_to_be_bytes (payload_length h).
Proof.
  intros Hl H. unfold decode_message_header in H. ok_steps H. injection H as <-. cbn [message_type payload_length]. slices_inv. bool_props.
  destruct (u16_of_be (sub bs 4 6)) as [_ E16]; [rewrite len_sub; lia|]. destruct (u32_of_be (sub bs 7 11)) as [H32 E32]; [rewrite len_sub; lia|].
  split_and!; [|done|].
  - unfold is_message_type. apply orb_true_iff in E5 as [E5|E5]; bool_props; auto.
  - rewrite <- E1, <- E3, E16, byte.of_Z_unsigned, E32. rewrite <- (sub_all bs) at 1. rewrite Hl.
    rewrite (sub_split bs 0 4 HEADER_SIZE), (sub_split bs 4 6 HEADER_SIZE), (sub_split bs 6 7 HEADER_SIZE) by lia. by repeat f_equal.
Qed.

Lemma split_frame_Ok frame h payload :
  split_frame frame = Ok (h, payload) ↔
  ∃ t, is_message_type t ∧ len payload ≤ U32_MAX ∧ h = mkFrameHeader PROTOCOL_VERSION t (len payload) ∧ frame = frame_of t payload.
Proof.
  split.
  - unfold split_frame. intros H. ok_steps H. destruct (HEADER_SIZE <=? len frame) eqn:El; [|done]. injection E as <-. injection H as <- <-.
    unfold plain_add in E1. destruct (HEADER_SIZE + payload_length a0 <=? U64_MAX) eqn:Eo; [|done]. injection E1 as <-. slices_inv. bool_props.
    assert (len (sub frame 0 HEADER_SIZE) = HEADER_SIZE) as Hh by (rewrite len_sub; lia).
    destruct (decode_header_inv _ _ Hh E0) as (Ht & Hu & Ehd). assert (len (sub frame HEADER_SIZE (len frame)) = payload_length a0) as Hp.
    { rewrite len_sub; lia. }
    exists (message_type a0). unfold is_u32 in Hu. split_and!; [done|lia| |].
    + assert (version a0 = PROTOCOL_VERSION) as Ev by (unfold decode_message_header in E0; ok_steps E0; injection E0 as <-; bool_props; done).
      rewrite Hp, <- Ev. by destruct a0.
    + rewrite frame_of_parts, Hp, <- Ehd. rewrite <- sub_split by lia. by rewrite sub_all.
  - intros (t & Ht & Hu & -> & ->). unfold split_frame. pose proof (len_nonneg payload). rewrite (len_frame_of t payload).
    rewrite (proj2 (Z.leb_le _ _)) by lia. cbn [ok_or rbind]. rewrite frame_of_parts. rewrite sub_app_l by (rewrite ?len_header; lia).
    rewrite (sub_all' _ HEADER_SIZE) by (by rewrite len_header). rewrite decode_header_of by (unfold is_u32; first [done|lia]). cbn [rbind payload_length].
    unfold plain_add. rewrite (proj2 (Z.leb_le _ _)) by lia. cbn [rbind]. rewrite Z.eqb_refl, <- frame_of_parts.
    rewrite slice_Ok by (rewrite ?len_frame_of; lia). cbn [rbind]. rewrite frame_of_parts, sub_app_r by (rewrite len_header; lia).
    rewrite len_header, sub_all' by lia. done.
Qed.

Lemma decode_header_returns hd : len hd = HEADER_SIZE → returns (decode_message_header hd).
Proof.
  intros Hh. unfold decode_message_header. rewrite Hh. cbn [Z.ltb Z.compare negb]. rewrite slice_Ok by lia. cbn [rbind].
  destruct (bytes_eqb _ _); [|done]. rewrite slice_Ok by lia. cbn [rbind]. destruct (_ =? _); [|done].
  destruct (index_Ok (E:=ProtocolError) hd 6) as (b & -> & _); [lia|]. cbn [rbind]. destruct (_ || _); [|done]. by rewrite slice_Ok by lia.
Qed.

Lemma split_frame_returns frame : returns (split_frame frame).
Proof.
  unfold split_frame. destruct (HEADER_SIZE <=? len frame) eqn:El; [|done]. bool_props. cbn [ok_or rbind].
  assert (len (sub frame 0 HEADER_SIZE) = HEADER_SIZE) as Hh by (rewrite len_sub; lia). pose proof (decode_header_returns _ Hh) as Hr.
  destruct (decode_message_header _) as [h|e| |] eqn:E; try done. destruct (decode_header_inv _ _ Hh E) as (_ & Hu & _).
  unfold is_u32 in Hu. cbn [rbind]. unfold plain_add. rewrite (proj2 (Z.leb_le _ _)) by lia. cbn [rbind].
  destruct (_ =? _) eqn:E'; [|done]. bool_props. by rewrite slice_Ok by lia.
Qed.

(** ** Whole payloads *)

Lemma finished_reads {A} (d : ReaderM A) payload a :
  len payload ≤ U64_MAX → reads d payload a → finished (d (mkReader payload 0)) = Ok a.
Proof.
  intros Hl Hr. specialize (Hr [] []). cbn [app] in Hr. rewrite app_nil_r in Hr. change (len (@nil byte)) with 0 in Hr.
  rewrite Hr by done. unfold finished, Reader_finish. cbn. by rewrite Z.eqb_refl.
Qed.

Lemma finished_parses {A} (d : ReaderM A) payload P : len payload ≤ U64_MAX → parses d P →
  returns (finished (d (mkReader payload 0))) ∧ ∀ a, finished (d (mkReader payload 0)) = Ok a → P a payload.
Proof.
  intros Hl Hp. specialize (Hp [] payload Hl). cbn [app] in Hp. change (len (@nil byte)) with 0 in Hp. unfold finished, Reader_finish.
  destruct (d _) as [[a|e| |] r]; try done. destruct Hp as (bs & post & -> & -> & HP). cbn. split; [by case_match|].
  intros a' H. destruct (len bs =? len (bs ++ post)) eqn:E; [|done]. injection H as <-. bool_props. rewrite len_app in E.
  by rewrite (len_0_nil post), app_nil_r by lia.
Qed.

Lemma validate_payload_length_Ok h payload maximum :
  validate_payload_length h payload maximum = Ok tt ↔
  HEADER_SIZE + payload_length h ≤ maximum ∧ HEADER_SIZE + payload_length h ≤ U64_MAX ∧ len payload = payload_length h.
Proof.
  unfold validate_payload_length, checked_add. split.
  - intros H. ok_steps H. destruct (HEADER_SIZE + payload_length h <=? U64_MAX) eqn:E'; [|done]. injection E as <-. bool_props. lia.
  - intros (Hm & Hu & Hl). rewrite (proj2 (Z.leb_le _ _)) by lia. cbn [ok_or rbind]. rewrite (proj2 (Z.ltb_ge _ _)) by lia. cbn [negb].
    by rewrite Hl, Z.eqb_refl.
Qed.

Lemma validate_payload_length_returns h payload maximum : returns (validate_payload_length h payload maximum).
Proof. unfold validate_payload_length, checked_add. destruct (_ <=? _); cbn; by repeat case_match. Qed.

Lemma validate_limits_returns l : returns (ProtocolLimits_validate l).
Proof. unfold ProtocolLimits_validate. by repeat case_match. Qed.


(** ** Requests and responses as frames *)

Definition request_writer (limits : ProtocolLimits) (tr : TenantId * Request) : WriterM unit :=
  do* Writer_u64 tr.1 in encode_request_payload limits tr.2.
Definition request_reader (limits : ProtocolLimits) : ReaderM (TenantId * Request) :=
  let* tenant := Reader_u64 in let* request := decode_request_payload limits in ret (tenant, request).

Lemma codec_request_frame limits :
  codec (λ tr, is_u64 tr.1 ∧ wf_request tr.2) (request_writer limits) (request_reader limits).
Proof.
  split; [intros tr; unfold request_writer; apply _| |].
  - intros [tenant r] bs [Ht Hr] Hw. apply writes_bind_inv in Hw as (bs1 & bs2 & -> & H1 & H2); [|apply _..].
    unfold request_reader. eapply decodes_bind; [by apply codec_u64|]. apply (reads_bind_ret _ (pair tenant)). by apply codec_request.
  - unfold request_reader. eapply parses_bind; [apply codec_u64|]. intros tenant bs [Ht Hw]. eapply parses_bind; [apply codec_request|].
    intros r bs' [Hr Hw']. apply parses_ret. rewrite app_nil_r. split; [done|]. by apply writes_bind.
Qed.

(** Both directions share the treatment of the frame. *)
Definition encode_framed (limits : ProtocolLimits) (t maximum : Z) (W : WriterM unit) : Result ProtocolError (list byte) :=
  let? _ := ProtocolLimits_validate limits in
  let '(r, payload) := W [] in
  let? _ := r in
  encode_message t payload maximum.

Definition decode_framed {A} (limits : ProtocolLimits) (t maximum : Z) (d : ReaderM A) (frame : list byte) : Result ProtocolError A :=
  let? '(header, payload) := split_frame frame in
  let? _ := ProtocolLimits_validate limits in
  let? _ := validate_payload_length header payload maximum in
  guard? message_type header =? t else UnknownMessageType (message_type header) in
  finished (d (mkReader payload 0)).

Lemma encode_framed_Ok limits t maximum W `{!Appends W} frame :
  encode_framed limits t maximum W = Ok frame ↔
  ProtocolLimits_validate limits = Ok tt ∧
  ∃ payload, writes W payload ∧ HEADER_SIZE + len payload ≤ maximum ∧ len payload ≤ U32_MAX ∧ frame = frame_of t payload.
Proof.
  unfold encode_framed. split.
  - intros H. apply rbind_Ok in H as ([] & Hv & H). split; [done|]. destruct (W []) as [r payload] eqn:EW. apply rbind_Ok in H as ([] & -> & H).
    apply appends_writes in EW as (bs & -> & Hw); [|done]. apply encode_message_Ok in H. exists bs. by subst.
  - intros (-> & payload & Hw & H). cbn [rbind]. rewrite (Hw []). cbn [rbind app]. by apply encode_message_Ok.
Qed.

Lemma decode_framed_Ok {A} limits t maximum (d : ReaderM A) frame a : is_message_type t →
  decode_framed limits t maximum d frame = Ok a ↔
  ProtocolLimits_validate limits = Ok tt ∧
  ∃ payload, finished (d (mkReader payload 0)) = Ok a ∧ HEADER_SIZE + len payload ≤ maximum ∧ len payload ≤ U32_MAX ∧ frame = frame_of t payload.
Proof.
  intros Ht. unfold decode_framed. split.
  - intros H. apply rbind_Ok in H as ([h payload] & Hs & H). apply split_frame_Ok in Hs as (t' & _ & Hu & -> & ->).
    apply rbind_Ok in H as ([] & Hv & H). apply rbind_Ok in H as ([] & Hl & H). apply validate_payload_length_Ok in Hl as (Hm & _ & _).
    ok_step H. cbn in E, Hm. bool_props. subst t'. split; [done|]. by exists payload.
  - intros (Hv & payload & Hd & Hm & Hu & ->). rewrite (proj2 (split_frame_Ok _ (mkFrameHeader PROTOCOL_VERSION t (len payload)) payload)) by (by exists t).
    cbn [rbind]. rewrite Hv. cbn [rbind]. rewrite (proj2 (validate_payload_length_Ok _ payload maximum)) by (cbn; lia).
    cbn [rbind message_type]. by rewrite Z.eqb_refl.
Qed.

Lemma decode_framed_returns {A} limits t maximum (d : ReaderM A) P frame : parses d P → returns (decode_framed limits t maximum d frame).
Proof.
  intros Hp. unfold decode_framed. pose proof (split_frame_returns frame) as Hs. destruct (split_frame frame) as [[h payload]|e| |] eqn:E; try done.
  apply split_frame_Ok in E as (t' & _ & Hu & _). cbn [rbind]. pose proof (validate_limits_returns limits) as Hv.
  destruct (ProtocolLimits_validate limits) as [[]|e| |]; try done. cbn [rbind]. pose proof (validate_payload_length_returns h payload maximum) as Hl.
  destruct (validate_payload_length h payload maximum) as [[]|e| |]; try done. cbn [rbind]. destruct (_ =? _); [|done].
  by apply (finished_parses d payload P); [lia|].
Qed.

(** What is sent is decoded, cut as it was sent. *)
Lemma decode_sent limits expected response frame :
  wf_envelope response → expects expected response → encode_response response limits = Ok frame →
  decode_response_frame frame expected limits = Ok (sent limits response).
Proof.
  intros Hr He Hw. change (encode_framed limits RESPONSE_MESSAGE_TYPE (max_response_frame_size limits) (encode_envelope limits response) = Ok frame) in Hw.
  change (decode_framed limits RESPONSE_MESSAGE_TYPE (max_response_frame_size limits) (decode_envelope limits expected) frame = Ok (sent limits response)).
  apply encode_framed_Ok in Hw as (Hv & payload & Hw & Hm & Hu & ->); [|apply _].
  apply decode_framed_Ok; [by right|]. split; [done|]. exists payload. split; [|done]. apply finished_reads; [lia|]. by apply reads_envelope.
Qed.

(** C33. Every request has exactly one frame: [decode_request_frame] returns a
    tenant and a request from a frame exactly when they are in the range of their
    types and [encode_request] gives that frame, under the same limits. *)
Theorem request_frames limits tenant request frame :
  decode_request_frame frame limits = Ok (tenant, request) ↔
  is_u64 tenant ∧ wf_request request ∧ encode_request tenant request limits = Ok frame.
Proof.
  pose proof (codec_request_frame limits) as [Ha Hrd Hp].
  change (decode_framed limits REQUEST_MESSAGE_TYPE (max_request_frame_size limits) (request_reader limits) frame = Ok (tenant, request) ↔
    is_u64 tenant ∧ wf_request request ∧
    encode_framed limits REQUEST_MESSAGE_TYPE (max_request_frame_size limits) (request_writer limits (tenant, request)) = Ok frame).
  rewrite encode_framed_Ok by apply _. rewrite decode_framed_Ok by (by left). split.
  - intros (Hv & payload & Hd & Hm & Hu & ->).
    destruct (proj2 (finished_parses _ payload _ ltac:(lia) Hp) _ Hd) as [[Ht Hr] Hw]. split_and!; try done. by exists payload.
  - intros (Ht & Hr & Hv & payload & Hw & Hm & Hu & ->). split; [done|]. exists payload. split; [|done].
    apply finished_reads; [lia|]. by apply Hrd.
Qed.

(** C34. Every response has exactly one frame: [decode_response_frame] returns a
    response from a frame exactly when it is in the range of its types, of the
    type the client expects, has an error detail within the limit and
    [encode_response] gives that frame.  What [encode_response] sends for any
    response is the frame of that response with its error detail cut. *)
Theorem response_frames limits expected response frame :
  (decode_response_frame frame expected limits = Ok response ↔
   wf_envelope response ∧ expects expected response ∧ sent limits response = response ∧ encode_response response limits = Ok frame) ∧
  (wf_envelope response ∧ expects expected response ∧ encode_response response limits = Ok frame →
   decode_response_frame frame expected limits = Ok (sent limits response)).
Proof.
  pose proof (parses_envelope limits expected) as Hp. split; [|intros (Hr & He & Hw); by apply decode_sent]. split.
  - change (decode_framed limits RESPONSE_MESSAGE_TYPE (max_response_frame_size limits) (decode_envelope limits expected) frame = Ok response →
      wf_envelope response ∧ expects expected response ∧ sent limits response = response ∧
      encode_framed limits RESPONSE_MESSAGE_TYPE (max_response_frame_size limits) (encode_envelope limits response) = Ok frame).
    rewrite decode_framed_Ok, encode_framed_Ok by (first [by right|apply _]). intros (Hv & payload & Hd & Hm & Hu & ->).
    destruct (proj2 (finished_parses _ payload _ ltac:(lia) Hp) _ Hd) as (Hr & Hs & He & Hw). split_and!; try done. by exists payload.
  - intros (Hr & He & Hs & Hw). rewrite <- Hs at 1. by apply decode_sent.
Qed.

(** C35. On any bytes, of whatever length, the decoders return a message or an
    error: they never index out of range or overflow. *)
Theorem decoders_return limits expected frame :
  returns (decode_request_frame frame limits) ∧ returns (decode_response_frame frame expected limits).
Proof.
  split; [apply (decode_framed_returns limits REQUEST_MESSAGE_TYPE _ (request_reader limits) _ frame (codec_parses _ _ _ (codec_request_frame limits)))
         |apply (decode_framed_returns limits RESPONSE_MESSAGE_TYPE _ (decode_envelope limits expected) _ frame (parses_envelope limits expected))].
Qed.
