(* ===== verification/Server.v ===== *)
(** * Server: answering one request stream

    [serve_stream] of src/dodb/crates/dodb-server/src/lib.rs over any service:
    one request frame in, one response frame out.  The stream is the bytes that
    the client sent before it finished its side; the service behind the server
    is the interface [DodbService].  Counters wrap as atomics do; the transport
    events and latency histograms of the metrics are left out. *)

From S2P Require Import Prelude Core Service Utf8 Protocol Wire ProtocolSpec.

(** The trait of dodb-service. *)
Class DodbService (S : Type) := service_execute : TenantId → Request → ExecutionBudget → ST S Error Response.

Record ServerMetrics := mkServerMetrics {
  requests_total : Z;
  request_bytes : Z;
  response_bytes : Z;
  protocol_errors : Z;
  application_errors : Z;
  overloaded_responses : Z;
  operations : list Z
}.

Definition ServerMetrics_default : ServerMetrics := mkServerMetrics 0 0 0 0 0 0 (replicate 8 0).

Definition add_protocol_error (m : ServerMetrics) : ServerMetrics :=
  mkServerMetrics (requests_total m) (request_bytes m) (response_bytes m) (wrapping_add (protocol_errors m) 1)
    (application_errors m) (overloaded_responses m) (operations m).
Definition add_request (bytes : Z) (operation_index : Z) (m : ServerMetrics) : ServerMetrics :=
  mkServerMetrics (wrapping_add (requests_total m) 1) (wrapping_add (request_bytes m) bytes) (response_bytes m) (protocol_errors m)
    (application_errors m) (overloaded_responses m) (alter (λ n, wrapping_add n 1) (Z.to_nat operation_index) (operations m)).
Definition add_application_error (overloaded : bool) (m : ServerMetrics) : ServerMetrics :=
  mkServerMetrics (requests_total m) (request_bytes m) (response_bytes m) (protocol_errors m) (wrapping_add (application_errors m) 1)
    (if overloaded then wrapping_add (overloaded_responses m) 1 else overloaded_responses m) (operations m).
Definition add_response (bytes : Z) (m : ServerMetrics) : ServerMetrics :=
  mkServerMetrics (requests_total m) (request_bytes m) (wrapping_add (response_bytes m) bytes) (protocol_errors m)
    (application_errors m) (overloaded_responses m) (operations m).

Definition is_overloaded (e : ApplicationError) : bool := match kind e with KindOverloaded => true | _ => false end.

Section server.
Context {S : Type} `{DodbService S} (limits : ProtocolLimits).

(** What is sent on the stream; [None] when it is closed without an answer. *)
Abbreviation ServeM := (ST (S * ServerMetrics) Empty_set).
Abbreviation count f := (modify (λ s : S * ServerMetrics, (s.1, f s.2))).

(** Encoders return; the other outcomes do not arise. *)
Definition outcome {A} (r : Result ProtocolError A) : ServeM (A + ProtocolError) :=
  match r with
  | Ok a => ret (inl a)
  | Err e => ret (inr e)
  | Panic => lift Panic
  | NoFuel => lift NoFuel
  end.

Definition send_protocol_error (error : ProtocolError) : ServeM (option (list byte)) :=
  let* r := outcome (encode_response (Failure (ApplicationError_from_protocol error)) limits) in
  match r with inl response => ret (Some response) | inr _ => ret None end.

(** [service.execute(..)], as the envelope that is sent. *)
Definition execute_envelope (tenant : TenantId) (request : Request) : ServeM ResponseEnvelope := fun '(st, m) =>
  let '(r, st) := service_execute tenant request (mkExecutionBudget (max_response_frame_size limits)) st in
  match r with
  | Ok response => (Ok (Success response), (st, m))
  | Err error =>
      let e := ApplicationError_from_core_for_request error (Request_is_mutation request) in
      (Ok (Failure e), (st, add_application_error (is_overloaded e) m))
  | Panic => (Panic, (st, m))
  | NoFuel => (NoFuel, (st, m))
  end.

Definition serve_stream (input : list byte) : ServeM (option (list byte)) :=
  if len input <? HEADER_SIZE then ret None
  else
    let* header := outcome (decode_message_header (sub input 0 HEADER_SIZE)) in
    match header with
    | inr error => do* count add_protocol_error in send_protocol_error error
    | inl header =>
        let frame_length := saturating_add HEADER_SIZE (payload_length header) in
        if max_request_frame_size limits <? frame_length then
          do* count add_protocol_error in
          send_protocol_error (PayloadTooLarge frame_length (max_request_frame_size limits))
        else if len input <? frame_length then do* count add_protocol_error in ret None
        else if frame_length <? len input then do* count add_protocol_error in ret None
        else
          let payload := sub input HEADER_SIZE frame_length in
          let* decoded := outcome (decode_request_parts header payload limits) in
          match decoded with
          | inr error => do* count add_protocol_error in send_protocol_error error
          | inl (tenant, request) =>
              let operation_index := saturating_sub (request_opcode request) 1 in
              do* count (add_request (HEADER_SIZE + len payload) operation_index) in
              let* envelope := execute_envelope tenant request in
              let* encoded := outcome (encode_response envelope limits) in
              match encoded with
              | inr error => do* count add_protocol_error in send_protocol_error error
              | inl encoded => do* count (add_response (len encoded)) in ret (Some encoded)
              end
          end
    end.

(** ** What the client is answered *)

(** The outcome of the service, as it is sent. *)
Definition envelope_of (request : Request) (r : Result Error Response) : ResponseEnvelope :=
  match r with
  | Err error => Failure (ApplicationError_from_core_for_request error (Request_is_mutation request))
  | Ok response => Success response
  | _ => Success (RespPut 0)
  end.

(** What is sent for an envelope: its encoding, or the error of encoding it. *)
Definition answer (envelope : ResponseEnvelope) : Result ProtocolError (list byte) :=
  match encode_response envelope limits with
  | Err error => encode_response (Failure (ApplicationError_from_protocol error)) limits
  | r => r
  end.

Lemma request_frame_parts tenant request input :
  is_u64 tenant → wf_request request → encode_request tenant request limits = Ok input →
  ∃ payload, input = frame_of REQUEST_MESSAGE_TYPE payload ∧ len payload ≤ U32_MAX ∧ HEADER_SIZE + len payload ≤ max_request_frame_size limits ∧
    decode_request_parts (mkFrameHeader PROTOCOL_VERSION REQUEST_MESSAGE_TYPE (len payload)) payload limits = Ok (tenant, request).
Proof.
  intros Ht Hr He. change (encode_framed limits REQUEST_MESSAGE_TYPE (max_request_frame_size limits) (request_writer limits (tenant, request)) = Ok input) in He.
  pose proof (codec_request_frame limits) as [Ha Hrd _]. apply encode_framed_Ok in He as (Hv & payload & Hw & Hm & Hu & ->); [|apply _].
  exists payload. split_and!; try done. unfold decode_request_parts. rewrite Hv. cbn [rbind].
  rewrite (proj2 (validate_payload_length_Ok _ payload _)) by (cbn; lia). cbn [rbind message_type]. rewrite Z.eqb_refl.
  apply (finished_reads (request_reader limits)); [lia|]. by apply (Hrd (tenant, request)).
Qed.

Lemma serve_request tenant request input st m r st' frame :
  is_u64 tenant → wf_request request → encode_request tenant request limits = Ok input →
  service_execute tenant request (mkExecutionBudget (max_response_frame_size limits)) st = (r, st') → returns r →
  answer (envelope_of request r) = Ok frame →
  ∃ m', serve_stream input (st, m) = (Ok (Some frame), (st', m')).
Proof.
  intros Ht Hr He Hs Hret Ha. destruct (request_frame_parts tenant request input Ht Hr He) as (payload & -> & Hu & Hm & Hd).
  unfold serve_stream. pose proof (len_nonneg payload). rewrite len_frame_of, (proj2 (Z.ltb_ge _ _)) by lia. rewrite frame_of_parts.
  rewrite sub_app_l by (rewrite ?len_header; lia). rewrite (sub_all' _ HEADER_SIZE) by (by rewrite len_header).
  rewrite decode_header_of by (unfold is_u32; first [by left|lia]). rewrite bind_eq. unfold outcome at 1, ret at 1. cbn [payload_length].
  unfold saturating_add. rewrite Z.min_l by lia. rewrite (proj2 (Z.ltb_ge _ _)) by lia. rewrite Z.ltb_irrefl.
  rewrite sub_app_r by (rewrite len_header; lia). rewrite len_header, sub_all' by lia. rewrite Hd. rewrite bind_eq. unfold outcome at 1, ret at 1.
  rewrite bind_eq. unfold modify at 1. rewrite bind_eq. unfold execute_envelope. cbn [fst snd]. rewrite Hs. unfold answer in Ha.
  assert (∃ m1, match r with
    | Ok response => (Ok (Success response), (st', add_request (HEADER_SIZE + len payload) (saturating_sub (request_opcode request) 1) m))
    | Err error => (Ok (Failure (ApplicationError_from_core_for_request error (Request_is_mutation request))),
        (st', add_application_error (is_overloaded (ApplicationError_from_core_for_request error (Request_is_mutation request)))
           (add_request (HEADER_SIZE + len payload) (saturating_sub (request_opcode request) 1) m)))
    | Panic => (Panic, (st', add_request (HEADER_SIZE + len payload) (saturating_sub (request_opcode request) 1) m))
    | NoFuel => (NoFuel, (st', add_request (HEADER_SIZE + len payload) (saturating_sub (request_opcode request) 1) m))
    end = (Ok (envelope_of request r), (st', m1)) :> Result Empty_set _ * _) as (m1 & ->) by (destruct r; try done; by eexists).
  rewrite bind_eq. destruct (encode_response (envelope_of request r) limits) as [out|error| |] eqn:Ee; try done; cbn [outcome]; unfold ret at 1.
  - injection Ha as ->. rewrite bind_eq. by eexists.
  - rewrite bind_eq. unfold modify at 1, send_protocol_error. rewrite bind_eq, Ha. by eexists.
Qed.


Lemma long_detail_error e :
  ProtocolLimits_validate limits = Ok tt → max_error_detail_size limits < len (as_bytes (sent_detail limits e)) →
  encode_response (Failure e) limits = Err (PayloadTooLarge (len (as_bytes (sent_detail limits e))) (max_error_detail_size limits)).
Proof.
  intros Hv Hl. unfold encode_response. rewrite Hv. cbn [rbind]. unfold encode_envelope, encode_application_error, encode_bytes.
  rewrite (proj2 (Z.ltb_lt _ _)) by done. cbn [negb]. done.
Qed.

(** C39. An error message that is not ASCII can turn an unknown outcome into a
    wrong one.  [encode_application_error] cuts the detail to a number of
    characters and then compares its bytes with the same number: a detail whose
    kept characters take more bytes makes [encode_response] fail, and the server
    answers with that failure instead.  After a durability failure, whose
    mutation may or may not have happened, the client is told that the request
    was invalid and not applied. *)
Theorem long_detail_misreports tenant request input st m st' message
    (e := ApplicationError_from_core_for_request (DurabilityFailure message) (Request_is_mutation request))
    (too_large := PayloadTooLarge (len (as_bytes (sent_detail limits e))) (max_error_detail_size limits)) :
  is_u64 tenant → wf_request request → encode_request tenant request limits = Ok input → Request_is_mutation request = true →
  service_execute tenant request (mkExecutionBudget (max_response_frame_size limits)) st = (Err (DurabilityFailure message), st') →
  max_error_detail_size limits < len (as_bytes (sent_detail limits e)) →
  is_ok (encode_response (Failure (ApplicationError_from_protocol too_large)) limits) = true →
  mutation_outcome e = OutcomeUnknown ∧
  ∃ frame m' e', serve_stream input (st, m) = (Ok (Some frame), (st', m')) ∧
    decode_response_frame frame (Some (request_opcode request)) limits = Ok (Failure e') ∧
    kind e' = KindInvalidRequest ∧ mutation_outcome e' = NotApplied.
Proof.
  intros Ht Hr He Hmut Hs Hl Hok. split; [unfold e; by rewrite Hmut|].
  assert (ProtocolLimits_validate limits = Ok tt) as Hv.
  { unfold encode_request in He. apply rbind_Ok in He as ([] & Hv & _). done. }
  destruct (encode_response (Failure (ApplicationError_from_protocol too_large)) limits) as [frame| | |] eqn:Ee; try done.
  destruct (serve_request tenant request input st m (Err (DurabilityFailure message)) st' frame Ht Hr He Hs I) as (m' & E).
  { unfold answer, envelope_of. fold e. rewrite (long_detail_error e Hv Hl). exact Ee. }
  exists frame, m', (sent_error limits (ApplicationError_from_protocol too_large)). split_and!; [done| |done|done].
  apply (decode_sent limits (Some (request_opcode request)) (Failure (ApplicationError_from_protocol too_large)) frame); [|done|done].
  split; [|done]. cbn [detail ApplicationError_from_protocol]. apply chars_are_chars.
Qed.

End server.
