(* ===== verification/Budget.v ===== *)
(** * Budget: a response within its budget fits its frame

    Reads are charged to a [ResponseBudget] before their values are
    materialised.  What [execute_with_budget] returns encodes to a response
    frame of at most the budget's bytes, whatever the state of the store. *)

From S2P Require Import Prelude Core Crc Page DurableFile Format Cache StoreState Store Service Utf8 Protocol Wire ProtocolSpec.

Section budget.
Context `{Crc32c} {F W I : Type} `{DurableFile F}.
Abbreviation OvBM := (ST (Overlay F W I * ResponseBudget) Error).
Abbreviation OvM := (ST (Overlay F W I) Error).

(** A computation that, when it succeeds, adds to the used bytes what [P] says
    of its result, within the maximum. *)
Definition charges {A} (m : OvBM A) (P : A → Z → Prop) : Prop :=
  ∀ o b a o' b', RESPONSE_WIRE_OVERHEAD ≤ used_wire b ≤ maximum_wire b → m (o, b) = (Ok a, (o', b')) →
    ∃ n, 0 ≤ n ∧ maximum_wire b' = maximum_wire b ∧ used_wire b' = used_wire b + n ∧ used_wire b' ≤ maximum_wire b' ∧ P a n.

Lemma charges_ret {A} (a : A) (P : A → Z → Prop) : P a 0 → charges (ret a) P.
Proof. intros HP o b a' o' b' Hb [= <- <- <-]. exists 0. split_and!; [lia|done|lia|lia|done]. Qed.

Lemma charges_throw {A} e (P : A → Z → Prop) : charges (throw e) P.
Proof. by intros o b a o' b' _ [=]. Qed.

Lemma charges_lift {A} (r : Result Error A) : charges (lift r) (λ a n, r = Ok a ∧ n = 0).
Proof. intros o b a o' b' Hb [= -> <- <-]. exists 0. split_and!; try done; lia. Qed.

Lemma charges_bind {A B} (m : OvBM A) (k : A → OvBM B) P Q :
  charges m P → (∀ a n, P a n → charges (k a) (λ b n', Q b (n + n'))) → charges (bind m k) Q.
Proof.
  intros Hm Hk o b x o' b' Hb Hx. apply bind_Ok in Hx as (a & [o1 b1] & E1 & E2).
  destruct (Hm o b a o1 b1 Hb E1) as (n1 & Hn1 & Em1 & Eu1 & Hle1 & HP).
  destruct (Hk a n1 HP o1 b1 x o' b' ltac:(lia) E2) as (n2 & Hn2 & Em2 & Eu2 & Hle2 & HQ).
  exists (n1 + n2). split_and!; [lia|congruence|lia|lia|done].
Qed.

Lemma charges_weaken {A} (m : OvBM A) (P Q : A → Z → Prop) : charges m P → (∀ a n, P a n → Q a n) → charges m Q.
Proof. intros Hm HPQ o b a o' b' Hb E. destruct (Hm o b a o' b' Hb E) as (n & ? & ? & ? & ? & ?). exists n. naive_solver. Qed.

Lemma charges_ov {A} (m : OvM A) (P : A → Prop) :
  (∀ o a o', m o = (Ok a, o') → P a) → charges (on_ov m) (λ a n, P a ∧ n = 0).
Proof.
  intros HP o b a o' b' Hb E. unfold on_ov, zoom in E. cbn [fst snd] in E. destruct (m o) as [r o1] eqn:Em. injection E as -> <- <-.
  exists 0. split_and!; [lia|done|lia|lia|by eapply HP|done].
Qed.

(** What reserving charges. *)
Lemma reserve_Ok wire memory b b' : reserve wire memory b = (Ok tt, b') →
  used_wire b + wire ≤ U64_MAX ∧ maximum_wire b' = maximum_wire b ∧ used_wire b' = used_wire b + wire ∧ used_wire b' ≤ maximum_wire b'.
Proof.
  unfold reserve, checked_add. repeat case_match; try done. intros [= <-]. simplify_eq. bool_props. cbn. lia.
Qed.

Lemma reserve_state_Ok n b b' : 0 ≤ n → reserve_state n b = (Ok tt, b') →
  maximum_wire b' = maximum_wire b ∧ used_wire b' = used_wire b + (13 + n) ∧ used_wire b' ≤ maximum_wire b'.
Proof.
  intros Hn E. unfold reserve_state, plain_add in E. apply bind_Ok in E as (w1 & b1 & E1 & E). unfold lift in E1.
  destruct (1 + 4 + n <=? U64_MAX); [|done]. injection E1 as <- <-. apply bind_Ok in E as (w2 & b2 & E2 & E). unfold lift in E2.
  destruct (1 + 4 + n + 8 <=? U64_MAX); [|done]. injection E2 as <- <-. apply reserve_Ok in E. lia.
Qed.

Lemma reserve_document_Ok key n b b' : 0 ≤ n → RESPONSE_WIRE_OVERHEAD ≤ used_wire b → reserve_document key n b = (Ok tt, b') →
  maximum_wire b' = maximum_wire b ∧ used_wire b' = used_wire b + (20 + len (pk key) + len (sk key) + n) ∧ used_wire b' ≤ maximum_wire b'.
Proof.
  intros Hn Hb E. unfold reserve_document, saturating_add in E. apply reserve_Ok in E.
  pose proof (len_nonneg (pk key)). pose proof (len_nonneg (sk key)). lia.
Qed.

Lemma read_value_length v n (o : Overlay F W I) bs o' : value_length v = Ok n → read_value v o = (Ok bs, o') → len bs = n.
Proof.
  destruct v as [bytes|head length]; cbn [value_length read_value].
  - intros [= <-]. unfold ret. by intros [= <- _].
  - unfold usize_try_from. destruct (length <=? USIZE_MAX); [|done]. intros [= <-] E. apply bind_Ok in E as (out & o1 & _ & E).
    destruct (len out =? length) eqn:El; [|done]. injection E as <- <-. by bool_props.
Qed.

Lemma budget_run {A} (m : ST ResponseBudget Error A) (o : Overlay F W I) b a o' b' :
  on_budget m (o, b) = (Ok a, (o', b')) → o' = o ∧ m b = (Ok a, b').
Proof. unfold on_budget, zoom. cbn [fst snd]. destruct (m b) as [r b1] eqn:E. by intros [= -> <- <-]. Qed.

Lemma ov_run {A} (m : OvM A) (o : Overlay F W I) b a o' b' :
  on_ov m (o, b) = (Ok a, (o', b')) → b' = b ∧ m o = (Ok a, o').
Proof. unfold on_ov, zoom. cbn [fst snd]. destruct (m o) as [r o1] eqn:E. by intros [= -> <- <-]. Qed.

(** ** Sizes on the wire *)

Definition document_wire (d : Document) : Z := 20 + len (pk (doc_key d)) + len (sk (doc_key d)) + len (doc_value d).
Definition rows_wire (rows : list Document) : Z := foldr (λ d n, document_wire d + n) 0 rows.

Lemma rows_wire_app rows rows' : rows_wire (rows ++ rows') = rows_wire rows + rows_wire rows'.
Proof. unfold rows_wire. induction rows as [|d rows IH]; cbn [app foldr]; [lia|]. rewrite IH. lia. Qed.

(** [rows] grew, and the new rows were charged. *)
Definition grew (rows rows' : list Document) (n : Z) : Prop := rows_wire rows' = rows_wire rows + n.

Lemma push_row_charges key entry v rows : charges (push_row key entry v rows) (grew rows).
Proof.
  intros o b rows' o' b' Hb E. unfold push_row in E. apply bind_Ok in E as (n & s1 & E1 & E). unfold lift in E1. injection E1 as E1 <-.
  apply bind_Ok in E as ([] & [o2 b2] & E2 & E). apply budget_run in E2 as [-> E2]. apply bind_Ok in E as (bs & [o3 b3] & E3 & E).
  apply ov_run in E3 as [-> E3]. injection E as <- <- <-. pose proof (read_value_length v n o bs o3 E1 E3) as Hl. pose proof (len_nonneg bs).
  apply reserve_document_Ok in E2; [|lia|lia]. exists (20 + len (pk key) + len (sk key) + n).
  pose proof (len_nonneg (pk key)). pose proof (len_nonneg (sk key)). split_and!; [lia|lia|lia|lia|].
  unfold grew. rewrite rows_wire_app. unfold rows_wire at 2, document_wire. cbn. lia.
Qed.

(** Wire size of the state of a key. *)
Definition state_wire (s : RevisionState) : Z := match s with Present value _ => 13 + len value | Missing _ => 9 end.

Lemma reserved_state n (o : Overlay F W I) b o' b' : RESPONSE_WIRE_OVERHEAD ≤ used_wire b ≤ maximum_wire b → 0 ≤ n →
  on_budget (reserve_state n) (o, b) = (Ok tt, (o', b')) →
  o' = o ∧ maximum_wire b' = maximum_wire b ∧ used_wire b' = used_wire b + (13 + n) ∧ used_wire b' ≤ maximum_wire b'.
Proof. intros Hb Hn E. apply budget_run in E as [-> E]. by apply reserve_state_Ok in E. Qed.

Lemma get_charges key : charges (get_state_with_budget key) (λ s n, state_wire s ≤ n).
Proof.
  intros o b s o' b' Hb E. unfold get_state_with_budget in E. apply bind_Ok in E as ([] & [o1 b1] & E1 & E). injection E1 as _ <- <-.
  apply bind_Ok in E as ([leaf_id route] & [o2 b2] & E2 & E). apply ov_run in E2 as [-> _].
  apply bind_Ok in E as (l & [o3 b3] & E3 & E). apply ov_run in E3 as [-> _].
  assert (∀ r, (do* on_budget (reserve_state 0) in ret (Missing r)) (o3, b) = (Ok s, (o', b')) →
    ∃ n, 0 ≤ n ∧ maximum_wire b' = maximum_wire b ∧ used_wire b' = used_wire b + n ∧ used_wire b' ≤ maximum_wire b' ∧ state_wire s ≤ n) as Hmiss.
  { intros r Er. apply bind_Ok in Er as ([] & [o4 b4] & E4 & Er). injection Er as <- <- <-.
    apply reserved_state in E4 as (_ & Em & Eu & Hle); [|done|lia]. exists 13. cbn. lia. }
  destruct (find_entry _ _) as [entry|]; [|by eapply Hmiss]. destruct (le_value entry) as [v|]; [|by eapply Hmiss].
  apply bind_Ok in E as (n & s4 & E4 & E). injection E4 as E4 <-. apply bind_Ok in E as ([] & [o5 b5] & E5 & E).
  apply bind_Ok in E as (bs & [o6 b6] & E6 & E). apply ov_run in E6 as [-> E6]. injection E as <- <- <-.
  pose proof (read_value_length v n o5 bs o6 E4 E6) as Hl. pose proof (len_nonneg bs).
  apply reserved_state in E5 as (_ & Em & Eu & Hle); [|done|lia]. exists (13 + n). cbn. lia.
Qed.

(** ** Loops over rows *)

Lemma grew_refl rows : grew rows rows 0.
Proof. unfold grew. lia. Qed.

Lemma charges_grow {A B} (m : OvBM A) (k : A → OvBM B) (f : A → list Document) (g : B → list Document) rows :
  charges m (λ a, grew rows (f a)) → (∀ a, charges (k a) (λ x, grew (f a) (g x))) → charges (bind m k) (λ x, grew rows (g x)).
Proof.
  intros Hm Hk. eapply charges_bind; [exact Hm|]. intros a n Hn. eapply charges_weaken; [apply Hk|]. unfold grew in *. intros x n' Hx. lia.
Qed.

Lemma charges_free {A B} (m : OvM A) (k : A → OvBM B) Q : (∀ a, charges (k a) Q) → charges (bind (on_ov m) k) Q.
Proof.
  intros Hk. eapply (charges_bind _ _ (λ _ n, True ∧ n = 0)); [by apply (charges_ov m (λ _, True))|]. intros a n [_ ->]. apply Hk.
Qed.

Lemma charges_checked {A B} (r : Result Error A) (k : A → OvBM B) Q : (∀ a, charges (k a) Q) → charges (bind (lift r) k) Q.
Proof. intros Hk. eapply charges_bind; [apply charges_lift|]. intros a n [_ ->]. apply Hk. Qed.

Lemma query_entries_charges p after cursor limit entries : ∀ first rows,
  charges (query_entries p after cursor limit entries first rows) (λ x, grew rows x.2).
Proof.
  induction entries as [|entry entries IH]; intros first rows; cbn [query_entries]; [apply charges_ret, grew_refl|].
  destruct (_ && _); [apply IH|]. apply charges_checked. intros key. destruct (negb _).
  { destruct (bytes_lt _ _); [apply charges_ret, grew_refl|apply IH]. }
  destruct (match after with Some _ => _ | None => _ end); [apply IH|]. destruct (le_value entry) as [v|]; [|apply IH].
  eapply (charges_grow _ _ id); [apply push_row_charges|]. intros rows'. destruct (_ =? _); [apply charges_ret, grew_refl|apply IH].
Qed.

Lemma query_leaves_charges fuel p after cursor limit : ∀ leaf_id first visited rows,
  charges (query_leaves fuel p after cursor limit leaf_id first visited rows) (grew rows).
Proof.
  induction fuel as [|fuel IH]; intros leaf_id first visited rows; cbn [query_leaves];
    (destruct (_ <? _); [|apply charges_ret, grew_refl]); [by intros o b a o' b' _ [=]|].
  destruct (negb _); [|apply charges_throw]. apply charges_free. intros l.
  eapply (charges_grow _ _ snd id); [apply query_entries_charges|]. intros [[returned first'] rows']. destruct returned; [apply charges_ret, grew_refl|].
  destruct (lp_next_leaf l); [apply IH|apply charges_ret, grew_refl].
Qed.

Lemma query_charges p after limit : charges (query_with_budget p after limit) (λ rows n, rows_wire rows = n).
Proof.
  unfold query_with_budget. destruct (limit =? 0); [by apply charges_ret|]. apply charges_checked. intros _.
  apply charges_free. intros [leaf_id route]. apply charges_checked. intros _. apply charges_free. intros fuel.
  apply query_leaves_charges.
Qed.

Lemma scan_entries_charges cursor limit entries : ∀ rows, charges (scan_entries cursor limit entries rows) (λ x, grew rows x.2).
Proof.
  induction entries as [|entry entries IH]; intros rows; cbn [scan_entries]; [apply charges_ret, grew_refl|].
  destruct (match cursor with Some _ => _ | None => _ end); [apply IH|]. apply charges_checked. intros key.
  destruct (le_value entry) as [v|]; [|apply IH]. eapply (charges_grow _ _ id); [apply push_row_charges|]. intros rows'.
  destruct (_ =? _); [apply charges_ret, grew_refl|apply IH].
Qed.

Lemma scan_leaves_charges fuel cursor limit : ∀ leaf_id visited rows,
  charges (scan_leaves fuel cursor limit leaf_id visited rows) (grew rows).
Proof.
  induction fuel as [|fuel IH]; intros leaf_id visited rows; cbn [scan_leaves]; [by intros o b a o' b' _ [=]|].
  destruct (negb _); [|apply charges_throw]. apply charges_free. intros l.
  eapply (charges_grow _ _ snd id); [apply scan_entries_charges|]. intros [returned rows']. destruct returned; [apply charges_ret, grew_refl|].
  destruct (lp_next_leaf l); [apply IH|apply charges_ret, grew_refl].
Qed.

Lemma scan_charges cursor limit : charges (scan_with_budget cursor limit) (λ rows n, rows_wire rows = n).
Proof.
  unfold scan_with_budget. destruct (limit =? 0); [by apply charges_ret|].
  eapply (charges_bind _ _ (λ _ n, n = 0)).
  - destruct cursor as [key|].
    + apply charges_checked. intros _. apply charges_free. intros [leaf_id route]. by apply charges_ret.
    + eapply charges_weaken; [by apply (charges_ov leftmost_leaf (λ _, True))|]. by intros a n [_ ->].
  - intros leaf_id n ->. apply charges_free. intros fuel. apply scan_leaves_charges.
Qed.

(** ** Responses *)

(** How the server passes on what a shard returned. *)
Definition storage_document (d : Document) : ServiceDocument := mkServiceDocument (doc_key d) (doc_value d) (doc_revision d).
Definition read_response (r : BatchResponse) : Response :=
  match r with
  | RGet state => RespGet state
  | RPut revision => RespPut revision
  | RDelete revision => RespDelete revision
  | RQuery rows => RespQuery (storage_document <$> rows)
  | RScan rows => RespScan (storage_document <$> rows)
  end.

Definition is_read (r : BatchRequest) : bool := match r with BPut _ _ | BDelete _ => false | _ => true end.

(** The bytes of a response beyond its header, status and opcode. *)
Definition response_wire (r : BatchResponse) : Z :=
  match r with
  | RGet state => state_wire state
  | RPut _ | RDelete _ => 8
  | RQuery rows | RScan rows => 4 + rows_wire rows
  end.

Lemma execute_charges request : is_read request = true →
  charges (execute_with_budget request) (λ r n, response_wire r ≤ 4 + n).
Proof.
  destruct request as [key|key value|key|p after limit|cursor limit]; intros Hr; try done; cbn [execute_with_budget].
  - eapply charges_bind; [apply get_charges|]. intros s n Hs. apply charges_ret. cbn. lia.
  - eapply charges_bind; [apply query_charges|]. intros rows n Hn. apply charges_ret. cbn. lia.
  - eapply charges_bind; [apply scan_charges|]. intros rows n Hn. apply charges_ret. cbn. lia.
Qed.

End budget.

(** ** Encoded sizes *)

Lemma writes_bytes_len v maximum bs : writes (encode_bytes v maximum) bs → len bs = 4 + len v.
Proof.
  intros [_ Hw]%writes_guard_inv. apply writes_lift_inv in Hw as (n & _ & Hw).
  apply writes_bind_inv in Hw as (bs1 & bs2 & -> & H1 & H2); [|apply _..].
  rewrite (writes_unique _ _ _ H1 (writes_u32 n)), (writes_unique (modify (λ w, w ++ v)) bs2 v) by done.
  by rewrite len_app, len_u32_be.
Qed.

Section sizes.
Context (limits : ProtocolLimits).

Lemma writes_key_len key bs : writes (encode_key limits key) bs → len bs = 8 + len (pk key) + len (sk key).
Proof.
  intros Hw. apply writes_lift_inv in Hw as ([] & _ & Hw). apply writes_bind_inv in Hw as (bs1 & bs2 & -> & H1 & H2); [|apply _..].
  rewrite len_app, (writes_bytes_len _ _ _ H1), (writes_bytes_len _ _ _ H2). lia.
Qed.

Lemma writes_document_len d bs : writes (encode_document limits (storage_document d)) bs → len bs = document_wire d.
Proof.
  intros Hw. apply writes_bind_inv in Hw as (bs1 & bs2 & -> & H1 & H2); [|apply _..].
  apply writes_bind_inv in H2 as (bs3 & bs4 & -> & H2 & H3); [|apply _..].
  rewrite !len_app, (writes_key_len _ _ H1), (writes_bytes_len _ _ _ H2), (writes_unique _ _ _ H3 (writes_u64 _)), len_u64_be.
  unfold document_wire. cbn. lia.
Qed.

Lemma writes_rows_len rows bs : writes (forM (storage_document <$> rows) (encode_document limits)) bs → len bs = rows_wire rows.
Proof.
  revert bs. induction rows as [|d rows IH]; intros bs Hw; cbn [fmap list_fmap forM] in Hw.
  - by rewrite (writes_unique (ret tt) bs [] Hw) by (intros w; by rewrite app_nil_r).
  - apply writes_bind_inv in Hw as (bs1 & bs2 & -> & H1 & H2); [|apply _..].
    rewrite len_app, (writes_document_len _ _ H1), (IH _ H2). done.
Qed.

Lemma writes_response_len r bs : writes (encode_response_payload limits (read_response r)) bs → len bs = response_wire r.
Proof.
  assert (∀ rows, writes (encode_documents limits (storage_document <$> rows)) bs → len bs = 4 + rows_wire rows) as Hrows.
  { intros rows Hw. apply writes_bind_inv in Hw as (bs1 & bs2 & -> & H1 & H2); [|apply _..].
    apply writes_count_inv in H1 as (_ & _ & H1). rewrite len_app, (writes_unique _ _ _ H1 (writes_u32 _)), len_u32_be.
    by rewrite (writes_rows_len _ _ H2). }
  destruct r as [[value revision|revision]|revision|revision|rows|rows]; cbn [read_response encode_response_payload encode_revision_state response_wire state_wire];
    intros Hw; [| | | |by apply Hrows|by apply Hrows].
  - apply writes_tag_inv in Hw as (bs' & -> & Hw); [|apply _]. apply writes_bind_inv in Hw as (bs1 & bs2 & -> & H1 & H2); [|apply _..].
    rewrite !len_app, (writes_bytes_len _ _ _ H1), (writes_unique _ _ _ H2 (writes_u64 _)), len_u64_be. change (len [byte.of_Z 0]) with 1. lia.
  - apply writes_tag_inv in Hw as (bs' & -> & Hw); [|apply _]. rewrite len_app, (writes_unique _ _ _ Hw (writes_u64 _)), len_u64_be. done.
  - rewrite (writes_unique _ _ _ Hw (writes_u64 _)). apply len_u64_be.
  - rewrite (writes_unique _ _ _ Hw (writes_u64 _)). apply len_u64_be.
Qed.
End sizes.

(** C37. A read response that was charged to a budget of [maximum] bytes takes at
    most [maximum] bytes as a frame.  Whatever the state of the store, if
    [execute_with_budget] answers a get, a query or a scan under a fresh budget,
    then the frame that [encode_response] gives for the answer has at most that
    many bytes, header included. *)
Theorem read_response_fits `{Crc32c} {F W I : Type} `{DurableFile F} (request : BatchRequest) (o o' : Overlay F W I)
    maximum b b' response limits frame :
  is_read request = true → ResponseBudget_new maximum = Ok b → execute_with_budget request (o, b) = (Ok response, (o', b')) →
  encode_response (Success (read_response response)) limits = Ok frame → len frame ≤ maximum.
Proof.
  intros Hr Hb E He. unfold ResponseBudget_new in Hb. destruct (maximum <? RESPONSE_WIRE_OVERHEAD) eqn:Em; [done|]. bool_props.
  injection Hb as Hb. assert (used_wire b = RESPONSE_WIRE_OVERHEAD ∧ maximum_wire b = maximum) as [Hub Hmb] by (by subst b).
  destruct (execute_charges request Hr o b response o' b' ltac:(lia) E) as (n & Hn & Ema & Eu & Hle & Hw).
  change (encode_framed limits RESPONSE_MESSAGE_TYPE (max_response_frame_size limits) (encode_envelope limits (Success (read_response response))) = Ok frame) in He.
  apply encode_framed_Ok in He as (_ & payload & Hp & _ & _ & ->); [|apply _]. cbn [encode_envelope] in Hp.
  apply writes_tag_inv in Hp as (bs & -> & Hp); [|apply _]. apply writes_tag_inv in Hp as (bs' & -> & Hp); [|apply _].
  rewrite len_frame_of, !len_app, (writes_response_len _ _ _ Hp). change (len [byte.of_Z 0]) with 1. change (len [byte.of_Z (response_opcode (read_response response))]) with 1. lia.
Qed.
