(* ===== verification/Admission.v ===== *)
(** * Admission: what the protocol admits, the engine can take

    The limits of the protocol bound the keys and values of the requests that
    are decoded, and so establish what the correctness of transactions asks of a
    request. *)

From S2P Require Import Prelude Core Crc Page Superblock DurableFile Format Cache StoreState Store Split Txn Service Utf8 Protocol Wire ProtocolSpec.

Section admission.
Context (pl : ProtocolLimits).

Lemma writes_forM_inv {A} (W : A → WriterM unit) `{!∀ a, Appends (W a)} l bs :
  writes (forM l W) bs → Forall (λ a, ∃ bs', writes (W a) bs') l.
Proof.
  revert bs. induction l as [|a l IH]; intros bs Hw; [constructor|]. cbn [forM] in Hw.
  apply writes_bind_inv in Hw as (bs1 & bs2 & -> & H1 & H2); [|apply _..]. constructor; [by exists bs1|by eapply IH].
Qed.

Lemma writes_bytes_bound v maximum bs : writes (encode_bytes v maximum) bs → len v ≤ maximum.
Proof. intros [Hm _]%writes_guard_inv. bool_props. lia. Qed.

Lemma writes_key_bound key bs : writes (encode_key pl key) bs → len (DocumentKey_encode key) ≤ max_encoded_key_size pl.
Proof.
  intros Hw. apply writes_lift_inv in Hw as ([] & Hv & _). unfold validate_key, validate_key_parts in Hv.
  destruct (negb _) eqn:E; [|done]. bool_props. rewrite <- key_encoded_len. by destruct key.
Qed.

(** A mutation that was sent. *)
Lemma writes_mutation_bound m bs : writes (encode_mutation pl m) bs →
  len (DocumentKey_encode (TransactionMutation_key m)) ≤ max_encoded_key_size pl ∧
  match m with Put _ value => len value ≤ pl_max_value_size pl | Delete _ => True end.
Proof.
  destruct m as [key value|key]; cbn [encode_mutation]; intros Hw; apply writes_tag_inv in Hw as (bs' & _ & Hw); try apply _.
  - apply writes_bind_inv in Hw as (bs1 & bs2 & _ & H1 & H2); [|apply _..]. split; [by eapply writes_key_bound|by eapply writes_bytes_bound].
  - split; [by eapply writes_key_bound|done].
Qed.

Lemma writes_condition_bound c bs : writes (encode_condition pl c) bs →
  len (DocumentKey_encode (TransactionCondition_key c)) ≤ max_encoded_key_size pl.
Proof.
  destruct c as [key revision|key|key]; cbn [encode_condition]; intros Hw; apply writes_tag_inv in Hw as (bs' & _ & Hw); try apply _;
    [|by eapply writes_key_bound..].
  apply writes_bind_inv in Hw as (bs1 & bs2 & _ & H1 & H2); [|apply _..]. by eapply writes_key_bound.
Qed.

Lemma accepted_writes tenant request frame : decode_request_frame frame pl = Ok (tenant, request) →
  ProtocolLimits_validate pl = Ok tt ∧ ∃ bs, writes (encode_request_payload pl request) bs.
Proof.
  change (decode_framed pl REQUEST_MESSAGE_TYPE (max_request_frame_size pl) (request_reader pl) frame = Ok (tenant, request) →
    ProtocolLimits_validate pl = Ok tt ∧ ∃ bs, writes (encode_request_payload pl request) bs).
  rewrite decode_framed_Ok by (by left). intros (Hv & payload & Hd & _ & Hu & _). split; [done|].
  destruct (proj2 (finished_parses _ payload _ ltac:(lia) (codec_parses _ _ _ (codec_request_frame pl))) _ Hd) as [_ Hw].
  apply writes_bind_inv in Hw as (bs1 & bs2 & _ & _ & H2); [|apply _..]. by exists bs2.
Qed.


End admission.
