(* ===== verification/Examples.v ===== *)
(** * Examples: the store's theorems on a concrete database

    A database on two files of Crashable.v, with the CRC-32C of Crc.v, shows
    that the hypotheses of the store's theorems hold together. *)

From S2P Require Import Prelude Core Crc Page Superblock DurableFile Crashable Wal WalCodec WalScan WalLog WalOpen WalSafety Format FormatCodec Cache Reference StoreState Store Checker Engine Heap Tree Own Split TreeOps Point ReadOps CheckerSpec Restamp Finish Txn Group Serve Disk Create Recover Durable Crash Flush Checkpoint System.

#[local] Existing Instance castagnoli_crc.

Abbreviation ExampleStore := (BTreeStore CrashableFile CrashableFile CrashInjector).

Definition example_fallback : ExampleStore := created DatabaseConfig_default (example_file []) example_wal.

(** The store [open_with_wal] returns on two empty files. *)
Definition example_store : ExampleStore :=
  match open_with_wal (I:=CrashInjector) DatabaseConfig_default (example_file [], example_file [], None) with
  | (Ok s, _) => s
  | _ => example_fallback
  end.

Lemma example_config_wf : wf_config DatabaseConfig_default.
Proof. split; [|by vm_compute]. unfold wf_identity. simpl. by split_and!. Qed.

Lemma example_serving : serving example_store new_pages 0 ReferenceDb_new.
Proof.
  unfold example_store.
  destruct (open_new_spec (I:=CrashInjector) DatabaseConfig_default (example_file []) (example_file []) None)
    as (f & wal & -> & Hf & Hw & Hl & Hd & Hr & Hdur & _);
    [done|done|by apply example_file_reliable|by apply example_file_reliable|apply example_config_wf|].
  by apply created_serving; [apply example_config_wf|..].
Qed.

Lemma open_new_serves_witness :
  ∃ s out, open_with_wal (I:=CrashInjector) DatabaseConfig_default (example_file [], example_file [], None) = (Ok s, out) ∧
    serving s new_pages 0 ReferenceDb_new.
Proof.
  apply (open_new_serves DatabaseConfig_default (example_file []) (example_file []) None).
  - reflexivity.
  - reflexivity.
  - by apply example_file_reliable.
  - by apply example_file_reliable.
  - apply example_config_wf.
Defined.

(** Two transactions on one key: the first creates it, the second expects it
    not to exist and conflicts. *)
Definition example_key : DocumentKey := mkKey [Byte.x61] [Byte.x62; Byte.x00].

Definition example_requests : list TimedRequest :=
  [mkTimed (mkRequest [NotExists example_key] [Put example_key [Byte.x01; Byte.x02]; Delete (mkKey [] [])]) 5 7;
   mkTimed (mkRequest [NotExists example_key] [Put example_key []]) 5 7].

Definition example_times : PublishTimes := mkPublishTimes 11 13 17.

#[local] Instance wal_room_dec (w : WalLog CrashableFile) times n : Decision (wal_room w times n).
Proof. unfold wal_room. apply _. Defined.

#[local] Instance group_room_dec (s : ExampleStore) D times requests : Decision (group_room s D times requests).
Proof. unfold group_room. destruct (st_wal s); apply _. Defined.

#[local] Instance small_mutation_dec (s : ExampleStore) m : Decision (small_mutation s m).
Proof. unfold small_mutation. destruct m; apply _. Defined.

#[local] Instance small_request_dec (s : ExampleStore) r : Decision (small_request s r).
Proof. unfold small_request. apply _. Defined.


Lemma read_batch_refines_witness :
  match apply_batch_with_response_budget example_times [BGet example_key; BScan None 5; BQuery [Byte.x61] None 1] 1000 example_store with
  | (Ok responses, s') =>
      Forall2 (answers ReferenceDb_new) [BGet example_key; BScan None 5; BQuery [Byte.x61] None 1] responses ∧
      serving s' new_pages 0 ReferenceDb_new
  | (Err e, s') => read_error e ∧ serving s' new_pages 0 ReferenceDb_new
  | _ => False
  end.
Proof.
  apply (read_batch_refines example_store new_pages 0 ReferenceDb_new example_times
           [BGet example_key; BScan None 5; BQuery [Byte.x61] None 1] 1000).
  - apply example_serving.
  - repeat constructor; simpl; lia.
Defined.

Lemma transact_get_refines_witness :
  match transact_get_with_response_budget [example_key; mkKey [] []] 1000 example_store with
  | (Ok states, s') => states = ReferenceDb_transact_get ReferenceDb_new [example_key; mkKey [] []] ∧
      serving s' new_pages 0 ReferenceDb_new
  | (Err e, s') => read_error e ∧ serving s' new_pages 0 ReferenceDb_new
  | _ => False
  end.
Proof.
  apply (transact_get_refines example_store new_pages 0 ReferenceDb_new [example_key; mkKey [] []] 1000).
  apply example_serving.
Defined.

(** ** Crashes, restarts and checkpoints *)

(** What a successful operation returned, and the store it left. *)
Definition ok_value {A} (default : A) (r : Result Error A) : A := match r with Ok a => a | _ => default end.

Lemma ok_out {A S} (default : A) (out : Result Error A * S) : is_ok out.1 = true → out = (Ok (ok_value default out.1), out.2).
Proof. destruct out as [[a|e| |] s]; done. Qed.

Lemma example_usable : usable example_store new_pages 0 ReferenceDb_new.
Proof.
  unfold example_store.
  destruct (created_usable (I:=CrashInjector) DatabaseConfig_default (example_file []) (example_file []) None)
    as (s & out & -> & Us & _);
    [done|done|by apply example_file_reliable|by apply example_file_reliable|apply example_config_wf|done].
Qed.

(** The store after the two transactions. *)
Definition example_group := apply_transaction_group example_times example_requests example_store.
Definition example_committed : ExampleStore := example_group.2.
Definition example_log : WalLog CrashableFile := default example_wal (st_wal example_committed).

#[local] Instance takes_dec (s : ExampleStore) times requests : Decision (takes s times requests).
Proof. unfold takes. apply _. Defined.

Lemma example_takes : takes example_store example_times example_requests.
Proof. apply (bool_decide_unpack _). vm_compute. exact I. Qed.

(** The files of that store after a crash: the data file as it was last synced,
    and the log with everything the group wrote. *)
Definition example_data : CrashableFile := example_file (durable (st_file example_committed)).
Definition example_records : CrashableFile := example_file (contents (w_file example_log)).

(** A second group, and the log of a crash inside it. *)
Definition example_second := apply_transaction_group example_times example_requests example_committed.
Definition example_second_log : WalLog CrashableFile := default example_wal (st_wal example_second.2).
Definition example_cut : CrashableFile :=
  example_file (take (length (contents (w_file example_log)) + 100) (contents (w_file example_second_log))).

(** A checkpoint that crashes before the superblock copy it wrote is synced. *)
Definition example_faulty := checkpoint 5 (set_st_injector (Some (CrashInjector_at "during_checkpoint_metadata_sync" 1)) example_committed).
Definition example_faulty_log : WalLog CrashableFile := default example_wal (st_wal example_faulty.2).

Definition example_faulty_data : CrashableFile := example_file (durable (st_file example_faulty.2)).
Definition example_faulty_records : CrashableFile := example_file (durable (w_file example_faulty_log)).

Definition prefixb (l k : list byte) : bool := bool_decide (take (length l) k = l).

Lemma prefixb_spec l k : prefixb l k = true → l `prefix_of` k.
Proof. unfold prefixb. intros <-%bool_decide_eq_true. apply prefix_take. Qed.

(** What the evaluation of these definitions shows, evaluated together. *)
Definition example_checks : list bool :=
  [is_ok example_group.1;
   bool_decide (takes example_committed example_times example_requests);
   negb (sb_checksum (st_superblock example_committed) =? 0);
   negb (is_none (st_wal example_committed));
   len (durable (st_file example_committed)) <=? U64_MAX;
   len (contents (w_file example_log)) <=? U64_MAX;
   is_ok example_second.1;
   negb (is_none (st_wal example_second.2));
   len (take (length (contents (w_file example_log)) + 100) (contents (w_file example_second_log))) <=? U64_MAX;
   prefixb (contents (w_file example_log)) (contents example_cut);
   generation (st_superblock example_committed) + 1 <=? U64_MAX;
   (0 <=? w_sync_count example_log) && (w_sync_count example_log <? U64_MAX);
   negb (is_ok example_faulty.1);
   negb (is_none (st_wal example_faulty.2));
   len (durable (st_file example_faulty.2)) <=? U64_MAX;
   len (durable (w_file example_faulty_log)) <=? U64_MAX].

Lemma example_checks_hold : forallb id example_checks = true.
Proof. vm_compute. reflexivity. Qed.

Lemma example_check i b : example_checks !! i = Some b → b = true.
Proof.
  intros H. apply list_elem_of_lookup_2 in H. pose proof (proj1 (forallb_forall id example_checks) example_checks_hold b) as Hb.
  apply Hb. by apply list_elem_of_In.
Qed.

Lemma example_check_not i b : example_checks !! i = Some (negb b) → b = false.
Proof. intros H. apply negb_true_iff. exact (example_check i _ H). Qed.

Lemma some_default {A} (d : A) (o : option A) : is_none o = false → o = Some (default d o).
Proof. by destruct o. Qed.

Lemma example_takes_again : takes example_committed example_times example_requests.
Proof. apply (bool_decide_eq_true_1 _), (example_check 1). reflexivity. Qed.

Lemma example_group_ok : example_group = (Ok (ok_value [] example_group.1), example_committed).
Proof. unfold example_committed. apply (ok_out [] example_group), (example_check 0). reflexivity. Qed.

Lemma example_checksummed : checksummed example_committed.
Proof.
  pose proof (example_check_not 2 _ eq_refl) as H. unfold checksummed.
  intros E. rewrite E in H. discriminate H.
Qed.

Lemma example_sound : ∃ base D db, sound example_committed base D db.
Proof.
  destruct (group_usable example_store new_pages 0 ReferenceDb_new example_times example_requests example_usable
    (proj1 example_takes) (usable_takes _ _ _ _ _ _ example_usable example_takes)) as (rs & s' & base & D & db & E & _ & Us & _).
  fold example_group in E. rewrite example_group_ok in E. apply pair_equal_spec in E as [_ <-].
  exists base, D, db. apply (usable_sound _ _ _ _ Us). apply example_checksummed.
Qed.

Lemma example_wal_some : st_wal example_committed = Some example_log.
Proof. refine (some_default example_wal (st_wal example_committed) _). exact (example_check_not 3 _ eq_refl). Qed.

Lemma contents_example_file bytes : contents (example_file bytes) = bytes.
Proof. done. Qed.

Lemma example_at_rest (f wf : list byte) :
  (len f <=? U64_MAX) = true → (len wf <=? U64_MAX) = true → at_rest (example_file f) (example_file wf).
Proof. intros Hf Hw. split; [by apply example_file_reliable|by apply example_file_reliable|done|done]. Qed.

Lemma example_crashed : crashed example_committed example_data example_records.
Proof. split; [apply example_at_rest; [apply (example_check 4)|apply (example_check 5)]; reflexivity|]. unfold example_data. apply contents_example_file. Qed.

Lemma example_log_left : log_left example_committed example_records.
Proof. exists example_log. split; [exact example_wal_some|]. left. unfold example_records. apply contents_example_file. Qed.

Lemma example_second_wal : st_wal example_second.2 = Some example_second_log.
Proof. refine (some_default example_wal (st_wal example_second.2) _). exact (example_check_not 7 _ eq_refl). Qed.

Lemma example_second_ok : example_second = (Ok (ok_value [] example_second.1), example_second.2).
Proof. apply (ok_out [] example_second), (example_check 6). reflexivity. Qed.

Lemma example_crashed_cut : crashed example_committed example_data example_cut.
Proof. split; [apply example_at_rest; [apply (example_check 4)|apply (example_check 8)]; reflexivity|]. unfold example_data. apply contents_example_file. Qed.

Lemma example_cut_extends : contents (w_file example_log) `prefix_of` contents example_cut.
Proof. apply prefixb_spec, (example_check 9). reflexivity. Qed.

Lemma example_cut_prefix : contents example_cut `prefix_of` contents (w_file example_second_log).
Proof. unfold example_cut. rewrite contents_example_file. apply prefix_take. Qed.

(** The store the restart after that crash returns. *)
Definition example_reopen := open_with_wal (I:=CrashInjector) (st_config example_committed) (example_data, example_cut, None).
Definition example_reopened : ExampleStore := ok_value example_store example_reopen.1.

Lemma example_reopen_ok : example_reopen = (Ok example_reopened, example_reopen.2).
Proof.
  refine (ok_out example_store example_reopen _). destruct example_sound as (base & D & db & So).
  destruct (group_usable example_committed base D db example_times example_requests (or_introl So) (proj1 example_takes_again)
    (usable_takes _ _ _ _ _ _ (or_introl So) example_takes_again)) as (rs & s' & base' & D' & db' & E & _ & _ & _ & _ & _ & _ & Hcrash).
  fold example_second in E. rewrite example_second_ok in E. apply pair_equal_spec in E as [_ <-].
  destruct example_crashed_cut as [Ar Hf]. rewrite (sd_durable _ _ _ _ So) in Hf.
  destruct (Hcrash example_log example_second_log example_data example_cut None example_wal_some example_second_wal Ar Hf
    example_cut_extends example_cut_prefix) as (m & s2 & out & base2 & D2 & db2 & Eo & _).
  unfold example_reopen. rewrite Eo. reflexivity.
Qed.

(** A read of the store that was opened again. *)
Definition example_read := apply_batch_with_response_budget example_times [BGet example_key; BScan None 10] 4096 example_reopened.

Lemma example_answered :
  step example_store [Answered (timed_request <$> example_requests) (ok_value [] example_group.1)] example_committed.
Proof. apply (step_group example_store example_times); [exact example_takes|exact example_group_ok]. Qed.

Lemma example_interrupted :
  step example_committed [Interrupted (timed_request <$> example_requests) (ok_value [] example_second.1)] example_reopened.
Proof.
  apply (step_crash_group example_committed example_times example_requests _ example_second.2 example_log example_second_log
    example_data example_cut None _ example_reopen.2);
    [exact example_takes_again|exact example_second_ok|exact example_crashed_cut|exact example_wal_some|exact example_second_wal|
     exact example_cut_extends|exact example_cut_prefix|exact example_reopen_ok].
Qed.

Lemma example_reads : step example_reopened [] example_read.2.
Proof.
  apply (step_read example_reopened example_times [BGet example_key; BScan None 10] 4096 example_read.1).
  - repeat (constructor; [done|]). constructor.
  - apply surjective_pairing.
Qed.

(** A run: two transactions, two more that a crash cuts short, a restart and a
    batch of reads. *)
Lemma example_run :
  run example_store
    [Answered (timed_request <$> example_requests) (ok_value [] example_group.1);
     Interrupted (timed_request <$> example_requests) (ok_value [] example_second.1)] example_read.2.
Proof.
  apply (run_cons _ [_] example_committed [_]); [exact example_answered|].
  apply (run_cons _ [_] example_reopened []); [exact example_interrupted|].
  apply (run_cons _ [] example_read.2 []); [exact example_reads|apply run_nil].
Qed.

Definition example_open := open_with_wal (I:=CrashInjector) DatabaseConfig_default (example_file [], example_file [], None).

Lemma example_open_ok :
  open_with_wal (I:=CrashInjector) DatabaseConfig_default (example_file [], example_file [], None) = (Ok example_store, example_open.2).
Proof.
  unfold example_open, example_store.
  destruct (created_usable (I:=CrashInjector) DatabaseConfig_default (example_file []) (example_file []) None)
    as (s & out & -> & _);
    [done|done|by apply example_file_reliable|by apply example_file_reliable|apply example_config_wf|done].
Qed.



Lemma restart_restores_witness : ∃ base D db s' out,
  open_with_wal (I:=CrashInjector) (st_config example_committed) (example_data, example_records, None) = (Ok s', out) ∧ sound s' base D db.
Proof.
  destruct example_sound as (base & D & db & So). exists base, D, db.
  exact (restart_restores example_committed base D db example_data example_records None So example_crashed example_log_left).
Defined.

Lemma check_accepts_witness : ∃ report s', check_invariants example_committed = (Ok report, s') ∧ leaked_pages report = [].
Proof.
  destruct example_sound as (base & D & db & So).
  destruct (check_accepts example_committed base D db So) as (report & s' & E & Hl & _). exists report, s'. split; assumption.
Defined.

Lemma example_faulty_wal : st_wal example_faulty.2 = Some example_faulty_log.
Proof. refine (some_default example_wal (st_wal example_faulty.2) _). exact (example_check_not 13 _ eq_refl). Qed.

Lemma example_faulty_stops : is_ok example_faulty.1 = false.
Proof. exact (example_check_not 12 _ eq_refl). Qed.

Lemma example_log_counts : generation (st_superblock example_committed) + 1 ≤ U64_MAX ∧ 0 ≤ w_sync_count example_log < U64_MAX.
Proof.
  split; [apply Z.leb_le, (example_check 10); reflexivity|].
  pose proof (example_check 11 _ eq_refl) as H. apply andb_prop in H as [H1 H2]. exact (conj (proj1 (Z.leb_le _ _) H1) (proj1 (Z.ltb_lt _ _) H2)).
Qed.

Lemma example_faulty_crashed : crashed example_faulty.2 example_faulty_data example_faulty_records.
Proof. split; [apply example_at_rest; [apply (example_check 14)|apply (example_check 15)]; reflexivity|]. unfold example_faulty_data. apply contents_example_file. Qed.

Lemma example_faulty_left : log_left example_faulty.2 example_faulty_records.
Proof. exists example_faulty_log. split; [exact example_faulty_wal|]. right. unfold example_faulty_records. apply contents_example_file. Qed.

Lemma checkpoint_survives_witness : ∃ base D db s' out, sound example_committed base D db ∧
  open_with_wal (I:=CrashInjector) (st_config example_committed) (example_faulty_data, example_faulty_records, None) = (Ok s', out) ∧
  sound s' base D db.
Proof.
  destruct example_sound as (base & D & db & So).
  pose proof (checkpoint_survives example_committed base D db example_log 5
    (Some (CrashInjector_at "during_checkpoint_metadata_sync" 1)) example_faulty_data example_faulty_records None
    So example_wal_some (proj1 example_log_counts) (proj2 example_log_counts)) as Hc.
  cbv zeta in Hc. fold example_faulty in Hc.
  destruct (Hc example_faulty_crashed example_faulty_left) as (s' & out & E & So').
  exists base, D, db, s', out. split_and!; assumption.
Defined.

Lemma checkpoint_returns_witness : ∃ report s', checkpoint 5 example_committed = (Ok report, s') ∧ st_dirty_pages s' = ∅.
Proof.
  destruct example_sound as (base & D & db & So).
  destruct (checkpoint_returns example_committed base D db example_log 5 So example_wal_some
    (proj1 example_log_counts) (proj2 example_log_counts)) as (report & s' & w' & E & _ & _ & _ & Hd & _).
  exists report, s'. split; assumption.
Defined.

Lemma new_store_check_fails_witness : ∃ s out s1 e s2,
  open_with_wal (I:=CrashInjector) DatabaseConfig_default (example_file [], example_file [], None) = (Ok s, out) ∧
  check_invariants s = (Err NOT_SELECTED, s1) ∧ checkpoint 5 s = (Err (CheckpointFailure e), s2) ∧ st_broken s2 = Some NOT_SELECTED.
Proof.
  assert (reliable (example_file [])) as Hr by (apply example_file_reliable; reflexivity).
  pose proof (new_store_check_fails DatabaseConfig_default (example_file []) (example_file []) (@None CrashInjector) 5) as Hn.
  apply (Hn eq_refl eq_refl Hr Hr example_config_wf). vm_compute. discriminate.
Defined.
