(* ===== verification/WireExamples.v ===== *)
(** * WireExamples: requests and responses on which the theorems of the protocol apply *)

From S2P Require Import Prelude Core Crc Page Superblock DurableFile Crashable Wal WalSafety Format Cache StoreState Store Engine Split Txn Create Examples Service Utf8 Protocol Wire ProtocolSpec Server Budget Admission.

(** A service that knows one document and has lost its disk. *)
Definition example_service : DodbService unit := λ _ request _ st,
  (match request with
   | ReqGet _ => Ok (RespGet (Present [Byte.x01; Byte.x02] 5))
   | ReqDelete _ => Err (DurabilityFailure "synchronisation échouée")
   | _ => Err (InvalidInput "unsupported")
   end, st).
#[local] Existing Instance example_service.
#[local] Existing Instance castagnoli_crc.

Definition sent_request (pl : ProtocolLimits) (request : Request) : list byte := unwrap_or (encode_request 42 request pl) [].


(** Details are cut after 22 characters. *)
Definition short_details : ProtocolLimits :=
  mkProtocolLimits 65536 65536 3990 1456 1048576 4096 256 256 4096 4096 22.

Lemma long_detail_misreports_witness : ∃ frame m' e',
  serve_stream short_details (sent_request short_details (ReqDelete example_key)) (tt, ServerMetrics_default) = (Ok (Some frame), (tt, m')) ∧
  decode_response_frame frame (Some 3) short_details = Ok (Failure e') ∧ kind e' = KindInvalidRequest ∧ mutation_outcome e' = NotApplied.
Proof.
  apply (long_detail_misreports short_details 42 (ReqDelete example_key) _ tt ServerMetrics_default tt "synchronisation échouée").
  - by split.
  - exact I.
  - vm_compute. reflexivity.
  - reflexivity.
  - reflexivity.
  - vm_compute. reflexivity.
  - vm_compute. reflexivity.
Defined.

Lemma split_outcome {A B C} (out : A * (B * C)) a : out.1 = a → out = (a, (out.2.1, out.2.2)).
Proof. intros <-. by destruct out as [? []]. Qed.

Definition example_budget : ResponseBudget := unwrap_or (ResponseBudget_new 64) (mkBudget 0 0 0 0).
Definition example_got := execute_with_budget (BGet example_key) (Overlay_new example_store, example_budget).

Lemma read_response_fits_witness : ∃ response frame,
  example_got.1 = Ok response ∧ encode_response (Success (read_response response)) ProtocolLimits_default = Ok frame ∧ len frame ≤ 64.
Proof.
  assert (example_got.1 = Ok (RGet (Missing 0))) as Eg by (vm_compute; reflexivity).
  assert (∃ frame, encode_response (Success (read_response (RGet (Missing 0)))) ProtocolLimits_default = Ok frame) as [frame Ef]
    by (eexists; vm_compute; reflexivity).
  exists (RGet (Missing 0)), frame. split; [exact Eg|]. split; [exact Ef|].
  apply (read_response_fits (BGet example_key) (Overlay_new example_store) example_got.2.1 64 example_budget example_got.2.2 (RGet (Missing 0))
    ProtocolLimits_default frame); [reflexivity|reflexivity| |exact Ef].
  exact (split_outcome example_got _ Eg).
Defined.

Definition example_transaction : TransactionRequest :=
  mkRequest [NotExists example_key] [Put example_key [Byte.x01; Byte.x02]; Delete (mkKey [] [])].

